(* ===== verification/_CoqProject ===== *)
-Q . S2P
Prelude.v
HexCrate.v
Sealed.v
BlockBuffer.v
BufferSpec.v
ReadBuffer.v
BlockBufferTests.v
BlockPadding.v
Dbl.v
Blobby.v
BlobbyTests.v
Convert.v
InOut.v
StdTraits.v
Cmov.v
CmovTests.v
HexLiteral.v
HexLiteralTests.v
CpuFeatures.v
CpuFeaturesThreads.v
Zeroize.v
ZeroizeTests.v
ZeroizeDerive.v
ZeroizeDeriveTests.v
Wycheproof.v
FiatConstify.v
FiatOutputs.v
HybridArray.v
Collectable.v
OpaqueDebug.v
