(* ===== verification/Prelude.v ===== *)
(** * Verification of a collection of cryptographic utility crates

    The repository is a set of independent Rust crates used by cryptographic
    libraries. This development translates the ones that hold their own logic
    and proves what makes each correct. The files:

    - [Prelude] (this file): bytes, runs, loops, slices, chunks, words, automation.
      [HexCrate]: what the tools use of the external crate [hex], as a class with
      its laws and an instance.
    - [Sealed], [BlockBuffer], [ReadBuffer]: [block-buffer]. [Sealed.v] is
      [sealed.rs]: the class [Sealed] of the buffer kinds with the instances of
      the eager and the lazy kind, and the class [SealedLaws] of what
      [BlockBuffer.v] ([lib.rs]) assumes of a kind; [ReadBuffer.v] is [read.rs].
      [BufferSpec]: an abstract machine of block buffers, which knows neither blocks
      in memory nor positions, and its refinement by both kinds. [BlockBufferTests]: the tests
      of the crate.
    - [BlockPadding]: [block-padding], the class [Padding] with one instance per
      scheme, and the interface [ReversiblePadding] that the clients of a
      reversible scheme use; [InOut] is one of them.
    - [Dbl]: [dbl], doubling in GF(2^64), GF(2^128) and GF(2^256).
    - [Blobby]: [blobby], the encoder and the iterators of the blob format;
      [BlobbyTests]: its unit tests; [Convert]: the conversion utility of its
      [examples] ([encode], [decode] and [main]).
    - [InOut]: [inout], pairs of input and output pointers over a memory, and
      the padded buffers, over any instance of [Padding].
      [StdTraits]: the [Display], [Debug] and [Clone] that [block-buffer],
      [block-padding] and [inout] write by hand.
    - [Cmov]: [cmov], the portable and the assembly implementations, and those
      for [u8] and [u128] over any of them; [CmovTests]: its tests.
    - [HexLiteral]: [hex-literal], the comment-excluding machine and [hex!];
      [HexLiteralTests]: its unit tests.
    - [CpuFeatures]: [cpufeatures], the feature checks of every platform and the
      module of [new!]; [CpuFeaturesThreads]: that module used by any number of
      threads, over a relaxed memory.
    - [Zeroize]: [zeroize], over the memory of values and the memory they
      release; the traits [Zeroize] and [ZeroizeOnDrop] are classes with an
      instance per implementation, and [ZeroizeLaws] and [ZeroizeOnDropLaws] are
      what the containers rely on; [ZeroizeTests]: its tests.
    - [ZeroizeDerive]: [zeroize_derive], the derive macros on what [syn] and
      [synstructure] give them, and a machine for the code they write, over fields
      of the types of [Zeroize]; [ZeroizeDeriveTests]: its unit tests.
    - [Wycheproof]: [wycheproof2blb], a module per generator, and [main], which
      writes its blobs with the encoder of [Blobby].
    - [FiatConstify], [FiatOutputs]: [fiat-constify], the rewriting of functions
      with output references into [const fn] on syntax trees, and an evaluator of
      functions in which both are run; [FiatOutputs.v] reads off the text of a
      program that its functions overwrite their outputs.
    - [HybridArray]: [hybrid-array], arrays with a [typenum] size; the trait
      [ArrayOps] is a class, with the laws its generic users rely on.
    - [Collectable], [OpaqueDebug]: [collectable] and [opaque-debug], the traits
      of fallible collections and the opaque [Debug] macro.

    ** Conventions

    A Rust function becomes a definition of the same name where Rocq allows it
    (with a prefix where several types of a crate have a method of that name).
    [&mut self] and captured state are passed and returned. A call that can
    panic or run into undefined behaviour is in the type [run]: [Ret], [Panic],
    or [UB] where an unsafe operation is executed outside of its documented
    conditions; so a theorem that a call is [Ret] shows the absence of all three
    of panics, failed debug assertions and undefined behaviour. Arithmetic and
    debug assertions are those of a checking build: overflow panics. [Result] is
    the type [result] and [?] the notation [let?]. Lengths and indices
    ([usize]) are [nat]: the code computes them from lengths of slices in memory,
    which are at most [isize::MAX]; other integers are [Z], wrapped or checked
    at their width where the code can overflow it ([wrap], [ushl], [uadd],
    [umul]). Slices and arrays are lists; the views that [unsafe] code makes of
    them ([raw_arrays], [raw_slice]) are bounded. Code outside of the repository
    (compression functions, block generators, [CPUID], [libc], [syn],
    [synstructure], [serde]) is an argument.

    ** What the theorems show

    - Block buffers: for both kinds and any compression function, any sequence
      of inputs compresses exactly the blocks of the concatenated message and
      keeps the rest; the final padding compresses exactly the padded message;
      read buffers give the consecutive bytes of the generated stream;
      serialization round-trips and accepts exactly its images; every buffer
      reachable by public operations satisfies the invariant that the
      [unreachable_unchecked] of [get_pos] relies on; the operations of both kinds
      refine those of an abstract machine that remembers the message only.
    - Paddings: each scheme writes what its standard says and its [unpad]
      accepts exactly those blocks ([scheme]); through the interface, [unpad_blocks]
      inverts the padding of messages of any length and is total; a padded
      buffer of [inout] processed in place or from input to output round-trips
      through it.
    - [inout]: XOR, splitting, chunking and iteration respect the regions and
      are correct when input and output alias.
    - [dbl]: multiplication and division by [x] modulo the standard polynomial,
      and their inverse laws for every lawful implementation of the trait.
    - [blobby]: the variable-length code is a bijection; encoding then decoding
      gives the blobs; on any bytes an iterator gives exactly what the format says, its
      errors and panics included, and ends; so does every way to cut an encoding short;
      the lines that the conversion utility writes for a blob file convert back to it.
    - [cmov]: the implementations move exactly on the condition at every width;
      the one for AArch64 does so only with a zero-extended condition.
    - [hex-literal]: the machine implements the documented grammar of comments on the
      texts whose block comments it sees the end of, and an exact variant of it on all
      texts; [hex!] expands to the bytes its texts denote and panics on all others.
    - [cpufeatures]: in every interleaving, and whatever stores a relaxed load
      sees, all threads get the right answer, and
      from every reachable configuration they can finish; detection tests exactly
      the bits of the table.
    - [zeroize]: zeroizing a value of any composition of the types of the crate
      succeeds, and what it leaves and releases does not depend on the data; the
      whole buffer of a [Vec] and the whole place of an [Option] are zeroed, the value
      of which is dropped after it was zeroized;
      dropping or overwriting a [Zeroizing] gives nothing away.
    - [zeroize_derive]: the derives refuse exactly the misplaced, unknown and
      repeated attributes; the code they write zeroizes the fields that are not
      skipped and no others, and dropping a derived type gives no secret away.
    - [wycheproof2blb]: each generator gives the tests it should select, and the
      blobs file, read back by the iterator of [blobby], gives their data.
    - [fiat-constify]: a rewritten program computes what the original does, for any
      meaning of the operators, if its text has the form that [fiat-crypto] gives
      it ([fiat_source], a check of the text); a function is rewritten exactly when
      its outputs and calls have the form expected, and the search for a default
      ends.
    - [hybrid-array]: arrays keep their sizes, conversions, reads and writes are checked
      against them, and [from_fn] never reaches its saturation.
    - [collectable]: a lawful collection keeps the items that it is given in their
      order, or gives the error of its capacity and is as before.
    - The tests of [block-buffer], [blobby], [cmov], [hex-literal], [zeroize] and
      [zeroize_derive] pass.

    Recursion is structural where the code's loops are over data.
    [ec_collect], [drain], [it_drain], [hex_val_loop] and [tt_collect] take fuel;
    their theorems give an amount that is enough (one more than the bytes or
    items left), so none of them is conditional on termination.
    [default_for_fuel] of [FiatConstify] takes one more than the entries of the
    registry, which is enough for every chain of aliases that ends; one that does
    not overflows the stack in the code and is a [Panic]. Its evaluator [run_fn]
    takes the depth of calls: the theorem gives the rewritten program the depth of
    the original one.

    ** Not modelled

    Implementations that the compiler derives ([#[derive]]) and those that forward
    to a slice; the text of panic and compile errors beyond which error it is, their
    spans, and what is printed to the terminal; the benchmarks, and the tests of
    [cpufeatures] and [opaque-debug] and those of the derived code in
    [zeroize/tests/]. The parsers and printers of [syn], [quote] and [serde]
    and the code that the compiler makes of macros are arguments or data. The file
    system of the tools is a function from names to contents. The memory model of
    [CpuFeaturesThreads] has the relaxed accesses to one location that the code
    uses, in program order, and no others. *)
From Stdlib Require Import Strings.Byte.
From stdpp Require Import base numbers list gmap.

(** ** Bytes *)

Declare Scope u8_scope.
Delimit Scope u8_scope with u8.
Declare Scope run_scope.
Delimit Scope run_scope with run.

(** The type [u8]. *)
Abbreviation u8 := Byte.byte.

(** [b as usize], [b as u64], ... *)
Definition b2z (b : u8) : Z := Z.of_N (Byte.to_N b).

(** [z as u8]: truncation to the low eight bits. *)
Definition z2b (z : Z) : u8 :=
  default Byte.x00 (Byte.of_N (Z.to_N (z mod 256))).

(** [b as usize], where the value is an index or a length. *)
Definition b2n (b : u8) : nat := N.to_nat (Byte.to_N b).

(** [n as u8] for [n : usize]. *)
Definition n2b (n : nat) : u8 := z2b (Z.of_nat n).

Definition u8_of_num (z : Z) : option u8 :=
  if (0 <=? z)%Z && (z <? 256)%Z then Byte.of_N (Z.to_N z) else None.
Definition num_of_u8 (b : u8) : Z := b2z b.
Number Notation Byte.byte u8_of_num num_of_u8 : u8_scope.
Bind Scope u8_scope with Byte.byte.

#[export] Instance u8_eq_dec : EqDecision u8 := Byte.byte_eq_dec.

#[export] Program Instance u8_countable : Countable u8 :=
  inj_countable' Byte.to_N (fun n => default Byte.x00 (Byte.of_N n)) _.
Next Obligation. intros b. cbv beta. by rewrite Byte.of_to_N. Qed.

#[export] Instance u8_inhabited : Inhabited u8 := populate Byte.x00.

Lemma b2z_range b : (0 <= b2z b < 256)%Z.
Proof. unfold b2z. pose proof (Byte.to_N_bounded b). lia. Qed.

Lemma b2n_range b : b2n b < 256.
Proof. unfold b2n. pose proof (Byte.to_N_bounded b). lia. Qed.

Lemma b2z_of_nat b : b2z b = Z.of_nat (b2n b).
Proof. unfold b2z, b2n. lia. Qed.

Lemma b2z_inj b1 b2 : b2z b1 = b2z b2 -> b1 = b2.
Proof.
  unfold b2z. intros H%N2Z.inj. apply (f_equal Byte.of_N) in H.
  rewrite !Byte.of_to_N in H. congruence.
Qed.

Lemma b2n_inj b1 b2 : b2n b1 = b2n b2 -> b1 = b2.
Proof. intros H. apply b2z_inj. rewrite !b2z_of_nat. lia. Qed.

Lemma b2z_z2b z : b2z (z2b z) = (z mod 256)%Z.
Proof.
  unfold b2z, z2b. pose proof (Z.mod_pos_bound z 256 eq_refl) as Hm.
  destruct (Byte.of_N (Z.to_N (z mod 256))) as [b|] eqn:E; simpl.
  - apply Byte.to_of_N in E. rewrite E. lia.
  - apply Byte.of_N_None_iff in E. lia.
Qed.

Lemma z2b_b2z b : z2b (b2z b) = b.
Proof. apply b2z_inj. rewrite b2z_z2b. apply Z.mod_small, b2z_range. Qed.

Lemma b2n_n2b n : b2n (n2b n) = n `mod` 256.
Proof.
  apply Nat2Z.inj. rewrite Nat2Z.inj_mod, <- b2z_of_nat. apply b2z_z2b.
Qed.

Lemma b2n_n2b_small n : n < 256 -> b2n (n2b n) = n.
Proof. intros. rewrite b2n_n2b. by apply Nat.mod_small. Qed.

Lemma n2b_b2n b : n2b (b2n b) = b.
Proof. apply b2n_inj. rewrite b2n_n2b. apply Nat.mod_small, b2n_range. Qed.

Lemma b2n_zero b : b2n b = 0 <-> b = Byte.x00.
Proof. split; [intros H; apply b2n_inj; by rewrite H|by intros ->]. Qed.

(** ** Runs: values, panics, undefined behaviour *)

(** [Ret a]: the call returns [a]. [Panic]: it panics (an out-of-range index,
    a failed assertion, an arithmetic overflow of a checking build, an
    explicit [panic!] or [unwrap]). [UB]: an unsafe operation is executed
    outside of its documented safety conditions. *)
Inductive run (A : Type) : Type :=
  | Ret (a : A)
  | Panic
  | UB.
Arguments Ret {A} a.
Arguments Panic {A}.
Arguments UB {A}.

#[export] Instance run_ret : MRet run := @Ret.
#[export] Instance run_bind : MBind run := fun A B f m =>
  match m with
  | Ret a => f a
  | Panic => Panic
  | UB => UB
  end.
#[export] Instance run_fmap : FMap run := fun A B f m =>
  match m with
  | Ret a => Ret (f a)
  | Panic => Panic
  | UB => UB
  end.
Notation "'let!' x := m 'in' k" := (mbind (fun x => k) m)
  (at level 10, x pattern, m at level 100, k at level 200) : run_scope.
Open Scope run_scope.

#[export] Instance run_eq_dec `{EqDecision A} : EqDecision (run A).
Proof. solve_decision. Defined.

(** Rust's [Result]. *)
Inductive result (A E : Type) : Type :=
  | Ok (a : A)
  | Err (e : E).
Arguments Ok {A E} a.
Arguments Err {A E} e.

#[export] Instance result_eq_dec `{EqDecision A, EqDecision E} :
  EqDecision (result A E).
Proof. solve_decision. Defined.

(** The [?] operator inside a function whose body is a [run]. *)
Definition try_ {A B E} (m : run (result A E)) (k : A -> run (result B E)) :
    run (result B E) :=
  let! r := m in match r with Ok a => k a | Err e => Ret (Err e) end.
Notation "'let?' x := m 'in' k" := (try_ m (fun x => k))
  (at level 10, x pattern, m at level 100, k at level 200) : run_scope.

(** [r.unwrap()]. *)
Definition unwrap {A E} (r : result A E) : run A :=
  match r with Ok a => Ret a | Err _ => Panic end.

(** [o.unwrap()]. *)
Definition unwrap_option {A} (o : option A) : run A :=
  match o with Some a => Ret a | None => Panic end.

Definition result_map {A B E} (f : A -> B) (r : result A E) : result B E :=
  match r with Ok a => Ok (f a) | Err e => Err e end.

(** [o.ok_or(e)]. *)
Definition ok_or {A E} (o : option A) (e : E) : result A E :=
  match o with Some a => Ok a | None => Err e end.

(** [assert!(c)]; also a [debug_assert!(c)] of a checking build. *)
Definition assert_ (c : bool) : run unit := if c then Ret tt else Panic.

(** [assert_eq!(a, b)] *)
Definition assert_eq `{EqDecision A} (a b : A) : run unit := assert_ (bool_decide (a = b)).

(** Executing [core::hint::unreachable_unchecked()] unless [c]. *)
Definition assume_ (c : bool) : run unit := if c then Ret tt else UB.

(** Subtraction of a checking build. *)
Definition usub (a b : nat) : run nat := if b <=? a then Ret (a - b) else Panic.

(** A run that does not return. *)
Definition returns {A} (m : run A) : bool :=
  match m with Ret _ => true | _ => false end.

Lemma bind_Ret {A B} (a : A) (f : A -> run B) : mbind f (Ret a) = f a.
Proof. done. Qed.
Lemma bind_Panic {A B} (f : A -> run B) : mbind f Panic = Panic.
Proof. done. Qed.
Lemma bind_UB {A B} (f : A -> run B) : mbind f UB = UB.
Proof. done. Qed.
Lemma try_Ok {A B E} (a : A) (k : A -> run (result B E)) :
  try_ (Ret (Ok a)) k = k a.
Proof. done. Qed.
Lemma try_Err {A B E} (e : E) (k : A -> run (result B E)) :
  try_ (Ret (Err e)) k = Ret (Err e).
Proof. done. Qed.
Lemma bind_Ret_inv {A B} (m : run A) (f : A -> run B) b :
  mbind f m = Ret b -> exists a, m = Ret a /\ f a = Ret b.
Proof. destruct m; simpl; intros; simplify_eq; eauto. Qed.
Lemma fmap_Ret_inv {A B} (m : run A) (f : A -> B) b :
  f <$> m = Ret b -> exists a, m = Ret a /\ b = f a.
Proof. destruct m; simpl; intros; simplify_eq; eauto. Qed.
Lemma assert_true : assert_ true = Ret tt.
Proof. done. Qed.
Lemma assume_true : assume_ true = Ret tt.
Proof. done. Qed.
Lemma usub_ok a b : b <= a -> usub a b = Ret (a - b).
Proof. intros. unfold usub. by rewrite (proj2 (Nat.leb_le b a)). Qed.

(** ** Loops *)

(** [for x in l { body }] over the state [s]. *)
Fixpoint for_in {A S} (l : list A) (s : S) (body : A -> S -> run S) : run S :=
  match l with
  | [] => Ret s
  | x :: l => let! s := body x s in for_in l s body
  end.

Lemma for_in_inv {A S} (I : S -> Prop) (body : A -> S -> run S) l s s' :
  (forall x s s', I s -> body x s = Ret s' -> I s') ->
  I s -> for_in l s body = Ret s' -> I s'.
Proof.
  intros Hb. revert s. induction l as [|x l IH]; intros s Hs Hl; simpl in Hl; [by simplify_eq|].
  apply bind_Ret_inv in Hl as (s1 & E & Hl). by eapply IH; [eapply Hb|].
Qed.

Lemma for_in_app_list {A S} (body : A -> S -> run S) l1 l2 s :
  for_in (l1 ++ l2) s body = let! s := for_in l1 s body in for_in l2 s body.
Proof.
  revert s. induction l1 as [|x l1 IH]; intros s; simpl; [done|].
  destruct (body x s); [apply IH|done..].
Qed.

(** A loop over the lists that the elements of a list give. *)
Lemma for_in_bind {A B S} (f : A -> list B) (body : B -> S -> run S) l s :
  for_in (l ≫= f) s body = for_in l s (fun x s => for_in (f x) s body).
Proof.
  revert s. induction l as [|x l IH]; intros s; csimpl; [done|].
  rewrite for_in_app_list. destruct (for_in (f x) s body); [apply IH|done..].
Qed.

Lemma for_in_fmap {A B S} (f : A -> B) (body : B -> S -> run S) l s :
  for_in (f <$> l) s body = for_in l s (fun x => body (f x)).
Proof.
  revert s. induction l as [|x l IH]; intros s; csimpl; [done|].
  destruct (body (f x) s); [apply IH|done..].
Qed.

Lemma for_in_ext {A S} (body body' : A -> S -> run S) l s :
  (forall x s, x ∈ l -> body x s = body' x s) -> for_in l s body = for_in l s body'.
Proof.
  revert s. induction l as [|x l IH]; intros s Hb; simpl; [done|].
  rewrite Hb by left. destruct (body' x s); [|done..]. apply IH. intros. apply Hb. by right.
Qed.

(** [Vec::retain] *)
Fixpoint retain {A} (f : A -> run bool) (l : list A) : run (list A) :=
  match l with
  | [] => Ret []
  | x :: l =>
      let! keep := f x in
      let! l := retain f l in
      Ret (if (keep : bool) then x :: l else l)
  end.

(** With a predicate that panics exactly on the elements that are not [ok]. *)
Lemma retain_eq {A} (f : A -> run bool) (ok g : A -> bool) l :
  Forall (fun x => f x = if ok x then Ret (g x) else Panic) l ->
  retain f l = if forallb ok l then Ret (List.filter g l) else Panic.
Proof.
  induction 1 as [|x l Hx Hl IH]; simpl; [done|]. rewrite Hx, IH.
  destruct (ok x); [|done]. by destruct (forallb ok l).
Qed.

(** ** Slices

    A slice, an array or a [Vec] is a list; indices and lengths are [nat]:
    every [usize] the modelled code computes is bounded by the length of a
    slice in memory, hence by [isize::MAX], or has a bound theorem. *)

Section slices.
Context {A : Type}.
Implicit Types l src : list A.

(** [l[i]] *)
Definition index l i : run A :=
  match l !! i with Some x => Ret x | None => Panic end.

(** [l[i] = x] *)
Definition store l i x : run (list A) :=
  if i <? length l then Ret (<[i := x]> l) else Panic.

(** [&l[a..b]] *)
Definition slice l a b : run (list A) :=
  if (a <=? b) && (b <=? length l) then Ret (take (b - a) (drop a l))
  else Panic.

(** [&l[a..]] *)
Definition slice_from l a : run (list A) := slice l a (length l).

(** [&l[..b]] *)
Definition slice_to l b : run (list A) := slice l 0 b.

(** [l.get(a..b)] *)
Definition slice_get l a b : option (list A) :=
  if (a <=? b) && (b <=? length l) then Some (take (b - a) (drop a l))
  else None.

(** [for x in &mut l[a..b] { *x = v }] *)
Definition fill l a b (v : A) : run (list A) :=
  if (a <=? b) && (b <=? length l)
  then Ret (take a l ++ replicate (b - a) v ++ drop b l) else Panic.

(** [l[a..b].copy_from_slice(src)] *)
Definition copy_at l a b src : run (list A) :=
  if (a <=? b) && (b <=? length l) && (length src =? b - a)
  then Ret (take a l ++ src ++ drop b l) else Panic.

(** [l.split_at(m)] *)
Definition split_at l m : run (list A * list A) :=
  if m <=? length l then Ret (take m l, drop m l) else Panic.

Lemma slice_ok l a b :
  a <= b -> b <= length l -> slice l a b = Ret (take (b - a) (drop a l)).
Proof.
  intros. unfold slice. by rewrite !(proj2 (Nat.leb_le _ _)).
Qed.
Lemma slice_get_ok l a b :
  a <= b -> b <= length l -> slice_get l a b = Some (take (b - a) (drop a l)).
Proof.
  intros. unfold slice_get. by rewrite !(proj2 (Nat.leb_le _ _)).
Qed.
Lemma slice_from_ok l a : a <= length l -> slice_from l a = Ret (drop a l).
Proof.
  intros. unfold slice_from. rewrite slice_ok by lia. f_equal.
  apply take_ge. rewrite length_drop. lia.
Qed.
Lemma slice_to_ok l b : b <= length l -> slice_to l b = Ret (take b l).
Proof. intros. unfold slice_to. rewrite slice_ok by lia. by rewrite Nat.sub_0_r. Qed.
Lemma fill_ok l a b v :
  a <= b -> b <= length l ->
  fill l a b v = Ret (take a l ++ replicate (b - a) v ++ drop b l).
Proof. intros. unfold fill. by rewrite !(proj2 (Nat.leb_le _ _)). Qed.
Lemma copy_at_ok l a b src :
  a <= b -> b <= length l -> length src = b - a ->
  copy_at l a b src = Ret (take a l ++ src ++ drop b l).
Proof.
  intros Ha Hb Hs. unfold copy_at.
  by rewrite !(proj2 (Nat.leb_le _ _)), (proj2 (Nat.eqb_eq _ _)) by done.
Qed.
Lemma copy_at_start_ok l b src :
  b <= length l -> length src = b -> copy_at l 0 b src = Ret (src ++ drop b l).
Proof. intros. rewrite copy_at_ok by lia. by rewrite take_0. Qed.
Lemma copy_at_end_ok l a src :
  a <= length l -> length src = length l - a ->
  copy_at l a (length l) src = Ret (take a l ++ src).
Proof. intros. rewrite copy_at_ok by lia. by rewrite drop_all, app_nil_r. Qed.
Lemma fill_end_ok l a v :
  a <= length l ->
  fill l a (length l) v = Ret (take a l ++ replicate (length l - a) v).
Proof. intros. rewrite fill_ok by lia. by rewrite drop_all, app_nil_r. Qed.
Lemma split_at_ok l m : m <= length l -> split_at l m = Ret (take m l, drop m l).
Proof. intros. unfold split_at. by rewrite (proj2 (Nat.leb_le _ _)). Qed.
Lemma store_ok l i x : i < length l -> store l i x = Ret (<[i := x]> l).
Proof. intros. unfold store. by rewrite (proj2 (Nat.ltb_lt _ _)). Qed.
Lemma index_Some l i x : l !! i = Some x -> index l i = Ret x.
Proof. unfold index. by intros ->. Qed.
Lemma index_Ret_inv l i x : index l i = Ret x -> l !! i = Some x.
Proof. unfold index. destruct (l !! i); congruence. Qed.
End slices.

(** ** Reinterpreting a slice as arrays *)

Section chunks.
Context {A : Type}.
Implicit Types l : list A.

(** [nb] consecutive arrays of [n] elements. *)
Fixpoint chunks (n nb : nat) l : list (list A) :=
  match nb with
  | 0 => []
  | S nb => take n l :: chunks n nb (drop n l)
  end.

(** [slice::from_raw_parts(l.as_ptr() as *const [A; n], nb)] *)
Definition raw_arrays l n nb : run (list (list A)) :=
  if nb * n <=? length l then Ret (chunks n nb l) else UB.

(** [slice::from_raw_parts(l.as_ptr().add(off), len)] *)
Definition raw_slice l off len : run (list A) :=
  if off + len <=? length l then Ret (take len (drop off l)) else UB.

Lemma raw_arrays_ok l n nb :
  nb * n <= length l -> raw_arrays l n nb = Ret (chunks n nb l).
Proof. intros. unfold raw_arrays. by rewrite (proj2 (Nat.leb_le _ _)). Qed.
Lemma raw_slice_ok l off len :
  off + len <= length l -> raw_slice l off len = Ret (take len (drop off l)).
Proof. intros. unfold raw_slice. by rewrite (proj2 (Nat.leb_le _ _)). Qed.

Lemma length_chunks n nb l : length (chunks n nb l) = nb.
Proof. revert l. induction nb; simpl; auto. Qed.

Lemma concat_chunks n nb l :
  nb * n <= length l -> concat (chunks n nb l) = take (nb * n) l.
Proof.
  revert l. induction nb as [|nb IH]; intros l H; simpl in *; [done|].
  rewrite IH by (rewrite length_drop; lia).
  by rewrite take_take_drop.
Qed.

Lemma chunks_lengths n nb l :
  nb * n <= length l -> Forall (fun c => length c = n) (chunks n nb l).
Proof.
  revert l. induction nb as [|nb IH]; intros l H; simpl in *; constructor.
  - rewrite length_take. lia.
  - apply IH. rewrite length_drop. lia.
Qed.

Lemma chunks_add n a b l :
  chunks n (a + b) l = chunks n a l ++ chunks n b (drop (a * n) l).
Proof.
  revert l. induction a as [|a IH]; intros l; simpl; [by rewrite drop_0|].
  by rewrite IH, drop_drop.
Qed.

Lemma chunks_app_l n nb l k :
  nb * n <= length l -> chunks n nb (l ++ k) = chunks n nb l.
Proof.
  revert l. induction nb as [|nb IH]; intros l H; simpl in *; [done|].
  rewrite take_app_le, drop_app_le by lia. f_equal.
  apply IH. rewrite length_drop. lia.
Qed.

Lemma chunks_take n nb m l :
  nb * n <= m -> chunks n nb (take m l) = chunks n nb l.
Proof.
  revert m l. induction nb as [|nb IH]; intros m l H; simpl in *; [done|].
  rewrite take_take, Nat.min_l by lia. f_equal.
  rewrite skipn_firstn_comm. apply IH. lia.
Qed.

Lemma chunks_cons_app n nb l1 l2 :
  length l1 = n -> chunks n (S nb) (l1 ++ l2) = l1 :: chunks n nb l2.
Proof. intros <-. simpl. by rewrite take_app_length, drop_app_length. Qed.

Lemma chunks_concat n (ls : list (list A)) rest :
  Forall (fun c => length c = n) ls ->
  chunks n (length ls) (concat ls ++ rest) = ls.
Proof.
  induction 1 as [|c ls Hc Hls IH]; [done|]. simpl. rewrite <- app_assoc.
  rewrite take_app_length', drop_app_length' by done. by rewrite IH.
Qed.

Lemma chunks_one n l : length l = n -> chunks n 1 l = [l].
Proof. intros <-. simpl. by rewrite firstn_all. Qed.
End chunks.

Lemma foldl_foldl_concat {A B} (f : B -> A -> B) (s : B) (ls : list (list A)) :
  foldl (foldl f) s ls = foldl f s (concat ls).
Proof.
  revert s. induction ls as [|l ls IH]; intros s; simpl; [done|].
  by rewrite IH, foldl_app.
Qed.

(** Filters by a boolean predicate. *)
Lemma elem_of_filter_b {A} (P : A -> bool) l x :
  x ∈ List.filter P l <-> x ∈ l /\ P x = true.
Proof. by rewrite !list_elem_of_In, filter_In. Qed.

Lemma NoDup_map_filter {A B} (f : A -> B) (P : A -> bool) l :
  NoDup (List.map f l) -> NoDup (List.map f (List.filter P l)).
Proof.
  induction l as [|a l IH]; simpl; [done|]. intros [Hn Hd]%NoDup_cons.
  destruct (P a); simpl; [|auto]. apply NoDup_cons. split; [|auto].
  intros Hin. apply Hn. apply list_elem_of_In in Hin. apply list_elem_of_In.
  apply in_map_iff in Hin as (x & Hx & Hf). apply filter_In in Hf as [? _].
  apply in_map_iff. eauto.
Qed.

(** Distinct elements of a list are at most as many. *)
Lemma NoDup_length_le {A} (l k : list A) :
  NoDup l -> (forall x, x ∈ l -> x ∈ k) -> length l <= length k.
Proof. intros Hd Hin. apply submseteq_length. by apply NoDup_submseteq. Qed.

(** A scan for a byte other than [v]. *)
Lemma existsb_ne (v : u8) (l : list u8) :
  existsb (fun b => negb (bool_decide (b = v))) l = false
  <-> l = replicate (length l) v.
Proof.
  induction l as [|x l IH]; [done|]. simpl. rewrite orb_false_iff, IH.
  rewrite negb_false_iff, bool_decide_eq_true. split.
  - by intros [-> <-].
  - by intros [= -> ?].
Qed.

Lemma existsb_ne_replicate (v : u8) n :
  existsb (fun b => negb (bool_decide (b = v))) (replicate n v) = false.
Proof. apply existsb_ne. by rewrite length_replicate. Qed.

(** ** Machine words

    A [w]-bit unsigned word is a [Z] in [[0, 2^w)]. *)

Definition wrap (w : Z) (z : Z) : Z := (z mod 2 ^ w)%Z.
Definition word_ok (w : Z) (z : Z) : Prop := (0 <= z < 2 ^ w)%Z.

(** Arithmetic of a checking build: overflow panics. *)
Definition uadd (w a b : Z) : run Z :=
  if (a + b <? 2 ^ w)%Z then Ret (a + b)%Z else Panic.
Definition umul (w a b : Z) : run Z :=
  if (a * b <? 2 ^ w)%Z then Ret (a * b)%Z else Panic.

Definition zsub (a b : Z) : run Z := if (b <=? a)%Z then Ret (a - b)%Z else Panic.

(** [z << k], which drops the bits shifted out. *)
Definition ushl (w z k : Z) : Z := wrap w (Z.shiftl z k).

Lemma uadd_ok w a b : (a + b < 2 ^ w)%Z -> uadd w a b = Ret (a + b)%Z.
Proof. intros. unfold uadd. by rewrite (proj2 (Z.ltb_lt _ _)). Qed.
Lemma umul_ok w a b : (a * b < 2 ^ w)%Z -> umul w a b = Ret (a * b)%Z.
Proof. intros. unfold umul. by rewrite (proj2 (Z.ltb_lt _ _)). Qed.

Lemma zsub_ok a b : (b <= a)%Z -> zsub a b = Ret (a - b)%Z.
Proof. intros. unfold zsub. by rewrite (proj2 (Z.leb_le _ _)). Qed.

(** [z.to_le_bytes()] of a word of [n] bytes. *)
Fixpoint to_le_bytes (n : nat) (z : Z) : list u8 :=
  match n with
  | 0 => []
  | S n => z2b z :: to_le_bytes n (Z.shiftr z 8)
  end.

(** [uN::from_le_bytes(bs)] *)
Fixpoint from_le_bytes (bs : list u8) : Z :=
  match bs with
  | [] => 0
  | b :: bs => b2z b + Z.shiftl (from_le_bytes bs) 8
  end%Z.

Definition to_be_bytes (n : nat) (z : Z) : list u8 := rev (to_le_bytes n z).
Definition from_be_bytes (bs : list u8) : Z := from_le_bytes (rev bs).

Lemma length_to_le_bytes n z : length (to_le_bytes n z) = n.
Proof. revert z. induction n; simpl; auto. Qed.
Lemma length_to_be_bytes n z : length (to_be_bytes n z) = n.
Proof. unfold to_be_bytes. by rewrite length_rev, length_to_le_bytes. Qed.

(** One more byte is eight more bits. *)
Lemma bits_of_S n : (8 * Z.of_nat (S n) = 8 + 8 * Z.of_nat n)%Z.
Proof. lia. Qed.

Lemma from_le_bytes_range bs :
  (0 <= from_le_bytes bs < 2 ^ (8 * Z.of_nat (length bs)))%Z.
Proof.
  induction bs as [|b bs IH]; simpl; [done|].
  pose proof (b2z_range b). rewrite Z.shiftl_mul_pow2 by lia.
  rewrite bits_of_S, Z.pow_add_r by lia. lia.
Qed.

Lemma from_be_bytes_range bs :
  (0 <= from_be_bytes bs < 2 ^ (8 * Z.of_nat (length bs)))%Z.
Proof. unfold from_be_bytes. rewrite <- length_rev. apply from_le_bytes_range. Qed.

Lemma from_to_le_bytes n z :
  word_ok (8 * Z.of_nat n) z -> from_le_bytes (to_le_bytes n z) = z.
Proof.
  unfold word_ok. revert z. induction n as [|n IH]; intros z Hz; simpl.
  - simpl in Hz. lia.
  - rewrite bits_of_S, Z.pow_add_r in Hz by lia.
    rewrite b2z_z2b, Z.shiftl_mul_pow2, Z.shiftr_div_pow2 by lia.
    rewrite IH; [change (2 ^ 8)%Z with 256%Z|].
    + pose proof (Z.div_mod z 256). lia.
    + change (2 ^ 8)%Z with 256%Z in *.
      split; [apply Z.div_pos; lia|apply Z.div_lt_upper_bound; lia].
Qed.

Lemma to_from_le_bytes bs : to_le_bytes (length bs) (from_le_bytes bs) = bs.
Proof.
  induction bs as [|b bs IH]; simpl; [done|].
  rewrite Z.shiftl_mul_pow2 by lia. change (2 ^ 8)%Z with 256%Z.
  pose proof (b2z_range b). f_equal.
  - apply b2z_inj. rewrite b2z_z2b, Z.mod_add by lia. by apply Z.mod_small.
  - rewrite Z.shiftr_div_pow2 by lia. change (2 ^ 8)%Z with 256%Z.
    rewrite Z.div_add, Z.div_small by lia. done.
Qed.

Lemma from_to_be_bytes n z :
  word_ok (8 * Z.of_nat n) z -> from_be_bytes (to_be_bytes n z) = z.
Proof.
  intros. unfold from_be_bytes, to_be_bytes. rewrite rev_involutive.
  by apply from_to_le_bytes.
Qed.

Lemma to_from_be_bytes n bs :
  length bs = n -> to_be_bytes n (from_be_bytes bs) = bs.
Proof.
  intros <-. unfold from_be_bytes, to_be_bytes.
  rewrite <- (length_rev bs), to_from_le_bytes. apply rev_involutive.
Qed.

(** ** Automation *)

Create Rewrite HintDb len.
Create Rewrite HintDb run.
#[export] Hint Rewrite @length_app @length_take @length_drop @length_replicate
  @length_insert @length_fmap @length_reverse @length_rev @length_chunks
  length_to_le_bytes length_to_be_bytes @length_nil @length_cons : len.
#[export] Hint Rewrite @bind_Ret @bind_Panic @bind_UB @try_Ok @try_Err : run.

(** Goals on the lengths of lists. *)
Ltac len := autorewrite with len in *; simpl in *; lia.

(** Discharge the bound conditions of the next slice operations of a run. *)
Ltac run_step :=
  first
    [ progress autorewrite with run
    | progress cbv zeta
    | rewrite slice_to_ok by len
    | rewrite slice_from_ok by len
    | rewrite slice_ok by len
    | rewrite fill_end_ok by len
    | rewrite fill_ok by len
    | rewrite copy_at_start_ok by len
    | rewrite copy_at_end_ok by len
    | rewrite copy_at_ok by len
    | rewrite split_at_ok by len
    | rewrite store_ok by len
    | rewrite usub_ok by len
    | rewrite raw_arrays_ok by len
    | rewrite raw_slice_ok by len ].
Ltac run_steps := repeat run_step.

(** Case analysis on a boolean comparison of [nat]. *)
Ltac bcase :=
  match goal with
  | |- context [?a <? ?b] => destruct (Nat.ltb_spec a b)
  | |- context [?a <=? ?b] => destruct (Nat.leb_spec a b)
  | |- context [?a =? ?b] => destruct (Nat.eqb_spec a b)
  end.

(** Two equations for the same run. *)
Ltac run_unify :=
  match goal with
  | H1 : ?m = Ret _, H2 : ?m = Ret _ |- _ =>
      rewrite H1 in H2; simplify_eq; eauto
  end.
