(* ===== verification/HexCrate.v ===== *)
(** * The crate [hex]

    What the programs of the repository use of it, as a class with the laws that its
    documentation states, and an implementation of both for concrete runs. *)
From stdpp Require Import base numbers list.
From S2P Require Import Prelude.

(** The crate [hex]: strings are their bytes. *)
Class Hex := {
  FromHexError : Type;
  hex_decode : list u8 -> result (list u8) FromHexError;
  hex_encode : list u8 -> list u8;
}.

(** [encode] gives lower case digits, and [decode] reads them back. *)
Class HexLaws `{Hex} := {
  hex_decode_encode bs : hex_decode (hex_encode bs) = Ok bs;
  hex_encode_digits bs :
    Forall (fun c => 48 <= b2n c <= 57 \/ 97 <= b2n c <= 102) (hex_encode bs);
}.

(** ** Digits *)

Definition in_range (c : u8) (lo hi : nat) : bool := (lo <=? b2n c) && (b2n c <=? hi).

(** A decoder, of digits of either case, and an encoder. *)
Definition digit_of (n : nat) : u8 := n2b (if n <? 10 then 48 + n else 87 + n).
Definition digit_val (c : u8) : option nat :=
  if in_range c 48 57 then Some (b2n c - 48)
  else if in_range c 97 102 then Some (b2n c - 87)
  else if in_range c 65 70 then Some (b2n c - 55) else None.

Fixpoint decode_digits (s : list u8) : result (list u8) unit :=
  match s with
  | [] => Ok []
  | [_] => Err tt
  | a :: b :: s =>
      match digit_val a, digit_val b, decode_digits s with
      | Some a, Some b, Ok bs => Ok (n2b (16 * a + b) :: bs)
      | _, _, _ => Err tt
      end
  end.

#[export] Instance hex_digits : Hex := {|
  FromHexError := unit;
  hex_decode := decode_digits;
  hex_encode bs := flat_map (fun b => [digit_of (b2n b / 16); digit_of (b2n b `mod` 16)]) bs;
|}.

#[export] Instance hex_digits_laws : HexLaws.
Proof.
  split; intros bs; (induction bs as [|b bs IH]; simpl; [done || constructor|]).
  - simpl in IH. rewrite IH. by destruct b.
  - apply Forall_cons. split; [|apply Forall_cons; split; [|exact IH]];
      clear IH; destruct b; vm_compute; lia.
Qed.
