(* ===== verification/Sealed.v ===== *)
(** * Buffer kinds

    [block-buffer/src/sealed.rs]: the trait [Sealed] that tells the eager and
    the lazy buffers apart, as the class [Sealed] with one instance per kind,
    and the interface [SealedLaws] against which the theorems of
    [BlockBuffer] are proved; [eager_laws] and [lazy_laws] discharge it. *)
From S2P Require Import Prelude.
From stdpp Require Import base numbers list.

(** [crypto_common::BlockSizes]: the block sizes the crate accepts are the
    type-level integers from 1 to 255. *)
Class BlockSizes (BS : nat) : Prop := {
  block_size_pos : 0 < BS;
  block_size_u8 : BS < 256;
}.

(** The trait [Sealed]. *)
Class Sealed (K : Type) := {
  Pos : Type;
  pos_default : Pos;
  sealed_get_pos : list u8 -> Pos -> run nat;
  sealed_set_pos : list u8 -> Pos -> nat -> run (list u8 * Pos);
  sealed_invariant : nat -> nat -> bool;
  sealed_split_blocks : nat -> list u8 -> run (list (list u8) * list u8);
}.
Arguments Pos K {_}.
Arguments pos_default K {_}.
Arguments sealed_get_pos K {_}.
Arguments sealed_set_pos K {_}.
Arguments sealed_invariant K {_}.
Arguments sealed_split_blocks K {_}.

(** ** Eager buffers: the position lives in the last byte of the block *)

Inductive Eager : Set := eager.

Definition eager_get_pos (buf : list u8) (_ : unit) : run nat :=
  let! i := usub (length buf) 1 in
  let! b := index buf i in
  Ret (b2n b).

Definition eager_set_pos (buf : list u8) (pos : unit) (val : nat) :
    run (list u8 * unit) :=
  let! _ := assert_ (val <=? 255) in
  let! i := usub (length buf) 1 in
  let! buf := store buf i (n2b val) in
  Ret (buf, pos).

Definition eager_invariant (pos block_size : nat) : bool := pos <? block_size.

Definition eager_split_blocks (N : nat) (data : list u8) :
    run (list (list u8) * list u8) :=
  let nb := length data `div` N in
  let blocks_len := nb * N in
  let! tail_len := usub (length data) blocks_len in
  let! blocks := raw_arrays data N nb in
  let! tail := raw_slice data blocks_len tail_len in
  Ret (blocks, tail).

#[export] Instance eager_sealed : Sealed Eager := {|
  Pos := unit;
  pos_default := tt;
  sealed_get_pos := eager_get_pos;
  sealed_set_pos := eager_set_pos;
  sealed_invariant := eager_invariant;
  sealed_split_blocks := eager_split_blocks;
|}.

(** ** Lazy buffers: the position is a separate [u8] *)

Inductive Lazy : Set := lazy.

Definition lazy_get_pos (_buf : list u8) (pos : u8) : run nat := Ret (b2n pos).

Definition lazy_set_pos (buf : list u8) (_pos : u8) (val : nat) :
    run (list u8 * u8) :=
  let! _ := assert_ (val <=? 255) in
  Ret (buf, n2b val).

Definition lazy_invariant (pos block_size : nat) : bool := pos <=? block_size.

Definition lazy_split_blocks (N : nat) (data : list u8) :
    run (list (list u8) * list u8) :=
  if length data =? 0 then Ret ([], []) else
  let! (nb, tail_len) :=
    if length data `mod` N =? 0 then
      let! nb := usub (length data `div` N) 1 in
      Ret (nb, N)
    else
      let nb := length data `div` N in
      let! tail_len := usub (length data) (nb * N) in
      Ret (nb, tail_len) in
  let blocks_len := nb * N in
  let! blocks := raw_arrays data N nb in
  let! tail := raw_slice data blocks_len tail_len in
  Ret (blocks, tail).

#[export] Instance lazy_sealed : Sealed Lazy := {|
  Pos := u8;
  pos_default := Byte.x00;
  sealed_get_pos := lazy_get_pos;
  sealed_set_pos := lazy_set_pos;
  sealed_invariant := lazy_invariant;
  sealed_split_blocks := lazy_split_blocks;
|}.

(** ** What a buffer kind promises

    [nblocks BS n] is the number of blocks a kind lets out of a message of
    [n] bytes: the least number that leaves a valid position. *)
Class SealedLaws (K : Type) `{Sealed K} := {
  nblocks : nat -> nat -> nat;
  default_spec BS :
    0 < BS -> sealed_get_pos K (replicate BS Byte.x00) (pos_default K) = Ret 0;
  inv_le p BS : sealed_invariant K p BS = true -> p <= BS;
  inv_lt p BS : p < BS -> sealed_invariant K p BS = true;
  inv_mono p q BS :
    p <= q -> sealed_invariant K q BS = true -> sealed_invariant K p BS = true;
  inv_shift p n BS :
    p <= BS -> sealed_invariant K n (BS - p) = sealed_invariant K (p + n) BS;
  nblocks_bound n BS : 0 < BS -> nblocks BS n * BS <= n;
  nblocks_inv n BS :
    0 < BS -> sealed_invariant K (n - nblocks BS n * BS) BS = true;
  nblocks_min n BS j :
    0 < BS -> j < nblocks BS n -> sealed_invariant K (n - j * BS) BS = false;
  split_blocks_spec BS data :
    0 < BS ->
    sealed_split_blocks K BS data
    = Ret (chunks BS (nblocks BS (length data)) data,
           drop (nblocks BS (length data) * BS) data);
  set_pos_spec BS buf pos p :
    BS < 256 -> length buf = BS -> sealed_invariant K p BS = true ->
    exists buf' pos',
      sealed_set_pos K buf pos p = Ret (buf', pos')
      /\ length buf' = BS
      /\ sealed_get_pos K buf' pos' = Ret p
      /\ take p buf' = take p buf;
}.
Arguments nblocks K {_ _}.

Section nblocks.
Context {K : Type} `{SealedLaws K} (BS : nat) (HBS : 0 < BS).

Lemma nblocks_unique n k :
  sealed_invariant K (n - k * BS) BS = true ->
  (forall j, j < k -> sealed_invariant K (n - j * BS) BS = false) ->
  nblocks K BS n = k.
Proof.
  intros Hk Hmin. pose proof (nblocks_inv n BS HBS) as Hn.
  destruct (Nat.lt_trichotomy (nblocks K BS n) k) as [Hlt|[?|Hlt]]; [|done|].
  - by rewrite Hmin in Hn.
  - pose proof (nblocks_min n BS k HBS Hlt). congruence.
Qed.

Lemma nblocks_small n : sealed_invariant K n BS = true -> nblocks K BS n = 0.
Proof.
  intros. apply nblocks_unique; [|lia]. by rewrite Nat.mul_0_l, Nat.sub_0_r.
Qed.

(** The blocks of a message that ends in [x], once [k] blocks of a prefix
    of it were let out. *)
Lemma nblocks_split n x :
  let k := nblocks K BS n in
  n <= k * BS + x -> nblocks K BS (k * BS + x) = k + nblocks K BS x.
Proof.
  intros k Hx. apply nblocks_unique.
  - replace (k * BS + x - (k + nblocks K BS x) * BS)
      with (x - nblocks K BS x * BS) by lia.
    by apply nblocks_inv.
  - intros j Hj. destruct (Nat.lt_ge_cases j k) as [Hjk|Hjk].
    + pose proof (nblocks_min n BS j HBS Hjk) as Hm.
      apply not_true_iff_false. intros Ht. apply not_true_iff_false in Hm.
      apply Hm. eapply inv_mono, Ht. lia.
    + replace (k * BS + x - j * BS) with (x - (j - k) * BS) by nia.
      apply nblocks_min; [done|lia].
Qed.

Lemma nblocks_add n :
  sealed_invariant K (BS + n) BS = false ->
  nblocks K BS (BS + n) = S (nblocks K BS n).
Proof.
  intros Hi. apply nblocks_unique.
  - replace (BS + n - S (nblocks K BS n) * BS) with (n - nblocks K BS n * BS) by lia.
    by apply nblocks_inv.
  - intros [|j] Hj; [by rewrite Nat.mul_0_l, Nat.sub_0_r|].
    replace (BS + n - S j * BS) with (n - j * BS) by lia.
    apply nblocks_min; [done|lia].
Qed.
End nblocks.

Lemma eager_div n BS : 0 < BS -> (n `div` BS) * BS <= n < (n `div` BS) * BS + BS.
Proof.
  intros H. pose proof (Nat.div_mod_eq n BS).
  pose proof (Nat.mod_upper_bound n BS). nia.
Qed.

Lemma eager_set_pos_spec BS buf pos p :
  BS < 256 -> length buf = BS -> eager_invariant p BS = true ->
  exists buf' pos',
    eager_set_pos buf pos p = Ret (buf', pos')
    /\ length buf' = BS
    /\ eager_get_pos buf' pos' = Ret p
    /\ take p buf' = take p buf.
Proof.
  unfold eager_invariant. intros HB Hl Hp%Nat.ltb_lt.
  exists (<[length buf - 1 := n2b p]> buf), pos.
  unfold eager_set_pos, eager_get_pos.
  rewrite (proj2 (Nat.leb_le p 255)) by lia.
  rewrite assert_true. run_steps.
  split_and!; [done|len| |].
  - rewrite length_insert.
    rewrite (index_Some _ _ (n2b p)) by (apply list_lookup_insert_eq; lia).
    run_steps. by rewrite b2n_n2b_small by lia.
  - apply take_insert_ge. lia.
Qed.

#[export] Program Instance eager_laws : SealedLaws Eager := {|
  nblocks BS n := n `div` BS;
|}.
Solve Obligations with
  simpl; unfold eager_invariant; intros;
  rewrite ?Nat.ltb_lt in *; try lia.
Next Obligation.
  simpl. unfold eager_get_pos. intros BS H. run_steps.
  rewrite (index_Some _ _ Byte.x00); [done|].
  apply lookup_replicate_2. len.
Qed.
Next Obligation.
  simpl. unfold eager_invariant. intros. repeat bcase; lia.
Qed.
Next Obligation. simpl. intros. by apply eager_div. Qed.
Next Obligation.
  simpl. unfold eager_invariant. intros n BS H. apply Nat.ltb_lt.
  pose proof (eager_div n BS H). lia.
Qed.
Next Obligation.
  simpl. unfold eager_invariant. intros n BS j H Hj. apply Nat.ltb_ge.
  pose proof (eager_div n BS H). nia.
Qed.
Next Obligation.
  simpl. unfold eager_split_blocks. intros BS data H.
  pose proof (eager_div (length data) BS H). run_steps.
  rewrite (take_ge (drop _ _)) by len. done.
Qed.
Next Obligation. simpl. intros. by apply eager_set_pos_spec. Qed.

Lemma lazy_div n BS :
  0 < BS -> 0 < n ->
  ((n - 1) `div` BS) * BS < n <= ((n - 1) `div` BS) * BS + BS.
Proof. intros H Hn. pose proof (eager_div (n - 1) BS H). lia. Qed.

(** The two branches of [lazy_split_blocks] count [(n - 1) / N] blocks. *)
Lemma lazy_div_mod n N :
  0 < N -> 0 < n ->
  if n `mod` N =? 0
  then 1 <= n `div` N /\ n `div` N - 1 = (n - 1) `div` N
       /\ (n - 1) `div` N * N + N = n
  else n `div` N = (n - 1) `div` N.
Proof.
  intros H Hn. pose proof (lazy_div n N H Hn). pose proof (eager_div n N H).
  pose proof (Nat.div_mod_eq n N).
  set (q := n `div` N) in *. set (k := (n - 1) `div` N) in *.
  assert (q <= k + 1) by nia. bcase.
  - assert (k < q) by nia. split_and!; nia.
  - assert (q < k + 1) by nia. nia.
Qed.

#[export] Program Instance lazy_laws : SealedLaws Lazy := {|
  nblocks BS n := (n - 1) `div` BS;
|}.
Solve Obligations with
  simpl; unfold lazy_invariant; intros;
  rewrite ?Nat.leb_le in *; try done; try lia.
Next Obligation.
  simpl. unfold lazy_invariant. intros. repeat bcase; lia.
Qed.
Next Obligation.
  simpl. intros n BS H. pose proof (eager_div (n - 1) BS H). lia.
Qed.
Next Obligation.
  simpl. unfold lazy_invariant. intros n BS H. apply Nat.leb_le.
  pose proof (eager_div (n - 1) BS H). lia.
Qed.
Next Obligation.
  simpl. unfold lazy_invariant. intros n BS j H Hj. apply Nat.leb_gt.
  pose proof (eager_div (n - 1) BS H). nia.
Qed.
Next Obligation.
  simpl. unfold lazy_split_blocks. intros BS data H.
  destruct (Nat.eqb_spec (length data) 0) as [E|E].
  { destruct data; [|done]. simpl. by rewrite Nat.div_small by lia. }
  pose proof (lazy_div (length data) BS H ltac:(lia)).
  pose proof (lazy_div_mod (length data) BS H ltac:(lia)) as Hd.
  destruct (Nat.eqb_spec (length data `mod` BS) 0).
  - destruct Hd as (H1 & Hd & Hb). run_steps. rewrite Hd. run_steps.
    rewrite (take_ge (drop _ _)) by len. done.
  - rewrite Hd. run_steps. rewrite (take_ge (drop _ _)) by len. done.
Qed.
Next Obligation.
  simpl. unfold lazy_invariant, lazy_set_pos. intros BS buf pos p HB Hl Hp%Nat.leb_le.
  exists buf, (n2b p). unfold lazy_get_pos.
  rewrite (proj2 (Nat.leb_le p 255)) by lia. run_steps.
  by rewrite b2n_n2b_small by lia.
Qed.
