(* ===== verification/BlockBuffer.v ===== *)
(** * Block buffers

    [block-buffer/src/lib.rs]: [BlockBuffer<BS, K>] for a block size [BS] and a
    buffer kind [K], the eager-only padding operations and the two
    serializations. The closure [compress] is a transformer of a caller state
    [S]. Theorems relate a buffer to the bytes it holds with [repr] and are
    proved for every kind that satisfies [SealedLaws]. *)
From S2P Require Import Prelude.
From S2P Require Import Sealed.
From stdpp Require Import base numbers list.

(** [struct Error] *)
Inductive Error : Set := BlockBufferError.

(** [struct BlockBuffer] *)
Record BlockBuffer (K : Type) `{Sealed K} := mkBlockBuffer {
  buffer : list u8;
  pos : Pos K;
}.
Arguments mkBlockBuffer {K _}.
Arguments buffer {K _}.
Arguments pos {K _}.

Definition set_buffer {K} `{Sealed K} (b : BlockBuffer K) (buf : list u8) :
    BlockBuffer K :=
  {| buffer := buf; pos := pos b |}.

Section block_buffer.
Context (BS : nat) {K : Type} `{Sealed K}.

(** [BlockBuffer::default] *)
Definition default_ : BlockBuffer K :=
  {| buffer := replicate BS Byte.x00; pos := pos_default K |}.

(** [BlockBuffer::get_pos]. A build with debug assertions panics where a
    release build has undefined behaviour. *)
Definition get_pos (b : BlockBuffer K) : run nat :=
  let! p := sealed_get_pos K (buffer b) (pos b) in
  let! _ := assume_ (sealed_invariant K p BS) in
  Ret p.

(** [BlockBuffer::set_pos_unchecked] *)
Definition set_pos_unchecked (b : BlockBuffer K) (p : nat) :
    run (BlockBuffer K) :=
  let! _ := assert_ (sealed_invariant K p BS) in
  let! (buf', pos') := sealed_set_pos K (buffer b) (pos b) p in
  Ret {| buffer := buf'; pos := pos' |}.

(** [BlockBuffer::try_new] *)
Definition try_new (buf : list u8) : run (result (BlockBuffer K) Error) :=
  let p := length buf in
  if negb (sealed_invariant K p BS) then Ret (Err BlockBufferError) else
  let res := default_ in
  let! buf' := copy_at (buffer res) 0 p buf in
  let! (buf'', pos'') := sealed_set_pos K buf' (pos res) p in
  Ret (Ok {| buffer := buf''; pos := pos'' |}).

(** [BlockBuffer::new] *)
Definition new (buf : list u8) : run (BlockBuffer K) :=
  let! r := try_new buf in unwrap r.

(** [BlockBuffer::size] *)
Definition size : nat := BS.

(** [BlockBuffer::remaining] *)
Definition remaining (b : BlockBuffer K) : run nat :=
  let! p := get_pos b in usub size p.

(** [BlockBuffer::get_data] *)
Definition get_data (b : BlockBuffer K) : run (list u8) :=
  let! p := get_pos b in slice_to (buffer b) p.

(** [BlockBuffer::digest_blocks] *)
Definition digest_blocks {S} (b : BlockBuffer K) (input : list u8)
    (compress : S -> list (list u8) -> S) (s : S) : run (BlockBuffer K * S) :=
  let! p := get_pos b in
  let! rem := usub size p in
  let n := length input in
  if sealed_invariant K n rem then
    let! buf := copy_at (buffer b) p (p + n) input in
    let! b := set_pos_unchecked (set_buffer b buf) (p + n) in
    Ret (b, s)
  else
    let! (b, input, s) :=
      if negb (p =? 0) then
        let! (left', right') := split_at input rem in
        let! buf := copy_at (buffer b) p (length (buffer b)) left' in
        Ret (set_buffer b buf, right', compress s [buf])
      else Ret (b, input, s) in
    let! (blocks, leftover) := sealed_split_blocks K BS input in
    let s := if negb (length blocks =? 0) then compress s blocks else s in
    let n := length leftover in
    let! buf := copy_at (buffer b) 0 n leftover in
    let! b := set_pos_unchecked (set_buffer b buf) n in
    Ret (b, s).

(** [BlockBuffer::reset] *)
Definition reset (b : BlockBuffer K) : run (BlockBuffer K) :=
  set_pos_unchecked b 0.

(** [BlockBuffer::pad_with_zeros] *)
Definition pad_with_zeros (b : BlockBuffer K) :
    run (BlockBuffer K * list u8) :=
  let! p := get_pos b in
  let! res := fill (buffer b) p (length (buffer b)) Byte.x00 in
  let! b := set_pos_unchecked b 0 in
  Ret (b, res).

(** [BlockBuffer::set]; its comment says that a position equal to the block size
    panics, which it does for eager buffers only. *)
Definition set (b : BlockBuffer K) (buf : list u8) (p : nat) :
    run (BlockBuffer K) :=
  let! _ := assert_ (sealed_invariant K p BS) in
  set_pos_unchecked (set_buffer b buf) p.
End block_buffer.

(** ** Eager buffers *)

Section eager.
Context (BS : nat).
Abbreviation EagerBuffer := (BlockBuffer Eager).

(** [EagerBuffer::digest_pad] *)
Definition digest_pad {S} (b : EagerBuffer) (delim : u8) (suffix : list u8)
    (compress : S -> list u8 -> S) (s : S) : run (EagerBuffer * S) :=
  let! _ := assert_ (negb (BS <? length suffix)) in
  let! p := get_pos BS b in
  let! buf := store (buffer b) p delim in
  let! buf := fill buf (p + 1) (length buf) Byte.x00 in
  let! n := usub (size BS) (length suffix) in
  let! room := usub (size BS) p in
  let! room := usub room 1 in
  let! (buf, s) :=
    if room <? length suffix then
      let s := compress s buf in
      let block := replicate BS Byte.x00 in
      let! block := copy_at block n (length block) suffix in
      Ret (buf, compress s block)
    else
      let! buf := copy_at buf n (length buf) suffix in
      Ret (buf, compress s buf) in
  let! b := set_pos_unchecked BS (set_buffer b buf) 0 in
  Ret (b, s).

(** [EagerBuffer::len64_padding_be] *)
Definition len64_padding_be {S} (b : EagerBuffer) (data_len : Z)
    (compress : S -> list u8 -> S) (s : S) : run (EagerBuffer * S) :=
  digest_pad b Byte.x80 (to_be_bytes 8 data_len) compress s.

(** [EagerBuffer::len64_padding_le] *)
Definition len64_padding_le {S} (b : EagerBuffer) (data_len : Z)
    (compress : S -> list u8 -> S) (s : S) : run (EagerBuffer * S) :=
  digest_pad b Byte.x80 (to_le_bytes 8 data_len) compress s.

(** [EagerBuffer::len128_padding_be] *)
Definition len128_padding_be {S} (b : EagerBuffer) (data_len : Z)
    (compress : S -> list u8 -> S) (s : S) : run (EagerBuffer * S) :=
  digest_pad b Byte.x80 (to_be_bytes 16 data_len) compress s.

(** [EagerBuffer::serialize] *)
Definition eager_serialize (b : EagerBuffer) : run (list u8) :=
  let! p := get_pos BS b in
  let! last := usub BS 1 in
  fill (buffer b) p last Byte.x00.

(** [EagerBuffer::deserialize] *)
Definition eager_deserialize (buf : list u8) :
    run (result EagerBuffer Error) :=
  let! last := usub BS 1 in
  let! b := index buf last in
  let p := b2n b in
  if negb (eager_invariant p BS) then Ret (Err BlockBufferError) else
  let! garbage := slice buf p last in
  if existsb (fun b => negb (bool_decide (b = Byte.x00))) garbage
  then Ret (Err BlockBufferError)
  else Ret (Ok {| buffer := buf; pos := pos_default Eager |}).
End eager.

(** ** Lazy buffers *)

Section lazy.
Context (BS : nat).
Abbreviation LazyBuffer := (BlockBuffer Lazy).

(** [LazyBuffer::serialize] *)
Definition lazy_serialize (b : LazyBuffer) : run (list u8) :=
  let res := replicate (BS + 1) Byte.x00 in
  let! res := store res 0 (pos b : u8) in
  let! data := get_data BS b in
  copy_at res 1 (1 + length data) data.

(** [LazyBuffer::deserialize] *)
Definition lazy_deserialize (buf : list u8) :
    run (result LazyBuffer Error) :=
  let! p := index buf 0 in
  if negb (lazy_invariant (b2n p) BS) then Ret (Err BlockBufferError) else
  let! rest := slice_from buf 1 in
  let! garbage := slice_from rest (b2n p) in
  if existsb (fun b => negb (bool_decide (b = Byte.x00))) garbage
  then Ret (Err BlockBufferError)
  else
    (* [GenericArray::clone_from_slice] panics on another length *)
    let! _ := assert_ (length rest =? BS) in
    Ret (Ok {| buffer := rest; pos := (p : Pos Lazy) |}).
End lazy.

(** ** Tests of the repository *)

Definition record_calls (s : list (list (list u8))) (bs : list (list u8)) :=
  s ++ [bs].

Example eager_digest_example :
  (let! (b, s) := digest_blocks 4 (default_ 4 (K := Eager)) [1; 2; 3; 4; 5; 6]%u8
                    record_calls [] in
   let! (b, s) := digest_blocks 4 b [7; 8; 9]%u8 record_calls s in
   let! d := get_data 4 b in
   Ret (d, s))
  = Ret ([9]%u8, [[[1; 2; 3; 4]%u8]; [[5; 6; 7; 8]%u8]]).
Proof. vm_compute. reflexivity. Qed.

Example digest_pad_example :
  (let! b := new 4 [0x42]%u8 in
   let! (b, s) := digest_pad 4 b 0xff [0x10; 0x11; 0x12]%u8
                    (fun s b => s ++ b) [] in
   Ret (buffer b, s))
  = Ret ([0x42; 0xff; 0; 0]%u8, [0x42; 0xff; 0; 0; 0; 0x10; 0x11; 0x12]%u8).
Proof. vm_compute. reflexivity. Qed.

Example lazy_serialize_example :
  (let! b := new 4 (K := Lazy) [41; 42]%u8 in lazy_serialize 4 b)
  = Ret [2; 41; 42; 0; 0]%u8.
Proof. vm_compute. reflexivity. Qed.

(** ** The bytes a buffer holds *)

Section repr.
Context (BS : nat) {K : Type} `{SealedLaws K} `{!BlockSizes BS}.
Implicit Types (b : BlockBuffer K) (d buf input : list u8).

(** The buffer [b] holds the bytes [d]. *)
Definition repr b d : Prop :=
  length (buffer b) = BS
  /\ sealed_get_pos K (buffer b) (pos b) = Ret (length d)
  /\ sealed_invariant K (length d) BS = true
  /\ take (length d) (buffer b) = d.

Lemma repr_length b d : repr b d -> length (buffer b) = BS.
Proof. by intros (? & _). Qed.
Lemma repr_inv b d : repr b d -> sealed_invariant K (length d) BS = true.
Proof. by intros (_ & _ & ? & _). Qed.
Lemma repr_le b d : repr b d -> length d <= BS.
Proof. intros. by apply inv_le, (repr_inv b). Qed.
Lemma repr_take b d : repr b d -> take (length d) (buffer b) = d.
Proof. by intros (_ & _ & _ & ?). Qed.
Lemma repr_split b d : repr b d -> buffer b = d ++ drop (length d) (buffer b).
Proof.
  intros Hr. pose proof (take_drop (length d) (buffer b)) as E.
  by rewrite (repr_take b d Hr) in E.
Qed.

Lemma get_pos_repr b d : repr b d -> get_pos BS b = Ret (length d).
Proof.
  intros (_ & Hp & Hi & _). unfold get_pos. rewrite Hp. run_steps.
  by rewrite Hi.
Qed.

Lemma get_data_repr b d : repr b d -> get_data BS b = Ret d.
Proof.
  intros Hr. unfold get_data. rewrite (get_pos_repr b d Hr), bind_Ret.
  pose proof (repr_le b d Hr). rewrite slice_to_ok by (rewrite (repr_length b d); done).
  f_equal. by apply repr_take.
Qed.

Lemma remaining_repr b d : repr b d -> remaining BS b = Ret (BS - length d).
Proof.
  intros Hr. unfold remaining, size. rewrite (get_pos_repr b d Hr), bind_Ret.
  by rewrite usub_ok by (by eapply repr_le).
Qed.

(** The data of a buffer is unique. *)
Lemma repr_inj b d d' : repr b d -> repr b d' -> d = d'.
Proof. intros H1%get_data_repr H2%get_data_repr. congruence. Qed.

Lemma set_pos_repr b buf p :
  length buf = BS -> sealed_invariant K p BS = true ->
  exists b', set_pos_unchecked BS (set_buffer b buf) p = Ret b'
             /\ repr b' (take p buf).
Proof.
  intros Hl Hp. pose proof (inv_le _ _ Hp).
  destruct (set_pos_spec BS buf (pos b) p block_size_u8 Hl Hp)
    as (buf' & pos' & Hs & Hl' & Hg & Ht).
  eexists. unfold set_pos_unchecked. rewrite Hp, assert_true, bind_Ret. simpl.
  rewrite Hs, bind_Ret. split; [done|].
  unfold repr; simpl. rewrite length_take, Nat.min_l by lia. by rewrite Ht.
Qed.
End repr.

(** Rewrite with the data of a buffer, then with the slice bounds. *)
Ltac repr_steps :=
  repeat first
    [ match goal with
      | Hr : repr _ ?b ?d |- context [get_pos _ ?b] =>
          rewrite (get_pos_repr _ b d Hr)
      | Hr : repr _ ?b ?d |- context [length (buffer ?b)] =>
          rewrite (repr_length _ b d Hr)
      end
    | run_step ].

Ltac set_pos_step :=
  match goal with
  | |- context [set_pos_unchecked ?BS (set_buffer ?b ?buf) ?p] =>
      let b' := fresh "b'" in
      let Hs := fresh "Hs" in
      let Hr := fresh "Hr" in
      edestruct (set_pos_repr BS b buf p) as (b' & Hs & Hr);
        [ | | rewrite Hs; run_steps ]
  end.

Section construct.
Context (BS : nat) {K : Type} `{SealedLaws K} `{!BlockSizes BS}.
Implicit Types (b : BlockBuffer K) (d buf input : list u8).

Lemma default_repr : repr BS (default_ BS : BlockBuffer K) [].
Proof.
  unfold repr, default_. simpl. split_and!; [len| | |done].
  - by apply default_spec, block_size_pos.
  - apply inv_lt, block_size_pos.
Qed.

(** [try_new] accepts exactly the slices whose length is valid. *)
Lemma try_new_ok d :
  sealed_invariant K (length d) BS = true ->
  exists b : BlockBuffer K, try_new BS d = Ret (Ok b) /\ repr BS b d.
Proof.
  intros Hi. pose proof (inv_le _ _ Hi). unfold try_new. rewrite Hi. simpl.
  run_steps.
  edestruct (set_pos_spec BS (d ++ drop (length d) (replicate BS Byte.x00))
               (pos_default K) (length d) block_size_u8) as (buf' & pos' & Hs & Hl & Hg & Ht);
    [len|done|].
  rewrite Hs. run_steps. eexists. split; [done|].
  unfold repr; simpl. split_and!; [done..|]. by rewrite Ht, take_app_length.
Qed.

Lemma try_new_err d :
  sealed_invariant K (length d) BS = false ->
  try_new (K := K) BS d = Ret (Err BlockBufferError).
Proof. unfold try_new. by intros ->. Qed.

Lemma set_repr b buf p :
  length buf = BS -> sealed_invariant K p BS = true ->
  exists b', set BS b buf p = Ret b' /\ repr BS b' (take p buf).
Proof.
  intros Hl Hp. unfold set. rewrite Hp, assert_true, bind_Ret.
  by apply set_pos_repr.
Qed.
End construct.

(** ** Streaming *)

Section digest.
Context (BS : nat) {K : Type} `{SealedLaws K} `{!BlockSizes BS}.
Context {St : Type} (compress : St -> list (list u8) -> St).
Implicit Types (b : BlockBuffer K) (d input : list u8) (s : St).

(** The part of [digest_blocks] after the buffered bytes were flushed. *)
Lemma digest_tail b input s :
  length (buffer b) = BS ->
  let k := nblocks K BS (length input) in
  exists b' calls,
    (let! (blocks, leftover) := sealed_split_blocks K BS input in
     let s := if negb (length blocks =? 0) then compress s blocks else s in
     let n := length leftover in
     let! buf := copy_at (buffer b) 0 n leftover in
     let! b := set_pos_unchecked BS (set_buffer b buf) n in
     Ret (b, s)) = Ret (b', foldl compress s calls)
    /\ repr BS b' (drop (k * BS) input)
    /\ concat calls = chunks BS k input
    /\ Forall (fun c => c <> []) calls.
Proof.
  intros Hl k. pose proof block_size_pos.
  rewrite split_blocks_spec by done. fold k. rewrite bind_Ret.
  pose proof (nblocks_inv (length input) BS block_size_pos) as Hi. fold k in Hi.
  pose proof (nblocks_bound (length input) BS block_size_pos) as Hb. fold k in Hb.
  pose proof (inv_le _ _ Hi).
  run_steps. set_pos_step; [len|by rewrite length_drop|].
  rewrite take_app_length' in Hr by done.
  exists b', (if negb (k =? 0) then [chunks BS k input] else []).
  rewrite length_chunks. split_and!; [by destruct k|done| |].
  - destruct k; simpl; by rewrite ?app_nil_r.
  - destruct k; simpl; repeat constructor; done.
Qed.

Lemma digest_blocks_repr b d input s :
  repr BS b d ->
  let m := d ++ input in
  let k := nblocks K BS (length m) in
  exists b' calls,
    digest_blocks BS b input compress s = Ret (b', foldl compress s calls)
    /\ repr BS b' (drop (k * BS) m)
    /\ concat calls = chunks BS k m
    /\ Forall (fun c => c <> []) calls.
Proof.
  intros Hr m k. pose proof block_size_pos.
  pose proof (repr_le BS b d Hr) as Hd. pose proof (repr_length BS b d Hr).
  unfold digest_blocks, size. repr_steps. rewrite inv_shift by done.
  assert (length m = length d + length input) as Hm by apply length_app.
  destruct (sealed_invariant K (length d + length input) BS) eqn:Hi.
  - pose proof (inv_le _ _ Hi). repr_steps. set_pos_step; [len|done|].
    assert (k = 0) as -> by (apply nblocks_small; [lia|by rewrite Hm]).
    exists b', []. split_and!; [done| |done|constructor].
    rewrite (repr_take BS b d Hr), app_assoc in Hr0.
    by rewrite take_app_length' in Hr0 by len.
  - destruct (Nat.eqb_spec (length d) 0) as [Hz|Hz].
    + destruct d; [|done]. by apply digest_tail.
    + simpl. assert (BS - length d <= length input) as Hlt.
      { destruct (decide (BS - length d <= length input)) as [|Hn]; [done|].
        rewrite inv_lt in Hi; [done|lia]. }
      repeat rewrite split_at_ok by lia. repr_steps.
      assert (take (length d) (buffer b) ++ take (BS - length d) input
              ++ drop BS (buffer b) = take BS m) as ->.
      { rewrite (repr_take BS b d Hr), (drop_ge (buffer b)), app_nil_r by lia.
        unfold m. by rewrite take_app_ge by lia. }
      assert (drop (BS - length d) input = drop BS m) as ->.
      { unfold m. by rewrite drop_app_ge by lia. }
      edestruct (digest_tail (set_buffer b (take BS m)) (drop BS m)
                   (compress s [take BS m])) as (b' & calls & E & R & C & F).
      { simpl. len. }
      cbv zeta in E. rewrite E.
      assert (k = S (nblocks K BS (length (drop BS m)))) as Hk.
      { unfold k. rewrite length_drop, Hm in *.
        replace (length d + length input)
          with (BS + (length d + length input - BS)) by lia.
        rewrite nblocks_add; [do 2 f_equal; lia|done|].
        by replace (BS + (length d + length input - BS))
          with (length d + length input) by lia. }
      exists b', ([take BS m] :: calls). split_and!; [done| | |by constructor].
      * rewrite Hk. rewrite drop_drop in R. by rewrite Nat.mul_succ_l, Nat.add_comm.
      * simpl. by rewrite Hk, C.
Qed.
End digest.

(** A caller that digests several inputs in turn. *)
Fixpoint digest_all {K} `{Sealed K} {St} (BS : nat) (b : BlockBuffer K)
    (inputs : list (list u8)) (compress : St -> list (list u8) -> St) (s : St) :
    run (BlockBuffer K * St) :=
  match inputs with
  | [] => Ret (b, s)
  | input :: inputs =>
      let! (b, s) := digest_blocks BS b input compress s in
      digest_all BS b inputs compress s
  end.

Section streaming.
Context (BS : nat) {K : Type} `{SealedLaws K} `{!BlockSizes BS}.
Context {St : Type} (compress : St -> list (list u8) -> St).
Implicit Types (b : BlockBuffer K) (d input : list u8) (s : St).

(** [b] holds what the buffer keeps of the message [m]. *)
Definition stream_repr b (m : list u8) : Prop :=
  repr BS b (drop (nblocks K BS (length m) * BS) m).

Lemma default_stream : stream_repr (default_ BS) [].
Proof. unfold stream_repr. rewrite drop_nil. by apply default_repr. Qed.

Lemma digest_blocks_stream b m input s :
  stream_repr b m ->
  exists b' calls,
    digest_blocks BS b input compress s = Ret (b', foldl compress s calls)
    /\ stream_repr b' (m ++ input)
    /\ chunks BS (nblocks K BS (length m)) m ++ concat calls
       = chunks BS (nblocks K BS (length (m ++ input))) (m ++ input)
    /\ Forall (fun c => c <> []) calls.
Proof.
  unfold stream_repr. intros Hr.
  pose proof (nblocks_bound (length m) BS block_size_pos) as Hb.
  set (k := nblocks K BS (length m)) in *.
  edestruct (digest_blocks_repr BS compress b _ input s Hr)
    as (b' & calls & E & R & C & F).
  assert (drop (k * BS) m ++ input = drop (k * BS) (m ++ input)) as Hd
    by (by rewrite drop_app_le by lia).
  rewrite Hd in *. rewrite length_drop in *.
  assert (nblocks K BS (length (m ++ input))
          = k + nblocks K BS (length (m ++ input) - k * BS)) as Hk.
  { rewrite length_app.
    pose proof (nblocks_split BS block_size_pos (length m)
                  (length m + length input - k * BS)) as Hs.
    fold k in Hs. rewrite <- Hs by lia. f_equal. lia. }
  exists b', calls. split_and!; [done| | |done].
  - rewrite drop_drop, <- Nat.mul_add_distr_r, <- Hk in R. done.
  - rewrite Hk, chunks_add, C. f_equal. by rewrite chunks_app_l.
Qed.

Lemma digest_all_stream b m inputs s :
  stream_repr b m ->
  let m' := m ++ concat inputs in
  exists b' calls,
    digest_all BS b inputs compress s = Ret (b', foldl compress s calls)
    /\ stream_repr b' m'
    /\ chunks BS (nblocks K BS (length m)) m ++ concat calls
       = chunks BS (nblocks K BS (length m')) m'
    /\ Forall (fun c => c <> []) calls.
Proof.
  revert b m s. induction inputs as [|input inputs IH]; intros b m s Hr; simpl.
  - exists b, []. rewrite !app_nil_r. split_and!; done || constructor.
  - destruct (digest_blocks_stream b m input s Hr)
      as (b1 & calls1 & -> & R1 & C1 & F1).
    destruct (IH b1 (m ++ input) (foldl compress s calls1) R1)
      as (b2 & calls2 & E2 & R2 & C2 & F2).
    rewrite <- app_assoc in R2, C2.
    exists b2, (calls1 ++ calls2). simpl. rewrite E2, foldl_app, concat_app.
    rewrite (app_assoc (chunks _ _ _)), C1, C2. split_and!; [done..|].
    by apply Forall_app.
Qed.
End streaming.

(** ** Padding *)

Section padding.
Context (BS : nat) `{!BlockSizes BS}.
Context {St : Type} (compress : St -> list u8 -> St).
Implicit Types (b : BlockBuffer Eager) (d suffix : list u8) (s : St).

(** The number of blocks a padding of [n] buffered bytes takes. *)
Definition pad_blocks (n suffix_len : nat) : nat :=
  if BS - n - 1 <? suffix_len then 2 else 1.

(** The padding of a message whose last, incomplete block has [n] bytes. *)
Definition padding (n : nat) (delim : u8) (suffix : list u8) : list u8 :=
  delim
  :: replicate (pad_blocks n (length suffix) * BS - n - 1 - length suffix) Byte.x00
  ++ suffix.

Lemma digest_pad_repr b d delim suffix s :
  repr BS b d -> length suffix <= BS ->
  let p := d ++ padding (length d) delim suffix in
  exists b',
    digest_pad BS b delim suffix compress s
    = Ret (b', foldl compress s (chunks BS (pad_blocks (length d) (length suffix)) p))
    /\ repr BS b' []
    /\ length p = pad_blocks (length d) (length suffix) * BS.
Proof.
  intros Hr Hs p. pose proof block_size_pos.
  pose proof (repr_inv BS b d Hr) as Hd. simpl in Hd.
  apply Nat.ltb_lt in Hd. pose proof (repr_length BS b d Hr).
  pose proof (repr_take BS b d Hr) as Ht.
  assert (length p = pad_blocks (length d) (length suffix) * BS) as Hp.
  { unfold p, padding, pad_blocks. bcase; len. }
  unfold digest_pad, size. rewrite (proj2 (Nat.ltb_ge _ _)) by done. simpl negb.
  rewrite assert_true. repr_steps.
  assert (take (length d + 1) (<[length d:=delim]> (buffer b)) = d ++ [delim]) as Hb.
  { rewrite insert_take_drop by lia. rewrite Ht.
    by rewrite take_app_ge, Nat.add_comm, Nat.add_sub by lia. }
  rewrite Hb. unfold pad_blocks in *.
  destruct (Nat.ltb_spec (BS - length d - 1) (length suffix)) as [Hlt|Hge].
  - repr_steps. set_pos_step; [len|by apply Nat.ltb_lt|].
    exists b'. split_and!; [|done..]. rewrite length_insert.
    rewrite H0, take_replicate, Nat.min_l by lia.
    assert (p = ((d ++ [delim]) ++ replicate (BS - (length d + 1)) Byte.x00)
                ++ (replicate (BS - length suffix) Byte.x00 ++ suffix)) as ->.
    { unfold p, padding, pad_blocks. rewrite (proj2 (Nat.ltb_lt _ _)) by done.
      replace (2 * BS - length d - 1 - length suffix)
        with ((BS - (length d + 1)) + (BS - length suffix)) by lia.
      by rewrite cons_middle, replicate_add, !app_assoc. }
    by rewrite chunks_cons_app, chunks_one by len.
  - repr_steps. set_pos_step; [len|by apply Nat.ltb_lt|].
    exists b'. split_and!; [|done..]. rewrite length_insert, H0.
    rewrite take_app_ge, take_replicate, Nat.min_l by len.
    assert (p = (d ++ [delim])
                ++ replicate (BS - length suffix - length (d ++ [delim])) Byte.x00
                ++ suffix) as Hpe.
    { unfold p, padding, pad_blocks. rewrite (proj2 (Nat.ltb_ge _ _)) by done.
      rewrite cons_middle, !app_assoc. do 3 f_equal. len. }
    by rewrite chunks_one, Hpe, <- app_assoc by lia.
Qed.

Lemma digest_pad_too_long b delim suffix s :
  BS < length suffix -> digest_pad BS b delim suffix compress s = Panic.
Proof.
  intros Hs. unfold digest_pad. by rewrite (proj2 (Nat.ltb_lt _ _)).
Qed.
End padding.

(** ** Serialization *)

Section serialize_eager.
Context (BS : nat) `{!BlockSizes BS}.
Implicit Types (b : BlockBuffer Eager) (d buf : list u8).

(** The serialized form of the data [d]. *)
Definition eager_image d : list u8 :=
  d ++ replicate (BS - 1 - length d) Byte.x00 ++ [n2b (length d)].

Lemma eager_repr_iff b d :
  repr BS b d <->
  length d < BS /\ exists g,
    length g = BS - 1 - length d /\ buffer b = d ++ g ++ [n2b (length d)].
Proof.
  pose proof (block_size_u8 (BS := BS)). split.
  - intros Hr. pose proof (repr_inv BS b d Hr) as Hi%Nat.ltb_lt.
    pose proof (repr_length BS b d Hr) as Hl.
    destruct Hr as (_ & Hg & _ & Ht). split; [done|].
    simpl in Hg. unfold eager_get_pos in Hg. rewrite usub_ok, bind_Ret in Hg by lia.
    apply bind_Ret_inv in Hg as (x & Hx & [= Hn]).
    apply index_Ret_inv in Hx.
    exists (take (BS - 1 - length d) (drop (length d) (buffer b))).
    split; [len|].
    rewrite <- (take_drop (length d) (buffer b)) at 1. rewrite Ht. f_equal.
    rewrite <- (take_drop (BS - 1 - length d) (drop (length d) (buffer b))) at 1.
    f_equal. rewrite drop_drop.
    replace (length d + (BS - 1 - length d)) with (length (buffer b) - 1) by lia.
    rewrite (drop_S _ _ _ Hx), drop_ge by lia. by rewrite <- Hn, n2b_b2n.
  - intros (Hd & g & Hg & Hb). unfold repr. rewrite Hb. split_and!.
    + len.
    + simpl. unfold eager_get_pos. run_steps.
      rewrite (index_Some _ _ (n2b (length d))).
      * run_steps. by rewrite b2n_n2b_small by lia.
      * rewrite lookup_app_r, lookup_app_r by len.
        by replace (_ - _ - _) with 0 by len.
    + by apply Nat.ltb_lt.
    + by rewrite take_app_length.
Qed.

Lemma eager_serialize_repr b d :
  repr BS b d -> eager_serialize BS b = Ret (eager_image d).
Proof.
  intros Hr. pose proof (proj1 (eager_repr_iff b d) Hr) as (Hd & g & Hg & Hb).
  unfold eager_serialize. repr_steps. rewrite Hb. run_steps. unfold eager_image.
  rewrite take_app_length, drop_app_ge, drop_app_ge by len. repeat f_equal.
  by replace (_ - _ - _) with 0 by len.
Qed.

Lemma eager_deserialize_image d :
  length d < BS ->
  exists b, eager_deserialize BS (eager_image d) = Ret (Ok b) /\ repr BS b d.
Proof.
  intros Hd. pose proof (block_size_u8 (BS := BS)).
  assert (length (eager_image d) = BS) as Hl by (unfold eager_image; len).
  unfold eager_deserialize. run_steps.
  rewrite (index_Some _ _ (n2b (length d))).
  2:{ unfold eager_image. rewrite lookup_app_r, lookup_app_r by len.
      by replace (_ - _ - _) with 0 by len. }
  run_steps. rewrite b2n_n2b_small by lia. unfold eager_invariant.
  rewrite (proj2 (Nat.ltb_lt _ _)) by done. simpl negb. cbv iota.
  rewrite slice_ok by lia. run_steps. unfold eager_image.
  rewrite drop_app_length, take_app_length' by len.
  rewrite existsb_ne_replicate.
  eexists. split; [done|]. apply eager_repr_iff. split; [done|].
  exists (replicate (BS - 1 - length d) Byte.x00). split; [len|done].
Qed.

(** Deserialization never panics on a block; it accepts the images only. *)
Lemma eager_deserialize_inv buf :
  length buf = BS ->
  eager_deserialize BS buf = Ret (Err BlockBufferError)
  \/ exists b d, eager_deserialize BS buf = Ret (Ok b) /\ repr BS b d
                 /\ buf = eager_image d.
Proof.
  intros Hl. pose proof (block_size_pos (BS := BS)).
  unfold eager_deserialize. run_steps.
  destruct (lookup_lt_is_Some_2 buf (BS - 1)) as [x Hx]; [lia|].
  rewrite (index_Some _ _ _ Hx). run_steps. unfold eager_invariant.
  destruct (Nat.ltb_spec (b2n x) BS) as [Hp|]; simpl; [|by left].
  rewrite slice_ok by lia. run_steps.
  destruct (existsb _ _) eqn:Hg; [by left|right]. apply existsb_ne in Hg.
  rewrite length_take, length_drop, Nat.min_l in Hg by lia.
  assert (buf = eager_image (take (b2n x) buf)) as Hi.
  { unfold eager_image. rewrite length_take, Nat.min_l by lia.
    rewrite <- Hg, n2b_b2n. rewrite <- (take_drop (b2n x) buf) at 1. f_equal.
    rewrite <- (take_drop (BS - 1 - b2n x) (drop (b2n x) buf)) at 1. f_equal.
    rewrite drop_drop. replace (b2n x + _) with (BS - 1) by lia.
    by rewrite (drop_S _ _ _ Hx), drop_ge by lia. }
  eexists _, (take (b2n x) buf). split_and!; [done| |done].
  apply eager_repr_iff. simpl. split; [len|].
  exists (replicate (BS - 1 - length (take (b2n x) buf)) Byte.x00). split; [len|].
  exact Hi.
Qed.
End serialize_eager.

Section serialize_lazy.
Context (BS : nat) `{!BlockSizes BS}.
Implicit Types (b : BlockBuffer Lazy) (d buf : list u8).

Definition lazy_image d : list u8 :=
  n2b (length d) :: d ++ replicate (BS - length d) Byte.x00.

Lemma lazy_repr_iff b d :
  repr BS b d <->
  length d <= BS /\ (pos b : u8) = n2b (length d) /\ exists g,
    length g = BS - length d /\ buffer b = d ++ g.
Proof.
  pose proof (block_size_u8 (BS := BS)). split.
  - intros Hr. pose proof (repr_inv BS b d Hr) as Hi%Nat.leb_le.
    pose proof (repr_length BS b d Hr) as Hl.
    pose proof (repr_split BS b d Hr).
    destruct Hr as (_ & [= Hg] & _ & Ht). split_and!; [done| |].
    + by rewrite <- Hg, n2b_b2n.
    + exists (drop (length d) (buffer b)). split; [len|done].
  - intros (Hd & Hp & g & Hg & Hb). unfold repr. rewrite Hb. split_and!.
    + len.
    + simpl. unfold lazy_get_pos. rewrite Hp, b2n_n2b_small by lia. done.
    + by apply Nat.leb_le.
    + by rewrite take_app_length.
Qed.

Lemma lazy_serialize_repr b d :
  repr BS b d -> lazy_serialize BS b = Ret (lazy_image d).
Proof.
  intros Hr. pose proof (proj1 (lazy_repr_iff b d) Hr) as (Hd & Hp & g & Hg & Hb).
  unfold lazy_serialize. rewrite (get_data_repr BS b d Hr). rewrite Hp.
  rewrite Nat.add_1_r. simpl replicate. run_steps. unfold lazy_image. simpl.
  by rewrite drop_replicate.
Qed.

Lemma lazy_deserialize_image d :
  length d <= BS ->
  exists b, lazy_deserialize BS (lazy_image d) = Ret (Ok b) /\ repr BS b d.
Proof.
  intros Hd. pose proof (block_size_u8 (BS := BS)).
  unfold lazy_deserialize, lazy_image, index. simpl.
  rewrite b2n_n2b_small by lia. unfold lazy_invariant.
  rewrite (proj2 (Nat.leb_le _ _)) by done. simpl. run_steps. simpl.
  rewrite drop_0, drop_app_length, existsb_ne_replicate.
  rewrite (proj2 (Nat.eqb_eq _ _)) by len. eexists. split; [done|].
  apply lazy_repr_iff. split_and!; [done..|].
  exists (replicate (BS - length d) Byte.x00). split; [len|done].
Qed.

Lemma lazy_deserialize_inv buf :
  length buf = BS + 1 ->
  lazy_deserialize BS buf = Ret (Err BlockBufferError)
  \/ exists b d, lazy_deserialize BS buf = Ret (Ok b) /\ repr BS b d
                 /\ buf = lazy_image d.
Proof.
  intros Hl. destruct buf as [|x buf]; [len|]. simpl in Hl.
  unfold lazy_deserialize, index. simpl. unfold lazy_invariant.
  destruct (Nat.leb_spec (b2n x) BS) as [Hp|]; simpl; [|by left].
  run_steps. simpl. rewrite drop_0.
  destruct (existsb _ _) eqn:Hg; [by left|right]. apply existsb_ne in Hg.
  rewrite length_drop in Hg. rewrite (proj2 (Nat.eqb_eq _ _)) by lia.
  assert (length (take (b2n x) buf) = b2n x) as Hlt by len.
  eexists _, (take (b2n x) buf). split_and!; [done| |].
  - apply lazy_repr_iff. simpl. rewrite Hlt, n2b_b2n. split_and!; [lia|done|].
    exists (drop (b2n x) buf). split; [len|by rewrite take_drop].
  - unfold lazy_image. rewrite Hlt, n2b_b2n. f_equal.
    replace (BS - b2n x) with (length buf - b2n x) by lia.
    by rewrite <- Hg, take_drop.
Qed.
End serialize_lazy.

(** ** Buffers that hold the same data

    Buffers may differ in the bytes after the cursor; no operation tells such
    buffers apart. *)

Section equivalence.
Context (BS : nat) {K : Type} `{SealedLaws K} `{!BlockSizes BS}.
Implicit Types (b : BlockBuffer K) (d : list u8).

Definition same_data b1 b2 : Prop := forall d, repr BS b1 d <-> repr BS b2 d.

#[global] Instance same_data_equiv : Equivalence same_data.
Proof.
  unfold same_data. split.
  - intros b d. done.
  - intros b1 b2 Hb d. by rewrite Hb.
  - intros b1 b2 b3 H12 H23 d. by rewrite H12.
Qed.

#[global] Instance repr_proper : Proper (same_data ==> eq ==> iff) (repr BS).
Proof. intros b1 b2 Hb d ? <-. apply Hb. Qed.

Lemma repr_same_data b1 b2 d : repr BS b1 d -> repr BS b2 d -> same_data b1 b2.
Proof.
  intros H1 H2 d'. split; intros H3.
  - by rewrite (repr_inj BS b1 d' d).
  - by rewrite (repr_inj BS b2 d' d).
Qed.
End equivalence.

Section reachable.
Context (BS : nat) {K : Type} `{SealedLaws K} `{!BlockSizes BS}.
Implicit Types (b : BlockBuffer K) (d : list u8).

(** The buffers a program can hold: built by [default], [new] or one of the
    constructors [init], then changed by the methods of every kind or by one
    of the methods [ext] of its own kind. *)
Inductive reachable (init : BlockBuffer K -> Prop)
    (ext : BlockBuffer K -> BlockBuffer K -> Prop) : BlockBuffer K -> Prop :=
  | reach_default : reachable init ext (default_ BS)
  | reach_try_new d b : try_new BS d = Ret (Ok b) -> reachable init ext b
  | reach_init b : init b -> reachable init ext b
  | reach_digest {St} b b' input (compress : St -> list (list u8) -> St) s s' :
      reachable init ext b ->
      digest_blocks BS b input compress s = Ret (b', s') ->
      reachable init ext b'
  | reach_reset b b' :
      reachable init ext b -> reset BS b = Ret b' -> reachable init ext b'
  | reach_pad_zeros b b' blk :
      reachable init ext b -> pad_with_zeros BS b = Ret (b', blk) ->
      reachable init ext b'
  | reach_set b b' buf p :
      reachable init ext b -> length buf = BS -> set BS b buf p = Ret b' ->
      reachable init ext b'
  | reach_ext b b' : reachable init ext b -> ext b b' -> reachable init ext b'.

Lemma reset_repr b d :
  repr BS b d -> exists b', reset BS b = Ret b' /\ repr BS b' [].
Proof.
  intros Hr. unfold reset.
  replace b with (set_buffer b (buffer b)) by (by destruct b).
  apply (set_pos_repr BS b (buffer b) 0); [by eapply repr_length|].
  apply inv_lt, block_size_pos.
Qed.

Lemma pad_with_zeros_repr b d :
  repr BS b d ->
  exists b', pad_with_zeros BS b
             = Ret (b', d ++ replicate (BS - length d) Byte.x00)
             /\ repr BS b' [].
Proof.
  intros Hr. destruct (reset_repr b d Hr) as (b' & Hb & Hr').
  pose proof (repr_le BS b d Hr). pose proof (repr_length BS b d Hr).
  exists b'. split; [|done]. unfold pad_with_zeros. unfold reset in Hb.
  repr_steps. rewrite Hb. run_steps. rewrite drop_ge, app_nil_r by lia.
  by rewrite (repr_take BS b d Hr).
Qed.

Lemma try_new_inv d b : try_new BS d = Ret (Ok b) -> repr BS b d.
Proof.
  intros E. destruct (sealed_invariant K (length d) BS) eqn:Hi.
  - destruct (try_new_ok BS d Hi) as (b' & E' & ?). congruence.
  - rewrite try_new_err in E by done. congruence.
Qed.

Lemma reachable_repr init ext b :
  (forall b, init b -> exists d, repr BS b d) ->
  (forall b d b', repr BS b d -> ext b b' -> exists d', repr BS b' d') ->
  reachable init ext b -> exists d, repr BS b d.
Proof.
  intros Hinit Hext. induction 1 as
    [|d b E|b Hi|St b b' input compress s s' _ [d IH] E|b b' _ [d IH] E
    |b b' blk _ [d IH] E|b b' buf p _ [d IH] Hl E|b b' _ [d IH] He].
  - exists []. by apply default_repr.
  - exists d. by apply try_new_inv.
  - by apply Hinit.
  - destruct (digest_blocks_repr BS compress b d input s IH)
      as (b1 & calls & E1 & R & _). run_unify.
  - destruct (reset_repr b d IH) as (b1 & E1 & R). run_unify.
  - destruct (pad_with_zeros_repr b d IH) as (b1 & E1 & R). run_unify.
  - unfold set in E. destruct (sealed_invariant K p BS) eqn:Hp; [|done].
    destruct (set_repr BS b buf p Hl Hp) as (b1 & E1 & R).
    unfold set in E1. rewrite Hp in E1. simpl in E, E1. run_unify.
  - by eapply Hext.
Qed.
End reachable.

(** The reachable buffers of the two kinds, with every public operation. *)
Definition eager_reachable (BS : nat) : BlockBuffer Eager -> Prop :=
  reachable BS
    (fun b => exists buf, length buf = BS /\ eager_deserialize BS buf = Ret (Ok b))
    (fun b b' => exists St delim suffix (compress : St -> list u8 -> St) s s',
       digest_pad BS b delim suffix compress s = Ret (b', s')).

Definition lazy_reachable (BS : nat) : BlockBuffer Lazy -> Prop :=
  reachable BS
    (fun b => exists buf, length buf = BS + 1
                          /\ lazy_deserialize BS buf = Ret (Ok b))
    (fun _ _ => False).

Lemma eager_reachable_repr BS `{!BlockSizes BS} b :
  eager_reachable BS b -> exists d, repr BS b d.
Proof.
  refine (reachable_repr BS _ _ b _ _).
  - intros b0 (buf & Hl & E).
    destruct (eager_deserialize_inv BS buf Hl) as [E'|(b1 & d & E' & R & _)]; run_unify.
  - intros b0 d b1 Hr (St & delim & suffix & compress & s & s' & E).
    destruct (Nat.ltb_spec BS (length suffix)) as [Hs|Hs].
    + by rewrite digest_pad_too_long in E.
    + destruct (digest_pad_repr BS compress b0 d delim suffix s Hr Hs)
        as (b2 & E2 & R & _). run_unify.
Qed.

Lemma lazy_reachable_repr BS `{!BlockSizes BS} b :
  lazy_reachable BS b -> exists d, repr BS b d.
Proof.
  refine (reachable_repr BS _ _ b _ _); [|done].
  intros b0 (buf & Hl & E).
  destruct (lazy_deserialize_inv BS buf Hl) as [E'|(b1 & d & E' & R & _)]; run_unify.
Qed.

#[export] Instance block_sizes_4 : BlockSizes 4.
Proof. split; lia. Qed.
#[export] Instance block_sizes_16 : BlockSizes 16.
Proof. split; lia. Qed.

(** ** Serialized forms *)

(** [serialize] and [deserialize] with images of [size] bytes are inverse. *)
Definition serializes (BS size : nat) {K : Type} `{Sealed K}
    (serialize : BlockBuffer K -> run (list u8))
    (deserialize : list u8 -> run (result (BlockBuffer K) Error)) : Prop :=
  (forall b d, repr BS b d ->
     exists buf b', serialize b = Ret buf /\ length buf = size
       /\ deserialize buf = Ret (Ok b') /\ same_data BS b b')
  /\ (forall buf, length buf = size ->
        deserialize buf = Ret (Err BlockBufferError)
        \/ exists b, deserialize buf = Ret (Ok b) /\ serialize b = Ret buf).

Lemma eager_serialize_roundtrip (BS : nat) `{!BlockSizes BS} :
  serializes BS BS (eager_serialize BS) (eager_deserialize BS).
Proof.
  split.
  - intros b d Hr. pose proof (repr_inv BS b d Hr) as Hd%Nat.ltb_lt.
    destruct (eager_deserialize_image BS d Hd) as (b' & E & R).
    exists (eager_image BS d), b'. split_and!.
    + by apply eager_serialize_repr.
    + unfold eager_image. len.
    + done.
    + exact (repr_same_data BS _ _ _ Hr R).
  - intros buf Hl. destruct (eager_deserialize_inv BS buf Hl)
      as [E|(b & d & E & R & ->)]; [by left|right].
    exists b. split; [done|]. by apply eager_serialize_repr.
Qed.

Lemma lazy_serialize_roundtrip (BS : nat) `{!BlockSizes BS} :
  serializes BS (BS + 1) (lazy_serialize BS) (lazy_deserialize BS).
Proof.
  split.
  - intros b d Hr. pose proof (repr_inv BS b d Hr) as Hd%Nat.leb_le.
    destruct (lazy_deserialize_image BS d Hd) as (b' & E & R).
    exists (lazy_image BS d), b'. split_and!.
    + by apply lazy_serialize_repr.
    + unfold lazy_image. len.
    + done.
    + exact (repr_same_data BS _ _ _ Hr R).
  - intros buf Hl. destruct (lazy_deserialize_inv BS buf Hl)
      as [E|(b & d & E & R & ->)]; [by left|right].
    exists b. split; [done|]. by apply lazy_serialize_repr.
Qed.

(** ** Buffers on which every operation returns *)

Section safe.
Context (BS : nat) {K : Type} `{SealedLaws K} `{!BlockSizes BS}.

(** Reading the cursor, which is in the range [inv], and the operations common to
    both kinds return. *)
Definition safe (inv : nat -> Prop) (b : BlockBuffer K) : Prop :=
  (exists p, get_pos BS b = Ret p /\ inv p /\ remaining BS b = Ret (BS - p))
  /\ returns (get_data BS b) = true
  /\ returns (reset BS b) = true
  /\ returns (pad_with_zeros BS b) = true
  /\ (forall St (compress : St -> list (list u8) -> St) s input,
        returns (digest_blocks BS b input compress s) = true).

Lemma repr_safe inv b d : repr BS b d -> inv (length d) -> safe inv b.
Proof.
  intros Hr Hd. split_and!.
  - exists (length d). split_and!; [exact (get_pos_repr BS _ _ Hr)|done|exact (remaining_repr BS _ _ Hr)].
  - by rewrite (get_data_repr BS b d Hr).
  - by destruct (reset_repr BS b d Hr) as (b' & -> & _).
  - by destruct (pad_with_zeros_repr BS b d Hr) as (b' & -> & _).
  - intros St compress s input.
    by destruct (digest_blocks_repr BS compress b d input s Hr) as (b' & c & -> & _).
Qed.

End safe.

(** ** Properties *)

(** C2. Streaming: however a message is cut into inputs, a fresh buffer of
    either kind hands to [compress], in order and each block exactly once, the
    leading blocks of the whole message, and keeps the rest; no call passes an
    empty slice of blocks, and no step panics or is undefined. *)
Theorem digest_stream_correct (BS : nat) {K : Type} `{SealedLaws K}
    `{!BlockSizes BS} {St : Type} (compress : St -> list (list u8) -> St)
    (s : St) (inputs : list (list u8)) :
  let m := concat inputs in
  let k := nblocks K BS (length m) in
  exists b' calls,
    digest_all BS (default_ BS : BlockBuffer K) inputs compress s
    = Ret (b', foldl compress s calls)
    /\ get_data BS b' = Ret (drop (k * BS) m)
    /\ concat calls = chunks BS k m
    /\ Forall (fun c => c <> []) calls.
Proof.
  intros m k.
  destruct (digest_all_stream BS compress (default_ BS : BlockBuffer K) [] inputs s)
    as (b' & calls & E & R & C & F); [by apply default_stream|].
  exists b', calls. split_and!; [done|by apply get_data_repr| |done].
  rewrite nblocks_small in C; [done|apply block_size_pos|apply inv_lt, block_size_pos].
Qed.

Lemma digest_stream_correct_witness :
  exists b' calls,
    digest_all 4 (default_ 4 : BlockBuffer Lazy) [[1; 2; 3]; [4; 5; 6; 7; 8]]%u8
      record_calls [] = Ret (b', foldl record_calls [] calls)
    /\ get_data 4 b' = Ret [5; 6; 7; 8]%u8
    /\ concat calls = [[1; 2; 3; 4]]%u8
    /\ Forall (fun c => c <> []) calls.
Proof.
  exact (digest_stream_correct 4 (K := Lazy) record_calls []
           [[1; 2; 3]; [4; 5; 6; 7; 8]]%u8).
Defined.

(** The blocks a Merkle-Damgard hash absorbs for the message [m]. *)
Definition padded_message (BS : nat) (m : list u8) (delim : u8)
    (suffix : list u8) : list u8 :=
  m ++ padding BS (length m `mod` BS) delim suffix.

(** C5. Merkle-Damgard padding: digesting a message in any pieces and then
    calling [len64_padding_be] makes [compress] absorb exactly the message,
    the byte 0x80, the least number of zeros that fills the last block, and
    the big-endian 64-bit length, cut into whole blocks, and leaves an empty
    buffer. *)
Theorem len64_padding_be_correct (BS : nat) `{!BlockSizes BS} {St : Type}
    (compress : St -> list u8 -> St) (s : St) (inputs : list (list u8))
    (data_len : Z) :
  8 <= BS ->
  let m := concat inputs in
  let p := padded_message BS m Byte.x80 (to_be_bytes 8 data_len) in
  exists b',
    (let! (b, s) := digest_all BS (default_ BS : BlockBuffer Eager) inputs
                      (foldl compress) s in
     len64_padding_be BS b data_len compress s)
    = Ret (b', foldl compress s (chunks BS (length p `div` BS) p))
    /\ get_data BS b' = Ret []
    /\ length p = length p `div` BS * BS
    /\ length m + 9 <= length p < length m + 9 + BS.
Proof.
  intros HB m p. pose proof (block_size_pos (BS := BS)) as Hpos.
  destruct (digest_all_stream BS (foldl compress) (default_ BS : BlockBuffer Eager) []
              inputs s (default_stream BS)) as (b1 & calls & E & R & C & F).
  rewrite E, bind_Ret. unfold stream_repr in R. simpl in C, R. fold m in C, R.
  rewrite Nat.Div0.div_0_l in C. simpl in C.
  set (k := length m `div` BS) in *.
  pose proof (Nat.div_mod_eq (length m) BS) as Hdm. fold k in Hdm.
  assert (length (drop (k * BS) m) = length m `mod` BS) as Hd by len.
  destruct (digest_pad_repr BS compress b1 _ Byte.x80 (to_be_bytes 8 data_len)
              (foldl (foldl compress) s calls) R) as (b2 & E2 & R2 & L2); [len|].
  rewrite Hd, length_to_be_bytes in *. set (j := pad_blocks BS _ 8) in *.
  assert (p = take (k * BS) m ++ drop (k * BS) m
              ++ padding BS (length m `mod` BS) Byte.x80 (to_be_bytes 8 data_len))
    as Hp by (by rewrite app_assoc, take_drop).
  assert (length p = (k + j) * BS) as Hlp
    by (rewrite Hp, length_app, L2, length_take; lia).
  assert (length p `div` BS = k + j) as -> by (rewrite Hlp; apply Nat.div_mul; lia).
  exists b2. unfold len64_padding_be. rewrite E2. split_and!.
  - rewrite foldl_foldl_concat, C, <- foldl_app. do 3 f_equal.
    assert (length (take (k * BS) m) = k * BS) as Hk by (rewrite length_take; lia).
    rewrite Hp, chunks_add, drop_app_length' by done.
    by rewrite (chunks_app_l BS k), chunks_take by lia.
  - exact (get_data_repr BS _ _ R2).
  - done.
  - rewrite Hlp, Nat.mul_add_distr_r. unfold j, pad_blocks.
    pose proof (Nat.mod_upper_bound (length m) BS). bcase; lia.
  - rewrite Hlp, Nat.mul_add_distr_r. unfold j, pad_blocks.
    pose proof (Nat.mod_upper_bound (length m) BS). bcase; lia.
Qed.

Lemma len64_padding_be_correct_witness :
  8 <= 16 /\
  exists b',
    (let! (b, s) := digest_all 16 (default_ 16 : BlockBuffer Eager) [[0x42]%u8]
                      (foldl (fun s blk => s ++ blk)) [] in
     len64_padding_be 16 b 8 (fun s blk => s ++ blk) s)
    = Ret (b', [0x42; 0x80; 0; 0; 0; 0; 0; 0; 0; 0; 0; 0; 0; 0; 0; 8]%u8).
Proof.
  split; [lia|].
  destruct (len64_padding_be_correct 16 (fun s blk => s ++ blk) [] [[0x42]%u8] 8
              ltac:(lia)) as (b' & E & _).
  exists b'. exact E.
Defined.

(** C26. [digest_pad] on a buffer that holds [d]: it panics exactly when the
    suffix is longer than a block; otherwise it passes one block, or two when
    the delimiter and the suffix do not fit after [d], whose bytes are [d], the
    delimiter, zeros and the suffix, and empties the buffer. *)
Theorem digest_pad_correct (BS : nat) `{!BlockSizes BS} {St : Type}
    (compress : St -> list u8 -> St) (b : BlockBuffer Eager) (d : list u8)
    (delim : u8) (suffix : list u8) (s : St) :
  repr BS b d ->
  if BS <? length suffix
  then digest_pad BS b delim suffix compress s = Panic
  else exists b' blocks,
    digest_pad BS b delim suffix compress s = Ret (b', foldl compress s blocks)
    /\ get_data BS b' = Ret []
    /\ length blocks = (if length d + 1 + length suffix <=? BS then 1 else 2)
    /\ Forall (fun blk => length blk = BS) blocks
    /\ concat blocks
       = d ++ delim
         :: replicate (length blocks * BS - length d - 1 - length suffix) Byte.x00
         ++ suffix.
Proof.
  intros Hr. destruct (Nat.ltb_spec BS (length suffix)) as [Hs|Hs].
  { by apply digest_pad_too_long. }
  destruct (digest_pad_repr BS compress b d delim suffix s Hr Hs) as (b' & E & R & L).
  eexists b', _. split; [exact E|]. rewrite length_chunks.
  pose proof (repr_inv BS b d Hr) as Hd%Nat.ltb_lt.
  split_and!; [exact (get_data_repr BS _ _ R)| |by apply chunks_lengths; lia|].
  - unfold pad_blocks. repeat bcase; lia.
  - by rewrite concat_chunks, take_ge by lia.
Qed.

Lemma digest_pad_correct_witness :
  exists b : BlockBuffer Eager,
    repr 4 b [0x42]%u8 /\
    exists b' blocks,
      digest_pad 4 b 0xff [0x10; 0x11]%u8 (fun s blk => s ++ [blk]) []
      = Ret (b', foldl (fun s blk => s ++ [blk]) [] blocks)
      /\ length blocks = 1.
Proof.
  edestruct (try_new_ok 4 (K := Eager) [0x42]%u8) as (b & _ & Hr); [reflexivity|].
  exists b. split; [exact Hr|].
  destruct (digest_pad_correct 4 (fun s blk => s ++ [blk]) b [0x42]%u8 0xff
              [0x10; 0x11]%u8 [] Hr) as (b' & blocks & E & _ & L & _).
  exists b', blocks. split; [exact E|exact L].
Defined.

(** C27. Serialization round trips, of the eager buffers in [BS] bytes and of the
    lazy ones in [BS + 1]: [serialize] of a buffer that holds [d] never panics and
    [deserialize] of it restores a buffer with the same data; on any block
    [deserialize] either reports an error or returns a buffer whose serialization
    is the block itself (so the form is canonical). *)
Theorem serialize_roundtrip (BS : nat) `{!BlockSizes BS} :
  serializes BS BS (eager_serialize BS) (eager_deserialize BS)
  /\ serializes BS (BS + 1) (lazy_serialize BS) (lazy_deserialize BS).
Proof. split; [exact (eager_serialize_roundtrip BS)|exact (lazy_serialize_roundtrip BS)]. Qed.

Lemma serialize_roundtrip_witness :
  (exists b, eager_deserialize 4 [41; 42; 0; 2]%u8 = Ret (Ok b)
             /\ eager_serialize 4 b = Ret [41; 42; 0; 2]%u8)
  /\ exists b, lazy_deserialize 4 [2; 41; 42; 0; 0]%u8 = Ret (Ok b)
               /\ lazy_serialize 4 b = Ret [2; 41; 42; 0; 0]%u8.
Proof.
  destruct (serialize_roundtrip 4) as [[_ He] [_ Hl]]. split.
  - destruct (He [41; 42; 0; 2]%u8 eq_refl) as [E|E]; [discriminate E|exact E].
  - destruct (Hl [2; 41; 42; 0; 0]%u8 eq_refl) as [E|E]; [discriminate E|exact E].
Defined.

(** Safety of both kinds: on every buffer a program can build with the public
    operations, including the deserialization of untrusted bytes, the cursor read
    never reaches [unreachable_unchecked], it lies in [0..BlockSize] (eager) or
    [0..=BlockSize] (lazy), and digesting, padding, resetting and serializing
    neither panic nor are undefined; [digest_pad] panics exactly on a suffix
    longer than a block. *)
Lemma buffer_safe (BS : nat) `{!BlockSizes BS} :
  (forall b, eager_reachable BS b ->
     safe BS (fun p => p < BS) b /\ returns (eager_serialize BS b) = true
     /\ forall St (compress : St -> list u8 -> St) s delim suffix,
          returns (digest_pad BS b delim suffix compress s) = (length suffix <=? BS))
  /\ (forall b, lazy_reachable BS b ->
         safe BS (fun p => p <= BS) b /\ returns (lazy_serialize BS b) = true).
Proof.
  split; intros b Hr.
  - apply eager_reachable_repr in Hr as (d & Hr); [|done]. split_and!.
    + apply (repr_safe BS _ b d Hr), Nat.ltb_lt, (repr_inv BS b d Hr).
    + by rewrite (eager_serialize_repr BS b d Hr).
    + intros St compress s delim suffix. bcase.
      * by destruct (digest_pad_repr BS compress b d delim suffix s Hr) as (b' & -> & _).
      * by rewrite digest_pad_too_long by lia.
  - apply lazy_reachable_repr in Hr as (d & Hr); [|done]. split.
    + apply (repr_safe BS _ b d Hr), Nat.leb_le, (repr_inv BS b d Hr).
    + by rewrite (lazy_serialize_repr BS b d Hr).
Qed.
