(* ===== verification/BufferSpec.v ===== *)
(** * What a block buffer is for its callers

    The abstract machine: a buffer is the list of the bytes that it holds, and an
    operation is what it does to these bytes, which blocks it lets the compression
    function absorb and what it returns. [KindOps] is the interface for the
    operations that only one kind has; [run_ops] runs any sequence of operations
    on the buffers of [BlockBuffer.v] and [spec_ops] on the abstract machine, and
    the first is shown to implement the second. *)
From stdpp Require Import base numbers list.
From S2P Require Import Prelude Sealed BlockBuffer.

(** What an operation gives back, besides the buffer. *)
Inductive Out : Set :=
  | Nothing
  | Room (n : nat)
  | Bytes (bs : list u8)
  | Refused.

(** The operations of every kind, and those of one kind. *)
Inductive Op (X : Type) : Type :=
  | New (buf : list u8)
  | TryNew (buf : list u8)
  | DigestBlocks (input : list u8)
  | Reset
  | PadWithZeros
  | Set_ (buf : list u8) (pos : nat)
  | GetData
  | Remaining
  | OfKind (op : X).
Arguments New {X} buf.
Arguments TryNew {X} buf.
Arguments DigestBlocks {X} input.
Arguments Reset {X}.
Arguments PadWithZeros {X}.
Arguments Set_ {X} buf pos.
Arguments GetData {X}.
Arguments Remaining {X}.
Arguments OfKind {X} op.

(** The operations that one kind [K] has for itself: on buffers and on the bytes
    held. [kind_fits] says that blocks have the sizes that their types give them. *)
Class KindOps (K : Type) `{Sealed K} := {
  KindOp : Type;
  kind_fits : nat -> KindOp -> Prop;
  kind_run {St} (BS : nat) (compress : St -> list u8 -> St) :
    KindOp -> BlockBuffer K -> St -> run (BlockBuffer K * St * Out);
  kind_spec {St} (BS : nat) (compress : St -> list u8 -> St) :
    KindOp -> list u8 -> St -> run (list u8 * St * Out);
}.
Arguments KindOp K {_ _}.
Arguments kind_fits K {_ _}.

(** ** The two machines *)

Section machines.
Context (BS : nat) {K : Type} `{SealedLaws K} `{!KindOps K}.
Context {St : Type} (compress : St -> list u8 -> St).

Definition op_fits (op : Op (KindOp K)) : Prop :=
  match op with
  | Set_ buf _ => length buf = BS
  | OfKind op => kind_fits K BS op
  | _ => True
  end.

Definition run_op (op : Op (KindOp K)) (b : BlockBuffer K) (s : St) :
    run (BlockBuffer K * St * Out) :=
  match op with
  | New buf => let! b := new BS buf in Ret (b, s, Nothing)
  | TryNew buf =>
      let! r := try_new BS buf in
      Ret (match r with Ok b => (b, s, Nothing) | Err _ => (b, s, Refused) end)
  | DigestBlocks input =>
      let! (b, s) := digest_blocks BS b input (foldl compress) s in Ret (b, s, Nothing)
  | Reset => let! b := reset BS b in Ret (b, s, Nothing)
  | PadWithZeros => let! (b, blk) := pad_with_zeros BS b in Ret (b, s, Bytes blk)
  | Set_ buf pos => let! b := set BS b buf pos in Ret (b, s, Nothing)
  | GetData => let! d := get_data BS b in Ret (b, s, Bytes d)
  | Remaining => let! n := remaining BS b in Ret (b, s, Room n)
  | OfKind op => kind_run BS compress op b s
  end.

(** The buffer that holds [d]: a valid position is all that [new] and [set] ask
    for; digesting lets out the least number of blocks of [d] and the input that
    leaves a valid position. *)
Definition spec_op (op : Op (KindOp K)) (d : list u8) (s : St) : run (list u8 * St * Out) :=
  match op with
  | New buf => if sealed_invariant K (length buf) BS then Ret (buf, s, Nothing) else Panic
  | TryNew buf =>
      Ret (if sealed_invariant K (length buf) BS then (buf, s, Nothing) else (d, s, Refused))
  | DigestBlocks input =>
      let m := d ++ input in
      let k := nblocks K BS (length m) in
      Ret (drop (k * BS) m, foldl compress s (chunks BS k m), Nothing)
  | Reset => Ret ([], s, Nothing)
  | PadWithZeros => Ret ([], s, Bytes (d ++ replicate (BS - length d) Byte.x00))
  | Set_ buf pos => if sealed_invariant K pos BS then Ret (take pos buf, s, Nothing) else Panic
  | GetData => Ret (d, s, Bytes d)
  | Remaining => Ret (d, s, Room (BS - length d))
  | OfKind op => kind_spec BS compress op d s
  end.

(** A sequence of operations, with all that they return. *)
Fixpoint run_ops (ops : list (Op (KindOp K))) (b : BlockBuffer K) (s : St) :
    run (BlockBuffer K * St * list Out) :=
  match ops with
  | [] => Ret (b, s, [])
  | op :: ops =>
      let! (b, s, o) := run_op op b s in
      let! (b, s, os) := run_ops ops b s in
      Ret (b, s, o :: os)
  end.

Fixpoint spec_ops (ops : list (Op (KindOp K))) (d : list u8) (s : St) :
    run (list u8 * St * list Out) :=
  match ops with
  | [] => Ret (d, s, [])
  | op :: ops =>
      let! (d, s, o) := spec_op op d s in
      let! (d, s, os) := spec_ops ops d s in
      Ret (d, s, o :: os)
  end.

(** A run on a buffer implements one on the bytes: both panic, or both return the
    same and the buffer holds the bytes. *)
Definition refines {O} (m : run (BlockBuffer K * St * O)) (a : run (list u8 * St * O)) : Prop :=
  match a with
  | Ret (d, s, o) => exists b, m = Ret (b, s, o) /\ repr BS b d
  | Panic => m = Panic
  | UB => False
  end.
End machines.

(** What a kind promises of its own operations. *)
Class KindOpsLaws (K : Type) `{SealedLaws K} `{!KindOps K} := {
  kind_refines {St} BS `{!BlockSizes BS} (compress : St -> list u8 -> St) op b d s :
    kind_fits K BS op -> repr BS b d ->
    refines BS (kind_run BS compress op b s) (kind_spec BS compress op d s);
}.

(** ** Refinement *)

Section refinement.
Context (BS : nat) `{!BlockSizes BS} {K : Type} `{KindOpsLaws K}.
Context {St : Type} (compress : St -> list u8 -> St).
Implicit Types (b : BlockBuffer K) (d : list u8) (s : St).

Lemma try_new_refines buf :
  (exists b : BlockBuffer K, sealed_invariant K (length buf) BS = true
     /\ try_new BS buf = Ret (Ok b) /\ repr BS b buf)
  \/ sealed_invariant K (length buf) BS = false
     /\ try_new (K := K) BS buf = Ret (Err BlockBufferError).
Proof.
  destruct (sealed_invariant K (length buf) BS) eqn:Hi.
  - left. destruct (try_new_ok BS buf Hi) as (b & E & R). eauto.
  - right. eauto using try_new_err.
Qed.

Lemma op_refines op b d s :
  op_fits BS op -> repr BS b d ->
  refines BS (run_op BS compress op b s) (spec_op BS compress op d s).
Proof.
  intros Hf Hr. destruct op as [buf|buf|input| | |buf pos| | |op]; simpl.
  - destruct (try_new_refines buf) as [(b' & Hi & E & R)|[Hi E]]; unfold new; rewrite E, Hi; simpl; eauto.
  - destruct (try_new_refines buf) as [(b' & Hi & E & R)|[Hi E]]; rewrite E, Hi; simpl; eauto.
  - destruct (digest_blocks_repr BS (foldl compress) b d input s Hr) as (b' & calls & E & R & C & _).
    rewrite E. simpl. rewrite foldl_foldl_concat, C. eauto.
  - destruct (reset_repr BS b d Hr) as (b' & E & R). rewrite E. simpl. eauto.
  - destruct (pad_with_zeros_repr BS b d Hr) as (b' & E & R). rewrite E. simpl. eauto.
  - destruct (sealed_invariant K pos BS) eqn:Hp; simpl.
    + destruct (set_repr BS b buf pos Hf Hp) as (b' & E & R). rewrite E. simpl. eauto.
    + unfold set. by rewrite Hp.
  - rewrite (get_data_repr BS b d Hr). simpl. eauto.
  - rewrite (remaining_repr BS b d Hr). simpl. eauto.
  - by apply kind_refines.
Qed.

Lemma ops_refines ops b d s :
  Forall (op_fits BS) ops -> repr BS b d ->
  refines BS (run_ops BS compress ops b s) (spec_ops BS compress ops d s).
Proof.
  intros Hf. revert b d s. induction Hf as [|op ops Ho Hf IH]; intros b d s Hr; simpl; [by eauto|].
  pose proof (op_refines op b d s Ho Hr) as Hop.
  destruct (spec_op BS compress op d s) as [[[d1 s1] o]| |]; simpl in *; [|by rewrite Hop|done].
  destruct Hop as (b1 & -> & R). simpl. specialize (IH b1 d1 s1 R).
  destruct (spec_ops BS compress ops d1 s1) as [[[d2 s2] os]| |]; simpl in *; [|by rewrite IH|done].
  destruct IH as (b2 & -> & R2). simpl. eauto.
Qed.
End refinement.

(** ** The operations of eager buffers *)

Inductive EagerOp : Set :=
  | DigestPad (delim : u8) (suffix : list u8)
  | Len64PaddingBe (data_len : Z)
  | Len64PaddingLe (data_len : Z)
  | Len128PaddingBe (data_len : Z)
  | Serialize
  | Deserialize (buf : list u8).

(** Padding absorbs what is held with its padding, and leaves nothing. *)
Definition spec_pad {St} (BS : nat) (compress : St -> list u8 -> St) (delim : u8)
    (suffix d : list u8) (s : St) : run (list u8 * St * Out) :=
  if BS <? length suffix then Panic else
  Ret ([], foldl compress s (chunks BS (pad_blocks BS (length d) (length suffix))
                               (d ++ padding BS (length d) delim suffix)), Nothing).

(** A buffer is restored exactly from the images of the bytes that fit in it. *)
Definition spec_restore {St} (image : list u8 -> list u8) (fits : nat -> bool)
    (held buf d : list u8) (s : St) : run (list u8 * St * Out) :=
  Ret (if fits (length held) && bool_decide (buf = image held)
       then (held, s, Nothing) else (d, s, Refused)).

Definition run_restore {K} `{Sealed K} {St} (r : result (BlockBuffer K) Error)
    (b : BlockBuffer K) (s : St) : BlockBuffer K * St * Out :=
  match r with Ok b => (b, s, Nothing) | Err _ => (b, s, Refused) end.

Definition run_pad {St} (m : run (BlockBuffer Eager * St)) : run (BlockBuffer Eager * St * Out) :=
  let! (b, s) := m in Ret (b, s, Nothing).

#[export] Instance eager_ops : KindOps Eager := {|
  KindOp := EagerOp;
  kind_fits BS op := match op with Deserialize buf => length buf = BS | _ => True end;
  kind_run St BS compress op b s :=
    match op with
    | DigestPad delim suffix => run_pad (digest_pad BS b delim suffix compress s)
    | Len64PaddingBe n => run_pad (len64_padding_be BS b n compress s)
    | Len64PaddingLe n => run_pad (len64_padding_le BS b n compress s)
    | Len128PaddingBe n => run_pad (len128_padding_be BS b n compress s)
    | Serialize => let! buf := eager_serialize BS b in Ret (b, s, Bytes buf)
    | Deserialize buf => let! r := eager_deserialize BS buf in Ret (run_restore r b s)
    end;
  kind_spec St BS compress op d s :=
    match op with
    | DigestPad delim suffix => spec_pad BS compress delim suffix d s
    | Len64PaddingBe n => spec_pad BS compress Byte.x80 (to_be_bytes 8 n) d s
    | Len64PaddingLe n => spec_pad BS compress Byte.x80 (to_le_bytes 8 n) d s
    | Len128PaddingBe n => spec_pad BS compress Byte.x80 (to_be_bytes 16 n) d s
    | Serialize => Ret (d, s, Bytes (eager_image BS d))
    | Deserialize buf =>
        spec_restore (eager_image BS) (fun n => n <? BS)
          (take (b2n (default Byte.x00 (last buf))) buf) buf d s
    end;
|}.

(** ** The operations of lazy buffers *)

Inductive LazyOp : Set :=
  | LazySerialize
  | LazyDeserialize (buf : list u8).

#[export] Instance lazy_ops : KindOps Lazy := {|
  KindOp := LazyOp;
  kind_fits BS op := match op with LazyDeserialize buf => length buf = BS + 1 | _ => True end;
  kind_run St BS compress op b s :=
    match op with
    | LazySerialize => let! buf := lazy_serialize BS b in Ret (b, s, Bytes buf)
    | LazyDeserialize buf => let! r := lazy_deserialize BS buf in Ret (run_restore r b s)
    end;
  kind_spec St BS compress op d s :=
    match op with
    | LazySerialize => Ret (d, s, Bytes (lazy_image BS d))
    | LazyDeserialize buf =>
        spec_restore (lazy_image BS) (fun n => n <=? BS)
          (take (b2n (default Byte.x00 (head buf))) (tail buf)) buf d s
    end;
|}.

(** ** Both kinds keep the promise *)

Section restore.
Context (BS : nat) {K : Type} `{SealedLaws K} `{!BlockSizes BS} {St : Type}.
Context (image : list u8 -> list u8) (fits : nat -> bool).
Context (deserialize : list u8 -> run (result (BlockBuffer K) Error)).
Context (accepts : forall d, fits (length d) = true ->
  exists b, deserialize (image d) = Ret (Ok b) /\ repr BS b d).

(** Restoring, when the bytes [held] can be read off every image. *)
Lemma restore_refines buf held (b : BlockBuffer K) d (s : St) :
  repr BS b d ->
  (forall k, fits (length k) = true -> buf = image k -> held = k) ->
  (deserialize buf = Ret (Err BlockBufferError)
   \/ exists b' k, deserialize buf = Ret (Ok b') /\ repr BS b' k /\ buf = image k
        /\ fits (length k) = true) ->
  refines BS (let! r := deserialize buf in Ret (run_restore r b s))
    (spec_restore image fits held buf d s).
Proof.
  intros Hr Hh Hd. unfold spec_restore. simpl.
  destruct (fits (length held) && bool_decide (buf = image held)) eqn:Hb.
  - apply andb_true_iff in Hb as [Hf Hb%bool_decide_eq_true]. subst buf.
    destruct (accepts held Hf) as (b' & E & R). rewrite E. simpl. eauto.
  - destruct Hd as [E|(b' & k & E & R & Hk & Hf)]; rewrite E; simpl; [eauto|].
    rewrite (Hh k Hf Hk), Hf, bool_decide_true in Hb by done. done.
Qed.
End restore.

Lemma pad_refines BS `{!BlockSizes BS} {St} (compress : St -> list u8 -> St) b d delim suffix s :
  repr BS b d ->
  refines BS (run_pad (digest_pad BS b delim suffix compress s))
    (spec_pad BS compress delim suffix d s).
Proof.
  intros Hr. unfold spec_pad. destruct (Nat.ltb_spec BS (length suffix)) as [Hs|Hs]; simpl.
  - by rewrite digest_pad_too_long.
  - destruct (digest_pad_repr BS compress b d delim suffix s Hr Hs) as (b' & E & R & _).
    rewrite E. simpl. eauto.
Qed.

Lemma eager_image_held BS d :
  length d < BS -> BS < 256 -> take (b2n (default Byte.x00 (last (eager_image BS d)))) (eager_image BS d) = d.
Proof.
  intros Hd HB. unfold eager_image. rewrite app_assoc, last_snoc. simpl.
  by rewrite b2n_n2b_small, <- app_assoc, take_app_length by lia.
Qed.

#[export] Instance eager_ops_laws : KindOpsLaws Eager.
Proof.
  split. intros St BS HB compress op b d s Hf Hr. pose proof (block_size_u8 (BS := BS)).
  destruct op; try by apply pad_refines.
  - simpl. rewrite (eager_serialize_repr BS b d Hr). simpl. eauto.
  - apply (restore_refines BS _ (fun n => n <? BS)); [|done| |].
    + intros k Hk%Nat.ltb_lt. by apply eager_deserialize_image.
    + intros k Hk%Nat.ltb_lt ->. by apply eager_image_held.
    + destruct (eager_deserialize_inv BS buf Hf) as [E|(b' & k & E & R & Hk)]; [by left|right].
      exists b', k. split_and!; [done..|]. exact (repr_inv BS b' k R).
Qed.

#[export] Instance lazy_ops_laws : KindOpsLaws Lazy.
Proof.
  split. intros St BS HB compress op b d s Hf Hr. pose proof (block_size_u8 (BS := BS)).
  destruct op.
  - simpl. rewrite (lazy_serialize_repr BS b d Hr). simpl. eauto.
  - apply (restore_refines BS _ (fun n => n <=? BS)); [|done| |].
    + intros k Hk%Nat.leb_le. by apply lazy_deserialize_image.
    + intros k Hk%Nat.leb_le ->. simpl. by rewrite b2n_n2b_small, take_app_length by lia.
    + destruct (lazy_deserialize_inv BS buf Hf) as [E|(b' & k & E & R & Hk)]; [by left|right].
      exists b', k. split_and!; [done..|]. exact (repr_inv BS b' k R).
Qed.

(** ** Properties *)

(** C1. Refinement: on a fresh buffer of either kind ([eager_ops_laws],
    [lazy_ops_laws]), any sequence of public operations, the deserialization of
    untrusted bytes included, does what it does on the abstract machine, whose
    state is the bytes held: the same blocks are absorbed in the same order, the
    same values are returned, the same bytes are held at the end, and it panics
    exactly where the abstract machine does; nothing is undefined behaviour. [set]
    panics exactly on the positions that are not valid for the kind: the block size is
    one for eager buffers, as the comment on [set] says, but not for lazy ones
    ([set_full_block]). *)
Theorem buffer_refines (BS : nat) `{!BlockSizes BS} {K : Type} `{KindOpsLaws K} {St : Type}
    (compress : St -> list u8 -> St) (s : St) (ops : list (Op (KindOp K))) :
  Forall (op_fits BS) ops ->
  (let! (b, s, os) := run_ops BS compress ops (default_ BS) s in
   let! d := get_data BS b in
   Ret (d, s, os))
  = spec_ops BS compress ops [] s
  /\ spec_ops BS compress ops [] s <> UB.
Proof.
  intros Hf. pose proof (ops_refines BS compress ops (default_ BS) [] s Hf (default_repr BS)) as Hr.
  destruct (spec_ops BS compress ops [] s) as [[[d s'] os]| |]; simpl in Hr; [|by rewrite Hr|done].
  destruct Hr as (b & -> & R). simpl. by rewrite (get_data_repr BS b d R).
Qed.

Definition eager_sample : list (Op (KindOp Eager)) :=
  [DigestBlocks [1; 2; 3]%u8; OfKind Serialize; Reset; OfKind (Deserialize [1; 2; 3; 3]%u8);
   OfKind (Deserialize [1; 2; 3; 4]%u8); DigestBlocks [4; 5]%u8; OfKind (DigestPad 128 [6]%u8)].

Definition lazy_sample : list (Op (KindOp Lazy)) :=
  [DigestBlocks [1; 2; 3; 4]%u8; Remaining; OfKind LazySerialize; PadWithZeros;
   Set_ [7; 8; 9; 0]%u8 2].

Lemma buffer_refines_witness :
  let log := fun (s : list (list u8)) blk => s ++ [blk] in
  (let! (b, s, os) := run_ops 4 log eager_sample (default_ 4) [] in
   let! d := get_data 4 b in Ret (d, s, os))
  = Ret ([], [[1; 2; 3; 4]; [5; 128; 0; 6]]%u8,
         [Nothing; Bytes [1; 2; 3; 3]%u8; Nothing; Nothing; Refused; Nothing; Nothing])
  /\ (let! (b, s, os) := run_ops 4 log lazy_sample (default_ 4) [] in
      let! d := get_data 4 b in Ret (d, s, os))
     = Ret ([7; 8]%u8, [],
            [Nothing; Room 0; Bytes [4; 1; 2; 3; 4]%u8; Bytes [1; 2; 3; 4]%u8; Nothing]).
Proof.
  intros log. split.
  - refine (eq_trans (proj1 (buffer_refines 4 log [] eager_sample _)) eq_refl).
    by repeat constructor.
  - refine (eq_trans (proj1 (buffer_refines 4 log [] lazy_sample _)) eq_refl).
    by repeat constructor.
Defined.

(** ** Where the code does not do what its documentation says *)

(** The comment on [set] says that it panics if the position is bigger than or equal to
    the block size. For a lazy buffer the block size is a valid position: the buffer
    holds the whole block. *)
Lemma set_full_block BS `{!BlockSizes BS} (b1 : BlockBuffer Eager) (b2 : BlockBuffer Lazy) buf :
  length buf = BS ->
  set BS b1 buf BS = Panic
  /\ exists b, set BS b2 buf BS = Ret b /\ get_data BS b = Ret buf.
Proof.
  intros Hl. split.
  - unfold set. simpl. unfold eager_invariant. by rewrite Nat.ltb_irrefl.
  - destruct (set_repr BS b2 buf BS Hl) as (b & E & R); [by apply Nat.leb_refl|].
    exists b. split; [done|]. rewrite (get_data_repr BS b _ R), take_ge; [done|lia].
Qed.
