(* ===== verification/ReadBuffer.v ===== *)
(** * Read buffers

    [block-buffer/src/read.rs]: [ReadBuffer<BS>], which serves reads of any
    length from data that a closure [gen_block] produces block by block. The
    closure receives the old content of the block it overwrites and carries a
    caller state [St]. *)
From S2P Require Import Prelude.
From S2P Require Import Sealed.
From S2P Require Import BlockBuffer.
From stdpp Require Import base numbers list.

(** [struct ReadBuffer]: the first byte of the block is the position. *)
Record ReadBuffer := mkReadBuffer { rbuffer : list u8 }.

Section read_buffer.
Context (BS : nat).

(** [ReadBuffer::default] *)
Definition rb_default : run ReadBuffer :=
  let buffer := replicate BS Byte.x00 in
  let! buffer := store buffer 0 (n2b BS) in
  Ret {| rbuffer := buffer |}.

(** [ReadBuffer::get_pos] *)
Definition rb_get_pos (b : ReadBuffer) : run nat :=
  let! p := index (rbuffer b) 0 in
  let! _ := assume_ (negb ((b2n p =? 0) || (b2n (n2b BS) <? b2n p))) in
  Ret (b2n p).

(** [ReadBuffer::size] *)
Definition rb_size : nat := BS.

(** [ReadBuffer::remaining] *)
Definition rb_remaining (b : ReadBuffer) : run nat :=
  let! p := rb_get_pos b in usub rb_size p.

(** [ReadBuffer::set_pos_unchecked] *)
Definition rb_set_pos_unchecked (b : ReadBuffer) (p : nat) : run ReadBuffer :=
  let! _ := assert_ (p <=? BS) in
  let! buffer := store (rbuffer b) 0 (n2b p) in
  Ret {| rbuffer := buffer |}.

(** [ReadBuffer::to_blocks_mut] *)
Definition to_blocks_mut (data : list u8) : run (list (list u8) * list u8) :=
  let nb := length data `div` BS in
  let! (left', right') := split_at data (nb * BS) in
  let! blocks := raw_arrays left' BS nb in
  Ret (blocks, right').

(** [for block in blocks { gen_block(block); }] *)
Fixpoint gen_each {St} (gen_block : St -> list u8 -> St * list u8) (s : St)
    (blocks : list (list u8)) : St * list (list u8) :=
  match blocks with
  | [] => (s, [])
  | block :: blocks =>
      let '(s, block) := gen_block s block in
      let '(s, blocks) := gen_each gen_block s blocks in
      (s, block :: blocks)
  end.

(** [ReadBuffer::read]: the new buffer, the new content of [data] and the
    state of the closure. *)
Definition read {St} (b : ReadBuffer) (data : list u8)
    (gen_block : St -> list u8 -> St * list u8) (s : St) :
    run (ReadBuffer * list u8 * St) :=
  let! p := rb_get_pos b in
  let! r := rb_remaining b in
  let n := length data in
  if negb (r =? 0) && (n <? r) then
    let! src := slice (rbuffer b) p (p + n) in
    let! data := copy_at data 0 n src in
    let! b := rb_set_pos_unchecked b (p + n) in
    Ret (b, data, s)
  else
    let! (left', data) :=
      if negb (r =? 0) then
        let! (left', right') := split_at data r in
        let! src := slice_from (rbuffer b) p in
        let! left' := copy_at left' 0 (length left') src in
        Ret (left', right')
      else Ret ([], data) in
    let! (blocks, leftover) := to_blocks_mut data in
    let '(s, blocks) := gen_each gen_block s blocks in
    let n := length leftover in
    if negb (n =? 0) then
      let '(s, block) := gen_block s (replicate BS Byte.x00) in
      let! src := slice_to block n in
      let! leftover := copy_at leftover 0 n src in
      let! b := rb_set_pos_unchecked {| rbuffer := block |} n in
      Ret (b, left' ++ concat blocks ++ leftover, s)
    else
      let! b := rb_set_pos_unchecked b BS in
      Ret (b, left' ++ concat blocks ++ leftover, s).

(** [ReadBuffer::serialize] *)
Definition rb_serialize (b : ReadBuffer) : run (list u8) :=
  let! p := rb_get_pos b in fill (rbuffer b) 1 p Byte.x00.

(** [ReadBuffer::deserialize] *)
Definition rb_deserialize (buffer : list u8) : run (result ReadBuffer Error) :=
  let! p := index buffer 0 in
  if (b2n p =? 0) || (b2n (n2b BS) <? b2n p) then Ret (Err BlockBufferError) else
  let! garbage := slice buffer 1 (b2n p) in
  if existsb (fun b => negb (bool_decide (b = Byte.x00))) garbage
  then Ret (Err BlockBufferError)
  else Ret (Ok {| rbuffer := buffer |}).
End read_buffer.

(** The generator of the repository's test: the n-th block is filled with n. *)
Definition counter_gen (BS : nat) (n : nat) (_ : list u8) : nat * list u8 :=
  (S n, replicate BS (n2b n)).

Example read_example :
  (let! b := rb_default 4 in
   let! (b, out1, s) := read 4 b (replicate 6 Byte.x00) (counter_gen 4) 0 in
   let! p1 := rb_get_pos 4 b in
   let! (b, out2, s) := read 4 b (replicate 3 Byte.x00) (counter_gen 4) s in
   let! p2 := rb_get_pos 4 b in
   Ret (out1, p1, out2, p2, s))
  = Ret ([0; 0; 0; 0; 1; 1]%u8, 2, [1; 1; 2]%u8, 1, 3).
Proof. vm_compute. reflexivity. Qed.

(** ** The bytes a read buffer holds *)

Section rb_repr.
Context (BS : nat) `{!BlockSizes BS}.
Implicit Types (b : ReadBuffer) (d : list u8).

(** [b] still has the bytes [d] to serve. *)
Definition rb_repr b d : Prop :=
  length d < BS /\ exists g,
    rbuffer b = n2b (BS - length d) :: g ++ d /\ length g = BS - length d - 1.

Lemma rb_repr_length b d : rb_repr b d -> length (rbuffer b) = BS.
Proof. intros (Hd & g & -> & Hg). len. Qed.

Lemma rb_repr_drop b d : rb_repr b d -> drop (BS - length d) (rbuffer b) = d.
Proof.
  intros (Hd & g & -> & Hg). rewrite app_comm_cons, drop_app_ge by len.
  by replace (_ - _) with 0 by len.
Qed.

Lemma rb_get_pos_repr b d : rb_repr b d -> rb_get_pos BS b = Ret (BS - length d).
Proof.
  intros (Hd & g & Hb & Hg). pose proof (block_size_u8 (BS := BS)).
  unfold rb_get_pos, index. rewrite Hb. simpl.
  rewrite !b2n_n2b_small by lia.
  by rewrite (proj2 (Nat.eqb_neq _ _)), (proj2 (Nat.ltb_ge _ _)) by lia.
Qed.

Lemma rb_remaining_repr b d : rb_repr b d -> rb_remaining BS b = Ret (length d).
Proof.
  intros Hr. unfold rb_remaining, rb_size. rewrite (rb_get_pos_repr b d Hr), bind_Ret.
  destruct Hr as [Hd _]. rewrite usub_ok by lia. f_equal. lia.
Qed.

Lemma rb_set_pos_repr b p :
  length (rbuffer b) = BS -> 0 < p <= BS ->
  exists b', rb_set_pos_unchecked BS b p = Ret b'
             /\ rb_repr b' (drop p (rbuffer b)).
Proof.
  intros Hl Hp. unfold rb_set_pos_unchecked.
  rewrite (proj2 (Nat.leb_le _ _)) by lia. run_steps. eexists. split; [done|].
  destruct b as [[|x buf]]; [simpl in Hl; lia|].
  destruct p as [|p]; [lia|]. simpl in Hl. split; simpl; [len|].
  exists (take p buf). rewrite take_drop, length_drop, length_take.
  split; [|lia]. do 2 f_equal. lia.
Qed.

Lemma rb_default_repr : exists b, rb_default BS = Ret b /\ rb_repr b [].
Proof.
  pose proof (block_size_pos (BS := BS)). unfold rb_default.
  run_steps. eexists. split; [done|]. split; [done|].
  destruct BS as [|n]; [lia|]. exists (replicate n Byte.x00).
  simpl. rewrite app_nil_r. split; [done|len].
Qed.
End rb_repr.

(** ** Reads *)

Section reads.
Context (BS : nat) `{!BlockSizes BS}.
Context {St : Type} (gen_block : St -> list u8 -> St * list u8).
(** The closure overwrites its block: the new content and the next state
    depend on the state alone. *)
Context (next : St -> St) (out : St -> list u8).
Context (Hgen : forall s blk, length blk = BS -> gen_block s blk = (next s, out s)).
Context (Hout : forall s, length (out s) = BS).
Implicit Types (b : ReadBuffer) (d data : list u8) (s : St).

(** The first [k] blocks of the stream. *)
Fixpoint gen_stream (k : nat) s : list u8 :=
  match k with
  | 0 => []
  | S k => out s ++ gen_stream k (next s)
  end.

(** The number of blocks generated to serve [n] bytes. *)
Definition blocks_for (n : nat) : nat := (n + BS - 1) `div` BS.

Lemma length_gen_stream k s : length (gen_stream k s) = k * BS.
Proof. revert s. induction k; intros; simpl; rewrite ?length_app, ?Hout; auto. Qed.

Lemma gen_stream_add j k s :
  gen_stream (j + k) s = gen_stream j s ++ gen_stream k (Nat.iter j next s).
Proof.
  revert s. induction j as [|j IH]; intros s; simpl; [done|].
  by rewrite IH, <- app_assoc, <- Nat.iter_succ_r.
Qed.

Lemma gen_each_spec s blocks :
  Forall (fun blk => length blk = BS) blocks ->
  exists blocks',
    gen_each gen_block s blocks = (Nat.iter (length blocks) next s, blocks')
    /\ concat blocks' = gen_stream (length blocks) s.
Proof.
  intros Hb. revert s. induction Hb as [|blk blocks Hl _ IH]; intros s; simpl.
  - by exists [].
  - rewrite Hgen by done. destruct (IH (next s)) as (blocks' & -> & C).
    exists (out s :: blocks'). simpl. by rewrite C, <- Nat.iter_succ_r.
Qed.

Lemma blocks_for_spec q r :
  blocks_for (q * BS + r) = if r =? 0 then q else q + blocks_for r.
Proof.
  pose proof (block_size_pos (BS := BS)). unfold blocks_for. bcase.
  - subst. replace (q * BS + 0 + BS - 1) with (BS - 1 + q * BS) by lia.
    rewrite Nat.div_add, Nat.div_small by lia. lia.
  - replace (q * BS + r + BS - 1) with (r + BS - 1 + q * BS) by lia.
    rewrite Nat.div_add by lia. lia.
Qed.

Lemma blocks_for_one r : 0 < r <= BS -> blocks_for r = 1.
Proof.
  intros. unfold blocks_for. replace (r + BS - 1) with (r - 1 + 1 * BS) by lia.
  rewrite Nat.div_add, Nat.div_small by lia. lia.
Qed.

Lemma blocks_for_0 : blocks_for 0 = 0.
Proof.
  pose proof (block_size_pos (BS := BS)). unfold blocks_for.
  apply Nat.div_small. lia.
Qed.

(** The part of [read] after the buffered bytes were served. *)
Lemma read_tail b data l s :
  length (rbuffer b) = BS ->
  let k := blocks_for (length data) in
  exists b',
    (let! (blocks, leftover) := to_blocks_mut BS data in
     let '(s, blocks) := gen_each gen_block s blocks in
     let n := length leftover in
     if negb (n =? 0) then
       let '(s, block) := gen_block s (replicate BS Byte.x00) in
       let! src := slice_to block n in
       let! leftover := copy_at leftover 0 n src in
       let! b := rb_set_pos_unchecked BS {| rbuffer := block |} n in
       Ret (b, l ++ concat blocks ++ leftover, s)
     else
       let! b := rb_set_pos_unchecked BS b BS in
       Ret (b, l ++ concat blocks ++ leftover, s))
    = Ret (b', l ++ take (length data) (gen_stream k s), Nat.iter k next s)
    /\ rb_repr BS b' (drop (length data) (gen_stream k s)).
Proof.
  intros Hl k. pose proof (block_size_pos (BS := BS)) as Hpos.
  set (n := length data) in *. set (q := n `div` BS). set (r := n - q * BS).
  assert (q * BS <= n < q * BS + BS) as Hq by (by apply eager_div).
  assert (k = if r =? 0 then q else q + blocks_for r) as Hk.
  { unfold k. rewrite <- blocks_for_spec. f_equal. lia. }
  unfold to_blocks_mut. fold n q. run_steps.
  assert (length (chunks BS q (take (q * BS) data)) = q) as Hlc by len.
  destruct (gen_each_spec s (chunks BS q (take (q * BS) data)))
    as (blocks & E & C); [apply chunks_lengths; len|].
  rewrite Hlc in E, C. rewrite E. rewrite length_drop. fold n r.
  pose proof (length_gen_stream q s) as Hgl.
  destruct (Nat.eqb_spec r 0) as [Hr|Hr]; simpl negb; cbv iota.
  - destruct (rb_set_pos_repr BS b BS Hl ltac:(lia)) as (b' & Hb & Rb).
    rewrite Hb. exists b'. rewrite drop_ge in Rb by lia.
    rewrite Hk, C. simpl. rewrite (drop_ge data), app_nil_r by lia.
    rewrite take_ge, drop_ge by lia. done.
  - rewrite Hgen by len. rewrite blocks_for_one in Hk by lia.
    assert (gen_stream k s = gen_stream q s ++ out (Nat.iter q next s)) as Hgs.
    { rewrite Hk, gen_stream_add. simpl. by rewrite app_nil_r. }
    pose proof (Hout (Nat.iter q next s)) as Ho.
    destruct (rb_set_pos_repr BS {| rbuffer := out (Nat.iter q next s) |} r Ho
                ltac:(lia)) as (b' & Hb & Rb).
    rewrite slice_to_ok by lia. run_steps. rewrite Hb. run_steps.
    exists b'. rewrite Hgs, take_app_ge, drop_app_ge by lia.
    rewrite Hgl. fold r. split; [|exact Rb]. rewrite C, drop_drop.
    rewrite (drop_ge data), app_nil_r by lia.
    by rewrite Hk, Nat.add_1_r.
Qed.

Lemma read_repr b d data s :
  rb_repr BS b d ->
  let n := length data in
  let k := blocks_for (n - length d) in
  let all := d ++ gen_stream k s in
  exists b',
    read BS b data gen_block s = Ret (b', take n all, Nat.iter k next s)
    /\ rb_repr BS b' (drop n all).
Proof.
  intros Hr n k all. pose proof (block_size_pos (BS := BS)) as Hpos.
  pose proof (rb_repr_length BS b d Hr) as Hl. pose proof (rb_repr_drop BS b d Hr) as Hd.
  unfold read. rewrite (rb_get_pos_repr BS b d Hr), (rb_remaining_repr BS b d Hr).
  destruct Hr as [Hlt _]. run_steps. fold n.
  destruct (Nat.ltb_spec n (length d)) as [Hn|Hn].
  - assert (k = 0) as Hk.
    { unfold k. replace (n - length d) with 0 by lia. apply blocks_for_0. }
    rewrite (proj2 (Nat.eqb_neq _ _)) by lia. simpl negb. cbv iota. simpl andb.
    cbv iota. rewrite slice_ok by lia. run_steps.
    destruct (rb_set_pos_repr BS b (BS - length d + n) Hl ltac:(lia)) as (b' & Hb & Rb).
    rewrite Hb. run_steps. exists b'. unfold all. rewrite Hk. simpl.
    rewrite <- drop_drop, Hd in Rb.
    rewrite app_nil_r, (drop_ge data), app_nil_r, Hd by done.
    by replace (BS - length d + n - (BS - length d)) with n by lia.
  - rewrite andb_false_r.
    match goal with
    | |- context [if negb (length d =? 0) then ?t else ?e] =>
        assert ((if negb (length d =? 0) then t else e)
                = Ret (d, drop (length d) data)) as ->
    end.
    { destruct (Nat.eqb_spec (length d) 0) as [Hz|Hz]; simpl negb; cbv iota.
      - destruct d; [|done]. by rewrite drop_0.
      - run_steps. rewrite Hd. run_steps. by rewrite drop_ge, app_nil_r by len. }
    rewrite bind_Ret.
    destruct (read_tail b (drop (length d) data) d s Hl) as (b' & E & R).
    cbv zeta in E. rewrite E. rewrite length_drop in *. fold n in E, R |- *. fold k in E, R |- *.
    exists b'. unfold all. rewrite take_app_ge, drop_app_ge by lia. done.
Qed.

(** A sequence of reads of the given buffers. *)
Fixpoint read_all b (datas : list (list u8)) s :
    run (ReadBuffer * list (list u8) * St) :=
  match datas with
  | [] => Ret (b, [], s)
  | data :: datas =>
      let! (b, data, s) := read BS b data gen_block s in
      let! (b, datas, s) := read_all b datas s in
      Ret (b, data :: datas, s)
  end.

Lemma blocks_for_add q r : blocks_for (q * BS + r) = q + blocks_for r.
Proof.
  rewrite blocks_for_spec. bcase; [|done]. subst. rewrite blocks_for_0. lia.
Qed.

Lemma blocks_for_bound n : n <= blocks_for n * BS < n + BS.
Proof.
  pose proof (block_size_pos (BS := BS)) as H. unfold blocks_for.
  pose proof (eager_div (n + BS - 1) BS H). lia.
Qed.

Lemma gen_stream_prefix j k n s :
  n <= j * BS -> take n (gen_stream (j + k) s) = take n (gen_stream j s).
Proof.
  intros. rewrite gen_stream_add, take_app_le; [done|].
  by rewrite length_gen_stream.
Qed.

(** [b] and [s] are the buffer and the state of the closure after [N] bytes
    of the stream that starts in [s0] were read. *)
Definition served (s0 : St) (N : nat) b s : Prop :=
  s = Nat.iter (blocks_for N) next s0
  /\ rb_repr BS b (drop N (gen_stream (blocks_for N) s0)).

Lemma read_served s0 N b s data :
  served s0 N b s ->
  let N' := N + length data in
  exists b' s',
    read BS b data gen_block s
    = Ret (b', drop N (take N' (gen_stream (blocks_for N') s0)), s')
    /\ served s0 N' b' s'.
Proof.
  intros [-> Hr] N'. set (K := blocks_for N) in *.
  pose proof (blocks_for_bound N) as HK. fold K in HK.
  set (d := drop N (gen_stream K s0)) in *.
  assert (length d = K * BS - N) as Hd
    by (unfold d; rewrite length_drop, length_gen_stream; lia).
  destruct (read_repr b d data (Nat.iter K next s0) Hr) as (b' & E & R).
  assert (blocks_for N' = K + blocks_for (length data - length d)) as HN.
  { destruct (Nat.le_gt_cases (length d) (length data)).
    - rewrite <- blocks_for_add. unfold N'. f_equal. lia.
    - replace (length data - length d) with 0 by lia.
      rewrite blocks_for_0, Nat.add_0_r.
      pose proof (blocks_for_bound N'). unfold N' in *. nia. }
  assert (d ++ gen_stream (blocks_for (length data - length d)) (Nat.iter K next s0)
          = drop N (gen_stream (blocks_for N') s0)) as Hall.
  { rewrite HN, gen_stream_add, drop_app_le; [done|].
    rewrite length_gen_stream. lia. }
  rewrite Hall in E, R. rewrite <- Nat.iter_add, Nat.add_comm, <- HN in E.
  eexists b', _. split; [|split; [reflexivity|]].
  - rewrite E. do 2 f_equal. by rewrite take_drop_commute.
  - by rewrite drop_drop in R.
Qed.

Lemma read_all_served s0 N b s datas :
  served s0 N b s ->
  let N' := N + length (concat datas) in
  exists b' s' outs,
    read_all b datas s = Ret (b', outs, s')
    /\ served s0 N' b' s'
    /\ concat outs = drop N (take N' (gen_stream (blocks_for N') s0))
    /\ length <$> outs = length <$> datas.
Proof.
  revert N b s. induction datas as [|data datas IH]; intros N b s Hs N'.
  - exists b, s, []. simpl. unfold N'. simpl. rewrite Nat.add_0_r.
    rewrite drop_ge by len. done.
  - simpl in N'. simpl read_all. set (N1 := N + length data).
    pose proof (blocks_for_bound N1) as HB1.
    destruct (read_served s0 N b s data Hs) as (b1 & s1 & -> & H1).
    destruct (IH N1 b1 s1 H1) as (b2 & s2 & outs & E & H2 & C & L).
    rewrite bind_Ret, E, bind_Ret. fold N1 in C |- *.
    assert (N1 + length (concat datas) = N') as HN' by (unfold N', N1; len).
    rewrite HN' in *. eexists b2, s2, _. split_and!; [done..| |].
    + simpl. rewrite C. pose proof (blocks_for_bound N') as HB2.
      assert (blocks_for N1 <= blocks_for N') by nia.
      rewrite <- (gen_stream_prefix (blocks_for N1)
                    (blocks_for N' - blocks_for N1) N1 s0) by lia.
      replace (blocks_for N1 + _) with (blocks_for N') by lia.
      set (g := gen_stream (blocks_for N') s0).
      rewrite <- (take_drop N1 (take N' g)) at 2.
      rewrite drop_app_le by (unfold g; rewrite !length_take, length_gen_stream; lia).
      by rewrite take_take, Nat.min_l by lia.
    + rewrite !fmap_cons, L. f_equal.
      rewrite length_drop, length_take, length_gen_stream. lia.
Qed.
End reads.

(** ** Serialization *)

Section rb_serialize.
Context (BS : nat) `{!BlockSizes BS}.
Implicit Types (b : ReadBuffer) (d buf : list u8).

Definition rb_image d : list u8 :=
  n2b (BS - length d) :: replicate (BS - length d - 1) Byte.x00 ++ d.

Lemma rb_image_repr d : length d < BS -> rb_repr BS {| rbuffer := rb_image d |} d.
Proof.
  intros Hd. split; [done|].
  exists (replicate (BS - length d - 1) Byte.x00). split; [done|len].
Qed.

Lemma rb_serialize_repr b d : rb_repr BS b d -> rb_serialize BS b = Ret (rb_image d).
Proof.
  intros Hr. pose proof (rb_repr_length BS b d Hr).
  pose proof (rb_repr_drop BS b d Hr) as Hd.
  unfold rb_serialize. rewrite (rb_get_pos_repr BS b d Hr), bind_Ret.
  pose proof Hr as (Hlt & g & Hb & Hg).
  rewrite fill_ok by lia. rewrite Hd, Hb. done.
Qed.

Lemma rb_deserialize_image d :
  length d < BS -> rb_deserialize BS (rb_image d) = Ret (Ok {| rbuffer := rb_image d |}).
Proof.
  intros Hd. pose proof (block_size_u8 (BS := BS)).
  assert (length (rb_image d) = BS) as Hl
    by exact (rb_repr_length BS _ d (rb_image_repr d Hd)).
  unfold rb_deserialize. rewrite (index_Some _ _ (n2b (BS - length d))) by done.
  rewrite bind_Ret, !b2n_n2b_small by lia.
  rewrite (proj2 (Nat.eqb_neq _ _)), (proj2 (Nat.ltb_ge _ _)) by lia. simpl orb.
  cbv iota. rewrite slice_ok, bind_Ret by lia. unfold rb_image at 1. simpl.
  rewrite drop_0, take_app_length' by len.
  by rewrite existsb_ne_replicate.
Qed.

Lemma rb_deserialize_inv buf :
  length buf = BS ->
  rb_deserialize BS buf = Ret (Err BlockBufferError)
  \/ exists d, rb_deserialize BS buf = Ret (Ok {| rbuffer := buf |})
               /\ length d < BS /\ buf = rb_image d.
Proof.
  intros Hl. pose proof (block_size_u8 (BS := BS)).
  pose proof (block_size_pos (BS := BS)).
  destruct buf as [|x buf]; [simpl in Hl; lia|]. simpl in Hl.
  unfold rb_deserialize, index. simpl. rewrite (b2n_n2b_small BS) by lia.
  destruct (Nat.eqb_spec (b2n x) 0) as [|Hz]; simpl; [by left|].
  destruct (Nat.ltb_spec BS (b2n x)) as [|Hx]; simpl; [by left|].
  rewrite slice_ok by len. run_steps. simpl. rewrite drop_0.
  destruct (existsb _ _) eqn:Hg; [by left|right]. apply existsb_ne in Hg.
  rewrite length_take, Nat.min_l in Hg by lia.
  exists (drop (b2n x - 1) buf). split_and!; [done|len|].
  unfold rb_image. rewrite length_drop.
  replace (BS - (length buf - (b2n x - 1))) with (b2n x) by lia.
  by rewrite n2b_b2n, <- Hg, take_drop.
Qed.
End rb_serialize.

(** The read buffers a program can hold. *)
Inductive rb_reachable (BS : nat) : ReadBuffer -> Prop :=
  | rb_reach_default b : rb_default BS = Ret b -> rb_reachable BS b
  | rb_reach_deserialize buf b :
      length buf = BS -> rb_deserialize BS buf = Ret (Ok b) -> rb_reachable BS b
  | rb_reach_read {St} b b' data data' (gen_block : St -> list u8 -> St * list u8)
      next out s s' :
      rb_reachable BS b ->
      (forall s blk, length blk = BS -> gen_block s blk = (next s, out s)) ->
      (forall s, length (out s) = BS) ->
      read BS b data gen_block s = Ret (b', data', s') ->
      rb_reachable BS b'.

Lemma rb_reachable_repr BS `{!BlockSizes BS} b :
  rb_reachable BS b -> exists d, rb_repr BS b d.
Proof.
  induction 1 as [b E|buf b Hl E|St b b' data data' gen next out s s' _ [d IH] Hg Ho E].
  - destruct (rb_default_repr BS) as (b' & E' & R). run_unify.
  - destruct (rb_deserialize_inv BS buf Hl) as [E'|(d & E' & Hd & ->)]; [by run_unify|].
    pose proof (rb_image_repr BS d Hd). run_unify.
  - destruct (read_repr BS gen next out Hg Ho b d data s IH) as (b1 & E1 & R). run_unify.
Qed.

(** ** Properties *)

(** C10. Reading is a stream: a fresh read buffer serves any sequence of reads,
    of any lengths, with consecutive bytes of the stream of generated blocks,
    no byte lost or repeated, calls the generator exactly as often as needed,
    and never panics or is undefined. *)
Theorem read_stream_correct (BS : nat) `{!BlockSizes BS} {St : Type}
    (gen_block : St -> list u8 -> St * list u8) (next : St -> St)
    (out : St -> list u8) (s0 : St) (datas : list (list u8)) :
  (forall s blk, length blk = BS -> gen_block s blk = (next s, out s)) ->
  (forall s, length (out s) = BS) ->
  let n := length (concat datas) in
  let k := blocks_for BS n in
  exists b outs,
    (let! b := rb_default BS in read_all BS gen_block b datas s0)
    = Ret (b, outs, Nat.iter k next s0)
    /\ concat outs = take n (gen_stream next out k s0)
    /\ length <$> outs = length <$> datas
    /\ n <= k * BS < n + BS.
Proof.
  intros Hg Ho n k. destruct (rb_default_repr BS) as (b0 & -> & R0).
  destruct (read_all_served BS gen_block next out Hg Ho s0 0 b0 s0 datas)
    as (b & s & outs & E & [-> R] & C & L).
  { split; [by rewrite blocks_for_0|]. by rewrite blocks_for_0. }
  exists b, outs. split_and!; [exact E|exact C|exact L|..];
    apply (blocks_for_bound BS n).
Qed.

Lemma read_stream_correct_witness :
  exists b outs,
    (let! b := rb_default 4 in
     read_all 4 (counter_gen 4) b [[7; 7; 7]; [7; 7]]%u8 0) = Ret (b, outs, 2)
    /\ concat outs = [0; 0; 0; 0; 1]%u8.
Proof.
  destruct (read_stream_correct 4 (counter_gen 4) S (fun n => replicate 4 (n2b n)) 0
              [[7; 7; 7]; [7; 7]]%u8) as (b & outs & E & C & _).
  - intros s blk _. reflexivity.
  - intros s. reflexivity.
  - exists b, outs. split; [exact E|exact C].
Defined.

(** C28. Read buffers round trip through their serialization and are safe: on
    every buffer a program can build, the cursor read never reaches
    [unreachable_unchecked] and lies in [1..=BlockSize], [serialize] returns a
    block that [deserialize] accepts and that holds the same pending bytes, and
    [deserialize] of any block either reports an error or returns a buffer that
    serializes to that block. *)
Theorem read_buffer_roundtrip_safe (BS : nat) `{!BlockSizes BS} :
  (forall b, rb_reachable BS b ->
    exists p d buf b',
      rb_get_pos BS b = Ret p /\ 1 <= p <= BS
      /\ drop p (rbuffer b) = d
      /\ rb_serialize BS b = Ret buf
      /\ rb_deserialize BS buf = Ret (Ok b')
      /\ rb_get_pos BS b' = Ret p /\ drop p (rbuffer b') = d)
  /\ (forall buf, length buf = BS ->
    rb_deserialize BS buf = Ret (Err BlockBufferError)
    \/ exists b, rb_deserialize BS buf = Ret (Ok b) /\ rb_serialize BS b = Ret buf).
Proof.
  split.
  - intros b (d & Hr)%rb_reachable_repr; [|done]. pose proof Hr as [Hd _].
    pose proof (rb_image_repr BS d Hd) as Hr'.
    exists (BS - length d), d, (rb_image BS d), {| rbuffer := rb_image BS d |}.
    split_and!; [by apply rb_get_pos_repr|lia|lia|by apply rb_repr_drop
      |by apply rb_serialize_repr|by apply rb_deserialize_image
      |by apply rb_get_pos_repr|exact (rb_repr_drop BS _ _ Hr')].
  - intros buf Hl. destruct (rb_deserialize_inv BS buf Hl) as [E|(d & E & Hd & ->)];
      [by left|right].
    eexists. split; [exact E|]. by apply rb_serialize_repr, rb_image_repr.
Qed.

Lemma read_buffer_roundtrip_safe_witness :
  exists b, rb_deserialize 4 [2; 0; 44; 45]%u8 = Ret (Ok b)
            /\ rb_serialize 4 b = Ret [2; 0; 44; 45]%u8.
Proof.
  destruct (read_buffer_roundtrip_safe 4) as [_ H].
  destruct (H [2; 0; 44; 45]%u8 eq_refl) as [E|E]; [discriminate E|exact E].
Defined.
