(* ===== verification/BlockBufferTests.v ===== *)
(** * The tests of [block-buffer]

    The tests of [block-buffer/tests/mod.rs], run on the models of [BlockBuffer.v] and
    [ReadBuffer.v]: a test returns when all its assertions hold. A closure whose
    assertion fails ends in [Panic], which it then keeps. *)
From Stdlib Require Import Strings.String.
From stdpp Require Import base numbers list.
From S2P Require Import Prelude Sealed BlockBuffer ReadBuffer.
Local Open Scope string_scope.
Local Open Scope nat_scope.
Local Open Scope list_scope.

Abbreviation bytes := list_byte_of_string.

(** [[0; n]] *)
Definition zeros (n : nat) : list u8 := replicate n Byte.x00.

(** ** [digest_blocks] *)

(** The closure of the two tests of [digest_blocks]: the [n]-th call is expected in
    the [j]-th round, with the given blocks. *)
Definition expect_blocks (exp_blocks : list (nat * list (list u8))) (i : nat) (n : run nat)
    (b : list (list u8)) : run nat :=
  let! n := n in
  let! (j, exp) := index exp_blocks n in
  let n := n + 1 in
  let! _ := assert_eq i j in
  let! _ := assert_eq (List.length b) (List.length exp) in
  let! _ := assert_ (forallb (fun v => bool_decide (v.1 = v.2)) (zip b exp)) in
  Ret n.

Definition digest_round {K} `{Sealed K} (exp_blocks : list (nat * list (list u8)))
    (exp_poses : list nat) (input : nat * list u8) (st : BlockBuffer K * nat) :
    run (BlockBuffer K * nat) :=
  let (i, input) := input in
  let (buf, n) := st in
  let! (buf, n) := digest_blocks 4 buf input (expect_blocks exp_blocks i) (Ret n) in
  let! n := n in
  let! exp := index exp_poses i in
  let! p := get_pos 4 buf in
  let! _ := assert_eq exp p in
  Ret (buf, n).

Definition test_digest_pad {K} `{Sealed K} (inputs : list (list u8))
    (exp_blocks : list (nat * list (list u8))) (exp_poses : list nat) (last : list u8) :
    run unit :=
  let buf : BlockBuffer K := default_ 4 in
  let! (buf, _) := for_in (imap pair inputs) (buf, 0) (digest_round exp_blocks exp_poses) in
  let! (buf, res) := pad_with_zeros 4 buf in
  let! _ := assert_eq res last in
  let! p := get_pos 4 buf in
  assert_eq p 0.

Definition test_eager_digest_pad : run unit :=
  test_digest_pad (K := Eager)
    (map bytes ["01234567"; "89"; "abcdefghij"; "klmnopqrs"; "tuv"; "wx"])
    [(0, map bytes ["0123"; "4567"]); (2, map bytes ["89ab"]); (2, map bytes ["cdef"; "ghij"]);
     (3, map bytes ["klmn"; "opqr"]); (4, map bytes ["stuv"])]
    [0; 2; 0; 1; 0; 2] (bytes "wx" ++ zeros 2).

Definition test_lazy_digest_pad : run unit :=
  test_digest_pad (K := Lazy)
    (map bytes ["01234567"; "89"; "abcdefghij"; "klmnopqrs"])
    [(0, map bytes ["0123"]); (1, map bytes ["4567"]); (2, map bytes ["89ab"]);
     (2, map bytes ["cdef"]); (3, map bytes ["ghij"]); (3, map bytes ["klmn"; "opqr"])]
    [4; 2; 4; 1] (bytes "s" ++ zeros 3).

Lemma digest_pad_tests_pass : test_eager_digest_pad = Ret tt /\ test_lazy_digest_pad = Ret tt.
Proof. split; vm_compute; reflexivity. Qed.

(** ** Paddings *)

(** [|block| out.extend(block)] *)
Definition extend (out block : list u8) : list u8 := out ++ block.

(** A buffer with the byte [0x42], padded by [pad], gives the bytes [expected]. *)
Definition test_padding (BS : nat)
    (pad : BlockBuffer Eager -> (list u8 -> list u8 -> list u8) -> list u8 ->
           run (BlockBuffer Eager * list u8)) (expected : list u8) : run unit :=
  let! buf := new BS [0x42%u8] in
  let! (_, out) := pad buf extend [] in
  assert_eq out expected.

Definition len64 : Z := 0x0001020304050607.
Definition len128 : Z := 0x000102030405060708090a0b0c0d0e0f.

Definition test_eager_paddings : run unit :=
  let up := map n2b (seq 0 8) in
  let! _ := test_padding 8 (fun b => len64_padding_be 8 b len64)
              ([0x42; 0x80]%u8 ++ zeros 6 ++ up) in
  let! _ := test_padding 8 (fun b => len64_padding_le 8 b len64)
              ([0x42; 0x80]%u8 ++ zeros 6 ++ reverse up) in
  let! _ := test_padding 10 (fun b => len64_padding_be 10 b len64) ([0x42; 0x80]%u8 ++ up) in
  let! _ := test_padding 10 (fun b => len64_padding_le 10 b len64)
              ([0x42; 0x80]%u8 ++ reverse up) in
  let! _ := test_padding 16 (fun b => len128_padding_be 16 b len128)
              ([0x42; 0x80]%u8 ++ zeros 14 ++ map n2b (seq 0 16)) in
  let! _ := test_padding 24 (fun b => len128_padding_be 24 b len128)
              ([0x42; 0x80]%u8 ++ zeros 6 ++ map n2b (seq 0 16)) in
  let! _ := test_padding 4 (fun b => digest_pad 4 b 0xff%u8 [0x10; 0x11; 0x12]%u8)
              [0x42; 0xff; 0x00; 0x00; 0x00; 0x10; 0x11; 0x12]%u8 in
  test_padding 4 (fun b => digest_pad 4 b 0xff%u8 [0x10; 0x11]%u8) [0x42; 0xff; 0x10; 0x11]%u8.

Lemma test_eager_paddings_passes : test_eager_paddings = Ret tt.
Proof. vm_compute. reflexivity. Qed.

(** ** [try_new] *)

Definition is_ok {A E} (r : result A E) : bool := match r with Ok _ => true | Err _ => false end.

Definition test_try_new : run (list bool) :=
  let! r1 := try_new 4 (K := Eager) (zeros 3) in
  let! r2 := try_new 4 (K := Eager) (zeros 4) in
  let! r3 := try_new 4 (K := Lazy) (zeros 4) in
  let! r4 := try_new 4 (K := Lazy) (zeros 5) in
  Ret [is_ok r1; is_ok r2; is_ok r3; is_ok r4].

Lemma test_try_new_passes : test_try_new = Ret [true; false; true; false].
Proof. vm_compute. reflexivity. Qed.

(** ** Serialization *)

Section serialize.
Context {B St : Type} (serialize : B -> run (list u8))
  (deserialize : list u8 -> run (result B Error)) (update : B -> St -> run (B * St)).

(** [deserialize(ser).unwrap().serialize() == ser], which gives the new buffer. *)
Definition restore (ser : list u8) : run B :=
  let! r := deserialize ser in
  let! b := unwrap r in
  let! ser' := serialize b in
  let! _ := assert_eq ser' ser in
  Ret b.

(** [serialize] is the same for all of the buffers. *)
Definition all_serialize (bufs : list B) (ser : list u8) : run unit :=
  for_in bufs tt (fun b _ => let! ser' := serialize b in assert_eq ser' ser).

(** The same update of each of the buffers. *)
Fixpoint update_all (bufs : list B) (s : St) : run (list B * St) :=
  match bufs with
  | [] => Ret ([], s)
  | b :: bufs =>
      let! (b, s) := update b s in
      let! (bufs, s) := update_all bufs s in
      Ret (b :: bufs, s)
  end.

Definition rejects (bufs : list (list u8)) : run unit :=
  for_in bufs tt (fun buf _ => let! r := deserialize buf in assert_ (negb (is_ok r))).
End serialize.

(** [buf.digest_blocks(&[byte], |_| {})] *)
Definition digest_bytes {K} `{Sealed K} (input : list u8) (buf : BlockBuffer K) (s : unit) :
    run (BlockBuffer K * unit) :=
  digest_blocks 4 buf input (fun s _ => s) s.

(** The rounds that the tests of the two kinds have in common: a byte more in each, and
    one more buffer that was restored. *)
Definition serialize_test {K} `{Sealed K} (serialize : BlockBuffer K -> run (list u8))
    (deserialize : list u8 -> run (result (BlockBuffer K) Error))
    (ser0 ser1 ser2 : list u8) (sers : list (u8 * list u8)) (bad : list (list u8)) : run unit :=
  let buf1 := default_ 4 in
  let! _ := all_serialize serialize [buf1] ser0 in
  let! _ := restore serialize deserialize ser0 in
  let! (buf1, _) := digest_bytes [41; 42]%u8 buf1 tt in
  let! _ := all_serialize serialize [buf1] ser1 in
  let! buf2 := restore serialize deserialize ser1 in
  let! (bufs, _) := update_all (digest_bytes [43]%u8) [buf1; buf2] tt in
  let! _ := all_serialize serialize bufs ser2 in
  let! buf3 := restore serialize deserialize ser2 in
  let! _ := for_in sers (bufs ++ [buf3]) (fun '(byte, ser) bufs =>
    let! (bufs, _) := update_all (digest_bytes [byte]) bufs tt in
    let! _ := all_serialize serialize bufs ser in
    Ret bufs) in
  rejects deserialize bad.

Definition test_eager_serialize : run unit :=
  serialize_test (eager_serialize 4) (eager_deserialize 4)
    [0; 0; 0; 0]%u8 [41; 42; 0; 2]%u8 [41; 42; 43; 3]%u8 [(44%u8, [0; 0; 0; 0]%u8)]
    (* an invalid position; bytes of garbage that are not zero *)
    [[0; 0; 0; 4]%u8; [0; 0; 0; 10]%u8; [1; 0; 0; 0]%u8; [0; 1; 0; 1]%u8; [0; 0; 1; 2]%u8].

Definition test_lazy_serialize : run unit :=
  serialize_test (lazy_serialize 4) (lazy_deserialize 4)
    [0; 0; 0; 0; 0]%u8 [2; 41; 42; 0; 0]%u8 [3; 41; 42; 43; 0]%u8
    [(44%u8, [4; 41; 42; 43; 44]%u8); (45%u8, [1; 45; 0; 0; 0]%u8)]
    [[10; 0; 0; 0; 0]%u8; [5; 0; 0; 0; 0]%u8; [0; 1; 0; 0; 0]%u8; [1; 0; 1; 0; 0]%u8;
     [2; 0; 0; 1; 0]%u8; [3; 0; 0; 0; 1]%u8].

Lemma serialize_tests_pass : test_eager_serialize = Ret tt /\ test_lazy_serialize = Ret tt.
Proof. split; vm_compute; reflexivity. Qed.

(** ** Read buffers *)

(** The reads of [test_read] into [n] bytes: the bytes read, the position, the rest. *)
Definition read_round (rnd : list u8 * nat * nat) (st : ReadBuffer * nat) : run (ReadBuffer * nat) :=
  let '(exp, p, r) := rnd in
  let (buf, n) := st in
  let! (buf, out, n) := read 4 buf (zeros (List.length exp)) (counter_gen 4) n in
  let! _ := assert_eq out exp in
  let! p' := rb_get_pos 4 buf in
  let! _ := assert_eq p' p in
  let! r' := rb_remaining 4 buf in
  let! _ := assert_eq r' r in
  Ret (buf, n).

Definition test_read : run unit :=
  let! buf := rb_default 4 in
  let! (_, n) := for_in [([0; 0; 0; 0; 1; 1]%u8, 2, 2); ([1; 1; 2]%u8, 1, 3); ([2; 2; 2]%u8, 4, 0)]
                   (buf, 0) read_round in
  assert_eq n 3.

(** The generator of [test_read_serialize]: all bytes count up. *)
Definition next_bytes (n : nat) (_ : list u8) : nat * list u8 := (n + 4, map n2b (seq n 4)).

Definition read_bytes (k : nat) (buf : ReadBuffer) (n : nat) : run (ReadBuffer * nat) :=
  let! (buf, _, n) := read 4 buf (zeros k) next_bytes n in Ret (buf, n).

Definition test_read_serialize : run unit :=
  let restore := restore (rb_serialize 4) (rb_deserialize 4) in
  let all_serialize := all_serialize (rb_serialize 4) in
  let! buf1 := rb_default 4 in
  let! _ := all_serialize [buf1] [4; 0; 0; 0]%u8 in
  let! _ := restore [4; 0; 0; 0]%u8 in
  let! (buf1, n) := read_bytes 2 buf1 42 in
  let! _ := all_serialize [buf1] [2; 0; 44; 45]%u8 in
  let! buf2 := restore [2; 0; 44; 45]%u8 in
  let! (bufs, n) := update_all (read_bytes 1) [buf1; buf2] n in
  let! _ := all_serialize bufs [3; 0; 0; 45]%u8 in
  let! buf3 := restore [3; 0; 0; 45]%u8 in
  let! (bufs, n) := update_all (read_bytes 1) (bufs ++ [buf3]) n in
  let! _ := all_serialize bufs [4; 0; 0; 0]%u8 in
  (* each buffer calls the generator, so they get filled with different data *)
  let! (bufs, n) := update_all (read_bytes 1) bufs n in
  let! _ := for_in (zip bufs [[1; 47; 48; 49]%u8; [1; 51; 52; 53]%u8; [1; 55; 56; 57]%u8]) tt
              (fun '(b, ser) _ => all_serialize [b] ser) in
  rejects (rb_deserialize 4)
    [[0; 0; 0; 0]%u8; [5; 0; 0; 0]%u8; [10; 0; 0; 0]%u8; [2; 1; 0; 0]%u8; [3; 0; 1; 0]%u8;
     [4; 0; 0; 1]%u8].

Lemma read_tests_pass : test_read = Ret tt /\ test_read_serialize = Ret tt.
Proof. split; vm_compute; reflexivity. Qed.
