(* ===== verification/BlockPadding.v ===== *)
(** * Block paddings

    [block-padding/src/lib.rs]: the trait [Padding] as the class [Padding] with
    one instance per scheme, its provided method [unpad_blocks], and the
    interface [ReversiblePadding] that the clients of a reversible scheme use.
    A [Block<B>] is a list of [BS] bytes; a slice of blocks is contiguous in
    memory, so its bytes are the concatenation of the blocks. *)
From S2P Require Import Prelude.
From stdpp Require Import base numbers list.

(** [enum PadType] *)
Inductive PadType : Set := Reversible | Ambiguous | NoPaddingType.

(** [struct UnpadError] *)
Inductive UnpadError : Set := mkUnpadError.

(** [trait Padding]; the block size is the argument [BS]. *)
Class Padding (P : Type) := {
  TYPE : PadType;
  pad : nat -> list u8 -> nat -> run (list u8);
  unpad : nat -> list u8 -> run (result (list u8) UnpadError);
}.
Arguments TYPE P {_}.
Arguments pad P {_}.
Arguments unpad P {_}.

(** [Padding::unpad_blocks] *)
Definition unpad_blocks (P : Type) `{Padding P} (BS : nat)
    (blocks : list (list u8)) : run (result (list u8) UnpadError) :=
  let bs := BS in
  let? res_len :=
    match last blocks, TYPE P with
    | _, NoPaddingType => Ret (Ok (bs * length blocks))
    | Some last_block, _ =>
        let? d := unpad P BS last_block in
        let n := length d in
        let! _ := assert_ (n <=? bs) in
        let! k := usub (length blocks) 1 in
        Ret (Ok (n + bs * k))
    | None, Ambiguous => Ret (Ok 0)
    | None, Reversible => Ret (Err mkUnpadError)
    end in
  let! r := raw_slice (concat blocks) 0 res_len in
  Ret (Ok r).

(** ** [ZeroPadding] *)

Inductive ZeroPadding : Set := zero_padding.

Definition zero_pad (BS : nat) (block : list u8) (pos : nat) : run (list u8) :=
  if BS <? pos then Panic else
  fill block pos (length block) Byte.x00.

(** [for i in (0..n).rev() { if block[i] != 0 { return Ok(&block[..i + 1]) } }] *)
Fixpoint zero_unpad_loop (block : list u8) (n : nat) :
    run (result (list u8) UnpadError) :=
  match n with
  | 0 => let! r := slice_to block 0 in Ret (Ok r)
  | S i =>
      let! b := index block i in
      if negb (bool_decide (b = Byte.x00)) then
        let! r := slice_to block (i + 1) in Ret (Ok r)
      else zero_unpad_loop block i
  end.

Definition zero_unpad (BS : nat) (block : list u8) :
    run (result (list u8) UnpadError) :=
  zero_unpad_loop block BS.

#[export] Instance zero_padding_impl : Padding ZeroPadding := {|
  TYPE := Ambiguous;
  pad := zero_pad;
  unpad := zero_unpad;
|}.

(** ** [Pkcs7] and [Iso10126] *)

Inductive Pkcs7 : Set := pkcs7.

(** The inherent function [Pkcs7::unpad]. *)
Definition pkcs7_unpad_strict (BS : nat) (block : list u8) (strict : bool) :
    run (result (list u8) UnpadError) :=
  let! _ := assert_ (negb (255 <? BS)) in
  let bs := BS in
  let! i := usub bs 1 in
  let! n := index block i in
  if (b2n n =? 0) || (bs <? b2n n) then Ret (Err mkUnpadError) else
  let! s := usub bs (b2n n) in
  let! malformed :=
    (if strict then
       let! tail := slice block s i in
       Ret (existsb (fun v => negb (bool_decide (v = n))) tail)
     else Ret false) : run bool in
  if (malformed : bool) then Ret (Err mkUnpadError) else
  let! r := slice_to block s in
  Ret (Ok r).

Definition pkcs7_pad (BS : nat) (block : list u8) (pos : nat) : run (list u8) :=
  if 255 <? BS then Panic else
  if BS <=? pos then Panic else
  let n := n2b (BS - pos) in
  fill block pos (length block) n.

Definition pkcs7_unpad (BS : nat) (block : list u8) :
    run (result (list u8) UnpadError) :=
  pkcs7_unpad_strict BS block true.

#[export] Instance pkcs7_impl : Padding Pkcs7 := {|
  TYPE := Reversible;
  pad := pkcs7_pad;
  unpad := pkcs7_unpad;
|}.

Inductive Iso10126 : Set := iso10126.

Definition iso10126_pad (BS : nat) (block : list u8) (pos : nat) :
    run (list u8) :=
  pkcs7_pad BS block pos.

Definition iso10126_unpad (BS : nat) (block : list u8) :
    run (result (list u8) UnpadError) :=
  pkcs7_unpad_strict BS block false.

#[export] Instance iso10126_impl : Padding Iso10126 := {|
  TYPE := Reversible;
  pad := iso10126_pad;
  unpad := iso10126_unpad;
|}.

(** ** [AnsiX923] *)

Inductive AnsiX923 : Set := ansi_x923.

Definition ansi_pad (BS : nat) (block : list u8) (pos : nat) : run (list u8) :=
  if 255 <? BS then Panic else
  if BS <=? pos then Panic else
  let bs := BS in
  let! i := usub bs 1 in
  let! block := fill block pos i Byte.x00 in
  store block i (n2b (bs - pos)).

Definition ansi_unpad (BS : nat) (block : list u8) :
    run (result (list u8) UnpadError) :=
  let! _ := assert_ (negb (255 <? BS)) in
  let bs := BS in
  let! i := usub bs 1 in
  let! b := index block i in
  let n := b2n b in
  if (n =? 0) || (bs <? n) then Ret (Err mkUnpadError) else
  let! s := usub bs n in
  let! tail := slice block s i in
  if existsb (fun v => negb (bool_decide (v = Byte.x00))) tail
  then Ret (Err mkUnpadError) else
  let! r := slice_to block s in
  Ret (Ok r).

#[export] Instance ansi_x923_impl : Padding AnsiX923 := {|
  TYPE := Reversible;
  pad := ansi_pad;
  unpad := ansi_unpad;
|}.

(** ** [Iso7816] *)

Inductive Iso7816 : Set := iso7816.

Definition iso7816_pad (BS : nat) (block : list u8) (pos : nat) : run (list u8) :=
  if BS <=? pos then Panic else
  let! block := store block pos Byte.x80 in
  fill block (pos + 1) (length block) Byte.x00.

Fixpoint iso7816_unpad_loop (block : list u8) (n : nat) :
    run (result (list u8) UnpadError) :=
  match n with
  | 0 => Ret (Err mkUnpadError)
  | S i =>
      let! b := index block i in
      match b with
      | Byte.x80 => let! r := slice_to block i in Ret (Ok r)
      | Byte.x00 => iso7816_unpad_loop block i
      | _ => Ret (Err mkUnpadError)
      end
  end.

Definition iso7816_unpad (BS : nat) (block : list u8) :
    run (result (list u8) UnpadError) :=
  iso7816_unpad_loop block BS.

#[export] Instance iso7816_impl : Padding Iso7816 := {|
  TYPE := Reversible;
  pad := iso7816_pad;
  unpad := iso7816_unpad;
|}.

(** ** [NoPadding] *)

Inductive NoPadding : Set := no_padding.

Definition no_pad (BS : nat) (block : list u8) (pos : nat) : run (list u8) :=
  if BS <? pos then Panic else Ret block.

Definition no_unpad (BS : nat) (block : list u8) :
    run (result (list u8) UnpadError) :=
  Ret (Ok block).

#[export] Instance no_padding_impl : Padding NoPadding := {|
  TYPE := NoPaddingType;
  pad := no_pad;
  unpad := no_unpad;
|}.

Example ansi_example :
  (let! b := pad AnsiX923 8 [116; 101; 115; 116; 255; 255; 255; 255]%u8 4 in
   let! r := unpad AnsiX923 8 b in Ret (b, r))
  = Ret ([116; 101; 115; 116; 0; 0; 0; 4]%u8, Ok [116; 101; 115; 116]%u8).
Proof. vm_compute. reflexivity. Qed.

(** ** Blocks that end in a length byte *)

Section trailer.
Context (BS : nat).
Implicit Types (block d g : list u8) (x : u8).

Lemma trailer_index d g x :
  length (d ++ g ++ [x]) = BS -> index (d ++ g ++ [x]) (BS - 1) = Ret x.
Proof.
  intros Hl. apply index_Some. rewrite lookup_app_r, lookup_app_r by len.
  by replace (_ - _ - _) with 0 by len.
Qed.

Lemma trailer_slice d g x :
  length (d ++ g ++ [x]) = BS ->
  take (BS - 1 - (BS - S (length g))) (drop (BS - S (length g)) (d ++ g ++ [x]))
  = g.
Proof.
  intros Hl. rewrite drop_app_ge by len.
  replace (_ - _ - length d) with 0 by len.
  by rewrite drop_0, take_app_length' by len.
Qed.

Lemma trailer_slice_to d g x :
  length (d ++ g ++ [x]) = BS -> take (BS - S (length g)) (d ++ g ++ [x]) = d.
Proof. intros Hl. apply take_app_length'. len. Qed.

(** Every block is data, filler and a last byte that counts the filler and
    itself, unless that byte is zero or exceeds the block size. *)
Lemma trailer_cases block :
  length block = BS -> 0 < BS ->
  exists x, index block (BS - 1) = Ret x /\
    (b2n x = 0 \/ BS < b2n x
     \/ exists d g, block = d ++ g ++ [x] /\ b2n x = S (length g)
                    /\ S (length g) <= BS).
Proof.
  intros Hl HB. destruct (lookup_lt_is_Some_2 block (BS - 1)) as [x Hx]; [lia|].
  exists x. split; [by apply index_Some|].
  destruct (decide (b2n x = 0)) as [|Hz]; [by left|right].
  destruct (decide (BS < b2n x)) as [|Hb]; [by left|right].
  exists (take (BS - b2n x) block), (take (b2n x - 1) (drop (BS - b2n x) block)).
  split_and!; [|len|len].
  rewrite <- (take_drop (BS - b2n x) block) at 1. f_equal.
  rewrite <- (take_drop (b2n x - 1) (drop (BS - b2n x) block)) at 1. f_equal.
  rewrite drop_drop. replace (_ + _) with (BS - 1) by lia.
  by rewrite (drop_S _ _ _ Hx), drop_ge by lia.
Qed.
End trailer.

(** ** The schemes, one by one *)

Section schemes.
Context (BS : nat).
Implicit Types (block d g : list u8) (pos n : nat).

Lemma pkcs7_pad_eq block pos :
  length block = BS -> BS <= 255 -> pos < BS ->
  pkcs7_pad BS block pos
  = Ret (take pos block ++ replicate (BS - pos) (n2b (BS - pos))).
Proof.
  intros Hl HB Hp. unfold pkcs7_pad.
  rewrite (proj2 (Nat.ltb_ge _ _)), (proj2 (Nat.leb_gt _ _)) by lia.
  rewrite <- Hl. by rewrite fill_end_ok by lia.
Qed.

Lemma pkcs7_unpad_trailer d g x strict :
  length (d ++ g ++ [x]) = BS -> BS <= 255 -> b2n x = S (length g) ->
  pkcs7_unpad_strict BS (d ++ g ++ [x]) strict
  = Ret (if strict && existsb (fun v => negb (bool_decide (v = x))) g
         then Err mkUnpadError else Ok d).
Proof.
  intros Hl HB Hx. unfold pkcs7_unpad_strict.
  rewrite (proj2 (Nat.ltb_ge _ _)) by lia. simpl negb.
  rewrite usub_ok by len. run_steps. rewrite trailer_index by done. run_steps.
  rewrite Hx.
  rewrite (proj2 (Nat.ltb_ge _ _)) by len. simpl orb. cbv iota.
  run_steps. rewrite trailer_slice, trailer_slice_to by done.
  destruct strict; simpl; [|done]. by destruct (existsb _ _).
Qed.

(** Outcome of [unpad] on any block. *)
Lemma pkcs7_unpad_cases block strict :
  length block = BS -> 0 < BS -> BS <= 255 ->
  pkcs7_unpad_strict BS block strict = Ret (Err mkUnpadError)
  \/ exists d g, pkcs7_unpad_strict BS block strict = Ret (Ok d)
       /\ block = d ++ g ++ [n2b (S (length g))]
       /\ (strict = true -> g = replicate (length g) (n2b (S (length g)))).
Proof.
  intros Hl HB HB'.
  destruct (trailer_cases BS block Hl HB) as (x & Hx & [Hz|[Hz|(d & g & -> & Hn & Hg)]]).
  - left. unfold pkcs7_unpad_strict. rewrite (proj2 (Nat.ltb_ge _ _)) by lia.
    simpl negb. rewrite usub_ok by lia. run_steps. by rewrite Hx, bind_Ret, Hz.
  - left. unfold pkcs7_unpad_strict. rewrite (proj2 (Nat.ltb_ge _ _)) by lia.
    simpl negb. rewrite usub_ok by lia. run_steps. rewrite Hx, bind_Ret.
    by rewrite (proj2 (Nat.ltb_lt _ _)), orb_true_r by lia.
  - rewrite pkcs7_unpad_trailer by done.
    destruct (strict && _) eqn:E; [by left|right]. exists d, g.
    rewrite <- Hn, n2b_b2n. split_and!; [done..|]. intros ->. by apply existsb_ne.
Qed.

Lemma ansi_pad_eq block pos :
  length block = BS -> BS <= 255 -> pos < BS ->
  ansi_pad BS block pos
  = Ret (take pos block ++ replicate (BS - pos - 1) Byte.x00 ++ [n2b (BS - pos)]).
Proof.
  intros Hl HB Hp. unfold ansi_pad.
  rewrite (proj2 (Nat.ltb_ge _ _)), (proj2 (Nat.leb_gt _ _)) by lia.
  run_steps. f_equal. destruct (lookup_lt_is_Some_2 block (BS - 1)) as [x Hx]; [lia|].
  rewrite (drop_S _ _ _ Hx), drop_ge by lia.
  rewrite insert_app_r_alt, insert_app_r_alt by len.
  replace (BS - 1 - length (take pos block) - _) with 0 by len.
  simpl. do 3 f_equal. lia.
Qed.

Lemma ansi_unpad_trailer d g x :
  length (d ++ g ++ [x]) = BS -> BS <= 255 -> b2n x = S (length g) ->
  ansi_unpad BS (d ++ g ++ [x])
  = Ret (if existsb (fun v => negb (bool_decide (v = Byte.x00))) g
         then Err mkUnpadError else Ok d).
Proof.
  intros Hl HB Hx. unfold ansi_unpad.
  rewrite (proj2 (Nat.ltb_ge _ _)) by lia. simpl negb.
  rewrite usub_ok by len. run_steps. rewrite trailer_index by done. run_steps.
  rewrite Hx.
  rewrite (proj2 (Nat.ltb_ge _ _)) by len. simpl orb. cbv iota.
  run_steps. rewrite trailer_slice, trailer_slice_to by done.
  run_steps. by destruct (existsb _ _).
Qed.

Lemma ansi_unpad_cases block :
  length block = BS -> 0 < BS -> BS <= 255 ->
  ansi_unpad BS block = Ret (Err mkUnpadError)
  \/ exists d n, ansi_unpad BS block = Ret (Ok d)
       /\ block = d ++ replicate n Byte.x00 ++ [n2b (S n)].
Proof.
  intros Hl HB HB'.
  destruct (trailer_cases BS block Hl HB) as (x & Hx & [Hz|[Hz|(d & g & -> & Hn & Hg)]]).
  - left. unfold ansi_unpad. rewrite (proj2 (Nat.ltb_ge _ _)) by lia.
    simpl negb. rewrite usub_ok by lia. run_steps. by rewrite Hx, bind_Ret, Hz.
  - left. unfold ansi_unpad. rewrite (proj2 (Nat.ltb_ge _ _)) by lia.
    simpl negb. rewrite usub_ok by lia. run_steps. rewrite Hx, bind_Ret.
    cbv zeta. by rewrite (proj2 (Nat.ltb_lt _ _)), orb_true_r by lia.
  - rewrite ansi_unpad_trailer by done.
    destruct (existsb _ _) eqn:E; [by left|right]. apply existsb_ne in E.
    exists d, (length g). rewrite <- Hn, n2b_b2n. by rewrite <- E.
Qed.

Lemma iso7816_pad_eq block pos :
  length block = BS -> pos < BS ->
  iso7816_pad BS block pos
  = Ret (take pos block ++ Byte.x80 :: replicate (BS - pos - 1) Byte.x00).
Proof.
  intros Hl Hp. unfold iso7816_pad. rewrite (proj2 (Nat.leb_gt _ _)) by lia.
  run_steps. rewrite length_insert. f_equal.
  rewrite insert_take_drop by lia.
  rewrite take_app_ge by len. replace (pos + 1 - _) with 1 by len.
  simpl. rewrite <- app_assoc. simpl. do 3 f_equal. lia.
Qed.

(** The loop skips zeros. *)
Lemma iso7816_loop_zeros (d : list u8) k z :
  k <= z ->
  iso7816_unpad_loop (d ++ replicate z Byte.x00) (length d + k)
  = iso7816_unpad_loop (d ++ replicate z Byte.x00) (length d).
Proof.
  induction k as [|k IH]; intros Hk; [by rewrite Nat.add_0_r|].
  rewrite Nat.add_succ_r. cbn [iso7816_unpad_loop].
  rewrite (index_Some _ _ Byte.x00).
  - rewrite bind_Ret. apply IH. lia.
  - rewrite lookup_app_r by lia. apply lookup_replicate_2. lia.
Qed.

Lemma iso7816_unpad_marked d z :
  length d + S z = BS ->
  iso7816_unpad BS (d ++ Byte.x80 :: replicate z Byte.x00) = Ret (Ok d).
Proof.
  intros Hl. unfold iso7816_unpad. rewrite cons_middle, app_assoc.
  replace BS with (length (d ++ [Byte.x80]) + z) at 1 by len.
  rewrite iso7816_loop_zeros by done. rewrite length_app, Nat.add_1_r.
  cbn [iso7816_unpad_loop]. rewrite <- app_assoc.
  rewrite (index_Some _ _ Byte.x80) by (by apply list_lookup_middle).
  run_steps. by rewrite take_app_length.
Qed.

Lemma iso7816_loop_cases block n :
  n <= length block ->
  iso7816_unpad_loop block n = Ret (Err mkUnpadError)
  \/ exists d z, iso7816_unpad_loop block n = Ret (Ok d)
       /\ take n block = d ++ Byte.x80 :: replicate z Byte.x00.
Proof.
  induction n as [|i IH]; intros Hn; [by left|]. cbn [iso7816_unpad_loop].
  destruct (lookup_lt_is_Some_2 block i) as [b Hb]; [lia|].
  rewrite (index_Some _ _ b), bind_Ret by done.
  rewrite (take_S_r _ _ _ Hb).
  destruct (decide (b = Byte.x80)) as [->|H80].
  - right. exists (take i block), 0. run_steps. done.
  - destruct (decide (b = Byte.x00)) as [->|H0].
    + destruct IH as [IH|(d & z & IH & Ht)]; [lia|by left|right].
      exists d, (S z). rewrite IH, Ht. split; [done|].
      rewrite <- app_assoc. simpl. by rewrite <- replicate_S_end.
    + left. destruct b; congruence.
Qed.

Lemma zero_pad_eq block pos :
  length block = BS -> pos <= BS ->
  zero_pad BS block pos
  = Ret (take pos block ++ replicate (BS - pos) Byte.x00).
Proof.
  intros Hl Hp. unfold zero_pad. rewrite (proj2 (Nat.ltb_ge _ _)) by lia.
  run_steps. by rewrite Hl.
Qed.

Lemma zero_loop_spec block n :
  n <= length block ->
  exists d z, zero_unpad_loop block n = Ret (Ok d)
    /\ take n block = d ++ replicate z Byte.x00 /\ last d <> Some Byte.x00.
Proof.
  induction n as [|i IH]; intros Hn.
  - exists [], 0. cbn [zero_unpad_loop]. run_steps. by rewrite take_0.
  - cbn [zero_unpad_loop].
    destruct (lookup_lt_is_Some_2 block i) as [b Hb]; [lia|].
    rewrite (index_Some _ _ b), bind_Ret by done.
    rewrite (take_S_r _ _ _ Hb). case_bool_decide as Hz; simpl.
    + destruct IH as (d & z & IH & Ht & Hd); [lia|].
      exists d, (S z). rewrite IH, Ht, Hz. split_and!; [done| |done].
      rewrite <- app_assoc. by rewrite <- replicate_S_end.
    + exists (take i block ++ [b]), 0. rewrite slice_to_ok by lia.
      rewrite bind_Ret, Nat.add_1_r, (take_S_r _ _ _ Hb), app_nil_r.
      split_and!; [done..|]. rewrite last_snoc. congruence.
Qed.
End schemes.

(** A list has one decomposition into a stripped prefix and copies of [v]. *)
Lemma strip_unique {A} (v : A) (d1 d2 : list A) z1 z2 :
  d1 ++ replicate z1 v = d2 ++ replicate z2 v ->
  last d1 <> Some v -> last d2 <> Some v -> d1 = d2.
Proof.
  revert z2. induction z1 as [|z1 IH]; intros [|z2] He H1 H2;
    rewrite ?replicate_S_end, ?app_assoc, ?app_nil_r in He; simpl in He;
    rewrite ?app_nil_r in He.
  - done.
  - subst d1. by rewrite last_snoc in H1.
  - subst d2. by rewrite last_snoc in H2.
  - apply app_inj_tail in He as [He _]. by apply (IH z2).
Qed.

(** ** What a client may assume of a reversible scheme *)

(** [rl_pad]: a padded block unpads to the data it held. [rl_unpad]: [unpad]
    returns on every block, either the error or a proper prefix. *)
Class ReversiblePadding (P : Type) `{Padding P} (BS : nat) := {
  rl_type : TYPE P = Reversible;
  rl_pad block pos :
    length block = BS -> pos < BS ->
    exists padded, pad P BS block pos = Ret padded /\ length padded = BS
      /\ unpad P BS padded = Ret (Ok (take pos block));
  rl_full block pos : BS <= pos -> pad P BS block pos = Panic;
  rl_unpad block :
    length block = BS -> 0 < BS ->
    unpad P BS block = Ret (Err mkUnpadError)
    \/ exists d t, unpad P BS block = Ret (Ok d) /\ block = d ++ t /\ t <> [];
}.

Section instances.
Context (BS : nat) (HB : 0 < BS) (HB' : BS <= 255).
Implicit Types (block d g : list u8) (pos n : nat).

(** A run of [n] equal bytes that ends the block. *)
Lemma pkcs7_unpad_image d n strict :
  length d + n = BS -> 0 < n ->
  pkcs7_unpad_strict BS (d ++ replicate n (n2b n)) strict = Ret (Ok d).
Proof.
  intros Hl Hn. destruct n as [|n]; [lia|]. rewrite replicate_S_end.
  rewrite pkcs7_unpad_trailer by (rewrite ?b2n_n2b_small by lia; len).
  by rewrite existsb_ne_replicate, andb_false_r.
Qed.

Lemma ansi_unpad_image d n :
  length d + S n = BS ->
  ansi_unpad BS (d ++ replicate n Byte.x00 ++ [n2b (S n)]) = Ret (Ok d).
Proof.
  intros Hl. rewrite ansi_unpad_trailer by (rewrite ?b2n_n2b_small by lia; len).
  by rewrite existsb_ne_replicate.
Qed.

Lemma pkcs7_strict_reversible strict block pos :
  length block = BS -> pos < BS ->
  exists padded, pkcs7_pad BS block pos = Ret padded /\ length padded = BS
    /\ pkcs7_unpad_strict BS padded strict = Ret (Ok (take pos block)).
Proof.
  intros Hl Hp. rewrite pkcs7_pad_eq by done. eexists.
  split_and!; [done|len|]. apply pkcs7_unpad_image; len.
Qed.

Lemma pkcs7_pad_full block pos : BS <= pos -> pkcs7_pad BS block pos = Panic.
Proof.
  intros. unfold pkcs7_pad. rewrite (proj2 (Nat.leb_le BS pos)) by done.
  by destruct (255 <? BS).
Qed.

Lemma pkcs7_strict_total strict block :
  length block = BS ->
  pkcs7_unpad_strict BS block strict = Ret (Err mkUnpadError)
  \/ exists d t, pkcs7_unpad_strict BS block strict = Ret (Ok d)
       /\ block = d ++ t /\ t <> [].
Proof.
  intros Hl.
  destruct (pkcs7_unpad_cases BS block strict Hl HB HB') as [|(d & g & ? & ? & _)];
    [by left|right].
  exists d, (g ++ [n2b (S (length g))]). split_and!; [done..|by destruct g].
Qed.

Instance pkcs7_reversible : ReversiblePadding Pkcs7 BS.
Proof using HB HB'.
  split; [done|apply (pkcs7_strict_reversible true)|apply pkcs7_pad_full|].
  intros. by apply (pkcs7_strict_total true).
Qed.

Instance iso10126_reversible : ReversiblePadding Iso10126 BS.
Proof using HB HB'.
  split; [done|apply (pkcs7_strict_reversible false)|apply pkcs7_pad_full|].
  intros. by apply (pkcs7_strict_total false).
Qed.

Instance ansi_reversible : ReversiblePadding AnsiX923 BS.
Proof using HB HB'.
  split; [done| | |]; simpl.
  - intros block pos Hl Hp. rewrite ansi_pad_eq by done. eexists.
    split_and!; [done|len|]. replace (BS - pos) with (S (BS - pos - 1)) at 2 by lia.
    apply ansi_unpad_image. len.
  - intros block pos Hp. unfold ansi_pad.
    rewrite (proj2 (Nat.leb_le BS pos)) by done. by destruct (255 <? BS).
  - intros block Hl _.
    destruct (ansi_unpad_cases BS block Hl HB HB') as [|(d & n & ? & ?)];
      [by left|right].
    exists d, (replicate n Byte.x00 ++ [n2b (S n)]).
    split_and!; [done..|by destruct n].
Qed.

Instance iso7816_reversible : ReversiblePadding Iso7816 BS.
Proof using HB.
  clear HB'. split; [done| | |]; simpl.
  - intros block pos Hl Hp. rewrite iso7816_pad_eq by done. eexists.
    split_and!; [done|len|]. apply iso7816_unpad_marked. len.
  - intros block pos Hp. unfold iso7816_pad.
    by rewrite (proj2 (Nat.leb_le BS pos)) by done.
  - intros block Hl _. unfold iso7816_unpad.
    destruct (iso7816_loop_cases block BS) as [|(d & z & ? & Ht)];
      [lia|by left|right].
    rewrite take_ge in Ht by lia. eauto 10.
Qed.
End instances.

(** ** Messages of several blocks, against the interface *)

Section client.
Context (P : Type) `{ReversiblePadding P BS}.
Implicit Types (blocks : list (list u8)) (block : list u8).

Lemma unpad_blocks_last blocks block :
  Forall (fun b => length b = BS) blocks -> length block = BS -> 0 < BS ->
  unpad_blocks P BS (blocks ++ [block])
  = (let! r := unpad P BS block in
     Ret (result_map (fun d => concat blocks ++ d) r)).
Proof.
  intros Hbs Hl HB. unfold unpad_blocks. rewrite last_snoc, rl_type.
  destruct (rl_unpad block Hl HB) as [->|(d & t & -> & -> & _)]; [done|].
  run_steps. rewrite (proj2 (Nat.leb_le _ _)) by len. run_steps. simpl.
  assert (length (concat blocks) = BS * length blocks) as Hc.
  { clear -Hbs. induction Hbs; [|rewrite concat_cons]; len. }
  rewrite concat_app. simpl. rewrite app_nil_r. run_steps.
  rewrite length_app. simpl. replace (length blocks + 1 - 1) with (length blocks) by lia.
  rewrite drop_0. do 2 f_equal. rewrite app_assoc. apply take_app_length'. len.
Qed.
End client.

(** ** The forms of the schemes *)

(** Padding writes [tail n] over the last [n] bytes; unpadding strips exactly the
    ends that are a [trailer] and gives [UnpadError] on every other block. *)
Definition scheme (P : Type) `{Padding P} (BS : nat) (tail : nat -> list u8)
    (trailer : list u8 -> Prop) : Prop :=
  forall block, length block = BS ->
    (forall pos, pos < BS ->
       pad P BS block pos = Ret (take pos block ++ tail (BS - pos)))
    /\ (forall d, unpad P BS block = Ret (Ok d) <-> exists t, block = d ++ t /\ trailer t)
    /\ (unpad P BS block = Ret (Err mkUnpadError) \/ exists d, unpad P BS block = Ret (Ok d)).

Definition pkcs7_tail (n : nat) : list u8 := replicate n (n2b n).
Definition ansi_tail (n : nat) : list u8 := replicate (n - 1) Byte.x00 ++ [n2b n].
Definition iso7816_tail (n : nat) : list u8 := Byte.x80 :: replicate (n - 1) Byte.x00.

(** The ends that padding writes. *)
Definition written (tail : nat -> list u8) (t : list u8) : Prop := exists n, 0 < n /\ t = tail n.

Lemma pkcs7_scheme BS : 0 < BS -> BS <= 255 -> scheme Pkcs7 BS pkcs7_tail (written pkcs7_tail).
Proof.
  intros HB HB' block Hl. simpl. split_and!.
  - intros. by apply pkcs7_pad_eq.
  - intros d. split.
    + intros Hu. destruct (pkcs7_unpad_cases BS block true Hl HB HB')
        as [He|(d' & g & Hd & Hb & Hg)];
        unfold pkcs7_unpad in Hu; [congruence|].
      rewrite Hd in Hu. simplify_eq. eexists. split; [done|]. exists (S (length g)).
      split; [lia|]. unfold pkcs7_tail. rewrite replicate_S_end.
      by f_equal; apply Hg.
    + intros (t & -> & n & Hn & ->). unfold pkcs7_tail in *. apply pkcs7_unpad_image; len.
  - destruct (pkcs7_strict_total BS HB HB' true block Hl) as [|(d & _ & ? & _)]; eauto.
Qed.

(** ISO 10126 writes what PKCS #7 writes, but looks at the last byte only. *)
Lemma iso10126_scheme BS : 0 < BS -> BS <= 255 ->
  scheme Iso10126 BS pkcs7_tail (fun t => exists g, t = g ++ [n2b (S (length g))]).
Proof.
  intros HB HB' block Hl. simpl. split_and!.
  - intros. by apply pkcs7_pad_eq.
  - intros d. split.
    + intros Hu. destruct (pkcs7_unpad_cases BS block false Hl HB HB')
        as [He|(d' & g & Hd & Hb & _)];
        unfold iso10126_unpad in Hu; [congruence|].
      rewrite Hd in Hu. simplify_eq. eauto.
    + intros (t & -> & g & ->). unfold iso10126_unpad.
      by rewrite pkcs7_unpad_trailer by (rewrite ?b2n_n2b_small by len; len).
  - destruct (pkcs7_strict_total BS HB HB' false block Hl) as [|(d & _ & ? & _)]; eauto.
Qed.

Lemma ansi_x923_scheme BS : 0 < BS -> BS <= 255 -> scheme AnsiX923 BS ansi_tail (written ansi_tail).
Proof.
  intros HB HB' block Hl. simpl. split_and!.
  - intros. by apply ansi_pad_eq.
  - intros d. split.
    + intros Hu. destruct (ansi_unpad_cases BS block Hl HB HB')
        as [He|(d' & n & Hd & Hb)]; [congruence|].
      rewrite Hd in Hu. simplify_eq. eexists. split; [done|]. exists (S n).
      split; [lia|]. unfold ansi_tail. by rewrite Nat.sub_succ, Nat.sub_0_r.
    + intros (t & -> & n & Hn & ->). destruct n as [|n]; [lia|].
      unfold ansi_tail in *. replace (S n - 1) with n in * by lia. apply ansi_unpad_image; len.
  - destruct (ansi_unpad_cases BS block Hl HB HB') as [|(d & n & ? & _)]; eauto.
Qed.

Lemma iso7816_scheme BS : scheme Iso7816 BS iso7816_tail (written iso7816_tail).
Proof.
  intros block Hl. simpl.
  assert (forall d, (exists t, block = d ++ t /\ written iso7816_tail t)
    <-> exists z, block = d ++ Byte.x80 :: replicate z Byte.x00) as Hw.
  { intros d. unfold written, iso7816_tail. split.
    - intros (t & -> & n & _ & ->). eauto.
    - intros (z & ->). eexists. split; [done|]. exists (S z).
      split; [lia|]. by rewrite Nat.sub_succ, Nat.sub_0_r. }
  destruct (iso7816_loop_cases block BS) as [He|(d' & z & Hd & Ht)];
    [lia| |rewrite take_ge in Ht by lia]; split_and!; eauto using iso7816_pad_eq;
    intros d; rewrite Hw; unfold iso7816_unpad.
  - rewrite He. split; [done|].
    intros (z & ->). pose proof (iso7816_unpad_marked BS d z ltac:(len)) as Hm.
    unfold iso7816_unpad in Hm. congruence.
  - split.
    + rewrite Hd. intros [= ->]. eauto.
    + intros (z' & Hb). pose proof (iso7816_unpad_marked BS d z') as Hm.
      rewrite <- Hb in Hm. apply Hm. rewrite Hb in Hl. clear -Hl. len.
Qed.

(** Zero unpadding strips exactly the trailing zeros and never fails, so padding
    then unpadding gives the data back exactly when it does not end in a zero. *)
Lemma zero_padding_spec BS block pos :
  length block = BS -> pos <= BS ->
  (exists d z, unpad ZeroPadding BS block = Ret (Ok d)
     /\ block = d ++ replicate z Byte.x00 /\ last d <> Some Byte.x00)
  /\ ((let! padded := pad ZeroPadding BS block pos in unpad ZeroPadding BS padded)
      = Ret (Ok (take pos block)) <-> last (take pos block) <> Some Byte.x00).
Proof.
  intros Hl Hp. simpl. unfold zero_unpad. split.
  - destruct (zero_loop_spec block BS) as (d & z & -> & Ht & Hd); [lia|].
    rewrite take_ge in Ht by lia. eauto.
  - rewrite zero_pad_eq by done. rewrite bind_Ret.
    destruct (zero_loop_spec (take pos block ++ replicate (BS - pos) Byte.x00) BS)
      as (d & z & -> & Ht & Hd); [len|]. rewrite take_ge in Ht by len.
    split; [by intros [= <-]|]. intros Hlast. do 2 f_equal.
    by apply (strip_unique Byte.x00 _ _ z (BS - pos)).
Qed.

(** ** Properties *)

(** C7. A message of any length, cut into full blocks and a last block that a
    reversible scheme pads, unpads to exactly the message; and on any sequence
    of blocks [unpad_blocks] returns the error (always so on the empty one) or
    a proper prefix of the bytes, without panic or an out-of-bounds read. Both
    hold of every implementation of the interface [ReversiblePadding]. *)
Theorem unpad_blocks_roundtrip (P : Type) `{ReversiblePadding P BS} blocks block :
  0 < BS -> Forall (fun b => length b = BS) blocks -> length block = BS ->
  (forall pos, pos < BS ->
     (let! padded := pad P BS block pos in unpad_blocks P BS (blocks ++ [padded]))
     = Ret (Ok (concat blocks ++ take pos block)))
  /\ unpad_blocks P BS [] = Ret (Err mkUnpadError)
  /\ (unpad_blocks P BS (blocks ++ [block]) = Ret (Err mkUnpadError)
      \/ exists d t, unpad_blocks P BS (blocks ++ [block]) = Ret (Ok d)
           /\ concat (blocks ++ [block]) = d ++ t /\ t <> []).
Proof.
  intros HB Hbs Hl. split_and!.
  - intros pos Hp. destruct (rl_pad block pos Hl Hp) as (padded & -> & Hlp & Hu).
    rewrite bind_Ret, unpad_blocks_last by done. by rewrite Hu.
  - unfold unpad_blocks. by rewrite rl_type.
  - rewrite unpad_blocks_last by done.
    destruct (rl_unpad block Hl HB) as [->|(d & t & -> & -> & Ht)]; [by left|right].
    exists (concat blocks ++ d), t. split_and!; [done| |done].
    by rewrite concat_app, <- app_assoc; simpl; rewrite app_nil_r.
Qed.

Lemma unpad_blocks_roundtrip_witness :
  (let! padded := pad Pkcs7 4 [9; 8; 7; 6]%u8 1 in
   unpad_blocks Pkcs7 4 ([[1; 2; 3; 4]%u8] ++ [padded]))
  = Ret (Ok ([1; 2; 3; 4] ++ [9])%u8).
Proof.
  assert (HR : ReversiblePadding Pkcs7 4) by (apply pkcs7_reversible; lia).
  refine (proj1 (unpad_blocks_roundtrip Pkcs7 [[1; 2; 3; 4]%u8] [9; 8; 7; 6]%u8
                   _ _ _) 1 _); [lia|by repeat constructor|done|lia].
Defined.

(** C29. The schemes on one block. PKCS #7, ANSI X9.23 (block sizes 1 to 255) and
    ISO 7816-4 (any) write their form over everything from [pos] and unpad exactly
    the blocks that end in such a form, [UnpadError] on every other. ISO 10126
    writes what PKCS #7 writes, but accepts every block whose last byte is between
    1 and the block size. Zero unpadding never fails and strips exactly the
    trailing zeros, so it inverts padding exactly on data that does not end in a
    zero. [NoPadding] leaves the block as it is, unless the position is outside of it,
    and unpads to the whole block. *)
Theorem schemes_correct BS :
  (0 < BS -> BS <= 255 ->
     scheme Pkcs7 BS pkcs7_tail (written pkcs7_tail)
     /\ scheme AnsiX923 BS ansi_tail (written ansi_tail)
     /\ scheme Iso10126 BS pkcs7_tail (fun t => exists g, t = g ++ [n2b (S (length g))]))
  /\ scheme Iso7816 BS iso7816_tail (written iso7816_tail)
  /\ (forall block pos, length block = BS ->
        pad NoPadding BS block pos = (if BS <? pos then Panic else Ret block)
        /\ unpad NoPadding BS block = Ret (Ok block))
  /\ forall block pos, length block = BS -> pos <= BS ->
       (exists d z, unpad ZeroPadding BS block = Ret (Ok d)
          /\ block = d ++ replicate z Byte.x00 /\ last d <> Some Byte.x00)
       /\ ((let! padded := pad ZeroPadding BS block pos in unpad ZeroPadding BS padded)
           = Ret (Ok (take pos block)) <-> last (take pos block) <> Some Byte.x00).
Proof.
  split_and!; [auto using pkcs7_scheme, ansi_x923_scheme, iso10126_scheme
              |apply iso7816_scheme|done|apply zero_padding_spec].
Qed.

Lemma schemes_correct_witness :
  pad Pkcs7 4 [9; 8; 7; 6]%u8 1 = Ret ([9] ++ replicate 3 3)%u8
  /\ unpad Iso10126 4 [9; 8; 7; 3]%u8 = Ret (Ok [9]%u8)
  /\ unpad AnsiX923 4 [9; 0; 0; 3]%u8 = Ret (Ok [9]%u8)
  /\ unpad Iso7816 4 [9; 128; 128; 0]%u8 = Ret (Ok [9; 128]%u8)
  /\ (let! padded := pad ZeroPadding 4 [9; 8; 7; 6]%u8 2 in unpad ZeroPadding 4 padded)
     = Ret (Ok [9; 8]%u8).
Proof.
  destruct (schemes_correct 4) as (Hs & H78 & _ & Hz).
  destruct Hs as (Hp & Ha & Hi); [lia|lia|].
  split; [|split; [|split; [|split]]].
  - apply (Hp [9; 8; 7; 6]%u8 eq_refl). lia.
  - apply (Hi [9; 8; 7; 3]%u8 eq_refl). exists [8; 7; 3]%u8. split; [reflexivity|].
    exists [8; 7]%u8. reflexivity.
  - apply (Ha [9; 0; 0; 3]%u8 eq_refl). exists [0; 0; 3]%u8. split; [reflexivity|].
    exists 3. split; [lia|reflexivity].
  - apply (H78 [9; 128; 128; 0]%u8 eq_refl). exists [128; 0]%u8. split; [reflexivity|].
    exists 2. split; [lia|reflexivity].
  - apply (Hz [9; 8; 7; 6]%u8 2 eq_refl); [lia|discriminate].
Defined.
