(* ===== verification/Dbl.v ===== *)
(** * Doubling in GF(2^n)

    [dbl/src/lib.rs]: the trait [Dbl] as the class [Dbl], with an instance for
    the blocks of 8, 16 and 32 bytes; a block is the list of its bytes. The
    words of [val] are 64-bit words held in [Z]. [congruent p] is congruence of
    binary polynomials modulo [p]; [DblLaws] is what a client of the trait may
    assume, and the inverse laws are derived from it. *)
From S2P Require Import Prelude.
From stdpp Require Import base numbers list.
Open Scope Z_scope.

Definition C64 : Z := 27.
Definition C128 : Z := 135.
Definition C256 : Z := 1061.

(** [trait Dbl], for the blocks of [n] bytes. *)
Class Dbl (n : nat) := {
  dbl : list u8 -> run (list u8);
  inv_dbl : list u8 -> run (list u8);
}.
Arguments dbl n {_}.
Arguments inv_dbl n {_}.

(** [u64::from_be_bytes(bs.try_into().unwrap())] *)
Definition u64_from_be_bytes (bs : list u8) : run Z :=
  if decide (length bs = 8%nat) then Ret (from_be_bytes bs) else Panic.

(** [u64::from_be_bytes(block[a..b].try_into().unwrap())] *)
Definition word_at (block : list u8) (a b : nat) : run Z :=
  let! s := slice block a b in u64_from_be_bytes s.

(** ** [impl Dbl for GenericArray<u8, U8>] *)

Definition dbl_8 (block : list u8) : run (list u8) :=
  let! val := u64_from_be_bytes block in
  let a := Z.shiftr val 63 in
  let val := ushl 64 val 1 in
  let! ac := umul 64 a C64 in
  let val := Z.lxor val ac in
  Ret (to_be_bytes 8 val).

Definition inv_dbl_8 (block : list u8) : run (list u8) :=
  let! val := u64_from_be_bytes block in
  let a := Z.land val 1 in
  let val := Z.shiftr val 1 in
  let! ac := umul 64 a (Z.lxor (Z.shiftl 1 63) (Z.shiftr C64 1)) in
  let val := Z.lxor val ac in
  Ret (to_be_bytes 8 val).

#[export] Instance dbl_impl_8 : Dbl 8 := {| dbl := dbl_8; inv_dbl := inv_dbl_8 |}.

(** ** [impl Dbl for GenericArray<u8, U16>] *)

Definition dbl_16 (block : list u8) : run (list u8) :=
  let! val0 := word_at block 0 8 in
  let! val1 := word_at block 8 (length block) in
  let b := Z.shiftr val1 63 in
  let a := Z.shiftr val0 63 in
  let val0 := ushl 64 val0 1 in
  let val0 := Z.lxor val0 b in
  let val1 := ushl 64 val1 1 in
  let! ac := umul 64 a C128 in
  let val1 := Z.lxor val1 ac in
  let res := replicate 16 Byte.x00 in
  let! res := copy_at res 0 8 (to_be_bytes 8 val0) in
  let! res := copy_at res 8 (length res) (to_be_bytes 8 val1) in
  Ret res.

Definition inv_dbl_16 (block : list u8) : run (list u8) :=
  let! val0 := word_at block 0 8 in
  let! val1 := word_at block 8 (length block) in
  let a := ushl 64 (Z.land val0 1) 63 in
  let b := Z.land val1 1 in
  let val0 := Z.shiftr val0 1 in
  let val1 := Z.shiftr val1 1 in
  let val1 := Z.lxor val1 a in
  let! b0 := umul 64 b (Z.shiftl 1 63) in
  let val0 := Z.lxor val0 b0 in
  let! b1 := umul 64 b (Z.shiftr C128 1) in
  let val1 := Z.lxor val1 b1 in
  let res := replicate 16 Byte.x00 in
  let! res := copy_at res 0 8 (to_be_bytes 8 val0) in
  let! res := copy_at res 8 (length res) (to_be_bytes 8 val1) in
  Ret res.

#[export] Instance dbl_impl_16 : Dbl 16 :=
  {| dbl := dbl_16; inv_dbl := inv_dbl_16 |}.

(** ** [impl Dbl for GenericArray<u8, U32>] *)

Definition dbl_32 (block : list u8) : run (list u8) :=
  let! val0 := word_at block 0 8 in
  let! val1 := word_at block 8 16 in
  let! val2 := word_at block 16 24 in
  let! val3 := word_at block 24 32 in
  let a := Z.shiftr val0 63 in
  let b := Z.shiftr val1 63 in
  let c := Z.shiftr val2 63 in
  let d := Z.shiftr val3 63 in
  let val0 := ushl 64 val0 1 in
  let val0 := Z.lxor val0 b in
  let val1 := ushl 64 val1 1 in
  let val1 := Z.lxor val1 c in
  let val2 := ushl 64 val2 1 in
  let val2 := Z.lxor val2 d in
  let val3 := ushl 64 val3 1 in
  let! ac := umul 64 a C256 in
  let val3 := Z.lxor val3 ac in
  let res := replicate 32 Byte.x00 in
  let! res := copy_at res 0 8 (to_be_bytes 8 val0) in
  let! res := copy_at res 8 16 (to_be_bytes 8 val1) in
  let! res := copy_at res 16 24 (to_be_bytes 8 val2) in
  let! res := copy_at res 24 32 (to_be_bytes 8 val3) in
  Ret res.

Definition inv_dbl_32 (block : list u8) : run (list u8) :=
  let! val0 := word_at block 0 8 in
  let! val1 := word_at block 8 16 in
  let! val2 := word_at block 16 24 in
  let! val3 := word_at block 24 32 in
  let a := ushl 64 (Z.land val0 1) 63 in
  let b := ushl 64 (Z.land val1 1) 63 in
  let c := ushl 64 (Z.land val2 1) 63 in
  let d := Z.land val3 1 in
  let val0 := Z.shiftr val0 1 in
  let val1 := Z.shiftr val1 1 in
  let val2 := Z.shiftr val2 1 in
  let val3 := Z.shiftr val3 1 in
  let val1 := Z.lxor val1 a in
  let val2 := Z.lxor val2 b in
  let val3 := Z.lxor val3 c in
  let! d0 := umul 64 d (Z.shiftl 1 63) in
  let val0 := Z.lxor val0 d0 in
  let! d3 := umul 64 d (Z.shiftr C256 1) in
  let val3 := Z.lxor val3 d3 in
  let res := replicate 32 Byte.x00 in
  let! res := copy_at res 0 8 (to_be_bytes 8 val0) in
  let! res := copy_at res 8 16 (to_be_bytes 8 val1) in
  let! res := copy_at res 16 24 (to_be_bytes 8 val2) in
  let! res := copy_at res 24 32 (to_be_bytes 8 val3) in
  Ret res.

#[export] Instance dbl_impl_32 : Dbl 32 :=
  {| dbl := dbl_32; inv_dbl := inv_dbl_32 |}.

(** ** Binary polynomials: bit [i] of a number is the coefficient of [x^i] *)

Fixpoint clmul_pos (q : positive) (p : Z) : Z :=
  match q with
  | xH => p
  | xO q => 2 * clmul_pos q p
  | xI q => Z.lxor p (2 * clmul_pos q p)
  end.

(** Product of the polynomials [q] and [p]. *)
Definition clmul (q p : Z) : Z :=
  match q with Zpos q => clmul_pos q p | _ => 0 end.

(** [a = b] modulo the polynomial [p]. *)
Definition congruent (p a b : Z) : Prop :=
  exists q, 0 <= q /\ Z.lxor a b = clmul q p.

(** The modulus of the field whose elements are the blocks of [n] bytes. *)
Definition modulus (n : nat) (C : Z) : Z := 2 ^ (8 * Z.of_nat n) + C.

Example dbl_example :
  dbl 8 [128; 0; 0; 0; 0; 0; 0; 1]%u8 = Ret [0; 0; 0; 0; 0; 0; 0; 25]%u8
  /\ inv_dbl 8 [0; 0; 0; 0; 0; 0; 0; 25]%u8 = Ret [128; 0; 0; 0; 0; 0; 0; 1]%u8.
Proof. split; vm_compute; reflexivity. Qed.

(** ** Words *)

Lemma lxor_range k a b :
  0 <= k -> 0 <= a < 2 ^ k -> 0 <= b < 2 ^ k -> 0 <= Z.lxor a b < 2 ^ k.
Proof.
  intros Hk Ha Hb. split; [apply Z.lxor_nonneg; lia|].
  destruct (decide (Z.lxor a b = 0)) as [->|Hn]; [lia|].
  assert (0 <= Z.lxor a b) by (apply Z.lxor_nonneg; lia).
  apply Z.log2_lt_pow2; [lia|].
  eapply Z.le_lt_trans; [apply Z.log2_lxor; lia|].
  assert (forall c, 0 <= c < 2 ^ k -> Z.log2 c < k \/ k = 0) as Hlog.
  { intros c Hc. destruct (decide (c = 0)) as [->|]; [simpl; lia|].
    left. apply Z.log2_lt_pow2; lia. }
  destruct (Hlog a Ha), (Hlog b Hb); try lia;
    subst k; assert (a = 0) by lia; assert (b = 0) by lia; subst; done.
Qed.

Lemma lxor_hi_lo k h1 l1 h2 l2 :
  0 <= k -> 0 <= l1 < 2 ^ k -> 0 <= l2 < 2 ^ k ->
  Z.lxor (h1 * 2 ^ k + l1) (h2 * 2 ^ k + l2)
  = Z.lxor h1 h2 * 2 ^ k + Z.lxor l1 l2.
Proof.
  intros Hk H1 H2. pose proof (lxor_range k l1 l2 Hk H1 H2) as Hx.
  assert (forall h l i, 0 <= i -> 0 <= l < 2 ^ k ->
    Z.testbit (h * 2 ^ k + l) i
    = if i <? k then Z.testbit l i else Z.testbit h (i - k)) as Hb.
  { intros h l i Hi Hl. destruct (Z.ltb_spec i k).
    - rewrite <- (Z.mod_pow2_bits_low _ k) by lia.
      rewrite Z.add_comm, Z.mod_add, Z.mod_small by lia. done.
    - rewrite <- (Z.sub_add k i) at 1. rewrite <- Z.div_pow2_bits by lia.
      rewrite Z.div_add_l, Z.div_small by lia. by rewrite Z.add_0_r. }
  apply Z.bits_inj'. intros i Hi. rewrite Z.lxor_spec, !Hb by lia.
  by destruct (i <? k); rewrite Z.lxor_spec.
Qed.

Lemma lxor_bit r b : 0 <= b <= 1 -> Z.lxor (2 * r) b = 2 * r + b.
Proof.
  intros. pose proof (lxor_hi_lo 1 r 0 0 b) as E.
  change (2 ^ 1) with 2 in E. rewrite Z.lxor_0_r in E.
  rewrite !Z.mul_0_l, !Z.add_0_l, Z.lxor_0_l, !Z.add_0_r in E.
  rewrite (Z.mul_comm 2 r). apply E; lia.
Qed.

Lemma lxor_top k e r :
  0 <= k -> 0 <= r < 2 ^ k -> Z.lxor r (e * 2 ^ k) = e * 2 ^ k + r.
Proof.
  intros. pose proof (lxor_hi_lo k 0 r e 0) as E.
  rewrite Z.mul_0_l, Z.add_0_l, Z.add_0_r, Z.lxor_0_l, Z.lxor_0_r in E.
  apply E; lia.
Qed.

Lemma lxor_double a b : Z.lxor (2 * a) (2 * b) = 2 * Z.lxor a b.
Proof.
  pose proof (lxor_hi_lo 1 a 0 b 0) as E. change (2 ^ 1) with 2 in E.
  rewrite !Z.add_0_r in E. rewrite !(Z.mul_comm 2). by rewrite E by lia.
Qed.

(** A value that differs by [a] above bit [m + 64] and by [y] in its last
    word. *)
Lemma lxor_reduce m a h x y :
  0 <= m -> 0 <= h < 2 ^ m -> 0 <= x < 2 ^ 64 -> 0 <= y < 2 ^ 64 ->
  Z.lxor ((a * 2 ^ m + h) * 2 ^ 64 + x) (h * 2 ^ 64 + Z.lxor x y)
  = a * 2 ^ (m + 64) + y.
Proof.
  intros Hm Hh Hx Hy. rewrite lxor_hi_lo by (try apply lxor_range; lia).
  rewrite <- Z.lxor_assoc, Z.lxor_nilpotent, Z.lxor_0_l.
  pose proof (lxor_hi_lo m a h 0 h Hm Hh Hh) as E.
  rewrite Z.mul_0_l, Z.add_0_l, Z.lxor_0_r, Z.lxor_nilpotent, Z.add_0_r in E.
  by rewrite E, Z.pow_add_r, Z.mul_assoc by lia.
Qed.

(** The top bit and the doubled rest of a word. *)
Lemma word_split_top v :
  word_ok 64 v -> exists a r, v = a * 2 ^ 63 + r /\ 0 <= a <= 1 /\ 0 <= r < 2 ^ 63
    /\ Z.shiftr v 63 = a /\ ushl 64 v 1 = 2 * r.
Proof.
  unfold word_ok. intros Hv. exists (v / 2 ^ 63), (v mod 2 ^ 63).
  pose proof (Z.div_mod v (2 ^ 63)). pose proof (Z.mod_pos_bound v (2 ^ 63)).
  split_and!; try lia.
  - by rewrite Z.shiftr_div_pow2 by lia.
  - unfold ushl, wrap. rewrite Z.shiftl_mul_pow2 by lia.
    replace (2 ^ 64) with (2 ^ 63 * 2) by done. change (2 ^ 1) with 2.
    rewrite Z.mul_mod_distr_r; lia.
Qed.

(** The last bit and the halved rest of a word. *)
Lemma word_split_low v :
  word_ok 64 v -> exists h e, v = 2 * h + e /\ 0 <= e <= 1 /\ 0 <= h < 2 ^ 63
    /\ Z.shiftr v 1 = h /\ Z.land v 1 = e /\ ushl 64 e 63 = e * 2 ^ 63.
Proof.
  unfold word_ok. intros Hv. exists (v / 2), (v mod 2).
  pose proof (Z.div_mod v 2). pose proof (Z.mod_pos_bound v 2).
  split_and!; try lia.
  - by rewrite Z.shiftr_div_pow2 by lia.
  - change 1 with (Z.ones 1). by rewrite Z.land_ones by lia.
  - unfold ushl, wrap. rewrite Z.shiftl_mul_pow2 by lia. apply Z.mod_small. lia.
Qed.

(** ** Reading and writing the words of a block *)

Lemma from_le_bytes_app l1 l2 :
  from_le_bytes (l1 ++ l2)
  = from_le_bytes l1 + from_le_bytes l2 * 2 ^ (8 * Z.of_nat (length l1)).
Proof.
  induction l1 as [|b l1 IH]; [simpl; lia|].
  rewrite <- app_comm_cons. cbn [from_le_bytes length].
  rewrite IH, !Z.shiftl_mul_pow2 by lia.
  replace (8 * Z.of_nat (S (length l1))) with (8 * Z.of_nat (length l1) + 8) by lia.
  rewrite Z.pow_add_r by lia. ring.
Qed.

Lemma from_be_bytes_app l1 l2 :
  from_be_bytes (l1 ++ l2)
  = from_be_bytes l1 * 2 ^ (8 * Z.of_nat (length l2)) + from_be_bytes l2.
Proof.
  unfold from_be_bytes. rewrite rev_app_distr, from_le_bytes_app, length_rev. lia.
Qed.

Lemma u64_ok w :
  length w = 8%nat -> u64_from_be_bytes w = Ret (from_be_bytes w)
                      /\ word_ok 64 (from_be_bytes w).
Proof.
  intros Hw. unfold u64_from_be_bytes. rewrite decide_True by done.
  split; [done|]. pose proof (from_be_bytes_range w) as Hr. by rewrite Hw in Hr.
Qed.

(** A block as the sequence of its 8-byte words. *)
Definition words_ok (ws : list (list u8)) : Prop :=
  Forall (fun w => length w = 8%nat) ws.

Lemma words_split ws i w :
  words_ok ws -> ws !! i = Some w ->
  concat ws = concat (take i ws) ++ w ++ concat (drop (S i) ws)
  /\ length (concat (take i ws)) = (8 * i)%nat /\ length w = 8%nat.
Proof.
  intros Hws Hi. split_and!.
  - rewrite <- (take_drop_middle ws i w Hi) at 1. by rewrite concat_app.
  - pose proof (lookup_lt_Some _ _ _ Hi) as Hlt. clear Hi w.
    revert ws Hws Hlt. induction i as [|i IH]; intros [|w ws] Hws Hlt; simpl in *;
      try lia. inversion Hws; subst.
    rewrite length_app, IH by (done || lia). lia.
  - by apply (Forall_lookup_1 _ _ _ _ Hws Hi).
Qed.

Lemma words_of_block block n :
  length block = (n * 8)%nat ->
  exists ws, block = concat ws /\ words_ok ws /\ length ws = n.
Proof.
  intros Hl. exists (chunks 8 n block). split_and!.
  - rewrite concat_chunks by lia. by rewrite take_ge by lia.
  - apply chunks_lengths. lia.
  - apply length_chunks.
Qed.

Lemma word_at_ok ws i w a b :
  words_ok ws -> ws !! i = Some w -> a = (8 * i)%nat -> b = (8 * i + 8)%nat ->
  word_at (concat ws) a b = Ret (from_be_bytes w).
Proof.
  intros Hws Hi -> ->. destruct (words_split ws i w Hws Hi) as (-> & Hl & Hw).
  unfold word_at. rewrite slice_ok by len. rewrite bind_Ret, <- Hl, drop_app_length.
  rewrite take_app_length' by len. by apply u64_ok.
Qed.

Lemma copy_word_ok ws i w src a b :
  words_ok ws -> ws !! i = Some w -> length src = 8%nat ->
  a = (8 * i)%nat -> b = (8 * i + 8)%nat ->
  copy_at (concat ws) a b src = Ret (concat (<[i := src]> ws)).
Proof.
  intros Hws Hi Hs -> ->.
  pose proof (lookup_lt_Some _ _ _ Hi) as Hlt.
  destruct (words_split ws i w Hws Hi) as (-> & Hl & Hw).
  rewrite insert_take_drop, concat_app by done. simpl.
  rewrite copy_at_ok by len. f_equal. rewrite <- Hl at 1. rewrite take_app_length.
  do 2 f_equal. rewrite drop_app_ge by lia.
  by rewrite drop_app_length' by lia.
Qed.

(** ** What a client of the trait may assume *)

Class DblLaws (n : nat) (C : Z) `{Dbl n} := {
  laws_C : 0 <= C < 2 ^ (8 * Z.of_nat n) /\ Z.odd C = true;
  laws_dbl block :
    length block = n ->
    exists r a, dbl n block = Ret r /\ length r = n /\ 0 <= a <= 1
      /\ Z.lxor (2 * from_be_bytes block) (from_be_bytes r) = a * modulus n C;
  laws_inv block :
    length block = n ->
    exists r a, inv_dbl n block = Ret r /\ length r = n /\ 0 <= a <= 1
      /\ Z.lxor (from_be_bytes block) (2 * from_be_bytes r) = a * modulus n C;
}.

Lemma from_to_word v :
  word_ok 64 v -> from_be_bytes (to_be_bytes 8 v) = v.
Proof. intros. by apply (from_to_be_bytes 8). Qed.

(** The word that takes the carry of the one below it. *)
Lemma carry_ok r b : 0 <= r < 2 ^ 63 -> 0 <= b <= 1 -> word_ok 64 (2 * r + b).
Proof. unfold word_ok. lia. Qed.

Lemma reduce_word_ok r c : 0 <= r < 2 ^ 63 -> 0 <= c < 2 ^ 64 ->
  word_ok 64 (Z.lxor (2 * r) c).
Proof. intros. apply lxor_range; lia. Qed.

(** The reduction step of [dbl]: [a] is the bit shifted out of the value. *)
Lemma dbl_value m a h r C :
  0 <= m -> 0 <= h < 2 ^ m -> 0 <= a <= 1 -> 0 <= r < 2 ^ 63 -> 0 <= C < 2 ^ 64 ->
  Z.lxor ((a * 2 ^ m + h) * 2 ^ 64 + 2 * r) (h * 2 ^ 64 + Z.lxor (2 * r) (a * C))
  = a * (2 ^ (m + 64) + C).
Proof.
  intros. assert (a = 0 \/ a = 1) as [->| ->] by lia;
    rewrite lxor_reduce by lia; lia.
Qed.

(** The reduction step of [inv_dbl]: [e] is the bit shifted out of the value,
    [c] the bit that the last word takes from the word above it. *)
Lemma inv_last h c e C :
  0 <= h < 2 ^ 63 -> 0 <= c <= 1 -> 0 <= e <= 1 -> 0 <= C < 2 ^ 64 ->
  Z.odd C = true ->
  2 * Z.lxor (Z.lxor h (c * 2 ^ 63)) (e * Z.shiftr C 1)
  = c * 2 ^ 64 + Z.lxor (2 * h) (e * (C - 1)).
Proof.
  intros Hh Hc He HC Ho. rewrite lxor_top by lia.
  assert (2 * Z.shiftr C 1 = C - 1) as HC1.
  { rewrite Z.shiftr_div_pow2 by lia. change (2 ^ 1) with 2.
    pose proof (Z.div_mod C 2). rewrite Zmod_odd, Ho in *. lia. }
  replace (e * (C - 1)) with (2 * (e * Z.shiftr C 1)) by lia.
  rewrite <- lxor_double.
  pose proof (lxor_hi_lo 64 c (2 * h) 0 (2 * (e * Z.shiftr C 1))) as E.
  rewrite Z.lxor_0_r, Z.mul_0_l, Z.add_0_l in E.
  assert (0 <= e * Z.shiftr C 1 < 2 ^ 63).
  { assert (e = 0 \/ e = 1) as [->| ->] by lia; lia. }
  rewrite <- E by lia. f_equal. lia.
Qed.

Lemma inv_value m H h e C :
  0 <= m -> 0 <= H < 2 ^ m -> 0 <= h < 2 ^ 63 -> 0 <= e <= 1 -> 0 <= C < 2 ^ 64 ->
  Z.odd C = true ->
  Z.lxor (H * 2 ^ 64 + (2 * h + e))
    ((e * 2 ^ m + H) * 2 ^ 64 + Z.lxor (2 * h) (e * (C - 1)))
  = e * (2 ^ (m + 64) + C).
Proof.
  intros Hm HH Hh He HC Ho.
  assert (2 * h + e
    = Z.lxor (Z.lxor (2 * h) (e * (C - 1))) (e * C)) as ->.
  { rewrite Z.lxor_assoc, <- lxor_bit by done. f_equal.
    assert (C = 2 * (C / 2) + 1) as HCe.
    { pose proof (Z.div_mod C 2). rewrite Zmod_odd, Ho in *. lia. }
    assert (e = 0 \/ e = 1) as [->| ->] by lia; [done|].
    rewrite !Z.mul_1_l. rewrite HCe at 2. replace (C - 1) with (2 * (C / 2)) by lia.
    rewrite <- lxor_bit by lia.
    by rewrite <- Z.lxor_assoc, Z.lxor_nilpotent. }
  rewrite Z.lxor_comm, lxor_reduce; [lia..| |].
  2: { assert (e = 0 \/ e = 1) as [->| ->] by lia; lia. }
  apply lxor_range; [lia..|]. assert (e = 0 \/ e = 1) as [->| ->] by lia; [lia|].
  destruct C; [done|lia|lia].
Qed.

Lemma inv_first_8 h e C :
  0 <= h < 2 ^ 63 -> 0 <= e <= 1 ->
  Z.lxor h (e * Z.lxor (Z.shiftl 1 63) (Z.shiftr C 1))
  = Z.lxor (Z.lxor h (e * 2 ^ 63)) (e * Z.shiftr C 1).
Proof.
  intros. assert (e = 0 \/ e = 1) as [->| ->] by lia.
  - by rewrite !Z.mul_0_l, !Z.lxor_0_r.
  - by rewrite !Z.mul_1_l, <- Z.lxor_assoc.
Qed.

Lemma inv_word_ok h c : 0 <= h < 2 ^ 63 -> 0 <= c <= 1 ->
  word_ok 64 (Z.lxor h (c * 2 ^ 63)).
Proof. intros. rewrite lxor_top by lia. unfold word_ok. lia. Qed.

Lemma inv_last_ok h c e C :
  0 <= h < 2 ^ 63 -> 0 <= c <= 1 -> 0 <= e <= 1 -> 0 <= C < 2 ^ 64 ->
  word_ok 64 (Z.lxor (Z.lxor h (c * 2 ^ 63)) (e * Z.shiftr C 1)).
Proof.
  intros. assert (0 <= Z.shiftr C 1 < 2 ^ 63).
  { rewrite Z.shiftr_div_pow2 by lia. split; [apply Z.div_pos; lia|].
    apply Z.div_lt_upper_bound; lia. }
  apply lxor_range; [lia|by apply inv_word_ok|].
  assert (e = 0 \/ e = 1) as [->| ->] by lia; lia.
Qed.

Lemma umul_bit e c : 0 <= e <= 1 -> 0 <= c < 2 ^ 64 -> umul 64 e c = Ret (e * c).
Proof.
  intros. apply umul_ok. assert (e = 0 \/ e = 1) as [->| ->] by lia; lia.
Qed.

(** Bounds on the constants. *)
Ltac zb := first [done | unfold C64, C128, C256 in *; simpl; lia].

#[export] Instance dbl_laws_8 : DblLaws 8 C64.
Proof.
  split; [done|..]; intros block Hl; simpl.
  - unfold dbl_8. destruct (u64_ok block Hl) as [-> Hw]. run_steps.
    destruct (word_split_top _ Hw) as (a & r & HV & Ha & Hr & -> & ->).
    rewrite umul_bit by done. run_steps.
    eexists _, a. split_and!; [done|done|lia|lia|].
    rewrite from_to_word by (apply reduce_word_ok; zb).
    change (modulus 8 C64) with (2 ^ (0 + 64) + C64).
    rewrite <- (dbl_value 0 a 0 r) by zb. rewrite HV. f_equal; lia.
  - unfold inv_dbl_8. destruct (u64_ok block Hl) as [-> Hw]. run_steps.
    destruct (word_split_low _ Hw) as (h & e & HV & He & Hh & -> & -> & _).
    rewrite umul_bit by done. run_steps.
    rewrite inv_first_8 by done.
    eexists _, e. split_and!; [done|done|lia|lia|].
    rewrite from_to_word by (apply inv_last_ok; zb).
    rewrite inv_last by done.
    change (modulus 8 C64) with (2 ^ (0 + 64) + C64).
    rewrite <- (inv_value 0 0 h e) by zb. rewrite HV. f_equal; lia.
Qed.

(** Read the [i]th word [w] of the block [concat ws]. *)
Ltac read_word Hws i w H :=
  pose proof (Forall_lookup_1 _ _ i w Hws eq_refl) as H; cbv beta in H;
  let a := eval cbv in (8 * i)%nat in
  let b := eval cbv in (8 * i + 8)%nat in
  rewrite (word_at_ok _ i w a b) by done; rewrite bind_Ret; cbv zeta.

(** The next step of a run writes the [i]th word. *)
Ltac write_word i :=
  erewrite (copy_word_ok _ i);
    [rewrite bind_Ret|by repeat constructor|done..|simpl; len].

Lemma write_words_2 s0 s1 :
  length s0 = 8%nat -> length s1 = 8%nat ->
  (let! res := copy_at (replicate 16 Byte.x00) 0 8 s0 in
   let! res := copy_at res 8 (length res) s1 in
   Ret res) = Ret (concat [s0; s1]).
Proof.
  intros H0 H1. set (z := replicate 8 Byte.x00).
  change (replicate 16 Byte.x00) with (concat [z; z]).
  write_word 0%nat. by write_word 1%nat.
Qed.

Lemma write_words_4 s0 s1 s2 s3 :
  length s0 = 8%nat -> length s1 = 8%nat -> length s2 = 8%nat -> length s3 = 8%nat ->
  (let! res := copy_at (replicate 32 Byte.x00) 0 8 s0 in
   let! res := copy_at res 8 16 s1 in
   let! res := copy_at res 16 24 s2 in
   let! res := copy_at res 24 32 s3 in
   Ret res) = Ret (concat [s0; s1; s2; s3]).
Proof.
  intros H0 H1 H2 H3. set (z := replicate 8 Byte.x00).
  change (replicate 32 Byte.x00) with (concat [z; z; z; z]).
  write_word 0%nat. write_word 1%nat. write_word 2%nat. by write_word 3%nat.
Qed.

Lemma value_2 w0 w1 :
  length w0 = 8%nat -> length w1 = 8%nat ->
  from_be_bytes (concat [w0; w1]) = from_be_bytes w0 * 2 ^ 64 + from_be_bytes w1.
Proof.
  intros H0 H1. simpl. rewrite app_nil_r, from_be_bytes_app, H1. done.
Qed.

Lemma value_4 w0 w1 w2 w3 :
  length w0 = 8%nat -> length w1 = 8%nat -> length w2 = 8%nat -> length w3 = 8%nat ->
  from_be_bytes (concat [w0; w1; w2; w3])
  = ((from_be_bytes w0 * 2 ^ 64 + from_be_bytes w1) * 2 ^ 64 + from_be_bytes w2)
    * 2 ^ 64 + from_be_bytes w3.
Proof.
  intros H0 H1 H2 H3. simpl. rewrite app_nil_r, !app_assoc, !from_be_bytes_app.
  by rewrite H1, H2, H3.
Qed.

(** Split the word [w] with [lem] and replace its shifts. *)
Tactic Notation "split_top" ident(w) constr(H) ident(a) ident(r) ident(HV)
    ident(Ha) ident(Hr) :=
  destruct (word_split_top _ (proj2 (u64_ok w H))) as (a & r & HV & Ha & Hr & -> & ->).

Tactic Notation "split_low" ident(w) constr(H) ident(h) ident(e) ident(HV)
    ident(He) ident(Hh) :=
  destruct (word_split_low _ (proj2 (u64_ok w H)))
    as (h & e & HV & He & Hh & -> & -> & Hs); rewrite ?Hs; clear Hs.

#[export] Instance dbl_laws_16 : DblLaws 16 C128.
Proof.
  split; [done|..]; intros block Hl; simpl;
    destruct (words_of_block block 2 Hl) as ([|w0 [|w1 [|]]] & -> & Hws & Hn);
    try done.
  - unfold dbl_16. rewrite Hl. 
    read_word Hws 0%nat w0 H0. read_word Hws 1%nat w1 H1.
    split_top w0 H0 a r0 HV0 Ha Hr0. split_top w1 H1 b r1 HV1 Hb Hr1.
    rewrite umul_bit, bind_Ret by done. cbv zeta.
    rewrite write_words_2 by apply length_to_be_bytes.
    eexists _, a. split_and!; [done|done|lia|lia|].
    rewrite !value_2 by (done || apply length_to_be_bytes).
    rewrite !from_to_word by (apply reduce_word_ok; zb).
    rewrite HV0, HV1, (lxor_bit r0) by done.
    change (modulus 16 C128) with (2 ^ (64 + 64) + C128).
    rewrite <- (dbl_value 64 a (2 * r0 + b) r1) by zb. f_equal; lia.
  - unfold inv_dbl_16. rewrite Hl.
    read_word Hws 0%nat w0 H0. read_word Hws 1%nat w1 H1.
    split_low w0 H0 h0 e0 HV0 He0 Hh0. split_low w1 H1 h1 e1 HV1 He1 Hh1.
    rewrite !umul_bit, bind_Ret by done. cbv zeta. rewrite bind_Ret. cbv zeta.
    rewrite write_words_2 by apply length_to_be_bytes.
    eexists _, e1. split_and!; [done|done|lia|lia|].
    rewrite !value_2 by (done || apply length_to_be_bytes).
    change (Z.shiftl 1 63) with (2 ^ 63).
    rewrite !from_to_word by ((by apply inv_word_ok) || (by apply inv_last_ok)).
    rewrite HV0, HV1, Z.mul_add_distr_l, inv_last, (lxor_top 63 e1 h0) by done.
    change (modulus 16 C128) with (2 ^ (64 + 64) + C128).
    rewrite <- (inv_value 64 (2 * h0 + e0) h1 e1 C128) by zb. f_equal; lia.
Qed.

#[export] Instance dbl_laws_32 : DblLaws 32 C256.
Proof.
  split; [done|..]; intros block Hl; simpl;
    destruct (words_of_block block 4 Hl)
      as ([|w0 [|w1 [|w2 [|w3 [|]]]]] & -> & Hws & Hn); try done.
  - unfold dbl_32.
    read_word Hws 0%nat w0 H0. read_word Hws 1%nat w1 H1.
    read_word Hws 2%nat w2 H2. read_word Hws 3%nat w3 H3.
    split_top w0 H0 a r0 HV0 Ha Hr0. split_top w1 H1 b r1 HV1 Hb Hr1.
    split_top w2 H2 c r2 HV2 Hc Hr2. split_top w3 H3 d r3 HV3 Hd Hr3.
    rewrite umul_bit, bind_Ret by done. cbv zeta.
    rewrite write_words_4 by apply length_to_be_bytes.
    eexists _, a. split_and!; [done|done|lia|lia|].
    rewrite !value_4 by (done || apply length_to_be_bytes).
    rewrite !from_to_word by (apply reduce_word_ok; zb).
    rewrite HV0, HV1, HV2, HV3, (lxor_bit r0), (lxor_bit r1), (lxor_bit r2) by done.
    change (modulus 32 C256) with (2 ^ (192 + 64) + C256).
    rewrite <- (dbl_value 192 a
      (((2 * r0 + b) * 2 ^ 64 + (2 * r1 + c)) * 2 ^ 64 + (2 * r2 + d)) r3) by zb.
    f_equal; lia.
  - unfold inv_dbl_32.
    read_word Hws 0%nat w0 H0. read_word Hws 1%nat w1 H1.
    read_word Hws 2%nat w2 H2. read_word Hws 3%nat w3 H3.
    split_low w0 H0 h0 e0 HV0 He0 Hh0. split_low w1 H1 h1 e1 HV1 He1 Hh1.
    split_low w2 H2 h2 e2 HV2 He2 Hh2. split_low w3 H3 h3 e3 HV3 He3 Hh3.
    rewrite !umul_bit, bind_Ret by done. cbv zeta. rewrite bind_Ret. cbv zeta.
    rewrite write_words_4 by apply length_to_be_bytes.
    eexists _, e3. split_and!; [done|done|lia|lia|].
    rewrite !value_4 by (done || apply length_to_be_bytes).
    change (Z.shiftl 1 63) with (2 ^ 63).
    rewrite !from_to_word by ((by apply inv_word_ok) || (by apply inv_last_ok)).
    rewrite HV0, HV1, HV2, HV3, Z.mul_add_distr_l, inv_last,
      (lxor_top 63 e3 h0), (lxor_top 63 e0 h1), (lxor_top 63 e1 h2) by done.
    change (modulus 32 C256) with (2 ^ (192 + 64) + C256).
    rewrite <- (inv_value 192
      (((2 * h0 + e0) * 2 ^ 64 + (2 * h1 + e1)) * 2 ^ 64 + (2 * h2 + e2)) h3 e3 C256)
      by zb.
    f_equal; lia.
Qed.

(** ** Congruence of binary polynomials *)

Section polynomials.
Context (p : Z).

Lemma clmul_bit a : 0 <= a <= 1 -> clmul a p = a * p.
Proof. intros. assert (a = 0 \/ a = 1) as [->| ->] by lia; simpl; [done|lia]. Qed.

Lemma clmul_double q : clmul (2 * q) p = 2 * clmul q p.
Proof. by destruct q. Qed.

Lemma clmul_N_lxor (a b : N) :
  Z.lxor (clmul (Z.of_N a) p) (clmul (Z.of_N b) p) = clmul (Z.of_N (N.lxor a b)) p.
Proof.
  assert (forall q, clmul (Z.of_N (N.double q)) p = 2 * clmul (Z.of_N q) p) as Hd
    by (by intros []).
  assert (forall q, clmul (Z.of_N (N.succ_double q)) p
    = Z.lxor p (2 * clmul (Z.of_N q) p)) as Hs
    by (intros []; simpl; [by rewrite Z.lxor_0_r|done]).
  destruct a as [|a]; [done|]. destruct b as [|b]; [by simpl; rewrite Z.lxor_0_r|].
  revert b. change (forall b, Z.lxor (clmul_pos a p) (clmul_pos b p)
    = clmul (Z.of_N (Pos.lxor a b)) p).
  assert (forall x y, Z.lxor (Z.lxor p x) (Z.lxor p y) = Z.lxor x y) as Hpp.
  { intros x y. rewrite (Z.lxor_comm p x), Z.lxor_assoc, <- (Z.lxor_assoc p p y).
    by rewrite Z.lxor_nilpotent, Z.lxor_0_l. }
  assert (forall x y, Z.lxor x (Z.lxor p y) = Z.lxor p (Z.lxor x y)) as Hpr.
  { intros x y. by rewrite <- !Z.lxor_assoc, (Z.lxor_comm x p). }
  induction a as [a IH|a IH|]; intros [b|b|]; cbn [clmul_pos];
    try change (Pos.lxor a~1 b~1) with (N.double (Pos.lxor a b));
    try change (Pos.lxor a~1 b~0) with (N.succ_double (Pos.lxor a b));
    try change (Pos.lxor a~0 b~1) with (N.succ_double (Pos.lxor a b));
    try change (Pos.lxor a~0 b~0) with (N.double (Pos.lxor a b));
    rewrite ?Hd, ?Hs, <- ?IH, ?Hpp, ?Hpr, ?Z.lxor_assoc, ?lxor_double;
    try done; simpl.
  - rewrite (Z.lxor_comm _ p), <- Z.lxor_assoc, Z.lxor_nilpotent. done.
  - by rewrite (Z.lxor_comm _ p).
  - by rewrite <- Z.lxor_assoc, Z.lxor_nilpotent, Z.lxor_0_l.
  - by rewrite Z.lxor_nilpotent.
Qed.

#[export] Instance congruent_equivalence : Equivalence (congruent p).
Proof.
  split.
  - intros x. exists 0. by rewrite Z.lxor_nilpotent.
  - intros x y (q & Hq & E). exists q. by rewrite Z.lxor_comm.
  - intros x y z (q1 & Hq1 & E1) (q2 & Hq2 & E2).
    exists (Z.of_N (N.lxor (Z.to_N q1) (Z.to_N q2))). split; [lia|].
    rewrite <- clmul_N_lxor, !Z2N.id, <- E1, <- E2 by done.
    rewrite Z.lxor_assoc, <- (Z.lxor_assoc y y z).
    by rewrite Z.lxor_nilpotent, Z.lxor_0_l.
Qed.

Section degree.
Context (n : Z) (Hn : 0 <= n) (Hp : 2 ^ n <= p < 2 ^ (n + 1)).

Lemma clmul_pos_degree q :
  exists k, n <= k /\ 2 ^ k <= clmul_pos q p < 2 ^ (k + 1).
Proof using Hn Hp.
  induction q as [q (k & Hk & IH)|q (k & Hk & IH)|]; simpl; [| |by exists n];
    exists (k + 1); rewrite (Z.pow_add_r 2 (k + 1)), (Z.pow_add_r 2 k 1) in * by lia;
    (split; [lia|]); [|lia].
  assert (2 ^ (n + 1) <= 2 ^ (k + 1)) by (apply Z.pow_le_mono_r; lia).
  rewrite (Z.pow_add_r 2 k 1) in * by lia.
  pose proof (lxor_hi_lo (k + 1) 0 p 1 (2 * (clmul_pos q p - 2 ^ k))) as E.
  rewrite (Z.pow_add_r 2 k 1) in E by lia.
  replace (1 * (2 ^ k * 2 ^ 1) + 2 * (clmul_pos q p - 2 ^ k))
    with (2 * clmul_pos q p) in E by lia.
  rewrite Z.mul_0_l, Z.add_0_l, Z.lxor_0_l in E.
  pose proof (lxor_range (k + 1) p (2 * (clmul_pos q p - 2 ^ k))) as R.
  rewrite (Z.pow_add_r 2 k 1) in R by lia.
  rewrite E by lia. lia.
Qed.

(** Below degree [n] congruent polynomials are equal. *)
Lemma congruent_unique a b :
  0 <= a < 2 ^ n -> 0 <= b < 2 ^ n -> congruent p a b -> a = b.
Proof using Hn Hp.
  intros Ha Hb (q & Hq & E). pose proof (lxor_range n a b Hn Ha Hb) as R.
  destruct q as [|q|]; [by apply Z.lxor_eq| |lia]. simpl in E.
  destruct (clmul_pos_degree q) as (k & Hk & Hc).
  assert (2 ^ n <= 2 ^ k) by (apply Z.pow_le_mono_r; lia). lia.
Qed.

(** [x] is invertible modulo a polynomial with constant term 1. *)
Lemma congruent_double_unique a b :
  Z.odd p = true ->
  0 <= a < 2 ^ n -> 0 <= b < 2 ^ n -> congruent p (2 * a) (2 * b) -> a = b.
Proof using Hn Hp.
  intros Ho Ha Hb (q & Hq & E). apply congruent_unique; [done..|].
  rewrite lxor_double in E. destruct q as [|q|]; [| |lia].
  - exists 0. simpl in *. split; lia.
  - assert (Z.odd (clmul_pos q p) = false) as Hodd.
    { simpl in E. rewrite <- E, Z.odd_mul. done. }
    destruct q as [q|q|]; simpl in Hodd.
    + rewrite <- Z.bit0_odd, Z.lxor_spec, !Z.bit0_odd, Ho, Z.odd_mul in Hodd. done.
    + exists (Zpos q). simpl in *. split; lia.
    + congruence.
Qed.
End degree.
End polynomials.

(** [dbl] returns, on every block, the one block whose polynomial is [x] times
    the block's, reduced. *)
Definition multiplies_by_x (n : nat) (C : Z) `{Dbl n} : Prop :=
  forall block, length block = n ->
  exists r, dbl n block = Ret r
    /\ forall r', r' = r <-> length r' = n
         /\ congruent (modulus n C) (2 * from_be_bytes block) (from_be_bytes r').

(** [inv_dbl] returns, on every block, the one block of which the block is [x]
    times. *)
Definition divides_by_x (n : nat) (C : Z) `{Dbl n} : Prop :=
  forall block, length block = n ->
  exists r, inv_dbl n block = Ret r
    /\ forall r', r' = r <-> length r' = n
         /\ congruent (modulus n C) (from_be_bytes block) (2 * from_be_bytes r').

Section laws.
Context `{DblLaws n C}.

Lemma modulus_degree :
  2 ^ (8 * Z.of_nat n) <= modulus n C < 2 ^ (8 * Z.of_nat n + 1)
  /\ (n <> 0%nat -> Z.odd (modulus n C) = true).
Proof.
  destruct laws_C as [HC Ho]. unfold modulus. rewrite Z.pow_add_r by lia.
  split; [lia|]. intros Hn. rewrite Z.odd_add, Ho, Z.odd_pow by lia. done.
Qed.

Lemma from_be_bytes_inj b1 b2 :
  length b1 = n -> length b2 = n -> from_be_bytes b1 = from_be_bytes b2 -> b1 = b2.
Proof.
  intros H1 H2 E. by rewrite <- (to_from_be_bytes n b1), E, to_from_be_bytes.
Qed.

Lemma block_range b : length b = n -> 0 <= from_be_bytes b < 2 ^ (8 * Z.of_nat n).
Proof. intros <-. apply from_be_bytes_range. Qed.

Lemma laws_multiplies : multiplies_by_x n C.
Proof.
  intros block Hl. destruct (laws_dbl block Hl) as (r & a & Hr & Hlr & Ha & E).
  assert (congruent (modulus n C) (2 * from_be_bytes block) (from_be_bytes r)) as Hc.
  { exists a. split; [lia|]. by rewrite clmul_bit. }
  exists r. split; [done|]. intros r'. split; [by intros ->|]. intros [Hl' Hc'].
  apply from_be_bytes_inj; [done..|].
  apply (congruent_unique (modulus n C) (8 * Z.of_nat n)); [lia|apply modulus_degree|
    by apply block_range|by apply block_range|].
  etrans; [symmetry; exact Hc'|exact Hc].
Qed.

Lemma laws_divides : divides_by_x n C.
Proof.
  intros block Hl. destruct (laws_inv block Hl) as (r & a & Hr & Hlr & Ha & E).
  assert (congruent (modulus n C) (from_be_bytes block) (2 * from_be_bytes r)) as Hc.
  { exists a. split; [lia|]. by rewrite clmul_bit. }
  exists r. split; [done|]. intros r'. split; [by intros ->|]. intros [Hl' Hc'].
  apply from_be_bytes_inj; [done..|].
  destruct (decide (n = 0%nat)) as [Hz|Hz].
  { destruct r, r'; simpl in *; by try lia. }
  apply (congruent_double_unique (modulus n C) (8 * Z.of_nat n));
    [lia|apply modulus_degree|by apply modulus_degree|
     by apply block_range|by apply block_range|].
  etrans; [symmetry; exact Hc'|exact Hc].
Qed.
End laws.

(** ** Properties *)

(** [dbl] is multiplication by [x] in GF(2^64), GF(2^128) and GF(2^256): on
    every block of 8, 16 or 32 bytes it returns the one block congruent to [x]
    times the block modulo [x^64 + x^4 + x^3 + x + 1],
    [x^128 + x^7 + x^2 + x + 1] and [x^256 + x^10 + x^5 + x^2 + 1], block bytes
    read in big-endian order; the carries between the 64-bit words included. *)
Lemma dbl_multiplies_by_x :
  multiplies_by_x 8 (2 ^ 4 + 2 ^ 3 + 2 + 1)
  /\ multiplies_by_x 16 (2 ^ 7 + 2 ^ 2 + 2 + 1)
  /\ multiplies_by_x 32 (2 ^ 10 + 2 ^ 5 + 2 ^ 2 + 1).
Proof.
  split_and!; [exact (laws_multiplies (C := C64))|exact (laws_multiplies (C := C128))
              |exact (laws_multiplies (C := C256))].
Qed.

(** [inv_dbl] is division by [x] in the same fields: on every block it
    returns the one block whose product with [x] is congruent to the block. *)
Lemma inv_dbl_divides_by_x :
  divides_by_x 8 (2 ^ 4 + 2 ^ 3 + 2 + 1)
  /\ divides_by_x 16 (2 ^ 7 + 2 ^ 2 + 2 + 1)
  /\ divides_by_x 32 (2 ^ 10 + 2 ^ 5 + 2 ^ 2 + 1).
Proof.
  split_and!; [exact (laws_divides (C := C64))|exact (laws_divides (C := C128))
              |exact (laws_divides (C := C256))].
Qed.

(** C8. [dbl] is multiplication and [inv_dbl] division by [x] in GF(2^64),
    GF(2^128) and GF(2^256): on every block of 8, 16 or 32 bytes, read in
    big-endian order, [dbl] returns the one block congruent to [x] times the
    block modulo [x^64 + x^4 + x^3 + x + 1], [x^128 + x^7 + x^2 + x + 1] and
    [x^256 + x^10 + x^5 + x^2 + 1], and [inv_dbl] the one block whose product with
    [x] is congruent to the block; the carries between the 64-bit words included. *)
Theorem dbl_field :
  (multiplies_by_x 8 (2 ^ 4 + 2 ^ 3 + 2 + 1)
   /\ multiplies_by_x 16 (2 ^ 7 + 2 ^ 2 + 2 + 1)
   /\ multiplies_by_x 32 (2 ^ 10 + 2 ^ 5 + 2 ^ 2 + 1))
  /\ divides_by_x 8 (2 ^ 4 + 2 ^ 3 + 2 + 1)
  /\ divides_by_x 16 (2 ^ 7 + 2 ^ 2 + 2 + 1)
  /\ divides_by_x 32 (2 ^ 10 + 2 ^ 5 + 2 ^ 2 + 1).
Proof. split; [apply dbl_multiplies_by_x|apply inv_dbl_divides_by_x]. Qed.

(** For every implementation of the trait that satisfies the laws, [dbl] and
    [inv_dbl] are inverse bijections of the blocks. *)
Lemma dbl_inv_dbl_inverse `{DblLaws n C} block :
  length block = n ->
  (let! r := dbl n block in inv_dbl n r) = Ret block
  /\ (let! r := inv_dbl n block in dbl n r) = Ret block.
Proof.
  intros Hl. split.
  - destruct (laws_multiplies block Hl) as (r & -> & Hr). rewrite bind_Ret.
    destruct (proj1 (Hr r) eq_refl) as [Hlr Hc].
    destruct (laws_divides r Hlr) as (b & -> & Hb). f_equal. symmetry.
    apply Hb. split; [done|]. by symmetry.
  - destruct (laws_divides block Hl) as (r & -> & Hr). rewrite bind_Ret.
    destruct (proj1 (Hr r) eq_refl) as [Hlr Hc].
    destruct (laws_multiplies r Hlr) as (b & -> & Hb). f_equal. symmetry.
    apply Hb. split; [done|]. by symmetry.
Qed.

Example dbl_inv_dbl_16 :
  (let! r := dbl 16 (replicate 16 Byte.xff) in inv_dbl 16 r)
  = Ret (replicate 16 Byte.xff).
Proof.
  refine (proj1 (dbl_inv_dbl_inverse (replicate 16 Byte.xff) _)). reflexivity.
Qed.
