(* ===== verification/Blobby.v ===== *)
(** * Blobby

    [blobby/src/lib.rs]: the variable-length quantities ([read_vlq],
    [encode_vlq]), the encoder [encode_blobs] and the iterators [BlobIterator]
    and [BlobNIterator]. Values are [Z] (a [usize]); positions and lengths are
    [nat]; a borrowed slice is the list of its bytes. The [BTreeMap]s are
    [gmap]s, iterated in the lexicographic order of their keys. *)
From S2P Require Import Prelude.
From Stdlib Require Import Sorting.Sorted.
From stdpp Require Import base numbers list gmap.

(** [struct BlobIterator] *)
Record BlobIterator := mkBlobIterator {
  data : list u8;
  dedup : list (list u8);
  pos : nat;
}.

(** [enum Error] *)
Inductive Error : Set :=
  | InvalidVlq
  | InvalidIndex
  | UnexpectedEnd
  | NotEnoughElements.

#[export] Instance error_eq_dec : EqDecision Error.
Proof. solve_decision. Defined.

Definition NEXT_MASK : Z := 128.
Definition VAL_MASK : Z := 127.

(** ** Variable-length quantities *)

(** One [step!()] of [read_vlq]; [k] is the code that follows it. *)
Definition read_step (data : list u8) (next val : Z) (pos : nat)
    (k : Z -> Z -> nat -> result Z Error * nat) : result Z Error * nat :=
  if (next =? 0)%Z then (Ok val, pos) else
  match data !! pos with
  | None => (Err UnexpectedEnd, pos)
  | Some b =>
      let pos := pos + 1 in
      let next := Z.land (b2z b) NEXT_MASK in
      let t := Z.land (b2z b) VAL_MASK in
      let val := (Z.shiftl (val + 1) 7 + t)%Z in
      k next val pos
  end.

(** [fn read_vlq]: the result and the final [*pos]. *)
Definition read_vlq (data : list u8) (pos : nat) : result Z Error * nat :=
  match data !! pos with
  | None => (Err UnexpectedEnd, pos)
  | Some b =>
      let pos := pos + 1 in
      let next := Z.land (b2z b) NEXT_MASK in
      let val := Z.land (b2z b) VAL_MASK in
      read_step data next val pos (fun next val pos =>
      read_step data next val pos (fun next val pos =>
      read_step data next val pos (fun next val pos =>
      if negb (next =? 0)%Z then (Err InvalidVlq, pos) else (Ok val, pos))))
  end.

(** One [step!($n)] of [encode_vlq]; [k] is the code that follows it. The
    result is the final [*buf] and the returned slice. *)
Definition encode_step (n : nat) (val : Z) (buf : list u8)
    (k : Z -> list u8 -> run (list u8 * list u8)) : run (list u8 * list u8) :=
  let! (b, val) :=
    if n =? 3 then Ret (z2b (Z.land val VAL_MASK), val)
    else let! val := zsub val 1 in
         Ret (z2b (Z.lor NEXT_MASK (Z.land val VAL_MASK)), val) in
  let! buf := store buf n b in
  let val := Z.shiftr val 7 in
  if (val =? 0)%Z then let! s := slice_from buf n in Ret (buf, s)
  else k val buf.

(** [fn encode_vlq] *)
Definition encode_vlq (val : Z) (buf : list u8) : run (list u8 * list u8) :=
  encode_step 3 val buf (fun val buf =>
  encode_step 2 val buf (fun val buf =>
  encode_step 1 val buf (fun val buf =>
  encode_step 0 val buf (fun val buf => Panic)))).

(** ** [encode_blobs] *)

(** The order of [&[u8]]. *)
Fixpoint bytes_le (a b : list u8) : bool :=
  match a, b with
  | [], _ => true
  | _, [] => false
  | x :: a, y :: b =>
      if (b2n x <? b2n y) then true
      else if (b2n y <? b2n x) then false else bytes_le a b
  end.

(** Stable insertion sort: the result of [sort_by_key]. *)
Fixpoint insert_by {A} (le : A -> A -> bool) (x : A) (l : list A) : list A :=
  match l with
  | [] => [x]
  | y :: l' => if le x y then x :: l else y :: insert_by le x l'
  end.
Definition sort_by {A} (le : A -> A -> bool) (l : list A) : list A :=
  foldr (insert_by le) [] l.

(** [BTreeMap::iter] *)
Definition btree_iter {V} (m : gmap (list u8) V) : list (list u8 * V) :=
  sort_by (fun a b => bytes_le a.1 b.1) (map_to_list m).

(** [*idx_map.entry(blob).or_insert(0) += 1] *)
Definition count_blob (m : gmap (list u8) nat) (blob : list u8) :
    gmap (list u8) nat :=
  <[blob := default 0 (m !! blob) + 1]> m.

(** The rank of a blob in the index. *)
Definition idx_rank (e : list u8) : nat :=
  match e with
  | [Byte.x00] => 2
  | [Byte.x01] => 1
  | _ => 0
  end.

(** The order of the sort keys [(k, idx_map.get(e).unwrap())]. *)
Definition key_le (a b : nat * nat) : bool :=
  (a.1 <? b.1) || ((a.1 =? b.1) && (a.2 <=? b.2)).

(** The de-duplication index. *)
Definition build_idx (blobs : list (list u8)) : run (list (list u8)) :=
  let idx_map :=
    foldl count_blob ∅
      (List.filter (fun blob => negb (bool_decide (blob = []))) blobs) in
  let idx :=
    List.map fst (List.filter (fun kv => 1 <? kv.2) (btree_iter idx_map)) in
  let! keyed :=
    mapM (fun e => let! v := unwrap_option (idx_map !! e) in
                   Ret ((idx_rank e, v), e)) idx in
  Ret (reverse (List.map snd (sort_by (fun a b => key_le a.1 b.1) keyed))).

(** [idx.iter().enumerate().map(|(i, &e)| (e, i)).collect()] *)
Definition reverse_idx (idx : list (list u8)) : gmap (list u8) nat :=
  foldl (fun m ie => <[ie.2 := ie.1]> m) ∅ (imap pair idx).

(** The loop that writes the index. *)
Fixpoint write_idx (idx : list (list u8)) (out_buf buf : list u8) :
    run (list u8 * list u8) :=
  match idx with
  | [] => Ret (out_buf, buf)
  | e :: idx =>
      let! (buf, s) := encode_vlq (Z.of_nat (length e)) buf in
      let out_buf := out_buf ++ s in
      let out_buf := out_buf ++ e in
      write_idx idx out_buf buf
  end.

(** The loop that writes the blobs. *)
Fixpoint write_blobs (rev_idx : gmap (list u8) nat) (blobs : list (list u8))
    (out_buf buf : list u8) : run (list u8 * list u8) :=
  match blobs with
  | [] => Ret (out_buf, buf)
  | blob :: blobs =>
      let! (out_buf, buf) :=
        match rev_idx !! blob with
        | Some dup_pos =>
            let n := (Z.shiftl (Z.of_nat dup_pos) 1 + 1)%Z in
            let! (buf, s) := encode_vlq n buf in
            Ret (out_buf ++ s, buf)
        | None =>
            let n := Z.shiftl (Z.of_nat (length blob)) 1 in
            let! (buf, s) := encode_vlq n buf in
            let out_buf := out_buf ++ s in
            Ret (out_buf ++ blob, buf)
        end in
      write_blobs rev_idx blobs out_buf buf
  end.

(** [fn encode_blobs] *)
Definition encode_blobs (blobs : list (list u8)) : run (list u8 * nat) :=
  let! idx := build_idx blobs in
  let idx_len := length idx in
  let rev_idx := reverse_idx idx in
  let buf := replicate 4 Byte.x00 in
  let! (buf, s) := encode_vlq (Z.of_nat (length idx)) buf in
  let out_buf := [] ++ s in
  let! (out_buf, buf) := write_idx idx out_buf buf in
  let! (out_buf, buf) := write_blobs rev_idx blobs out_buf buf in
  Ret (out_buf, idx_len).

(** ** [BlobIterator] *)

(** The loop of [new] that fills [dedup]. *)
Fixpoint read_dedup (data : list u8) (n : nat) (pos : nat) :
    run (list (list u8) * nat) :=
  match n with
  | 0 => Ret ([], pos)
  | S n =>
      let (r, pos) := read_vlq data pos in
      let! m := unwrap r in
      let m := Z.to_nat m in
      let! entry := slice data pos (pos + m) in
      let pos := pos + m in
      let! (entries, pos) := read_dedup data n pos in
      Ret (entry :: entries, pos)
  end.

(** [BlobIterator::new] *)
Definition new (data : list u8) : run (result BlobIterator Error) :=
  let pos := 0 in
  let (r, pos) := read_vlq data pos in
  let? dedup_n := Ret r in
  let! (dedup, pos) := read_dedup data (Z.to_nat dedup_n) pos in
  let! rest := slice_from data pos in
  Ret (Ok (mkBlobIterator rest dedup 0)).

(** [BlobIterator::read]: the result and the final [*self]. *)
Definition read (it : BlobIterator) :
    run (result (list u8) Error * BlobIterator) :=
  let (r, pos') := read_vlq (data it) (pos it) in
  let it := mkBlobIterator (data it) (dedup it) pos' in
  let! val := unwrap r in
  let is_ref := negb (Z.land val 1 =? 0)%Z in
  let val := Z.to_nat (Z.shiftr val 1) in
  if is_ref then
    if length (dedup it) <=? val then Ret (Err InvalidIndex, it) else
    let! b := index (dedup it) val in
    Ret (Ok b, it)
  else
    let s := pos it in
    let it := mkBlobIterator (data it) (dedup it) (s + val) in
    Ret (ok_or (slice_get (data it) s (pos it)) UnexpectedEnd, it).

(** [BlobIterator::error_block] *)
Definition error_block (it : BlobIterator) : BlobIterator :=
  mkBlobIterator (data it) (dedup it) (length (data it)).

(** [<BlobIterator as Iterator>::next] *)
Definition next (it : BlobIterator) :
    run (option (result (list u8) Error) * BlobIterator) :=
  if pos it <? length (data it) then
    let! (val, it) := read it in
    let it := match val with Err _ => error_block it | Ok _ => it end in
    Ret (Some val, it)
  else Ret (None, it).

(** ** [BlobNIterator]: the body of [new_iter!], with [$n] elements *)

(** [$name::new]; the struct holds the inner iterator only. *)
Definition new_n (data : list u8) : run (result BlobIterator Error) := new data.

(** The loop of [next], from element [i] of [n], [res] holding those before. *)
Fixpoint next_n_loop (rest i : nat) (res : list (list u8)) (inner : BlobIterator) :
    run (option (result (list (list u8)) Error) * BlobIterator) :=
  match rest with
  | 0 => Ret (Some (Ok res), inner)
  | S rest =>
      let! (o, inner) := next inner in
      match o with
      | Some (Ok val) => next_n_loop rest (i + 1) (res ++ [val]) inner
      | Some (Err e) => Ret (Some (Err e), inner)
      | None =>
          if i =? 0 then Ret (None, inner)
          else Ret (Some (Err NotEnoughElements), error_block inner)
      end
  end.

Definition next_n (n : nat) (inner : BlobIterator) :
    run (option (result (list (list u8)) Error) * BlobIterator) :=
  next_n_loop n 0 [] inner.

(** All the items that an iterator gives, at most [fuel] of them, until it
    returns [None]. *)
Fixpoint drain {A I} (step : I -> run (option A * I)) (fuel : nat) (it : I) :
    run (option (list A)) :=
  match fuel with
  | 0 => Ret None
  | S fuel =>
      let! (o, it) := step it in
      match o with
      | None => Ret (Some [])
      | Some a => let! rest := drain step fuel it in Ret (option_map (cons a) rest)
      end
  end.

(** The example of the crate's documentation, in both directions. *)
Definition doc_blobs : list (list u8) :=
  [[104; 101; 108; 108; 111]; [32]; []; [119; 111; 114; 108; 100; 33];
   [58; 58; 58]; [119; 111; 114; 108; 100; 33]; [104; 101; 108; 108; 111]; []]%u8.
Definition doc_data : list u8 :=
  [2; 5; 104; 101; 108; 108; 111; 6; 119; 111; 114; 108; 100; 33;
   1; 2; 32; 0; 3; 6; 58; 58; 58; 3; 1; 0]%u8.

Example doc_decode :
  (let? it := new doc_data in
   let! r := drain next 20 it in Ret (Ok r)) = Ret (Ok (Some (List.map Ok doc_blobs))).
Proof. vm_compute. reflexivity. Qed.

Example doc_encode :
  (let! (out, n) := encode_blobs doc_blobs in
   let? it := new out in
   let! r := drain next 20 it in Ret (Ok (n, length out, r)))
  = Ret (Ok (2, 26, Some (List.map Ok doc_blobs))).
Proof. vm_compute. reflexivity. Qed.

(** ** Variable-length quantities: the code of a value *)

Section vlq.
Local Open Scope Z_scope.

Definition digit (d : Z) : Prop := 0 <= d < 128.

Ltac dlia := unfold digit in *; lia.

Definition VLQ_MAX : Z := 270549119.

(** Non-final and final byte of a code. *)
Definition cont (d : Z) : u8 := z2b (128 + d).
Definition stop (d : Z) : u8 := z2b d.

(** [vlq v bs]: [bs] is the code of [v]. *)
Inductive vlq : Z -> list u8 -> Prop :=
  | vlq1 d0 : digit d0 -> vlq d0 [stop d0]
  | vlq2 d1 d0 : digit d1 -> digit d0 ->
      vlq ((d1 + 1) * 128 + d0) [cont d1; stop d0]
  | vlq3 d2 d1 d0 : digit d2 -> digit d1 -> digit d0 ->
      vlq (((d2 + 1) * 128 + d1 + 1) * 128 + d0) [cont d2; cont d1; stop d0]
  | vlq4 d3 d2 d1 d0 : digit d3 -> digit d2 -> digit d1 -> digit d0 ->
      vlq ((((d3 + 1) * 128 + d2 + 1) * 128 + d1 + 1) * 128 + d0)
        [cont d3; cont d2; cont d1; stop d0].

Lemma byte_digit (b : u8) :
  (Z.land (b2z b) NEXT_MASK = 0 /\ exists d, digit d /\ b = stop d
     /\ Z.land (b2z b) VAL_MASK = d)
  \/ (Z.land (b2z b) NEXT_MASK = 128 /\ exists d, digit d /\ b = cont d
     /\ Z.land (b2z b) VAL_MASK = d).
Proof.
  assert (forall b : u8,
    (if b2z b <? 128 then Z.land (b2z b) NEXT_MASK = 0
       /\ Z.land (b2z b) VAL_MASK = b2z b
     else Z.land (b2z b) NEXT_MASK = 128
       /\ Z.land (b2z b) VAL_MASK = b2z b - 128)) as Hall
    by (intros []; by split).
  specialize (Hall b). pose proof (b2z_range b).
  destruct (Z.ltb_spec (b2z b) 128) as [Hb|Hb]; destruct Hall as [Hn Hv]; [left|right];
    (split; [done|]); eexists; (split_and!; [|symmetry|exact Hv]); unfold digit; try lia;
    unfold stop, cont; rewrite <- (z2b_b2z b) at 2; f_equal; lia.
Qed.

Lemma cont_digit d : digit d ->
  Z.land (b2z (cont d)) NEXT_MASK = 128 /\ Z.land (b2z (cont d)) VAL_MASK = d.
Proof.
  unfold digit. intros Hd.
  assert (b2z (cont d) = 128 + d) as E.
  { unfold cont. rewrite b2z_z2b. apply Z.mod_small. lia. }
  destruct (byte_digit (cont d)) as [(? & d' & Hd' & Hb & Hv)|(? & d' & Hd' & Hb & Hv)];
    rewrite Hb in E at 1; unfold cont, stop, digit in *;
    rewrite b2z_z2b, Z.mod_small in E by lia; split; lia.
Qed.

Lemma stop_digit d : digit d ->
  b2z (stop d) = d
  /\ Z.land (b2z (stop d)) NEXT_MASK = 0 /\ Z.land (b2z (stop d)) VAL_MASK = d.
Proof.
  unfold digit. intros Hd.
  assert (b2z (stop d) = d) as E.
  { unfold stop. rewrite b2z_z2b. apply Z.mod_small. lia. }
  split; [done|].
  destruct (byte_digit (stop d)) as [(? & d' & Hd' & Hb & Hv)|(? & d' & Hd' & Hb & Hv)];
    rewrite Hb in E at 1; unfold cont, stop, digit in *;
    rewrite b2z_z2b, Z.mod_small in E by lia; split; lia.
Qed.

Lemma shift_digits a d : digit d ->
  Z.land (a * 128 + d) VAL_MASK = d /\ Z.shiftr (a * 128 + d) 7 = a
  /\ Z.shiftl a 7 + d = a * 128 + d.
Proof.
  unfold digit, VAL_MASK. intros Hd. change 127 with (Z.ones 7).
  rewrite Z.land_ones, Z.shiftr_div_pow2, Z.shiftl_mul_pow2 by lia.
  change (2 ^ 7) with 128. split_and!; [|rewrite Z.div_add_l, Z.div_small; lia|done].
  rewrite Z.add_comm, Z.mod_add by lia. by apply Z.mod_small.
Qed.

Lemma lor_digit d : digit d -> z2b (Z.lor NEXT_MASK d) = cont d.
Proof.
  intros Hd. destruct (stop_digit d Hd) as (E & Hl & _). rewrite E in Hl.
  unfold cont. f_equal. rewrite Z.land_comm in Hl. unfold NEXT_MASK in *.
  by rewrite Z.add_nocarry_lxor, Z.lxor_lor.
Qed.

Lemma digits_split v : 0 <= v -> exists a d, v = a * 128 + d /\ 0 <= a /\ digit d.
Proof.
  intros Hv. exists (v / 128), (v mod 128). unfold digit.
  pose proof (Z.div_mod v 128). pose proof (Z.mod_pos_bound v 128).
  pose proof (Z.div_pos v 128). lia.
Qed.

Lemma vlq_exists v : 0 <= v <= VLQ_MAX -> exists bs, vlq v bs.
Proof.
  unfold VLQ_MAX. intros Hv.
  destruct (digits_split v) as (a & d0 & -> & Ha & H0); [lia|].
  destruct (decide (a = 0)) as [->|Ha0]; [by eexists; apply vlq1|].
  destruct (digits_split (a - 1)) as (b & d1 & Eb & Hb & H1); [lia|].
  destruct (decide (b = 0)) as [->|Hb0].
  { replace a with (d1 + 1) by lia. by eexists; apply vlq2. }
  destruct (digits_split (b - 1)) as (c & d2 & Ec & Hc & H2); [lia|].
  destruct (decide (c = 0)) as [->|Hc0].
  { replace a with ((d2 + 1) * 128 + d1 + 1) by lia. by eexists; apply vlq3. }
  replace a with ((((c - 1) + 1) * 128 + d2 + 1) * 128 + d1 + 1) by lia.
  eexists; apply vlq4; try done. unfold digit in *. lia.
Qed.

Lemma vlq_bounds v bs : vlq v bs -> 0 <= v <= VLQ_MAX /\ (1 <= length bs <= 4)%nat.
Proof. unfold VLQ_MAX. destruct 1; unfold digit in *; simpl; lia. Qed.

(** One step of the encoder on [a * 128 + d]. *)
Lemma encode_step_3 a d buf k :
  digit d -> length buf = 4%nat ->
  encode_step 3 (a * 128 + d) buf k
  = if a =? 0 then Ret (<[3%nat := stop d]> buf, drop 3 (<[3%nat := stop d]> buf))
    else k a (<[3%nat := stop d]> buf).
Proof.
  intros Hd Hb. unfold encode_step. simpl (3 =? 3)%nat. cbv iota.
  rewrite bind_Ret. destruct (shift_digits a d Hd) as (-> & -> & _).
  rewrite store_ok by lia. rewrite bind_Ret. by rewrite slice_from_ok by len.
Qed.

Lemma encode_step_n n a d buf k :
  digit d -> 0 <= a -> length buf = 4%nat -> (n < 3)%nat ->
  encode_step n (a * 128 + d + 1) buf k
  = if a =? 0 then Ret (<[n := cont d]> buf, drop n (<[n := cont d]> buf))
    else k a (<[n := cont d]> buf).
Proof.
  intros Hd Ha Hb Hn. unfold encode_step.
  rewrite (proj2 (Nat.eqb_neq n 3)) by lia.
  rewrite zsub_ok by dlia.
  replace (a * 128 + d + 1 - 1) with (a * 128 + d) by lia.
  destruct (shift_digits a d Hd) as (E1 & E2 & _). rewrite !bind_Ret, E1, E2.
  rewrite lor_digit, store_ok by (done || lia). rewrite bind_Ret.
  by rewrite slice_from_ok by len.
Qed.

Lemma encode_vlq_ok v bs buf :
  vlq v bs -> length buf = 4%nat ->
  exists buf', encode_vlq v buf = Ret (buf', bs) /\ length buf' = 4%nat.
Proof.
  intros Hv Hb. destruct buf as [|x0 [|x1 [|x2 [|x3 [|]]]]]; try done.
  unfold encode_vlq. destruct Hv as
    [d0 H0|d1 d0 H1 H0|d2 d1 d0 H2 H1 H0|d3 d2 d1 d0 H3 H2 H1 H0].
  - change (encode_step 3 d0) with (encode_step 3 (0 * 128 + d0)).
    rewrite encode_step_3 by done. by eexists.
  - rewrite encode_step_3 by done.
    rewrite (proj2 (Z.eqb_neq _ _)) by dlia.
    replace (d1 + 1) with (0 * 128 + d1 + 1) by done.
    rewrite encode_step_n by (done || len). by eexists.
  - rewrite encode_step_3 by done.
    rewrite (proj2 (Z.eqb_neq _ _)) by dlia.
    rewrite encode_step_n by (done || len || dlia).
    rewrite (proj2 (Z.eqb_neq _ _)) by dlia.
    replace (d2 + 1) with (0 * 128 + d2 + 1) by done.
    rewrite encode_step_n by (done || len). by eexists.
  - rewrite encode_step_3 by done.
    rewrite (proj2 (Z.eqb_neq _ _)) by dlia.
    rewrite encode_step_n by (done || len || dlia).
    rewrite (proj2 (Z.eqb_neq _ _)) by dlia.
    rewrite encode_step_n by (done || len || dlia).
    rewrite (proj2 (Z.eqb_neq _ _)) by dlia.
    replace (d3 + 1) with (0 * 128 + d3 + 1) by done.
    rewrite encode_step_n by (done || len). by eexists.
Qed.

Lemma encode_vlq_big v buf :
  VLQ_MAX < v -> length buf = 4%nat -> encode_vlq v buf = Panic.
Proof.
  unfold VLQ_MAX. intros Hv Hb.
  destruct (digits_split v) as (a & d0 & -> & Ha & H0); [lia|].
  destruct (digits_split (a - 1)) as (b & d1 & Eb & Hb' & H1);
    [dlia|].
  destruct (digits_split (b - 1)) as (c & d2 & Ec & Hc & H2);
    [dlia|].
  destruct (digits_split (c - 1)) as (e & d3 & Ee & He & H3);
    [dlia|].
  assert (e <> 0) by dlia.
  unfold encode_vlq. rewrite encode_step_3 by done.
  rewrite (proj2 (Z.eqb_neq a 0)) by dlia.
  replace a with (b * 128 + d1 + 1) by lia.
  rewrite encode_step_n by (done || len). rewrite (proj2 (Z.eqb_neq b 0)) by dlia.
  replace b with (c * 128 + d2 + 1) by lia.
  rewrite encode_step_n by (done || len). rewrite (proj2 (Z.eqb_neq c 0)) by dlia.
  replace c with (e * 128 + d3 + 1) by lia.
  rewrite encode_step_n by (done || len). by rewrite (proj2 (Z.eqb_neq e 0)) by dlia.
Qed.

(** Reading at [pos] is reading the rest of the data. *)
Lemma read_vlq_drop data pos :
  read_vlq data pos
  = ((read_vlq (drop pos data) 0).1, (pos + (read_vlq (drop pos data) 0).2)%nat).
Proof.
  unfold read_vlq, read_step. cbv zeta. rewrite !lookup_drop, !Nat.add_0_l, Nat.add_0_r.
  change (1 + 1)%nat with 2%nat. change (2 + 1)%nat with 3%nat.
  rewrite <- !Nat.add_assoc. change (1 + 1)%nat with 2%nat. change (1 + 2)%nat with 3%nat.
  destruct (data !! pos) as [b|]; [|simpl; by rewrite Nat.add_0_r].
  destruct (Z.land (b2z b) NEXT_MASK =? 0); [done|].
  do 3 (lazymatch goal with |- context [data !! ?p] =>
    destruct (data !! p) as [?b|]; [|done] end;
    lazymatch goal with |- context [Z.land (b2z ?x) NEXT_MASK =? 0] =>
      destruct (Z.land (b2z x) NEXT_MASK =? 0); [done|] end).
  done.
Qed.

(** The lookups of a read at the start of the data. *)
Ltac read_here :=
  repeat match goal with
  | H : digit ?d |- context [Z.land (b2z (cont ?d)) NEXT_MASK] =>
      rewrite (proj1 (cont_digit d H))
  | H : digit ?d |- context [Z.land (b2z (stop ?d)) NEXT_MASK] =>
      rewrite (proj1 (proj2 (stop_digit d H)))
  | H : digit ?d |- context [Z.land (b2z (cont ?d)) VAL_MASK] =>
      rewrite (proj2 (cont_digit d H))
  | H : digit ?d |- context [Z.land (b2z (stop ?d)) VAL_MASK] =>
      rewrite (proj2 (proj2 (stop_digit d H)))
  | H : digit ?d |- context [Z.shiftl ?a 7 + ?d] =>
      rewrite (proj2 (proj2 (shift_digits a d H)))
  | _ => progress cbn [app lookup list_lookup Nat.add read_step Z.eqb negb]
  end.

Lemma read_vlq_at_0 v bs rest :
  vlq v bs -> read_vlq (bs ++ rest) 0 = (Ok v, length bs).
Proof.
  intros Hv. unfold read_vlq. destruct Hv; unfold read_step; read_here;
    cbn [length]; repeat f_equal; lia.
Qed.

(** A quantity of which bytes are missing. *)
Lemma vlq_cut v bs j :
  vlq v bs -> (j < length bs)%nat -> read_vlq (take j bs) 0 = (Err UnexpectedEnd, j).
Proof.
  intros Hv Hj. unfold read_vlq. destruct Hv; unfold read_step;
    (destruct j as [|[|[|[|j]]]]; simpl in Hj; try lia; cbn [take]; read_here; done).
Qed.

Lemma vlq_cut_no v bs j v' bs' tl :
  vlq v bs -> (j < length bs)%nat -> vlq v' bs' -> take j bs <> bs' ++ tl.
Proof.
  intros Hv Hj Hv' E. pose proof (vlq_cut _ _ _ Hv Hj) as Hr.
  by rewrite E, (read_vlq_at_0 _ _ _ Hv') in Hr.
Qed.

Lemma read_vlq_ok pre v bs rest :
  vlq v bs ->
  read_vlq (pre ++ bs ++ rest) (length pre) = (Ok v, (length pre + length bs)%nat).
Proof.
  intros Hv. rewrite read_vlq_drop, drop_app_length. by rewrite (read_vlq_at_0 _ _ _ Hv).
Qed.

(** What a read returns comes from the code of the value. *)
Lemma read_vlq_at_0_inv data v n :
  read_vlq data 0 = (Ok v, n) ->
  exists bs rest, data = bs ++ rest /\ vlq v bs /\ n = length bs.
Proof.
  unfold read_vlq, read_step.
  destruct data as [|b0 data]; [done|]. cbn [lookup list_lookup Nat.add].
  destruct (byte_digit b0) as [(-> & d0 & H0 & -> & ->)|(-> & d0 & H0 & -> & ->)].
  { intros [= <- <-]. exists [stop d0], data. by split_and!; [|apply vlq1|]. }
  destruct data as [|b1 data]; [done|]. cbn [lookup list_lookup Nat.add Z.eqb].
  destruct (byte_digit b1) as [(-> & d1 & H1 & -> & ->)|(-> & d1 & H1 & -> & ->)];
    rewrite (proj2 (proj2 (shift_digits _ d1 H1))).
  { intros [= <- <-]. exists [cont d0; stop d1], data.
    by split_and!; [|apply vlq2|]. }
  destruct data as [|b2 data]; [done|]. cbn [lookup list_lookup Nat.add Z.eqb].
  destruct (byte_digit b2) as [(-> & d2 & H2 & -> & ->)|(-> & d2 & H2 & -> & ->)];
    rewrite (proj2 (proj2 (shift_digits _ d2 H2))).
  { intros [= <- <-]. exists [cont d0; cont d1; stop d2], data.
    by split_and!; [|apply vlq3|]. }
  destruct data as [|b3 data]; [done|]. cbn [lookup list_lookup Nat.add Z.eqb].
  destruct (byte_digit b3) as [(-> & d3 & H3 & -> & ->)|(-> & d3 & H3 & -> & ->)];
    rewrite (proj2 (proj2 (shift_digits _ d3 H3))); [|done].
  intros [= <- <-]. exists [cont d0; cont d1; cont d2; stop d3], data.
  by split_and!; [|apply vlq4|].
Qed.

Lemma read_vlq_inv data pos v n :
  read_vlq data pos = (Ok v, n) ->
  exists bs rest, drop pos data = bs ++ rest /\ vlq v bs /\ n = (pos + length bs)%nat.
Proof.
  rewrite read_vlq_drop. destruct (read_vlq (drop pos data) 0) as [r m] eqn:E.
  intros [= -> <-]. destruct (read_vlq_at_0_inv _ _ _ E) as (bs & rest & -> & Hv & ->).
  eauto.
Qed.

Lemma vlq_fun v bs1 bs2 : vlq v bs1 -> vlq v bs2 -> bs1 = bs2.
Proof.
  intros H1 H2. destruct (encode_vlq_ok v bs1 (replicate 4 Byte.x00) H1)
    as (? & E1 & _); [done|].
  destruct (encode_vlq_ok v bs2 (replicate 4 Byte.x00) H2) as (? & E2 & _); [done|].
  congruence.
Qed.
End vlq.

(** ** Sorting *)

Section sorting.
Context {A : Type} (le : A -> A -> bool).
Context (le_total : forall x y, le x y = true \/ le y x = true).
Context (le_trans : forall x y z, le x y = true -> le y z = true -> le x z = true).

Lemma insert_by_perm x l : insert_by le x l ≡ₚ x :: l.
Proof using Type.
  induction l as [|y l IH]; [done|]. simpl. destruct (le x y); [done|].
  rewrite IH. apply Permutation_swap.
Qed.

Lemma sort_by_perm l : sort_by le l ≡ₚ l.
Proof using Type.
  induction l as [|x l IH]; [done|]. simpl. by rewrite insert_by_perm, IH.
Qed.

Lemma insert_by_sorted x l :
  StronglySorted le l -> StronglySorted le (insert_by le x l).
Proof using le_total le_trans.
  induction l as [|y l IH]; intros Hl; simpl; [by repeat constructor|].
  inversion Hl as [|? ? Hl' Hy]; subst. destruct (le x y) eqn:E.
  - constructor; [done|]. constructor; [by rewrite E|].
    eapply Forall_impl; [exact Hy|]. intros z Hz.
    apply Is_true_eq_left. eapply le_trans; [exact E|by apply Is_true_eq_true].
  - constructor; [by apply IH|].
    rewrite insert_by_perm.
    constructor; [|done]. destruct (le_total x y) as [?|H]; [congruence|by rewrite H].
Qed.

Lemma sort_by_sorted l : StronglySorted le (sort_by le l).
Proof using le_total le_trans.
  induction l; simpl; [constructor|by apply insert_by_sorted].
Qed.
End sorting.

Lemma StronglySorted_map {A B} (R : A -> A -> Prop) (S : B -> B -> Prop) (f : A -> B) l :
  (forall x y, x ∈ l -> y ∈ l -> R x y -> S (f x) (f y)) ->
  StronglySorted R l -> StronglySorted S (List.map f l).
Proof.
  intros Hf Hl. induction Hl as [|x l Hl IH Hx]; simpl; [constructor|].
  constructor; [apply IH; intros; apply Hf; auto; by right|].
  apply Forall_forall. intros y. rewrite list_elem_of_In, in_map_iff.
  intros (z & <- & Hz%list_elem_of_In). rewrite Forall_forall in Hx.
  apply Hf; [left|by right|auto].
Qed.

Lemma StronglySorted_reverse {A} (R : A -> A -> Prop) l :
  StronglySorted R l -> StronglySorted (fun a b => R b a) (reverse l).
Proof.
  induction 1 as [|x l Hl IH Hx]; [constructor|]. rewrite reverse_cons.
  assert (Forall (fun y => R x y) (reverse l)) as Hr by by apply Forall_reverse.
  clear Hl Hx. induction IH as [|y k Hk IHk Hy]; simpl; [by repeat constructor|].
  inversion Hr; subst. constructor; [by apply IHk|].
  apply Forall_app. split; [done|by repeat constructor].
Qed.

Lemma key_le_total x y : key_le x y = true \/ key_le y x = true.
Proof.
  unfold key_le. destruct x as [a b], y as [c d]; simpl.
  destruct (Nat.ltb_spec a c); [by left|]. destruct (Nat.ltb_spec c a); [by right|].
  replace c with a by lia. rewrite Nat.eqb_refl. simpl.
  destruct (Nat.leb_spec b d); [by left|right]. apply Nat.leb_le. lia.
Qed.

Lemma key_le_spec x y :
  key_le x y = true <-> x.1 < y.1 \/ (x.1 = y.1 /\ x.2 <= y.2).
Proof.
  unfold key_le. rewrite orb_true_iff, andb_true_iff.
  by rewrite Nat.ltb_lt, Nat.eqb_eq, Nat.leb_le.
Qed.

Lemma key_le_trans x y z : key_le x y = true -> key_le y z = true -> key_le x z = true.
Proof. rewrite !key_le_spec. lia. Qed.

(** ** The index *)

(** How often [e] occurs. *)
Definition occurrences (e : list u8) (blobs : list (list u8)) : nat :=
  length (List.filter (fun b => bool_decide (b = e)) blobs).

Lemma count_blob_spec m blobs e :
  default 0 (foldl count_blob m blobs !! e) = default 0 (m !! e) + occurrences e blobs.
Proof.
  revert m. induction blobs as [|b blobs IH]; intros m; [by rewrite Nat.add_0_r|].
  cbn [foldl].
  rewrite IH. unfold count_blob, occurrences. cbn [List.filter]. case_bool_decide as Hb.
  - subst. rewrite lookup_insert_eq. cbn [default length]. simpl. lia.
  - by rewrite lookup_insert_ne.
Qed.

Lemma occurrences_nonempty e blobs :
  e <> [] ->
  occurrences e (List.filter (fun blob => negb (bool_decide (blob = []))) blobs)
  = occurrences e blobs.
Proof.
  intros He. unfold occurrences.
  induction blobs as [|b blobs IH]; [done|]. simpl.
  repeat case_bool_decide; simpl; rewrite ?bool_decide_eq_true_2, ?bool_decide_eq_false_2
    by done; simpl; congruence.
Qed.

Lemma occurrences_empty blobs :
  occurrences [] (List.filter (fun blob => negb (bool_decide (blob = []))) blobs) = 0.
Proof.
  unfold occurrences. induction blobs as [|b blobs IH]; [done|]. simpl.
  repeat case_bool_decide; simpl; rewrite ?bool_decide_eq_false_2 by done; done.
Qed.

Lemma occurrences_two e blobs : 1 < occurrences e blobs -> e ∈ blobs.
Proof.
  unfold occurrences. induction blobs as [|b blobs IH]; simpl; [lia|].
  case_bool_decide; subst; [left|right; auto].
Qed.

Lemma mapM_Ret {A B} (f : A -> run B) (g : A -> B) l :
  (forall a, a ∈ l -> f a = Ret (g a)) -> mapM f l = Ret (List.map g l).
Proof.
  induction l as [|a l IH]; intros H; [done|]. simpl.
  rewrite H by left. rewrite bind_Ret, IH; [done|]. intros. apply H. by right.
Qed.

(** The key that orders the index. *)
Definition idx_key (blobs : list (list u8)) (e : list u8) : nat * nat :=
  (idx_rank e, occurrences e blobs).

Lemma btree_iter_elem {V} (m : gmap (list u8) V) k v :
  (k, v) ∈ btree_iter m <-> m !! k = Some v.
Proof. unfold btree_iter. rewrite sort_by_perm. apply elem_of_map_to_list. Qed.

(** The map of the encoder counts the nonempty blobs. *)
Definition count_blobs (blobs : list (list u8)) : gmap (list u8) nat :=
  foldl count_blob ∅ (List.filter (fun blob => negb (bool_decide (blob = []))) blobs).

Lemma count_blobs_lookup blobs e :
  e <> [] -> default 0 (count_blobs blobs !! e) = occurrences e blobs.
Proof.
  intros He. unfold count_blobs.
  by rewrite count_blob_spec, lookup_empty, occurrences_nonempty.
Qed.

Lemma count_blobs_some blobs e v :
  count_blobs blobs !! e = Some v -> 0 < v -> e <> [] /\ v = occurrences e blobs.
Proof.
  intros E Hv. destruct (decide (e = [])) as [->|He].
  - unfold count_blobs in E.
    pose proof (count_blob_spec ∅ (List.filter (fun blob => negb (bool_decide (blob = []))) blobs) []) as Hc.
    rewrite occurrences_empty, lookup_empty, E in Hc. simpl in Hc. lia.
  - split; [done|]. by rewrite <- count_blobs_lookup, E.
Qed.

Lemma count_blobs_elem blobs e :
  e ∈ List.map fst (List.filter (fun kv => 1 <? kv.2) (btree_iter (count_blobs blobs)))
  <-> e <> [] /\ 1 < occurrences e blobs.
Proof.
  rewrite list_elem_of_In, in_map_iff. setoid_rewrite filter_In. split.
  - intros ([e' v] & <- & Hin%list_elem_of_In%btree_iter_elem & Hv%Nat.ltb_lt).
    simpl in *. destruct (count_blobs_some blobs e' v Hin) as [? ->]; [lia|done].
  - intros [Hne Ho]. exists (e, occurrences e blobs). split; [done|].
    rewrite <- list_elem_of_In, btree_iter_elem, Nat.ltb_lt. simpl. split; [|done].
    pose proof (count_blobs_lookup blobs e Hne) as Hc.
    destruct (count_blobs blobs !! e); simpl in Hc; [by subst|lia].
Qed.

(** Sorting by the keys and reversing. *)
Lemma sorted_by_key blobs idx :
  let le := fun a b : nat * nat * list u8 => key_le a.1 b.1 in
  let sorted := reverse (List.map snd (sort_by le (List.map (fun e => (idx_key blobs e, e)) idx))) in
  sorted ≡ₚ idx
  /\ StronglySorted (fun a b => key_le (idx_key blobs b) (idx_key blobs a)) sorted.
Proof.
  intros le sorted. set (keyed := List.map _ idx) in *. split.
  - unfold sorted. rewrite reverse_Permutation, (Permutation_map snd (sort_by_perm le keyed)).
    unfold keyed. rewrite map_map. simpl. by rewrite map_id.
  - apply StronglySorted_reverse. eapply StronglySorted_map; [|apply sort_by_sorted].
    + intros x y Hx Hy Hle.
      assert (forall z, z ∈ sort_by le keyed -> z.1 = idx_key blobs z.2) as Hkey.
      { intros z. rewrite sort_by_perm. unfold keyed.
        rewrite list_elem_of_In, in_map_iff. by intros (e & <- & _). }
      rewrite <- !Hkey by done. exact Hle.
    + intros. apply key_le_total.
    + intros x y z. apply key_le_trans.
Qed.

Lemma build_idx_ok blobs :
  exists idx, build_idx blobs = Ret idx /\ NoDup idx
    /\ (forall e, e ∈ idx <-> e <> [] /\ 1 < occurrences e blobs)
    /\ StronglySorted (fun a b => key_le (idx_key blobs b) (idx_key blobs a)) idx.
Proof.
  unfold build_idx. fold (count_blobs blobs). set (idx := List.map fst _).
  rewrite (mapM_Ret _ (fun e => (idx_key blobs e, e))).
  - destruct (sorted_by_key blobs idx) as [Hp Hs]. rewrite bind_Ret. eexists. split; [done|].
    split_and!; [|intros e; rewrite Hp; apply count_blobs_elem|exact Hs].
    rewrite Hp. apply NoDup_map_filter. unfold btree_iter. rewrite sort_by_perm.
    apply NoDup_fst_map_to_list.
  - intros e [Hne Ho]%count_blobs_elem. pose proof (count_blobs_lookup blobs e Hne) as Hc.
    destruct (count_blobs blobs !! e); simpl in Hc; [by subst|lia].
Qed.

Lemma reverse_idx_snoc idx e :
  reverse_idx (idx ++ [e]) = <[e := length idx]> (reverse_idx idx).
Proof.
  unfold reverse_idx. rewrite imap_app, foldl_app. simpl. by rewrite Nat.add_0_r.
Qed.

Lemma reverse_idx_lookup idx e i :
  NoDup idx -> reverse_idx idx !! e = Some i <-> idx !! i = Some e.
Proof.
  induction idx as [|x idx IH] using rev_ind; intros Hd; [done|].
  rewrite reverse_idx_snoc. apply NoDup_app in Hd as (Hd & Hx & _).
  destruct (decide (x = e)) as [->|Hne].
  - rewrite lookup_insert_eq. split.
    + intros [= <-]. by apply list_lookup_middle.
    + intros Hi. destruct (decide (i < length idx)).
      * rewrite lookup_app_l in Hi by done. exfalso.
        apply (Hx e); [by eapply list_elem_of_lookup_2|by left].
      * apply lookup_lt_Some in Hi. rewrite length_app in Hi. simpl in Hi. f_equal. lia.
  - rewrite lookup_insert_ne, IH by done. split; intros Hi.
    + rewrite lookup_app_l; [done|by eapply lookup_lt_Some].
    + destruct (decide (i < length idx)); [by rewrite lookup_app_l in Hi|].
      rewrite lookup_app_r in Hi by lia. apply list_lookup_singleton_Some in Hi as [_ ?].
      done.
Qed.

(** ** The format *)

(** One index entry: its length, then its bytes. *)
Inductive idx_entry (e : list u8) : list u8 -> Prop :=
  | idx_entry_intro bs : vlq (Z.of_nat (length e)) bs -> idx_entry e (bs ++ e).

(** One stored blob, given the index: its bytes, or a reference. *)
Inductive entry (dedup : list (list u8)) (b : list u8) : list u8 -> Prop :=
  | entry_bytes bs :
      vlq (2 * Z.of_nat (length b)) bs -> entry dedup b (bs ++ b)
  | entry_ref i bs :
      dedup !! i = Some b -> vlq (2 * Z.of_nat i + 1) bs -> entry dedup b bs.

(** [encodes idx blobs bytes]: [bytes] is a file with the index [idx] and the
    blobs [blobs]. *)
Definition encodes (idx blobs : list (list u8)) (bytes : list u8) : Prop :=
  exists hdr ies es, vlq (Z.of_nat (length idx)) hdr
    /\ Forall2 idx_entry idx ies /\ Forall2 (entry idx) blobs es
    /\ bytes = hdr ++ concat ies ++ concat es.

(** Lengths and counts that the four-byte quantities can hold. *)
Definition fits (blobs : list (list u8)) : Prop :=
  (2 * Z.of_nat (length blobs) <= VLQ_MAX)%Z
  /\ Forall (fun b => (2 * Z.of_nat (length b) <= VLQ_MAX)%Z) blobs.

Lemma write_idx_ok idx out_buf buf :
  Forall (fun e => (Z.of_nat (length e) <= VLQ_MAX)%Z) idx -> length buf = 4 ->
  exists ies buf', Forall2 idx_entry idx ies /\ length buf' = 4
    /\ write_idx idx out_buf buf = Ret (out_buf ++ concat ies, buf').
Proof.
  revert out_buf buf. induction idx as [|e idx IH]; intros out buf Hf Hb.
  { exists [], buf. by rewrite app_nil_r. }
  inversion Hf as [|? ? He Hf']; subst.
  destruct (vlq_exists (Z.of_nat (length e))) as [bs Hbs]; [lia|].
  destruct (encode_vlq_ok _ _ buf Hbs Hb) as (buf1 & E1 & Hb1).
  destruct (IH ((out ++ bs) ++ e) buf1 Hf' Hb1) as (ies & buf2 & Hies & Hb2 & E2).
  exists ((bs ++ e) :: ies), buf2. split_and!; [by repeat constructor|done|].
  simpl. rewrite E1, bind_Ret, E2. by rewrite !app_assoc.
Qed.

Lemma write_blobs_ok idx blobs out_buf buf :
  NoDup idx -> (2 * Z.of_nat (length idx) <= VLQ_MAX)%Z ->
  Forall (fun b => (2 * Z.of_nat (length b) <= VLQ_MAX)%Z) blobs -> length buf = 4 ->
  exists es buf', Forall2 (entry idx) blobs es
    /\ write_blobs (reverse_idx idx) blobs out_buf buf
       = Ret (out_buf ++ concat es, buf').
Proof.
  intros Hd Hidx. revert out_buf buf.
  induction blobs as [|b blobs IH]; intros out buf Hf Hb.
  { exists [], buf. by rewrite app_nil_r. }
  inversion Hf as [|? ? Hlb Hf']; subst. cbn [write_blobs].
  destruct (reverse_idx idx !! b) as [i|] eqn:Hi.
  - apply reverse_idx_lookup in Hi; [|done]. pose proof (lookup_lt_Some _ _ _ Hi).
    rewrite Z.shiftl_mul_pow2, Z.mul_comm by lia. change (2 ^ 1)%Z with 2%Z.
    destruct (vlq_exists (2 * Z.of_nat i + 1)) as [bs Hbs]; [lia|].
    destruct (encode_vlq_ok _ _ buf Hbs Hb) as (buf1 & E1 & Hb1).
    destruct (IH (out ++ bs) buf1 Hf' Hb1) as (es & buf2 & Hes & E2).
    exists (bs :: es), buf2. split; [constructor; [by eapply entry_ref|done]|].
    rewrite E1. run_steps. rewrite E2. simpl. by rewrite !app_assoc.
  - rewrite Z.shiftl_mul_pow2, Z.mul_comm by lia. change (2 ^ 1)%Z with 2%Z.
    destruct (vlq_exists (2 * Z.of_nat (length b))) as [bs Hbs]; [lia|].
    destruct (encode_vlq_ok _ _ buf Hbs Hb) as (buf1 & E1 & Hb1).
    destruct (IH ((out ++ bs) ++ b) buf1 Hf' Hb1) as (es & buf2 & Hes & E2).
    exists ((bs ++ b) :: es), buf2. split; [constructor; [by apply entry_bytes|done]|].
    rewrite E1. run_steps. rewrite E2. simpl. by rewrite !app_assoc.
Qed.

Lemma encode_blobs_ok blobs :
  fits blobs ->
  exists idx out, build_idx blobs = Ret idx /\ encodes idx blobs out
    /\ encode_blobs blobs = Ret (out, length idx).
Proof.
  intros [Hn Hf]. destruct (build_idx_ok blobs) as (idx & E & Hd & Hin & _).
  assert (length idx <= length blobs) as Hlen.
  { apply NoDup_length_le; [done|]. intros x [_ Hx]%Hin. by apply occurrences_two. }
  destruct (vlq_exists (Z.of_nat (length idx))) as [hdr Hh]; [lia|].
  destruct (encode_vlq_ok _ _ (replicate 4 Byte.x00) Hh) as (buf1 & E1 & Hb1); [done|].
  destruct (write_idx_ok idx ([] ++ hdr) buf1) as (ies & buf2 & Hies & Hb2 & E2);
    [|done|].
  { apply Forall_forall. intros e [_ He%occurrences_two]%Hin.
    pose proof (proj1 (Forall_forall _ _) Hf e He) as Hle. simpl in Hle. lia. }
  destruct (write_blobs_ok idx blobs (([] ++ hdr) ++ concat ies) buf2)
    as (es & buf3 & Hes & E3); [done|lia|done|done|].
  exists idx, (hdr ++ concat ies ++ concat es). split_and!; [done| |].
  - by exists hdr, ies, es.
  - unfold encode_blobs. rewrite E. run_steps. rewrite E1. run_steps.
    rewrite E2. run_steps. rewrite E3. run_steps. by rewrite <- app_assoc.
Qed.

(** ** Decoding *)

Lemma slice_middle {A} (pre b rest : list A) :
  slice (pre ++ b ++ rest) (length pre) (length pre + length b) = Ret b.
Proof.
  rewrite slice_ok by len. f_equal. rewrite drop_app_length.
  apply take_app_length'. lia.
Qed.

Lemma read_dedup_ok idx ies pre rest :
  Forall2 idx_entry idx ies ->
  read_dedup (pre ++ concat ies ++ rest) (length idx) (length pre)
  = Ret (idx, length pre + length (concat ies)).
Proof.
  intros H. revert pre. induction H as [|e ie idx ies He H IH]; intros pre.
  { simpl. by rewrite Nat.add_0_r. }
  destruct He as [bs Hbs]. cbn [read_dedup length concat]. rewrite <- !app_assoc.
  rewrite (read_vlq_ok _ _ _ _ Hbs). cbn [unwrap]. rewrite bind_Ret, Nat2Z.id.
  cbv zeta. rewrite (app_assoc pre bs), <- length_app, slice_middle, bind_Ret.
  rewrite (app_assoc (pre ++ bs) e), <- length_app, IH, bind_Ret.
  do 2 f_equal. rewrite !length_app. lia.
Qed.

Lemma new_body idx hdr ies body :
  vlq (Z.of_nat (length idx)) hdr -> Forall2 idx_entry idx ies ->
  new (hdr ++ concat ies ++ body) = Ret (Ok (mkBlobIterator body idx 0)).
Proof.
  intros Hh Hies. unfold new. rewrite (read_vlq_at_0 _ _ _ Hh). cbn [try_]. run_steps.
  rewrite Nat2Z.id, (read_dedup_ok _ _ hdr _ Hies), bind_Ret.
  rewrite slice_from_ok by len. run_steps. by rewrite drop_app_add, drop_app_length.
Qed.

Lemma new_ok idx blobs bytes :
  encodes idx blobs bytes ->
  exists es, Forall2 (entry idx) blobs es
    /\ new bytes = Ret (Ok (mkBlobIterator (concat es) idx 0)).
Proof.
  intros (hdr & ies & es & Hh & Hies & Hes & ->). exists es. split; [done|]. by apply new_body.
Qed.

Lemma land_1 v : Z.land v 1 = (v mod 2)%Z.
Proof. change 1%Z with (Z.ones 1) at 1. by rewrite Z.land_ones. Qed.

Lemma even_flag n :
  (0 <= n)%Z -> Z.land (2 * n) 1 = 0%Z /\ Z.shiftr (2 * n) 1 = n.
Proof.
  intros. rewrite land_1, Z.shiftr_div_pow2 by lia.
  rewrite Z.mul_comm. split; [by rewrite Z.mod_mul|by rewrite Z.div_mul].
Qed.

Lemma odd_flag n :
  (0 <= n)%Z -> Z.land (2 * n + 1) 1 = 1%Z /\ Z.shiftr (2 * n + 1) 1 = n.
Proof.
  intros. rewrite land_1, Z.shiftr_div_pow2 by lia.
  change (2 ^ 1)%Z with 2%Z. rewrite (Z.mul_comm 2), Z.add_comm.
  rewrite Z.mod_add, Z.div_add by lia. split; [done|]. 
  by rewrite Z.div_small.
Qed.

Lemma entry_nonempty idx b e : entry idx b e -> e <> [].
Proof.
  intros [bs Hv|i bs _ Hv]; apply vlq_bounds in Hv as [_ Hl];
    intros E; apply (f_equal length) in E; simpl in E; rewrite ?length_app in E; lia.
Qed.

Lemma read_ok idx b e pre rest :
  entry idx b e ->
  read (mkBlobIterator (pre ++ e ++ rest) idx (length pre))
  = Ret (Ok b, mkBlobIterator (pre ++ e ++ rest) idx (length pre + length e)).
Proof.
  intros [bs Hv|i bs Hi Hv]; unfold read; cbn [data dedup pos].
  - rewrite <- app_assoc, (read_vlq_ok _ _ _ _ Hv). cbn [unwrap]. rewrite bind_Ret.
    destruct (even_flag (Z.of_nat (length b))) as [-> ->]; [lia|]. cbn [data dedup pos].
    rewrite Nat2Z.id. simpl negb. cbv iota zeta. do 2 f_equal; [|f_equal; len].
    rewrite slice_get_ok by len.
    rewrite (app_assoc pre bs), <- length_app, drop_app_length.
    rewrite take_app_length' by lia. done.
  - rewrite (read_vlq_ok _ _ _ _ Hv). cbn [unwrap]. rewrite bind_Ret.
    destruct (odd_flag (Z.of_nat i)) as [-> ->]; [lia|]. cbn [data dedup pos].
    rewrite Nat2Z.id. simpl negb. cbv iota zeta.
    rewrite (proj2 (Nat.leb_gt _ _)) by (by eapply lookup_lt_Some).
    by rewrite (index_Some _ _ _ Hi).
Qed.

Lemma next_ok idx b e pre rest :
  entry idx b e ->
  next (mkBlobIterator (pre ++ e ++ rest) idx (length pre))
  = Ret (Some (Ok b), mkBlobIterator (pre ++ e ++ rest) idx (length pre + length e)).
Proof.
  intros He. unfold next. cbn [pos data].
  pose proof (entry_nonempty _ _ _ He) as Hne.
  rewrite (proj2 (Nat.ltb_lt _ _)) by (destruct e; [done|len]).
  by rewrite (read_ok _ _ _ _ _ He), bind_Ret.
Qed.

Lemma next_end d idx : next (mkBlobIterator d idx (length d))
  = Ret (None, mkBlobIterator d idx (length d)).
Proof. unfold next. cbn [pos data]. by rewrite Nat.ltb_irrefl. Qed.

Lemma drain_ok idx blobs es pre :
  Forall2 (entry idx) blobs es ->
  drain next (S (length blobs))
    (mkBlobIterator (pre ++ concat es) idx (length pre))
  = Ret (Some (List.map Ok blobs)).
Proof.
  intros H. revert pre. induction H as [|b e blobs es He H IH]; intros pre.
  - simpl. rewrite app_nil_r, next_end. done.
  - cbn [length]. cbn [drain]. cbn [concat]. rewrite (next_ok _ _ _ _ _ He), bind_Ret.
    rewrite app_assoc, <- length_app. cbn [drain length] in IH. rewrite IH. done.
Qed.

(** More fuel changes nothing for an iterator that ended, and each entry has a byte. *)
Lemma drain_mono {A I} (step : I -> run (option A * I)) n m it l :
  n <= m -> drain step n it = Ret (Some l) -> drain step m it = Ret (Some l).
Proof.
  revert m it l. induction n as [|n IH]; intros m it l Hm Hd; [done|].
  destruct m as [|m]; [lia|]. cbn [drain] in *.
  destruct (step it) as [[[a|] it']| |]; simpl in *; [|done..].
  destruct (drain step n it') as [[l'|]| |] eqn:E; simplify_eq/=.
  by rewrite (IH m it' l') by (done || lia).
Qed.

Lemma entries_length idx blobs es :
  Forall2 (entry idx) blobs es -> length blobs <= length (concat es).
Proof.
  induction 1 as [|b e blobs es He _ IH]; simpl; [lia|].
  rewrite length_app. pose proof (entry_nonempty _ _ _ He). destruct e; [done|]. simpl. lia.
Qed.

(** ** What any bytes decode to *)

(** How an iteration ends: at the end of the data, with an error, with a panic. *)
Inductive Ending : Set :=
  | Ended
  | Failed (err : Error)
  | Panicked.

(** [decodes idx bytes blobs r]: the bytes after the index [idx] are the entries of
    [blobs], and then [r]: nothing more; a reference outside of the index; a length of
    more bytes than there are; or bytes that do not begin with a quantity. *)
Inductive decodes (idx : list (list u8)) : list u8 -> list (list u8) -> Ending -> Prop :=
  | decodes_end : decodes idx [] [] Ended
  | decodes_blob b e rest blobs r :
      entry idx b e -> decodes idx rest blobs r -> decodes idx (e ++ rest) (b :: blobs) r
  | decodes_bad_ref i bs rest :
      vlq (2 * Z.of_nat i + 1) bs -> length idx <= i ->
      decodes idx (bs ++ rest) [] (Failed InvalidIndex)
  | decodes_short n bs rest :
      vlq (2 * Z.of_nat n) bs -> length rest < n ->
      decodes idx (bs ++ rest) [] (Failed UnexpectedEnd)
  | decodes_no_vlq bytes :
      bytes <> [] -> (forall v bs rest, vlq v bs -> bytes <> bs ++ rest) ->
      decodes idx bytes [] Panicked.

(** The first [n] calls of [next]. *)
Fixpoint nexts (n : nat) (it : BlobIterator) :
    run (list (option (result (list u8) Error)) * BlobIterator) :=
  match n with
  | 0 => Ret ([], it)
  | S n =>
      let! (o, it) := next it in
      let! (os, it) := nexts n it in
      Ret (o :: os, it)
  end.

(** The call of [next] after the last blob, and all the items of the iteration. *)
Definition last_next (r : Ending) (it : BlobIterator) :
    run (option (result (list u8) Error) * BlobIterator) :=
  match r with
  | Ended => Ret (None, it)
  | Failed err => Ret (Some (Err err), error_block it)
  | Panicked => Panic
  end.

Definition all_items (blobs : list (list u8)) (r : Ending) :
    run (option (list (result (list u8) Error))) :=
  match r with
  | Ended => Ret (Some (List.map Ok blobs))
  | Failed err => Ret (Some (List.map Ok blobs ++ [Err err]))
  | Panicked => Panic
  end.

(** [read_vlq] refuses bytes that do not begin with a quantity. *)
Lemma read_vlq_no data pos :
  (forall v bs rest, vlq v bs -> drop pos data <> bs ++ rest) ->
  exists err p, read_vlq data pos = (Err err, p).
Proof.
  intros Hno. destruct (read_vlq data pos) as [[v|err] p] eqn:E; [|by eauto].
  destruct (read_vlq_inv _ _ _ _ E) as (bs & rest & Hd & Hv & _). by destruct (Hno v bs rest Hv).
Qed.

Lemma vlq_nonempty v bs : vlq v bs -> 0 < length bs.
Proof. intros Hv. apply vlq_bounds in Hv. lia. Qed.

Section last.
Context (idx : list (list u8)) (pre rest : list u8).

Lemma next_bad_ref i bs :
  vlq (2 * Z.of_nat i + 1) bs -> length idx <= i ->
  next (mkBlobIterator (pre ++ bs ++ rest) idx (length pre))
  = Ret (Some (Err InvalidIndex),
         error_block (mkBlobIterator (pre ++ bs ++ rest) idx (length pre))).
Proof.
  intros Hv Hi. pose proof (vlq_nonempty _ _ Hv). unfold next. cbn [pos data].
  rewrite (proj2 (Nat.ltb_lt _ _)) by len. unfold read. cbn [pos data dedup].
  rewrite (read_vlq_ok _ _ _ _ Hv). cbn [unwrap]. rewrite bind_Ret.
  destruct (odd_flag (Z.of_nat i)) as [-> ->]; [lia|]. rewrite Nat2Z.id.
  simpl negb. cbn [dedup]. by rewrite (proj2 (Nat.leb_le _ _)).
Qed.

Lemma next_short n bs :
  vlq (2 * Z.of_nat n) bs -> length rest < n ->
  next (mkBlobIterator (pre ++ bs ++ rest) idx (length pre))
  = Ret (Some (Err UnexpectedEnd),
         error_block (mkBlobIterator (pre ++ bs ++ rest) idx (length pre))).
Proof.
  intros Hv Hn. pose proof (vlq_nonempty _ _ Hv). unfold next. cbn [pos data].
  rewrite (proj2 (Nat.ltb_lt _ _)) by len. unfold read. cbn [pos data dedup].
  rewrite (read_vlq_ok _ _ _ _ Hv). cbn [unwrap]. rewrite bind_Ret.
  destruct (even_flag (Z.of_nat n)) as [-> ->]; [lia|]. rewrite Nat2Z.id.
  simpl negb. cbn [data dedup pos]. cbv zeta. unfold slice_get.
  rewrite (proj2 (Nat.leb_gt _ (length (pre ++ bs ++ rest)))) by len.
  by rewrite andb_false_r.
Qed.

Lemma next_no_vlq :
  rest <> [] -> (forall v bs tl, vlq v bs -> rest <> bs ++ tl) ->
  next (mkBlobIterator (pre ++ rest) idx (length pre)) = Panic.
Proof.
  intros Hr Hno. unfold next. cbn [pos data].
  rewrite (proj2 (Nat.ltb_lt _ _)) by (destruct rest; [done|len]).
  unfold read. cbn [pos data].
  destruct (read_vlq_no (pre ++ rest) (length pre)) as (err & p & ->); [|done].
  rewrite drop_app_length. done.
Qed.
End last.

(** An iterator gives what its bytes decode to. *)
Lemma decodes_ok idx bytes blobs r pre :
  decodes idx bytes blobs r ->
  let it := mkBlobIterator (pre ++ bytes) idx (length pre) in
  length blobs <= length bytes
  /\ (exists it', nexts (length blobs) it = Ret (List.map (fun b => Some (Ok b)) blobs, it')
       /\ next it' = last_next r it')
  /\ forall fuel, length bytes < fuel -> drain next fuel it = all_items blobs r.
Proof.
  intros H. revert pre. cbv zeta.
  induction H as [|b e rest blobs r He H IH|i bs rest Hv Hi|n bs rest Hv Hn|bytes Hb Hno]; intros pre.
  - rewrite app_nil_r. split_and!; [simpl; lia| |].
    + eexists. split; [done|]. by rewrite next_end.
    + intros [|fuel] Hf; [lia|]. cbn [drain]. by rewrite next_end.
  - pose proof (entry_nonempty _ _ _ He) as Hne. assert (0 < length e) by (destruct e; [done|simpl; lia]).
    specialize (IH (pre ++ e)). rewrite <- app_assoc, length_app in IH.
    destruct IH as (Hl & (it' & E & El) & Hd). cbn [length nexts].
    rewrite (next_ok _ _ _ _ _ He), bind_Ret, E, bind_Ret. split_and!; [rewrite length_app; lia|eauto|].
    intros [|fuel] Hf; [lia|]. rewrite length_app in Hf. cbn [drain].
    rewrite (next_ok _ _ _ _ _ He), bind_Ret, Hd by lia. by destruct r.
  - split_and!; [simpl; lia| |].
    + eexists. split; [done|]. by apply (next_bad_ref _ _ _ i).
    + intros fuel Hf. pose proof (vlq_nonempty _ _ Hv). rewrite length_app in Hf.
      destruct fuel as [|[|fuel]]; [lia..|]. cbn [drain].
      rewrite (next_bad_ref _ _ _ i) by done. unfold error_block. cbn [data dedup].
      by rewrite bind_Ret, next_end.
  - split_and!; [simpl; lia| |].
    + eexists. split; [done|]. by apply (next_short _ _ _ n).
    + intros fuel Hf. pose proof (vlq_nonempty _ _ Hv). rewrite length_app in Hf.
      destruct fuel as [|[|fuel]]; [lia..|]. cbn [drain].
      rewrite (next_short _ _ _ n) by done. unfold error_block. cbn [data dedup].
      by rewrite bind_Ret, next_end.
  - split_and!; [simpl; lia| |].
    + eexists. split; [done|]. by apply next_no_vlq.
    + intros [|fuel] Hf; [lia|]. cbn [drain]. by rewrite next_no_vlq.
Qed.

(** All bytes decode to something. *)
Lemma decodes_total idx bytes : exists blobs r, decodes idx bytes blobs r.
Proof.
  induction bytes as [bytes IH] using (induction_ltof1 _ (@length u8)).
  destruct (decide (bytes = [])) as [->|Hb]; [by eexists _, _; constructor|].
  destruct (read_vlq bytes 0) as [[v|err] p] eqn:E.
  2:{ eexists _, _. apply decodes_no_vlq; [done|]. intros v bs rest Hv ->.
      by rewrite (read_vlq_at_0 _ _ _ Hv) in E. }
  destruct (read_vlq_at_0_inv _ _ _ E) as (bs & rest & -> & Hv & _). clear E.
  pose proof (vlq_nonempty _ _ Hv). pose proof (vlq_bounds _ _ Hv) as [Hv0 _].
  destruct (Z.Even_or_Odd v) as [[k ->]|[k ->]];
    (destruct (Z_of_nat_complete k) as [n ->]; [lia|]).
  - destruct (decide (length rest < n)); [by eexists _, _; apply (decodes_short _ n)|].
    destruct (IH (drop n rest)) as (blobs & r & Hr); [unfold ltof; len|].
    exists (take n rest :: blobs), r.
    rewrite <- (take_drop n rest) at 1. rewrite app_assoc. constructor; [|done].
    apply entry_bytes. by rewrite length_take, Nat.min_l by lia.
  - destruct (idx !! n) as [b|] eqn:Hn.
    + destruct (IH rest) as (blobs & r & Hr); [unfold ltof; len|].
      exists (b :: blobs), r. constructor; [|done]. by apply (entry_ref _ _ n).
    + eexists _, _. apply (decodes_bad_ref _ n); [done|]. by apply lookup_ge_None.
Qed.

(** ** What [new] reads *)

Lemma read_dedup_inv data n pos idx pos' :
  read_dedup data n pos = Ret (idx, pos') -> pos <= length data ->
  exists ies, length idx = n /\ Forall2 idx_entry idx ies
    /\ drop pos data = concat ies ++ drop pos' data /\ pos' <= length data.
Proof.
  revert pos idx pos'. induction n as [|n IH]; intros pos idx pos' H Hp.
  { injection H as <- <-. by exists []. }
  cbn [read_dedup] in H.
  destruct (read_vlq data pos) as [r p] eqn:E.
  apply bind_Ret_inv in H as (v & Hr & H). destruct r; [|done]. injection Hr as ->.
  destruct (read_vlq_inv _ _ _ _ E) as (bs & rest & Hd & Hv & ->).
  apply bind_Ret_inv in H as (e & He & H).
  apply bind_Ret_inv in H as ([es q] & Hes & H). injection H as <- <-.
  unfold slice in He. destruct (_ && _) eqn:Eb in He; [|done]. injection He as <-.
  apply andb_true_iff in Eb as [_ Eb%Nat.leb_le].
  destruct (IH _ _ _ Hes Eb) as (ies & Hl & Hies & Hdr & Hq).
  pose proof (vlq_bounds _ _ Hv) as [Hvr _].
  set (k := Z.to_nat v) in *.
  replace (pos + length bs + k - (pos + length bs)) with k in * by lia.
  assert (drop (pos + length bs) data = rest) as Hrest.
  { rewrite <- drop_drop, Hd. apply drop_app_length. }
  assert (length (take k rest) = k) as Hk by (rewrite length_take, <- Hrest, length_drop; lia).
  rewrite Hrest. exists ((bs ++ take k rest) :: ies). split_and!; [simpl; lia| | |done].
  - constructor; [|done]. constructor. rewrite Hk. unfold k. by rewrite Z2Nat.id by lia.
  - cbn [concat]. rewrite Hd, <- !app_assoc, <- Hdr, <- drop_drop, Hrest. by rewrite take_drop.
Qed.

Lemma new_inv bytes it :
  new bytes = Ret (Ok it) ->
  pos it = 0 /\ exists hdr ies, vlq (Z.of_nat (length (dedup it))) hdr
    /\ Forall2 idx_entry (dedup it) ies /\ bytes = hdr ++ concat ies ++ data it.
Proof.
  unfold new. destruct (read_vlq bytes 0) as [[v|] p] eqn:E; [|done]. run_steps.
  intros H. apply bind_Ret_inv in H as ([idx q] & Hd & H).
  apply bind_Ret_inv in H as (rest & Hs & H). injection H as <-. cbn [pos dedup data].
  split; [done|]. destruct (read_vlq_at_0_inv _ _ _ E) as (hdr & tl & -> & Hv & ->).
  destruct (read_dedup_inv _ _ _ _ _ Hd) as (ies & Hl & Hies & Hdr & Hq); [len|].
  exists hdr, ies. pose proof (vlq_bounds _ _ Hv) as [Hvr _].
  split_and!; [by rewrite Hl, Z2Nat.id by lia|done|].
  rewrite slice_from_ok in Hs by done. injection Hs as <-.
  by rewrite <- Hdr, drop_app_length.
Qed.

(** ** Data that is cut *)

(** Filling the index from data that ends inside of it panics. *)
Lemma read_dedup_cut idx ies pre k :
  Forall2 idx_entry idx ies -> k < length (concat ies) ->
  read_dedup (pre ++ take k (concat ies)) (length idx) (length pre) = Panic.
Proof.
  intros H. revert pre k. induction H as [|e ie idx ies He H IH]; intros pre k Hk; [simpl in Hk; lia|].
  destruct He as [bs Hbs]. cbn [read_dedup length concat] in *.
  rewrite <- app_assoc in *. rewrite !length_app in Hk.
  destruct (decide (k < length bs)) as [Hkb|Hkb].
  - destruct (read_vlq_no (pre ++ take k (bs ++ e ++ concat ies)) (length pre)) as (err & p & ->);
      [|done].
    intros v bs' rest Hv'. rewrite drop_app_length, take_app_le by lia. by eapply vlq_cut_no.
  - rewrite take_app_ge by lia. rewrite (read_vlq_ok _ _ _ _ Hbs). cbn [unwrap].
    rewrite bind_Ret, Nat2Z.id. cbv zeta. destruct (decide (k - length bs < length e)) as [Hke|Hke].
    + unfold slice. rewrite (proj2 (Nat.leb_gt _ (length (pre ++ _)))); [by rewrite andb_false_r|].
      rewrite !length_app, length_take, length_app. lia.
    + rewrite take_app_ge by lia. rewrite (app_assoc pre bs), <- length_app, slice_middle, bind_Ret.
      rewrite (app_assoc (pre ++ bs) e), <- length_app, IH; [done|lia].
Qed.

(** An entry of which bytes are missing, after its quantity or inside of it. *)
Lemma decodes_cut idx b e j v bs tl :
  entry idx b e -> 0 < j < length e -> e = bs ++ tl -> vlq v bs ->
  decodes idx (take j e) [] (if j <? length bs then Panicked else Failed UnexpectedEnd).
Proof.
  intros He Hj -> Hv. destruct (Nat.ltb_spec j (length bs)) as [Hjb|Hjb].
  - rewrite take_app_le by lia. apply decodes_no_vlq.
    + intros E. apply (f_equal length) in E. rewrite length_take in E. simpl in E. lia.
    + intros v' bs' rest Hv'. by eapply vlq_cut_no.
  - rewrite take_app_ge by lia.
    assert (forall w bs', vlq w bs' -> forall tl', bs' ++ tl' = bs ++ tl -> w = v /\ bs' = bs) as Hu.
    { intros w bs' Hw tl' E. pose proof (read_vlq_at_0 _ _ tl' Hw) as E1.
      rewrite E, (read_vlq_at_0 _ _ tl Hv) in E1. injection E1 as <- Hl.
      split; [done|]. by eapply vlq_fun. }
    remember (bs ++ tl) as e eqn:E. destruct He as [bs' Hv'|i bs' Hi Hv'].
    + destruct (Hu _ _ Hv' _ eq_refl) as [<- ->]. apply app_inv_head in E as ->.
      apply (decodes_short _ (length tl)); [done|]. rewrite length_take. rewrite length_app in Hj. lia.
    + destruct (Hu _ _ Hv' [] (app_nil_r _)) as [_ ->]. lia.
Qed.

Lemma decodes_app idx blobs es rest blobs' r :
  Forall2 (entry idx) blobs es -> decodes idx rest blobs' r ->
  decodes idx (concat es ++ rest) (blobs ++ blobs') r.
Proof.
  intros H Hr. induction H as [|b e blobs es He _ IH]; [done|].
  cbn [concat app]. rewrite <- app_assoc. by constructor.
Qed.

(** ** [BlobNIterator] *)

Lemma next_n_loop_ok idx bs es pre tl i res :
  Forall2 (entry idx) bs es ->
  next_n_loop (length bs) i res
    (mkBlobIterator (pre ++ concat es ++ tl) idx (length pre))
  = Ret (Some (Ok (res ++ bs)),
      mkBlobIterator (pre ++ concat es ++ tl) idx (length pre + length (concat es))).
Proof.
  intros H. revert pre i res. induction H as [|b e bs es He H IH]; intros pre i res.
  { simpl. by rewrite app_nil_r, Nat.add_0_r. }
  cbn [length next_n_loop concat]. rewrite <- !app_assoc.
  rewrite (next_ok _ _ _ _ _ He), bind_Ret. rewrite (app_assoc pre), <- length_app.
  rewrite IH, <- app_assoc. do 3 f_equal. rewrite !length_app. lia.
Qed.

Lemma next_n_loop_short idx bs es pre n i res :
  Forall2 (entry idx) bs es -> length bs < n -> (bs <> [] \/ i <> 0) ->
  next_n_loop n i res (mkBlobIterator (pre ++ concat es) idx (length pre))
  = Ret (Some (Err NotEnoughElements),
      mkBlobIterator (pre ++ concat es) idx (length (pre ++ concat es))).
Proof.
  intros H. revert pre n i res. induction H as [|b e bs es He H IH]; intros pre n i res Hn Hi;
    destruct n as [|n]; try (simpl in Hn; lia); cbn [next_n_loop concat].
  - rewrite app_nil_r, next_end, bind_Ret.
    destruct Hi as [|Hi]; [done|]. by rewrite (proj2 (Nat.eqb_neq _ _) Hi).
  - rewrite (next_ok _ _ _ _ _ He), bind_Ret. rewrite (app_assoc pre), <- length_app.
    rewrite IH; [done|simpl in Hn; lia|right; lia].
Qed.

Lemma drain_n_ok n idx k blobs es pre r :
  0 < n -> Forall2 (entry idx) blobs es -> length blobs = k * n + r -> r < n ->
  drain (next_n n) (k + 2) (mkBlobIterator (pre ++ concat es) idx (length pre))
  = Ret (Some (List.map Ok (chunks n k blobs)
               ++ (if r =? 0 then [] else [Err NotEnoughElements]))).
Proof.
  intros Hn. revert blobs es pre. induction k as [|k IH]; intros blobs es pre H Hl Hr.
  - cbn [Nat.add drain]. unfold next_n.
    destruct (Nat.eqb_spec r 0) as [->|Hr0].
    + destruct blobs; [|done]. inversion H; subst. destruct n; [lia|].
      cbn [next_n_loop concat]. rewrite app_nil_r, next_end. done.
    + rewrite (next_n_loop_short idx blobs) by (done || lia || (left; by intros ->)).
      rewrite bind_Ret. destruct n; [lia|]. cbn [next_n_loop]. by rewrite next_end.
  - apply Forall2_length in H as Hle.
    rewrite <- (take_drop n blobs), <- (take_drop n es) in H.
    apply Forall2_app_inv in H as [H1 H2]; [|rewrite !length_take; lia].
    rewrite <- (take_drop n es), concat_app.
    assert (length (take n blobs) = n) as Hln by (rewrite length_take; lia).
    pose proof (next_n_loop_ok _ _ _ pre (concat (drop n es)) 0 [] H1) as E.
    rewrite Hln in E. fold (next_n n (mkBlobIterator
      (pre ++ concat (take n es) ++ concat (drop n es)) idx (length pre))) in E.
    cbn [Nat.add drain]. rewrite E, bind_Ret.
    rewrite (app_assoc pre), <- length_app, (IH (drop n blobs)); [done|done|rewrite length_drop; lia|done].
Qed.

(** ** Properties *)

(** C4. Encoding then decoding: any blobs that the four-byte quantities can
    count are encoded without panic, and an iterator on the bytes gives exactly
    these blobs, in order, then [None]; the index the encoder reports is the
    index the decoder reads. *)
Theorem blobs_roundtrip blobs :
  fits blobs ->
  exists out n it, encode_blobs blobs = Ret (out, n)
    /\ new out = Ret (Ok it) /\ length (dedup it) = n
    /\ drain next (S (length blobs)) it = Ret (Some (List.map Ok blobs)).
Proof.
  intros Hf. destruct (encode_blobs_ok blobs Hf) as (idx & out & _ & He & Eo).
  destruct (new_ok _ _ _ He) as (es & Hes & En).
  exists out, (length idx), (mkBlobIterator (concat es) idx 0). split_and!; [done..|]. by apply (drain_ok idx blobs es []).
Qed.

Lemma blobs_roundtrip_witness :
  exists out n it, encode_blobs doc_blobs = Ret (out, n)
    /\ new out = Ret (Ok it) /\ length (dedup it) = n
    /\ drain next 9 it = Ret (Some (List.map Ok doc_blobs)).
Proof.
  apply (blobs_roundtrip doc_blobs). split; [done|by repeat constructor].
Defined.

(** C11. The variable-length quantities are a bijection between the values up to
    270549119 and the codes of one to four bytes: such a value has a code that
    [encode_vlq] writes and [read_vlq], at that position of any data, reads back,
    moving past it; a larger value panics; and whatever [read_vlq] accepts is
    the code [encode_vlq] gives for the value. *)
Theorem vlq_roundtrip v buf :
  length buf = 4 ->
  ((0 <= v <= VLQ_MAX)%Z -> exists buf' bs, encode_vlq v buf = Ret (buf', bs)
     /\ 1 <= length bs <= 4
     /\ forall pre rest, read_vlq (pre ++ bs ++ rest) (length pre)
                         = (Ok v, length pre + length bs))
  /\ ((VLQ_MAX < v)%Z -> encode_vlq v buf = Panic)
  /\ (forall data pos n, read_vlq data pos = (Ok v, n) -> pos <= length data ->
        exists buf' bs rest, encode_vlq v buf = Ret (buf', bs)
          /\ drop pos data = bs ++ rest /\ n = pos + length bs).
Proof.
  intros Hb. split_and!.
  - intros Hv. destruct (vlq_exists v Hv) as [bs Hbs].
    destruct (encode_vlq_ok v bs buf Hbs Hb) as (buf' & E & _).
    exists buf', bs. split; [done|]. split; [by apply vlq_bounds in Hbs as [_ ?]|].
    intros. by apply read_vlq_ok.
  - intros. by apply encode_vlq_big.
  - intros data pos n H _. destruct (read_vlq_inv _ _ _ _ H) as (bs & rest & Hd & Hv & ->).
    destruct (encode_vlq_ok v bs buf Hv Hb) as (buf' & E & _). eauto 10.
Qed.

Lemma vlq_roundtrip_witness :
  exists buf' bs, encode_vlq 16511 (replicate 4 Byte.x00) = Ret (buf', bs)
     /\ 1 <= length bs <= 4
     /\ forall pre rest, read_vlq (pre ++ bs ++ rest) (length pre)
                         = (Ok 16511%Z, length pre + length bs).
Proof.
  apply (proj1 (vlq_roundtrip 16511 (replicate 4 Byte.x00) eq_refl)).
  split; vm_compute; discriminate.
Defined.

(** C30. The index that the encoder builds: the nonempty blobs that occur more
    than once, each once, in decreasing order of rank and number of
    occurrences, the one-byte blobs [0] and [1] first; so that the most
    frequent blobs have the shortest references. *)
Theorem build_idx_correct blobs :
  exists idx, build_idx blobs = Ret idx /\ NoDup idx
    /\ (forall e, e ∈ idx <-> e <> [] /\ 1 < occurrences e blobs)
    /\ StronglySorted (fun a b => key_le (idx_key blobs b) (idx_key blobs a)) idx.
Proof. apply build_idx_ok. Qed.

(** C20. An iterator on any bytes that [new] accepts: these are the count and the
    entries of an index, then the body; the iteration gives one blob for each entry of
    the body, and then exactly what the format says ([decodes], which every body has):
    [None] at its end, [InvalidIndex] for a reference outside of the index and
    [UnexpectedEnd] for a blob of more bytes than there are, both followed by [None],
    and a panic exactly where the next bytes are not a quantity. It has at most as
    many blobs as there are bytes, and so ends. *)
Theorem iterator_sound bytes it :
  new bytes = Ret (Ok it) ->
  (exists hdr ies, vlq (Z.of_nat (length (dedup it))) hdr
     /\ Forall2 idx_entry (dedup it) ies /\ bytes = hdr ++ concat ies ++ data it)
  /\ exists blobs r, decodes (dedup it) (data it) blobs r
     /\ length blobs <= length (data it)
     /\ (exists it', nexts (length blobs) it = Ret (List.map (fun b => Some (Ok b)) blobs, it')
          /\ next it' = last_next r it')
     /\ forall fuel, length (data it) < fuel -> drain next fuel it = all_items blobs r.
Proof.
  intros Hn. destruct (new_inv _ _ Hn) as (Hp & Hi). split; [done|].
  destruct (decodes_total (dedup it) (data it)) as (blobs & r & Hd).
  exists blobs, r. split; [done|]. pose proof (decodes_ok _ _ _ _ [] Hd) as H.
  simpl in H. by rewrite <- Hp in H; destruct it.
Qed.

(** A blob, and then a reference to an entry that the index does not have. *)
Lemma iterator_sound_witness :
  exists it blobs r, new [0; 2; 7; 3; 9]%u8 = Ret (Ok it)
  /\ decodes (dedup it) (data it) blobs r
  /\ drain next 5 it = all_items blobs r
  /\ blobs = [[7]%u8] /\ r = Failed InvalidIndex.
Proof.
  destruct (iterator_sound [0; 2; 7; 3; 9]%u8 (mkBlobIterator [2; 7; 3; 9]%u8 [] 0) eq_refl)
    as (_ & blobs & r & Hd & _ & _ & Hi).
  assert (drain next 5 (mkBlobIterator [2; 7; 3; 9]%u8 [] 0) = all_items blobs r) as E
    by (apply Hi; simpl; lia).
  exists (mkBlobIterator [2; 7; 3; 9]%u8 [] 0), blobs, r. do 3 (split; [done|]).
  vm_compute in E. destruct r as [|err|]; [| |done].
  - exfalso. injection E as E. by destruct blobs as [|? [|? [|]]].
  - destruct blobs as [|b [|? [|]]]; simpl in E; try done. by injection E as -> ->.
Defined.

(** C25. [BlobNIterator] for [n > 0] on an encoding of [k * n + r] blobs, with
    [r < n]: it gives the [k] groups of [n] consecutive blobs, then
    [NotEnoughElements] if [r] is not zero, then [None]. *)
Theorem blob_n_iterator_correct n idx blobs bytes k r :
  0 < n -> encodes idx blobs bytes -> length blobs = k * n + r -> r < n ->
  exists it, new_n bytes = Ret (Ok it)
    /\ drain (next_n n) (k + 2) it
       = Ret (Some (List.map Ok (chunks n k blobs)
                    ++ (if r =? 0 then [] else [Err NotEnoughElements]))).
Proof.
  intros Hn He Hl Hr. destruct (new_ok _ _ _ He) as (es & Hes & E).
  eexists. split; [exact E|]. by apply (drain_n_ok n idx k blobs es []).
Qed.

Lemma blob_n_iterator_correct_witness :
  exists it, new_n [0; 2; 7; 2; 8; 2; 9]%u8 = Ret (Ok it)
    /\ drain (next_n 2) 3 it
       = Ret (Some [Ok [[7]; [8]]; Err NotEnoughElements]%u8).
Proof.
  refine (blob_n_iterator_correct 2 [] [[7]; [8]; [9]]%u8 [0; 2; 7; 2; 8; 2; 9]%u8 1 1
            _ _ _ _); [lia| |reflexivity|lia].
  exists [0]%u8, [], [[2; 7]; [2; 8]; [2; 9]]%u8. split_and!; [|done| |done].
  - by apply (vlq1 0).
  - repeat constructor.
    + by apply (entry_bytes [] [7]%u8 [2]%u8), (vlq1 2).
    + by apply (entry_bytes [] [8]%u8 [2]%u8), (vlq1 2).
    + by apply (entry_bytes [] [9]%u8 [2]%u8), (vlq1 2).
Defined.

(** C31. Every way to cut an encoding short. Inside of the count of the index, [new]
    returns [UnexpectedEnd]; anywhere inside of the index, whether in the length of an
    entry, in its bytes or between two of them, [new] panics; inside of the body, the
    iterator gives the blobs before the cut, and then [None] if the cut is between two
    entries, panics if it is inside of the quantity of an entry, and gives
    [UnexpectedEnd] if it is inside of the bytes of a blob. So [UnexpectedEnd] is
    returned for some of the missing ends only, and [new] returns an error for the
    count of the index only. *)
Theorem truncated_data_panics idx blobs hdr ies es :
  vlq (Z.of_nat (length idx)) hdr -> Forall2 idx_entry idx ies ->
  Forall2 (entry idx) blobs es ->
  let bytes := hdr ++ concat ies ++ concat es in
  (forall k, k < length hdr -> new (take k bytes) = Ret (Err UnexpectedEnd))
  /\ (forall k, k < length (concat ies) -> new (take (length hdr + k) bytes) = Panic)
  /\ (forall blobs1 b blobs2 es1 e es2 v bs tl j,
        blobs = blobs1 ++ b :: blobs2 -> es = es1 ++ e :: es2 -> length blobs1 = length es1 ->
        e = bs ++ tl -> vlq v bs -> j < length e ->
        exists it it',
          new (take (length hdr + length (concat ies) + length (concat es1) + j) bytes) = Ret (Ok it)
          /\ nexts (length blobs1) it = Ret (List.map (fun b => Some (Ok b)) blobs1, it')
          /\ next it' = (if j =? 0 then Ret (None, it')
                         else if j <? length bs then Panic
                         else Ret (Some (Err UnexpectedEnd), error_block it')))
  /\ (forall bytes err, new bytes = Ret (Err err) -> exists p, read_vlq bytes 0 = (Err err, p)).
Proof.
  intros Hh Hies Hes bytes. split_and!.
  - intros k Hk. unfold new, bytes. rewrite take_app_le by lia. by rewrite (vlq_cut _ _ _ Hh Hk).
  - intros k Hk. unfold new, bytes.
    rewrite take_app_add, take_app_le by lia. rewrite (read_vlq_at_0 _ _ _ Hh). cbn [try_]. run_steps.
    by rewrite Nat2Z.id, (read_dedup_cut _ _ hdr _ Hies).
  - intros blobs1 b blobs2 es1 e es2 v bs tl j -> -> Hl He Hv Hj.
    apply Forall2_app_inv in Hes as [H1 H2]; [|done].
    apply Forall2_cons in H2 as [Hb _].
    assert (take (length hdr + length (concat ies) + length (concat es1) + j) bytes
      = hdr ++ concat ies ++ concat (es1 ++ [take j e])) as ->.
    { unfold bytes. rewrite <- !Nat.add_assoc, take_app_add, take_app_add, !concat_app, take_app_add.
      simpl. rewrite app_nil_r, take_app_le by lia. done. }
    assert (decodes idx (concat (es1 ++ [take j e])) (blobs1 ++ [])
      (if j =? 0 then Ended else if j <? length bs then Panicked else Failed UnexpectedEnd)) as Hd.
    { rewrite concat_app. simpl. rewrite app_nil_r. apply decodes_app; [done|].
      destruct (Nat.eqb_spec j 0) as [->|Hj0]; [constructor|].
      apply (decodes_cut _ b e j v bs tl); [done|lia|done..]. }
    rewrite app_nil_r in Hd. destruct (decodes_ok _ _ _ _ [] Hd) as (_ & (it' & E & El) & _).
    simpl in E. eexists _, it'. split; [by apply new_body|]. split; [done|].
    rewrite El. by repeat case_match.
  - intros bs err. unfold new. destruct (read_vlq bs 0) as [[v|err'] p]; cbn [try_]; run_steps.
    + destruct (read_dedup _ _ _) as [[? ?]| |]; run_steps; [|done..].
      by destruct (slice_from _ _).
    + intros [= ->]. eauto.
Qed.

(** The index entry [7; 7] and the blobs [5] and [7; 7], which is a reference; then
    a blob of 128 bytes, whose quantity has two. *)
Lemma truncated_data_panics_witness :
  new [1; 2; 7]%u8 = Panic
  /\ exists it it', new ([1; 2; 7; 7; 2; 5; 1; 129]%u8) = Ret (Ok it)
     /\ nexts 2 it = Ret ([Some (Ok [5]%u8); Some (Ok [7; 7]%u8)], it') /\ next it' = Panic.
Proof.
  assert (vlq 1 [1]%u8) as V1 by by apply (vlq1 1).
  assert (vlq 2 [2]%u8) as V2 by by apply (vlq1 2).
  assert (vlq 256 [129; 0]%u8) as V256 by by apply (vlq2 1 0).
  destruct (truncated_data_panics [[7; 7]%u8] [[5]%u8; [7; 7]%u8; replicate 128 0%u8] [1]%u8
    [[2; 7; 7]%u8] [[2; 5]%u8; [1]%u8; [129; 0]%u8 ++ replicate 128 0%u8] V1)
    as (_ & Hi & Hb & _).
  - apply Forall2_cons. split; [by apply (idx_entry_intro [7; 7]%u8 [2]%u8)|constructor].
  - apply Forall2_cons. split; [by apply (entry_bytes _ [5]%u8 [2]%u8)|].
    apply Forall2_cons. split; [by apply (entry_ref _ _ 0)|].
    apply Forall2_cons. split; [|constructor].
    by apply (entry_bytes _ (replicate 128 0%u8) [129; 0]%u8).
  - split; [apply (Hi 2); simpl; lia|].
    exact (Hb [[5]%u8; [7; 7]%u8] (replicate 128 0%u8) [] [[2; 5]%u8; [1]%u8] _ [] 256%Z
             [129; 0]%u8 (replicate 128 0%u8) 1 eq_refl eq_refl eq_refl eq_refl V256
             (proj1 (Nat.ltb_lt 1 130) eq_refl)).
Defined.
