(* ===== verification/BlobbyTests.v ===== *)
(** * The tests of [blobby]

    The unit tests of [blobby/src/lib.rs] on the model of [Blobby.v]. The test that
    encodes and decodes every value is a theorem on all of its 270549120 rounds;
    the other one is run. *)
From stdpp Require Import base numbers list.
From S2P Require Import Prelude Blobby.

(** [for val in 0..=270549119] *)
Definition all_values : list Z := seqZ 0 (270549119 + 1).

(** The body of the loop of [encode_decode]; the test has a copy of [encode_vlq]. *)
Definition encode_decode_round (val : Z) (buf : list u8) : run (list u8) :=
  let! (buf, res) := encode_vlq val buf in
  let! val_res := unwrap (read_vlq res 0).1 in
  let! _ := assert_eq val val_res in
  Ret buf.

(** [fn encode_decode] *)
Definition encode_decode : run unit :=
  let buf := replicate 4 Byte.x00 in
  let! _ := for_in all_values buf encode_decode_round in
  Ret tt.

(** [fn test_vlq] *)
Definition examples : list u8 :=
  [0x00; 0x02; 0x7f; 0x80; 0x00; 0xff; 0x7f; 0x80; 0x80; 0x00; 0xff; 0xff; 0x7f;
   0x80; 0x80; 0x80; 0x00; 0xff; 0xff; 0xff; 0x7f; 0xff; 0xff; 0xff; 0xff; 0x7f]%u8.

Definition targets : list (Z * nat) :=
  [(0%Z, 1); (2%Z, 1); (127%Z, 1); (128%Z, 2); (16511%Z, 2); (16512%Z, 3); (2113663%Z, 3);
   (2113664%Z, 4); (270549119%Z, 4)].

Definition test_vlq_round (target : Z * nat) (st : nat * list u8) : run (nat * list u8) :=
  let (val, size) := target in
  let (pos, buf) := st in
  let prev_pos := pos in
  let (r, pos) := read_vlq examples pos in
  let! _ := assert_eq r (Ok val) in
  let! _ := assert_eq (pos - prev_pos) size in
  let! (buf, res) := encode_vlq val buf in
  let! expected := slice examples prev_pos pos in
  let! _ := assert_eq res expected in
  Ret (pos, buf).

Definition test_vlq : run unit :=
  let! (pos, _) := for_in targets (0, replicate 4 Byte.x00) test_vlq_round in
  let (r, pos) := read_vlq examples pos in
  let! _ := assert_eq r (Err InvalidVlq) in
  assert_eq pos 25.

(** ** They pass *)

Lemma encode_decode_round_ok val buf :
  (0 <= val <= VLQ_MAX)%Z -> length buf = 4 ->
  exists buf', encode_decode_round val buf = Ret buf' /\ length buf' = 4.
Proof.
  intros Hv Hb. destruct (vlq_exists val Hv) as [bs Hbs].
  destruct (encode_vlq_ok val bs buf Hbs Hb) as (buf' & E & Hb'). exists buf'. split; [|done].
  unfold encode_decode_round. rewrite E. simpl.
  pose proof (read_vlq_at_0 _ _ [] Hbs) as Hr. rewrite app_nil_r in Hr. rewrite Hr. simpl.
  unfold assert_eq. by rewrite bool_decide_true.
Qed.

Lemma rounds_ok vals buf :
  Forall (fun val => 0 <= val <= VLQ_MAX)%Z vals -> length buf = 4 ->
  exists buf', for_in vals buf encode_decode_round = Ret buf'.
Proof.
  intros Hv. revert buf. induction Hv as [|val vals Hval Hv IH]; intros buf Hb; simpl; [by eauto|].
  destruct (encode_decode_round_ok val buf Hval Hb) as (buf' & -> & Hb'). by apply IH.
Qed.

Lemma encode_decode_passes : encode_decode = Ret tt.
Proof.
  unfold encode_decode.
  destruct (rounds_ok all_values (replicate 4 Byte.x00)) as (buf & ->); [|done..].
  apply Forall_forall. intros val Hval%elem_of_seqZ. unfold VLQ_MAX. lia.
Qed.

Lemma test_vlq_passes : test_vlq = Ret tt.
Proof. vm_compute. reflexivity. Qed.
