(* ===== verification/Convert.v ===== *)
(** * The conversion utility of [blobby]

    [blobby/examples/convert.rs]: [encode] turns the lines of a text, which are
    blobs in hexadecimal, into the bytes of [encode_blobs], and [decode] prints
    the blobs of such bytes again, on any reader and writer; [main] runs them
    between two files. The lines of a reader and the files are those of the standard
    library. *)
From Stdlib Require Import Strings.String.
From stdpp Require Import base numbers list gmap strings.
From S2P Require Import Prelude HexCrate Blobby.

(** ** What the utility uses *)

(** [io::Error], by its kind: [InvalidData], which the utility makes, or one of
    the system. *)
Inductive IoError : Set :=
  | InvalidData
  | NotFound
  | Os (code : Z).

(** [io::Write]: the writer after the call, and whether all bytes were taken. *)
Class Write (W : Type) := write_all : W -> list u8 -> W * result unit IoError.

(** [io::BufRead]: the bytes that the reader gives, and the error that it gives
    after them, if it does not end. *)
Record Reader := mkReader { content : list u8; failure : option IoError }.

(** Whether bytes are valid UTF-8. *)
Definition cont_byte (c : u8) : bool := in_range c 128 191.

Fixpoint utf8 (s : list u8) : bool :=
  match s with
  | [] => true
  | a :: s1 =>
      if in_range a 0 127 then utf8 s1 else
      match s1 with
      | [] => false
      | b :: s2 =>
          if in_range a 194 223 then cont_byte b && utf8 s2 else
          match s2 with
          | [] => false
          | c :: s3 =>
              if in_range a 224 239 then
                cont_byte b && cont_byte c
                && (if b2n a =? 224 then 160 <=? b2n b else true)
                && (if b2n a =? 237 then b2n b <=? 159 else true)
                && utf8 s3
              else
              match s3 with
              | [] => false
              | d :: s4 =>
                  in_range a 240 244 && cont_byte b && cont_byte c && cont_byte d
                  && (if b2n a =? 240 then 144 <=? b2n b else true)
                  && (if b2n a =? 244 then b2n b <=? 143 else true)
                  && utf8 s4
              end
          end
      end
  end.

Definition to_string (line : list u8) : result (list u8) IoError :=
  if utf8 line then Ok line else Err InvalidData.

(** A line without the carriage return before its newline. *)
Definition strip_cr (line : list u8) : list u8 :=
  match rev line with
  | c :: rest => if bool_decide (c = 13%u8) then rev rest else line
  | [] => line
  end.

(** [BufRead::lines], up to the first error: [line] is what was read of the
    current line. *)
Fixpoint lines_from (line bytes : list u8) (failure : option IoError) :
    list (result (list u8) IoError) :=
  match bytes with
  | [] =>
      match failure with
      | Some e => [Err e]
      | None => match line with [] => [] | _ => [to_string line] end
      end
  | c :: bytes =>
      if bool_decide (c = 10%u8)
      then to_string (strip_cr line) :: lines_from [] bytes failure
      else lines_from (line ++ [c]) bytes failure
  end.
Definition lines (reader : Reader) : list (result (list u8) IoError) :=
  lines_from [] (content reader) (failure reader).

(** [BufRead::read_to_end] *)
Definition read_to_end (reader : Reader) : result (list u8) IoError :=
  match failure reader with Some e => Err e | None => Ok (content reader) end.

(** What is printed to the terminal. *)
Inductive Printed : Set :=
  | IndexLen (idx_len : nat)
  | Processed (records : nat).

(** ** [encode] and [decode] *)

Section convert.
Context `{Hex} {W : Type} `{Write W}.

(** The loop of [encode] over the lines. *)
Fixpoint read_blobs (ls : list (result (list u8) IoError)) (blobs : list (list u8)) :
    result (list (list u8)) IoError :=
  match ls with
  | [] => Ok blobs
  | Err e :: _ => Err e
  | Ok line :: ls =>
      match hex_decode line with
      | Err _ => Err InvalidData
      | Ok blob => read_blobs ls (blobs ++ [blob])
      end
  end.

(** [fn encode] *)
Definition encode (reader : Reader) (writer : W) :
    run (result nat IoError * W * list Printed) :=
  match read_blobs (lines reader) [] with
  | Err e => Ret (Err e, writer, [])
  | Ok blobs =>
      let! (data, idx_len) := encode_blobs blobs in
      let data_len := length data in
      let (writer, r) := write_all writer data in
      Ret (result_map (fun _ => data_len) r, writer, [IndexLen idx_len])
  end.

(** [BlobIterator::collect]: an iterator gives at most an item per byte. *)
Definition collect (it : BlobIterator) : run (list (result (list u8) Error)) :=
  let! res := drain next (S (length (data it))) it in unwrap_option res.

(** The loop of [decode] over the blobs. *)
Fixpoint write_lines (res : list (result (list u8) Error)) (writer : W) :
    result unit IoError * W :=
  match res with
  | [] => (Ok tt, writer)
  | Err e :: _ => (Err InvalidData, writer)
  | Ok blob :: res =>
      match write_all writer (hex_encode blob) with
      | (writer, Err e) => (Err e, writer)
      | (writer, Ok _) =>
          match write_all writer [10%u8] with
          | (writer, Err e) => (Err e, writer)
          | (writer, Ok _) => write_lines res writer
          end
      end
  end.

(** [fn decode] *)
Definition decode (reader : Reader) (writer : W) : run (result nat IoError * W) :=
  match read_to_end reader with
  | Err e => Ret (Err e, writer)
  | Ok data =>
      let! it := new data in
      match it with
      | Err e => Ret (Err InvalidData, writer)
      | Ok it =>
          let! res := collect it in
          let (r, writer) := write_lines res writer in
          Ret (result_map (fun _ => length res) r, writer)
      end
  end.
End convert.

(** ** [main] *)

(** Files are their contents. *)
Abbreviation Files := (gmap string (list u8)).

(** A file that was created for writing, among the files. *)
Record FileWriter := mkFileWriter { written_path : string; files : Files }.

#[export] Instance file_write : Write FileWriter := fun w bytes =>
  (mkFileWriter (written_path w)
     (<[written_path w := default [] (files w !! written_path w) ++ bytes]> (files w)),
   Ok tt).

(** [Box<dyn Error>] *)
Inductive MainError : Set :=
  | UnknownMode
  | Io (e : IoError).

Section main.
(** The files that cannot be created, and why. *)
Context `{Hex} (denied : string -> option IoError).

(** [fn main], on the arguments after the name of the program: the result, the
    files afterwards and what is printed. The output file is created, and emptied
    if it exists, before the input file is read. *)
Definition main (args : list string) (fs : Files) :
    run (result unit MainError * Files * list Printed) :=
  let! mode := index args 0 in
  match (if String.eqb mode "encode" then Some true
         else if String.eqb mode "decode" then Some false else None) with
  | None => Ret (Err UnknownMode, fs, [])
  | Some is_encode =>
      let! in_path := index args 1 in
      let! out_path := index args 2 in
      match fs !! in_path with
      | None => Ret (Err (Io NotFound), fs, [])
      | Some _ =>
          match denied out_path with
          | Some e => Ret (Err (Io e), fs, [])
          | None =>
              let fs := <[out_path := []]> fs in
              let reader := mkReader (default [] (fs !! in_path)) None in
              let writer := mkFileWriter out_path fs in
              let! (n, writer, printed) :=
                if (is_encode : bool) then encode reader writer
                else let! (n, writer) := decode reader writer in Ret (n, writer, []) in
              match n with
              | Err e => Ret (Err (Io e), files writer, printed)
              | Ok n => Ret (Ok tt, files writer, printed ++ [Processed n])
              end
          end
      end
  end.
End main.

(** ** Lines of blobs *)

Section lines.
Context `{HexLaws}.

(** The lines of [text] are valid and denote [blobs]. *)
Definition hex_lines (text : list u8) (blobs : list (list u8)) : Prop :=
  Forall2 (fun line blob => exists l, line = Ok l /\ hex_decode l = Ok blob)
    (lines (mkReader text None)) blobs.

(** The text that [decode] writes. *)
Definition print_blobs (blobs : list (list u8)) : list u8 :=
  concat (List.map (fun b => hex_encode b ++ [10%u8]) blobs).

Lemma read_blobs_app ls blobs acc :
  Forall2 (fun line blob => exists l, line = Ok l /\ hex_decode l = Ok blob) ls blobs ->
  read_blobs ls acc = Ok (acc ++ blobs).
Proof.
  intros Hl. revert acc. induction Hl as [|line blob ls blobs (l & -> & E) Hl IH]; intros acc; simpl.
  - by rewrite app_nil_r.
  - by rewrite E, IH, <- app_assoc.
Qed.

(** Of a file, the lines are refused with [InvalidData] or denote blobs. *)
Lemma to_string_cases line : to_string line = Ok line \/ to_string line = Err InvalidData.
Proof. unfold to_string. destruct (utf8 line); auto. Qed.

Lemma lines_from_errors line bytes :
  Forall (fun r => forall e, r = Err e -> e = InvalidData) (lines_from line bytes None).
Proof.
  assert (forall l e, to_string l = Err e -> e = InvalidData) as Hs.
  { intros l e. destruct (to_string_cases l) as [-> | ->]; congruence. }
  revert line. induction bytes as [|c bytes IH]; intros line; simpl.
  - destruct line; repeat constructor; eauto.
  - case_bool_decide; [constructor; eauto|apply IH].
Qed.

Lemma read_blobs_cases ls acc :
  Forall (fun r => forall e, r = Err e -> e = InvalidData) ls ->
  (exists blobs, Forall2 (fun line blob => exists l, line = Ok l /\ hex_decode l = Ok blob) ls blobs)
  \/ read_blobs ls acc = Err InvalidData.
Proof.
  intros Hl. revert acc. induction Hl as [|r ls Hr Hl IH]; intros acc; simpl.
  { left. by exists []. }
  destruct r as [l|e]; [|right; by rewrite (Hr e eq_refl)].
  destruct (hex_decode l) as [blob|] eqn:E; [|by right].
  destruct (IH (acc ++ [blob])) as [(blobs & Hb)| ->]; [left|by right].
  exists (blob :: blobs). constructor; eauto.
Qed.

(** *** The lines of what is printed *)

Lemma utf8_digits l :
  Forall (fun c => 48 <= b2n c <= 57 \/ 97 <= b2n c <= 102) l -> utf8 l = true.
Proof.
  induction 1 as [|c l Hc Hl IH]; [done|]. cbn [utf8].
  assert (in_range c 0 127 = true) as ->; [|done].
  unfold in_range. apply andb_true_iff. split; apply Nat.leb_le; lia.
Qed.

Lemma lines_from_digits line l bytes failure :
  Forall (fun c => 48 <= b2n c <= 57 \/ 97 <= b2n c <= 102) l ->
  lines_from line (l ++ bytes) failure = lines_from (line ++ l) bytes failure.
Proof.
  intros Hl. revert line. induction Hl as [|c l Hc Hl IH]; intros line; simpl.
  { by rewrite app_nil_r. }
  rewrite bool_decide_false.
  - by rewrite IH, <- app_assoc.
  - intros ->. vm_compute in Hc. lia.
Qed.

Lemma strip_cr_digits l :
  Forall (fun c => 48 <= b2n c <= 57 \/ 97 <= b2n c <= 102) l -> strip_cr l = l.
Proof.
  intros Hl%Forall_rev. unfold strip_cr.
  destruct Hl as [|c k Hc _]; [done|]. rewrite bool_decide_false; [done|].
  intros ->. vm_compute in Hc. lia.
Qed.

Lemma hex_lines_print blobs : hex_lines (print_blobs blobs) blobs.
Proof.
  unfold hex_lines, lines, print_blobs. simpl. induction blobs as [|b blobs IH]; simpl; [constructor|].
  rewrite <- app_assoc, lines_from_digits by apply hex_encode_digits. simpl.
  rewrite strip_cr_digits by apply hex_encode_digits. constructor; [|done].
  unfold to_string. rewrite utf8_digits by apply hex_encode_digits.
  eexists. split; [done|]. apply hex_decode_encode.
Qed.
End lines.

(** ** Files *)

Section run_main.
Context `{Hex} (denied : string -> option IoError).

Lemma write_lines_file blobs path (fs : Files) text :
  write_lines (List.map Ok blobs) (mkFileWriter path (<[path := text]> fs))
  = (Ok tt, mkFileWriter path (<[path := text ++ print_blobs blobs]> fs)).
Proof.
  revert text. induction blobs as [|b blobs IH]; intros text; simpl.
  { by rewrite app_nil_r. }
  rewrite lookup_insert_eq. simpl. rewrite insert_insert_eq, lookup_insert_eq. simpl.
  rewrite insert_insert_eq, IH. unfold print_blobs. simpl. by rewrite <- !app_assoc.
Qed.

Lemma encode_file path (fs : Files) text blobs :
  hex_lines text blobs -> fits blobs ->
  exists idx data, encodes idx blobs data
  /\ encode (mkReader text None) (mkFileWriter path (<[path := []]> fs))
     = Ret (Ok (length data), mkFileWriter path (<[path := data]> fs), [IndexLen (length idx)]).
Proof.
  intros Hl Hf. destruct (encode_blobs_ok blobs Hf) as (idx & data & _ & He & E).
  exists idx, data. split; [done|]. unfold encode.
  rewrite (read_blobs_app _ _ _ Hl). simpl. rewrite E. simpl.
  by rewrite lookup_insert_eq, insert_insert_eq.
Qed.

Lemma decode_file path (fs : Files) idx blobs data :
  encodes idx blobs data ->
  decode (mkReader data None) (mkFileWriter path (<[path := []]> fs))
  = Ret (Ok (length blobs), mkFileWriter path (<[path := print_blobs blobs]> fs)).
Proof.
  intros He. destruct (new_ok _ _ _ He) as (es & Hes & E). unfold decode. simpl.
  rewrite E. simpl. unfold collect. simpl Blobby.data.
  pose proof (drain_mono next _ _ _ _ (le_n_S _ _ (entries_length _ _ _ Hes))
                (drain_ok idx blobs es [] Hes)) as Hd.
  change (_ ++ concat es) with (concat es) in Hd. change (length []) with 0 in Hd.
  rewrite Hd. simpl. by rewrite write_lines_file, length_map.
Qed.

Lemma main_encode p1 p2 (fs : Files) text :
  denied p2 = None -> p1 <> p2 -> fs !! p1 = Some text ->
  main denied ["encode"; p1; p2]%string fs
  = let! (n, writer, printed) := encode (mkReader text None) (mkFileWriter p2 (<[p2 := []]> fs)) in
    match n with
    | Err e => Ret (Err (Io e), files writer, printed)
    | Ok n => Ret (Ok tt, files writer, printed ++ [Processed n])
    end.
Proof.
  intros Hd Hne Hp. unfold main. simpl. rewrite Hp, Hd. by rewrite lookup_insert_ne, Hp by done.
Qed.

Lemma main_decode p2 p3 (fs : Files) data :
  denied p3 = None -> p2 <> p3 -> fs !! p2 = Some data ->
  main denied ["decode"; p2; p3]%string fs
  = let! (n, writer) := decode (mkReader data None) (mkFileWriter p3 (<[p3 := []]> fs)) in
    match n with
    | Err e => Ret (Err (Io e), files writer, [])
    | Ok n => Ret (Ok tt, files writer, [Processed n])
    end.
Proof.
  intros Hd Hne Hp. unfold main. simpl. rewrite Hp, Hd. rewrite lookup_insert_ne, Hp by done. simpl.
  by destruct (decode _ _) as [[[n|e] w]| |].
Qed.

(** A file that is converted onto itself is lost: it is emptied before it is read. *)
Lemma convert_in_place p (fs : Files) text :
  denied p = None -> fs !! p = Some text ->
  main denied ["encode"; p; p]%string fs
  = Ret (Ok tt, <[p := [0%u8]]> fs, [IndexLen 0; Processed 1]).
Proof.
  intros Hd Hp. unfold main. simpl. rewrite Hp, Hd. rewrite lookup_insert_eq. simpl.
  assert (encode_blobs [] = Ret ([0%u8], 0)) as E by reflexivity. unfold encode. simpl.
  rewrite E. simpl. by rewrite lookup_insert_eq, insert_insert_eq.
Qed.
End run_main.

(** ** Properties *)

(** C21. Converting a text and back, between files: if the lines of the text denote
    blobs in hexadecimal, [encode] writes their encoding, [decode] of it writes the
    blobs again, one per line in lower case, and that is a text of the same blobs;
    every other text is refused with [InvalidData], the output file left empty.
    [decode] reports the number of blobs, [encode] the number of bytes written. *)
Theorem convert_roundtrip `{HexLaws} (denied : string -> option IoError) (fs : Files)
    (p1 p2 p3 : string) (text : list u8) :
  denied p2 = None -> denied p3 = None -> p1 <> p2 -> p2 <> p3 -> fs !! p1 = Some text ->
  (forall blobs, hex_lines text blobs -> fits blobs ->
     exists idx data, encodes idx blobs data
     /\ main denied ["encode"; p1; p2]%string fs
        = Ret (Ok tt, <[p2 := data]> fs, [IndexLen (length idx); Processed (length data)])
     /\ main denied ["decode"; p2; p3]%string (<[p2 := data]> fs)
        = Ret (Ok tt, <[p3 := print_blobs blobs]> (<[p2 := data]> fs), [Processed (length blobs)])
     /\ hex_lines (print_blobs blobs) blobs)
  /\ ((forall blobs, ~ hex_lines text blobs) ->
      main denied ["encode"; p1; p2]%string fs
      = Ret (Err (Io InvalidData), <[p2 := []]> fs, [])).
Proof.
  intros H2 H3 H12 H23 Hp. rewrite (main_encode denied p1 p2 fs text) by done. split.
  - intros blobs Hl Hf. destruct (encode_file p2 fs text blobs Hl Hf) as (idx & data & He & E).
    exists idx, data. split_and!; [done| | |apply hex_lines_print].
    + by rewrite E.
    + rewrite (main_decode denied p2 p3 _ data) by (done || apply lookup_insert_eq).
      by rewrite (decode_file p3 _ idx blobs data He).
  - intros Hn. unfold encode.
    destruct (read_blobs_cases (lines (mkReader text None)) [] (lines_from_errors [] text))
      as [(blobs & Hb)|E]; [by apply Hn in Hb|]. by rewrite E.
Qed.

Lemma convert_roundtrip_witness :
  let fs := {[ "in" := [65; 48; 13; 10; 97; 48]%u8 ]} : Files in
  exists idx data, encodes idx [[160]; [160]]%u8 data
  /\ main (fun _ => None) ["encode"; "in"; "blb"]%string fs
     = Ret (Ok tt, <["blb" := data]> fs, [IndexLen (length idx); Processed (length data)])
  /\ main (fun _ => None) ["decode"; "blb"; "out"]%string (<["blb" := data]> fs)
     = Ret (Ok tt, <["out" := [97; 48; 10; 97; 48; 10]%u8]> (<["blb" := data]> fs), [Processed 2]).
Proof.
  intros fs.
  destruct (convert_roundtrip (fun _ => None) fs "in" "blb" "out" [65; 48; 13; 10; 97; 48]%u8
              eq_refl eq_refl ltac:(discriminate) ltac:(discriminate) eq_refl) as [Hr _].
  destruct (Hr [[160]; [160]]%u8) as (idx & data & He & E1 & E2 & _).
  - repeat constructor; (eexists; split; [reflexivity|reflexivity]).
  - split; [done|by repeat constructor].
  - exists idx, data. split; [exact He|]. split; [exact E1|exact E2].
Defined.
