(* ===== verification/InOut.v ===== *)
(** * InOut

    [inout/src]: the pairs of an input and an output pointer that are equal or
    point to disjoint memory. The memory is the list of its bytes, a pointer is
    an address in it, and a value of a type of [sz] bytes takes [sz] consecutive
    bytes; an access outside of the memory is [UB]. A mutable reference is the
    address it was made from. [InOut] is [inout.rs], [InOutBuf] and its iterator
    [inout_buf.rs], [InOutBufReserved] and [PaddedInOutBuf] [reserved.rs]; the
    padding is any instance of [Padding]. *)
From S2P Require Import Prelude.
From S2P Require Import BlockPadding.
From stdpp Require Import base numbers list.

(** ** Memory *)

Definition mem : Type := list u8.

(** Reading [n] bytes at [p]. *)
Definition load (m : mem) (p n : nat) : run (list u8) := raw_slice m p n.

(** Writing [bs] at [p]. *)
Definition write (m : mem) (p : nat) (bs : list u8) : run mem :=
  if p + length bs <=? length m
  then Ret (take p m ++ bs ++ drop (p + length bs) m) else UB.

(** [a ^ b] *)
Definition bxor (a b : u8) : u8 := z2b (Z.lxor (b2z a) (b2z b)).

(** [struct IntoArrayError], [struct NotEqualError], [struct PadError],
    [struct OutIsTooSmallError] *)
Inductive IntoArrayError : Set := mkIntoArrayError.
Inductive NotEqualError : Set := mkNotEqualError.
Inductive PadError : Set := mkPadError.
Inductive OutIsTooSmallError : Set := mkOutIsTooSmallError.

(** A slice reference: its address and its number of elements. *)
Record Slice := mkSlice { as_ptr : nat; slen : nat }.

(** ** [InOut]: for a type of [sz] bytes *)

Record InOut := mkInOut { in_ptr : nat; out_ptr : nat }.

Definition io_reborrow (x : InOut) : InOut := mkInOut (in_ptr x) (out_ptr x).

(** [get_in], and [clone_in] for a type whose clone is a copy. *)
Definition io_get_in (sz : nat) (m : mem) (x : InOut) : run (list u8) :=
  load m (in_ptr x) sz.

(** [get_out]: the reference, as the address it points to. *)
Definition io_get_out (x : InOut) : nat := out_ptr x.

Definition io_into_raw (x : InOut) : nat * nat := (in_ptr x, out_ptr x).

Definition io_from_raw (in_ptr out_ptr : nat) : InOut := mkInOut in_ptr out_ptr.

(** [From<&mut T>] and [From<(&T, &mut T)>] *)
Definition io_from_mut (val : nat) : InOut := mkInOut val val.
Definition io_from_pair (in_val out_val : nat) : InOut := mkInOut in_val out_val.

(** ** [InOutBuf]: for elements of [sz] bytes *)

Record InOutBuf := mkInOutBuf { buf_in : nat; buf_out : nat; buf_len : nat }.

(** [InOut<GenericArray<T, N>>::get], with [sz] the size of [T]. *)
Definition io_get (sz N : nat) (x : InOut) (pos : nat) : run InOut :=
  let! _ := assert_ (pos <? N) in
  Ret (mkInOut (in_ptr x + sz * pos) (out_ptr x + sz * pos)).

(** [InOut<GenericArray<T, N>>::into_buf] *)
Definition io_into_buf (N : nat) (x : InOut) : InOutBuf :=
  mkInOutBuf (in_ptr x) (out_ptr x) N.

(** [From<&mut [T]>], [from_mut], [from_ref_mut], [new], [from_raw] *)
Definition buf_from_slice (buf : Slice) : InOutBuf :=
  mkInOutBuf (as_ptr buf) (as_ptr buf) (slen buf).
Definition buf_from_mut (val : nat) : InOutBuf := mkInOutBuf val val 1.
Definition buf_from_ref_mut (in_val out_val : nat) : InOutBuf :=
  mkInOutBuf in_val out_val 1.
Definition buf_new (in_buf out_buf : Slice) : result InOutBuf NotEqualError :=
  if negb (slen in_buf =? slen out_buf) then Err mkNotEqualError
  else Ok (mkInOutBuf (as_ptr in_buf) (as_ptr out_buf) (slen in_buf)).
Definition buf_from_raw (in_ptr out_ptr len : nat) : InOutBuf :=
  mkInOutBuf in_ptr out_ptr len.

Definition buf_is_empty (b : InOutBuf) : bool := buf_len b =? 0.

Definition buf_get (sz : nat) (b : InOutBuf) (pos : nat) : run InOut :=
  let! _ := assert_ (pos <? buf_len b) in
  Ret (mkInOut (buf_in b + sz * pos) (buf_out b + sz * pos)).

Definition buf_get_in (sz : nat) (m : mem) (b : InOutBuf) : run (list u8) :=
  load m (buf_in b) (sz * buf_len b).

(** [get_out], [into_out] *)
Definition buf_get_out (b : InOutBuf) : Slice := mkSlice (buf_out b) (buf_len b).
Definition buf_into_out (b : InOutBuf) : Slice := mkSlice (buf_out b) (buf_len b).

Definition buf_into_raw (b : InOutBuf) : nat * nat := (buf_in b, buf_out b).
Definition buf_reborrow (b : InOutBuf) : InOutBuf :=
  mkInOutBuf (buf_in b) (buf_out b) (buf_len b).

Definition buf_split_at (sz : nat) (b : InOutBuf) (mid : nat) :
    run (InOutBuf * InOutBuf) :=
  let! _ := assert_ (mid <=? buf_len b) in
  let '(tail_in_ptr, tail_out_ptr) := (buf_in b + sz * mid, buf_out b + sz * mid) in
  let! tail_len := usub (buf_len b) mid in
  Ret (mkInOutBuf (buf_in b) (buf_out b) mid,
       mkInOutBuf tail_in_ptr tail_out_ptr tail_len).

(** [into_chunks::<N>]: the chunks are elements of [N * sz] bytes. *)
Definition buf_into_chunks (sz N : nat) (b : InOutBuf) : run (InOutBuf * InOutBuf) :=
  if N =? 0 then Panic else
  let chunks := buf_len b `div` N in
  let tail_pos := N * chunks in
  let! tail_len := usub (buf_len b) tail_pos in
  let chunks := mkInOutBuf (buf_in b) (buf_out b) chunks in
  let tail :=
    mkInOutBuf (buf_in b + sz * tail_pos) (buf_out b + sz * tail_pos) tail_len in
  Ret (chunks, tail).

(** [TryInto<InOut<GenericArray<T, N>>>] *)
Definition buf_try_into (N : nat) (b : InOutBuf) : result InOut IntoArrayError :=
  if buf_len b =? N then Ok (mkInOut (buf_in b) (buf_out b))
  else Err mkIntoArrayError.

(** [InOutBufIter] *)
Record InOutBufIter := mkInOutBufIter { it_buf : InOutBuf; it_pos : nat }.

Definition buf_into_iter (b : InOutBuf) : InOutBufIter := mkInOutBufIter b 0.

Definition it_next (sz : nat) (it : InOutBufIter) : option InOut * InOutBufIter :=
  if buf_len (it_buf it) =? it_pos it then (None, it) else
  let res :=
    mkInOut (buf_in (it_buf it) + sz * it_pos it) (buf_out (it_buf it) + sz * it_pos it) in
  (Some res, mkInOutBufIter (it_buf it) (it_pos it + 1)).

(** ** [xor_in2out] *)

(** [for i in 0..n { temp[i] = input[i] ^ data[i]; }], from [i]. *)
Fixpoint xor_array_loop (input data temp : list u8) (i n : nat) : run (list u8) :=
  match n with
  | 0 => Ret temp
  | S n =>
      let! a := index input i in
      let! b := index data i in
      let! temp := store temp i (bxor a b) in
      xor_array_loop input data temp (i + 1) n
  end.

(** [InOut<GenericArray<u8, N>>::xor_in2out] *)
Definition io_xor_in2out (N : nat) (m : mem) (x : InOut) (data : list u8) : run mem :=
  let! input := load m (in_ptr x) N in
  let temp := replicate N Byte.x00 in
  let! temp := xor_array_loop input data temp 0 N in
  write m (out_ptr x) temp.

(** The two nested loops of the version for arrays of arrays. *)
Fixpoint xor_arrays_loop (N : nat) (input data temp : list (list u8)) (i n : nat) :
    run (list (list u8)) :=
  match n with
  | 0 => Ret temp
  | S n =>
      let! a := index input i in
      let! b := index data i in
      let! t := index temp i in
      let! t := xor_array_loop a b t 0 N in
      let! temp := store temp i t in
      xor_arrays_loop N input data temp (i + 1) n
  end.

(** [InOut<GenericArray<GenericArray<u8, N>, M>>::xor_in2out] *)
Definition io_xor_in2out_arrays (N M : nat) (m : mem) (x : InOut)
    (data : list (list u8)) : run mem :=
  let! input := load m (in_ptr x) (M * N) in
  let temp := replicate M (replicate N Byte.x00) in
  let! temp := xor_arrays_loop N (chunks N M input) data temp 0 M in
  write m (out_ptr x) (concat temp).

(** [for i in 0..data.len() { *out_ptr = *in_ptr ^ data[i]; }], from [i]. *)
Fixpoint buf_xor_loop (m : mem) (b : InOutBuf) (data : list u8) (i n : nat) :
    run mem :=
  match n with
  | 0 => Ret m
  | S n =>
      let in_ptr := buf_in b + i in
      let out_ptr := buf_out b + i in
      let! a := load m in_ptr 1 in
      let! a := index a 0 in
      let! d := index data i in
      let! m := write m out_ptr [bxor a d] in
      buf_xor_loop m b data (i + 1) n
  end.

(** [InOutBuf<u8>::xor_in2out] *)
Definition buf_xor_in2out (m : mem) (b : InOutBuf) (data : list u8) : run mem :=
  let! _ := assert_ (buf_len b =? length data) in
  buf_xor_loop m b data 0 (length data).

(** ** [InOutBufReserved] *)

Record InOutBufReserved := mkReserved {
  res_in : nat;
  res_out : nat;
  res_in_len : nat;
  res_out_len : nat;
}.

Definition res_from_mut_slice (buf : Slice) (msg_len : nat) :
    result InOutBufReserved OutIsTooSmallError :=
  if slen buf <? msg_len then Err mkOutIsTooSmallError else
  let p := as_ptr buf in
  let out_len := slen buf in
  Ok (mkReserved p p msg_len out_len).

Definition res_from_raw (in_ptr in_len out_ptr out_len : nat) : InOutBufReserved :=
  mkReserved in_ptr out_ptr in_len out_len.

Definition res_from_slices (in_buf out_buf : Slice) :
    result InOutBufReserved OutIsTooSmallError :=
  if slen out_buf <? slen in_buf then Err mkOutIsTooSmallError else
  Ok (mkReserved (as_ptr in_buf) (as_ptr out_buf) (slen in_buf) (slen out_buf)).

Definition res_into_raw (r : InOutBufReserved) : nat * nat := (res_in r, res_out r).

Definition get_in_len (r : InOutBufReserved) : nat := res_in_len r.
Definition get_out_len (r : InOutBufReserved) : nat := res_in_len r.

Definition res_get_in (r : InOutBufReserved) : Slice :=
  mkSlice (res_in r) (res_in_len r).
Definition res_get_out (r : InOutBufReserved) : Slice :=
  mkSlice (res_out r) (res_out_len r).

(** ** [PaddedInOutBuf], for blocks of [BS] bytes *)

Record PaddedInOutBuf := mkPadded {
  blocks : InOutBuf;
  tail_in : list u8;
  tail_out : option nat;
}.

(** [into_padded_blocks::<P, BS>] *)
Definition into_padded_blocks (P : Type) `{Padding P} (BS : nat) (m : mem)
    (r : InOutBufReserved) : run (result PaddedInOutBuf PadError) :=
  let bs := BS in
  if bs =? 0 then Panic else
  let blocks_len := res_in_len r `div` bs in
  let! tail_len := usub (res_in_len r) (bs * blocks_len) in
  let blocks := buf_from_raw (res_in r) (res_out r) blocks_len in
  let tail_in := replicate BS Byte.x00 in
  let padded :=
    let blen := bs * blocks_len in
    let res_len := blen + bs in
    if res_out_len r <? res_len then Ret (Err mkPadError) else
    let! src := load m (res_in r + blen) tail_len in
    let! tail_in := copy_at tail_in 0 tail_len src in
    let out_block := res_out r + blen in
    let! tail_in := pad P BS tail_in tail_len in
    Ret (Ok (tail_in, Some out_block)) in
  let? (tail_in, tail_out) :=
    match TYPE P with
    | NoPaddingType =>
        if tail_len =? 0 then Ret (Ok (tail_in, None)) else Ret (Err mkPadError)
    | Ambiguous =>
        if tail_len =? 0 then Ret (Ok (tail_in, None)) else padded
    | Reversible => padded
    end in
  Ret (Ok (mkPadded blocks tail_in tail_out)).

Definition get_blocks (p : PaddedInOutBuf) : InOutBuf := buf_reborrow (blocks p).

(** [into_out]: the output slice, of bytes. *)
Definition into_out (BS : nat) (p : PaddedInOutBuf) : Slice :=
  let total_blocks :=
    match tail_out p with
    | Some _ => buf_len (blocks p) + 1
    | None => buf_len (blocks p)
    end in
  let res_len := BS * total_blocks in
  let '(_, out_ptr) := buf_into_raw (blocks p) in
  mkSlice out_ptr res_len.

(** [get_tail_block]: the input is the field [tail_in]. *)
Definition get_tail_block (p : PaddedInOutBuf) : option (list u8 * nat) :=
  match tail_out p with
  | Some out_block => Some (tail_in p, out_block)
  | None => None
  end.

(** ** The memory after a write *)

(** [m] with the bytes at [p] replaced by [bs]. *)
Definition patch (m : mem) (p : nat) (bs : list u8) : mem :=
  take p m ++ bs ++ drop (p + length bs) m.

Lemma write_ok m p bs : p + length bs <= length m -> write m p bs = Ret (patch m p bs).
Proof. intros. unfold write. by rewrite (proj2 (Nat.leb_le _ _)). Qed.

Lemma load_ok m p n : p + n <= length m -> load m p n = Ret (take n (drop p m)).
Proof. apply raw_slice_ok. Qed.

Lemma length_patch m p bs : p + length bs <= length m -> length (patch m p bs) = length m.
Proof. intros. unfold patch. len. Qed.

Lemma patch_before m p bs q n :
  p + length bs <= length m -> q + n <= p ->
  take n (drop q (patch m p bs)) = take n (drop q m).
Proof.
  intros. unfold patch. rewrite drop_app_le by len. rewrite take_app_le by len.
  rewrite skipn_firstn_comm, take_take. f_equal. lia.
Qed.

Lemma patch_after m p bs q n :
  p + length bs <= length m -> p + length bs <= q ->
  take n (drop q (patch m p bs)) = take n (drop q m).
Proof.
  intros. unfold patch. rewrite app_assoc, drop_app_ge by len. f_equal.
  rewrite drop_drop. f_equal. len.
Qed.

Lemma patch_at m p bs :
  p + length bs <= length m -> take (length bs) (drop p (patch m p bs)) = bs.
Proof.
  intros. unfold patch. rewrite drop_app_length' by len. apply take_app_length.
Qed.

Lemma patch_patch m p bs1 bs2 :
  p + length bs1 + length bs2 <= length m ->
  patch (patch m p bs1) (p + length bs1) bs2 = patch m p (bs1 ++ bs2).
Proof.
  intros. unfold patch. rewrite length_app, !app_assoc.
  rewrite take_app_length' by len. rewrite <- !app_assoc. do 3 f_equal.
  rewrite app_assoc, drop_app_ge by len. rewrite drop_drop. f_equal. len.
Qed.

Lemma patch_nil m p : patch m p [] = m.
Proof. unfold patch. simpl. by rewrite Nat.add_0_r, take_drop. Qed.

(** ** Processing a buffer element by element *)

(** Two regions of [n] bytes that are equal or do not overlap, in the memory:
    the safety condition of the crate's types. *)
Definition valid (m : mem) (in_ptr out_ptr n : nat) : Prop :=
  in_ptr + n <= length m /\ out_ptr + n <= length m
  /\ (in_ptr = out_ptr \/ in_ptr + n <= out_ptr \/ out_ptr + n <= in_ptr).

Section process.
Context (f : nat -> list u8 -> list u8) (sz : nat).
Context (Hf : forall i a, length a = sz -> length (f i a) = sz).

(** Elements [i], ..., [i + n - 1], each read, mapped by [f] and written. *)
Fixpoint process (m : mem) (b : InOutBuf) (i n : nat) : run mem :=
  match n with
  | 0 => Ret m
  | S n =>
      let! a := load m (buf_in b + sz * i) sz in
      let! m := write m (buf_out b + sz * i) (f i a) in
      process m b (i + 1) n
  end.

Definition processed (i n : nat) (input : list u8) : list u8 :=
  concat (imap (fun k a => f (i + k) a) (chunks sz n input)).

Lemma processed_S i n input :
  processed i (S n) input = f i (take sz input) ++ processed (i + 1) n (drop sz input).
Proof using Type.
  unfold processed. cbn [chunks imap concat]. rewrite Nat.add_0_r. do 2 f_equal.
  apply imap_ext. intros k a _. simpl. f_equal. lia.
Qed.

Lemma length_processed i n input :
  n * sz <= length input -> length (processed i n input) = n * sz.
Proof using Hf.
  revert i input. induction n as [|n IH]; intros i input Hl; [done|].
  rewrite processed_S, length_app, IH, Hf by len. lia.
Qed.

Lemma processed_take i n input k :
  n * sz <= k -> processed i n (take k input) = processed i n input.
Proof using Type. intros. unfold processed. by rewrite chunks_take. Qed.

(** The output region holds the images of the input as it was at the start,
    whether the regions are equal or disjoint; nothing else changes. *)
Lemma process_ok m b i n :
  valid m (buf_in b) (buf_out b) (sz * (i + n)) ->
  process m b i n
  = Ret (patch m (buf_out b + sz * i)
           (processed i n (drop (buf_in b + sz * i) m))).
Proof using Hf.
  revert m i. induction n as [|n IH]; intros m i (Hi & Ho & Hd).
  { simpl. by rewrite patch_nil. }
  cbn [process].
  assert (sz * (i + S n) = sz * i + sz + sz * n) as Hsz by lia.
  rewrite load_ok by lia. rewrite bind_Ret.
  set (a := take sz (drop (buf_in b + sz * i) m)).
  assert (length a = sz) as Ha by (unfold a; len).
  assert (length (f i a) = sz) as Hfa by by apply Hf.
  rewrite write_ok by lia. rewrite bind_Ret.
  set (m1 := patch m (buf_out b + sz * i) (f i a)).
  assert (length m1 = length m) as Hm1 by (apply length_patch; lia).
  assert (sz * (i + 1 + n) = sz * i + sz + sz * n) as Hsz1 by lia.
  assert (sz * (i + 1) = sz * i + sz) as Hsz2 by lia.
  rewrite IH by (unfold valid; rewrite Hm1, Hsz1; lia).
  rewrite processed_S. fold a. f_equal.
  replace (buf_out b + sz * (i + 1)) with (buf_out b + sz * i + length (f i a)) by lia.
  assert (processed (i + 1) n (drop (buf_in b + sz * (i + 1)) m1)
    = processed (i + 1) n (drop sz (drop (buf_in b + sz * i) m))) as ->.
  { rewrite <- (processed_take _ _ _ (n * sz)) by done.
    rewrite <- (processed_take _ _ (drop sz _) (n * sz)) by done.
    rewrite drop_drop, <- Nat.add_assoc, Hsz2. f_equal. unfold m1.
    destruct Hd as [->|[Hd|Hd]]; [apply patch_after|apply patch_before|apply patch_after];
      lia. }
  apply patch_patch. rewrite length_processed; len.
Qed.
End process.

Lemma processed_const (f : list u8 -> list u8) sz i n input :
  processed (fun _ => f) sz i n input = concat (List.map f (chunks sz n input)).
Proof.
  revert i input. induction n as [|n IH]; intros i input; [done|].
  rewrite processed_S, IH. done.
Qed.

(** ** XOR *)

(** The XOR of two strings of bytes. *)
Definition xor_bytes (a b : list u8) : list u8 := zip_with bxor a b.

Definition xor_elem (data : list u8) (i : nat) (a : list u8) : list u8 :=
  [bxor (a !!! 0) (data !!! i)].

Lemma xor_loop_process m b data i n :
  valid m (buf_in b) (buf_out b) (i + n) -> i + n <= length data ->
  buf_xor_loop m b data i n = process (xor_elem data) 1 m b i n.
Proof.
  revert m i. induction n as [|n IH]; intros m i (Hi & Ho & Hd) Hl; [done|].
  cbn [buf_xor_loop process]. rewrite !Nat.mul_1_l, load_ok by lia. rewrite !bind_Ret.
  destruct (lookup_lt_is_Some_2 m (buf_in b + i)) as [a Ha]; [lia|].
  rewrite (drop_S _ _ _ Ha). cbn [take]. rewrite take_0.
  rewrite (index_Some [a] 0 a), bind_Ret by done.
  destruct (lookup_lt_is_Some_2 data i) as [d Hdi]; [lia|].
  rewrite (index_Some data i d), bind_Ret by done.
  change (xor_elem data i [a]) with [bxor a (data !!! i)].
  rewrite (list_lookup_total_correct _ _ _ Hdi). rewrite write_ok by (simpl; lia). rewrite !bind_Ret.
  apply IH; [|lia]. unfold valid. rewrite length_patch by (simpl; lia). lia.
Qed.

Lemma processed_xor data i n input :
  i + n <= length data -> n <= length input ->
  processed (xor_elem data) 1 i n input
  = xor_bytes (take n input) (take n (drop i data)).
Proof.
  revert i input. induction n as [|n IH]; intros i input Hl Hi; [done|].
  rewrite processed_S. destruct input as [|a input]; [simpl in Hi; lia|].
  destruct (lookup_lt_is_Some_2 data i) as [d Hd]; [lia|].
  rewrite (drop_S _ _ _ Hd). change (drop 1 (a :: input)) with (drop 0 input).
  rewrite drop_0, IH by (simpl in *; lia). cbn [take]. rewrite take_0.
  unfold xor_elem. rewrite (list_lookup_total_correct _ _ _ Hd).
  by rewrite Nat.add_1_r.
Qed.

Lemma buf_xor_ok m b data :
  valid m (buf_in b) (buf_out b) (buf_len b) -> length data = buf_len b ->
  buf_xor_in2out m b data
  = Ret (patch m (buf_out b) (xor_bytes (take (buf_len b) (drop (buf_in b) m)) data)).
Proof.
  intros Hv Hl. unfold buf_xor_in2out. rewrite Hl, Nat.eqb_refl. run_steps.
  rewrite assert_true, bind_Ret, xor_loop_process by (done || lia).
  rewrite process_ok; [|done|by rewrite Nat.mul_1_l].
  rewrite !Nat.mul_0_r, !Nat.add_0_r.
  destruct Hv as (Hi & _). rewrite processed_xor by len.
  by rewrite drop_0, <- Hl, firstn_all.
Qed.

(** The loop over an array, from [i]: the elements before [i] are written. *)
Lemma xor_array_loop_ok input data n i :
  i + n = length input -> length data = length input ->
  xor_array_loop input data
    (take i (xor_bytes input data) ++ replicate n Byte.x00) i n
  = Ret (xor_bytes input data).
Proof.
  revert i. induction n as [|n IH]; intros i Hi Hl; cbn [xor_array_loop].
  - rewrite app_nil_r, take_ge; [done|]. unfold xor_bytes. rewrite length_zip_with. lia.
  - destruct (lookup_lt_is_Some_2 input i) as [a Ha]; [lia|].
    destruct (lookup_lt_is_Some_2 data i) as [d Hd]; [lia|].
    assert (length (take i (xor_bytes input data)) = i) as Ht.
    { unfold xor_bytes. rewrite length_take, length_zip_with. lia. }
    assert (xor_bytes input data !! i = Some (bxor a d)) as Hx.
    { apply lookup_zip_with_Some. eauto. }
    rewrite (index_Some _ _ _ Ha), bind_Ret, (index_Some _ _ _ Hd), bind_Ret.
    rewrite store_ok by (rewrite length_app, length_replicate; lia). rewrite bind_Ret.
    rewrite insert_app_r_alt, Ht, Nat.sub_diag by lia. cbn [replicate]. simpl insert.
    rewrite <- (IH (i + 1)) by lia. f_equal.
    by rewrite Nat.add_1_r, (take_S_r _ _ _ Hx), <- app_assoc.
Qed.

Lemma xor_array_ok N input data :
  length input = N -> length data = N ->
  xor_array_loop input data (replicate N Byte.x00) 0 N = Ret (xor_bytes input data).
Proof. intros. by apply (xor_array_loop_ok input data N 0); lia. Qed.

Lemma io_xor_ok N m x data :
  in_ptr x + N <= length m -> out_ptr x + N <= length m -> length data = N ->
  io_xor_in2out N m x data
  = Ret (patch m (out_ptr x) (xor_bytes (take N (drop (in_ptr x) m)) data)).
Proof.
  intros Hi Ho Hl. unfold io_xor_in2out. rewrite load_ok by done. run_steps.
  rewrite xor_array_ok by len. rewrite bind_Ret. apply write_ok.
  unfold xor_bytes. rewrite length_zip_with. len.
Qed.

(** The outer loop over arrays of arrays. *)
Lemma xor_arrays_loop_ok N input data n i :
  i + n = length input -> length data = length input ->
  Forall (fun a => length a = N) input -> Forall (fun a => length a = N) data ->
  xor_arrays_loop N input data
    (take i (zip_with xor_bytes input data) ++ replicate n (replicate N Byte.x00)) i n
  = Ret (zip_with xor_bytes input data).
Proof.
  intros Hi Hl HI HD. revert i Hi. induction n as [|n IH]; intros i Hi; cbn [xor_arrays_loop].
  - rewrite app_nil_r, take_ge; [done|]. rewrite length_zip_with. lia.
  - destruct (lookup_lt_is_Some_2 input i) as [a Ha]; [lia|].
    destruct (lookup_lt_is_Some_2 data i) as [d Hd]; [lia|].
    set (out := zip_with xor_bytes input data) in *.
    assert (length (take i out) = i) as Ht.
    { unfold out. rewrite length_take, length_zip_with. lia. }
    assert (out !! i = Some (xor_bytes a d)) as Hx.
    { apply lookup_zip_with_Some. eauto. }
    rewrite (index_Some _ _ _ Ha), bind_Ret, (index_Some _ _ _ Hd), bind_Ret.
    rewrite (index_Some _ _ (replicate N Byte.x00)), bind_Ret
      by (by rewrite lookup_app_r, Ht, Nat.sub_diag by lia).
    pose proof (Forall_lookup_1 _ _ _ _ HI Ha) as Hla.
    pose proof (Forall_lookup_1 _ _ _ _ HD Hd) as Hld.
    rewrite xor_array_ok, bind_Ret by done.
    rewrite store_ok by (rewrite length_app, length_replicate; lia). rewrite bind_Ret.
    rewrite insert_app_r_alt, Ht, Nat.sub_diag by lia. cbn [replicate]. simpl insert.
    rewrite <- (IH (i + 1)) by lia. f_equal.
    by rewrite Nat.add_1_r, (take_S_r _ _ _ Hx), <- app_assoc.
Qed.

Lemma concat_zip_xor N (a b : list (list u8)) :
  Forall (fun x => length x = N) a -> Forall (fun x => length x = N) b ->
  concat (zip_with xor_bytes a b) = xor_bytes (concat a) (concat b).
Proof.
  intros Ha. revert b. induction Ha as [|x a Hx Ha IH]; intros b Hb; [done|].
  destruct Hb as [|y b Hy Hb]; simpl.
  { unfold xor_bytes. by rewrite zip_with_nil_r. }
  rewrite IH by done. unfold xor_bytes. rewrite zip_with_app; [done|congruence].
Qed.

Lemma io_xor_arrays_ok N M m x data :
  in_ptr x + M * N <= length m -> out_ptr x + M * N <= length m ->
  length data = M -> Forall (fun a => length a = N) data ->
  io_xor_in2out_arrays N M m x data
  = Ret (patch m (out_ptr x)
           (xor_bytes (take (M * N) (drop (in_ptr x) m)) (concat data))).
Proof.
  intros Hi Ho Hl HD. unfold io_xor_in2out_arrays. rewrite load_ok by done. run_steps.
  set (input := take (M * N) (drop (in_ptr x) m)).
  assert (length input = M * N) as Hli by (unfold input; len).
  pose proof (xor_arrays_loop_ok N (chunks N M input) data M 0) as E.
  rewrite take_0 in E. cbn [app] in E. rewrite E;
    [|by rewrite length_chunks|by rewrite length_chunks|apply chunks_lengths; lia|done].
  rewrite bind_Ret, (concat_zip_xor N) by (done || (apply chunks_lengths; lia)).
  rewrite concat_chunks, (take_ge input) by lia. apply write_ok.
  unfold xor_bytes. rewrite length_zip_with. lia.
Qed.

(** ** Parts of a buffer *)

Lemma valid_part m p q n p' q' n' k :
  valid m p q n -> p' = p + k -> q' = q + k -> k + n' <= n -> valid m p' q' n'.
Proof. unfold valid. lia. Qed.

(** [b1] then [b2], of elements of [sz1] and [sz2] bytes, are [b], of elements
    of [sz] bytes: the regions of both pointers are adjacent. *)
Definition partition (sz : nat) (b : InOutBuf) (sz1 : nat) (b1 : InOutBuf)
    (sz2 : nat) (b2 : InOutBuf) : Prop :=
  sz1 * buf_len b1 + sz2 * buf_len b2 = sz * buf_len b
  /\ buf_in b1 = buf_in b /\ buf_in b2 = buf_in b + sz1 * buf_len b1
  /\ buf_out b1 = buf_out b /\ buf_out b2 = buf_out b + sz1 * buf_len b1.

(** The safety condition of a buffer of elements of [sz] bytes. *)
Definition buf_valid (sz : nat) (m : mem) (b : InOutBuf) : Prop :=
  valid m (buf_in b) (buf_out b) (sz * buf_len b).

Lemma partition_valid sz b sz1 b1 sz2 b2 m :
  partition sz b sz1 b1 sz2 b2 -> buf_valid sz m b ->
  buf_valid sz1 m b1 /\ buf_valid sz2 m b2
  /\ (let! x := buf_get_in sz1 m b1 in
      let! y := buf_get_in sz2 m b2 in Ret (x ++ y)) = buf_get_in sz m b.
Proof.
  intros (Hl & Hi1 & Hi2 & Ho1 & Ho2) Hv. unfold buf_valid in *. split_and!.
  - apply (valid_part _ _ _ _ _ _ _ 0 Hv); lia.
  - apply (valid_part _ _ _ _ _ _ _ (sz1 * buf_len b1) Hv); lia.
  - destruct Hv as (Hi & _). unfold buf_get_in.
    rewrite !load_ok by lia. run_steps. rewrite Hi1, Hi2, <- Hl. f_equal.
    by rewrite <- drop_drop, take_take_drop.
Qed.

Lemma buf_split_at_ok sz b mid :
  mid <= buf_len b ->
  exists b1 b2, buf_split_at sz b mid = Ret (b1, b2) /\ partition sz b sz b1 sz b2
    /\ buf_len b1 = mid.
Proof.
  intros Hm. unfold buf_split_at. rewrite (proj2 (Nat.leb_le _ _)) by done.
  rewrite assert_true. run_steps. do 2 eexists. split; [done|]. unfold partition. simpl.
  split; [|done]. split_and!; nia.
Qed.

Lemma buf_into_chunks_ok sz N b :
  0 < N ->
  exists b1 b2, buf_into_chunks sz N b = Ret (b1, b2)
    /\ partition sz b (N * sz) b1 sz b2 /\ buf_len b2 < N.
Proof.
  intros HN. unfold buf_into_chunks. rewrite (proj2 (Nat.eqb_neq N 0)) by lia.
  pose proof (Nat.div_mod (buf_len b) N). pose proof (Nat.mod_upper_bound (buf_len b) N).
  rewrite usub_ok by lia. run_steps. do 2 eexists. split; [done|].
  unfold partition. cbn [buf_in buf_out buf_len]. split_and!; nia.
Qed.

(** ** The iterator *)

(** The items that the iterator gives, with [fuel] calls at most. *)
Fixpoint it_drain (sz fuel : nat) (it : InOutBufIter) : option (list InOut) :=
  match fuel with
  | 0 => None
  | S fuel =>
      let (o, it) := it_next sz it in
      match o with
      | None => Some []
      | Some x => option_map (cons x) (it_drain sz fuel it)
      end
  end.

Lemma it_drain_ok sz b n i :
  i + n = buf_len b ->
  it_drain sz (S n) (mkInOutBufIter b i)
  = Some (List.map (fun k => mkInOut (buf_in b + sz * k) (buf_out b + sz * k)) (seq i n)).
Proof.
  revert i. induction n as [|n IH]; intros i Hi; cbn [it_drain]; unfold it_next at 1;
    cbn [it_buf it_pos].
  - by rewrite (proj2 (Nat.eqb_eq _ _)) by lia.
  - rewrite (proj2 (Nat.eqb_neq _ _)) by lia. cbn [it_drain] in IH.
    rewrite IH by lia. by rewrite Nat.add_1_r.
Qed.

(** ** Padded buffers *)

(** A user of a padded buffer: it maps every block with [f], in place or from
    input to output, the tail block last. *)
Definition run_blocks (f : list u8 -> list u8) (BS : nat) (m : mem)
    (p : PaddedInOutBuf) : run mem :=
  let b := get_blocks p in
  let! m := process (fun _ => f) BS m b 0 (buf_len b) in
  match get_tail_block p with
  | Some (tail, out_block) => write m out_block (f tail)
  | None => Ret m
  end.

(** The safety condition of a reserved buffer. *)
Definition res_valid (m : mem) (r : InOutBufReserved) : Prop :=
  res_in r + res_in_len r <= length m /\ res_out r + res_out_len r <= length m
  /\ res_in_len r <= res_out_len r
  /\ (res_in r = res_out r \/ res_in r + res_in_len r <= res_out r
      \/ res_out r + res_out_len r <= res_in r).

(** The message behind a reserved buffer. *)
Definition message (m : mem) (r : InOutBufReserved) : list u8 :=
  take (res_in_len r) (drop (res_in r) m).

Section padded.
Context (P : Type) `{HP : ReversiblePadding P BS} (HB : 0 < BS).
Context (m : mem) (r : InOutBufReserved) (Hr : res_valid m r).

Let q := res_in_len r `div` BS.
Let t := res_in_len r - BS * q.

Lemma tail_bounds : BS * q + t = res_in_len r /\ t < BS.
Proof using HB.
  unfold t, q. pose proof (Nat.div_mod (res_in_len r) BS).
  pose proof (Nat.mod_upper_bound (res_in_len r) BS). lia.
Qed.

Lemma message_split :
  message m r = concat (chunks BS q (drop (res_in r) m))
                ++ take t (drop (res_in r + BS * q) m).
Proof using HB Hr.
  pose proof tail_bounds as [Ht Hlt]. destruct Hr as (Hi & _). unfold message.
  rewrite concat_chunks by len. rewrite <- Ht, <- drop_drop, (Nat.mul_comm q).
  by rewrite take_take_drop.
Qed.

(** With room for the padding: the blocks alias the message, and the tail block
    holds what is left of it, padded. *)
Lemma into_padded_blocks_ok :
  BS * q + BS <= res_out_len r ->
  exists padded,
    into_padded_blocks P BS m r
    = Ret (Ok (mkPadded (mkInOutBuf (res_in r) (res_out r) q) padded
                 (Some (res_out r + BS * q))))
    /\ length padded = BS
    /\ unpad P BS padded = Ret (Ok (take t (drop (res_in r + BS * q) m))).
Proof using HB Hr HP.
  intros Ho. pose proof tail_bounds as [Ht Hlt]. destruct Hr as (Hi & _).
  set (src := take t (drop (res_in r + BS * q) m)).
  assert (length src = t) as Hsrc by (unfold src; len).
  destruct (rl_pad (src ++ drop t (replicate BS Byte.x00)) t) as (padded & Hp & Hl & Hu);
    [len|done|]. rewrite take_app_length' in Hu by done.
  exists padded. split; [|done]. unfold into_padded_blocks.
  rewrite (proj2 (Nat.eqb_neq BS 0)) by lia. rewrite rl_type. fold q.
  rewrite usub_ok by lia. run_steps. fold t.
  rewrite (proj2 (Nat.ltb_ge _ _)) by lia. rewrite load_ok by lia. run_steps.
  fold src. by rewrite Hp.
Qed.

Lemma into_padded_blocks_short :
  res_out_len r < BS * q + BS -> into_padded_blocks P BS m r = Ret (Err mkPadError).
Proof using HB HP.
  intros Ho. pose proof tail_bounds as [Ht Hlt]. unfold into_padded_blocks.
  rewrite (proj2 (Nat.eqb_neq BS 0)) by lia. rewrite rl_type. fold q.
  rewrite usub_ok by lia. run_steps. by rewrite (proj2 (Nat.ltb_lt _ _)) by lia.
Qed.

(** The output of a user that maps the blocks. *)
Lemma run_blocks_ok f padded :
  (forall a, length a = BS -> length (f a) = BS) -> length padded = BS ->
  BS * q + BS <= res_out_len r ->
  run_blocks f BS m (mkPadded (mkInOutBuf (res_in r) (res_out r) q) padded
                       (Some (res_out r + BS * q)))
  = Ret (patch m (res_out r)
      (concat (List.map f (chunks BS q (drop (res_in r) m) ++ [padded])))).
Proof using HB Hr.
  intros Hf Hp Ho. pose proof tail_bounds as [Ht Hlt].
  destruct Hr as (Hi & Hout & Hlen & Hd).
  unfold run_blocks, get_blocks, get_tail_block, buf_reborrow.
  cbn [blocks tail_in tail_out buf_in buf_out buf_len].
  rewrite process_ok by (unfold valid; cbn [buf_in buf_out]; auto; lia).
  rewrite bind_Ret, Nat.mul_0_r, !Nat.add_0_r. cbn [buf_in buf_out].
  assert (length (processed (fun _ => f) BS 0 q (drop (res_in r) m)) = q * BS) as Hl.
  { apply length_processed; [auto|len]. }
  rewrite write_ok by (rewrite length_patch, Hf by lia; lia).
  f_equal. replace (BS * q) with (length (processed (fun _ => f) BS 0 q (drop (res_in r) m)))
    by lia.
  rewrite patch_patch by (rewrite Hf by done; lia).
  rewrite map_app, concat_app. simpl. rewrite app_nil_r. do 2 f_equal.
  by rewrite processed_const.
Qed.
End padded.

(** ** Properties *)

(** C12. [into_padded_blocks] for a reversible padding, in place or from input to
    output: with room for a whole last block, a user that maps the blocks and
    the tail block with any [f] leaves in [into_out] the images of the padded
    message, and nothing else of the memory changes; if [g] inverts [f],
    unpadding the images under [g] gives the message back. Without that room
    the result is [PadError]. *)
Theorem into_padded_blocks_roundtrip (P : Type) `{ReversiblePadding P BS}
    (f g : list u8 -> list u8) (m : mem) (r : InOutBufReserved) :
  0 < BS -> res_valid m r ->
  (forall a, length a = BS -> length (f a) = BS /\ g (f a) = a) ->
  (res_out_len r < BS * (res_in_len r `div` BS) + BS ->
     into_padded_blocks P BS m r = Ret (Err mkPadError))
  /\ (BS * (res_in_len r `div` BS) + BS <= res_out_len r ->
     exists p n ct, into_padded_blocks P BS m r = Ret (Ok p)
       /\ run_blocks f BS m p = Ret (patch m (res_out r) ct)
       /\ into_out BS p = mkSlice (res_out r) (BS * n) /\ length ct = BS * n
       /\ BS * n <= res_out_len r
       /\ unpad_blocks P BS (List.map g (chunks BS n ct))
          = Ret (Ok (message m r))).
Proof.
  intros HB Hr Hfg. split; [by apply into_padded_blocks_short|]. intros Ho.
  set (q := res_in_len r `div` BS) in *.
  destruct (into_padded_blocks_ok P HB m r Hr Ho) as (padded & E & Hl & Hu).
  pose proof (tail_bounds HB r) as [Ht Hlt]. pose proof Hr as (Hi & _).
  set (bs := chunks BS q (drop (res_in r) m)).
  assert (Forall (fun b => length b = BS) bs) as Hbs.
  { apply chunks_lengths. fold q in Ht. len. }
  assert (length bs = q) as Hlb by apply length_chunks.
  assert (Forall (fun b => length b = BS) (List.map f (bs ++ [padded]))) as Hct.
  { apply Forall_map, Forall_app. split; [|by repeat constructor; apply Hfg].
    eapply Forall_impl; [exact Hbs|]. intros a Ha. by apply Hfg. }
  assert (length (List.map f (bs ++ [padded])) = q + 1) as Hlm.
  { rewrite length_map, length_app. simpl. lia. }
  assert (chunks BS (q + 1) (concat (List.map f (bs ++ [padded])))
    = List.map f (bs ++ [padded])) as Hch.
  { rewrite <- Hlm, <- (app_nil_r (concat _)). by apply chunks_concat. }
  eexists _, (q + 1), (concat (List.map f (bs ++ [padded]))).
  split; [exact E|]. split; [|split; [|split; [|split]]].
  - apply (run_blocks_ok HB m r Hr); [apply Hfg|done|done].
  - unfold into_out. simpl. fold q. do 2 f_equal.
  - rewrite <- Hlm. clear -Hct. induction Hct; simpl; [lia|]. rewrite length_app. lia.
  - lia.
  - rewrite Hch, map_map. rewrite (map_ext_in _ (fun a => a)).
    + rewrite map_id, unpad_blocks_last by done. rewrite Hu, bind_Ret. simpl.
      by rewrite (message_split HB m r Hr).
    + intros a Ha%list_elem_of_In. apply Hfg.
      apply elem_of_app in Ha as [Ha|Ha%list_elem_of_singleton]; [|by subst].
      by apply (proj1 (Forall_forall _ _) Hbs).
Qed.

Definition flip_block (b : list u8) : list u8 := List.map (bxor Byte.xff) b.

Lemma into_padded_blocks_roundtrip_witness :
  exists p n ct, into_padded_blocks Pkcs7 4 [1; 2; 3; 4; 5; 6; 0; 0]%u8 (mkReserved 0 0 6 8)
      = Ret (Ok p)
    /\ run_blocks flip_block 4 [1; 2; 3; 4; 5; 6; 0; 0]%u8 p
       = Ret (patch [1; 2; 3; 4; 5; 6; 0; 0]%u8 0 ct)
    /\ into_out 4 p = mkSlice 0 (4 * n) /\ length ct = 4 * n /\ 4 * n <= 8
    /\ unpad_blocks Pkcs7 4 (List.map flip_block (chunks 4 n ct))
       = Ret (Ok [1; 2; 3; 4; 5; 6]%u8).
Proof.
  assert (HR : ReversiblePadding Pkcs7 4) by (apply pkcs7_reversible; lia).
  assert (Hx : forall b, bxor Byte.xff (bxor Byte.xff b) = b) by (by intros []).
  refine (proj2 (into_padded_blocks_roundtrip Pkcs7 flip_block flip_block
    [1; 2; 3; 4; 5; 6; 0; 0]%u8 (mkReserved 0 0 6 8) _ _ _) _).
  - lia.
  - unfold res_valid. simpl. lia.
  - intros a Ha. unfold flip_block. rewrite length_map, map_map. split; [done|].
    rewrite (map_ext _ id) by done. apply map_id.
  - simpl. lia.
Defined.

(** C34. The three [xor_in2out] write the XOR of [data] and of the input as it
    was before the call to the output region and change nothing else, in place
    or from input to output; with data of another length the one on buffers
    panics. The byte-by-byte loop on a buffer needs the regions equal or
    disjoint. *)
Theorem xor_in2out_correct (m : mem) (b : InOutBuf) (data : list u8) :
  buf_valid 1 m b ->
  (length data <> buf_len b -> buf_xor_in2out m b data = Panic)
  /\ (length data = buf_len b ->
      let m' := patch m (buf_out b)
                  (xor_bytes (take (buf_len b) (drop (buf_in b) m)) data) in
      buf_xor_in2out m b data = Ret m'
      /\ (forall x, buf_try_into (buf_len b) b = Ok x ->
            io_xor_in2out (buf_len b) m x data = Ret m')
      /\ (forall N M rows x, buf_len b = M * N -> buf_try_into (M * N) b = Ok x ->
            data = concat rows -> length rows = M ->
            Forall (fun a => length a = N) rows ->
            io_xor_in2out_arrays N M m x rows = Ret m')).
Proof.
  intros Hv. unfold buf_valid in Hv. rewrite Nat.mul_1_l in Hv. split.
  - intros Hl. unfold buf_xor_in2out. rewrite (proj2 (Nat.eqb_neq _ _)) by lia. done.
  - intros Hl m'. split; [by apply buf_xor_ok|].
    destruct Hv as (Hi & Ho & _). unfold buf_try_into. split.
    + rewrite Nat.eqb_refl. intros x [= <-]. by rewrite io_xor_ok.
    + intros N M rows x HNM Hx -> Hrows HF. rewrite HNM, Nat.eqb_refl in Hx.
      injection Hx as <-. rewrite io_xor_arrays_ok by (cbn [in_ptr out_ptr]; done || lia).
      cbn [in_ptr out_ptr]. by rewrite <- HNM.
Qed.

Lemma xor_in2out_correct_witness :
  buf_xor_in2out [1; 2; 3]%u8 (mkInOutBuf 0 0 2) [255; 1]%u8 = Ret [254; 3; 3]%u8.
Proof.
  refine (proj1 (proj2 (xor_in2out_correct [1; 2; 3]%u8 (mkInOutBuf 0 0 2) [255; 1]%u8 _) _)).
  - unfold buf_valid, valid. simpl. lia.
  - reflexivity.
Defined.

(** C35. [split_at] and [into_chunks] partition a buffer: input and output
    regions of the parts are adjacent and make up those of the buffer, the
    parts satisfy the safety condition when the buffer does and their inputs
    are the input; the chunks leave less than a chunk. [split_at] panics
    exactly beyond the length. *)
Theorem split_partition (sz N mid : nat) (m : mem) (b : InOutBuf) :
  0 < N -> buf_valid sz m b ->
  (mid <= buf_len b -> exists b1 b2, buf_split_at sz b mid = Ret (b1, b2)
     /\ buf_len b1 = mid /\ partition sz b sz b1 sz b2
     /\ buf_valid sz m b1 /\ buf_valid sz m b2)
  /\ (buf_len b < mid -> buf_split_at sz b mid = Panic)
  /\ (exists b1 b2, buf_into_chunks sz N b = Ret (b1, b2) /\ buf_len b2 < N
     /\ partition sz b (N * sz) b1 sz b2
     /\ buf_valid (N * sz) m b1 /\ buf_valid sz m b2
     /\ (let! x := buf_get_in (N * sz) m b1 in
         let! y := buf_get_in sz m b2 in Ret (x ++ y)) = buf_get_in sz m b).
Proof.
  intros HN Hv. split_and!.
  - intros Hm. destruct (buf_split_at_ok sz b mid Hm) as (b1 & b2 & E & Hp & Hl).
    destruct (partition_valid _ _ _ _ _ _ _ Hp Hv) as (? & ? & _). eauto 10.
  - intros Hm. unfold buf_split_at. by rewrite (proj2 (Nat.leb_gt _ _)).
  - destruct (buf_into_chunks_ok sz N b HN) as (b1 & b2 & E & Hp & Hl).
    destruct (partition_valid _ _ _ _ _ _ _ Hp Hv) as (? & ? & ?).
    exists b1, b2. by split_and!.
Qed.

Lemma split_partition_witness :
  exists b1 b2, buf_into_chunks 1 2 (mkInOutBuf 0 5 5) = Ret (b1, b2) /\ buf_len b2 < 2.
Proof.
  destruct (split_partition 1 2 0 (replicate 10 Byte.x00) (mkInOutBuf 0 5 5))
    as (_ & _ & b1 & b2 & H1 & H2 & _).
  - lia.
  - unfold buf_valid, valid. simpl. lia.
  - by exists b1, b2.
Defined.

(** The iterator gives, in order and once each, exactly the pairs that
    [get] returns for the positions below the length, then [None]; [get]
    panics at every other position. *)
Lemma iterator_gets (sz : nat) (b : InOutBuf) :
  exists items, it_drain sz (S (buf_len b)) (buf_into_iter b) = Some items
    /\ length items = buf_len b
    /\ (forall k x, items !! k = Some x <-> buf_get sz b k = Ret x)
    /\ (forall k, buf_len b <= k -> buf_get sz b k = Panic).
Proof.
  eexists. split; [by apply it_drain_ok|]. rewrite length_map, length_seq.
  split; [done|]. unfold buf_get. split.
  - intros k x. rewrite (list_lookup_fmap _ (seq 0 (buf_len b)) k).
    destruct (Nat.ltb_spec k (buf_len b)) as [Hk|Hk].
    + rewrite lookup_seq_lt by done. simpl. split; [intros [= <-]|intros [= <-]]; done.
    + rewrite lookup_seq_ge by done. done.
  - intros k Hk. by rewrite (proj2 (Nat.ltb_ge _ _)).
Qed.

(** [get_out_len] does not return the length of the output buffer: it
    returns that of the input, so it differs from the length of the slice
    [get_out] gives exactly when the buffer reserves space. *)
Theorem get_out_len_is_in_len (buf : Slice) (msg_len : nat) (r : InOutBufReserved) :
  res_from_mut_slice buf msg_len = Ok r ->
  get_out_len r = msg_len /\ slen (res_get_out r) = slen buf
  /\ (get_out_len r = slen (res_get_out r) <-> msg_len = slen buf).
Proof.
  unfold res_from_mut_slice. destruct (Nat.ltb_spec (slen buf) msg_len); [done|].
  by intros [= <-].
Qed.

Lemma get_out_len_is_in_len_witness :
  get_out_len (mkReserved 0 0 3 8) = 3 /\ slen (res_get_out (mkReserved 0 0 3 8)) = 8.
Proof.
  destruct (get_out_len_is_in_len (mkSlice 0 8) 3 (mkReserved 0 0 3 8)) as (H1 & H2 & _);
    [reflexivity|by split].
Defined.
