(* ===== verification/StdTraits.v ===== *)
(** * [Display], [Debug] and [Clone] of the crates

    The implementations that are written by hand, not derived: the texts of the error
    types of [block-buffer], [block-padding] and [inout], what a [ReadBuffer] shows
    of itself, and the copies of buffers. A formatter is the text that it collects. *)
From Stdlib Require Import Strings.String.
From stdpp Require Import base numbers list strings pretty.
From S2P Require Import Prelude Sealed BlockBuffer ReadBuffer BlockPadding InOut.
#[local] Open Scope string_scope.

(** ** [Display] *)

(** [<T as Display>::fmt], on the text written so far. *)
Class Display (T : Type) := fmt : T -> string -> string.

(** [f.write_str(s)] *)
Definition write_str (f s : string) : string := f +:+ s.

#[export] Instance display_block_buffer_error : Display BlockBuffer.Error :=
  fun _ f => write_str f "Block buffer error".
#[export] Instance display_unpad_error : Display UnpadError :=
  fun _ f => write_str f "Unpad Error".
#[export] Instance display_into_array_error : Display IntoArrayError :=
  fun _ f => write_str f "Failed to convert into array.".
#[export] Instance display_not_equal_error : Display NotEqualError :=
  fun _ f => write_str f "Length of input slices is not equal to each other".
#[export] Instance display_pad_error : Display PadError :=
  fun _ f => write_str f "Padding error".
#[export] Instance display_out_is_too_small_error : Display OutIsTooSmallError :=
  fun _ f => write_str f "Output buffer is smaller than input".

(** [e.to_string()] *)
Definition to_string {T} `{Display T} (e : T) : string := fmt e "".

(** ** [Debug] *)

(** [f.debug_struct(name).field(field, &value).finish()] *)
Definition debug_struct (name field : string) (value : nat) (f : string) : string :=
  write_str f (name +:+ " { " +:+ field +:+ ": " +:+ pretty value +:+ " }").

(** [<ReadBuffer as Debug>::fmt] *)
Definition read_buffer_fmt (BS : nat) (self : ReadBuffer) (f : string) : run string :=
  let! pos := rb_get_pos BS self in
  Ret (debug_struct "ReadBuffer" "remaining_data" pos f).

(** ** [Clone] *)

Definition block_buffer_clone {K} `{Sealed K} (self : BlockBuffer K) : BlockBuffer K :=
  mkBlockBuffer (buffer self) (pos self).

Definition read_buffer_clone (self : ReadBuffer) : ReadBuffer := mkReadBuffer (rbuffer self).

Lemma block_buffer_clone_eq {K} `{Sealed K} (b : BlockBuffer K) : block_buffer_clone b = b.
Proof. by destruct b. Qed.

Lemma read_buffer_clone_eq b : read_buffer_clone b = b.
Proof. by destruct b. Qed.

(** ** What is shown *)

(** Errors of different types have different texts. *)
Lemma error_texts :
  NoDup [to_string BlockBufferError; to_string mkUnpadError; to_string mkIntoArrayError;
         to_string mkNotEqualError; to_string mkPadError; to_string mkOutIsTooSmallError].
Proof. apply (bool_decide_unpack _). vm_compute. exact I. Qed.

(** The field named [remaining_data] shows the position: for a buffer that has
    [length d] bytes left to serve it is the block size less that. *)
Lemma read_buffer_debug (BS : nat) `{!BlockSizes BS} b d f :
  rb_repr BS b d ->
  read_buffer_fmt BS b f
  = Ret (debug_struct "ReadBuffer" "remaining_data" (BS - length d) f)
  /\ rb_remaining BS b = Ret (length d).
Proof.
  intros Hr. unfold read_buffer_fmt. rewrite (rb_get_pos_repr BS b d Hr). split; [done|].
  by apply rb_remaining_repr.
Qed.

Example fresh_read_buffer_debug :
  (let! b := rb_default 4 in
   let! s := read_buffer_fmt 4 b "" in
   let! n := rb_remaining 4 b in Ret (s, n))
  = Ret ("ReadBuffer { remaining_data: 4 }", 0).
Proof. vm_compute. reflexivity. Qed.
