(* ===== verification/Cmov.v ===== *)
(** * Conditional moves

    [cmov/src]: the trait [Cmov] as the class [Cmov] for words of [w] bits, its
    portable implementation ([portable.rs]), the implementations by inline
    assembly ([x86.rs], [aarch64.rs]) and those of [lib.rs] for [u8] and [u128]
    over any of them. An assembly block is modelled on its registers: a value
    narrower than its register leaves the upper bits of the register unspecified,
    so they are arguments of the model. [CmovLaws] is what a client assumes. *)
From S2P Require Import Prelude.
From stdpp Require Import base numbers list.
Open Scope Z_scope.

(** [type Condition = u8] *)
Definition Condition : Type := u8.

(** [trait Cmov] for the unsigned words of [w] bits: the new value of [*self]. *)
Class Cmov (w : Z) := {
  cmovz : Z -> Z -> Condition -> Z;
  cmovnz : Z -> Z -> Condition -> Z;
}.
Arguments cmovz w {_}.
Arguments cmovnz w {_}.

(** [x.wrapping_add(y)], [x.wrapping_sub(y)], [!x] of a [w]-bit word. *)
Definition wrapping_add (w x y : Z) : Z := wrap w (x + y).
Definition wrapping_sub (w x y : Z) : Z := wrap w (x - y).
Definition wnot (w x : Z) : Z := 2 ^ w - 1 - x.

(** ** [portable.rs] *)

(** [fn is_non_zero]; [SHIFT_BITS] is [size_of::<u64>() - 1]. *)
Definition is_non_zero (condition : Condition) : Z :=
  let SHIFT_BITS := 8 - 1 in
  let condition := b2z condition in
  Z.land (Z.shiftr (Z.lor condition (wrapping_add 64 (wnot 64 condition) 1)) SHIFT_BITS) 1.

Definition portable_cmovz_u64 (self value : Z) (condition : Condition) : Z :=
  let mask := wrapping_sub 64 (Z.lxor 1 (is_non_zero condition)) 1 in
  Z.lor (Z.land self mask) (Z.land value (wnot 64 mask)).

Definition portable_cmovnz_u64 (self value : Z) (condition : Condition) : Z :=
  let mask := wrapping_sub 64 (is_non_zero condition) 1 in
  Z.lor (Z.land self mask) (Z.land value (wnot 64 mask)).

Definition portable_u64 : Cmov 64 :=
  {| cmovz := portable_cmovz_u64; cmovnz := portable_cmovnz_u64 |}.

(** [u16] and [u32]: the widened values go through [u64]. *)
Definition portable_u16 : Cmov 16 := {|
  cmovz self value condition :=
    let tmp := self in
    let tmp := @cmovz 64 portable_u64 tmp value condition in
    wrap 16 tmp;
  cmovnz self value condition :=
    let tmp := self in
    let tmp := @cmovnz 64 portable_u64 tmp value condition in
    wrap 16 tmp;
|}.

Definition portable_u32 : Cmov 32 := {|
  cmovz self value condition :=
    let tmp := self in
    let tmp := @cmovz 64 portable_u64 tmp value condition in
    wrap 32 tmp;
  cmovnz self value condition :=
    let tmp := self in
    let tmp := @cmovnz 64 portable_u64 tmp value condition in
    wrap 32 tmp;
|}.

(** ** [lib.rs]: [u8] over [u16], [u128] over [u64] *)

Definition cmov_u8 (C16 : Cmov 16) : Cmov 8 := {|
  cmovz self value condition :=
    let tmp := self in
    let tmp := cmovz 16 tmp value condition in
    wrap 8 tmp;
  cmovnz self value condition :=
    let tmp := self in
    let tmp := cmovnz 16 tmp value condition in
    wrap 8 tmp;
|}.

Definition u64_MAX : Z := 2 ^ 64 - 1.

Definition cmov_u128 (C64 : Cmov 64) : Cmov 128 := {|
  cmovz self value condition :=
    let lo := wrap 64 (Z.land self u64_MAX) in
    let hi := wrap 64 (Z.shiftr self 64) in
    let lo := cmovz 64 lo (wrap 64 (Z.land value u64_MAX)) condition in
    let hi := cmovz 64 hi (wrap 64 (Z.shiftr value 64)) condition in
    Z.lor lo (ushl 128 hi 64);
  cmovnz self value condition :=
    let lo := wrap 64 (Z.land self u64_MAX) in
    let hi := wrap 64 (Z.shiftr self 64) in
    let lo := cmovnz 64 lo (wrap 64 (Z.land value u64_MAX)) condition in
    let hi := cmovnz 64 hi (wrap 64 (Z.shiftr value 64)) condition in
    Z.lor lo (ushl 128 hi 64);
|}.

(** ** Inline assembly *)

(** The register that holds the [w]-bit value [v], under the bits [junk]. *)
Definition reg (w v junk : Z) : Z := v + junk * 2 ^ w.

(** The bits above the value in the registers of [dst], [src] and
    [condition]. *)
Record Junk := mkJunk { dst_junk : Z; src_junk : Z; cond_junk : Z }.

(** [cmov!] of [x86.rs]: [test {0}, {0}] on the byte register of the condition,
    then [cmovz] or [cmovnz] on [bits]-bit registers. [zero] is [true] for
    [cmovz], which moves if the zero flag is set. *)
Definition x86_cmov (zero : bool) (bits w : Z) (j : Junk) (dst src : Z)
    (condition : Condition) : Z :=
  let r0 := b2z condition in
  let r1 := reg w dst (dst_junk j) in
  let r2 := reg w src (src_junk j) in
  let zf := Z.land r0 r0 =? 0 in
  let r1 := if Bool.eqb zf zero then wrap bits r2 else wrap bits r1 in
  wrap w r1.

Definition x86_u16 (j : Junk) : Cmov 16 :=
  {| cmovz := x86_cmov true 32 16 j; cmovnz := x86_cmov false 32 16 j |}.
Definition x86_u32 (j : Junk) : Cmov 32 :=
  {| cmovz := x86_cmov true 32 32 j; cmovnz := x86_cmov false 32 32 j |}.
Definition x86_u64 (j : Junk) : Cmov 64 :=
  {| cmovz := x86_cmov true 64 64 j; cmovnz := x86_cmov false 64 64 j |}.

(** [csel!] of [aarch64.rs]: [cmp {0}, 0] and [csel {1}, {2}, {3}, cc] on
    [bits]-bit registers, [eq] for the condition [EQ]. *)
Definition aarch64_csel (eq : bool) (bits w : Z) (j : Junk) (dst src : Z)
    (condition : Condition) : Z :=
  let r0 := reg 8 (b2z condition) (cond_junk j) in
  let r2 := reg w src (src_junk j) in
  let r3 := reg w dst (dst_junk j) in
  let zf := wrap bits r0 =? 0 in
  let r1 := if Bool.eqb zf eq then wrap bits r2 else wrap bits r3 in
  wrap w r1.

Definition aarch64_u16 (j : Junk) : Cmov 16 :=
  {| cmovz := aarch64_csel true 32 16 j; cmovnz := aarch64_csel false 32 16 j |}.
Definition aarch64_u32 (j : Junk) : Cmov 32 :=
  {| cmovz := aarch64_csel true 32 32 j; cmovnz := aarch64_csel false 32 32 j |}.
Definition aarch64_u64 (j : Junk) : Cmov 64 :=
  {| cmovz := aarch64_csel true 64 64 j; cmovnz := aarch64_csel false 64 64 j |}.

(** ** What a client of the trait may assume *)

Class CmovLaws (w : Z) (C : Cmov w) : Prop := {
  cmovz_law self value c : word_ok w self -> word_ok w value ->
    cmovz w self value c = if decide (b2z c = 0) then value else self;
  cmovnz_law self value c : word_ok w self -> word_ok w value ->
    cmovnz w self value c = if decide (b2z c = 0) then self else value;
}.

Lemma is_non_zero_spec c : is_non_zero c = if decide (b2z c = 0) then 0 else 1.
Proof. by destruct c; vm_compute. Qed.

Lemma wrap_small w v : word_ok w v -> wrap w v = v.
Proof. apply Z.mod_small. Qed.

(** The masks are all zeros or all ones. *)
Lemma select_zeros w a b :
  0 <= w -> word_ok w b -> Z.lor (Z.land a 0) (Z.land b (wnot w 0)) = b.
Proof.
  intros Hw Hb. rewrite Z.land_0_r, Z.lor_0_l. unfold wnot.
  replace (2 ^ w - 1 - 0) with (Z.ones w) by (rewrite Z.ones_equiv; lia).
  rewrite Z.land_ones by lia. by apply wrap_small.
Qed.

Lemma select_ones w a b :
  0 <= w -> word_ok w a ->
  Z.lor (Z.land a (2 ^ w - 1)) (Z.land b (wnot w (2 ^ w - 1))) = a.
Proof.
  intros Hw Ha. unfold wnot. rewrite Z.sub_diag, Z.land_0_r, Z.lor_0_r.
  replace (2 ^ w - 1) with (Z.ones w) by (rewrite Z.ones_equiv; lia).
  rewrite Z.land_ones by lia. by apply wrap_small.
Qed.

#[export] Instance portable_u64_laws : CmovLaws 64 portable_u64.
Proof.
  split; intros self value c Hs Hv; simpl;
    unfold portable_cmovz_u64, portable_cmovnz_u64; rewrite is_non_zero_spec;
    destruct (decide _).
  - by apply select_zeros.
  - by apply select_ones.
  - by apply select_ones.
  - by apply select_zeros.
Qed.

Lemma word_ok_le w w' v : w <= w' -> word_ok w v -> word_ok w' v.
Proof.
  unfold word_ok. intros Hw Hv.
  assert (2 ^ w <= 2 ^ w') by (destruct (decide (0 <= w));
    [by apply Z.pow_le_mono_r|rewrite (Z.pow_neg_r 2 w) by lia; apply Z.pow_nonneg; lia]).
  lia.
Qed.

(** A narrow word through a wider one. *)
Lemma narrow_laws w w' (C : Cmov w) (C' : Cmov w') :
  w <= w' -> CmovLaws w' C' ->
  (forall s v c, cmovz w s v c = wrap w (cmovz w' s v c)
                 /\ cmovnz w s v c = wrap w (cmovnz w' s v c)) ->
  CmovLaws w C.
Proof.
  intros Hw HL HC. split; intros s v c Hs Hv; destruct (HC s v c) as [E1 E2];
    [rewrite E1, cmovz_law|rewrite E2, cmovnz_law]; try by eapply word_ok_le.
  - destruct (decide _); by apply wrap_small.
  - destruct (decide _); by apply wrap_small.
Qed.

#[export] Instance portable_u32_laws : CmovLaws 32 portable_u32.
Proof. by apply (narrow_laws 32 64 _ portable_u64); [lia|apply _|]. Qed.
#[export] Instance portable_u16_laws : CmovLaws 16 portable_u16.
Proof. by apply (narrow_laws 16 64 _ portable_u64); [lia|apply _|]. Qed.
#[export] Instance cmov_u8_laws (C : Cmov 16) {HC : CmovLaws 16 C} : CmovLaws 8 (cmov_u8 C).
Proof. by apply (narrow_laws 8 16 _ C); [lia|apply _|]. Qed.

(** The halves of a double word. *)
Lemma halves v :
  word_ok 128 v ->
  word_ok 64 (wrap 64 (Z.land v u64_MAX)) /\ word_ok 64 (wrap 64 (Z.shiftr v 64))
  /\ Z.lor (wrap 64 (Z.land v u64_MAX)) (ushl 128 (wrap 64 (Z.shiftr v 64)) 64) = v.
Proof.
  intros Hv. unfold word_ok, wrap in *.
  split; [apply Z.mod_pos_bound; lia|]. split; [apply Z.mod_pos_bound; lia|].
  unfold u64_MAX. replace (2 ^ 64 - 1) with (Z.ones 64) by done.
  rewrite Z.land_ones, Z.mod_mod, Z.shiftr_div_pow2 by lia.
  pose proof (Z.div_mod v (2 ^ 64)). pose proof (Z.mod_pos_bound v (2 ^ 64)).
  assert (0 <= v / 2 ^ 64 < 2 ^ 64) as Hq.
  { split; [apply Z.div_pos; lia|apply Z.div_lt_upper_bound; lia]. }
  rewrite (Z.mod_small (v / 2 ^ 64)) by done. unfold ushl, wrap.
  rewrite Z.shiftl_mul_pow2, (Z.mod_small (v / 2 ^ 64 * _)) by lia.
  apply Z.bits_inj'. intros i Hi. rewrite Z.lor_spec, <- Z.shiftl_mul_pow2 by lia.
  destruct (Z.ltb_spec i 64).
  - rewrite Z.mod_pow2_bits_low, Z.shiftl_spec_low by lia. by rewrite orb_false_r.
  - rewrite Z.mod_pow2_bits_high, Z.shiftl_spec, Z.div_pow2_bits by lia.
    rewrite orb_false_l. f_equal. lia.
Qed.

#[export] Instance cmov_u128_laws (C : Cmov 64) {HC : CmovLaws 64 C} : CmovLaws 128 (cmov_u128 C).
Proof.
  split; intros s v c Hs Hv; simpl;
    destruct (halves s Hs) as (Hsl & Hsh & Es), (halves v Hv) as (Hvl & Hvh & Ev);
    [rewrite !cmovz_law by done|rewrite !cmovnz_law by done]; by destruct (decide _).
Qed.

Lemma reg_low w bits v junk :
  0 <= w <= bits -> word_ok w v -> wrap w (wrap bits (reg w v junk)) = v.
Proof.
  intros Hw Hv. unfold wrap, reg.
  replace bits with (w + (bits - w)) by lia. rewrite Z.pow_add_r by lia.
  rewrite Z.rem_mul_r by (try apply Z.pow_nonzero; try apply Z.pow_pos_nonneg; lia).
  rewrite (Z.mul_comm (2 ^ w)), Z.mod_add by (apply Z.pow_nonzero; lia).
  rewrite Z.mod_mod, Z.mod_add by (apply Z.pow_nonzero; lia). by apply Z.mod_small.
Qed.

Lemma x86_laws bits w j : 0 <= w <= bits ->
  CmovLaws w {| cmovz := x86_cmov true bits w j; cmovnz := x86_cmov false bits w j |}.
Proof.
  intros Hw. split; intros s v c Hs Hv; simpl; unfold x86_cmov; rewrite Z.land_diag;
    destruct (decide _) as [->|Hc];
    rewrite ?(proj2 (Z.eqb_neq _ _) Hc); simpl Bool.eqb; cbv iota zeta; by apply reg_low.
Qed.

(** On AArch64 the comparison reads [bits] bits of the register of the
    condition. *)
Lemma aarch64_law eq bits w j s v c :
  0 <= w <= bits -> word_ok w s -> word_ok w v ->
  aarch64_csel eq bits w j s v c
  = if Bool.eqb (wrap bits (reg 8 (b2z c) (cond_junk j)) =? 0) eq then v else s.
Proof.
  intros Hw Hs Hv. unfold aarch64_csel. destruct (Bool.eqb _ _); by apply reg_low.
Qed.

Lemma aarch64_laws bits w j : 0 <= w <= bits -> 8 <= bits -> cond_junk j = 0 ->
  CmovLaws w {| cmovz := aarch64_csel true bits w j; cmovnz := aarch64_csel false bits w j |}.
Proof.
  intros Hw Hb Hj. split; intros s v c Hs Hv; simpl; rewrite aarch64_law by done;
    rewrite Hj; unfold reg; rewrite Z.mul_0_l, Z.add_0_r, wrap_small
      by (apply (word_ok_le 8); [done|apply b2z_range]);
    destruct (decide _) as [->|Hc]; rewrite ?(proj2 (Z.eqb_neq _ _) Hc); done.
Qed.

(** ** Properties *)

(** C16. For every value and every condition byte, the portable implementation
    and the x86 one, the latter whatever the unused bits of its registers, move
    exactly when the condition is zero ([cmovz]) or not zero ([cmovnz]), at all
    of the five widths; [u8] and [u128] are derived from [u16] and [u64]. So does
    the AArch64 one when the register that holds the condition is zero above its
    low byte; otherwise, with a zero condition byte under any nonzero bits that the
    comparison reads, its [cmovz] keeps the old value and its [cmovnz] moves. *)
Theorem cmov_correct (j : Junk) :
  (CmovLaws 8 (cmov_u8 portable_u16) /\ CmovLaws 16 portable_u16
   /\ CmovLaws 32 portable_u32 /\ CmovLaws 64 portable_u64
   /\ CmovLaws 128 (cmov_u128 portable_u64))
  /\ (CmovLaws 8 (cmov_u8 (x86_u16 j)) /\ CmovLaws 16 (x86_u16 j)
   /\ CmovLaws 32 (x86_u32 j) /\ CmovLaws 64 (x86_u64 j)
   /\ CmovLaws 128 (cmov_u128 (x86_u64 j)))
  /\ (cond_junk j = 0 ->
     CmovLaws 8 (cmov_u8 (aarch64_u16 j)) /\ CmovLaws 16 (aarch64_u16 j)
     /\ CmovLaws 32 (aarch64_u32 j) /\ CmovLaws 64 (aarch64_u64 j)
     /\ CmovLaws 128 (cmov_u128 (aarch64_u64 j)))
  /\ (forall s v, word_ok 32 s -> word_ok 32 v -> 0 < cond_junk j < 2 ^ 24 ->
     cmovz 32 (Cmov := aarch64_u32 j) s v Byte.x00 = s
     /\ cmovnz 32 (Cmov := aarch64_u32 j) s v Byte.x00 = v).
Proof.
  assert (CmovLaws 16 (x86_u16 j)) by (by apply x86_laws).
  assert (CmovLaws 64 (x86_u64 j)) by (by apply x86_laws).
  assert (CmovLaws 32 (x86_u32 j)) by (by apply x86_laws).
  split; [split_and!; apply _ || done|]. split; [split_and!; apply _ || done|]. split.
  - intros Hj. assert (CmovLaws 16 (aarch64_u16 j)) by (by apply aarch64_laws).
    assert (CmovLaws 64 (aarch64_u64 j)) by (by apply aarch64_laws).
    assert (CmovLaws 32 (aarch64_u32 j)) by (by apply aarch64_laws).
    split_and!; apply _ || done.
  - intros s v Hs Hv Hj. simpl. rewrite !aarch64_law by done.
    rewrite wrap_small by (unfold word_ok, reg; change (b2z Byte.x00) with 0; lia).
    rewrite (proj2 (Z.eqb_neq _ _)) by (unfold reg; change (b2z Byte.x00) with 0; lia). done.
Qed.

Lemma cmov_correct_witness :
  cmovz 32 (Cmov := aarch64_u32 (mkJunk 0 0 1)) 7 9 Byte.x00 = 7.
Proof.
  destruct (cmov_correct (mkJunk 0 0 1)) as (_ & _ & _ & Hj).
  refine (proj1 (Hj 7 9 _ _ _));
    [split; [discriminate|reflexivity]|split; [discriminate|reflexivity]|split; reflexivity].
Defined.
