(* ===== verification/CmovTests.v ===== *)
(** * The tests of [cmov]

    The tests of [cmov/tests/lib.rs] on the model of [Cmov.v]. They pass on every
    lawful implementation, so on each one that the crate can be compiled with. *)
From stdpp Require Import base numbers list.
From S2P Require Import Prelude Cmov.
Open Scope Z_scope.

(** [for cond in 1..0xFF] *)
Definition conditions : list Condition := map n2b (seq 1 (0xFF - 1)).

(** The module [u8], [u16], ... of the tests; [n], [value]: the integers of the width. *)
Section width.
Context (w : Z) {C : Cmov w} (n value : Z).

Definition cmovz_works : run unit :=
  let! m := for_in conditions n (fun cond m =>
    let m := cmovz w m value cond in
    let! _ := assert_eq m n in
    Ret m) in
  let m := cmovz w m value 0%u8 in
  assert_eq m value.

(** [shadow]: the integer that each round of the loop starts with. *)
Definition cmovnz_works (shadow : Z) : run unit :=
  let m := cmovnz w n value 0%u8 in
  let! _ := assert_eq m n in
  for_in conditions tt (fun cond _ =>
    let m := cmovnz w shadow value cond in
    assert_eq m value).
End width.

(** The tests of every width, on an implementation of each. *)
Definition all_tests (C8 : Cmov 8) (C16 : Cmov 16) (C32 : Cmov 32) (C64 : Cmov 64)
    (C128 : Cmov 128) : list (run unit) :=
  [cmovz_works 8 0x11 0x22; cmovnz_works 8 0x11 0x22 0x11;
   cmovz_works 16 0x1111 0x2222; cmovnz_works 16 0x1111 0x2222 0x1111;
   cmovz_works 32 0x11111111 0x22222222; cmovnz_works 32 0x11111111 0x22222222 0x11111111;
   cmovz_works 64 0x1111111111111111 0x2222222222222222;
   cmovnz_works 64 0x1111111111111111 0x2222222222222222 0x1111111111111111;
   cmovz_works 128 0x11111111111111112222222222222222 0x22222222222222223333333333333333;
   cmovnz_works 128 0x11111111111111112222222222222222 0x22222222222222223333333333333333
     0x1111111111111111].

(** ** They pass *)

Lemma conditions_nonzero : Forall (fun c => b2z c <> 0) conditions.
Proof. apply (bool_decide_unpack _). by vm_compute. Qed.

(** A loop whose body returns the state it is given. *)
Lemma for_in_const {A S} (l : list A) (s : S) body (P : A -> Prop) :
  Forall P l -> (forall x, P x -> body x s = Ret s) -> for_in l s body = Ret s.
Proof. intros Hl Hb. induction Hl as [|x l Hx _ IH]; [done|]. simpl. by rewrite (Hb x Hx). Qed.

Lemma assert_eq_refl `{EqDecision A} (a : A) : assert_eq a a = Ret tt.
Proof. unfold assert_eq. by rewrite bool_decide_true. Qed.

Section laws.
Context (w : Z) {C : Cmov w} `{!CmovLaws w C} (n value : Z).
Context (Hn : word_ok w n) (Hv : word_ok w value).

Lemma cmovz_works_ok : cmovz_works w n value = Ret tt.
Proof.
  unfold cmovz_works. rewrite (for_in_const _ _ _ _ conditions_nonzero).
  - rewrite bind_Ret, cmovz_law by done. apply assert_eq_refl.
  - intros c Hc. by rewrite cmovz_law, decide_False, assert_eq_refl by done.
Qed.

Lemma cmovnz_works_ok shadow : word_ok w shadow -> cmovnz_works w n value shadow = Ret tt.
Proof.
  intros Hs. unfold cmovnz_works. rewrite cmovnz_law, decide_True by done.
  rewrite assert_eq_refl, bind_Ret. apply (for_in_const _ _ _ _ conditions_nonzero).
  intros c Hc. rewrite cmovnz_law, decide_False by done. apply assert_eq_refl.
Qed.
End laws.

(** Whatever lawful implementations the widths have. *)
Lemma all_tests_pass (C8 : Cmov 8) (C16 : Cmov 16) (C32 : Cmov 32) (C64 : Cmov 64)
    (C128 : Cmov 128) `{!CmovLaws 8 C8, !CmovLaws 16 C16, !CmovLaws 32 C32, !CmovLaws 64 C64,
    !CmovLaws 128 C128} :
  Forall (fun t => t = Ret tt) (all_tests C8 C16 C32 C64 C128).
Proof.
  unfold all_tests. repeat (apply Forall_cons_2; [|]); [..|apply Forall_nil_2];
    first [apply cmovz_works_ok|apply cmovnz_works_ok]; try apply _; split; done || reflexivity.
Qed.

Lemma portable_tests_pass :
  Forall (fun t => t = Ret tt)
    (all_tests (cmov_u8 portable_u16) portable_u16 portable_u32 portable_u64
       (cmov_u128 portable_u64)).
Proof. apply all_tests_pass; apply _. Qed.

(** Whatever the upper bits of the registers are. *)
Lemma x86_tests_pass j :
  Forall (fun t => t = Ret tt)
    (all_tests (cmov_u8 (x86_u16 j)) (x86_u16 j) (x86_u32 j) (x86_u64 j)
       (cmov_u128 (x86_u64 j))).
Proof.
  assert (CmovLaws 16 (x86_u16 j)) by (by apply x86_laws).
  assert (CmovLaws 32 (x86_u32 j)) by (by apply x86_laws).
  assert (CmovLaws 64 (x86_u64 j)) by (by apply x86_laws).
  apply all_tests_pass; apply _.
Qed.
