(* ===== verification/HexLiteral.v ===== *)
(** * Hex literals

    [hex-literal/src]: the state machine that excludes comments
    ([comments.rs]) and the [hex!] macro ([lib.rs]) on token trees. A literal is
    the bytes of its text as [to_string] gives them, quotes included. A string
    iterator is the list of the bytes it has left. The specification is the grammar of
    comments ([strips]), as documented and as the machine reads it, and the table of
    the digits. *)
From Stdlib Require Import Strings.String.
From S2P Require Import Prelude.
From stdpp Require Import base numbers list.

(** ** [comments.rs] *)

(** [enum State] *)
Inductive State : Set :=
  | Normal
  | PotentialComment
  | LineComment
  | BlockComment
  | PotentialBlockCommentEnd.

(** [struct ExcludingComments] *)
Record ExcludingComments := mkExcludingComments { state : State; iter : list u8 }.

Definition new_from_iter (iter : list u8) : ExcludingComments :=
  mkExcludingComments Normal iter.

(** The loop of [next_byte]: the byte returned, and the final state and rest. *)
Fixpoint next_byte (st : State) (it : list u8) :
    run (option u8 * ExcludingComments) :=
  match it with
  | [] => Ret (None, mkExcludingComments st [])
  | next :: it =>
      match st, next with
      | Normal, 47%u8 => next_byte PotentialComment it
      | Normal, _ => Ret (Some next, mkExcludingComments st it)
      | PotentialComment, 47%u8 => next_byte LineComment it
      | PotentialComment, 42%u8 => next_byte BlockComment it
      | PotentialComment, _ => Panic
      | LineComment, 10%u8 => Ret (Some 10%u8, mkExcludingComments Normal it)
      | LineComment, _ => next_byte st it
      | BlockComment, 42%u8 => next_byte PotentialBlockCommentEnd it
      | BlockComment, _ => next_byte st it
      | PotentialBlockCommentEnd, 47%u8 => next_byte Normal it
      | PotentialBlockCommentEnd, _ => next_byte BlockComment it
      end
  end.

(** [<ExcludingComments as Iterator>::next] *)
Definition ec_next (e : ExcludingComments) : run (option u8 * ExcludingComments) :=
  let! (next_byte, e) := next_byte (state e) (iter e) in
  match next_byte with
  | None =>
      match state e with
      | BlockComment | PotentialBlockCommentEnd => Panic
      | PotentialComment => Panic
      | _ => Ret (next_byte, e)
      end
  | Some _ => Ret (next_byte, e)
  end.

(** ** [lib.rs] *)

(** [proc_macro::TokenTree]: groups, literals, the comma and the rest. *)
Inductive Delimiter : Set := Parenthesis | Brace | Bracket | NoDelimiter.
#[warnings="-register-all"]
Inductive TokenTree : Type :=
  | Group (delimiter : Delimiter) (stream : list TokenTree)
  | Literal (text : list u8)
  | U8Literal (val : u8)
  | Comma
  | OtherToken.

(** The loop of [ignore_groups]: [tokens] iterates over the original input,
    also after [input] has been replaced by the stream of a group. *)
Fixpoint ignore_groups_loop (input tokens : list TokenTree) : list TokenTree :=
  match tokens with
  | Group NoDelimiter stream :: tokens => ignore_groups_loop stream tokens
  | _ => input
  end.

(** [fn ignore_groups] *)
Definition ignore_groups (input : list TokenTree) : list TokenTree :=
  ignore_groups_loop input input.

(** [struct TokenTreeIter] *)
Record TokenTreeIter := mkTokenTreeIter { buf : ExcludingComments; is_punct : bool }.

(** [TokenTreeIter::new] *)
Definition new (input : list u8) : run TokenTreeIter :=
  let buf := input in
  let quoted :=
    match head buf, last buf with
    | Some 34%u8, Some 34%u8 => 2 <=? length buf
    | _, _ => false
    end in
  if (quoted : bool) then
    let buf := take (length buf - 1) buf in
    let iter := new_from_iter buf in
    let! (_, iter) := ec_next iter in
    Ret (mkTokenTreeIter iter false)
  else Panic.

(** The value of a hexadecimal digit ([Some (Some n)]), a byte to skip
    ([Some None]) or an invalid byte ([None]): the [match] of
    [next_hex_val]. *)
Definition hex_class (v : u8) : option (option Z) :=
  let z := b2z v in
  if (48 <=? z)%Z && (z <=? 57)%Z then Some (Some (z - 48)%Z)
  else if (65 <=? z)%Z && (z <=? 70)%Z then Some (Some (z - 55)%Z)
  else if (97 <=? z)%Z && (z <=? 102)%Z then Some (Some (z - 87)%Z)
  else if (z =? 32)%Z || (z =? 13)%Z || (z =? 10)%Z || (z =? 9)%Z then Some None
  else None.

(** The loop of [TokenTreeIter::next_hex_val]. *)
Fixpoint hex_val_loop (fuel : nat) (buf : ExcludingComments) :
    run (option Z * ExcludingComments) :=
  match fuel with
  | 0 => Panic
  | S fuel =>
      let! (v, buf) := ec_next buf in
      match v with
      | None => Ret (None, buf)
      | Some v =>
          match hex_class v with
          | Some (Some n) => Ret (Some n, buf)
          | Some None => hex_val_loop fuel buf
          | None => Panic
          end
      end
  end.

(** Every turn of the loop takes a byte, so the bytes left are fuel enough. *)
Definition next_hex_val (it : TokenTreeIter) : run (option Z * TokenTreeIter) :=
  let! (n, buf) := hex_val_loop (S (length (iter (buf it)))) (buf it) in
  Ret (n, mkTokenTreeIter buf (is_punct it)).

(** [<TokenTreeIter as Iterator>::next] *)
Definition tt_next (it : TokenTreeIter) : run (option TokenTree * TokenTreeIter) :=
  if is_punct it then
    Ret (Some Comma, mkTokenTreeIter (buf it) (negb (is_punct it)))
  else
    let! (p1, it) := next_hex_val it in
    match p1 with
    | None => Ret (None, it)
    | Some p1 =>
        let! (p2, it) := next_hex_val it in
        let! p2 := unwrap_option p2 in
        let! val := uadd 8 (ushl 8 p1 4) p2 in
        Ret (Some (U8Literal (z2b val)), mkTokenTreeIter (buf it) (negb (is_punct it)))
    end.

(** [out_ts.extend(iter)]: all the items of the iterator. *)
Fixpoint tt_collect (fuel : nat) (it : TokenTreeIter) : run (list TokenTree) :=
  match fuel with
  | 0 => Panic
  | S fuel =>
      let! (t, it) := tt_next it in
      match t with
      | None => Ret []
      | Some t => let! rest := tt_collect fuel it in Ret (t :: rest)
      end
  end.

(** The loop of [hex] over the tokens of its input. A literal of [n] bytes has
    less than [n] items. *)
Fixpoint hex_loop (input out_ts : list TokenTree) : run (list TokenTree) :=
  match input with
  | [] => Ret out_ts
  | t :: input =>
      match t with
      | Literal literal =>
          let! iter := new literal in
          let! items := tt_collect (S (length literal)) iter in
          hex_loop input (out_ts ++ items)
      | _ => Panic
      end
  end.

(** [fn hex] *)
Definition hex (input : list TokenTree) : run (list TokenTree) :=
  let out_ts := [] in
  let! out_ts := hex_loop (ignore_groups input) out_ts in
  Ret [Group Bracket out_ts].

(** [hex!("a1 /* x */ B2")] *)
Example hex_example :
  hex [Group NoDelimiter
        [Literal [34; 97; 49; 32; 47; 42; 32; 120; 32; 42; 47; 32; 66; 50; 34]%u8]]
  = Ret [Group Bracket [U8Literal 161%u8; Comma; U8Literal 178%u8; Comma]].
Proof. vm_compute. reflexivity. Qed.

(** ** The text without its comments *)

(** A block comment ends at the first star that a slash follows, so its body has
    none. *)
Definition comment_body (body : list u8) : Prop :=
  forall b1 b2, body <> b1 ++ 42%u8 :: 47%u8 :: b2.

(** The number of stars at the end of a body, after [n] stars. *)
Fixpoint end_stars (n : nat) (body : list u8) : nat :=
  match body with
  | [] => n
  | 42%u8 :: body => end_stars (S n) body
  | _ :: body => end_stars 0 body
  end.

(** The machine sees the end of a comment when the stars before the final one are
    even in number. *)
Definition closes (body : list u8) : bool := Nat.even (end_stars 0 body).

(** Three readings of a text: the one of the documentation; the one of the machine,
    which goes on in a comment whose end it does not see; and the texts that both
    read alike. *)
Inductive Reading : Set := Documented | Actual | Agreed.

(** [strips r text out]: [out] is [text] without its comments; [None] if it has a slash
    that begins no comment or a block comment without an end. *)
Inductive strips (r : Reading) : list u8 -> option (list u8) -> Prop :=
  | strips_nil : strips r [] (Some [])
  | strips_byte c t o : c <> 47%u8 -> strips r t o -> strips r (c :: t) (cons c <$> o)
  | strips_line body t o :
      Forall (fun c => c <> 10%u8) body -> strips r t o ->
      strips r (47%u8 :: 47%u8 :: body ++ 10%u8 :: t) (cons 10%u8 <$> o)
  | strips_line_end body :
      Forall (fun c => c <> 10%u8) body -> strips r (47%u8 :: 47%u8 :: body) (Some [])
  | strips_block body t o :
      comment_body body -> r = Documented \/ closes body = true -> strips r t o ->
      strips r (47%u8 :: 42%u8 :: body ++ 42%u8 :: 47%u8 :: t) o
  | strips_missed body t o :
      comment_body body -> r = Actual -> closes body = false ->
      strips r (47%u8 :: 42%u8 :: t) o ->
      strips r (47%u8 :: 42%u8 :: body ++ 42%u8 :: 47%u8 :: t) o
  | strips_slash t :
      head t <> Some 47%u8 -> head t <> Some 42%u8 -> strips r (47%u8 :: t) None
  | strips_open body :
      comment_body body -> strips r (47%u8 :: 42%u8 :: body) None.

(** A text without comments is returned, a malformed one panics. *)
Definition result_of (out : option (list u8)) : run (list u8) :=
  match out with Some o => Ret o | None => Panic end.

(** All the bytes that the iterator gives. *)
Fixpoint ec_collect (fuel : nat) (e : ExcludingComments) : run (list u8) :=
  match fuel with
  | 0 => Panic
  | S fuel =>
      let! (b, e) := ec_next e in
      match b with
      | None => Ret []
      | Some b => let! rest := ec_collect fuel e in Ret (b :: rest)
      end
  end.

(** The same by recursion on the text; [fixed] is the machine that takes a star after
    a star for the possible end of the comment. *)
Fixpoint exclude (fixed : bool) (st : State) (it : list u8) : run (list u8) :=
  match it with
  | [] => match st with Normal | LineComment => Ret [] | _ => Panic end
  | c :: it =>
      match st with
      | Normal =>
          if decide (c = 47%u8) then exclude fixed PotentialComment it
          else cons c <$> exclude fixed Normal it
      | PotentialComment =>
          if decide (c = 47%u8) then exclude fixed LineComment it
          else if decide (c = 42%u8) then exclude fixed BlockComment it else Panic
      | LineComment =>
          if decide (c = 10%u8) then cons c <$> exclude fixed Normal it
          else exclude fixed LineComment it
      | BlockComment =>
          if decide (c = 42%u8) then exclude fixed PotentialBlockCommentEnd it
          else exclude fixed BlockComment it
      | PotentialBlockCommentEnd =>
          if decide (c = 47%u8) then exclude fixed Normal it
          else if decide (fixed = true /\ c = 42%u8) then exclude fixed PotentialBlockCommentEnd it
          else exclude fixed BlockComment it
      end
  end.

Lemma next_byte_cons st c it :
  next_byte st (c :: it)
  = match st with
    | Normal =>
        if decide (c = 47%u8) then next_byte PotentialComment it
        else Ret (Some c, mkExcludingComments Normal it)
    | PotentialComment =>
        if decide (c = 47%u8) then next_byte LineComment it
        else if decide (c = 42%u8) then next_byte BlockComment it else Panic
    | LineComment =>
        if decide (c = 10%u8) then Ret (Some c, mkExcludingComments Normal it)
        else next_byte LineComment it
    | BlockComment =>
        if decide (c = 42%u8) then next_byte PotentialBlockCommentEnd it
        else next_byte BlockComment it
    | PotentialBlockCommentEnd =>
        if decide (c = 47%u8) then next_byte Normal it else next_byte BlockComment it
    end.
Proof. destruct st, c; reflexivity. Qed.

(** [r] is the first step of an iterator that gives [x] and has less than [n]
    bytes left after it. *)
Definition step_ok (r : run (option u8 * ExcludingComments)) (n : nat)
    (x : run (list u8)) : Prop :=
  (exists e, r = Ret (None, e) /\ x = Ret [])
  \/ (exists b it', r = Ret (Some b, mkExcludingComments Normal it')
       /\ length it' < n /\ x = cons b <$> exclude false Normal it')
  \/ (r = Panic /\ x = Panic).

Lemma step_ok_mono r n n' x : n <= n' -> step_ok r n x -> step_ok r n' x.
Proof.
  intros Hn [?|[(b & it' & ? & ? & ?)|?]]; [by left| |by right; right].
  right; left. exists b, it'. split_and!; [done|lia|done].
Qed.

Lemma step_ok_some c n it : length it < n ->
  step_ok (Ret (Some c, mkExcludingComments Normal it)) n (cons c <$> exclude false Normal it).
Proof. right; left. eauto. Qed.

(** One step of the iterator. *)
Lemma ec_next_ok st it :
  step_ok (ec_next (mkExcludingComments st it)) (length it) (exclude false st it).
Proof.
  unfold ec_next. cbn [state iter]. revert st. induction it as [|c it IH]; intros st.
  { destruct st; (left; by eexists) || (by right; right). }
  rewrite next_byte_cons. cbn [exclude length].
  destruct st; repeat (destruct (decide _) as [?|?]); rewrite ?bind_Ret;
    try (by destruct_and?); try (apply step_ok_some; lia); try (eapply step_ok_mono, IH; lia).
  by right; right.
Qed.

Lemma ec_collect_ok fuel st it :
  length it < fuel -> ec_collect fuel (mkExcludingComments st it) = exclude false st it.
Proof.
  revert st it. induction fuel as [|fuel IH]; intros st it Hf; [lia|]. cbn [ec_collect].
  destruct (ec_next_ok st it) as [(e & -> & ->)|[(b & it' & -> & Hl & ->)|[-> ->]]];
    [done| |done]. rewrite bind_Ret, IH by lia. by destruct (exclude false Normal it').
Qed.

(** ** The machine and the grammar of comments *)

Lemma exclude_line fixed body t :
  Forall (fun c => c <> 10%u8) body ->
  exclude fixed LineComment (body ++ 10%u8 :: t) = cons 10%u8 <$> exclude fixed Normal t
  /\ exclude fixed LineComment body = Ret [].
Proof.
  induction 1 as [|c body Hc Hb [IH1 IH2]]; [done|]. cbn [app exclude].
  by rewrite !decide_False.
Qed.

Lemma comment_body_cons c body :
  comment_body (c :: body) <-> comment_body body /\ ~ (c = 42%u8 /\ head body = Some 47%u8).
Proof.
  unfold comment_body. split.
  - intros H. split.
    + intros b1 b2 ->. by apply (H (c :: b1) b2).
    + intros [-> Hh]. destruct body as [|c' body]; [done|]. injection Hh as ->. by apply (H [] body).
  - intros [H Hc] [|c' b1] b2; simpl; [by intros [= -> ->]; apply Hc|]. intros [= _ E]. by apply (H b1 b2).
Qed.

Lemma end_stars_cons n c body :
  end_stars n (c :: body) = end_stars (if decide (c = 42%u8) then S n else 0) body.
Proof. destruct c; reflexivity. Qed.

(** The state in a comment after [n] stars. *)
Definition block_state (fixed : bool) (n : nat) : State :=
  if (if fixed then n =? 0 else Nat.even n) then BlockComment else PotentialBlockCommentEnd.

Lemma block_state_star fixed n it :
  exclude fixed (block_state fixed n) (42%u8 :: it) = exclude fixed (block_state fixed (S n)) it.
Proof.
  unfold block_state. destruct fixed.
  - destruct n; cbn [Nat.eqb exclude]; [done|]. by rewrite decide_False, decide_True.
  - rewrite Nat.even_succ, <- Nat.negb_even. destruct (Nat.even n); simpl negb; cbn [exclude];
      [by rewrite decide_True|]. by rewrite decide_False, decide_False by (by intros [? _] || done).
Qed.

Lemma block_state_other fixed n c it :
  c <> 42%u8 -> (c = 47%u8 -> n = 0) ->
  exclude fixed (block_state fixed n) (c :: it) = exclude fixed (block_state fixed 0) it.
Proof.
  intros Hc Hs. assert (block_state fixed 0 = BlockComment) as -> by (by destruct fixed).
  destruct (block_state fixed n) eqn:E; try by (unfold block_state in E; case_match).
  - cbn [exclude]. by rewrite decide_False.
  - cbn [exclude]. rewrite decide_False by (intros ->; rewrite Hs in E by done; by destruct fixed).
    by rewrite decide_False by (by intros [_ ?]).
Qed.

(** A body is read through, and then its end is seen or not. *)
Lemma exclude_body fixed n body rest :
  comment_body body -> (n <> 0 -> head body <> Some 47%u8) ->
  exclude fixed (block_state fixed n) (body ++ rest)
  = exclude fixed (block_state fixed (end_stars n body)) rest.
Proof.
  revert n. induction body as [|c body IH]; intros n Hb Hh; [done|].
  apply comment_body_cons in Hb as [Hb Hc]. rewrite end_stars_cons. cbn [app].
  destruct (decide (c = 42%u8)) as [->|Hn].
  - rewrite block_state_star. apply IH; [done|naive_solver].
  - rewrite block_state_other; [by apply IH|done|]. intros ->. destruct (decide (n = 0)); [done|].
    by destruct Hh.
Qed.

Lemma exclude_block fixed body t :
  comment_body body ->
  exclude fixed BlockComment (body ++ 42%u8 :: 47%u8 :: t)
  = if fixed || closes body then exclude fixed Normal t else exclude fixed BlockComment t.
Proof.
  intros Hb. assert (BlockComment = block_state fixed 0) as E by (by destruct fixed).
  rewrite E at 1. rewrite exclude_body, block_state_star by done.
  unfold closes. destruct fixed; cbn [orb].
  - cbn [block_state Nat.eqb exclude]. by rewrite decide_True.
  - unfold block_state. rewrite Nat.even_succ, <- Nat.negb_even.
    destruct (Nat.even (end_stars 0 body)); cbn [negb exclude];
      [by rewrite decide_True|by rewrite decide_False].
Qed.

Lemma exclude_open fixed body :
  comment_body body -> exclude fixed BlockComment body = Panic.
Proof.
  intros Hb. assert (BlockComment = block_state fixed 0) as -> by (by destruct fixed).
  rewrite <- (app_nil_r body), exclude_body by done. unfold block_state. by case_match.
Qed.

(** Each reading is what one of the machines does, the text that both read alike what
    both do. *)
Lemma strips_exclude r fixed t out :
  (r = Documented -> fixed = true) -> (r = Actual -> fixed = false) ->
  strips r t out -> exclude fixed Normal t = result_of out.
Proof.
  intros Hd Ha H.
  induction H as [|c t o Hc H IH|body t o Hb H IH|body Hb|body t o Hb Hcl H IH|body t o Hb Hr Hcl H IH
    |t H1 H2|body Hb]; cbn [exclude].
  - done.
  - rewrite decide_False, IH by done. by destruct o.
  - rewrite !decide_True by done. rewrite (proj1 (exclude_line fixed body t Hb)), IH. by destruct o.
  - rewrite !decide_True by done. by apply (exclude_line fixed body []).
  - rewrite decide_True, decide_False, decide_True, exclude_block by done.
    assert (fixed || closes body = true) as ->; [|done].
    destruct Hcl as [Hr|Hcl]; [by rewrite (Hd Hr)|by rewrite Hcl, orb_true_r].
  - rewrite decide_True, decide_False, decide_True, exclude_block, Hcl, (Ha Hr) by done.
    rewrite (Ha Hr) in IH. exact IH.
  - rewrite decide_True by done. destruct t as [|c t]; [done|]. cbn [exclude head] in *.
    by rewrite !decide_False by congruence.
  - rewrite decide_True, decide_False, decide_True by done. by rewrite exclude_open.
Qed.

(** A text has a line end or not, a comment ends or not. *)
Lemma split_line t :
  Forall (fun c => c <> 10%u8) t
  \/ exists body t', t = body ++ 10%u8 :: t' /\ Forall (fun c => c <> 10%u8) body.
Proof.
  induction t as [|c t IH]; [by left|]. destruct (decide (c = 10%u8)) as [->|Hc].
  { right. by exists [], t. }
  destruct IH as [Ht|(body & t' & -> & Hb)]; [left; by constructor|right].
  exists (c :: body), t'. split; [done|by constructor].
Qed.

Lemma split_block t :
  comment_body t \/ exists body t', t = body ++ 42%u8 :: 47%u8 :: t' /\ comment_body body.
Proof.
  induction t as [|c t IH]; [left; by intros [|? []] ?|].
  destruct (decide (c = 42%u8 /\ head t = Some 47%u8)) as [[-> Ht]|Hc].
  { destruct t as [|c t]; [done|]. injection Ht as ->. right. exists [], t.
    split; [done|]. by intros [|? []] ?. }
  destruct IH as [Ht|(body & t' & -> & Hb)]; [left; by apply comment_body_cons|right].
  exists (c :: body), t'. split; [done|]. apply comment_body_cons. split; [done|].
  intros [-> Hh]. destruct body; [done|]. by destruct Hc.
Qed.

(** Every text has a reading. *)
Lemma strips_total r text : r <> Agreed -> exists out, strips r text out.
Proof.
  intros Hr. induction text as [text IH] using (induction_ltof1 _ (@length u8)).
  assert (forall t, length t < length text -> exists out, strips r t out) as IH' by apply IH.
  clear IH. destruct text as [|c t]; [by eexists; constructor|].
  destruct (decide (c = 47%u8)) as [->|Hc].
  2:{ destruct (IH' t) as [out Ho]; [simpl; lia|]. eexists. by apply strips_byte. }
  destruct (decide (head t = Some 47%u8)) as [H1|H1]; [|destruct (decide (head t = Some 42%u8)) as [H2|H2]].
  - destruct t as [|c t]; [done|]. injection H1 as ->.
    destruct (split_line t) as [Ht|(body & t' & -> & Hb)]; [eexists; by apply strips_line_end|].
    destruct (IH' t') as [out Ho]; [len|]. eexists. by apply strips_line.
  - destruct t as [|c t]; [done|]. injection H2 as ->.
    destruct (split_block t) as [Ht|(body & t' & -> & Hb)]; [eexists; by apply strips_open|].
    destruct (closes body) eqn:Hcl; [|destruct r; [| |done]].
    + destruct (IH' t') as [out Ho]; [len|]. eexists. apply strips_block; eauto.
    + destruct (IH' t') as [out Ho]; [len|]. eexists. apply strips_block; eauto.
    + destruct (IH' (47%u8 :: 42%u8 :: t')) as [out Ho]; [len|]. eexists. by apply strips_missed.
  - eexists. by apply strips_slash.
Qed.

Lemma result_of_inj out1 out2 : result_of out1 = result_of out2 -> out1 = out2.
Proof. destruct out1, out2; simpl; congruence. Qed.

(** The readings are exactly the two machines. *)
Lemma strips_iff r text out :
  r <> Agreed ->
  strips r text out
  <-> exclude (match r with Documented => true | _ => false end) Normal text = result_of out.
Proof.
  intros Hr. set (fixed := match r with Documented => true | _ => false end).
  assert (forall o, strips r text o -> exclude fixed Normal text = result_of o) as Hs
    by (intros o; apply strips_exclude; by destruct r).
  split; [apply Hs|]. intros E. destruct (strips_total r text Hr) as [out' Ho].
  pose proof (Hs _ Ho) as E'. rewrite E in E'. by apply result_of_inj in E' as ->.
Qed.

Lemma strips_agreed r text out : strips Agreed text out -> strips r text out.
Proof.
  induction 1 as [| | | |body t o Hb [|Hcl] H IH| | |]; try done; try by constructor.
  constructor; auto.
Qed.

(** A text without two stars before a slash is read alike. *)
Lemma strips_plain text out :
  (forall t1 t2, text <> t1 ++ 42%u8 :: 42%u8 :: 47%u8 :: t2) ->
  strips Documented text out -> strips Agreed text out.
Proof.
  intros Hp H. remember Documented as r eqn:Er.
  induction H as [|c t o Hc H IH|body t o Hb H IH|body Hb|body t o Hb Hcl H IH|body t o Hb Hr Hcl H IH
    |t H1 H2|body Hb]; try (by constructor); try (by congruence).
  - apply strips_byte; [done|]. apply IH. intros t1 t2 ->. by apply (Hp (c :: t1) t2).
  - apply strips_line; [done|]. apply IH. intros t1 t2 ->.
    apply (Hp (47%u8 :: 47%u8 :: body ++ 10%u8 :: t1) t2). simpl. by rewrite <- app_assoc.
  - apply strips_block; [done| |apply IH].
    + right. unfold closes. destruct (last body) as [c|] eqn:El.
      2:{ by apply last_None in El as ->. }
      apply last_Some in El as [body' ->]. destruct (decide (c = 42%u8)) as [->|Hc].
      { exfalso. apply (Hp (47%u8 :: 42%u8 :: body') t). simpl. by rewrite <- app_assoc. }
      assert (forall n, end_stars n (body' ++ [c]) = 0) as ->; [|done]. clear -Hc.
      induction body' as [|c' body' IH]; intros n; cbn [app]; rewrite end_stars_cons;
        [by rewrite decide_False|apply IH].
    + intros t1 t2 ->. apply (Hp (47%u8 :: 42%u8 :: body ++ 42%u8 :: 47%u8 :: t1) t2).
      simpl. by rewrite <- app_assoc.
Qed.

(** ** Bytes from digits *)

(** The values of the digits of a text without comments. *)
Fixpoint hex_vals (o : list u8) : run (list Z) :=
  match o with
  | [] => Ret []
  | c :: o =>
      match hex_class c with
      | None => Panic
      | Some None => hex_vals o
      | Some (Some n) => cons n <$> hex_vals o
      end
  end.

(** Digits by two. *)
Fixpoint pair_vals (vs : list Z) : run (list u8) :=
  match vs with
  | [] => Ret []
  | [_] => Panic
  | p1 :: p2 :: vs => cons (z2b (16 * p1 + p2)) <$> pair_vals vs
  end.

(** The bytes that the text of a literal denotes. *)
Definition text_bytes (text : list u8) : run (list u8) :=
  let! o := exclude false Normal text in
  let! vs := hex_vals o in
  pair_vals vs.

(** The tokens of the elements of an array. *)
Definition byte_tokens (bs : list u8) : list TokenTree :=
  flat_map (fun b => [U8Literal b; Comma]) bs.

Lemma hex_class_range c n : hex_class c = Some (Some n) -> (0 <= n < 16)%Z.
Proof. unfold hex_class. intros H. repeat case_match; simplify_eq; lia. Qed.

Definition all_vals (st : State) (it : list u8) : run (list Z) :=
  let! o := exclude false st it in hex_vals o.

(** No text is undefined behaviour. *)
Lemma exclude_returns_or_panics st it :
  (exists o, exclude false st it = Ret o) \/ exclude false st it = Panic.
Proof.
  revert st. induction it as [|c it IH]; intros st; cbn [exclude].
  { destruct st; eauto. }
  destruct st; repeat (destruct (decide _)); eauto;
    by destruct (IH Normal) as [[o ->]| ->]; eauto.
Qed.

(** [next_hex_val] gives the next digit, or stops a run that has none. *)
Lemma hex_val_loop_ok fuel st it :
  length it < fuel ->
  let r := hex_val_loop fuel (mkExcludingComments st it) in
  (exists e, r = Ret (None, e) /\ all_vals st it = Ret [])
  \/ (exists n it', r = Ret (Some n, mkExcludingComments Normal it')
      /\ length it' < length it /\ (0 <= n < 16)%Z
      /\ all_vals st it = cons n <$> all_vals Normal it')
  \/ (r = Panic /\ all_vals st it = Panic).
Proof.
  revert st it. induction fuel as [|fuel IH]; intros st it Hf; [lia|].
  cbn [hex_val_loop]. unfold all_vals.
  destruct (ec_next_ok st it) as [(e & -> & ->)|[(b & it' & -> & Hl & ->)|[-> ->]]];
    rewrite ?bind_Ret; [by left; eauto| |by right; right].
  destruct (hex_class b) as [[n|]|] eqn:Hb.
  - right; left. exists n, it'. split_and!; try done; try (by eapply hex_class_range in Hb; lia).
    destruct (exclude false Normal it') as [o| |]; [|done..]. simpl. by rewrite Hb.
  - assert ((let! o := cons b <$> exclude false Normal it' in hex_vals o) = all_vals Normal it')
      as ->.
    { unfold all_vals. destruct (exclude false Normal it') as [o| |]; [|done..].
      simpl. by rewrite Hb. }
    destruct (IH Normal it') as [?|[(n & it2 & ? & ? & ? & ?)|?]]; [lia|by left|right; left|
      by right; right].
    exists n, it2. split_and!; [done|lia|lia|lia|done].
  - right; right. split; [done|].
    destruct (exclude_returns_or_panics Normal it') as [[o ->]| ->]; [|done].
    simpl. by rewrite Hb.
Qed.

Lemma hex_vals_no_ub o : (exists vs, hex_vals o = Ret vs) \/ hex_vals o = Panic.
Proof.
  induction o as [|c o IH]; cbn [hex_vals]; [eauto|].
  destruct (hex_class c) as [[n|]|]; [|done|eauto].
  by destruct IH as [[vs ->]| ->]; eauto.
Qed.

(** The items of a literal are the tokens of its bytes. *)
Lemma tt_collect_ok fuel st it :
  length it < fuel ->
  tt_collect fuel (mkTokenTreeIter (mkExcludingComments st it) false)
  = byte_tokens <$> (let! vs := all_vals st it in pair_vals vs).
Proof.
  revert fuel st. induction it as [it IH] using (induction_ltof1 _ (@length u8)).
  intros fuel st Hf. destruct fuel as [|fuel]; [lia|]. cbn [tt_collect].
  unfold tt_next, next_hex_val. cbn [is_punct buf iter].
  destruct (hex_val_loop_ok (S (length it)) st it)
    as [(e & -> & ->)|[(n1 & it1 & -> & Hl1 & Hn1 & ->)|[-> ->]]]; [lia|done| |done].
  rewrite !bind_Ret. cbn [buf iter is_punct].
  destruct (hex_val_loop_ok (S (length it1)) Normal it1)
    as [(e & -> & ->)|[(n2 & it2 & -> & Hl2 & Hn2 & ->)|[-> ->]]]; [lia|done| |done].
  rewrite !bind_Ret. cbn [unwrap_option buf is_punct negb]. rewrite bind_Ret.
  assert (ushl 8 n1 4 = 16 * n1)%Z as ->.
  { unfold ushl, wrap. rewrite Z.shiftl_mul_pow2, Z.mod_small by lia. lia. }
  rewrite uadd_ok by lia. rewrite !bind_Ret.
  destruct fuel as [|fuel]; [lia|]. cbn [tt_collect]. unfold tt_next at 1.
  cbn [is_punct buf negb]. rewrite bind_Ret, IH by (unfold ltof; lia).
  destruct (all_vals Normal it2) as [vs| |]; [|done..]. simpl.
  by destruct (pair_vals vs).
Qed.

Lemma new_quoted text :
  new (34%u8 :: text ++ [34%u8])
  = Ret (mkTokenTreeIter (mkExcludingComments Normal text) false).
Proof.
  unfold new. cbn [head]. rewrite app_comm_cons, last_snoc.
  rewrite (proj2 (Nat.leb_le _ _)) by (rewrite length_app; simpl; lia).
  rewrite length_app, Nat.add_sub, take_app_length. done.
Qed.

Lemma hex_loop_ok texts out :
  hex_loop (List.map (fun t => Literal (34%u8 :: t ++ [34%u8])) texts) out
  = (let! bss := mapM text_bytes texts in Ret (out ++ byte_tokens (concat bss))).
Proof.
  revert out. induction texts as [|t texts IH]; intros out.
  { simpl. by rewrite app_nil_r. }
  cbn [List.map hex_loop mapM]. rewrite new_quoted, bind_Ret.
  rewrite tt_collect_ok by len.
  assert ((let! vs := all_vals Normal t in pair_vals vs) = text_bytes t) as ->.
  { unfold all_vals, text_bytes. by destruct (exclude false Normal t). }
  destruct (text_bytes t) as [bs| |]; [|done..]. cbn [fmap run_fmap]. rewrite !bind_Ret.
  rewrite IH. destruct (mapM text_bytes texts) as [bss| |]; [|done..]. rewrite !bind_Ret.
  cbn [concat]. unfold byte_tokens. by rewrite flat_map_app, app_assoc.
Qed.

(** ** The digits of a text *)

(** The digits by their values, in lower and in upper case. *)
Definition lower_digits : list u8 := list_byte_of_string "0123456789abcdef".
Definition upper_digits : list u8 := list_byte_of_string "0123456789ABCDEF".

Definition is_digit (c : u8) (n : nat) : Prop :=
  lower_digits !! n = Some c \/ upper_digits !! n = Some c.

(** Space, carriage return, newline, tab. *)
Definition is_space (c : u8) : bool :=
  bool_decide (c ∈ [32; 13; 10; 9]%u8).

Definition no_spaces (o : list u8) : list u8 := List.filter (fun c => negb (is_space c)) o.

(** Bytes, each by its two digits, the high one first. *)
Inductive pairs : list u8 -> list u8 -> Prop :=
  | pairs_nil : pairs [] []
  | pairs_cons c1 c2 n1 n2 ds bs :
      is_digit c1 n1 -> is_digit c2 n2 -> pairs ds bs ->
      pairs (c1 :: c2 :: ds) (n2b (16 * n1 + n2) :: bs).

(** The bytes that the text of a literal denotes. *)
Definition denotes (r : Reading) (text bs : list u8) : Prop :=
  exists o, strips r text (Some o) /\ pairs (no_spaces o) bs.

(** A text with a malformed comment, with a byte that is neither a digit nor a space, or
    with an odd number of digits. *)
Definition malformed (r : Reading) (text : list u8) : Prop :=
  strips r text None
  \/ exists o, strips r text (Some o)
     /\ ((exists c, c ∈ no_spaces o /\ forall n, ~ is_digit c n)
         \/ Nat.odd (length (no_spaces o)) = true).

(** The bytes by the branch of the [match]. *)
Lemma hex_class_cases c :
  (exists n, n < 16 /\ is_digit c n /\ is_space c = false /\ hex_class c = Some (Some (Z.of_nat n)))
  \/ is_space c = true /\ hex_class c = Some None
  \/ is_space c = false /\ hex_class c = None /\ forall n, ~ is_digit c n.
Proof.
  destruct (is_space c) eqn:Es; [right; left; split; [done|]; by destruct c|].
  destruct (hex_class c) as [[z|]|] eqn:Ec.
  - left. exists (Z.to_nat z). destruct c; try discriminate Ec; injection Ec as <-;
      (split_and!; [vm_compute; lia| |done|done]); first [by left|by right].
  - exfalso. by destruct c.
  - right; right. split_and!; [done..|].
    assert (c ∉ lower_digits ++ upper_digits) as Hn by (by destruct c; apply (bool_decide_unpack _)).
    intros n [H|H]; apply list_elem_of_lookup_2 in H; apply Hn, elem_of_app; auto.
Qed.

(** A digit has one value. *)
Lemma is_digit_class c n : is_digit c n -> n < 16 /\ is_space c = false /\ hex_class c = Some (Some (Z.of_nat n)).
Proof.
  intros H. assert (n < 16) as Hn by (by destruct H as [H|H]; apply lookup_lt_Some in H).
  split; [done|]. destruct H as [H|H]; do 16 (destruct n as [|n]; [by injection H as <-|]); lia.
Qed.

Lemma hex_vals_spaces o : hex_vals o = hex_vals (no_spaces o).
Proof.
  induction o as [|c o IH]; [done|]. cbn [hex_vals no_spaces List.filter].
  destruct (hex_class_cases c) as [(n & _ & _ & Hs & Hc)|[[Hs Hc]|(Hs & Hc & _)]];
    rewrite Hs; cbn [negb hex_vals]; rewrite Hc; [|done..]. by rewrite IH.
Qed.

Lemma pairs_vals ds bs : pairs ds bs -> (let! vs := hex_vals ds in pair_vals vs) = Ret bs.
Proof.
  induction 1 as [|c1 c2 n1 n2 ds bs H1 H2 _ IH]; [done|]. cbn [hex_vals].
  destruct (is_digit_class _ _ H1) as (_ & _ & ->). destruct (is_digit_class _ _ H2) as (_ & _ & ->).
  destruct (hex_vals ds) as [vs| |]; [|done..]. simpl in *. rewrite IH. simpl.
  do 2 f_equal. unfold n2b. f_equal. lia.
Qed.

(** Digits only are an even number of them, or odd. *)
Lemma pairs_or_odd ds :
  (forall c, c ∈ ds -> exists n, is_digit c n) ->
  (exists bs, pairs ds bs) \/ Nat.odd (length ds) = true.
Proof.
  induction ds as [ds IH] using (induction_ltof1 _ (@length u8)). intros Hd.
  destruct ds as [|c1 [|c2 ds]]; [left; eexists; constructor|by right|].
  destruct (Hd c1) as [n1 H1]; [by left|]. destruct (Hd c2) as [n2 H2]; [by right; left|].
  destruct (IH ds) as [[bs Hb]|Ho]; [unfold ltof; simpl; lia|by intros c Hc; apply Hd; right; right| |by right].
  left. eexists. by apply (pairs_cons c1 c2 n1 n2).
Qed.

Lemma hex_vals_bad ds c : c ∈ ds -> hex_class c = None -> hex_vals ds = Panic.
Proof.
  intros Hc Hn. induction ds as [|c' ds IH]; [by apply elem_of_nil in Hc|].
  apply elem_of_cons in Hc as [<-|Hc]; cbn [hex_vals]; [by rewrite Hn|].
  rewrite (IH Hc). by destruct (hex_class c') as [[]|].
Qed.

(** Without spaces each digit is a value. *)
Lemma hex_vals_length ds vs :
  (forall c, c ∈ ds -> is_space c = false) -> hex_vals ds = Ret vs -> length vs = length ds.
Proof.
  revert vs. induction ds as [|c ds IH]; intros vs Hs; cbn [hex_vals]; [by intros [= <-]|].
  destruct (hex_class_cases c) as [(n & _ & _ & _ & ->)|[[Hc _]|(_ & -> & _)]]; [| |done].
  - intros (vs' & Hv & ->)%fmap_Ret_inv. simpl. f_equal. apply IH; [|done]. intros c' Hc'. apply Hs. by right.
  - rewrite Hs in Hc by left. done.
Qed.

Lemma pair_vals_odd vs : Nat.odd (length vs) = true -> pair_vals vs = Panic.
Proof.
  induction vs as [vs IH] using (induction_ltof1 _ (@length Z)).
  destruct vs as [|v1 [|v2 vs]]; [done..|]. intros Ho. cbn [pair_vals].
  rewrite IH; [done|unfold ltof; simpl; lia|exact Ho].
Qed.

Lemma no_spaces_elem o c : c ∈ no_spaces o -> is_space c = false.
Proof.
  unfold no_spaces. rewrite list_elem_of_In, filter_In. intros [_ H]. by destruct (is_space c).
Qed.

Lemma text_bytes_denotes r text bs : r <> Documented -> denotes r text bs -> text_bytes text = Ret bs.
Proof.
  intros Hr (o & Hs & Hp). unfold text_bytes. rewrite (strips_exclude r false text (Some o)) by (done || by intros).
  cbn [result_of]. rewrite bind_Ret, hex_vals_spaces. by apply pairs_vals.
Qed.

Lemma text_bytes_malformed r text : r <> Documented -> malformed r text -> text_bytes text = Panic.
Proof.
  intros Hr [Hs|(o & Hs & Ho)]; unfold text_bytes;
    erewrite (strips_exclude r false text) by (exact Hs || by intros); cbn [result_of]; [done|].
  rewrite bind_Ret, hex_vals_spaces. destruct Ho as [(c & Hc & Hn)|Ho].
  - destruct (hex_class_cases c) as [(n & _ & Hd & _)|[[Hsp _]|(_ & Hcl & _)]]; [by destruct (Hn n)| |].
    + by rewrite (no_spaces_elem o c Hc) in Hsp.
    + by rewrite (hex_vals_bad _ c).
  - destruct (hex_vals_no_ub (no_spaces o)) as [[vs E]|E]; rewrite E; [|done].
    rewrite bind_Ret, pair_vals_odd; [done|]. apply hex_vals_length in E; [by rewrite E|].
    apply no_spaces_elem.
Qed.

(** Every text denotes bytes or is malformed. *)
Lemma denotes_or_malformed r text :
  r <> Agreed -> (exists bs, denotes r text bs) \/ malformed r text.
Proof.
  intros Hr. destruct (strips_total r text Hr) as [[o|] Hs]; [|by right; left].
  destruct (decide (Forall (fun c => hex_class c <> None) (no_spaces o))) as [Hf|Hf].
  - destruct (pairs_or_odd (no_spaces o)) as [[bs Hb]|Ho].
    + intros c Hc. destruct (hex_class_cases c) as [(n & _ & Hd & _)|[[Hsp _]|(_ & Hcl & _)]]; [by eauto| |].
      * by rewrite (no_spaces_elem o c Hc) in Hsp.
      * rewrite Forall_forall in Hf. by destruct (Hf c Hc).
    + left. exists bs, o. done.
    + right; right. exists o. auto.
  - right; right. exists o. split; [done|left]. apply not_Forall_Exists in Hf; [|apply _].
    apply Exists_exists in Hf as (c & Hc & Hn). exists c. split; [done|].
    intros n Hd. apply Hn. by destruct (is_digit_class c n Hd) as (_ & _ & ->).
Qed.

(** The literals of a macro call, and what they are expanded to. *)
Definition literals (texts : list (list u8)) : list TokenTree :=
  List.map (fun t => Literal (34%u8 :: t ++ [34%u8])) texts.

Lemma hex_literals texts :
  let expansion :=
    let! bss := mapM text_bytes texts in Ret [Group Bracket (byte_tokens (concat bss))] in
  hex (literals texts) = expansion /\ hex [Group NoDelimiter (literals texts)] = expansion.
Proof.
  intros expansion. pose proof (hex_loop_ok texts []) as E.
  assert (ignore_groups (literals texts) = literals texts) as Hg by (by destruct texts).
  unfold hex. cbv zeta. cbn [ignore_groups ignore_groups_loop]. unfold literals in *.
  rewrite Hg. change (ignore_groups [Group NoDelimiter ?l]) with (ignore_groups_loop l []).
  cbn [ignore_groups_loop]. rewrite E. unfold expansion. by destruct (mapM text_bytes texts).
Qed.

Lemma mapM_texts r texts bss :
  r <> Documented -> Forall2 (denotes r) texts bss -> mapM text_bytes texts = Ret bss.
Proof.
  intros Hr. induction 1 as [|text bs texts bss Hd _ IH]; [done|]. cbn [mapM].
  rewrite (text_bytes_denotes r text bs), bind_Ret, IH by done. done.
Qed.

Lemma mapM_malformed r texts :
  r <> Documented -> Exists (malformed r) texts -> mapM text_bytes texts = Panic.
Proof.
  intros Hr. induction 1 as [text texts Hm|text texts _ IH]; cbn [mapM].
  - by rewrite (text_bytes_malformed r).
  - rewrite IH. destruct (denotes_or_malformed Actual text) as [[bs Hd]|Hm]; [done| |].
    + by rewrite (text_bytes_denotes Actual text bs).
    + by rewrite (text_bytes_malformed Actual).
Qed.

(** ** Printing bytes *)

Definition hex_digit (upper : bool) (n : nat) : u8 :=
  default 0%u8 ((if upper then upper_digits else lower_digits) !! n).

Definition hex_encode (upper : bool) (bs : list u8) : list u8 :=
  flat_map (fun b => [hex_digit upper (b2n b / 16); hex_digit upper (b2n b mod 16)]) bs.

Lemma hex_digit_is upper n : n < 16 -> is_digit (hex_digit upper n) n.
Proof.
  intros Hn. unfold is_digit, hex_digit.
  destruct upper; [right|left]; do 16 (destruct n as [|n]; [done|]); lia.
Qed.

Lemma hex_encode_pairs upper bs : pairs (hex_encode upper bs) bs.
Proof.
  induction bs as [|b bs IH]; [constructor|]. cbn [hex_encode flat_map app].
  pose proof (b2n_range b). pose proof (Nat.mod_upper_bound (b2n b) 16 ltac:(done)).
  assert (b2n b / 16 < 16) by (by apply Nat.Div0.div_lt_upper_bound).
  assert (n2b (16 * (b2n b / 16) + b2n b mod 16) = b) as Hb
    by (rewrite <- Nat.div_mod_eq; apply n2b_b2n).
  rewrite <- Hb at 3. constructor; [by apply hex_digit_is..|done].
Qed.

(** ** Properties *)



(** C37. The comment-excluding iterator, against the documentation: line comments,
    whose newline stays, and block comments, each up to the first star that a slash
    follows, are taken out, and a slash that begins no comment or a comment without an
    end is an error; every text has exactly one such reading. The iterator gives that
    reading, and panics where it is an error, on every text in which each block comment
    has an even number of stars before the final one, as in every text without two stars
    before a slash. Of a comment with an odd number it does not see the end, and
    goes on as if it had just begun; this reading, [Actual], is exactly what it does
    on all texts. *)
Theorem exclude_comments_correct (text : list u8) :
  let excluded := ec_collect (S (length text)) (new_from_iter text) in
  (exists out, strips Documented text out /\ forall out', strips Documented text out' -> out' = out)
  /\ (forall out, strips Agreed text out -> strips Documented text out /\ excluded = result_of out)
  /\ (forall out, (forall t1 t2, text <> t1 ++ 42%u8 :: 42%u8 :: 47%u8 :: t2) ->
        strips Documented text out -> excluded = result_of out)
  /\ (forall out, strips Actual text out <-> excluded = result_of out)
  /\ (excluded = Panic \/ exists o, excluded = Ret o).
Proof.
  intros excluded. assert (excluded = exclude false Normal text) as ->
    by (unfold excluded, new_from_iter; by rewrite ec_collect_ok by lia).
  split_and!.
  - destruct (strips_total Documented text) as [out Ho]; [done|]. exists out. split; [done|].
    intros out' Ho'. apply strips_iff in Ho, Ho'; [|done..]. rewrite Ho in Ho'.
    by apply result_of_inj in Ho'.
  - intros out Ho. split; [by apply strips_agreed|]. by apply (strips_exclude Agreed).
  - intros out Hp Ho. apply (strips_exclude Agreed); [done..|]. by apply strips_plain.
  - intros out. by rewrite (strips_iff Actual).
  - destruct (exclude_returns_or_panics Normal text) as [[o E]|E]; eauto.
Qed.

(** Two comments on a line: one that ends in an even number of stars before the final
    one, one with a star. *)
Lemma exclude_comments_correct_witness :
  let text := list_byte_of_string "1/* a ***/2/* * */3" in
  ec_collect (S (List.length text)) (new_from_iter text) = Ret (list_byte_of_string "123").
Proof.
  intros text.
  assert (strips Agreed text (Some (list_byte_of_string "123"))) as Hs.
  { apply (strips_byte _ 49%u8 _ (Some _)); [discriminate|].
    apply (strips_block _ (list_byte_of_string " a **"));
      [by intros [|? [|? [|? [|? [|? [|? []]]]]]] ?|by right|].
    apply (strips_byte _ 50%u8 _ (Some _)); [discriminate|].
    apply (strips_block _ (list_byte_of_string " * "));
      [by intros [|? [|? [|? [|? []]]]] ?|by right|].
    apply (strips_byte _ 51%u8 _ (Some _)); [discriminate|constructor]. }
  exact (proj2 (proj1 (proj2 (exclude_comments_correct text)) _ Hs)).
Defined.

(** ** Where the code does not do what it means to *)

(** Of a block comment that ends in two stars and a slash, or four, ... the machine does
    not see the end: bytes after it are dropped, up to the end of another comment; without
    another one it panics. *)
Lemma double_star_comment :
  let text := list_byte_of_string "/* a **/ 01 /* b */ 02" in
  strips Documented text (Some (list_byte_of_string " 01  02"))
  /\ ec_collect (S (List.length text)) (new_from_iter text) = Ret (list_byte_of_string " 02")
  /\ ec_collect 9 (new_from_iter (list_byte_of_string "/* a **/")) = Panic.
Proof. split; [|by split]. by apply strips_iff. Qed.

(** A literal inside of two groups without delimiters is not found: the loop
    of [ignore_groups] goes on with the tokens of the original input. *)
Lemma nested_groups text :
  ignore_groups [Group NoDelimiter [Group NoDelimiter [Literal text]]]
  = [Group NoDelimiter [Literal text]]
  /\ hex [Group NoDelimiter [Group NoDelimiter [Literal text]]] = Panic.
Proof. done. Qed.
