(* ===== verification/HexLiteralTests.v ===== *)
(** * The tests of [hex-literal]

    The unit tests of [hex-literal/src/comments.rs] and the tests of
    [hex-literal/tests/], run on the model of [HexLiteral.v]: a test returns when
    its assertions hold, and one that is marked [#[should_panic]] panics. *)
From Stdlib Require Import Strings.String.
From stdpp Require Import base numbers list.
From S2P Require Import Prelude HexLiteral.

(** ** [comments.rs] *)

Module Comments.

(** Converts the input to an iterator of u8, excludes comments and collects the
    results. *)
Definition exclude_comments (input : string) : run (list u8) :=
  let bytes := list_byte_of_string input in
  ec_collect (S (length bytes)) (new_from_iter bytes).

Definition excludes (input output : string) : run unit :=
  let! s := exclude_comments input in assert_eq s (list_byte_of_string output).

Definition empty : run unit :=
  let! s := exclude_comments "" in assert_ (length s =? 0).
Definition single_char : run unit := excludes "0" "0".
Definition two_chars : run unit := excludes "ab" "ab".
Definition comment : run unit := excludes "ab//cd" "ab".
Definition comments_are_ended_by_new_line : run unit :=
  excludes "ab//comment
de" "ab
de".
Definition new_lines_without_comments : run unit :=
  excludes "ab
de" "ab
de".
Definition panic_on_single_slash : run (list u8) := exclude_comments "ab/cd".
Definition line_comments_on_multiple_lines : run unit :=
  excludes "
line 1 //comment 1
line 2 // comment 2 // comment 3
line 3
line 4 // comment 4" "
line 1 
line 2 
line 3
line 4 ".
Definition block_comment : run unit := excludes "ab/*comment*/12" "ab12".
Definition empty_block_comment : run unit := excludes "ab/**/12" "ab12".
Definition block_comment_with_asterisk_and_slash_inside : run unit :=
  excludes "ab/*false * asterisk and / */12" "ab12".
Definition block_comment_within_line_comment : run unit :=
  excludes "ab// /*comment*/12" "ab".
Definition block_comment_not_terminated : run (list u8) := exclude_comments "ab /*comment".
Definition block_comment_not_completely_terminated : run (list u8) :=
  exclude_comments "ab /*comment*".
Definition block_and_line_comments_on_multiple_lines : run unit :=
  excludes "
line 1 /* comment 1 */
line /* comment 2 */2 // line comment 1
line 3 /* some comments
over multiple lines
*/
line 4 /* more multiline comments
* with leading
* asterisks
*/end// line comment 2" "
line 1 
line 2 
line 3 
line 4 end".

Lemma tests_pass :
  Forall (fun t => t = Ret tt)
    [empty; single_char; two_chars; comment; comments_are_ended_by_new_line;
     new_lines_without_comments; line_comments_on_multiple_lines; block_comment;
     empty_block_comment; block_comment_with_asterisk_and_slash_inside;
     block_comment_within_line_comment; block_and_line_comments_on_multiple_lines]
  /\ Forall (fun t => t = Panic)
    [panic_on_single_slash; block_comment_not_terminated;
     block_comment_not_completely_terminated].
Proof. split; repeat constructor. Qed.

End Comments.

(** ** [hex!] *)

Module Hex.

(** The literals of a macro call, and the array that it expands to. *)
Definition literal (text : string) : TokenTree :=
  Literal (34%u8 :: list_byte_of_string text ++ [34%u8]).

Definition expands (texts : list string) (bs : list u8) : Prop :=
  hex (List.map literal texts) = Ret [Group Bracket (byte_tokens bs)].

Example single_literal : expands ["ff e4"]%string [0xff; 0xe4]%u8.
Proof. reflexivity. Qed.
Example no_literal : expands [] [] /\ expands [""; ""; ""]%string [].
Proof. split; reflexivity. Qed.
Example upper_case :
  expands ["AE DF 04 B2"]%string [0xae; 0xdf; 0x04; 0xb2]%u8
  /\ expands ["FF BA 8C 00 01"]%string [0xff; 0xba; 0x8c; 0x00; 0x01]%u8.
Proof. split; reflexivity. Qed.
Example mixed_case : expands ["bF dd E4 Cd"]%string [0xbf; 0xdd; 0xe4; 0xcd]%u8.
Proof. reflexivity. Qed.
Example multiple_literals :
  expands ["01 dd f7 7f"; "ee f0 d8"]%string [0x01; 0xdd; 0xf7; 0x7f; 0xee; 0xf0; 0xd8]%u8
  /\ expands ["ff"; "e8 d0"; ""; "01 1f"; "ab"]%string [0xff; 0xe8; 0xd0; 0x01; 0x1f; 0xab]%u8.
Proof. split; reflexivity. Qed.
Example no_spacing :
  expands ["abf0d8bb0f14"]%string [0xab; 0xf0; 0xd8; 0xbb; 0x0f; 0x14]%u8
  /\ expands ["09FFd890cbcCd1d08F"]%string
       [0x09; 0xff; 0xd8; 0x90; 0xcb; 0xcc; 0xd1; 0xd0; 0x8f]%u8.
Proof. split; reflexivity. Qed.
Example allows_various_spacing :
  expands ["f
            f
            d
            0
            e

            8
            "]%string [0xff; 0xd0; 0xe8]%u8
  /\ expands [" e    e d0  9 1   f  f  "]%string [0xee; 0xd0; 0x91; 0xff]%u8.
Proof. split; reflexivity. Qed.
Example single_line_comments :
  expands ["dd 03 // comment"]%string [0xdd; 0x03]%u8
  /\ expands ["00 04 f0 // a comment here
            54 fe // another comment"]%string [0x00; 0x04; 0xf0; 0x54; 0xfe]%u8
  /\ expands ["// initial comment
            01 02"]%string [0x01; 0x02]%u8.
Proof. split_and!; reflexivity. Qed.
Example block_comments :
  expands ["00 01 02 /* intervening comment */ 03 04"]%string
    [0x00; 0x01; 0x02; 0x03; 0x04]%u8
  /\ expands ["/* initial comment */ ff df dd"]%string [0xff; 0xdf; 0xdd]%u8.
Proof. split; reflexivity. Qed.

End Hex.
