(* ===== verification/CpuFeatures.v ===== *)
(** * CPU feature detection

    [cpufeatures/src]: the checks of x86 ([x86.rs]) and AArch64 ([aarch64.rs])
    and the module that the macro [new!] creates ([lib.rs]), as one
    thread runs it; several threads are in [CpuFeaturesThreads]. The
    [CPUID] instruction, [getauxval], [sysctlbyname] and the constants of [libc]
    are arguments ([Machine]). What is decided at compile time (the enabled
    features, the target) is the record [Target]; the configurations of the macros
    are those of [Platform], [miri.rs] among them. *)
From stdpp Require Import base numbers list strings relations.
From S2P Require Import Prelude.
Local Open Scope string_scope.
Local Open Scope nat_scope.

(** ** [x86.rs] *)

(** [core::arch::x86_64::CpuidResult] *)
Record CpuidResult := mkCpuidResult { eax : Z; ebx : Z; ecx : Z; edx : Z }.

Inductive Reg : Set := Rebx | Recx | Redx.

Definition get_reg (r : Reg) (c : CpuidResult) : Z :=
  match r with Rebx => ebx c | Recx => ecx c | Redx => edx c end.

(** The rows of [__expand_check_macro!]: for each feature the results, registers
    and bits to look at. *)
Definition check_table : list (string * list (nat * Reg * Z)) := [
  ("mmx", [(0, Redx, 23%Z)]);
  ("sse", [(0, Redx, 25%Z)]);
  ("sse2", [(0, Redx, 26%Z)]);
  ("sse3", [(0, Recx, 0%Z)]);
  ("pclmulqdq", [(0, Recx, 1%Z)]);
  ("ssse3", [(0, Recx, 9%Z)]);
  ("fma", [(0, Recx, 28%Z); (0, Recx, 12%Z)]);
  ("sse4.1", [(0, Recx, 19%Z)]);
  ("sse4.2", [(0, Recx, 20%Z)]);
  ("popcnt", [(0, Recx, 23%Z)]);
  ("aes", [(0, Recx, 25%Z)]);
  ("avx", [(0, Recx, 28%Z)]);
  ("rdrand", [(0, Recx, 30%Z)]);
  ("sgx", [(1, Rebx, 2%Z)]);
  ("bmi1", [(1, Rebx, 3%Z)]);
  ("avx2", [(0, Recx, 28%Z); (1, Rebx, 5%Z)]);
  ("bmi2", [(1, Rebx, 8%Z)]);
  ("rdseed", [(1, Rebx, 18%Z)]);
  ("adx", [(1, Rebx, 19%Z)]);
  ("sha", [(1, Rebx, 29%Z)])
].

Definition lookup_row (name : string) : option (list (nat * Reg * Z)) :=
  snd <$> List.find (fun row => String.eqb name row.1) check_table.

(** [check!($cr, $name)]; [None] where no rule of the macro matches, which is a
    compile-time error. *)
Definition check (cr : list CpuidResult) (name : string) : option (run bool) :=
  row ← lookup_row name;
  Some (foldl (fun acc t =>
          let '(i, reg, offset) := t in
          let! acc := acc in
          let! c := index cr i in
          Ret (acc && negb (Z.land (get_reg reg c) (Z.shiftl 1 offset) =? 0)%Z))
        (Ret true) row).

(** [$($crate::check!(cr, $tf) & )+ true] *)
Fixpoint check_all (cr : list CpuidResult) (tfs : list string) : option (run bool) :=
  match tfs with
  | [] => Some (Ret true)
  | tf :: tfs =>
      c ← check cr tf;
      rest ← check_all cr tfs;
      Some (let! c := c in let! rest := rest in Ret (c && rest))
  end.

(** [__detect_target_features!], [cpuid] being [__cpuid_count]. *)
Definition detect_target_features (cpuid : Z -> Z -> CpuidResult) (tfs : list string) :
    option (run bool) :=
  let cr := [cpuid 1 0; cpuid 7 0]%Z in
  check_all cr tfs.

(** What the compiler knows of the target. *)
Record Target := mkTarget { enabled : string -> bool; sgx : bool }.

(** [__unless_target_features!] *)
Definition unless_target_features {A} (t : Target) (tfs : list string)
    (true_ false_ : A) (body : A) : A :=
  if forallb (enabled t) tfs then true_ else if sgx t then false_ else body.

(** ** [aarch64.rs] *)

(** The constants of [libc]. *)
Record Libc := mkLibc {
  HWCAP_AES : Z; HWCAP_PMULL : Z; HWCAP_SHA2 : Z; HWCAP_SHA3 : Z; HWCAP_SHA512 : Z;
}.

(** [mod hwcaps] *)
Definition hwcap_AES (l : Libc) : Z := Z.lor (HWCAP_AES l) (HWCAP_PMULL l).
Definition hwcap_SHA2 (l : Libc) : Z := HWCAP_SHA2 l.
Definition hwcap_SHA3 (l : Libc) : Z := Z.lor (HWCAP_SHA3 l) (HWCAP_SHA512 l).

(** [check!] on Linux. *)
Definition linux_check (l : Libc) (hwcaps : Z) (name : string) : option bool :=
  if String.eqb name "aes" then Some (negb (Z.land hwcaps (hwcap_AES l) =? 0)%Z)
  else if String.eqb name "sha2" then Some (negb (Z.land hwcaps (hwcap_SHA2 l) =? 0)%Z)
  else if String.eqb name "sha3" then Some (negb (Z.land hwcaps (hwcap_SHA3 l) =? 0)%Z)
  else None.

(** [sysctlbyname] on macOS; [call] is that of [libc]: the return code, the
    value and the size it writes. *)
Definition sysctlbyname (call : string -> Z * Z * Z) (name : string) : run bool :=
  let '(rc, value, size) := call name in
  let! _ := assert_ (size =? 4)%Z in
  let! _ := assert_ (rc =? 0)%Z in
  Ret (negb (value =? 0)%Z).

(** [check!] on macOS. *)
Definition macos_check (call : string -> Z * Z * Z) (name : string) :
    option (run bool) :=
  if String.eqb name "aes" then Some (Ret true)
  else if String.eqb name "sha2" then Some (Ret true)
  else if String.eqb name "sha3" then
    Some (let! a := sysctlbyname call "hw.optional.armv8_2_sha512" in
          if (a : bool) then sysctlbyname call "hw.optional.armv8_2_sha3" else Ret false)
  else None.

(** [check!] on iOS. *)
Definition ios_check (name : string) : option bool :=
  if String.eqb name "aes" then Some true
  else if String.eqb name "sha2" then Some true
  else if String.eqb name "sha3" then Some false
  else None.

(** [getauxval_hwcap]: [getauxval(AT_HWCAP)] of [libc]. *)
Definition getauxval_hwcap (getauxval : Z -> Z) (AT_HWCAP : Z) : Z := getauxval AT_HWCAP.

(** [$(check!(hwcaps, $tf) & )+ true] *)
Fixpoint linux_check_all (l : Libc) (hwcaps : Z) (tfs : list string) : option bool :=
  match tfs with
  | [] => Some true
  | tf :: tfs =>
      c ← linux_check l hwcaps tf;
      rest ← linux_check_all l hwcaps tfs;
      Some (c && rest)
  end.

(** [__detect_target_features!] on Linux. *)
Definition linux_detect (getauxval : Z -> Z) (AT_HWCAP : Z) (l : Libc) (tfs : list string) :
    option bool :=
  let hwcaps := getauxval_hwcap getauxval AT_HWCAP in
  linux_check_all l hwcaps tfs.

(** [__detect_target_features!] on macOS. *)
Fixpoint macos_detect (call : string -> Z * Z * Z) (tfs : list string) : option (run bool) :=
  match tfs with
  | [] => Some (Ret true)
  | tf :: tfs =>
      c ← macos_check call tf;
      rest ← macos_detect call tfs;
      Some (let! c := c in let! rest := rest in Ret (c && rest))
  end.

(** ** The platforms *)

(** The configurations for which the two macros are written: x86, AArch64 with its
    operating systems, and [miri]. *)
Inductive Platform : Set := X86 | Linux | MacOS | IOS | OtherOS | Miri.

(** What is asked at run time. *)
Record Machine := mkMachine {
  cpuid_count : Z -> Z -> CpuidResult;
  getauxval : Z -> Z;
  AT_HWCAP : Z;
  libc : Libc;
  sysctl : string -> Z * Z * Z;
}.

(** [miri.rs]: both macros are [false]. *)
Definition miri_unless_target_features (_ : list string) : bool := false.
Definition miri_detect_target_features (_ : list string) : bool := false.

(** [__detect_target_features!]; iOS has no rule of it. *)
Definition platform_detect (p : Platform) (m : Machine) (tfs : list string) : option (run bool) :=
  match p with
  | X86 => detect_target_features (cpuid_count m) tfs
  | Linux => Ret <$> linux_detect (getauxval m) (AT_HWCAP m) (libc m) tfs
  | MacOS => macos_detect (sysctl m) tfs
  | IOS => None
  | OtherOS => Some (Ret false)
  | Miri => Some (Ret (miri_detect_target_features tfs))
  end.

(** What [__unless_target_features!] knows at compile time. *)
Definition platform_static (p : Platform) (t : Target) (tfs : list string) : option bool :=
  match p with
  | X86 => unless_target_features t tfs (Some true) (Some false) None
  | Linux | MacOS | IOS | OtherOS => if forallb (enabled t) tfs then Some true else None
  | Miri => Some (miri_unless_target_features tfs)
  end.

(** What the module of [new!] is made of: the value known at compile time, else
    the detection, which must then exist. *)
Definition new_module (p : Platform) (t : Target) (m : Machine) (tfs : list string) :
    option (option bool * run bool) :=
  match platform_static p t tfs with
  | Some v => Some (Some v, Ret v)
  | None => pair None <$> platform_detect p m tfs
  end.

(** ** [lib.rs]: the module that [new!] creates *)

Definition UNINIT : u8 := 255%u8.

(** [res as u8] *)
Definition bool_u8 (b : bool) : u8 := if b then 1%u8 else 0%u8.

(** The functions of the module, run by one thread alone on the storage. *)
Section sequential.
Context (static : option bool) (detected : run bool).

Definition init_get (storage : u8) : run (u8 * bool) :=
  match static with
  | Some v => Ret (storage, v)
  | None =>
      let val := storage in
      if bool_decide (val = UNINIT) then
        let! res := detected in Ret (bool_u8 res, res)
      else Ret (storage, bool_decide (val = 1%u8))
  end.

(** [init]: the token holds nothing. *)
Definition init (storage : u8) : run (u8 * unit) :=
  let! (storage, _) := init_get storage in Ret (storage, tt).

Definition get (storage : u8) : run (u8 * bool) := init_get storage.

(** [InitToken::get] *)
Definition token_get (storage : u8) : bool :=
  match static with Some v => v | None => bool_decide (storage = 1%u8) end.
End sequential.

(** ** The checks of x86 *)

Lemma bit_test r k :
  (0 <= k)%Z -> negb (Z.land r (Z.shiftl 1 k) =? 0)%Z = Z.testbit r k.
Proof.
  intros Hk. rewrite Z.shiftl_1_l.
  assert (forall i, (0 <= i)%Z ->
    Z.testbit (Z.land r (2 ^ k)) i = Z.testbit r k && bool_decide (i = k)) as Hb.
  { intros i Hi. rewrite Z.land_spec. case_bool_decide as Hik.
    - subst. by rewrite Z.pow2_bits_true.
    - by rewrite Z.pow2_bits_false, !andb_false_r. }
  destruct (Z.testbit r k) eqn:E.
  - apply negb_true_iff, Z.eqb_neq. intros H0. specialize (Hb k Hk).
    rewrite H0, Z.bits_0, bool_decide_eq_true_2 in Hb by done. done.
  - apply negb_false_iff, Z.eqb_eq, Z.bits_inj'. intros i Hi. by rewrite Hb, Z.bits_0.
Qed.

(** The bit of the results of [CPUID] that an entry of the table names. *)
Definition entry_bit (cr : list CpuidResult) (t : nat * Reg * Z) : Prop :=
  exists c, cr !! t.1.1 = Some c /\ Z.testbit (get_reg t.1.2 c) t.2 = true.

Definition entry_ok (t : nat * Reg * Z) : Prop := t.1.1 < 2 /\ (0 <= t.2)%Z.

Lemma lookup_row_ok name row : lookup_row name = Some row -> Forall entry_ok row.
Proof.
  unfold lookup_row. intros H. apply fmap_Some in H as ([n row'] & Hf & ->).
  apply find_some in Hf as [Hin _]. simpl. revert Hin. unfold check_table.
  assert (Forall (fun r => Forall entry_ok r.2) check_table) as Ht.
  { unfold entry_ok. apply (bool_decide_unpack _). by vm_compute. }
  intros Hin. rewrite Forall_forall in Ht. apply (Ht (n, row')). by apply list_elem_of_In.
Qed.

Lemma check_row cr row acc :
  length cr = 2 -> Forall entry_ok row ->
  exists b, foldl (fun acc t =>
      let '(i, reg, offset) := t in
      let! acc := acc in
      let! c := index cr i in
      Ret (acc && negb (Z.land (get_reg reg c) (Z.shiftl 1 offset) =? 0)%Z))
    (Ret acc) row = Ret b
  /\ (b = true <-> acc = true /\ Forall (entry_bit cr) row).
Proof.
  intros Hl H. revert acc. induction H as [|[[i reg] off] row [Hi Ho] H IH]; intros acc.
  { exists acc. split; [done|]. split; [by repeat constructor|by intros [? _]]. }
  simpl in Hi, Ho. destruct (lookup_lt_is_Some_2 cr i) as [c Hc]; [lia|].
  cbn [foldl]. rewrite bind_Ret, (index_Some _ _ _ Hc), bind_Ret, bit_test by done.
  destruct (IH (acc && Z.testbit (get_reg reg c) off)) as (b & E & Hb).
  exists b. split; [exact E|]. rewrite Hb, andb_true_iff, Forall_cons.
  assert (entry_bit cr (i, reg, off) <-> Z.testbit (get_reg reg c) off = true) as ->.
  { unfold entry_bit. simpl. rewrite Hc. split; [by intros (? & [= <-] & ?)|eauto]. }
  tauto.
Qed.

Lemma check_ok cr name row :
  length cr = 2 -> lookup_row name = Some row ->
  exists b, check cr name = Some (Ret b) /\ (b = true <-> Forall (entry_bit cr) row).
Proof.
  intros Hl Hr. destruct (check_row cr row true Hl (lookup_row_ok _ _ Hr)) as (b & E & Hb).
  exists b. split; [unfold check; rewrite Hr; simpl; by rewrite E|].
  rewrite Hb. tauto.
Qed.

(** ** Properties *)

(** C14. On x86, for any features of the table, detection does not panic and
    answers yes exactly when every bit of the results of [CPUID] that the table
    names for one of them is set; in particular it never answers yes for AVX2 or
    FMA without the bit of AVX. *)
Theorem detect_target_features_correct (cpuid : Z -> Z -> CpuidResult)
    (tfs : list string) :
  Forall (fun tf => is_Some (lookup_row tf)) tfs ->
  exists b, detect_target_features cpuid tfs = Some (Ret b)
    /\ (b = true <-> forall tf row, tf ∈ tfs -> lookup_row tf = Some row ->
          Forall (entry_bit [cpuid 1 0; cpuid 7 0]%Z) row)
    /\ (b = true -> "avx2" ∈ tfs \/ "fma" ∈ tfs ->
        Z.testbit (ecx (cpuid 1 0)%Z) 28 = true).
Proof.
  intros Hs. unfold detect_target_features. set (cr := [cpuid 1 0; cpuid 7 0]%Z).
  assert (exists b, check_all cr tfs = Some (Ret b)
    /\ (b = true <-> forall tf row, tf ∈ tfs -> lookup_row tf = Some row ->
          Forall (entry_bit cr) row)) as (b & E & Hb).
  { induction Hs as [|tf tfs [row Hr] Hs (b & IH & Hb)].
    { exists true. split; [done|]. split; [|done]. intros _ tf row Hin. set_solver. }
    destruct (check_ok cr tf row eq_refl Hr) as (b1 & E1 & Hb1).
    exists (b1 && b). split.
    - simpl. by rewrite E1; simpl; rewrite IH.
    - rewrite andb_true_iff, Hb1, Hb. split.
      + intros [H1 H2] tf' row' [->|Hin]%elem_of_cons Hr'; [congruence|by eapply H2].
      + intros H. split; [apply (H tf); [by left|done]|].
        intros tf' row' Hin. apply H. by right. }
  exists b. split_and!; [done..|]. intros Ht Hin.
  assert (exists tf row t, tf ∈ tfs /\ lookup_row tf = Some row /\ t ∈ row
    /\ t = (0, Recx, 28%Z)) as (tf & row & t & Htf & Hr & Hti & ->).
  { destruct Hin as [Hin|Hin]; do 3 eexists; (split; [exact Hin|]);
      (split; [reflexivity|]); (split; [by left|done]). }
  apply Hb with (tf := tf) (row := row) in Ht; [|done..].
  rewrite Forall_forall in Ht. apply Ht in Hti as (c & Hc & Hbit).
  simpl in Hc. by simplify_eq.
Qed.

Lemma detect_target_features_correct_witness :
  exists b, detect_target_features (fun _ _ => mkCpuidResult 0 0 (2 ^ 28 + 2 ^ 25) 0)
      ["aes"; "avx"] = Some (Ret b)
    /\ (b = true -> "avx2" ∈ ["aes"; "avx"] \/ "fma" ∈ ["aes"; "avx"] ->
        Z.testbit (2 ^ 28 + 2 ^ 25)%Z 28 = true).
Proof.
  destruct (detect_target_features_correct
    (fun _ _ => mkCpuidResult 0 0 (2 ^ 28 + 2 ^ 25) 0) ["aes"; "avx"]) as (b & E & _ & Ha).
  - repeat constructor; by eexists.
  - by exists b.
Defined.

(** ** Where the code does not do what it means to *)

(** On Linux the check of AArch64 accepts any one of the capabilities that a
    feature needs: with that of AES alone, "aes" is reported although the
    feature also implies the polynomial multiplication. *)
Lemma linux_check_any_bit (l : Libc) :
  HWCAP_AES l = 8%Z -> HWCAP_PMULL l = 16%Z -> linux_check l 8 "aes" = Some true.
Proof.
  intros H1 H2. unfold linux_check, hwcap_AES. simpl. by rewrite H1, H2.
Qed.
