(* ===== verification/CpuFeaturesThreads.v ===== *)
(** * Threads that share the result of [cpufeatures]

    The module that [new!] creates ([cpufeatures/src/lib.rs]), used by any number of
    threads. [STORAGE] is one atomic byte that is read and written with [Relaxed]
    ordering: its memory is the set of all that was ever stored in it, each message
    with a time, and a thread has the time up to which it has seen them. A load gives
    any message that is not older than that, not only the last one; a store puts a
    message at any free later time, possibly before those of other threads. The
    accesses of one thread are in program order: the store of [init_get] depends on
    its load, and the load of [get] comes after a load or store of the same byte. *)
From stdpp Require Import base numbers list strings relations.
From S2P Require Import Prelude CpuFeatures.

(** The steps of a thread that calls [init_get] and then [get] of the token: before
    the load, before the store of a detected result, returned, answered by the token. *)
Inductive Thread : Set :=
  | Call
  | Store (res : bool)
  | Done (val : bool)
  | Got (val tok : bool).

Record Message := mkMessage { time : Qp; value : u8 }.

Section module_.
(** [static]: the value that is known at compile time; [detected]: the result of
    [__detect_target_features!], the same whenever it is evaluated. *)
Context (static : option bool) (detected : bool).
Local Open Scope Qp_scope.

(** The messages of [STORAGE], and the threads, each with what it has seen. *)
Record Config := mkConfig { STORAGE : list Message; threads : list (Qp * Thread) }.

(** A load of a thread that has seen the messages up to [seen]. *)
Definition may_load (M : list Message) (seen : Qp) (msg : Message) : Prop :=
  msg ∈ M /\ seen ≤ time msg.

(** One atomic action of one thread of [init_get] or [InitToken::get]. *)
Inductive thread_step (M : list Message) (seen : Qp) :
    Thread -> list Message -> Qp -> Thread -> Prop :=
  | step_static v : static = Some v -> thread_step M seen Call M seen (Done v)
  | step_load_uninit msg :
      static = None -> may_load M seen msg -> value msg = UNINIT ->
      thread_step M seen Call M (time msg) (Store detected)
  | step_load_init msg :
      static = None -> may_load M seen msg -> value msg <> UNINIT ->
      thread_step M seen Call M (time msg) (Done (bool_decide (value msg = 1%u8)))
  | step_store res t :
      seen < t -> Forall (fun msg => time msg <> t) M ->
      thread_step M seen (Store res) (mkMessage t (bool_u8 res) :: M) t (Done res)
  | step_token_static v w : static = Some w -> thread_step M seen (Done v) M seen (Got v w)
  | step_token v msg :
      static = None -> may_load M seen msg ->
      thread_step M seen (Done v) M (time msg) (Got v (bool_decide (value msg = 1%u8))).

Inductive step : Config -> Config -> Prop :=
  | step_thread c i seen t M' seen' t' :
      threads c !! i = Some (seen, t) -> thread_step (STORAGE c) seen t M' seen' t' ->
      step c (mkConfig M' (<[i := (seen', t')]> (threads c))).

(** [n] threads, the storage as the program starts. *)
Definition init_config (n : nat) : Config :=
  mkConfig [mkMessage 1 UNINIT] (replicate n (1, Call)).

Definition expected : bool := default detected static.

(** Steps that a thread has left. *)
Definition steps_left (t : Qp * Thread) : nat :=
  match t.2 with Call => 3 | Store _ => 2 | Done _ => 1 | Got _ _ => 0 end%nat.
Definition work (c : Config) : nat := sum_list_with steps_left (threads c).

(** ** The invariant *)

(** Every message but the first is the answer. *)
Definition message_ok (msg : Message) : Prop :=
  (time msg = 1 /\ value msg = UNINIT)
  \/ (1 < time msg /\ static = None /\ value msg = bool_u8 expected).

(** What a thread has seen is a message; one that has an answer that was not known
    at compile time has seen a message after the first. *)
Definition thread_ok (M : list Message) (t : Qp * Thread) : Prop :=
  1 ≤ t.1 /\ (exists msg, msg ∈ M /\ time msg = t.1)
  /\ match t.2 with
     | Call => True
     | Store res => static = None /\ res = expected
     | Done v => v = expected /\ (static = None -> 1 < t.1)
     | Got v tok => v = expected /\ tok = expected
     end.

Definition config_ok (c : Config) : Prop :=
  Forall message_ok (STORAGE c) /\ Forall (thread_ok (STORAGE c)) (threads c).

Lemma bool_u8_spec b : bool_decide (bool_u8 b = 1%u8) = b /\ bool_u8 b <> UNINIT.
Proof. by destruct b. Qed.

Lemma config_ok_init n : config_ok (init_config n).
Proof.
  split; [apply Forall_singleton; by left|]. apply Forall_replicate. split_and!; [done| |done].
  eexists. by split; [left|].
Qed.

(** What a thread knows stays true when another one stores. *)
Lemma thread_ok_mono M M' t : (forall msg, msg ∈ M -> msg ∈ M') -> thread_ok M t -> thread_ok M' t.
Proof. intros Hm (? & (msg & ? & ?) & ?). split_and!; eauto. Qed.

(** A loaded message, by what it tells. *)
Lemma may_load_ok M seen msg :
  Forall message_ok M -> 1 ≤ seen -> may_load M seen msg ->
  1 ≤ time msg
  /\ (value msg <> UNINIT -> 1 < time msg /\ bool_decide (value msg = 1%u8) = expected)
  /\ (1 < seen -> value msg <> UNINIT).
Proof.
  intros HM Hs [Hin Hle]. destruct (bool_u8_spec expected) as [Hb Hne].
  pose proof (proj1 (Forall_forall _ _) HM msg Hin) as [[Ht Hv]|(Ht & _ & Hv)];
    rewrite Hv; split_and!; try done.
  - by rewrite Ht.
  - intros H1. rewrite Ht in Hle. by destruct (Qp.lt_nge 1 seen) as [Hn _]; destruct (Hn H1).
  - by apply Qp.lt_le_incl.
Qed.

Lemma thread_step_ok M seen t M' seen' t' :
  Forall message_ok M -> thread_ok M (seen, t) -> thread_step M seen t M' seen' t' ->
  Forall message_ok M' /\ thread_ok M' (seen', t') /\ (forall msg, msg ∈ M -> msg ∈ M')
  /\ (steps_left (seen', t') < steps_left (seen, t))%nat.
Proof.
  intros HM (Hs & Hseen & Ht) Hstep. unfold thread_ok. cbn [fst snd] in *.
  destruct Hstep as [v E|msg E Hl Hv|msg E Hl Hv|res t Hlt Hfresh|v w E|v msg E Hl]; cbn [fst snd].
  - assert (v = expected) as -> by (unfold expected; by rewrite E).
    split_and!; try done; [congruence|cbn; lia].
  - destruct (may_load_ok M seen msg HM Hs Hl) as (H1 & _). destruct Hl as [Hin _].
    split_and!; try done; [by exists msg| |cbn; lia]. unfold expected. by rewrite E.
  - destruct (may_load_ok M seen msg HM Hs Hl) as (H1 & Hi & _). destruct (Hi Hv) as [Hlt ->].
    destruct Hl as [Hin _]. split_and!; try done; [by exists msg|cbn; lia].
  - destruct Ht as [E ->]. assert (1 < t) as Hlt1 by (by eapply Qp.le_lt_trans).
    split_and!; try done; [|by apply Qp.lt_le_incl| | |cbn; lia].
    + apply Forall_cons. split; [by right|done].
    + eexists. by split; [left|].
    + intros msg Hin. by right.
  - destruct Ht as [-> _]. assert (w = expected) as -> by (unfold expected; by rewrite E).
    split_and!; try done; cbn; lia.
  - destruct Ht as [-> Hlt]. destruct (may_load_ok M seen msg HM Hs Hl) as (H1 & Hi & Hu).
    destruct (Hi (Hu (Hlt E))) as [_ ->]. destruct Hl as [Hin _].
    split_and!; try done; [by exists msg|cbn; lia].
Qed.

Lemma sum_list_with_insert (l : list (Qp * Thread)) i t t' :
  l !! i = Some t ->
  (sum_list_with steps_left (<[i := t']> l) + steps_left t
   = sum_list_with steps_left l + steps_left t')%nat.
Proof.
  revert i. induction l as [|x l IH]; intros [|i] Hi; simpl in *; simplify_eq; [lia|].
  specialize (IH i Hi). lia.
Qed.

(** The invariant, and a measure that every step decreases. *)
Lemma step_ok c c' : config_ok c -> step c c' -> config_ok c' /\ (work c' < work c)%nat.
Proof.
  intros [HM Hts] H. destruct H as [c i seen t M' seen' t' Hi Hstep].
  destruct (thread_step_ok _ _ _ _ _ _ HM (Forall_lookup_1 _ _ _ _ Hts Hi) Hstep)
    as (HM' & Ht' & Hmono & Hlt). unfold config_ok, work. cbn [STORAGE threads]. split.
  - split; [done|]. apply Forall_insert; [|done].
    eapply Forall_impl; [exact Hts|]. intros u. by apply thread_ok_mono.
  - pose proof (sum_list_with_insert _ _ _ (seen', t') Hi). lia.
Qed.

Lemma steps_ok c c' : rtc step c c' -> config_ok c -> config_ok c'.
Proof. induction 1 as [|c c1 c2 H _ IH]; [done|]. intros Hc. by apply IH, (step_ok c). Qed.

(** ** Progress *)

(** There is a time after [seen] at which nothing was stored. *)
Lemma fresh_time M seen : exists t, seen < t /\ Forall (fun msg => time msg <> t) M.
Proof.
  assert (exists t, seen < t /\ Forall (fun msg => time msg < t) M) as (t & Hs & Ht).
  { induction M as [|msg M (t & Hs & Ht)].
    - exists (seen + 1). split; [apply Qp.lt_add_l|constructor].
    - exists (time msg + t). split; [by etrans; [|apply Qp.lt_add_r]|].
      apply Forall_cons. split; [apply Qp.lt_add_l|].
      eapply Forall_impl; [exact Ht|]. intros m Hm. by etrans; [|apply Qp.lt_add_r]. }
  exists t. split; [done|]. eapply Forall_impl; [exact Ht|].
  intros m Hm E. simpl in E. subst t. by apply (irreflexivity Qp.lt (time m)).
Qed.

(** A thread that has steps left can take one. *)
Lemma step_progress c i t :
  config_ok c -> threads c !! i = Some t -> steps_left t <> 0%nat -> exists c', step c c'.
Proof.
  intros [_ Hts] Hi Hl. destruct t as [seen t].
  destruct (Forall_lookup_1 _ _ _ _ Hts Hi) as (_ & (msg & Hin & Hm) & _). simpl in Hm.
  assert (may_load (STORAGE c) seen msg) as Hload by (split; [done|by rewrite Hm]).
  assert (exists M' seen' t', thread_step (STORAGE c) seen t M' seen' t') as (M' & seen' & t' & H).
  { destruct (fresh_time (STORAGE c) seen) as (time & Hlt & Hf).
    destruct t as [|res|v|]; [|do 3 eexists; by apply (step_store _ _ _ time)| |done];
      destruct static as [w|] eqn:E.
    - do 3 eexists. by apply step_static.
    - destruct (decide (value msg = UNINIT)); do 3 eexists;
        [by eapply step_load_uninit|by eapply step_load_init].
    - do 3 eexists. by eapply step_token_static.
    - do 3 eexists. by eapply step_token. }
  eexists. by apply (step_thread _ i seen t M' seen' t').
Qed.

Lemma work_init n : work (init_config n) = (3 * n)%nat.
Proof. unfold work. simpl. induction n; simpl in *; lia. Qed.

Lemma nsteps_work k c c' : nsteps step k c c' -> config_ok c -> (k + work c' <= work c)%nat.
Proof.
  induction 1 as [|k c c1 c2 H _ IH]; intros Hc; [lia|].
  destruct (step_ok _ _ Hc H) as [Hc1 Hw]. specialize (IH Hc1). lia.
Qed.

(** Every execution ends. *)
Lemma config_acc c : config_ok c -> Acc (fun c' c => step c c') c.
Proof.
  remember (work c) as n eqn:Hn. revert c Hn. induction (lt_wf n) as [n _ IH].
  intros c -> Hc. constructor. intros c' Hs. destruct (step_ok _ _ Hc Hs) as [Hc' Hw].
  by apply (IH (work c')).
Qed.

Lemma step_length c c' : step c c' -> length (threads c') = length (threads c).
Proof. intros []. apply length_insert. Qed.

Lemma steps_length c c' : rtc step c c' -> length (threads c') = length (threads c).
Proof. induction 1 as [|c c1 c2 H _ IH]; [done|]. by rewrite IH, (step_length _ _ H). Qed.

(** A thread that has no steps left has the answer. *)
Lemma thread_finished M t : thread_ok M t -> steps_left t = 0%nat -> t.2 = Got expected expected.
Proof. destruct t as [seen [| | |v tok]]; intros (_ & _ & Ht) Hl; try done. by destruct Ht as [-> ->]. Qed.

(** From a reachable configuration the threads can finish, with the answer. *)
Lemma config_finishes c :
  config_ok c ->
  exists c', rtc step c c' /\ Forall (fun t => t.2 = Got expected expected) (threads c').
Proof.
  intros Hc. induction (config_acc c Hc) as [c _ IH].
  destruct (decide (Forall (fun t => steps_left t = 0%nat) (threads c))) as [Hz|Hz].
  - exists c. split; [done|]. destruct Hc as [_ Hts].
    apply (Forall_impl (fun t => thread_ok (STORAGE c) t /\ steps_left t = 0%nat));
      [by apply Forall_and|]. intros t [Ht Hl]. by eapply thread_finished.
  - apply not_Forall_Exists in Hz; [|apply _]. apply Exists_exists in Hz as (t & Hin & Ht).
    apply list_elem_of_lookup in Hin as [i Hi].
    destruct (step_progress c i t Hc Hi Ht) as [c1 Hs].
    destruct (IH c1 Hs) as (c' & Hr & Hf); [by apply (step_ok c)|].
    exists c'. split; [by eapply rtc_l|done].
Qed.
End module_.

(** C22. Any number of threads that call [init_get] concurrently, in any
    interleaving of their loads and stores, each load giving any message that the
    thread is not already past, all get the same answer, the one known at compile
    time or else the one detected, and their tokens read that answer from the
    storage, never the initial value, which is what the comment on the relaxed
    ordering claims; no execution takes more than three steps per thread, and one
    that is stuck has finished every thread. *)
Theorem init_get_consistent (static : option bool) (detected : bool) (n k : nat)
    (c : Config) :
  nsteps (step static detected) k (init_config n) c ->
  (k <= 3 * n)%nat
  /\ (forall i seen t, threads c !! i = Some (seen, t) ->
        match t with
        | Call | Store _ => True
        | Done val => val = expected static detected
        | Got val tok => val = expected static detected /\ tok = expected static detected
        end)
  /\ ((forall c', ~ step static detected c c') ->
      Forall (fun t => exists val tok, t.2 = Got val tok) (threads c)).
Proof.
  intros H. pose proof (config_ok_init static detected n) as H0.
  assert (rtc (step static detected) (init_config n) c) as Hr
    by (apply rtc_nsteps; eauto).
  pose proof (steps_ok _ _ _ _ Hr H0) as Hc. destruct Hc as [HM Hts]. split_and!.
  - pose proof (nsteps_work _ _ _ _ _ H H0) as Hw. rewrite work_init in Hw. lia.
  - intros i seen t Hi. destruct (Forall_lookup_1 _ _ _ _ Hts Hi) as (_ & _ & Ht).
    destruct t; simpl in Ht; tauto.
  - intros Hstuck. apply Forall_lookup. intros i t Hi.
    destruct (decide (steps_left t = 0%nat)) as [Hz|Hz]; [destruct t as [? []]; by eauto|].
    destruct (step_progress static detected c i t (conj HM Hts) Hi Hz) as [c' Hc'].
    by destruct (Hstuck c').
Qed.

(** The second thread stores its result before the first one does, which has loaded
    the initial value; the storage then holds the two messages. *)
Lemma init_get_consistent_witness :
  nsteps (step None true) 3 (init_config 2)
    (mkConfig [mkMessage 2 1%u8; mkMessage 1 UNINIT] [(1%Qp, Store true); (2%Qp, Done true)])
  /\ true = expected None true.
Proof.
  refine ((fun H => conj H (proj1 (proj2 (init_get_consistent None true 2 3
    (mkConfig [mkMessage 2 1%u8; mkMessage 1 UNINIT] [(1%Qp, Store true); (2%Qp, Done true)]) H))
    1 2%Qp (Done true) eq_refl)) _).
  assert (may_load [mkMessage 1 UNINIT] 1 (mkMessage 1 UNINIT)) as Hl by (by split; [left|]).
  eapply nsteps_l; [apply (step_thread _ _ _ 0 1%Qp Call [mkMessage 1 UNINIT] 1%Qp (Store true)); [reflexivity|
    by apply (step_load_uninit _ _ _ _ (mkMessage 1 UNINIT))]|].
  eapply nsteps_l; [apply (step_thread _ _ _ 1 1%Qp Call [mkMessage 1 UNINIT] 1%Qp (Store true)); [reflexivity|
    by apply (step_load_uninit _ _ _ _ (mkMessage 1 UNINIT))]|].
  eapply nsteps_l; [apply (step_thread _ _ _ 1 1%Qp (Store true)
    [mkMessage 2 1%u8; mkMessage 1 UNINIT] 2%Qp (Done true)); [reflexivity|
    by apply step_store; [|apply Forall_singleton]]|].
  apply nsteps_O.
Defined.

(** C19. Progress of the module that [new!] creates, on every platform where it is
    compiled and detection returns: whatever the threads have done so far, every
    execution goes on for finitely many steps only, and it can always be completed
    so that each thread has the answer and reads it from its token; alone on the
    storage that it starts with, or finds initialised, [init_get] returns that
    answer too. *)
Theorem init_get_finishes (p : Platform) (t : Target) (m : Machine) (tfs : list string)
    (static : option bool) (b : bool) (n : nat) (c : Config) :
  new_module p t m tfs = Some (static, Ret b) ->
  rtc (step static b) (init_config n) c ->
  Acc (fun c' c => step static b c c') c
  /\ (exists c', rtc (step static b) c c' /\ length (threads c') = n
      /\ Forall (fun t => t.2 = Got b b) (threads c'))
  /\ exists s, init_get static (Ret b) UNINIT = Ret (s, b) /\ init_get static (Ret b) s = Ret (s, b)
      /\ token_get static s = b.
Proof.
  intros Hn Hr. pose proof (steps_ok _ _ _ _ Hr (config_ok_init static b n)) as Hc.
  assert (expected static b = b) as He.
  { unfold new_module in Hn. destruct (platform_static p t tfs) as [v|]; [by simplify_eq|].
    by apply fmap_Some in Hn as (d & _ & [= -> <-]). }
  split_and!.
  - by apply config_acc.
  - destruct (config_finishes static b c Hc) as (c' & Hr' & Hf). rewrite He in Hf.
    exists c'. split_and!; [done| |done].
    rewrite (steps_length _ _ _ _ Hr'), (steps_length _ _ _ _ Hr). apply length_replicate.
  - unfold expected in He. destruct static as [v|]; simpl in *.
    + exists UNINIT. by subst v.
    + exists (bool_u8 b). unfold init_get, token_get. simpl.
      destruct (bool_u8_spec b) as [-> Hne]. by rewrite bool_decide_false.
Qed.

(** A machine with AES and the polynomial multiplication, under Linux. *)
Lemma init_get_finishes_witness :
  let m := mkMachine (fun _ _ => mkCpuidResult 0 0 0 0) (fun _ => 24%Z) 16
             (mkLibc 8 16 64 (2 ^ 17) (2 ^ 21)) (fun _ => (0, 0, 4)%Z) in
  let t := mkTarget (fun _ => false) false in
  new_module Linux t m ["aes"] = Some (None, Ret true)
  /\ exists c', rtc (step None true) (init_config 2) c' /\ map snd (threads c') = [Got true true; Got true true].
Proof.
  set (m := mkMachine _ _ _ _ _). set (t := mkTarget _ _). intros m' t'.
  assert (new_module Linux t m ["aes"] = Some (None, Ret true)) as E by reflexivity.
  split; [exact E|].
  destruct (init_get_finishes Linux t m ["aes"] None true 2 (init_config 2) E (rtc_refl _ _))
    as (_ & ([s ts] & Hr & Hl & Hf) & _).
  exists (mkConfig s ts). split; [exact Hr|]. cbn [threads] in *.
  destruct ts as [|[seen1 t1] [|[seen2 t2] [|t3 ts]]]; try discriminate Hl.
  apply Forall_cons in Hf as [E1 Hf]. apply Forall_cons in Hf as [E2 _].
  simpl in *. by subst t1 t2.
Defined.

