(* ===== verification/Zeroize.v ===== *)
(** * [zeroize]: erasing values from memory

    A Rust type is a type of what a place of that type holds, with the class
    [RustType]: its size, the bytes the place holds, its drop glue, the values
    a program can make and the relation of two values that differ in the data
    only. [&mut self] is passed and returned; beside it every operation gives the
    memory it releases, buffer by buffer with the bytes each holds then, because
    released memory can be read by whoever gets it next. The trait [Zeroize] is
    the class [Zeroize] with an instance per [impl]; [ZeroizeLaws] is what the
    containers rely on, and [ZeroizeOnDrop] and [ZeroizeOnDropLaws] are the same for
    types that erase themselves when dropped. Layouts the language does not fix (of [Option], [Vec],
    tuples) and the addresses the allocator returns are the classes
    [OptionLayout], [VecLayout], [TupleLayout] and [Allocator]. Volatile writes
    are writes; [atomic_fence] orders accesses and changes no memory. *)
From stdpp Require Import base numbers list tactics hlist.
From S2P Require Import Prelude.

(** Memory given back to the allocator: the bytes of each buffer, in order. *)
Abbreviation Released := (list (list u8)).

(** ** Types and their memory *)

Class RustType (T : Type) := {
  (** [mem::size_of::<T>()] *)
  size_of : nat;
  (** the memory of the place *)
  bytes_of : T -> list u8;
  (** [ptr::drop_in_place]: the bytes left in the place and what is released *)
  drop_in_place : T -> run (list u8 * Released);
  valid : T -> Prop;
  (** same addresses, capacities, variants and numbers of elements *)
  same_shape : T -> T -> Prop;
}.
Arguments size_of T {_}.

Class RustTypeLaws (T : Type) `{RustType T} := {
  length_bytes_of v : valid v -> length (bytes_of v) = size_of T;
  drop_in_place_ok v : valid v ->
    exists raw fr, drop_in_place v = Ret (raw, fr) /\ length raw = size_of T;
}.

(** The trait [Zeroize]. *)
Class Zeroize (T : Type) := {
  zeroize : T -> run (T * Released);
}.

(** Zeroizing a value succeeds, and the value it leaves and the memory it
    releases are the same whatever the data was. *)
Class ZeroizeLaws (T : Type) `{RustType T, Zeroize T} := {
  zeroize_ok v : valid v -> exists v' fr, zeroize v = Ret (v', fr) /\ valid v';
  zeroize_erases v1 v2 : valid v1 -> valid v2 -> same_shape v1 v2 ->
    zeroize v1 = zeroize v2;
}.

(** The marker trait [DefaultIsZeroes], with [Z::default()]. *)
Class DefaultIsZeroes (T : Type) := default_value : T.

Definition isize_max : Z := 2 ^ 63 - 1.

(** ** Writing memory *)

Definition volatile_write {A} (dst src : A) : A := src.

(** [ptr::write_volatile(dst.add(i), src)] *)
Definition write_volatile {A} (dst : list A) (i : nat) (src : A) : run (list A) :=
  if i <? length dst then Ret (<[i := src]> dst) else UB.

(** The body of the loop of [volatile_set], from index [i], [n] times. *)
Fixpoint volatile_set_loop {A} (dst : list A) (src : A) (i n : nat) : run (list A) :=
  match n with
  | 0 => Ret dst
  | S n => let! dst := write_volatile dst i src in volatile_set_loop dst src (S i) n
  end.

Definition volatile_set {A} (dst : list A) (src : A) (count : nat) : run (list A) :=
  volatile_set_loop dst src 0 count.

(** [a.checked_mul(b).unwrap()] on [usize]. *)
Definition checked_mul_unwrap (a b : nat) : run nat :=
  if (Z.of_nat a * Z.of_nat b <? 2 ^ 64)%Z then Ret (a * b) else Panic.

(** [<[MaybeUninit<Z>] as Zeroize>::zeroize] on a slice of [len] elements of
    size [sz] that is the memory [mem]. *)
Definition zeroize_uninit_slice (sz len : nat) (mem : list u8) : run (list u8) :=
  let! size := checked_mul_unwrap len sz in
  let! _ := assert_ (Z.of_nat size <=? isize_max)%Z in
  volatile_set mem 0%u8 size.

(** [<[Z] as Zeroize>::zeroize] *)
Definition zeroize_slice {T} `{DefaultIsZeroes T} (l : list T) : run (list T) :=
  let! _ := assert_ (Z.of_nat (length l) <=? isize_max)%Z in
  volatile_set l default_value (length l).

(** [<IterMut<Z> as Zeroize>::zeroize] on an iterator over [l]. *)
Fixpoint zeroize_iter_mut {T} `{Zeroize T} (l : list T) : run (list T * Released) :=
  match l with
  | [] => Ret ([], [])
  | elem :: l =>
      let! (elem, fr) := zeroize elem in
      let! (l, fr') := zeroize_iter_mut l in
      Ret (elem :: l, fr ++ fr')
  end.

(** The drop glue of consecutive elements. *)
Fixpoint drop_elems {T} `{RustType T} (l : list T) : run (list u8 * Released) :=
  match l with
  | [] => Ret ([], [])
  | elem :: l =>
      let! (raw, fr) := drop_in_place elem in
      let! (raws, fr') := drop_elems l in
      Ret (raw ++ raws, fr ++ fr')
  end.

(** A buffer of no bytes is not allocated. *)
Definition dealloc (buf : list u8) : Released :=
  match buf with [] => [] | _ => [buf] end.

(** ** Scalars *)

Inductive Prim : Set :=
  | Bool | Char | F32 | F64
  | I8 | I16 | I32 | I64 | I128 | Isize
  | U8 | U16 | U32 | U64 | U128 | Usize.

Definition prim_size (p : Prim) : nat :=
  match p with
  | Bool | I8 | U8 => 1
  | I16 | U16 => 2
  | Char | F32 | I32 | U32 => 4
  | F64 | I64 | Isize | U64 | Usize => 8
  | I128 | U128 => 16
  end.

Record Scalar (p : Prim) := mkScalar { scalar_bytes : list u8 }.
Arguments mkScalar {p} _.
Arguments scalar_bytes {p} _.

(** A type without drop glue nor pointers, of [n] bytes. *)
Definition plain_type {T} (n : nat) (bytes : T -> list u8) (P : T -> Prop) : RustType T := {|
  size_of := n;
  bytes_of := bytes;
  drop_in_place v := Ret (bytes v, []);
  valid v := length (bytes v) = n /\ P v;
  same_shape _ _ := True;
|}.

#[export] Instance scalar_type p : RustType (Scalar p) :=
  plain_type (prim_size p) scalar_bytes (fun _ => True).

(** [false], ['\0'], [0.0] and [0] are all zero bytes. *)
#[export] Instance scalar_default p : DefaultIsZeroes (Scalar p) :=
  mkScalar (replicate (prim_size p) 0%u8).

(** [impl<Z: DefaultIsZeroes> Zeroize for Z] *)
#[export] Instance zeroize_default {T} `{DefaultIsZeroes T} : Zeroize T := {|
  zeroize self :=
    Ret (volatile_write self default_value, [])
|}.

Record NonZero (p : Prim) := mkNonZero { nonzero_bytes : list u8 }.
Arguments mkNonZero {p} _.
Arguments nonzero_bytes {p} _.

#[export] Instance nonzero_type p : RustType (NonZero p) :=
  plain_type (prim_size p) nonzero_bytes
    (fun v => nonzero_bytes v <> replicate (prim_size p) 0%u8).

(** [new_unchecked(n)]: undefined for zero. *)
Definition new_unchecked (p : Prim) (n : Z) : run (NonZero p) :=
  let bytes := to_le_bytes (prim_size p) n in
  let! _ := assume_ (negb (bool_decide (bytes = replicate (prim_size p) 0%u8))) in
  Ret (mkNonZero bytes).

#[export] Instance zeroize_nonzero p : Zeroize (NonZero p) := {|
  zeroize self :=
    let! one := new_unchecked p 1 in
    Ret (volatile_write self one, [])
|}.

(** Registers: of x86 and of AArch64. *)
Inductive Simd : Set :=
  | M128 | M128d | M128i | M256 | M256d | M256i
  | Uint8x8 | Uint8x16 | Uint16x4 | Uint16x8 | Uint32x2 | Uint32x4 | Uint64x1 | Uint64x2.

Definition simd_size (r : Simd) : nat :=
  match r with
  | Uint8x8 | Uint16x4 | Uint32x2 | Uint64x1 => 8
  | M128 | M128d | M128i | Uint8x16 | Uint16x8 | Uint32x4 | Uint64x2 => 16
  | M256 | M256d | M256i => 32
  end.

Record Register (r : Simd) := mkRegister { register_bytes : list u8 }.
Arguments mkRegister {r} _.
Arguments register_bytes {r} _.

#[export] Instance register_type r : RustType (Register r) :=
  plain_type (simd_size r) register_bytes (fun _ => True).

(** [_mm_setzero_ps()], ..., [vdupq_n_u8(0)], ...: all bits zero. *)
Definition simd_zero (r : Simd) : Register r := mkRegister (replicate (simd_size r) 0%u8).

#[export] Instance zeroize_register r : Zeroize (Register r) := {|
  zeroize self :=
    Ret (volatile_write self (simd_zero r), [])
|}.

(** ** Wrappers, arrays, markers *)

(** [num::Wrapping<Z>] *)
Record Wrapping (T : Type) := mkWrapping { wrapped : T }.
Arguments mkWrapping {T} _.
Arguments wrapped {T} _.

#[export] Instance wrapping_type {T} `{RustType T} : RustType (Wrapping T) := {|
  size_of := size_of T;
  bytes_of v := bytes_of (wrapped v);
  drop_in_place v := drop_in_place (wrapped v);
  valid v := valid (wrapped v);
  same_shape v1 v2 := same_shape (wrapped v1) (wrapped v2);
|}.

#[export] Instance zeroize_wrapping {T} `{Zeroize T} : Zeroize (Wrapping T) := {|
  zeroize self :=
    let! (w, fr) := zeroize (wrapped self) in Ret (mkWrapping w, fr)
|}.

(** [[Z; N]] *)
Record Array (T : Type) (N : nat) := mkArray { items : list T }.
Arguments mkArray {T N} _.
Arguments items {T N} _.

#[export] Instance array_type {T N} `{RustType T} : RustType (Array T N) := {|
  size_of := N * size_of T;
  bytes_of v := concat (bytes_of <$> items v);
  drop_in_place v := drop_elems (items v);
  valid v := length (items v) = N /\ Forall valid (items v);
  same_shape v1 v2 := Forall2 same_shape (items v1) (items v2);
|}.

#[export] Instance zeroize_array {T N} `{Zeroize T} : Zeroize (Array T N) := {|
  zeroize self :=
    let! (l, fr) := zeroize_iter_mut (items self) in Ret (mkArray l, fr)
|}.

(** [()], [PhantomData<Z>] and [PhantomPinned] hold no bytes. *)
Inductive Marker : Set := Unit | PhantomData | PhantomPinned.
Record Phantom (k : Marker) := mkPhantom {}.
Arguments mkPhantom {k}.

#[export] Instance phantom_type k : RustType (Phantom k) :=
  plain_type 0 (fun _ => []) (fun _ => True).

#[export] Instance zeroize_phantom k : Zeroize (Phantom k) := {|
  zeroize self :=
    Ret (self, [])
|}.

(** ** Tuples *)

(** The fields in the order of the type. *)
#[export] Instance fields_nil : RustType (hlist tnil) :=
  plain_type 0 (fun _ => []) (fun _ => True).

#[export] Instance fields_cons {T Ts} `{RustType T, RustType (hlist Ts)} :
    RustType (hlist (tcons T Ts)) := {|
  size_of := size_of T + size_of (hlist Ts);
  bytes_of v := bytes_of (hhead v) ++ bytes_of (htail v);
  drop_in_place v :=
    let! (raw, fr) := drop_in_place (hhead v) in
    let! (raws, fr') := drop_in_place (htail v) in Ret (raw ++ raws, fr ++ fr');
  valid v := valid (hhead v) /\ valid (htail v);
  same_shape v1 v2 := same_shape (hhead v1) (hhead v2) /\ same_shape (htail v1) (htail v2);
|}.

#[export] Instance zeroize_fields_nil : Zeroize (hlist tnil) := {|
  zeroize self :=
    Ret (self, [])
|}.

(** [$($type_name.zeroize());+] *)
#[export] Instance zeroize_fields_cons {T Ts} `{Zeroize T, Zeroize (hlist Ts)} :
    Zeroize (hlist (tcons T Ts)) := {|
  zeroize self :=
    let! (x, fr) := zeroize (hhead self) in
    let! (xs, fr') := zeroize (htail self) in
    Ret (hcons x xs, fr ++ fr')
|}.

(** The bytes of padding that the layout of a tuple has. *)
Class TupleLayout (Ts : tlist) := padding_size : nat.
Arguments padding_size Ts {_}.

Record Tuple (Ts : tlist) := mkTuple { fields : hlist Ts; padding : list u8 }.
Arguments mkTuple {Ts} _ _.
Arguments fields {Ts} _.
Arguments padding {Ts} _.

(** [zeroize] leaves the padding as it is, so it belongs to the shape. *)
#[export] Instance tuple_type {Ts} `{TupleLayout Ts, RustType (hlist Ts)} :
    RustType (Tuple Ts) := {|
  size_of := size_of (hlist Ts) + padding_size Ts;
  bytes_of v := bytes_of (fields v) ++ padding v;
  drop_in_place v :=
    let! (raw, fr) := drop_in_place (fields v) in Ret (raw ++ padding v, fr);
  valid v := valid (fields v) /\ length (padding v) = padding_size Ts;
  same_shape v1 v2 := same_shape (fields v1) (fields v2) /\ padding v1 = padding v2;
|}.

#[export] Instance zeroize_tuple {Ts} `{Zeroize (hlist Ts)} : Zeroize (Tuple Ts) := {|
  zeroize self :=
    let! (xs, fr) := zeroize (fields self) in Ret (mkTuple xs (padding self), fr)
|}.

(** ** [Option] *)

(** A place that holds [None] keeps bytes of its own. *)
Inductive Opt (T : Type) :=
  | OSome (value : T)
  | ONone (raw : list u8).
Arguments OSome {T} value.
Arguments ONone {T} raw.

(** How [Option<Z>] is laid out: the bytes of [Some], given those of the value,
    and what writing [None] over some bytes leaves. *)
Class OptionLayout (T : Type) := {
  option_size : nat;
  some_bytes : list u8 -> list u8;
  write_none : list u8 -> list u8;
}.
Arguments option_size T {_}.
Arguments some_bytes T {_} _.
Arguments write_none T {_} _.

Class OptionLayoutLaws (T : Type) `{RustType T, OptionLayout T} := {
  length_some_bytes bs : length bs = size_of T -> length (some_bytes T bs) = option_size T;
  length_write_none bs : length (write_none T bs) = length bs;
}.

#[export] Instance option_type {T} `{RustType T, OptionLayout T} : RustType (Opt T) := {|
  size_of := option_size T;
  bytes_of o := match o with OSome v => some_bytes T (bytes_of v) | ONone raw => raw end;
  drop_in_place o :=
    match o with
    | OSome v => let! (raw, fr) := drop_in_place v in Ret (some_bytes T raw, fr)
    | ONone raw => Ret (raw, [])
    end;
  valid o := match o with OSome v => valid v | ONone raw => length raw = option_size T end;
  same_shape o1 o2 :=
    match o1, o2 with
    | OSome v1, OSome v2 => same_shape v1 v2
    | ONone _, ONone _ => True
    | _, _ => False
    end;
|}.

(** [self.take()]: what is left, and the value taken. *)
Definition take_option {T} `{RustType T, OptionLayout T} (o : Opt T) : Opt T * Opt T :=
  (ONone (write_none T (bytes_of o)), o).

#[export] Instance zeroize_option {T} `{RustType T, OptionLayout T, Zeroize T} :
    Zeroize (Opt T) := {|
  zeroize self :=
    let! (self, fr) :=
      match self with
      | OSome value =>
          let! (value, fr) := zeroize value in
          let '(self, taken) := take_option (OSome value) in
          let! (_, fr') := drop_in_place taken in
          Ret (self, fr ++ fr')
      | ONone raw => Ret (ONone raw, [])
      end in
    let! raw := volatile_set (bytes_of self) 0%u8 (size_of (Opt T)) in
    Ret (ONone (write_none T raw), fr)
|}.

(** ** Buffers on the heap *)

(** The bytes of the pointer, the capacity and the length of a [Vec] or of a
    box, in the order the compiler chooses. *)
Class VecLayout := {
  vec_bytes : Z -> nat -> nat -> list u8;
  box_bytes : Z -> nat -> list u8;
}.

Class VecLayoutLaws `{VecLayout} := {
  length_vec_bytes p c n : length (vec_bytes p c n) = 24;
  length_box_bytes p n : length (box_bytes p n) = 16;
}.

(** [Vec<Z>]: [spare] is the memory of the buffer after the elements. *)
Record Vec (T : Type) := mkVec {
  vec_ptr : Z;
  capacity : nat;
  elems : list T;
  spare : list u8;
}.
Arguments mkVec {T} _ _ _ _.
Arguments vec_ptr {T} _.
Arguments capacity {T} _.
Arguments elems {T} _.
Arguments spare {T} _.

(** A [Vec] never allocates more than [isize::MAX] bytes. *)
#[export] Instance vec_type {T} `{VecLayout, RustType T} : RustType (Vec T) := {|
  size_of := 24;
  bytes_of v := vec_bytes (vec_ptr v) (capacity v) (length (elems v));
  drop_in_place v :=
    let! (raw, fr) := drop_elems (elems v) in
    Ret (vec_bytes (vec_ptr v) (capacity v) (length (elems v)), fr ++ dealloc (raw ++ spare v));
  valid v :=
    Forall valid (elems v)
    /\ length (elems v) * size_of T + length (spare v) = capacity v * size_of T
    /\ (Z.of_nat (capacity v * size_of T) <= isize_max)%Z;
  same_shape v1 v2 :=
    vec_ptr v1 = vec_ptr v2 /\ capacity v1 = capacity v2
    /\ Forall2 same_shape (elems v1) (elems v2);
|}.

(** [self.clear()] *)
Definition clear {T} `{RustType T} (self : Vec T) : run (Vec T * Released) :=
  let! (raw, fr) := drop_elems (elems self) in
  Ret (mkVec (vec_ptr self) (capacity self) [] (raw ++ spare self), fr).

#[export] Instance zeroize_vec {T} `{RustType T, Zeroize T} : Zeroize (Vec T) := {|
  zeroize self :=
    let! (es, fr) := zeroize_iter_mut (elems self) in
    let self := mkVec (vec_ptr self) (capacity self) es (spare self) in
    let! (self, fr') := clear self in
    let! uninit_slice := raw_slice (spare self) 0 (capacity self * size_of T) in
    let! zeroed := zeroize_uninit_slice (size_of T) (capacity self) uninit_slice in
    Ret (mkVec (vec_ptr self) (capacity self) []
           (zeroed ++ drop (length uninit_slice) (spare self)), fr ++ fr')
|}.

(** [Box<[Z]>] *)
Record BoxSlice (T : Type) := mkBox { box_ptr : Z; boxed : list T }.
Arguments mkBox {T} _ _.
Arguments box_ptr {T} _.
Arguments boxed {T} _.

#[export] Instance box_type {T} `{VecLayout, RustType T} : RustType (BoxSlice T) := {|
  size_of := 16;
  bytes_of b := box_bytes (box_ptr b) (length (boxed b));
  drop_in_place b :=
    let! (raw, fr) := drop_elems (boxed b) in
    Ret (box_bytes (box_ptr b) (length (boxed b)), fr ++ dealloc raw);
  valid b := Forall valid (boxed b);
  same_shape b1 b2 := box_ptr b1 = box_ptr b2 /\ Forall2 same_shape (boxed b1) (boxed b2);
|}.

#[export] Instance zeroize_box {T} `{Zeroize T} : Zeroize (BoxSlice T) := {|
  zeroize self :=
    let! (l, fr) := zeroize_iter_mut (boxed self) in Ret (mkBox (box_ptr self) l, fr)
|}.

(** [String] *)
Record RString := mkString { as_mut_vec : Vec (Scalar U8) }.

#[export] Instance string_type `{VecLayout} : RustType RString := {|
  size_of := size_of (Vec (Scalar U8));
  bytes_of s := bytes_of (as_mut_vec s);
  drop_in_place s := drop_in_place (as_mut_vec s);
  valid s := valid (as_mut_vec s);
  same_shape s1 s2 := same_shape (as_mut_vec s1) (as_mut_vec s2);
|}.

#[export] Instance zeroize_string : Zeroize RString := {|
  zeroize self :=
    let! (v, fr) := zeroize (as_mut_vec self) in Ret (mkString v, fr)
|}.

(** ** [CString] *)

(** The addresses that the allocator returns: for a new buffer of [n] bytes, and
    for the buffer at [p] of [m] bytes resized to [n]. *)
Class Allocator := {
  alloc : nat -> Z;
  realloc : Z -> nat -> nat -> Z;
}.

(** What resizing a buffer to its first [n] bytes releases: the rest of it if it
    stays where it is, all of it if it moves. *)
Definition shrink_released (p p' : Z) (n : nat) (buf : list u8) : Released :=
  if bool_decide (p' = p) then dealloc (drop n buf) else dealloc buf.

Definition byte_of (b : Scalar U8) : u8 := default 0%u8 (scalar_bytes b !! 0).
Definition of_byte (b : u8) : Scalar U8 := mkScalar [b].

Record CString := mkCString { c_inner : BoxSlice (Scalar U8) }.

(** The bytes of the string end in the only zero byte. *)
#[export] Instance cstring_type `{VecLayout} : RustType CString := {|
  size_of := size_of (BoxSlice (Scalar U8));
  bytes_of c := bytes_of (c_inner c);
  drop_in_place c :=
    let! l := store (boxed (c_inner c)) 0 (of_byte 0%u8) in
    drop_in_place (mkBox (box_ptr (c_inner c)) l);
  valid c :=
    valid (c_inner c)
    /\ (Z.of_nat (length (boxed (c_inner c))) <= isize_max)%Z
    /\ exists bs, boxed (c_inner c) = bs ++ [of_byte 0%u8] /\ of_byte 0%u8 ∉ bs;
  same_shape c1 c2 := same_shape (c_inner c1) (c_inner c2);
|}.

Definition cstring_default `{Allocator} : CString :=
  mkCString (mkBox (alloc 1) [of_byte 0%u8]).

(** [self.into_bytes()]: the box becomes a [Vec], whose last byte is popped. *)
Definition into_bytes (c : CString) : Vec (Scalar U8) :=
  let l := boxed (c_inner c) in
  mkVec (box_ptr (c_inner c)) (length l) (take (length l - 1) l)
    (concat (scalar_bytes <$> drop (length l - 1) l)).

(** [CString::new(buf).expect(..)]: no byte may be zero; the terminator is
    pushed, which grows a full buffer, and the buffer shrinks to its length. *)
Definition cstring_new `{Allocator} (buf : Vec (Scalar U8)) : run (CString * Released) :=
  let! _ := assert_ (negb (bool_decide (0%u8 ∈ byte_of <$> elems buf))) in
  let n := length (elems buf) in
  let content := concat (scalar_bytes <$> elems buf) ++ spare buf in
  let '(p, cap, fr) :=
    if n <? capacity buf then (vec_ptr buf, capacity buf, [])
    else let p := realloc (vec_ptr buf) (capacity buf) (n + 1) in
         (p, n + 1, shrink_released (vec_ptr buf) p (capacity buf) content) in
  let content := concat (scalar_bytes <$> elems buf) ++ 0%u8 :: drop 1 (spare buf) in
  let '(p, fr') :=
    if n + 1 <? cap
    then let p' := realloc p cap (n + 1) in (p', shrink_released p p' (n + 1) content)
    else (p, []) in
  Ret (mkCString (mkBox p (elems buf ++ [of_byte 0%u8])), fr ++ fr').

#[export] Instance zeroize_cstring `{VecLayout, Allocator} : Zeroize CString := {|
  zeroize self :=
    let '(self, this) := (cstring_default, self) in
    let buf := into_bytes this in
    let! (buf, fr) := zeroize buf in
    let! (zeroed, fr') := cstring_new buf in
    let! (_, fr'') := drop_in_place self in
    Ret (zeroed, fr ++ fr' ++ fr'')
|}.

(** ** [Zeroizing] *)

(** The trait [Clone]; [clone_from] may release what the place held. *)
Class Clone (T : Type) := {
  clone : T -> run T;
  clone_from : T -> T -> run (T * Released);
}.

Record Zeroizing (T : Type) := mkZeroizing { zeroizing_0 : T }.
Arguments mkZeroizing {T} _.
Arguments zeroizing_0 {T} _.

Definition zeroizing_new {T} (value : T) : Zeroizing T := mkZeroizing value.
Definition zeroizing_from {T} (value : T) : Zeroizing T := mkZeroizing value.
Definition deref {T} (self : Zeroizing T) : T := zeroizing_0 self.

(** A write of [value] through [deref_mut]. *)
Definition deref_mut {T} (self : Zeroizing T) (value : T) : Zeroizing T := mkZeroizing value.

#[export] Instance zeroize_zeroizing {T} `{Zeroize T} : Zeroize (Zeroizing T) := {|
  zeroize self :=
    let! (v, fr) := zeroize (zeroizing_0 self) in Ret (mkZeroizing v, fr)
|}.

(** [Drop::drop] *)
Definition zeroizing_drop {T} `{Zeroize T} (self : Zeroizing T) : run (Zeroizing T * Released) :=
  let! (v, fr) := zeroize (zeroizing_0 self) in Ret (mkZeroizing v, fr).

(** The drop glue: [Drop::drop], then the field. *)
#[export] Instance zeroizing_type {T} `{RustType T, Zeroize T} : RustType (Zeroizing T) := {|
  size_of := size_of T;
  bytes_of v := bytes_of (zeroizing_0 v);
  drop_in_place v :=
    let! (v, fr) := zeroizing_drop v in
    let! (raw, fr') := drop_in_place (zeroizing_0 v) in
    Ret (raw, fr ++ fr');
  valid v := valid (zeroizing_0 v);
  same_shape v1 v2 := same_shape (zeroizing_0 v1) (zeroizing_0 v2);
|}.

#[export] Instance zeroizing_clone {T} `{Clone T, Zeroize T} : Clone (Zeroizing T) := {|
  clone self := let! v := clone (zeroizing_0 self) in Ret (mkZeroizing v);
  clone_from self source :=
    let! (v, fr) := zeroize (zeroizing_0 self) in
    let! (v, fr') := clone_from v (zeroizing_0 source) in
    Ret (mkZeroizing v, fr ++ fr');
|}.

(** [AsRef] and [AsMut]: the part of a value that is a [T], and a write to it. *)
Class AsRef (Z T : Type) := as_ref : Z -> T.
Class AsMut (Z T : Type) := as_mut : Z -> T -> Z.

#[export] Instance zeroizing_as_ref {Z T} `{AsRef Z T} : AsRef (Zeroizing Z) T :=
  fun self => as_ref (zeroizing_0 self).
#[export] Instance zeroizing_as_mut {Z T} `{AsMut Z T} : AsMut (Zeroizing Z) T :=
  fun self value => mkZeroizing (as_mut (zeroizing_0 self) value).

(** The traits of [serde], for a serializer and a deserializer of any kind. *)
Class Serialize (Z Serializer Done Error : Type) :=
  serialize : Z -> Serializer -> run (result Done Error).
Class Deserialize (Z Deserializer Error : Type) :=
  deserialize : Deserializer -> run (result Z Error).

#[export] Instance zeroizing_serialize {Z S Done E} `{Serialize Z S Done E} :
    Serialize (Zeroizing Z) S Done E :=
  fun self serializer => serialize (zeroizing_0 self) serializer.
#[export] Instance zeroizing_deserialize {Z D E} `{Deserialize Z D E} :
    Deserialize (Zeroizing Z) D E :=
  fun deserializer =>
    let? v := deserialize deserializer in Ret (Ok (mkZeroizing v)).

(** The trait [TryZeroize], which nothing here implements. *)
Class TryZeroize (T : Type) := try_zeroize : T -> run (T * bool * Released).

(** ** [ZeroizeOnDrop] *)

(** The marker trait: a type that zeroizes itself when it is dropped. What moved-out
    values left in memory that no value occupies now (the spare capacity of a
    [Vec], the place of a [None]) is not dropped: two values have the same residue
    when it is the same in both. *)
Class ZeroizeOnDrop (T : Type) := same_residue : T -> T -> Prop.

(** Dropping a value leaves and releases the same memory whatever the data was. *)
Class ZeroizeOnDropLaws (T : Type) `{RustType T, ZeroizeOnDrop T} := {
  drop_erases v1 v2 : valid v1 -> valid v2 -> same_shape v1 v2 -> same_residue v1 v2 ->
    drop_in_place v1 = drop_in_place v2;
}.

#[export] Instance on_drop_array {T N} `{ZeroizeOnDrop T} : ZeroizeOnDrop (Array T N) :=
  fun v1 v2 => Forall2 same_residue (items v1) (items v2).
#[export] Instance on_drop_option {T} `{ZeroizeOnDrop T} : ZeroizeOnDrop (Opt T) :=
  fun o1 o2 =>
    match o1, o2 with
    | OSome v1, OSome v2 => same_residue v1 v2
    | ONone raw1, ONone raw2 => raw1 = raw2
    | _, _ => False
    end.
#[export] Instance on_drop_phantom k : ZeroizeOnDrop (Phantom k) := fun _ _ => True.
#[export] Instance on_drop_fields_nil : ZeroizeOnDrop (hlist tnil) := fun _ _ => True.
#[export] Instance on_drop_fields_cons {T Ts} `{ZeroizeOnDrop T, ZeroizeOnDrop (hlist Ts)} :
    ZeroizeOnDrop (hlist (tcons T Ts)) :=
  fun v1 v2 => same_residue (hhead v1) (hhead v2) /\ same_residue (htail v1) (htail v2).
#[export] Instance on_drop_tuple {Ts} `{ZeroizeOnDrop (hlist Ts)} : ZeroizeOnDrop (Tuple Ts) :=
  fun v1 v2 => same_residue (fields v1) (fields v2).
#[export] Instance on_drop_vec {T} `{ZeroizeOnDrop T} : ZeroizeOnDrop (Vec T) :=
  fun v1 v2 => Forall2 same_residue (elems v1) (elems v2) /\ spare v1 = spare v2.
#[export] Instance on_drop_box {T} `{ZeroizeOnDrop T} : ZeroizeOnDrop (BoxSlice T) :=
  fun b1 b2 => Forall2 same_residue (boxed b1) (boxed b2).
#[export] Instance on_drop_zeroizing {T} `{Zeroize T} : ZeroizeOnDrop (Zeroizing T) :=
  fun _ _ => True.

(** [__internal]: [field.zeroize_or_on_drop()] on a [field: &mut T] is the method of
    [AssertZeroize] if [T] has [Zeroize]; otherwise a reference is taken and it is
    the one of [AssertZeroizeOnDrop], if [T] has [ZeroizeOnDrop]. *)
Inductive Assert (T : Type) :=
  | AssertZeroize (Z : Zeroize T)
  | AssertZeroizeOnDrop (D : ZeroizeOnDrop T).
Arguments AssertZeroize {T} Z.
Arguments AssertZeroizeOnDrop {T} D.

Definition zeroize_or_on_drop {T} (A : Assert T) (self : T) : run (T * Released) :=
  match A with
  | AssertZeroize Z => @zeroize T Z self
  | AssertZeroizeOnDrop _ => Ret (self, [])
  end.

(** ** Writing memory: lemmas *)

Lemma volatile_set_loop_ok {A} (dst : list A) src i n :
  i + n <= length dst ->
  volatile_set_loop dst src i n = Ret (take i dst ++ replicate n src ++ drop (i + n) dst).
Proof.
  revert dst i. induction n as [|n IH]; intros dst i H; simpl.
  - by rewrite Nat.add_0_r, take_drop.
  - unfold write_volatile. rewrite (proj2 (Nat.ltb_lt _ _)) by lia. simpl.
    rewrite IH by len. f_equal.
    rewrite (take_S_r _ _ src) by (apply list_lookup_insert_eq; lia).
    rewrite take_insert_ge, drop_insert_lt by lia.
    rewrite <- app_assoc. by rewrite Nat.add_succ_r.
Qed.

Lemma volatile_set_ok {A} (dst : list A) src n :
  n <= length dst -> volatile_set dst src n = Ret (replicate n src ++ drop n dst).
Proof. intros. unfold volatile_set. by rewrite volatile_set_loop_ok. Qed.

Lemma volatile_set_all {A} (dst : list A) src n :
  n = length dst -> volatile_set dst src n = Ret (replicate n src).
Proof. intros ->. rewrite volatile_set_ok by done. by rewrite drop_all, app_nil_r. Qed.

(** A slice of a type whose default is zero is set to it. *)
Lemma zeroize_slice_ok {T} `{DefaultIsZeroes T} (l : list T) :
  (Z.of_nat (length l) <= isize_max)%Z ->
  zeroize_slice l = Ret (replicate (length l) default_value).
Proof.
  intros Hl. unfold zeroize_slice. rewrite (proj2 (Z.leb_le _ _) Hl). simpl.
  by apply volatile_set_all.
Qed.

Lemma zeroize_uninit_slice_ok sz len mem :
  (Z.of_nat (len * sz) <= isize_max)%Z -> length mem = len * sz ->
  zeroize_uninit_slice sz len mem = Ret (replicate (len * sz) 0%u8).
Proof.
  intros Hs Hm. unfold zeroize_uninit_slice, checked_mul_unwrap.
  rewrite <- Nat2Z.inj_mul. unfold isize_max in *.
  rewrite (proj2 (Z.ltb_lt _ _)) by lia. simpl.
  rewrite (proj2 (Z.leb_le _ _)) by lia. simpl. by apply volatile_set_all.
Qed.

(** ** Laws *)

Lemma plain_type_laws {T} n (bytes : T -> list u8) P :
  RustTypeLaws T (H := plain_type n bytes P).
Proof.
  constructor.
  - by intros v [H _].
  - intros v [H _]. by exists (bytes v), [].
Qed.

#[export] Instance scalar_laws p : RustTypeLaws (Scalar p) := plain_type_laws _ _ _.
#[export] Instance nonzero_laws p : RustTypeLaws (NonZero p) := plain_type_laws _ _ _.
#[export] Instance register_laws r : RustTypeLaws (Register r) := plain_type_laws _ _ _.
#[export] Instance phantom_laws k : RustTypeLaws (Phantom k) := plain_type_laws _ _ _.
#[export] Instance fields_nil_laws : RustTypeLaws (hlist tnil) := plain_type_laws _ _ _.

(** What the elements of a list are made into does not depend on their data. *)
Section elements.
Context {T : Type} `{RustTypeLaws T}.

Lemma concat_bytes_length (l : list T) :
  Forall valid l -> length (concat (bytes_of <$> l)) = length l * size_of T.
Proof.
  induction 1 as [|x l Hx Hl IH]; [done|]. csimpl. rewrite length_app, IH.
  by rewrite length_bytes_of.
Qed.

Lemma drop_elems_ok (l : list T) :
  Forall valid l ->
  exists raw fr, drop_elems l = Ret (raw, fr) /\ length raw = length l * size_of T.
Proof.
  induction 1 as [|x l Hx Hl (raws & frs & E & IH)]; [by exists [], []|]. simpl.
  destruct (drop_in_place_ok x Hx) as (raw & fr & -> & Hr). simpl. rewrite E. simpl.
  eexists _, _. split; [done|]. rewrite length_app. lia.
Qed.

Context `{Zeroize T} `{!ZeroizeLaws T}.

Lemma zeroize_iter_mut_ok (l : list T) :
  Forall valid l ->
  exists l' fr, zeroize_iter_mut l = Ret (l', fr) /\ Forall valid l' /\ length l' = length l.
Proof.
  induction 1 as [|x l Hx Hl (l' & frs & E & Hl' & Hn)]; [by exists [], []|]. simpl.
  destruct (zeroize_ok x Hx) as (x' & fr & -> & Hx'). simpl. rewrite E. simpl.
  eexists _, _. split; [done|]. split; [by constructor|simpl; lia].
Qed.

Lemma zeroize_iter_mut_erases (l1 l2 : list T) :
  Forall valid l1 -> Forall valid l2 -> Forall2 same_shape l1 l2 ->
  zeroize_iter_mut l1 = zeroize_iter_mut l2.
Proof.
  intros Ha1 Ha2 Hs. induction Hs as [|x1 x2 l1 l2 Hx Hs IH]; [done|]. simpl.
  apply Forall_cons_1 in Ha1 as [??]. apply Forall_cons_1 in Ha2 as [??].
  by rewrite (zeroize_erases x1 x2), IH.
Qed.
End elements.

(** Take a valid part of a value through [zeroize] or its drop glue. *)
Ltac zstep :=
  match goal with
  | H : valid ?v |- context [zeroize ?v] =>
      let v' := fresh "v" in let fr := fresh "fr" in
      let E := fresh "E" in let Hv := fresh "Hv" in
      destruct (zeroize_ok v H) as (v' & fr & E & Hv); rewrite E; simpl
  | H : valid ?v |- context [drop_in_place ?v] =>
      let raw := fresh "raw" in let fr := fresh "fr" in
      let E := fresh "E" in let Hr := fresh "Hr" in
      destruct (drop_in_place_ok v H) as (raw & fr & E & Hr); rewrite E; simpl
  | H : Forall valid ?l |- context [zeroize_iter_mut ?l] =>
      let l' := fresh "l" in let fr := fresh "fr" in
      let E := fresh "E" in let Hl := fresh "Hl" in let Hn := fresh "Hn" in
      destruct (zeroize_iter_mut_ok l H) as (l' & fr & E & Hl & Hn); rewrite E; simpl
  | H : Forall valid ?l |- context [drop_elems ?l] =>
      let raw := fresh "raw" in let fr := fresh "fr" in
      let E := fresh "E" in let Hr := fresh "Hr" in
      destruct (drop_elems_ok l H) as (raw & fr & E & Hr); rewrite E; simpl
  end.
Ltac zsteps := repeat zstep; eauto 10.

(** Types whose zeroizing writes a constant. *)
#[export] Instance scalar_zeroize_laws p : ZeroizeLaws (Scalar p).
Proof.
  constructor; [|done]. intros v _. eexists _, _. split; [done|].
  split; [apply length_replicate|done].
Qed.

#[export] Instance register_zeroize_laws r : ZeroizeLaws (Register r).
Proof.
  constructor; [|done]. intros v _. eexists _, _. split; [done|].
  split; [apply length_replicate|done].
Qed.

#[export] Instance phantom_zeroize_laws k : ZeroizeLaws (Phantom k).
Proof. constructor; [by eauto|by intros [] []]. Qed.

#[export] Instance nonzero_zeroize_laws p : ZeroizeLaws (NonZero p).
Proof.
  assert (exists one, new_unchecked p 1 = Ret one /\ valid one) as (one & E & Hv).
  { destruct p; eexists; (split; [reflexivity|]); (split; [reflexivity|]); by vm_compute. }
  constructor; [|done]; simpl.
  intros v _. rewrite E. simpl. by eexists _, _.
Qed.

(** Wrappers, arrays, tuples: the laws of the parts. *)
Section composites.
Context {T : Type} `{RustTypeLaws T, Zeroize T} `{!ZeroizeLaws T}.

#[export] Instance wrapping_laws : RustTypeLaws (Wrapping T).
Proof. constructor; intros [v] Hv; simpl in *; [by apply length_bytes_of|zsteps]. Qed.

#[export] Instance wrapping_zeroize_laws : ZeroizeLaws (Wrapping T).
Proof.
  constructor; simpl.
  - intros [v] Hv. simpl in *. zsteps.
  - intros [v1] [v2] Ha1 Ha2 Hs. simpl in *. by rewrite (zeroize_erases v1 v2).
Qed.

#[export] Instance array_laws N : RustTypeLaws (Array T N).
Proof.
  constructor; intros [l] [Hl Hv]; simpl in *.
  - by rewrite concat_bytes_length, Hl.
  - subst N. zsteps.
Qed.

#[export] Instance array_zeroize_laws N : ZeroizeLaws (Array T N).
Proof.
  constructor; simpl.
  - intros [l] [Hl Hv]. simpl in *. zstep. eexists _, _. split; [done|]. simpl. by rewrite Hn.
  - intros [l1] [l2] [_ Ha1] [_ Ha2] Hs. simpl in *. by rewrite (zeroize_iter_mut_erases l1 l2).
Qed.

Context {Ts : tlist} `{RustTypeLaws (hlist Ts), Zeroize (hlist Ts)} `{!ZeroizeLaws (hlist Ts)}.

(** A list of fields that is not empty. *)
Lemma hlist_cons_eta (v : hlist (tcons T Ts)) : v = hcons (hhead v) (htail v).
Proof.
  refine (match v in hlist As return
            match As return hlist As -> Prop with
            | tnil => fun _ => True
            | tcons _ _ => fun v => v = hcons (hhead v) (htail v)
            end v with
          | hnil => I
          | hcons _ _ => eq_refl
          end).
Qed.

#[export] Instance fields_cons_laws : RustTypeLaws (hlist (tcons T Ts)).
Proof.
  constructor; intros v; rewrite (hlist_cons_eta v);
    generalize (hhead v), (htail v); intros x xs [Hx Hxs]; simpl in *.
  - by rewrite length_app, !length_bytes_of.
  - zsteps. eexists _, _. split; [done|]. rewrite length_app. congruence.
Qed.

#[export] Instance fields_cons_zeroize_laws : ZeroizeLaws (hlist (tcons T Ts)).
Proof.
  constructor.
  - intros v. rewrite (hlist_cons_eta v). generalize (hhead v), (htail v).
    intros x xs [Hx Hxs]. simpl in *. zsteps.
  - intros v1 v2. rewrite (hlist_cons_eta v1), (hlist_cons_eta v2).
    generalize (hhead v1), (htail v1), (hhead v2), (htail v2).
    intros x1 xs1 x2 xs2 [Ha1 Hb1] [Ha2 Hb2] [Hs Hs']. simpl in *.
    by rewrite (zeroize_erases x1 x2), (zeroize_erases xs1 xs2).
Qed.
End composites.

Lemma hlist_nil_eta (v : hlist tnil) : v = hnil.
Proof.
  refine (match v in hlist As return
            match As return hlist As -> Prop with
            | tnil => fun v => v = hnil
            | tcons _ _ => fun _ => True
            end v with
          | hnil => eq_refl
          | hcons _ _ => I
          end).
Qed.

#[export] Instance fields_nil_zeroize_laws : ZeroizeLaws (hlist tnil).
Proof.
  constructor; [by eauto|]. intros v1 v2. by rewrite (hlist_nil_eta v1), (hlist_nil_eta v2).
Qed.

#[export] Instance tuple_laws {Ts} `{TupleLayout Ts, RustTypeLaws (hlist Ts)} :
  RustTypeLaws (Tuple Ts).
Proof.
  constructor; intros [xs pad] [Hx Hp]; simpl in *.
  - by rewrite length_app, length_bytes_of, Hp.
  - zsteps. eexists _, _. split; [done|]. rewrite length_app. congruence.
Qed.

#[export] Instance tuple_zeroize_laws {Ts} `{TupleLayout Ts, RustTypeLaws (hlist Ts)}
    `{Zeroize (hlist Ts)} `{!ZeroizeLaws (hlist Ts)} : ZeroizeLaws (Tuple Ts).
Proof.
  constructor; simpl.
  - intros [xs pad] [Hx Hp]. simpl in *. zsteps.
  - intros [xs1 pad1] [xs2 pad2] [Hv1 _] [Hv2 _] [Hs Hp]. simpl in *.
    by rewrite (zeroize_erases xs1 xs2), Hp.
Qed.

(** [Option]: whatever the place held, it is zeros with [None] written over. *)
Section options.
Context {T : Type} `{OptionLayoutLaws T, Zeroize T} `{!RustTypeLaws T, !ZeroizeLaws T}.

Definition erased_option : Opt T := ONone (write_none T (replicate (option_size T) 0%u8)).

#[export] Instance option_laws : RustTypeLaws (Opt T).
Proof.
  constructor; intros [v|raw] Hv; simpl in *; [|done| |by eauto].
  - by apply length_some_bytes, length_bytes_of.
  - zstep. eexists _, _. split; [done|]. by apply length_some_bytes.
Qed.

Lemma valid_erased_option : valid erased_option.
Proof. simpl. by rewrite length_write_none, length_replicate. Qed.

Lemma zeroize_option_ok (o : Opt T) :
  valid o ->
  exists fr, zeroize o = Ret (erased_option, fr)
    /\ match o with
       | OSome v => exists v' fr1 raw fr2,
           zeroize v = Ret (v', fr1) /\ drop_in_place v' = Ret (raw, fr2) /\ fr = fr1 ++ fr2
       | ONone _ => fr = []
       end.
Proof.
  destruct o as [v|raw]; simpl; intros Hv.
  - repeat zstep. eexists. rewrite volatile_set_all; [split; [done|by eauto 10]|].
    by rewrite length_write_none, length_some_bytes by (by apply length_bytes_of).
  - eexists. by rewrite volatile_set_all.
Qed.

Lemma zeroize_option_erases (o1 o2 : Opt T) :
  valid o1 -> valid o2 -> same_shape o1 o2 -> zeroize o1 = zeroize o2.
Proof.
  destruct o1 as [v1|raw1], o2 as [v2|raw2]; intros Hv1 Hv2 Hs; try done.
  - simpl in *. by rewrite (zeroize_erases v1 v2).
  - destruct (zeroize_option_ok _ Hv1) as (? & -> & ->).
    by destruct (zeroize_option_ok _ Hv2) as (? & -> & ->).
Qed.

#[export] Instance option_zeroize_laws : ZeroizeLaws (Opt T).
Proof.
  constructor; [|apply zeroize_option_erases].
  intros o Hv. destruct (zeroize_option_ok o Hv) as (fr & -> & _).
  eexists _, _. split; [done|apply valid_erased_option].
Qed.
End options.

(** [Vec]: the buffer, all of its capacity, is zero, and the length is zero. *)
Section vectors.
Context {T : Type} `{VecLayoutLaws, RustTypeLaws T, Zeroize T} `{!ZeroizeLaws T}.

Definition erased_vec (v : Vec T) : Vec T :=
  mkVec (vec_ptr v) (capacity v) [] (replicate (capacity v * size_of T) 0%u8).

#[export] Instance vec_laws : RustTypeLaws (Vec T).
Proof.
  constructor; intros v Hv; simpl in *; [apply length_vec_bytes|].
  destruct Hv as (Hv & _). zstep. eexists _, _. split; [done|apply length_vec_bytes].
Qed.

Lemma valid_erased_vec (v : Vec T) : valid v -> valid (erased_vec v).
Proof. intros (_ & _ & Hc). simpl. by rewrite length_replicate. Qed.

Lemma zeroize_vec_ok (v : Vec T) :
  valid v -> exists fr, zeroize v = Ret (erased_vec v, fr).
Proof.
  intros (Hv & Hl & Hc). simpl. zstep. unfold clear. simpl. zstep.
  rewrite raw_slice_ok by (rewrite length_app; lia). simpl. rewrite drop_0.
  rewrite zeroize_uninit_slice_ok; [|done|rewrite length_take, length_app; lia].
  simpl. eexists. unfold erased_vec. do 3 f_equal.
  rewrite drop_ge; [by rewrite app_nil_r|]. rewrite length_take, length_app. lia.
Qed.

Lemma zeroize_vec_erases (v1 v2 : Vec T) :
  valid v1 -> valid v2 -> same_shape v1 v2 -> zeroize v1 = zeroize v2.
Proof.
  intros Hv1 Hv2 (Hp & Hc & Hs).
  destruct (zeroize_vec_ok v1 Hv1) as [fr1 E1], (zeroize_vec_ok v2 Hv2) as [fr2 E2].
  rewrite E1, E2. unfold erased_vec. rewrite Hp, Hc. do 2 f_equal.
  destruct Hv1 as [Hv1 _], Hv2 as [Hv2 _].
  simpl in E1, E2. rewrite (zeroize_iter_mut_erases _ _ Hv1 Hv2 Hs) in E1.
  destruct (zeroize_iter_mut_ok _ Hv2) as (l & fr & E & Hl & _). rewrite E in E1, E2.
  unfold clear in E1, E2. simpl in E1, E2.
  destruct (drop_elems_ok l Hl) as (raw & fr' & Ed & _). rewrite Ed in E1, E2. simpl in E1, E2.
  apply bind_Ret_inv in E1 as (? & _ & E1), E2 as (? & _ & E2).
  apply bind_Ret_inv in E1 as (? & _ & E1), E2 as (? & _ & E2). by simplify_eq.
Qed.

#[export] Instance vec_zeroize_laws : ZeroizeLaws (Vec T).
Proof.
  constructor; [|apply zeroize_vec_erases].
  intros v Hv. destruct (zeroize_vec_ok v Hv) as [fr ->].
  eexists _, _. split; [done|by apply valid_erased_vec].
Qed.

#[export] Instance box_laws : RustTypeLaws (BoxSlice T).
Proof.
  constructor; intros b Hb; simpl in *; [apply length_box_bytes|].
  zstep. eexists _, _. split; [done|apply length_box_bytes].
Qed.

#[export] Instance box_zeroize_laws : ZeroizeLaws (BoxSlice T).
Proof.
  constructor; simpl.
  - intros b Hb. zsteps.
  - intros b1 b2 Hv1 Hv2 [Hp Hs]. by rewrite (zeroize_iter_mut_erases _ _ Hv1 Hv2 Hs), Hp.
Qed.
End vectors.

#[export] Instance string_laws `{VecLayoutLaws} : RustTypeLaws RString.
Proof. constructor; intros [v] Hv; [apply length_vec_bytes|exact (drop_in_place_ok v Hv)]. Qed.

#[export] Instance string_zeroize_laws `{VecLayoutLaws} : ZeroizeLaws RString.
Proof.
  constructor.
  - intros [v] Hv. destruct (zeroize_vec_ok v Hv) as [fr E].
    exists (mkString (erased_vec v)), fr. split; [|by apply valid_erased_vec].
    change (zeroize (mkString v)) with
      (let! (v, fr) := zeroize v in Ret (mkString v, fr)). by rewrite E.
  - intros [v1] [v2] Hv1 Hv2 Hs.
    change ((let! (v, fr) := zeroize v1 in Ret (mkString v, fr))
            = (let! (v, fr) := zeroize v2 in Ret (mkString v, fr))).
    by rewrite (zeroize_vec_erases v1 v2).
Qed.

(** [CString]: the buffer is zero when it is resized to the terminator. *)
Section cstrings.
Context `{VecLayoutLaws, Allocator}.

Lemma valid_into_bytes (c : CString) : valid c -> valid (into_bytes c).
Proof.
  destruct c as [[p l]]. intros (Hl & Hn & bs & Hb & _). simpl in *. subst l.
  rewrite length_app, Nat.add_sub in *. simpl in *.
  rewrite take_app_length, drop_app_length. apply Forall_app in Hl as [Hl _].
  split_and!; [done|simpl; lia|]. by rewrite Nat.mul_1_r.
Qed.

(** Only the address and the length of the buffer matter. *)
Definition erased_cstring (p : Z) (n : nat) : CString * Released :=
  let '(p', fr) :=
    if 1 <? n then (realloc p n 1, shrink_released p (realloc p n 1) 1 (replicate n 0%u8))
    else (p, []) in
  (mkCString (mkBox p' [of_byte 0%u8]), fr).

Lemma cstring_new_erased (buf : Vec (Scalar U8)) :
  0 < capacity buf ->
  cstring_new (erased_vec buf) = Ret (erased_cstring (vec_ptr buf) (capacity buf)).
Proof.
  intros Hc. unfold cstring_new, erased_vec, erased_cstring. simpl.
  rewrite (proj2 (Nat.ltb_lt _ _) Hc), Nat.mul_1_r.
  destruct (capacity buf) as [|n]; [lia|]. simpl.
  by destruct (1 <? S n).
Qed.

Lemma zeroize_cstring_ok (c : CString) :
  valid c -> exists fr, zeroize (into_bytes c) = Ret (erased_vec (into_bytes c), fr)
    /\ let n := length (boxed (c_inner c)) in
       let '(c', fr') := erased_cstring (box_ptr (c_inner c)) n in
       zeroize c = Ret (c', fr ++ fr' ++ [[0%u8]]) /\ valid c'.
Proof.
  intros Hc. pose proof (valid_into_bytes c Hc) as Hv.
  destruct (zeroize_vec_ok _ Hv) as [fr E]. exists fr. split; [done|]. cbv zeta.
  assert (0 < length (boxed (c_inner c))) as Hn.
  { destruct Hc as (_ & _ & bs & Hb & _). rewrite Hb, length_app. simpl. lia. }
  pose proof (cstring_new_erased (into_bytes c) Hn) as En. simpl vec_ptr in En.
  simpl capacity in En.
  destruct (erased_cstring (box_ptr (c_inner c)) (length (boxed (c_inner c)))) as [c' fr'] eqn:Ec.
  split.
  - unfold zeroize at 1, zeroize_cstring. rewrite E. simpl. by rewrite En.
  - assert (exists p, c' = mkCString (mkBox p [of_byte 0%u8])) as [p ->].
    { unfold erased_cstring in Ec. destruct (1 <? _); simplify_eq; eauto. }
    split; [by repeat constructor|]. split; [done|]. exists []. split; [done|].
    apply not_elem_of_nil.
Qed.

#[export] Instance cstring_laws : RustTypeLaws CString.
Proof.
  constructor; intros [[p l]] (Hl & _ & bs & Hb & _); simpl in *; [apply length_box_bytes|].
  subst l. rewrite store_ok by (rewrite length_app; simpl; lia). simpl.
  assert (Forall valid (<[0 := of_byte 0%u8]> (bs ++ [of_byte 0%u8]))) as Hl'
    by (by apply Forall_insert).
  zstep. eexists _, _. split; [done|apply length_box_bytes].
Qed.

#[export] Instance cstring_zeroize_laws : ZeroizeLaws CString.
Proof.
  constructor.
  - intros c Hc. destruct (zeroize_cstring_ok c Hc) as (fr & _ & Hz).
    cbv zeta in Hz. destruct (erased_cstring _ _) as [c' fr']. destruct Hz. by eauto.
  - intros c1 c2 Hc1 Hc2 [Hp Hs]. pose proof (Forall2_length Hs) as Hn.
    destruct (zeroize_cstring_ok c1 Hc1) as (fr1 & E1 & Hz1).
    destruct (zeroize_cstring_ok c2 Hc2) as (fr2 & E2 & Hz2).
    assert (zeroize (into_bytes c1) = zeroize (into_bytes c2)) as E.
    { apply zeroize_vec_erases; [by apply valid_into_bytes..|]. simpl.
      split_and!; [done|done|]. rewrite Hn. by apply Forall2_take. }
    rewrite E1, E2 in E. assert (fr1 = fr2) as -> by congruence.
    cbv zeta in Hz1, Hz2. rewrite <- Hp, <- Hn in Hz2.
    destruct (erased_cstring _ _) as [c' fr']. destruct Hz1 as [-> _], Hz2 as [-> _]. done.
Qed.
End cstrings.

(** ** [Zeroizing] *)

Section zeroizing.
Context {T : Type} `{RustTypeLaws T, Zeroize T} `{!ZeroizeLaws T}.

#[export] Instance zeroizing_laws : RustTypeLaws (Zeroizing T).
Proof.
  constructor; intros [v] Hv; simpl in *; [by apply length_bytes_of|].
  unfold zeroizing_drop. simpl. zsteps.
Qed.

#[export] Instance zeroizing_zeroize_laws : ZeroizeLaws (Zeroizing T).
Proof.
  constructor; simpl.
  - intros [v] Hv. simpl in *. zsteps.
  - intros [v1] [v2] Hv1 Hv2 Hs. simpl in *. by rewrite (zeroize_erases v1 v2).
Qed.
End zeroizing.

(** ** [ZeroizeOnDrop] *)

Section on_drop.
Context {T : Type} `{RustType T, ZeroizeOnDrop T} `{!ZeroizeOnDropLaws T}.

Lemma drop_elems_erases (l1 l2 : list T) :
  Forall valid l1 -> Forall valid l2 -> Forall2 same_shape l1 l2 -> Forall2 same_residue l1 l2 ->
  drop_elems l1 = drop_elems l2.
Proof.
  intros Ha1 Ha2 Hs. induction Hs as [|x1 x2 l1 l2 Hx Hs IH]; intros Hr; [done|]. simpl.
  apply Forall_cons_1 in Ha1 as [??]. apply Forall_cons_1 in Ha2 as [??].
  apply Forall2_cons_1 in Hr as [??].
  by rewrite (drop_erases x1 x2), IH.
Qed.

#[export] Instance array_on_drop_laws N : ZeroizeOnDropLaws (Array T N).
Proof. constructor. intros [l1] [l2] [_ Hv1] [_ Hv2] Hs Hr. by apply drop_elems_erases. Qed.

#[export] Instance box_on_drop_laws `{VecLayout} : ZeroizeOnDropLaws (BoxSlice T).
Proof.
  constructor. intros [p1 l1] [p2 l2] Hv1 Hv2 [Hp Hs] Hr. simpl in *. subst p2.
  by rewrite (drop_elems_erases l1 l2), (Forall2_length Hs).
Qed.

#[export] Instance vec_on_drop_laws `{VecLayout} : ZeroizeOnDropLaws (Vec T).
Proof.
  constructor. intros [p1 c1 l1 s1] [p2 c2 l2 s2] (Hv1 & _) (Hv2 & _) (Hp & Hc & Hs) [Hr Hb].
  simpl in *. subst. by rewrite (drop_elems_erases l1 l2), (Forall2_length Hs).
Qed.

#[export] Instance option_on_drop_laws `{OptionLayout T} : ZeroizeOnDropLaws (Opt T).
Proof.
  constructor. intros [v1|raw1] [v2|raw2] Hv1 Hv2 Hs Hr; simpl in *; try done.
  - by rewrite (drop_erases v1 v2).
  - by rewrite Hr.
Qed.

#[export] Instance fields_cons_on_drop_laws {Ts} `{RustType (hlist Ts), ZeroizeOnDrop (hlist Ts)}
    `{!ZeroizeOnDropLaws (hlist Ts)} : ZeroizeOnDropLaws (hlist (tcons T Ts)).
Proof.
  constructor. intros v1 v2 [Ha1 Hb1] [Ha2 Hb2] [Hs Hs'] [Hr Hr']. simpl.
  by rewrite (drop_erases (hhead v1) (hhead v2)), (drop_erases (htail v1) (htail v2)).
Qed.
End on_drop.

#[export] Instance phantom_on_drop_laws k : ZeroizeOnDropLaws (Phantom k).
Proof. by constructor. Qed.

#[export] Instance fields_nil_on_drop_laws : ZeroizeOnDropLaws (hlist tnil).
Proof. by constructor. Qed.

#[export] Instance tuple_on_drop_laws {Ts} `{TupleLayout Ts, RustType (hlist Ts)}
    `{ZeroizeOnDrop (hlist Ts)} `{!ZeroizeOnDropLaws (hlist Ts)} : ZeroizeOnDropLaws (Tuple Ts).
Proof.
  constructor. intros [xs1 pad1] [xs2 pad2] [Hv1 _] [Hv2 _] [Hs Hp] Hr. simpl in *. subst pad2.
  by rewrite (drop_erases xs1 xs2).
Qed.

#[export] Instance zeroizing_on_drop_laws {T} `{RustType T, Zeroize T} `{!ZeroizeLaws T} :
  ZeroizeOnDropLaws (Zeroizing T).
Proof.
  constructor. intros [v1] [v2] Hv1 Hv2 Hs _. simpl in *. unfold zeroizing_drop. simpl.
  by rewrite (zeroize_erases v1 v2).
Qed.

(** ** Properties *)

(** Layouts of a 64-bit target, at which the theorems are applied below. *)
#[local] Instance vec_layout_64 : VecLayout := {|
  vec_bytes p c n :=
    to_le_bytes 8 p ++ to_le_bytes 8 (Z.of_nat c) ++ to_le_bytes 8 (Z.of_nat n);
  box_bytes p n := to_le_bytes 8 p ++ to_le_bytes 8 (Z.of_nat n);
|}.

#[local] Instance vec_layout_64_laws : VecLayoutLaws.
Proof. by constructor. Qed.

(** [None] of a type whose first word is not null: a null first word. *)
#[local] Instance option_layout_niche T `{RustType T} : OptionLayout T := {|
  option_size := size_of T;
  some_bytes bs := bs;
  write_none bs := replicate (8 `min` length bs) 0%u8 ++ drop 8 bs;
|}.

#[local] Instance option_layout_niche_laws T `{RustType T} : OptionLayoutLaws T.
Proof.
  constructor; [done|]. intros bs. unfold write_none, option_layout_niche.
  rewrite length_app, length_replicate, length_drop.
  lia.
Qed.

Definition secret (c : u8) (n : nat) : Vec (Scalar U8) :=
  mkVec 4096 3 (replicate n (mkScalar [c])) (replicate (3 - n) c).

(** C9. Zeroizing a [Vec], of elements of any type that keeps the laws, never
    panics and never leaves its buffer: it leaves an empty [Vec] at the same
    address and with the same capacity, every byte of the buffer is zero, spare
    capacity included; and the value left and all the memory that the elements
    release meanwhile are the same for any other contents of the same shape. *)
Theorem vec_zeroized {T} `{VecLayoutLaws, RustTypeLaws T, Zeroize T} `{!ZeroizeLaws T}
    (v : Vec T) :
  valid v ->
  exists fr,
    let erased := mkVec (vec_ptr v) (capacity v) [] (replicate (capacity v * size_of T) 0%u8) in
    zeroize v = Ret (erased, fr)
    /\ valid erased
    /\ (forall w, valid w -> same_shape v w -> zeroize w = Ret (erased, fr)).
Proof.
  intros Hv. destruct (zeroize_vec_ok v Hv) as [fr E]. exists fr. split; [done|].
  split; [by apply valid_erased_vec|]. intros w Hw Hs. by rewrite <- (zeroize_vec_erases v w).
Qed.

Lemma vec_zeroized_witness :
  exists fr,
    zeroize (mkVec 64 2 [OSome (secret 7 2)] (replicate 24 9%u8))
      = Ret (mkVec 64 2 [] (replicate 48 0%u8), fr)
    /\ zeroize (mkVec 64 2 [OSome (secret 5 2)] (replicate 24 1%u8))
      = Ret (mkVec 64 2 [] (replicate 48 0%u8), fr).
Proof.
  destruct (vec_zeroized (mkVec 64 2 [OSome (secret 7 2)] (replicate 24 9%u8)))
    as (fr & E & _ & Hw); [by repeat constructor|].
  exists fr. split; [exact E|]. by apply Hw; repeat constructor.
Defined.

(** C32. Zeroizing an [Option] leaves [None] over zero bytes, whether it held a
    value or was a [None] whose place still had the bytes of a value moved out. A
    value is zeroized and then dropped, as the zeroized value that it is: what is
    released is what its [zeroize] releases and then what its drop does, so nothing
    that it owns is leaked; a [None] releases nothing. What is released is the same for
    any other data of the same shape. *)
Theorem option_zeroized {T} `{OptionLayoutLaws T, Zeroize T}
    `{!RustTypeLaws T, !ZeroizeLaws T} (o : Opt T) :
  valid o ->
  exists fr,
    let erased := ONone (write_none T (replicate (option_size T) 0%u8)) in
    zeroize o = Ret (erased, fr)
    /\ valid erased
    /\ match o with
       | OSome v => exists v' fr1 raw fr2,
           zeroize v = Ret (v', fr1) /\ drop_in_place v' = Ret (raw, fr2) /\ fr = fr1 ++ fr2
       | ONone _ => fr = []
       end
    /\ forall o', valid o' -> same_shape o o' -> zeroize o' = Ret (erased, fr).
Proof.
  intros Hv. destruct (zeroize_option_ok o Hv) as (fr & E & Hfr). exists fr.
  split_and!; [done|apply valid_erased_option|done|].
  intros o' Hv' Hs. by rewrite <- (zeroize_option_erases o o').
Qed.

(** The buffer of a [Vec] is released, with zeros in it. *)
Lemma option_zeroized_witness :
  zeroize (OSome (secret 7 2)) = Ret (ONone (replicate 24 0%u8), [[0; 0; 0]%u8])
  /\ zeroize (T := Opt (Vec (Scalar U8))) (ONone (bytes_of (secret 7 2)))
     = Ret (ONone (replicate 24 0%u8), []).
Proof.
  split.
  - destruct (option_zeroized (OSome (secret 7 2))) as (fr & E & _ & (v & fr1 & raw & fr2 & Ez & Ed & ->) & _).
    + by repeat constructor.
    + vm_compute in Ez. injection Ez as <- <-. vm_compute in Ed. injection Ed as <- <-. exact E.
  - destruct (option_zeroized (T := Vec (Scalar U8)) (ONone (bytes_of (secret 7 2)))) as (fr & E & _ & -> & _).
    + reflexivity.
    + exact E.
Defined.

(** C33. A [Zeroizing] wrapper gives nothing away when its value dies: dropping
    it succeeds, and the bytes that it leaves in its place and all the memory it
    releases do not depend on the data; neither does anything that overwriting it
    by [clone_from] leaves or releases. *)
Theorem zeroizing_erases_on_drop {T} `{RustTypeLaws T, Zeroize T} `{!ZeroizeLaws T, Clone T}
    (z1 z2 source : Zeroizing T) :
  valid z1 -> valid z2 -> same_shape z1 z2 ->
  (exists raw fr, drop_in_place z1 = Ret (raw, fr) /\ length raw = size_of T
     /\ drop_in_place z2 = Ret (raw, fr))
  /\ clone_from z1 source = clone_from z2 source.
Proof.
  destruct z1 as [v1], z2 as [v2]. intros Hv1 Hv2 Hs. simpl in *.
  unfold zeroizing_drop. simpl. rewrite (zeroize_erases v1 v2) by done.
  split; [|done]. repeat zstep. eauto 10.
Qed.

#[local] Instance vec_clone : Clone (Vec (Scalar U8)) := {|
  clone v := Ret v;
  clone_from v source := Ret (source, dealloc (spare v));
|}.

Lemma zeroizing_erases_on_drop_witness :
  exists raw, drop_in_place (zeroizing_new (secret 7 2)) = Ret (raw, [[0; 0; 0]%u8]).
Proof.
  destruct (zeroizing_erases_on_drop (zeroizing_new (secret 7 2)) (zeroizing_new (secret 5 2))
              (zeroizing_new (secret 1 1))) as [(raw & fr & E & _) _];
    [by repeat constructor..|].
  exists raw. rewrite E. do 2 f_equal. vm_compute in E. by simplify_eq.
Defined.
