(* ===== verification/ZeroizeTests.v ===== *)
(** * The tests of [zeroize]

    The tests of [zeroize/tests/zeroize.rs], run on the model of [Zeroize.v], for any
    layout of a [Vec] and any allocator. What a test reads from memory after a call is
    read from the bytes that the model leaves there; [set_len] reinterprets the bytes
    after the elements. *)
From Stdlib Require Import Strings.String.
From stdpp Require Import base numbers list hlist.
From S2P Require Import Prelude Zeroize.
Local Open Scope nat_scope.
Local Open Scope list_scope.

(** The integer [n] of type [p]. *)
Definition int (p : Prim) (n : Z) : Scalar p := mkScalar (to_le_bytes (prim_size p) n).

Definition zeroed {T} `{Zeroize T} (v : T) : run T := let! (v, _) := zeroize v in Ret v.

(** [struct ZeroizedOnDrop(u64)], whose [drop] zeroizes the field. *)
Record ZeroizedOnDrop := mkZeroizedOnDrop { on_drop_0 : Scalar U64 }.

#[local] Instance zeroized_on_drop_type : RustType ZeroizedOnDrop := {|
  size_of := size_of (Scalar U64);
  bytes_of v := bytes_of (on_drop_0 v);
  drop_in_place v := let! (x, fr) := zeroize (on_drop_0 v) in Ret (bytes_of x, fr);
  valid v := valid (on_drop_0 v);
  same_shape _ _ := True;
|}.

(** ** Scalars, arrays and tuples *)

(** [non_zero_test!] for one type: the bytes that [value.get()] reads. *)
Definition non_zero_test (p : Prim) : run unit :=
  let! value := new_unchecked p 42 in
  let! value := zeroed value in
  assert_eq (nonzero_bytes value) (to_le_bytes (prim_size p) 1).

Definition non_zero : run unit :=
  for_in [I8; I16; I32; I64; I128; Isize; U8; U16; U32; U64; U128; Usize] tt
    (fun p _ => non_zero_test p).

Definition zeroize_byte_arrays : run unit :=
  let arr : Array (Scalar U8) 137 := mkArray (replicate 137 (int U8 42)) in
  let! arr := zeroed arr in
  assert_eq (bytes_of arr) (replicate 137 0%u8).

Definition zeroize_on_drop_byte_arrays : run unit :=
  let arr : Array ZeroizedOnDrop 1 := mkArray [mkZeroizedOnDrop (int U64 42)] in
  let! (raw, _) := drop_in_place arr in
  assert_eq raw (replicate 8 0%u8).

(** The slice of an array of 64 elements of type [MaybeUninit<u64>]. *)
Definition zeroize_maybeuninit_byte_arrays : run unit :=
  let arr := concat (replicate 64 (to_le_bytes 8 42)) in
  let! arr_init := zeroize_uninit_slice 8 64 arr in
  assert_eq arr_init (concat (replicate 64 (to_le_bytes 8 0))).

Definition zeroize_check_zerosize_types : run unit :=
  for_in [Unit; PhantomPinned; PhantomData] tt (fun k _ => assert_eq (size_of (Phantom k)) 0).

Section tuples.
Context `{TupleLayout (tcons (Scalar U8) tnil), TupleLayout (tcons (Scalar U8) (tcons (Scalar U8) tnil)),
  TupleLayout (tcons ZeroizedOnDrop tnil), TupleLayout (tcons ZeroizedOnDrop (tcons ZeroizedOnDrop tnil))}.

(** The comparison of tuples is that of their fields. *)
Definition zeroize_check_tuple (pad1 pad2 : list u8) : run unit :=
  let tup1 : Tuple (tcons (Scalar U8) tnil) := mkTuple (hcons (int U8 42) hnil) pad1 in
  let! tup1 := zeroed tup1 in
  let! _ := assert_eq (bytes_of (fields tup1)) [0%u8] in
  let tup2 : Tuple (tcons (Scalar U8) (tcons (Scalar U8) tnil)) :=
    mkTuple (hcons (int U8 42) (hcons (int U8 42) hnil)) pad2 in
  let! tup2 := zeroed tup2 in
  assert_eq (bytes_of (fields tup2)) [0%u8; 0%u8].

Definition zeroize_on_drop_check_tuple (pad1 pad2 : list u8) : run unit :=
  let d := mkZeroizedOnDrop (int U64 42) in
  let tup1 : Tuple (tcons ZeroizedOnDrop tnil) := mkTuple (hcons d hnil) pad1 in
  let! (raw, _) := drop_in_place tup1 in
  let! _ := assert_eq (take 8 raw) (replicate 8 0%u8) in
  let tup2 : Tuple (tcons ZeroizedOnDrop (tcons ZeroizedOnDrop tnil)) :=
    mkTuple (hcons d (hcons d hnil)) pad2 in
  let! (raw, _) := drop_in_place tup2 in
  assert_eq (take 16 raw) (replicate 16 0%u8).

Lemma tuple_tests_pass pad1 pad2 :
  zeroize_check_tuple pad1 pad2 = Ret tt /\ zeroize_on_drop_check_tuple pad1 pad2 = Ret tt.
Proof. split; reflexivity. Qed.
End tuples.

(** ** Buffers *)

Section buffers.
Context `{VecLayout, Allocator}.

(** [vec.set_len(n)], where [decode] makes an element of its bytes. *)
Definition set_len {T} `{RustType T} (decode : list u8 -> T) (n : nat) (v : Vec T) : Vec T :=
  let mem := concat (bytes_of <$> elems v) ++ spare v in
  mkVec (vec_ptr v) (capacity v) (decode <$> chunks (size_of T) n mem) (drop (n * size_of T) mem).

(** [vec![elem; n]] at the address [p] *)
Definition vec_of {T} (p : Z) (elem : T) (n : nat) : Vec T := mkVec p n (replicate n elem) [].

Definition zeroize_vec_test (p : Z) : run unit :=
  let! vec := zeroed (vec_of p (int I32 42) 3) in
  assert_ (List.length (elems vec) =? 0).

(** [struct PanicOnNonZeroDrop(u64)] of the test of the entire capacity. *)
Record PanicOnNonZeroDrop := mkPanicOnNonZeroDrop { panic_0 : list u8 }.

#[local] Instance panic_type : RustType PanicOnNonZeroDrop := {|
  size_of := 8;
  bytes_of := panic_0;
  drop_in_place v :=
    let! _ := assert_eq (panic_0 v) (to_le_bytes 8 0) in Ret (panic_0 v, []);
  valid v := List.length (panic_0 v) = 8;
  same_shape _ _ := True;
|}.

#[local] Instance panic_zeroize : Zeroize PanicOnNonZeroDrop := {|
  zeroize _ := Ret (mkPanicOnNonZeroDrop (to_le_bytes 8 0), [])
|}.

Definition zeroize_vec_entire_capacity (p : Z) : run unit :=
  let vec := vec_of p (mkPanicOnNonZeroDrop (to_le_bytes 8 42)) 2 in
  let vec := set_len mkPanicOnNonZeroDrop 1 vec in
  let! vec := zeroed vec in
  let vec := set_len mkPanicOnNonZeroDrop 2 vec in
  let! _ := drop_in_place vec in
  Ret tt.

Definition hello : list (Scalar U8) := of_byte <$> list_byte_of_string "Hello, world!".

(** [String::from("Hello, world!")] *)
Definition hello_string (p : Z) : RString := mkString (mkVec p (List.length hello) hello []).

Definition zeroize_string_test (p : Z) : run unit :=
  let! string := zeroed (hello_string p) in
  assert_ (List.length (elems (as_mut_vec string)) =? 0).

(** [string.truncate(5)] shortens the [Vec] of bytes. *)
Definition zeroize_string_entire_capacity (p : Z) : run unit :=
  let string := mkString (set_len mkScalar 5 (as_mut_vec (hello_string p))) in
  let! string := zeroed string in
  let as_vec := as_mut_vec string in
  let as_vec := set_len mkScalar (capacity as_vec) as_vec in
  let! _ := assert_eq (List.length (elems as_vec)) 13 in
  assert_ (forallb (fun byte => bool_decide (byte_of byte = 0%u8)) (elems as_vec)).

(** The memory of the string is read after it was released. *)
Definition zeroize_c_string (p : Z) : run unit :=
  let! (cstring, _) := cstring_new (as_mut_vec (hello_string p)) in
  let orig_len := List.length (boxed (c_inner cstring)) - 1 in
  let! (cstring, released) := zeroize cstring in
  let! _ := assert_ (List.length (elems (into_bytes cstring)) =? 0) in
  let! _ := assert_ (forallb (forallb (fun byte => bool_decide (byte = 0%u8))) released) in
  assert_ (orig_len <=? List.length (concat released)).

Definition zeroize_box_test (p : Z) : run unit :=
  let! boxed_arr := zeroed (mkBox p (replicate 3 (int U8 42))) in
  assert_eq (concat (bytes_of <$> boxed boxed_arr)) (replicate 3 0%u8).

(** ** They pass *)

Lemma buffer_tests_pass p :
  Forall (fun t => t = Ret tt)
    [zeroize_vec_test p; zeroize_vec_entire_capacity p; zeroize_string_test p;
     zeroize_string_entire_capacity p; zeroize_box_test p].
Proof. repeat constructor. Qed.

(** Wherever the allocator puts the buffers. *)
Lemma zeroize_c_string_passes p : zeroize_c_string p = Ret tt.
Proof.
  unfold zeroize_c_string. simpl.
  unfold shrink_released. by case_bool_decide.
Qed.
End buffers.

Lemma scalar_tests_pass :
  Forall (fun t => t = Ret tt)
    [non_zero; zeroize_byte_arrays; zeroize_on_drop_byte_arrays;
     zeroize_maybeuninit_byte_arrays; zeroize_check_zerosize_types].
Proof. repeat (apply Forall_cons_2; [vm_compute; reflexivity|]). apply Forall_nil_2. Qed.
