(* ===== verification/ZeroizeDerive.v ===== *)
(** * [zeroize_derive]: the implementations that the derives write

    The macros of [zeroize/derive/src/lib.rs] read the attributes of a type and
    write implementations of [Zeroize], [Drop] and [ZeroizeOnDrop]. The first part
    is what they read, as [syn] and [synstructure] give it, and what they write:
    the [quote!] templates are the data [Call], [Body] and [Impl]. The functions
    of the two libraries are the classes [Syn] and [Synstructure], with what their
    documentation says in [SynstructureLaws]. The second part is the macros. The
    third part runs what they write on a place of the derived type, whose fields
    are of any types with the classes of [Zeroize.v]. *)
From Stdlib Require Import Strings.String.
From stdpp Require Import base numbers list strings.
From S2P Require Import Prelude Zeroize.

(** ** What the macros read and write *)

Abbreviation Ident := string.

Inductive Lit : Set :=
  | LitStr (value : string)
  | LitOther (tokens : string).

(** [syn::Meta] and [syn::NestedMeta]. *)
Inductive Meta (Path : Type) :=
  | MetaPath (path : Path)
  | MetaList (path : Path) (nested : list (NestedMeta Path))
  | MetaNameValue (path : Path) (lit : Lit)
with NestedMeta (Path : Type) :=
  | NestedMeta_Meta (meta : Meta Path)
  | NestedMeta_Lit (lit : Lit).
Arguments MetaPath {Path} path.
Arguments MetaList {Path} path nested.
Arguments MetaNameValue {Path} path lit.
Arguments NestedMeta_Meta {Path} meta.
Arguments NestedMeta_Lit {Path} lit.

(** [syn]: [Path::is_ident], [Attribute::parse_meta], and [LitStr::parse] into a
    list of where predicates. *)
Class Syn := {
  Path : Type;
  Attribute : Type;
  WherePredicate : Type;
  is_ident : Path -> string -> bool;
  attr_parse_meta : Attribute -> option (Meta Path);
  parse_bounds : string -> option (list WherePredicate);
}.

Definition meta_path {P} (meta : Meta P) : P :=
  match meta with MetaPath path | MetaList path _ | MetaNameValue path _ => path end.

Inductive AddBounds : Set := AddBounds_Both | AddBounds_None.
Inductive BindStyle : Set := BindStyle_Ref | BindStyle_RefMut.

Section syntax.
Context `{Syn}.

(** [synstructure::BindingInfo]: a field bound by the pattern of its variant. *)
Record BindingInfo := mkBinding { binding_index : nat; binding_attrs : list Attribute }.

(** [synstructure::VariantInfo]: a variant of an enum has a [prefix]; a struct is
    one variant without, whose attributes are those of the struct. *)
Record VariantInfo := mkVariant {
  variant_ident : Ident;
  prefix : option Ident;
  variant_attrs : list Attribute;
  fields : list (list Attribute);
  bindings : list BindingInfo;
}.

(** [synstructure::Structure] *)
Record Structure := mkStructure {
  ast_attrs : list Attribute;
  variants : list VariantInfo;
  omitted_variants : bool;
  bind_style : BindStyle;
  bounds : AddBounds;
  where_predicates : list WherePredicate;
}.

(** [#bi.#method();] *)
Record Call := mkCall { receiver : BindingInfo; method : string }.

(** An arm of a [match]: of a variant, or [_ => {}]. *)
Inductive Arm :=
  | ArmVariant (variant : Ident) (body : list Call)
  | ArmRest.

(** The body of the method of an implementation. *)
Inductive Body :=
  | MatchSelf (arms : list Arm)
  | SelfZeroize.

(** An implementation of a trait for the derived type. *)
Record Impl := mkImpl {
  impl_trait : string;
  impl_bounds : AddBounds;
  impl_where : list WherePredicate;
  impl_body : option Body;
}.

(** [synstructure::Structure]: its methods. *)
Class Synstructure := {
  add_bounds : AddBounds -> Structure -> Structure;
  add_where_predicate : WherePredicate -> Structure -> Structure;
  bind_with : BindStyle -> Structure -> Structure;
  filter_variants : (VariantInfo -> run bool) -> Structure -> run Structure;
  filter : (BindingInfo -> run bool) -> Structure -> run Structure;
  each : (BindingInfo -> Call) -> Structure -> list Arm;
  bound_impl : string -> option Body -> Structure -> Impl;
  gen_impl : string -> Body -> Structure -> Impl;
}.

Definition set_variants (vs : list VariantInfo) (omitted : bool) (s : Structure) : Structure :=
  mkStructure (ast_attrs s) vs omitted (bind_style s) (bounds s) (where_predicates s).

Definition set_bindings (bs : list BindingInfo) (v : VariantInfo) : VariantInfo :=
  mkVariant (variant_ident v) (prefix v) (variant_attrs v) (fields v) bs.

(** The bindings of a list of variants that a predicate keeps. *)
Fixpoint retain_bindings (f : BindingInfo -> run bool) (vs : list VariantInfo) :
    run (list VariantInfo) :=
  match vs with
  | [] => Ret []
  | v :: vs =>
      let! bs := retain f (bindings v) in
      let! vs := retain_bindings f vs in
      Ret (set_bindings bs v :: vs)
  end.

(** Filters remove the variants and bindings on which the predicate, called on each
    in order, is false; [each] writes an arm per variant that is left with the
    calls of its bindings, and a last arm for the variants removed; an
    implementation gets the bounds that were set. *)
Class SynstructureLaws `{Synstructure} := {
  add_bounds_eq b s : add_bounds b s
    = mkStructure (ast_attrs s) (variants s) (omitted_variants s) (bind_style s) b
        (where_predicates s);
  add_where_predicate_eq w s : add_where_predicate w s
    = mkStructure (ast_attrs s) (variants s) (omitted_variants s) (bind_style s) (bounds s)
        (where_predicates s ++ [w]);
  bind_with_eq b s : bind_with b s
    = mkStructure (ast_attrs s) (variants s) (omitted_variants s) b (bounds s)
        (where_predicates s);
  filter_variants_eq f s : filter_variants f s
    = let! vs := retain f (variants s) in
      Ret (set_variants vs (omitted_variants s || (length vs <? length (variants s))) s);
  filter_eq f s : filter f s
    = let! vs := retain_bindings f (variants s) in
      Ret (set_variants vs (omitted_variants s) s);
  each_eq f s : each f s
    = List.map (fun v => ArmVariant (variant_ident v) (List.map f (bindings v))) (variants s)
      ++ (if omitted_variants s then [ArmRest] else []);
  bound_impl_eq t b s : bound_impl t b s = mkImpl t (bounds s) (where_predicates s) b;
  gen_impl_eq t b s : gen_impl t b s = mkImpl t (bounds s) (where_predicates s) (Some b);
}.

(** ** The macros *)

(** Name of zeroize-related attributes *)
Definition ZEROIZE_ATTR : string := "zeroize".

(** Custom derive attributes for [Zeroize] *)
Record ZeroizeAttrs := mkAttrs { drop_ : bool; bound : option (list WherePredicate) }.

Definition attrs_default : ZeroizeAttrs := mkAttrs false None.

(** Parse [#[zeroize(...)]] attribute metadata (e.g. [drop]) *)
Definition parse_meta (self : ZeroizeAttrs) (meta : Meta Path) (variant : option VariantInfo)
    (binding : option BindingInfo) : run ZeroizeAttrs :=
  if is_ident (meta_path meta) "drop" then
    let! _ := assert_ (negb (drop_ self)) in
    match variant, binding with
    | _, Some _ => Panic
    | Some _, None => Panic
    | None, None => Ret (mkAttrs true (bound self))
    end
  else if is_ident (meta_path meta) "bound" then
    let! _ := assert_ (match bound self with None => true | Some _ => false end) in
    match variant, binding with
    | _, Some _ => Panic
    | Some _, None => Panic
    | None, None =>
        match meta with
        | MetaNameValue _ (LitStr value) =>
            if bool_decide (value = EmptyString) then Ret (mkAttrs (drop_ self) (Some []))
            else let! predicates := unwrap_option (parse_bounds value) in
                 Ret (mkAttrs (drop_ self) (Some predicates))
        | _ => Panic
        end
    end
  else if is_ident (meta_path meta) "skip" then
    match variant, binding with
    | None, None => Panic
    | _, _ => Ret self
    end
  else Panic.

(** Parse attribute and handle [#[zeroize(...)]] attributes *)
Definition parse_attr (self : ZeroizeAttrs) (attr : Attribute) (variant : option VariantInfo)
    (binding : option BindingInfo) : run ZeroizeAttrs :=
  let! meta := unwrap_option (attr_parse_meta attr) in
  match meta with
  | MetaList path nested =>
      if is_ident path ZEROIZE_ATTR then
        for_in nested self (fun nested_meta self =>
          match nested_meta with
          | NestedMeta_Meta meta => parse_meta self meta variant binding
          | NestedMeta_Lit _ => Panic
          end)
      else Ret self
  | _ => Ret self
  end.

(** Parse attributes from the incoming AST *)
Definition parse (s : Structure) : run ZeroizeAttrs :=
  let! result := for_in (ast_attrs s) attrs_default (fun attr result =>
    parse_attr result attr None None) in
  for_in (variants s) result (fun v result =>
    let! result :=
      match prefix v with
      | Some _ => for_in (variant_attrs v) result (fun attr result =>
          parse_attr result attr (Some v) None)
      | None => Ret result
      end in
    for_in (bindings v) result (fun binding result =>
      for_in (binding_attrs binding) result (fun attr result =>
        parse_attr result attr (Some v) (Some binding)))).

Definition filter_skip (attrs : list Attribute) (start : bool) : run bool :=
  for_in (omap attr_parse_meta attrs) start (fun attr result =>
    match attr with
    | MetaList path nested =>
        if is_ident path ZEROIZE_ATTR then
          for_in nested result (fun nested result =>
            match nested with
            | NestedMeta_Meta (MetaPath path) =>
                if is_ident path "skip"
                then let! _ := assert_ result in Ret false
                else Ret result
            | _ => Ret result
            end)
        else Ret result
    | _ => Ret result
    end).

Context `{Synstructure}.

(** The structure with what is skipped filtered out, and the arms. *)
Definition generate_fields (s : Structure) (method : string) : run (Structure * list Arm) :=
  let s := bind_with BindStyle_RefMut s in
  let! s := filter_variants (fun vi =>
    let! result := filter_skip (variant_attrs vi) true in
    let! _ := for_in (fields vi) tt (fun field _ =>
      let! _ := filter_skip field result in Ret tt) in
    Ret result) s in
  let! s := filter (fun bi => filter_skip (binding_attrs bi) true) s in
  Ret (s, each (fun bi => mkCall bi method) s).

(** Custom derive for [Zeroize] (without [Drop]) *)
Definition derive_zeroize_without_drop (s : Structure) : run (list Impl) :=
  let! (s, zeroizers) := generate_fields s "zeroize" in
  Ret [bound_impl "zeroize::Zeroize" (Some (MatchSelf zeroizers)) s].

(** Custom derive for [Zeroize] and [Drop] *)
Definition derive_zeroize_with_drop (s : Structure) : run (list Impl) :=
  let drop_impl := gen_impl "Drop" SelfZeroize s in
  let! zeroize_impl := derive_zeroize_without_drop s in
  Ret (zeroize_impl ++ [drop_impl]).

Definition impl_zeroize_on_drop (s : Structure) : Impl :=
  bound_impl "zeroize::ZeroizeOnDrop" None s.

(** Custom derive for [Zeroize] *)
Definition derive_zeroize (s : Structure) : run (list Impl) :=
  let! attributes := parse s in
  let s :=
    match bound attributes with
    | Some bounds =>
        foldl (fun s bound => add_where_predicate bound s) (add_bounds AddBounds_None s) bounds
    | None => s
    end in
  if drop_ attributes then derive_zeroize_with_drop s else derive_zeroize_without_drop s.

(** Custom derive for [ZeroizeOnDrop] *)
Definition derive_zeroize_on_drop (s : Structure) : run (list Impl) :=
  let! (s, zeroizers) := generate_fields s "zeroize_or_on_drop" in
  let s := add_bounds AddBounds_None s in
  let drop_impl := gen_impl "Drop" (MatchSelf zeroizers) s in
  let zeroize_on_drop_impl := impl_zeroize_on_drop s in
  Ret [drop_impl; zeroize_on_drop_impl].

End syntax.

(** ** Which attributes are accepted *)

Section accepted.
Context `{Syn}.

Inductive Location := OnItem | OnVariant | OnField.

Definition location (variant : option VariantInfo) (binding : option BindingInfo) : Location :=
  match variant, binding with
  | _, Some _ => OnField
  | Some _, None => OnVariant
  | None, None => OnItem
  end.

(** What an attribute has in its parentheses, when it is one of ours; [None] for
    one that does not parse. *)
Definition elements (attr : Attribute) : list (option (NestedMeta Path)) :=
  match attr_parse_meta attr with
  | None => [None]
  | Some (MetaList path nested) => if is_ident path ZEROIZE_ATTR then Some <$> nested else []
  | Some _ => []
  end.

(** The elements of a derived type, with their places. *)
Definition placed (l : Location) (attrs : list Attribute) :
    list (Location * option (NestedMeta Path)) :=
  attrs ≫= (fun attr => pair l <$> elements attr).

Definition variant_elements (v : VariantInfo) : list (Location * option (NestedMeta Path)) :=
  match prefix v with Some _ => placed OnVariant (variant_attrs v) | None => [] end
  ++ (bindings v ≫= (fun b => placed OnField (binding_attrs b))).

Definition structure_elements (s : Structure) : list (Location * option (NestedMeta Path)) :=
  placed OnItem (ast_attrs s) ++ (variants s ≫= variant_elements).

Definition is_drop (meta : Meta Path) : bool := is_ident (meta_path meta) "drop".
Definition is_bound (meta : Meta Path) : bool := negb (is_drop meta) && is_ident (meta_path meta) "bound".

(** The predicates of [bound = "..."]. *)
Definition bound_value (meta : Meta Path) : option (list WherePredicate) :=
  match meta with
  | MetaNameValue _ (LitStr EmptyString) => Some []
  | MetaNameValue _ (LitStr value) => parse_bounds value
  | _ => None
  end.

(** An element in a place where it is allowed: [drop] and [bound = "..."] on the
    type, [skip] on a variant or a field. *)
Definition allowed (e : Location * option (NestedMeta Path)) : bool :=
  match e with
  | (l, Some (NestedMeta_Meta meta)) =>
      let on_item := match l with OnItem => true | _ => false end in
      if is_drop meta then on_item
      else if is_bound meta
      then on_item && match bound_value meta with Some _ => true | None => false end
      else is_ident (meta_path meta) "skip" && negb on_item
  | _ => false
  end.

Definition has (p : Meta Path -> bool) (e : Location * option (NestedMeta Path)) : bool :=
  match e with (_, Some (NestedMeta_Meta meta)) => p meta | _ => false end.

Definition count {A} (p : A -> bool) (l : list A) : nat := length (List.filter p l).

(** The flags [skip] of some attributes. *)
Definition is_skip (nested : NestedMeta Path) : bool :=
  match nested with NestedMeta_Meta (MetaPath path) => is_ident path "skip" | _ => false end.

Definition skips (attrs : list Attribute) : nat :=
  count is_skip (omap attr_parse_meta attrs ≫= (fun meta =>
    match meta with
    | MetaList path nested => if is_ident path ZEROIZE_ATTR then nested else []
    | _ => []
    end)).

(** A variant and each of its fields are skipped once at most, in all. *)
Definition skips_once (v : VariantInfo) : bool :=
  (skips (variant_attrs v) <=? 1)
  && forallb (fun field => skips (variant_attrs v) + skips field <=? 1) (fields v).

(** The attributes that are accepted: every element in its place, [drop] and
    [bound] once at most. *)
Definition attributes_ok (s : Structure) : bool :=
  forallb allowed (structure_elements s)
  && (count (has is_drop) (structure_elements s) <=? 1)
  && (count (has is_bound) (structure_elements s) <=? 1).

(** What [Structure::new] makes of a type: the bindings of a variant are its
    fields. *)
Definition fresh_variant (v : VariantInfo) : Prop :=
  binding_attrs <$> bindings v = fields v
  /\ binding_index <$> bindings v = seq 0 (length (fields v)).

Definition fresh (s : Structure) : Prop :=
  omitted_variants s = false
  /\ NoDup (variant_ident <$> variants s)
  /\ Forall fresh_variant (variants s).

(** *** [skip] *)

Lemma filter_skip_loop (l : list (NestedMeta Path)) (start : bool) :
  for_in l start (fun nested result =>
    match nested with
    | NestedMeta_Meta (MetaPath path) =>
        if is_ident path "skip" then let! _ := assert_ result in Ret false else Ret result
    | _ => Ret result
    end)
  = if count is_skip l + (if start then 0 else 1) <=? 1
    then Ret (start && (count is_skip l =? 0)) else Panic.
Proof.
  revert start. induction l as [|n l IH]; intros start; [by destruct start|].
  unfold count in *. simpl. destruct n as [[path| |]|]; simpl; try apply IH.
  destruct (is_ident path "skip"); simpl; [|apply IH].
  destruct start; simpl; [|by destruct (length _)]. rewrite IH, Nat.add_0_r, Nat.add_1_r. done.
Qed.

Lemma filter_skip_eq attrs start :
  filter_skip attrs start
  = if skips attrs + (if start then 0 else 1) <=? 1
    then Ret (start && (skips attrs =? 0)) else Panic.
Proof.
  unfold filter_skip, skips. rewrite <- filter_skip_loop, for_in_bind.
  apply for_in_ext. intros [path|path nested|path lit] result _; simpl; try done.
  by destruct (is_ident path ZEROIZE_ATTR).
Qed.

(** *** The item *)

(** One element of the loops of [parse]. *)
Definition parse_element (e : Location * option (NestedMeta Path)) (self : ZeroizeAttrs) :
    run ZeroizeAttrs :=
  match e with
  | (OnItem, Some (NestedMeta_Meta meta)) => parse_meta self meta None None
  | (_, Some (NestedMeta_Meta meta)) =>
      if is_ident (meta_path meta) "drop" then Panic
      else if is_ident (meta_path meta) "bound" then Panic
      else if is_ident (meta_path meta) "skip" then Ret self else Panic
  | (_, _) => Panic
  end.

Lemma parse_meta_element self meta variant binding :
  parse_meta self meta variant binding
  = parse_element (location variant binding, Some (NestedMeta_Meta meta)) self.
Proof.
  destruct variant, binding; [..|done]; unfold parse_meta, assert_; simpl;
    by repeat case_match.
Qed.

Lemma parse_attr_element self attr variant binding :
  parse_attr self attr variant binding
  = for_in (pair (location variant binding) <$> elements attr) self parse_element.
Proof.
  unfold parse_attr, elements. destruct (attr_parse_meta attr) as [[path|path nested|path lit]|];
    simpl; try done.
  - destruct (is_ident path ZEROIZE_ATTR); [|done]. rewrite !for_in_fmap. apply for_in_ext.
    intros [meta|lit] s _; [apply parse_meta_element|]. by destruct (location _ _).
  - by destruct (location _ _).
Qed.

(** The loops of [parse] are one loop over the elements. *)
Lemma parse_elements s :
  parse s = for_in (structure_elements s) attrs_default parse_element.
Proof.
  assert (forall attrs variant binding self,
    for_in attrs self (fun attr self => parse_attr self attr variant binding)
    = for_in (placed (location variant binding) attrs) self parse_element) as Hp.
  { intros attrs variant binding self. unfold placed. rewrite for_in_bind.
    apply for_in_ext. intros. apply parse_attr_element. }
  unfold parse, structure_elements. rewrite for_in_app_list, Hp. simpl.
  destruct (for_in (placed OnItem _) _ _) as [self| |]; simpl; [|done..].
  rewrite for_in_bind. apply for_in_ext. intros v self' _. unfold variant_elements.
  rewrite for_in_app_list. destruct (prefix v); simpl.
  - rewrite Hp. simpl. destruct (for_in _ _ parse_element); simpl; [|done..].
    rewrite for_in_bind. apply for_in_ext. intros b ? _. apply Hp.
  - rewrite for_in_bind. apply for_in_ext. intros b ? _. apply Hp.
Qed.

(** The predicates of an element [bound = "..."]. *)
Definition bound_at (e : Location * option (NestedMeta Path)) : option (list WherePredicate) :=
  match e with
  | (_, Some (NestedMeta_Meta meta)) => if is_bound meta then bound_value meta else None
  | _ => None
  end.

Lemma parse_element_eq e self :
  parse_element e self
  = if allowed e && negb (has is_drop e && drop_ self)
       && negb (has is_bound e && match bound self with Some _ => true | None => false end)
    then Ret (mkAttrs (drop_ self || has is_drop e)
                (if has is_bound e then bound_at e else bound self))
    else Panic.
Proof.
  destruct e as [l [[meta|lit]|]]; simpl; [|by destruct l..].
  unfold is_bound, is_drop. destruct self as [d b].
  destruct (is_ident (meta_path meta) "drop") eqn:Ed; simpl.
  { destruct l; [|done..]. unfold parse_meta. rewrite Ed. by destruct d. }
  destruct (is_ident (meta_path meta) "bound") eqn:Eb; simpl.
  - destruct l; [|done..]. unfold parse_meta. rewrite Ed, Eb. unfold bound_value.
    destruct b, meta as [| |path [[|c value]|]]; simpl; rewrite ?andb_false_r, ?orb_false_r; try done.
    by destruct (parse_bounds (String c value)).
  - rewrite orb_false_r. destruct l; simpl; unfold parse_meta; rewrite ?Ed, ?Eb;
      by destruct (is_ident (meta_path meta) "skip").
Qed.

Lemma count_cons {A} (p : A -> bool) x l : count p (x :: l) = (if p x then 1 else 0) + count p l.
Proof. unfold count. simpl. by destruct (p x). Qed.

Lemma count_existsb {A} (p : A -> bool) l : existsb p l = (0 <? count p l).
Proof. induction l as [|x l IH]; simpl; [done|]. rewrite count_cons, IH. by destruct (p x). Qed.

(** What the attributes say when they are accepted. *)
Lemma parse_loop_eq l self :
  for_in l self parse_element
  = if forallb allowed l && ((if drop_ self then 1 else 0) + count (has is_drop) l <=? 1)
       && ((match bound self with Some _ => 1 | None => 0 end) + count (has is_bound) l <=? 1)
    then Ret (mkAttrs (drop_ self || existsb (has is_drop) l)
                (match bound self with Some b => Some b | None => head (omap bound_at l) end))
    else Panic.
Proof.
  revert self. induction l as [|e l IH]; intros [d b]; simpl.
  { rewrite orb_false_r. by destruct d, b. }
  rewrite parse_element_eq, !count_cons. simpl.
  destruct (allowed e) eqn:Ea; simpl; [|done].
  assert (has is_bound e = true -> is_Some (bound_at e)) as Hb.
  { destruct e as [k [[meta|]|]]; simpl in *; try done. unfold is_bound in *.
    destruct (is_drop meta); [done|]. simpl in *. intros Hi. rewrite Hi in *.
    destruct k, (bound_value meta); done. }
  assert (has is_bound e = false -> bound_at e = None) as Hb'.
  { destruct e as [k [[meta|]|]]; simpl in *; try done. by intros ->. }
  destruct (has is_bound e); [destruct (Hb eq_refl) as [w ->]|rewrite (Hb' eq_refl)];
    destruct (has is_drop e), d, b; simpl; rewrite ?IH; simpl; by rewrite ?andb_false_r.
Qed.

End accepted.

(** ** What is written *)

Section written.
Context `{SynstructureLaws}.

Definition is_kept (attrs : list Attribute) : bool := skips attrs =? 0.

(** What is left of the variants: those that are not skipped, with the bindings
    of the fields that are not. *)
Definition kept_variants (s : Structure) : list VariantInfo :=
  List.map (fun v =>
      set_bindings (List.filter (fun bi => is_kept (binding_attrs bi)) (bindings v)) v)
    (List.filter (fun v => is_kept (variant_attrs v)) (variants s)).

Definition any_skipped (s : Structure) : bool :=
  negb (forallb (fun v => is_kept (variant_attrs v)) (variants s)).

(** The arms: a call for each field that is left. *)
Definition arms (s : Structure) (method : string) : list Arm :=
  List.map (fun v =>
      ArmVariant (variant_ident v) (List.map (fun bi => mkCall bi method) (bindings v)))
    (kept_variants s)
  ++ (if any_skipped s then [ArmRest] else []).

Lemma variant_filter_eq v :
  (let! result := filter_skip (variant_attrs v) true in
   let! _ := for_in (fields v) tt (fun field _ =>
     let! _ := filter_skip field result in Ret tt) in
   Ret result)
  = if skips_once v then Ret (is_kept (variant_attrs v)) else Panic.
Proof.
  unfold skips_once, is_kept. rewrite filter_skip_eq, Nat.add_0_r.
  destruct (Nat.leb_spec (skips (variant_attrs v)) 1) as [Hs|]; simpl; [|done].
  assert (for_in (fields v) tt (fun field _ =>
      let! _ := filter_skip field (skips (variant_attrs v) =? 0) in Ret tt)
    = if forallb (fun field => skips (variant_attrs v) + skips field <=? 1) (fields v)
      then Ret tt else Panic) as ->; [|by destruct (forallb _ _)].
  induction (fields v) as [|field fs IH]; simpl; [done|].
  rewrite filter_skip_eq, Nat.add_comm.
  replace (if skips (variant_attrs v) =? 0 then 0 else 1) with (skips (variant_attrs v))
    by (bcase; lia).
  by destruct (_ <=? 1).
Qed.

Lemma length_filter_lt {A} (p : A -> bool) l :
  (length (List.filter p l) <? length l) = negb (forallb p l).
Proof.
  pose proof (List.filter_length_le p l). induction l as [|x l IH]; simpl in *; [done|].
  pose proof (List.filter_length_le p l). destruct (p x); simpl in *; [by apply IH; lia|].
  apply Nat.ltb_lt. lia.
Qed.

Lemma retain_bindings_eq vs :
  Forall fresh_variant vs -> Forall (fun v => skips_once v = true) vs ->
  retain_bindings (fun bi => filter_skip (binding_attrs bi) true) vs
  = Ret (List.map (fun v => set_bindings
      (List.filter (fun bi => is_kept (binding_attrs bi)) (bindings v)) v) vs).
Proof.
  intros Hf Ho. induction Hf as [|v vs [Hv _] Hf IH]; simpl; [done|].
  apply Forall_cons in Ho as [[_ Hb]%andb_prop Ho]. rewrite IH by done.
  rewrite (retain_eq _ (fun bi => skips (binding_attrs bi) <=? 1)
    (fun bi => is_kept (binding_attrs bi))).
  - rewrite <- Hv in Hb. rewrite forallb_forall in Hb.
    rewrite (proj2 (forallb_forall _ _)); [done|]. intros bi Hbi. apply Nat.leb_le.
    assert (binding_attrs bi ∈ binding_attrs <$> bindings v) as Hin.
    { by apply list_elem_of_fmap_2, list_elem_of_In. }
    apply list_elem_of_In, Hb, Nat.leb_le in Hin. lia.
  - apply Forall_true. intros bi. by rewrite filter_skip_eq, Nat.add_0_r.
Qed.

Lemma generate_fields_eq s m :
  fresh s ->
  generate_fields s m
  = if forallb skips_once (variants s)
    then Ret (mkStructure (ast_attrs s) (kept_variants s) (any_skipped s) BindStyle_RefMut
                (bounds s) (where_predicates s), arms s m)
    else Panic.
Proof.
  intros (Ho & _ & Hf). unfold generate_fields. rewrite bind_with_eq, filter_variants_eq. simpl.
  rewrite (retain_eq _ skips_once (fun v => is_kept (variant_attrs v)))
    by (apply Forall_true, variant_filter_eq).
  destruct (forallb skips_once _) eqn:E; simpl; [|done].
  rewrite filter_eq. simpl. rewrite retain_bindings_eq.
  - simpl. rewrite each_eq. simpl. by rewrite Ho, length_filter_lt.
  - apply Forall_forall. intros v [Hv _]%list_elem_of_In%List.filter_In.
    rewrite Forall_forall in Hf. by apply Hf, list_elem_of_In.
  - apply Forall_forall. intros v [Hv _]%list_elem_of_In%List.filter_In.
    rewrite forallb_forall in E. by apply E.
Qed.

(** What the attributes of a type ask for. *)
Definition drops (s : Structure) : bool := existsb (has is_drop) (structure_elements s).
Definition bound_of (s : Structure) : option (list WherePredicate) :=
  head (omap bound_at (structure_elements s)).

(** An implementation with the bounds that they ask for. *)
Definition impl_of (s : Structure) (trait : string) (body : option Body) : Impl :=
  match bound_of s with
  | Some predicates => mkImpl trait AddBounds_None (where_predicates s ++ predicates) body
  | None => mkImpl trait (bounds s) (where_predicates s) body
  end.

Lemma add_where_predicates_eq ws s :
  foldl (fun s w => add_where_predicate w s) s ws
  = mkStructure (ast_attrs s) (variants s) (omitted_variants s) (bind_style s) (bounds s)
      (where_predicates s ++ ws).
Proof.
  revert s. induction ws as [|w ws IH]; intros s; simpl; [rewrite app_nil_r; by destruct s|].
  rewrite IH, add_where_predicate_eq. simpl. by rewrite <- app_assoc.
Qed.

Lemma derive_zeroize_eq s :
  fresh s ->
  derive_zeroize s
  = if attributes_ok s && forallb skips_once (variants s)
    then Ret (impl_of s "zeroize::Zeroize" (Some (MatchSelf (arms s "zeroize")))
              :: if drops s then [impl_of s "Drop" (Some SelfZeroize)] else [])
    else Panic.
Proof.
  intros Hf. unfold derive_zeroize. rewrite parse_elements, parse_loop_eq. simpl.
  unfold attributes_ok. destruct (forallb allowed _ && _ && _); simpl; [|done].
  fold (bound_of s) (drops s). unfold impl_of, derive_zeroize_with_drop, derive_zeroize_without_drop.
  destruct (bound_of s) as [ws|].
  - rewrite add_where_predicates_eq, add_bounds_eq. simpl. set (s' := mkStructure _ _ _ _ _ _).
    assert (fresh s') as Hf' by done. rewrite gen_impl_eq, (generate_fields_eq s') by done. simpl.
    destruct (forallb skips_once _); simpl; [|by destruct (drops s)].
    rewrite bound_impl_eq. by destruct (drops s).
  - rewrite gen_impl_eq, generate_fields_eq by done.
    destruct (forallb skips_once _); simpl; [|by destruct (drops s)].
    rewrite bound_impl_eq. by destruct (drops s).
Qed.

Lemma derive_zeroize_on_drop_eq s :
  fresh s ->
  derive_zeroize_on_drop s
  = if forallb skips_once (variants s)
    then Ret [mkImpl "Drop" AddBounds_None (where_predicates s)
                (Some (MatchSelf (arms s "zeroize_or_on_drop")));
              mkImpl "zeroize::ZeroizeOnDrop" AddBounds_None (where_predicates s) None]
    else Panic.
Proof.
  intros Hf. unfold derive_zeroize_on_drop, impl_zeroize_on_drop. rewrite generate_fields_eq by done.
  destruct (forallb skips_once _); simpl; [|done].
  by rewrite gen_impl_eq, bound_impl_eq, add_bounds_eq.
Qed.

End written.

(** ** Running what is written *)

(** A field: its type, the method that [zeroize_or_on_drop] is for it, if any, and
    its value. *)
Record Field := mkField {
  field_type : Type;
  field_rust : RustType field_type;
  field_assert : option (Assert field_type);
  field_value : field_type;
}.

(** A place of the derived type: the variant it holds, and the fields of this. *)
Record Place := mkPlace { active : Ident; place_fields : list Field }.

Definition set_value (f : Field) (v : field_type f) : Field :=
  mkField (field_type f) (field_rust f) (field_assert f) v.

Definition field_zeroize (f : Field) : option (field_type f -> run (field_type f * Released)) :=
  match field_assert f with Some (AssertZeroize Z) => Some (@zeroize _ Z) | _ => None end.

Definition field_zeroize_or_on_drop (f : Field) :
    option (field_type f -> run (field_type f * Released)) :=
  match field_assert f with Some A => Some (zeroize_or_on_drop A) | None => None end.

(** The method of a name. *)
Definition find_method (method : string) (f : Field) :
    option (field_type f -> run (field_type f * Released)) :=
  if bool_decide (method = "zeroize") then field_zeroize f
  else if bool_decide (method = "zeroize_or_on_drop") then field_zeroize_or_on_drop f
  else None.

(** Calling it; code without such a method is not compiled. *)
Definition call_method (method : string) (f : Field) : run (Field * Released) :=
  match find_method method f with
  | Some m => let! (v, fr) := m (field_value f) in Ret (set_value f v, fr)
  | None => UB
  end.

Section running.
Context `{Syn}.

Fixpoint run_calls (body : list Call) (fs : list Field) : run (list Field * Released) :=
  match body with
  | [] => Ret (fs, [])
  | c :: body =>
      match fs !! binding_index (receiver c) with
      | Some f =>
          let! (f, fr) := call_method (method c) f in
          let! (fs, fr') := run_calls body (<[binding_index (receiver c) := f]> fs) in
          Ret (fs, fr ++ fr')
      | None => UB
      end
  end.

(** The first arm of the variant; a [match] without is not compiled. *)
Fixpoint run_arms (arms : list Arm) (self : Place) : run (Place * Released) :=
  match arms with
  | [] => UB
  | ArmRest :: _ => Ret (self, [])
  | ArmVariant variant body :: arms =>
      if bool_decide (variant = active self) then
        let! (fs, fr) := run_calls body (place_fields self) in
        Ret (mkPlace (active self) fs, fr)
      else run_arms arms self
  end.

Definition find_impl (trait : string) (impls : list Impl) : option Impl :=
  List.find (fun i => bool_decide (impl_trait i = trait)) impls.

(** [self.zeroize()] on a place of the derived type. *)
Definition zeroize_place (impls : list Impl) (self : Place) : run (Place * Released) :=
  match find_impl "zeroize::Zeroize" impls with
  | Some (mkImpl _ _ _ (Some (MatchSelf arms))) => run_arms arms self
  | _ => UB
  end.

(** [Drop::drop] *)
Definition drop_method (impls : list Impl) (self : Place) : run (Place * Released) :=
  match find_impl "Drop" impls with
  | Some (mkImpl _ _ _ (Some (MatchSelf arms))) => run_arms arms self
  | Some (mkImpl _ _ _ (Some SelfZeroize)) => zeroize_place impls self
  | _ => Ret (self, [])
  end.

(** The drop glue of the fields, in order: what is left in each, and released. *)
Fixpoint drop_fields (fs : list Field) : run (list (list u8) * Released) :=
  match fs with
  | [] => Ret ([], [])
  | f :: fs =>
      let! (raw, fr) := @drop_in_place _ (field_rust f) (field_value f) in
      let! (raws, fr') := drop_fields fs in
      Ret (raw :: raws, fr ++ fr')
  end.

(** Dropping a place of the derived type: [Drop::drop], then the fields. *)
Definition drop_place (impls : list Impl) (self : Place) : run (list (list u8) * Released) :=
  let! (self, fr) := drop_method impls self in
  let! (raws, fr') := drop_fields (place_fields self) in
  Ret (raws, fr ++ fr').

End running.

(** ** What running it does *)

Section runs.
Context `{SynstructureLaws}.

(** Which fields of a variant are not skipped. *)
Definition keeps (v : VariantInfo) : list bool :=
  List.map (fun field => is_kept (variant_attrs v) && is_kept field) (fields v).

(** A call of the method on each of the fields chosen, in order. *)
Fixpoint call_kept (method : string) (ks : list bool) (fs : list Field) :
    run (list Field * Released) :=
  match ks, fs with
  | k :: ks, f :: fs =>
      let! (f, fr) := if (k : bool) then call_method method f else Ret (f, []) in
      let! (fs, fr') := call_kept method ks fs in
      Ret (f :: fs, fr ++ fr')
  | _, _ => Ret (fs, [])
  end.

Lemma call_kept_none m (fields : list (list Attribute)) fs :
  call_kept m (List.map (fun _ => false) fields) fs = Ret (fs, []).
Proof.
  revert fs. induction fields as [|a fields IH]; intros [|f fs]; simpl; [done..|].
  by rewrite IH.
Qed.

Lemma run_calls_kept m (bs : list BindingInfo) (pre fs : list Field) :
  binding_index <$> bs = seq (length pre) (length fs) ->
  run_calls (List.map (fun bi => mkCall bi m)
               (List.filter (fun bi => is_kept (binding_attrs bi)) bs)) (pre ++ fs)
  = let! (fs, fr) := call_kept m (List.map is_kept (binding_attrs <$> bs)) fs in
    Ret (pre ++ fs, fr).
Proof.
  revert pre fs. induction bs as [|b bs IH]; intros pre [|f fs] Hi; try done.
  csimpl in Hi. injection Hi as Hb Hi. csimpl.
  assert (binding_index <$> bs = seq (length (pre ++ [f])) (length fs)) as Hi'.
  { by rewrite length_app, Nat.add_1_r. }
  destruct (is_kept (binding_attrs b)); simpl.
  - rewrite Hb, list_lookup_middle by done.
    destruct (call_method m f) as [[f' fr]| |] eqn:E; simpl; [|done..].
    replace (<[length pre:=f']> (pre ++ f :: fs)) with ((pre ++ [f']) ++ fs).
    2: { rewrite <- (Nat.add_0_r (length pre)), insert_app_r. by rewrite <- app_assoc. }
    rewrite (IH (pre ++ [f'])) by (rewrite Hi; by rewrite length_app, Nat.add_1_r).
    destruct (call_kept m _ fs) as [[fs' fr']| |]; simpl; [|done..].
    by rewrite <- app_assoc.
  - rewrite cons_middle, app_assoc, IH by done.
    destruct (call_kept m _ fs) as [[fs' fr']| |]; simpl; [|done..].
    by rewrite <- app_assoc.
Qed.

(** The arms of the variants kept, before others. *)
Lemma run_variant_arms m vs rest v p :
  NoDup (variant_ident <$> vs) -> Forall fresh_variant vs -> v ∈ vs ->
  active p = variant_ident v -> length (place_fields p) = length (fields v) ->
  run_arms (List.map (fun v =>
      ArmVariant (variant_ident v) (List.map (fun bi => mkCall bi m) (bindings v)))
    (List.map (fun v =>
       set_bindings (List.filter (fun bi => is_kept (binding_attrs bi)) (bindings v)) v)
      (List.filter (fun v => is_kept (variant_attrs v)) vs)) ++ rest) p
  = if is_kept (variant_attrs v)
    then let! (fs, fr) := call_kept m (List.map is_kept (fields v)) (place_fields p) in
         Ret (mkPlace (active p) fs, fr)
    else run_arms rest p.
Proof.
  intros Hn Hf Hv Ha Hl. induction vs as [|w vs IH]; [by apply elem_of_nil in Hv|].
  csimpl in Hn. apply NoDup_cons in Hn as [Hw Hn]. apply Forall_cons in Hf as [[Hat Hix] Hf].
  apply elem_of_cons in Hv as [->|Hv].
  - simpl. destruct (is_kept (variant_attrs w)) eqn:Ek; simpl.
    + rewrite bool_decide_true by done. rewrite <- Hl in Hix.
      pose proof (run_calls_kept m (bindings w) [] (place_fields p) Hix) as Hr. simpl in Hr.
      rewrite Hr, Hat. by destruct (call_kept _ _ _) as [[]| |].
    + clear IH Hf Hat Hix. induction vs as [|w' vs IH]; simpl; [done|].
      csimpl in Hw. apply not_elem_of_cons in Hw as [Hw Hw'].
      csimpl in Hn. apply NoDup_cons in Hn as [_ Hn].
      destruct (is_kept (variant_attrs w')); simpl; [|by apply IH].
      rewrite bool_decide_false by congruence. by apply IH.
  - assert (variant_ident w <> active p) as Hne.
    { rewrite Ha. intros He. apply Hw. rewrite He. by apply list_elem_of_fmap_2. }
    simpl. destruct (is_kept (variant_attrs w)); simpl; [|by apply IH].
    rewrite bool_decide_false by done. by apply IH.
Qed.

(** The arms call the method on the fields that are not skipped. *)
Lemma run_arms_eq s m v p :
  fresh s -> v ∈ variants s -> active p = variant_ident v ->
  length (place_fields p) = length (fields v) ->
  run_arms (arms s m) p
  = let! (fs, fr) := call_kept m (keeps v) (place_fields p) in Ret (mkPlace (active p) fs, fr).
Proof.
  intros (_ & Hn & Hf) Hv Ha Hl. unfold arms, kept_variants, keeps.
  rewrite (run_variant_arms m _ _ v) by done.
  destruct (is_kept (variant_attrs v)) eqn:Ek; simpl; [done|].
  rewrite call_kept_none. simpl. replace (any_skipped s) with true; [by destruct p|].
  symmetry. unfold any_skipped. destruct (forallb _ _) eqn:E; [|done].
  rewrite forallb_forall in E. apply list_elem_of_In, E in Hv. congruence.
Qed.

(** ** Erasing *)

(** The same field with other data: a field that is skipped has the same value,
    one that is not has a value of the same shape, of a type that is zeroized by
    [zeroize], or ([on_drop]) when it is dropped. *)
Inductive erasable (on_drop : bool) : bool -> Field -> Field -> Prop :=
  | erasable_skipped T (R : RustType T) A v :
      RustTypeLaws T -> valid v ->
      erasable on_drop false (mkField T R A v) (mkField T R A v)
  | erasable_zeroize T (R : RustType T) (Z : Zeroize T) v1 v2 :
      RustTypeLaws T -> ZeroizeLaws T -> valid v1 -> valid v2 -> same_shape v1 v2 ->
      erasable on_drop true (mkField T R (Some (AssertZeroize Z)) v1)
        (mkField T R (Some (AssertZeroize Z)) v2)
  | erasable_on_drop T (R : RustType T) (D : ZeroizeOnDrop T) v1 v2 :
      on_drop = true -> RustTypeLaws T -> ZeroizeOnDropLaws T ->
      valid v1 -> valid v2 -> same_shape v1 v2 -> same_residue v1 v2 ->
      erasable on_drop true (mkField T R (Some (AssertZeroizeOnDrop D)) v1)
        (mkField T R (Some (AssertZeroizeOnDrop D)) v2).

(** Two places of the derived type that hold the same variant, with other data. *)
Definition same_but_secrets (on_drop : bool) (s : Structure) (p1 p2 : Place) : Prop :=
  exists v, v ∈ variants s /\ active p1 = variant_ident v /\ active p2 = variant_ident v
  /\ length (place_fields p1) = length (fields v)
  /\ Forall3 (erasable on_drop) (keeps v) (place_fields p1) (place_fields p2).

(** Fields whose drop glue leaves and releases the same. *)
Definition drops_same (f1 f2 : Field) : Prop :=
  exists raw fr,
    @drop_in_place _ (field_rust f1) (field_value f1) = Ret (raw, fr)
    /\ @drop_in_place _ (field_rust f2) (field_value f2) = Ret (raw, fr).

Lemma call_method_erases on_drop m f1 f2 :
  m = "zeroize" /\ on_drop = false \/ m = "zeroize_or_on_drop" ->
  erasable on_drop true f1 f2 ->
  exists f1' f2' fr, call_method m f1 = Ret (f1', fr) /\ call_method m f2 = Ret (f2', fr)
    /\ drops_same f1' f2' /\ (on_drop = false -> f1' = f2').
Proof.
  intros Hm He. inversion He as [|T R Z v1 v2 Hr Hz Hv1 Hv2 Hs|T R D v1 v2 Ho Hr Hd Hv1 Hv2 Hs Hre];
    subst; clear He.
  - destruct (zeroize_ok v1 Hv1) as (v & fr & E & Hv).
    destruct (drop_in_place_ok v Hv) as (raw & fr' & Ed & _).
    exists (mkField T R (Some (AssertZeroize Z)) v), (mkField T R (Some (AssertZeroize Z)) v), fr.
    assert (zeroize v2 = Ret (v, fr)) as E2 by (by rewrite <- (zeroize_erases v1 v2)).
    split_and!; [| |by exists raw, fr'|done];
      destruct Hm as [[-> ->]| ->]; unfold call_method; simpl; by rewrite ?E, ?E2.
  - destruct Hm as [[_ ?]| ->]; [done|]. destruct (drop_in_place_ok v1 Hv1) as (raw & fr & Ed & _).
    exists (mkField T R (Some (AssertZeroizeOnDrop D)) v1),
      (mkField T R (Some (AssertZeroizeOnDrop D)) v2), [].
    split_and!; [done|done| |done]. exists raw, fr. simpl. by rewrite <- (drop_erases v1 v2).
Qed.

(** Running the method over the fields erases them. *)
Lemma call_kept_erases on_drop m ks fs1 fs2 :
  m = "zeroize" /\ on_drop = false \/ m = "zeroize_or_on_drop" ->
  Forall3 (erasable on_drop) ks fs1 fs2 ->
  exists fs1' fs2' fr, call_kept m ks fs1 = Ret (fs1', fr) /\ call_kept m ks fs2 = Ret (fs2', fr)
    /\ Forall2 drops_same fs1' fs2' /\ (on_drop = false -> fs1' = fs2').
Proof.
  intros Hm. induction 1 as [|k f1 f2 ks fs1 fs2 Hf Hfs (fs1' & fs2' & fr & E1 & E2 & Hd & Hs)];
    [by exists [], [], []|].
  simpl. destruct k.
  - destruct (call_method_erases on_drop m f1 f2 Hm Hf) as (f1' & f2' & fr' & -> & -> & Hd' & Hs').
    simpl. rewrite E1, E2. simpl. exists (f1' :: fs1'), (f2' :: fs2'), (fr' ++ fr).
    split_and!; [done|done|by constructor|]. intros H'. by rewrite Hs', Hs.
  - simpl. rewrite E1, E2. simpl. exists (f1 :: fs1'), (f2 :: fs2'), fr.
    inversion Hf as [T R A v Hr Hv| |]; subst.
    destruct (drop_in_place_ok v Hv) as (raw & fr' & Ed & _).
    split_and!; [done|done| |intros H'; by rewrite Hs]. constructor; [by exists raw, fr'|done].
Qed.

Lemma drop_fields_same fs1 fs2 :
  Forall2 drops_same fs1 fs2 ->
  exists raws fr, drop_fields fs1 = Ret (raws, fr) /\ drop_fields fs2 = Ret (raws, fr).
Proof.
  induction 1 as [|f1 f2 fs1 fs2 (raw & fr & E1 & E2) Hfs (raws & frs & IH1 & IH2)];
    [by exists [], []|].
  simpl. rewrite E1, E2. simpl. rewrite IH1, IH2. simpl. by eexists _, _.
Qed.

(** A method that runs the arms erases the place. *)
Lemma run_arms_erases on_drop s m p1 p2 :
  m = "zeroize" /\ on_drop = false \/ m = "zeroize_or_on_drop" ->
  fresh s -> same_but_secrets on_drop s p1 p2 ->
  exists q1 q2 fr, run_arms (arms s m) p1 = Ret (q1, fr) /\ run_arms (arms s m) p2 = Ret (q2, fr)
    /\ Forall2 drops_same (place_fields q1) (place_fields q2) /\ (on_drop = false -> q1 = q2).
Proof.
  intros Hm Hf (v & Hv & Ha1 & Ha2 & Hl & Hs). pose proof (Forall3_length_lm _ _ _ _ Hs) as Hl1.
  pose proof (Forall3_length_lr _ _ _ _ Hs) as Hl2.
  rewrite !(run_arms_eq s m v) by (done || congruence).
  destruct (call_kept_erases on_drop m _ _ _ Hm Hs) as (fs1 & fs2 & fr & -> & -> & Hd & He). simpl.
  exists (mkPlace (active p1) fs1), (mkPlace (active p2) fs2), fr. split_and!; [done..|].
  intros H'. by rewrite Ha1, Ha2, He.
Qed.

End runs.

(** The methods of the implementations written. *)
Section methods.
Context `{SynstructureLaws}.

Lemma impl_of_trait s t b : impl_trait (impl_of s t b) = t /\ impl_body (impl_of s t b) = b.
Proof. unfold impl_of. by destruct (bound_of s). Qed.

Lemma zeroize_place_eq s impls p :
  fresh s -> derive_zeroize s = Ret impls ->
  zeroize_place impls p = run_arms (arms s "zeroize") p.
Proof.
  intros Hf. rewrite derive_zeroize_eq by done. destruct (_ && _); [|done]. intros [= <-].
  unfold zeroize_place, find_impl. simpl. destruct (impl_of_trait s "zeroize::Zeroize"
    (Some (MatchSelf (arms s "zeroize")))) as [-> Hb].
  rewrite bool_decide_true by done. destruct (impl_of s _ _) as [t b w body]. simpl in Hb. by subst body.
Qed.

Lemma drop_method_eq s impls p :
  fresh s -> derive_zeroize s = Ret impls -> drops s = true ->
  drop_method impls p = run_arms (arms s "zeroize") p.
Proof.
  intros Hf Hd Hdr. rewrite <- (zeroize_place_eq s impls) by done. revert Hd.
  rewrite derive_zeroize_eq, Hdr by done. destruct (_ && _); [|done]. intros [= <-].
  unfold drop_method, find_impl. simpl.
  destruct (impl_of_trait s "zeroize::Zeroize" (Some (MatchSelf (arms s "zeroize")))) as [-> _].
  rewrite bool_decide_false by done. destruct (impl_of_trait s "Drop" (Some SelfZeroize)) as [-> Hb].
  rewrite bool_decide_true by done. destruct (impl_of s "Drop" _) as [t b w body].
  simpl in Hb. by subst body.
Qed.

Lemma on_drop_method_eq s impls p :
  fresh s -> derive_zeroize_on_drop s = Ret impls ->
  drop_method impls p = run_arms (arms s "zeroize_or_on_drop") p.
Proof.
  intros Hf. rewrite derive_zeroize_on_drop_eq by done. destruct (forallb _ _); [|done].
  by intros [= <-].
Qed.
End methods.

(** ** Properties *)

(** C23. What the derives accept and write. [derive(Zeroize)] panics unless every
    [zeroize(..)] element is a word in its place ([drop] and [bound = "..."] on the
    type, [skip] on variants and fields), [drop] and [bound] occur at most once and
    nothing is skipped twice; otherwise it writes [Zeroize] with the bounds asked
    for, and [Drop], which calls it, exactly when [drop] is there. The arms have a
    call for each field that is neither skipped nor in a variant that is.
    [derive(ZeroizeOnDrop)] panics on double [skip]s only and accepts everything else,
    unknown and misplaced elements included ([struct_skip_mismatch]). *)
Theorem derives_write `{SynstructureLaws} (s : Structure) :
  fresh s ->
  derive_zeroize s
  = (if attributes_ok s && forallb skips_once (variants s)
     then Ret (impl_of s "zeroize::Zeroize" (Some (MatchSelf (arms s "zeroize")))
               :: if drops s then [impl_of s "Drop" (Some SelfZeroize)] else [])
     else Panic)
  /\ derive_zeroize_on_drop s
  = (if forallb skips_once (variants s)
     then Ret [mkImpl "Drop" AddBounds_None (where_predicates s)
                 (Some (MatchSelf (arms s "zeroize_or_on_drop")));
               mkImpl "zeroize::ZeroizeOnDrop" AddBounds_None (where_predicates s) None]
     else Panic).
Proof. intros Hf. split; [by apply derive_zeroize_eq|by apply derive_zeroize_on_drop_eq]. Qed.

(** C13. The derived [zeroize] calls the method of each field that is not skipped, in
    order, on a place of any variant, and leaves the others alone; if the types of
    those fields keep the laws of [Zeroize], it succeeds, and what it leaves and
    releases is the same for any other secrets of the same shape. *)
Theorem derived_zeroize `{SynstructureLaws} (s : Structure) (impls : list Impl) (v : VariantInfo)
    (p : Place) :
  fresh s -> derive_zeroize s = Ret impls ->
  v ∈ variants s -> active p = variant_ident v ->
  length (place_fields p) = length (fields v) ->
  zeroize_place impls p
  = (let! (fs, fr) := call_kept "zeroize" (keeps v) (place_fields p) in
     Ret (mkPlace (active p) fs, fr))
  /\ forall p', same_but_secrets false s p p' ->
     exists q fr, zeroize_place impls p = Ret (q, fr) /\ zeroize_place impls p' = Ret (q, fr).
Proof.
  intros Hf Hd Hv Ha Hl. split.
  - rewrite (zeroize_place_eq s) by done. by apply run_arms_eq.
  - intros p' Hs. rewrite !(zeroize_place_eq s) by done.
    destruct (run_arms_erases false s "zeroize" p p') as (q1 & q2 & fr & E1 & E2 & _ & He);
      [by left|done|done|]. exists q1, fr. by rewrite <- (He eq_refl) in E2.
Qed.

(** C6. Dropping a derived type gives no secret away: with [derive(ZeroizeOnDrop)],
    or [derive(Zeroize)] and [zeroize(drop)], [Drop::drop] and the drop glue of the
    fields succeed, and what is left in the fields and released is the same for any
    other secrets of the same shape in the fields that are not skipped, whether
    their types are zeroized by [zeroize] or (with [ZeroizeOnDrop]) by themselves. *)
Theorem derived_drop_erases `{SynstructureLaws} (s : Structure) (impls : list Impl)
    (on_drop : bool) (p1 p2 : Place) :
  fresh s ->
  (if on_drop then derive_zeroize_on_drop s = Ret impls
   else derive_zeroize s = Ret impls /\ drops s = true) ->
  same_but_secrets on_drop s p1 p2 ->
  exists raws fr, drop_place impls p1 = Ret (raws, fr) /\ drop_place impls p2 = Ret (raws, fr).
Proof.
  intros Hf Hd Hs. unfold drop_place.
  assert (exists m, (m = "zeroize" /\ on_drop = false \/ m = "zeroize_or_on_drop")
    /\ forall p, drop_method impls p = run_arms (arms s m) p) as (m & Hm & Hr).
  { destruct on_drop.
    - exists "zeroize_or_on_drop"%string. split; [by right|]. intros p. by apply on_drop_method_eq.
    - destruct Hd as [Hd Hdr]. exists "zeroize"%string. split; [by left|].
      intros p. by apply drop_method_eq. }
  rewrite !Hr. destruct (run_arms_erases on_drop s m p1 p2) as (q1 & q2 & fr & -> & -> & Hq & _);
    [done..|]. simpl.
  destruct (drop_fields_same _ _ Hq) as (raws & fr' & -> & ->). simpl. by eexists _, _.
Qed.

(** ** A sample *)

Section sample.

(** Attributes that are what they parse to; a where predicate has a colon. *)
#[local] Instance sample_syn : Syn := {|
  Path := string;
  Attribute := Meta string;
  WherePredicate := string;
  is_ident := String.eqb;
  attr_parse_meta := Some;
  parse_bounds value := if String.index 0 ":" value then Some [value] else None;
|}.

#[local] Instance sample_synstructure : Synstructure := {|
  add_bounds b s := mkStructure (ast_attrs s) (variants s) (omitted_variants s) (bind_style s) b
                      (where_predicates s);
  add_where_predicate w s := mkStructure (ast_attrs s) (variants s) (omitted_variants s)
                               (bind_style s) (bounds s) (where_predicates s ++ [w]);
  bind_with b s := mkStructure (ast_attrs s) (variants s) (omitted_variants s) b (bounds s)
                     (where_predicates s);
  filter_variants f s :=
    let! vs := retain f (variants s) in
    Ret (set_variants vs (omitted_variants s || (length vs <? length (variants s))) s);
  filter f s :=
    let! vs := retain_bindings f (variants s) in Ret (set_variants vs (omitted_variants s) s);
  each f s :=
    List.map (fun v => ArmVariant (variant_ident v) (List.map f (bindings v))) (variants s)
    ++ (if omitted_variants s then [ArmRest] else []);
  bound_impl t b s := mkImpl t (bounds s) (where_predicates s) b;
  gen_impl t b s := mkImpl t (bounds s) (where_predicates s) (Some b);
|}.

#[local] Instance sample_laws : SynstructureLaws.
Proof. by constructor. Qed.

(** [#[zeroize(..)]] *)
Definition zeroize_attr (word : string) : Meta string :=
  MetaList "zeroize" [NestedMeta_Meta (MetaPath word)].

Definition struct_ (name : Ident) (attrs : list (Meta string)) (fields : list (list (Meta string))) :
    Structure :=
  mkStructure attrs
    [mkVariant name None attrs fields (imap mkBinding fields)]
    false BindStyle_Ref AddBounds_Both [].

(** [#[zeroize(drop)] struct Key { id: u8 (skipped), secret: [u8; 4] }] *)
Definition sample_key : Structure :=
  struct_ "Key" [zeroize_attr "drop"] [[zeroize_attr "skip"]; []].

Definition u8_field (b : u8) : Field :=
  mkField (Scalar U8) (scalar_type U8) (Some (AssertZeroize zeroize_default)) (mkScalar [b]).

Definition key_place (id secret : u8) : Place := mkPlace "Key" [u8_field id; u8_field secret].

Lemma sample_fresh : fresh sample_key.
Proof.
  split; [reflexivity|]. split; [apply NoDup_singleton|].
  apply Forall_cons. split; [split; reflexivity|constructor].
Qed.

Lemma sample_same id c1 c2 od : same_but_secrets od sample_key (key_place id c1) (key_place id c2).
Proof.
  eexists. split; [left|]. split; [reflexivity|]. split; [reflexivity|]. split; [reflexivity|].
  apply Forall3_cons; [apply erasable_skipped; [apply _|by split]|].
  apply Forall3_cons; [|constructor].
  apply erasable_zeroize; [apply _|apply _|by split|by split|done].
Qed.

(** A [skip] on a struct is an error for [Zeroize], but [ZeroizeOnDrop] takes it for
    one on its only variant and drops the struct without zeroizing anything. *)
Lemma struct_skip_mismatch :
  let s := struct_ "Key" [zeroize_attr "skip"] [[]; []] in
  derive_zeroize s = Panic
  /\ exists impls, derive_zeroize_on_drop s = Ret impls
     /\ drop_method impls (key_place 1%u8 7%u8) = Ret (key_place 1%u8 7%u8, []).
Proof. split; [reflexivity|]. eexists. split; reflexivity. Qed.

(** A second [drop] is refused, and a [drop] on a field. *)
Lemma derives_write_witness :
  derive_zeroize (struct_ "Key" [zeroize_attr "drop"; zeroize_attr "drop"] []) = Panic
  /\ derive_zeroize (struct_ "Key" [] [[zeroize_attr "drop"]]) = Panic
  /\ exists impls, derive_zeroize sample_key = Ret impls /\ length impls = 2.
Proof.
  split; [|split].
  - apply (derives_write (struct_ "Key" [zeroize_attr "drop"; zeroize_attr "drop"] [])).
    split; [reflexivity|]. split; [apply NoDup_singleton|].
    apply Forall_cons. split; [split; reflexivity|constructor].
  - apply (derives_write (struct_ "Key" [] [[zeroize_attr "drop"]])).
    split; [reflexivity|]. split; [apply NoDup_singleton|].
    apply Forall_cons. split; [split; reflexivity|constructor].
  - eexists. split; [apply (derives_write sample_key sample_fresh)|reflexivity].
Defined.

(** The secret is zeroed, the identifier stays. *)
Lemma derived_zeroize_witness :
  exists impls, derive_zeroize sample_key = Ret impls
  /\ zeroize_place impls (key_place 1%u8 7%u8) = Ret (key_place 1%u8 0%u8, [])
  /\ zeroize_place impls (key_place 1%u8 9%u8) = Ret (key_place 1%u8 0%u8, []).
Proof.
  eexists. split; [reflexivity|].
  edestruct (derived_zeroize sample_key) with (p := key_place 1%u8 7%u8) as [E Hs];
    [exact sample_fresh|reflexivity|left|reflexivity|reflexivity|].
  split; [exact E|].
  destruct (Hs (key_place 1%u8 9%u8) (sample_same _ _ _ _)) as (q & fr & E1 & E2).
  rewrite E2, <- E1. exact E.
Defined.

Lemma derived_drop_erases_witness :
  exists impls, derive_zeroize sample_key = Ret impls
  /\ drop_place impls (key_place 1%u8 7%u8) = Ret ([[1%u8]; [0%u8]], [])
  /\ drop_place impls (key_place 1%u8 9%u8) = Ret ([[1%u8]; [0%u8]], []).
Proof.
  eexists. split; [reflexivity|].
  edestruct (derived_drop_erases sample_key) with (on_drop := false) (p1 := key_place 1%u8 7%u8)
    (p2 := key_place 1%u8 9%u8) as (raws & fr & E1 & E2);
    [exact sample_fresh|split; reflexivity|apply sample_same|].
  vm_compute in E1. injection E1 as <- <-. split; [reflexivity|exact E2].
Defined.

End sample.
