(* ===== verification/ZeroizeDeriveTests.v ===== *)
(** * The tests of [zeroize_derive]

    The unit tests of [zeroize/derive/src/lib.rs] on the model of [ZeroizeDerive.v]:
    what the derives expand to, which attributes they accept and which make them
    panic. The attributes are given as [syn] parses them ([sample_syn]); the types of
    the fields, which the derives do not look at, are left out. *)
From Stdlib Require Import Strings.String.
From stdpp Require Import base numbers list strings.
From S2P Require Import Prelude ZeroizeDerive.

#[local] Existing Instances sample_syn sample_synstructure.
#[local] Open Scope string_scope.

(** [#[zeroize(..)]], its elements, and the items that the tests derive for. *)
Definition zeroize_list (metas : list (Meta string)) : Meta string :=
  MetaList "zeroize" (List.map NestedMeta_Meta metas).
Definition drop_attr : Meta string := zeroize_list [MetaPath "drop"].
Definition skip_attr : Meta string := zeroize_list [MetaPath "skip"].
Definition bound_meta (value : string) : Meta string := MetaNameValue "bound" (LitStr value).
Definition bound_attr (value : string) : Meta string := zeroize_list [bound_meta value].

Definition variant (enum : option Ident) (name : Ident) (attrs : list (Meta string))
    (fields : list (list (Meta string))) : VariantInfo :=
  mkVariant name enum attrs fields (imap mkBinding fields).

Definition struct_Z (attrs : list (Meta string)) (fields : list (list (Meta string))) : Structure :=
  mkStructure attrs [variant None "Z" attrs fields] false BindStyle_Ref AddBounds_Both [].

Definition enum_Z (attrs : list (Meta string))
    (vs : list (Ident * list (Meta string) * list (list (Meta string)))) : Structure :=
  mkStructure attrs (List.map (fun '(name, vattrs, fields) => variant (Some "Z") name vattrs fields) vs)
    false BindStyle_Ref AddBounds_Both [].

(** [match self { Z { .. } => { each field with its index and attributes } }] *)
Definition calls (method : string) (fields : list nat) : Body :=
  MatchSelf [ArmVariant "Z" (List.map (fun i => mkCall (mkBinding i []) method) fields)].

Definition parse_zeroize_test (s : Structure) : run (list Impl) := derive_zeroize s.

(** ** What the derives expand to *)

Definition zeroize_without_drop : Prop :=
  derive_zeroize_without_drop (struct_Z [] [[]; []; []])
  = Ret [mkImpl "zeroize::Zeroize" AddBounds_Both [] (Some (calls "zeroize" [0; 1; 2]))].

Definition zeroize_with_drop : Prop :=
  derive_zeroize_with_drop (struct_Z [] [[]; []; []])
  = Ret [mkImpl "zeroize::Zeroize" AddBounds_Both [] (Some (calls "zeroize" [0; 1; 2]));
         mkImpl "Drop" AddBounds_Both [] (Some SelfZeroize)].

Definition zeroize_with_skip : Prop :=
  derive_zeroize_without_drop (struct_Z [] [[]; []; [skip_attr]])
  = Ret [mkImpl "zeroize::Zeroize" AddBounds_Both [] (Some (calls "zeroize" [0; 1]))].

Definition zeroize_with_bound : Prop :=
  derive_zeroize (struct_Z [bound_attr "T: MyTrait"] [[]])
  = Ret [mkImpl "zeroize::Zeroize" AddBounds_None ["T: MyTrait"] (Some (calls "zeroize" [0]))].

Definition zeroize_only_drop : Prop :=
  derive_zeroize_on_drop (struct_Z [] [[]; []; []])
  = Ret [mkImpl "Drop" AddBounds_None [] (Some (calls "zeroize_or_on_drop" [0; 1; 2]));
         mkImpl "zeroize::ZeroizeOnDrop" AddBounds_None [] None].

(** ** Attributes that are accepted *)

Definition zeroize_on_struct : run (list Impl) :=
  parse_zeroize_test (struct_Z [drop_attr] [[]; []; []]).
Definition zeroize_on_enum : run (list Impl) :=
  parse_zeroize_test (enum_Z [drop_attr] [("Variant1", [], [[]; []; []])]).

(** ** Attributes that make the derive panic *)

Definition zeroize_on_struct_field : run (list Impl) :=
  parse_zeroize_test (struct_Z [] [[drop_attr]; []; []]).
Definition zeroize_on_tuple_struct_field : run (list Impl) :=
  parse_zeroize_test (struct_Z [] [[drop_attr]]).
Definition zeroize_on_second_field : run (list Impl) :=
  parse_zeroize_test (struct_Z [] [[]; [drop_attr]; []]).
Definition zeroize_on_tuple_enum_variant_field : run (list Impl) :=
  parse_zeroize_test (enum_Z [] [("Variant", [], [[drop_attr]])]).
Definition zeroize_on_enum_variant_field : run (list Impl) :=
  parse_zeroize_test (enum_Z [] [("Variant", [], [[drop_attr]; []; []])]).
Definition zeroize_on_enum_second_variant_field : run (list Impl) :=
  parse_zeroize_test
    (enum_Z [] [("Variant1", [], [[]; []; []]); ("Variant2", [], [[drop_attr]; []; []])]).
Definition zeroize_on_enum_variant : run (list Impl) :=
  parse_zeroize_test (enum_Z [] [("Variant", [drop_attr], [])]).
Definition zeroize_on_enum_second_variant : run (list Impl) :=
  parse_zeroize_test (enum_Z [] [("Variant1", [], []); ("Variant2", [drop_attr], [])]).
Definition zeroize_skip_on_struct : run (list Impl) :=
  parse_zeroize_test (struct_Z [skip_attr] [[]; []; []]).
Definition zeroize_skip_on_enum : run (list Impl) :=
  parse_zeroize_test (enum_Z [skip_attr] [("Variant1", [], []); ("Variant2", [], [])]).
Definition zeroize_duplicate_skip : run (list Impl) :=
  parse_zeroize_test (struct_Z [] [[]; [skip_attr; skip_attr]; []]).
Definition zeroize_duplicate_skip_list : run (list Impl) :=
  parse_zeroize_test (struct_Z [] [[]; [zeroize_list [MetaPath "skip"; MetaPath "skip"]]; []]).
Definition zeroize_duplicate_skip_enum : run (list Impl) :=
  parse_zeroize_test (enum_Z [] [("Variant", [skip_attr], [[]; [skip_attr]; []])]).
Definition zeroize_duplicate_bound : run (list Impl) :=
  parse_zeroize_test (struct_Z [bound_attr "T: MyTrait"; bound_attr ""] [[]]).
Definition zeroize_duplicate_bound_list : run (list Impl) :=
  parse_zeroize_test (struct_Z [zeroize_list [bound_meta "T: MyTrait"; bound_meta ""]] [[]]).
Definition zeroize_bound_struct : run (list Impl) :=
  parse_zeroize_test (struct_Z [] [[bound_attr "T: MyTrait"]]).
Definition zeroize_bound_enum : run (list Impl) :=
  parse_zeroize_test (enum_Z [] [("A", [bound_attr "T: MyTrait"], [[]])]).
Definition zeroize_bound_enum_variant_field : run (list Impl) :=
  parse_zeroize_test (enum_Z [] [("A", [], [[bound_attr "T: MyTrait"]])]).
Definition zeroize_bound_no_value : run (list Impl) :=
  parse_zeroize_test (struct_Z [zeroize_list [MetaPath "bound"]] [[]]).
Definition zeroize_bound_no_where_predicate : run (list Impl) :=
  parse_zeroize_test (struct_Z [bound_attr "T"] [[]]).

(** ** The tests pass *)

Lemma expansions_match :
  zeroize_without_drop /\ zeroize_with_drop /\ zeroize_with_skip /\ zeroize_with_bound
  /\ zeroize_only_drop.
Proof. split_and!; reflexivity. Qed.

Lemma attributes_accepted :
  Forall (fun t => returns t = true) [zeroize_on_struct; zeroize_on_enum].
Proof. by repeat constructor. Qed.

Lemma attributes_refused :
  Forall (fun t => t = Panic)
    [zeroize_on_struct_field; zeroize_on_tuple_struct_field; zeroize_on_second_field;
     zeroize_on_tuple_enum_variant_field; zeroize_on_enum_variant_field;
     zeroize_on_enum_second_variant_field; zeroize_on_enum_variant;
     zeroize_on_enum_second_variant; zeroize_skip_on_struct; zeroize_skip_on_enum;
     zeroize_duplicate_skip; zeroize_duplicate_skip_list; zeroize_duplicate_skip_enum;
     zeroize_duplicate_bound; zeroize_duplicate_bound_list; zeroize_bound_struct;
     zeroize_bound_enum; zeroize_bound_enum_variant_field; zeroize_bound_no_value;
     zeroize_bound_no_where_predicate].
Proof. by repeat constructor. Qed.
