(* ===== verification/Wycheproof.v ===== *)
(** * [wycheproof2blb]: from Wycheproof test vectors to blobs

    [Suite], [Group], [Case] and the suites of each module are the parsed JSON;
    parsing ([serde_json::from_slice]) is the class [Parsers]. A generator walks
    over the groups and the tests of a suite ([for_in]; [continue] keeps the
    state) and collects a [TestInfo] for each test it selects; [main] writes their
    descriptions and their blobs, encoded by [Blobby.encode_blobs]. What is
    printed is left out; the file system is an argument. *)
From Stdlib Require Import Strings.Ascii Strings.String.
From stdpp Require Import base numbers list strings pretty gmap.
From S2P Require Import Prelude HexCrate Blobby.

(** ** Suites *)

(** The fields that all suites share. *)
Record Suite := mkSuite {
  algorithm : string;
  generator_version : string;
  number_of_tests : Z;
  notes : gmap string string;
}.

Record Group := mkGroup { group_type : string }.

Inductive CaseResult : Set := Valid | Invalid | Acceptable.

#[export] Instance case_result_eq_dec : EqDecision CaseResult.
Proof. solve_decision. Defined.

Record Case := mkCase {
  case_id : Z;
  comment : string;
  result_ : CaseResult;
  flags : list string;
}.

Record TestInfo := mkTestInfo {
  data : list (list u8);
  desc : string;
}.

(** [<CaseResult as Display>::fmt] *)
Definition case_result_fmt (r : CaseResult) : string :=
  match r with Valid => "valid" | Invalid => "invalid" | Acceptable => "acceptable" end.

(** [case_result::deserialize], on the string; other strings are an error. *)
Definition case_result_deserialize (s : string) : option CaseResult :=
  if String.eqb s "valid" then Some Valid
  else if String.eqb s "invalid" then Some Invalid
  else if String.eqb s "acceptable" then Some Acceptable
  else None.

(** [hex_string::deserialize], on the string; one that is not hexadecimal is an error. *)
Definition hex_string_deserialize `{Hex} (s : string) : option (list u8) :=
  match hex_decode (list_byte_of_string s) with Ok bs => Some bs | Err _ => None end.

(** [Path::join] *)
Definition join (self path : string) : string :=
  if String.prefix "/" path then path
  else if String.eqb self "" || String.eqb (String.substring (String.length self - 1) 1 self) "/"
  then self +:+ path else self +:+ "/" +:+ path.

(** [wycheproof::data]: [fs] is the content of a path. *)
Definition wycheproof_data (fs : string -> option (list u8)) (wycheproof_dir filename : string) :
    run (list u8) :=
  unwrap_option (fs (join (join wycheproof_dir "testvectors") filename)).

(** [case_result(case)] *)
Definition case_result (case : Case) : run u8 :=
  match result_ case with
  | Invalid => Ret 0%u8
  | Valid => Ret 1%u8
  | _ => Panic
  end.

(** [description(suite, case)] *)
Definition description (suite : Suite) (case : Case) : string :=
  algorithm suite +:+ " case " +:+ pretty (case_id case) +:+ " [" +:+
  case_result_fmt (result_ case) +:+ "] " +:+ comment case.

(** [infos.push(info)] *)
Definition push {A} (l : list A) (x : A) : list A := l ++ [x].

Module Aead.

Record TestCase := mkTestCase {
  case : Case; aad : list u8; ct : list u8; iv : list u8; key : list u8; msg : list u8;
  tag : list u8;
}.

Record TestGroup := mkTestGroup {
  group : Group; iv_size : Z; key_size : Z; tag_size : Z; tests : list TestCase;
}.

Record TestSuite := mkTestSuite { suite : Suite; test_groups : list TestGroup }.

(** [generator(data, algorithm, key_size, iv_size)], on the parsed [data]. *)
Definition generator (data : option TestSuite) (alg : string) (ks ivs : Z) : run (list TestInfo) :=
  let! suite_ := unwrap_option data in
  let! _ := assert_ (String.eqb alg (algorithm (suite suite_))) in
  for_in (test_groups suite_) [] (fun g infos =>
    for_in (tests g) infos (fun tc infos =>
      if negb (ks =? 0)%Z && negb (key_size g =? ks)%Z then Ret infos else
      if negb (iv_size g =? ivs)%Z then Ret infos else
      let combined_ct := ct tc ++ tag tc in
      let! r := case_result (case tc) in
      Ret (push infos (mkTestInfo [key tc; iv tc; aad tc; msg tc; combined_ct; [r]]
                         (description (suite suite_) (case tc)))))).

Definition aes_gcm_generator (data : option TestSuite) (alg : string) (ks : Z) :=
  generator data alg ks (12 * 8).
Definition chacha20_poly1305 (data : option TestSuite) (alg : string) (_key_size : Z) :=
  generator data alg 256 (12 * 8).
Definition xchacha20_poly1305 (data : option TestSuite) (alg : string) (_key_size : Z) :=
  generator data alg 256 (24 * 8).

End Aead.

Module AesSiv.

Record TestCase := mkTestCase {
  case : Case; key : list u8; aad : list u8; msg : list u8; ct : list u8;
}.

Record TestGroup := mkTestGroup { group : Group; key_size : Z; tests : list TestCase }.

Record TestSuite := mkTestSuite { suite : Suite; test_groups : list TestGroup }.

Definition generator (data : option TestSuite) (alg : string) (ks : Z) : run (list TestInfo) :=
  let! suite_ := unwrap_option data in
  let! _ := assert_ (String.eqb alg (algorithm (suite suite_))) in
  for_in (test_groups suite_) [] (fun g infos =>
    if negb (ks =? 0)%Z && negb (key_size g =? ks)%Z then Ret infos else
    for_in (tests g) infos (fun tc infos =>
      let! r := case_result (case tc) in
      Ret (push infos (mkTestInfo [key tc; aad tc; msg tc; ct tc; [r]]
                         (description (suite suite_) (case tc)))))).

End AesSiv.

Module Ecdsa.

Record TestCase := mkTestCase { case : Case; msg : list u8; sig : list u8 }.

Record TestKey := mkTestKey {
  curve : string; key_type : string; wx : list u8; wy : list u8;
}.

Record TestGroup := mkTestGroup {
  group : Group; key_der : string; key_pem : string; sha : string; key : TestKey;
  tests : list TestCase;
}.

Record TestSuite := mkTestSuite { suite : Suite; test_groups : list TestGroup }.

Definition generator (data : option TestSuite) (alg : string) (_key_size : Z) :
    run (list TestInfo) :=
  let! suite_ := unwrap_option data in
  for_in (test_groups suite_) [] (fun g infos =>
    let! _ := assert_ (String.eqb (curve (key g)) alg) in
    let! _ := assert_ (String.eqb (sha g) "SHA-256" || String.eqb (sha g) "SHA-384") in
    for_in (tests g) infos (fun tc infos =>
      if bool_decide (result_ (case tc) = Acceptable) then Ret infos else
      let! r := case_result (case tc) in
      Ret (push infos (mkTestInfo [wx (key g); wy (key g); msg tc; sig tc; [r]]
                         (description (suite suite_) (case tc)))))).

End Ecdsa.

Module Ed25519.

Record TestCase := mkTestCase { case : Case; msg : list u8; sig : list u8 }.

Record TestKey := mkTestKey { sk : list u8; pk : list u8 }.

Record TestGroup := mkTestGroup {
  group : Group; key_der : string; key_pem : string; key : TestKey; tests : list TestCase;
}.

Record TestSuite := mkTestSuite { suite : Suite; test_groups : list TestGroup }.

Definition generator (data : option TestSuite) (alg : string) (_key_size : Z) :
    run (list TestInfo) :=
  let! suite_ := unwrap_option data in
  let! _ := assert_ (String.eqb alg (algorithm (suite suite_))) in
  for_in (test_groups suite_) [] (fun g infos =>
    for_in (tests g) infos (fun tc infos =>
      let! r := case_result (case tc) in
      Ret (push infos (mkTestInfo [sk (key g); pk (key g); msg tc; sig tc; [r]]
                         (description (suite suite_) (case tc)))))).

End Ed25519.

Module Hkdf.

Record TestCase := mkTestCase {
  case : Case; ikm : list u8; salt : list u8; info : list u8; size : nat; okm : list u8;
}.

Record TestGroup := mkTestGroup { group : Group; key_size : Z; tests : list TestCase }.

Record TestSuite := mkTestSuite { suite : Suite; test_groups : list TestGroup }.

(** The branch for [okm.len() != size] only prints. *)
Definition generator (data : option TestSuite) (alg : string) (_key_size : Z) :
    run (list TestInfo) :=
  let! suite_ := unwrap_option data in
  let! _ := assert_ (String.eqb alg (algorithm (suite suite_))) in
  for_in (test_groups suite_) [] (fun g infos =>
    for_in (tests g) infos (fun tc infos =>
      if negb (bool_decide (result_ (case tc) = Valid)) then Ret infos else
      let! _ := (if negb (length (okm tc) =? size tc) then Ret tt else Ret tt) in
      Ret (push infos (mkTestInfo [ikm tc; salt tc; info tc; okm tc]
                         (description (suite suite_) (case tc)))))).

End Hkdf.

Module Mac.

Record TestCase := mkTestCase { case : Case; key : list u8; msg : list u8; tag : list u8 }.

Record TestGroup := mkTestGroup {
  group : Group; key_size : Z; tag_size : Z; tests : list TestCase;
}.

Record TestSuite := mkTestSuite { suite : Suite; test_groups : list TestGroup }.

Definition generator (data : option TestSuite) (alg : string) (ks : Z) : run (list TestInfo) :=
  let! suite_ := unwrap_option data in
  let! _ := assert_ (String.eqb alg (algorithm (suite suite_))) in
  for_in (test_groups suite_) [] (fun g infos =>
    for_in (tests g) infos (fun tc infos =>
      if negb (ks =? 0)%Z && negb (key_size g =? ks)%Z then Ret infos else
      if negb (bool_decide (result_ (case tc) = Valid)) then Ret infos else
      let! _ := assert_ (Z.of_nat (length (key tc)) * 8 =? key_size g)%Z in
      let! _ := assert_ (tag_size g mod 8 =? 0)%Z in
      Ret (push infos (mkTestInfo [key tc; msg tc; tag tc]
                         (description (suite suite_) (case tc)))))).

End Mac.

(** ** [main] *)

(** [serde_json::from_slice], for each type of suite. *)
Class Parsers := {
  parse_aead : list u8 -> option Aead.TestSuite;
  parse_aes_siv : list u8 -> option AesSiv.TestSuite;
  parse_ecdsa : list u8 -> option Ecdsa.TestSuite;
  parse_ed25519 : list u8 -> option Ed25519.TestSuite;
  parse_hkdf : list u8 -> option Hkdf.TestSuite;
  parse_mac : list u8 -> option Mac.TestSuite;
}.

(** The functions that [main] picks from. *)
Inductive BlbGenerator : Set :=
  | AesGcm | ChaCha20Poly1305 | XChaCha20Poly1305 | AesSivGen | EcdsaGen | Ed25519Gen
  | HkdfGen | MacGen.

Record Algorithm := mkAlgorithm { file : string; generator : BlbGenerator }.

Definition algorithms : list (string * Algorithm) := [
  ("AES-GCM", mkAlgorithm "aes_gcm_test.json" AesGcm);
  ("AES-GCM-SIV", mkAlgorithm "aes_gcm_siv_test.json" AesGcm);
  ("CHACHA20-POLY1305", mkAlgorithm "chacha20_poly1305_test.json" ChaCha20Poly1305);
  ("XCHACHA20-POLY1305", mkAlgorithm "xchacha20_poly1305_test.json" XChaCha20Poly1305);
  ("AES-SIV-CMAC", mkAlgorithm "aes_siv_cmac_test.json" AesSivGen);
  ("AES-CMAC", mkAlgorithm "aes_cmac_test.json" MacGen);
  ("HKDF-SHA-1", mkAlgorithm "hkdf_sha1_test.json" HkdfGen);
  ("HKDF-SHA-256", mkAlgorithm "hkdf_sha256_test.json" HkdfGen);
  ("HKDF-SHA-384", mkAlgorithm "hkdf_sha384_test.json" HkdfGen);
  ("HKDF-SHA-512", mkAlgorithm "hkdf_sha512_test.json" HkdfGen);
  ("HMACSHA1", mkAlgorithm "hmac_sha1_test.json" MacGen);
  ("HMACSHA224", mkAlgorithm "hmac_sha224_test.json" MacGen);
  ("HMACSHA256", mkAlgorithm "hmac_sha256_test.json" MacGen);
  ("HMACSHA384", mkAlgorithm "hmac_sha384_test.json" MacGen);
  ("HMACSHA512", mkAlgorithm "hmac_sha512_test.json" MacGen);
  ("EDDSA", mkAlgorithm "eddsa_test.json" Ed25519Gen);
  ("secp256r1", mkAlgorithm "ecdsa_secp256r1_sha256_test.json" EcdsaGen);
  ("secp256k1", mkAlgorithm "ecdsa_secp256k1_sha256_test.json" EcdsaGen);
  ("secp384r1", mkAlgorithm "ecdsa_secp384r1_sha384_test.json" EcdsaGen)
]%string.

(** [match algorithm.as_str() { .. }]; [None] panics. *)
Definition find_algorithm (alg : string) : option Algorithm :=
  snd <$> List.find (fun e => String.eqb alg (fst e)) algorithms.

(** [(algo.generator)(&data, algorithm, key_size)] *)
Definition generate `{Parsers} (gen : BlbGenerator) (data : list u8) (alg : string) (ks : Z) :
    run (list TestInfo) :=
  match gen with
  | AesGcm => Aead.aes_gcm_generator (parse_aead data) alg ks
  | ChaCha20Poly1305 => Aead.chacha20_poly1305 (parse_aead data) alg ks
  | XChaCha20Poly1305 => Aead.xchacha20_poly1305 (parse_aead data) alg ks
  | AesSivGen => AesSiv.generator (parse_aes_siv data) alg ks
  | EcdsaGen => Ecdsa.generator (parse_ecdsa data) alg ks
  | Ed25519Gen => Ed25519.generator (parse_ed25519 data) alg ks
  | HkdfGen => Hkdf.generator (parse_hkdf data) alg ks
  | MacGen => Mac.generator (parse_mac data) alg ks
  end.

(** The digits of a number, most significant first; [None] if it is not below
    [2^32] or there is another character. *)
Fixpoint parse_digits (s : string) (n : Z) : option Z :=
  match s with
  | EmptyString => Some n
  | String c s =>
      let d := (Z.of_nat (Ascii.nat_of_ascii c) - 48)%Z in
      if ((0 <=? d) && (d <? 10) && (10 * n + d <? 2 ^ 32))%Z
      then parse_digits s (10 * n + d)%Z else None
  end.

(** [s.parse::<u32>()] *)
Definition parse_u32 (s : string) : option Z :=
  let digits := match s with String "+"%char s => s | _ => s end in
  match digits with EmptyString => None | _ => parse_digits digits 0 end.

Definition line (s : string) : list u8 := String.list_byte_of_string s ++ [10%u8].

(** [main()] on the arguments: the files written, in order. *)
Definition main `{Parsers} (fs : string -> option (list u8)) (args : list string) :
    run (list (string * list u8)) :=
  let! wycheproof_dir := unwrap_option (args !! 1) in
  let! alg := unwrap_option (args !! 2) in
  let! key_size := unwrap_option (args !! 3) in
  let! key_size := unwrap_option (parse_u32 key_size) in
  let! out_path := unwrap_option (args !! 4) in
  let! descriptions_path := unwrap_option (args !! 5) in
  let! algo := unwrap_option (find_algorithm alg) in
  let! bytes := wycheproof_data fs wycheproof_dir (file algo) in
  let! infos := generate (generator algo) bytes alg key_size in
  let txt := concat (List.map (fun info => line (desc info)) infos) in
  let blobs := concat (List.map data infos) in
  let! (blb_data, _) := encode_blobs blobs in
  Ret [(descriptions_path, txt); (out_path, blb_data)].

(** ** The tests a generator selects *)

(** The tests of the groups, in order, that satisfy [sel]. *)
Definition selected {G T} (tests : G -> list T) (sel : G -> T -> bool)
    (info : G -> T -> TestInfo) (gs : list G) : list TestInfo :=
  concat (List.map (fun g => List.map (info g) (List.filter (sel g) (tests g))) gs).

Lemma for_in_push {A B} (sel : A -> bool) (info : A -> B) (P : A -> Prop)
    (body : A -> list B -> run (list B)) l s :
  (forall x s, P x -> body x s = Ret (if sel x then push s (info x) else s)) ->
  Forall P l ->
  for_in l s body = Ret (s ++ List.map info (List.filter sel l)).
Proof.
  intros Hb Hl. revert s. induction Hl as [|x l Hx Hl IH]; intros s; simpl.
  - by rewrite app_nil_r.
  - rewrite Hb, bind_Ret, IH by done. destruct (sel x); [|done].
    unfold push. by rewrite <- app_assoc.
Qed.

Lemma for_in_app {A B} (out : A -> list B) (P : A -> Prop)
    (body : A -> list B -> run (list B)) l s :
  (forall x s, P x -> body x s = Ret (s ++ out x)) ->
  Forall P l ->
  for_in l s body = Ret (s ++ concat (List.map out l)).
Proof.
  intros Hb Hl. revert s. induction Hl as [|x l Hx Hl IH]; intros s; simpl.
  - by rewrite app_nil_r.
  - by rewrite Hb, bind_Ret, IH, <- app_assoc by done.
Qed.

(** The loop of a generator over the groups. *)
Lemma for_groups {G T} (tests : G -> list T) (sel : G -> T -> bool)
    (info : G -> T -> TestInfo) (loop : G -> list TestInfo -> run (list TestInfo))
    (P : G -> Prop) gs :
  (forall g s, P g -> loop g s = Ret (s ++ List.map (info g) (List.filter (sel g) (tests g)))) ->
  Forall P gs ->
  for_in gs [] loop = Ret (selected tests sel info gs).
Proof. intros Hb Hg. rewrite <- (app_nil_l (selected _ _ _ _)). by eapply for_in_app. Qed.

Lemma filter_none {A} (l : list A) : List.filter (fun _ => false) l = [].
Proof. by induction l. Qed.

(** The byte of the expected result: one if the operation should succeed. *)
Definition result_byte (r : CaseResult) : u8 := if decide (r = Valid) then 1%u8 else 0%u8.

Lemma case_result_ok c :
  result_ c <> Acceptable -> case_result c = Ret (result_byte (result_ c)).
Proof. unfold case_result. by destruct (result_ c). Qed.

Lemma case_result_roundtrip r : case_result_deserialize (case_result_fmt r) = Some r.
Proof. by destruct r. Qed.

(** Whether the key size of a group is asked for. *)
Definition size_selected (ks size : Z) : bool := (ks =? 0)%Z || (size =? ks)%Z.

Lemma size_skipped ks size :
  negb (ks =? 0)%Z && negb (size =? ks)%Z = negb (size_selected ks size).
Proof. unfold size_selected. by rewrite negb_orb. Qed.

Definition is_valid (c : Case) : bool := bool_decide (result_ c = Valid).

(** The tests of each generator, by module: what a group and a test need for the
    generator not to panic ([group_ok], [ok]), which tests are selected ([sel]) and
    what is written of them ([info]). *)
Module AeadSpec.
Import Aead.
Definition sel ks ivs (g : TestGroup) (tc : TestCase) : bool :=
  size_selected ks (key_size g) && (iv_size g =? ivs)%Z.
Definition ok ks ivs (g : TestGroup) (tc : TestCase) : Prop :=
  sel ks ivs g tc = true -> result_ (case tc) <> Acceptable.
Definition info s (g : TestGroup) (tc : TestCase) : TestInfo :=
  mkTestInfo [key tc; iv tc; aad tc; msg tc; ct tc ++ tag tc; [result_byte (result_ (case tc))]]
    (description s (case tc)).
End AeadSpec.

Module AesSivSpec.
Import AesSiv.
Definition sel ks (g : TestGroup) (tc : TestCase) : bool := size_selected ks (key_size g).
Definition ok ks (g : TestGroup) (tc : TestCase) : Prop :=
  sel ks g tc = true -> result_ (case tc) <> Acceptable.
Definition info s (g : TestGroup) (tc : TestCase) : TestInfo :=
  mkTestInfo [key tc; aad tc; msg tc; ct tc; [result_byte (result_ (case tc))]]
    (description s (case tc)).
End AesSivSpec.

Module EcdsaSpec.
Import Ecdsa.
Definition group_ok alg (g : TestGroup) : Prop :=
  curve (key g) = alg /\ (sha g = "SHA-256" \/ sha g = "SHA-384").
Definition sel (g : TestGroup) (tc : TestCase) : bool :=
  negb (bool_decide (result_ (case tc) = Acceptable)).
Definition info s (g : TestGroup) (tc : TestCase) : TestInfo :=
  mkTestInfo [wx (key g); wy (key g); msg tc; sig tc; [result_byte (result_ (case tc))]]
    (description s (case tc)).
End EcdsaSpec.

Module Ed25519Spec.
Import Ed25519.
Definition sel (g : TestGroup) (tc : TestCase) : bool := true.
Definition ok (g : TestGroup) (tc : TestCase) : Prop := result_ (case tc) <> Acceptable.
Definition info s (g : TestGroup) (tc : TestCase) : TestInfo :=
  mkTestInfo [sk (key g); pk (key g); msg tc; sig tc; [result_byte (result_ (case tc))]]
    (description s (case tc)).
End Ed25519Spec.

(** Tests whose [okm] does not have the announced size are selected too. *)
Module HkdfSpec.
Import Hkdf.
Definition sel (g : TestGroup) (tc : TestCase) : bool := is_valid (case tc).
Definition info s (g : TestGroup) (tc : TestCase) : TestInfo :=
  mkTestInfo [ikm tc; salt tc; Hkdf.info tc; okm tc] (description s (case tc)).
End HkdfSpec.

Module MacSpec.
Import Mac.
Definition sel ks (g : TestGroup) (tc : TestCase) : bool :=
  size_selected ks (key_size g) && is_valid (case tc).
Definition ok ks (g : TestGroup) (tc : TestCase) : Prop :=
  sel ks g tc = true ->
  (Z.of_nat (length (key tc)) * 8 = key_size g /\ tag_size g mod 8 = 0)%Z.
Definition info s (g : TestGroup) (tc : TestCase) : TestInfo :=
  mkTestInfo [key tc; msg tc; tag tc] (description s (case tc)).
End MacSpec.

(** Open a generator on a suite of its algorithm, up to the loop over the tests
    of one group. *)
Ltac open_generator Hok :=
  simpl; rewrite ?String.eqb_refl, ?assert_true, ?bind_Ret;
  eapply for_groups; [|exact Hok];
  let g := fresh "g" in let infos := fresh "infos" in let Hg := fresh "Hg" in
  intros g infos Hg; cbv beta.
Ltac open_tests Hg :=
  eapply for_in_push; [|exact Hg];
  let tc := fresh "tc" in let infos := fresh "infos" in let Hp := fresh "Hp" in
  intros tc infos Hp; cbv beta.

Lemma aead_generator_ok s gs ks ivs :
  Forall (fun g => Forall (AeadSpec.ok ks ivs g) (Aead.tests g)) gs ->
  Aead.generator (Some (Aead.mkTestSuite s gs)) (algorithm s) ks ivs
  = Ret (selected Aead.tests (AeadSpec.sel ks ivs) (AeadSpec.info s) gs).
Proof.
  intros Hok. unfold Aead.generator. open_generator Hok. open_tests Hg.
  rewrite size_skipped. unfold AeadSpec.ok, AeadSpec.sel in *.
  destruct (size_selected _ _); [|done]. destruct (_ =? ivs)%Z; [|done]. simpl in *.
  by rewrite case_result_ok by auto.
Qed.

Lemma aes_siv_generator_ok s gs ks :
  Forall (fun g => Forall (AesSivSpec.ok ks g) (AesSiv.tests g)) gs ->
  AesSiv.generator (Some (AesSiv.mkTestSuite s gs)) (algorithm s) ks
  = Ret (selected AesSiv.tests (AesSivSpec.sel ks) (AesSivSpec.info s) gs).
Proof.
  intros Hok. unfold AesSiv.generator. open_generator Hok. rewrite size_skipped.
  unfold AesSivSpec.ok, AesSivSpec.sel in *.
  destruct (size_selected _ _); simpl; [|by rewrite filter_none, app_nil_r].
  open_tests Hg. by rewrite case_result_ok by auto.
Qed.

Lemma ecdsa_generator_ok s gs alg ks :
  Forall (EcdsaSpec.group_ok alg) gs ->
  Ecdsa.generator (Some (Ecdsa.mkTestSuite s gs)) alg ks
  = Ret (selected Ecdsa.tests EcdsaSpec.sel (EcdsaSpec.info s) gs).
Proof.
  intros Hok. unfold Ecdsa.generator. open_generator Hok. destruct Hg as [-> Hs].
  rewrite String.eqb_refl, assert_true, bind_Ret.
  replace (_ || _) with true by (by destruct Hs as [-> | ->]).
  rewrite assert_true, bind_Ret.
  apply (for_in_push _ _ (fun _ => True)); [|by apply Forall_true].
  intros tc infos' _. unfold EcdsaSpec.sel. case_bool_decide; [done|]. simpl.
  by rewrite case_result_ok.
Qed.

Lemma ed25519_generator_ok s gs ks :
  Forall (fun g => Forall (Ed25519Spec.ok g) (Ed25519.tests g)) gs ->
  Ed25519.generator (Some (Ed25519.mkTestSuite s gs)) (algorithm s) ks
  = Ret (selected Ed25519.tests Ed25519Spec.sel (Ed25519Spec.info s) gs).
Proof.
  intros Hok. unfold Ed25519.generator. open_generator Hok. open_tests Hg.
  by rewrite case_result_ok.
Qed.

Lemma hkdf_generator_ok s gs ks :
  Hkdf.generator (Some (Hkdf.mkTestSuite s gs)) (algorithm s) ks
  = Ret (selected Hkdf.tests HkdfSpec.sel (HkdfSpec.info s) gs).
Proof.
  pose proof (Forall_true (fun _ : Hkdf.TestGroup => True) gs (fun _ => I)) as Hok.
  unfold Hkdf.generator. open_generator Hok.
  apply (for_in_push _ _ (fun _ => True)); [|by apply Forall_true].
  intros tc infos' _. unfold HkdfSpec.sel, is_valid. case_bool_decide; [|done]. simpl.
  by destruct (length _ =? _).
Qed.

Lemma mac_generator_ok s gs ks :
  Forall (fun g => Forall (MacSpec.ok ks g) (Mac.tests g)) gs ->
  Mac.generator (Some (Mac.mkTestSuite s gs)) (algorithm s) ks
  = Ret (selected Mac.tests (MacSpec.sel ks) (MacSpec.info s) gs).
Proof.
  intros Hok. unfold Mac.generator. open_generator Hok. open_tests Hg.
  rewrite size_skipped. unfold MacSpec.ok, MacSpec.sel, is_valid in *.
  destruct (size_selected _ _); [|done]. simpl in *.
  case_bool_decide; [|done]. simpl. destruct (Hp eq_refl) as [-> ->].
  by rewrite !Z.eqb_refl.
Qed.

(** ** Properties *)

(** C38. Each generator, on a suite of its algorithm whose selected tests have
    the form it asserts, does not panic and gives the selected tests in the order
    of the suite, each with its inputs, its outputs, the expected result and the
    description; AEAD tests are selected by key and nonce size, MAC tests by key
    size and validity, HKDF tests by validity alone: a test whose output does not
    have the announced size, which the code reports as skipped, is among them. *)
Theorem generators_correct (s : Suite) (ks ivs : Z) :
  (forall gs, Forall (fun g => Forall (AeadSpec.ok ks ivs g) (Aead.tests g)) gs ->
     Aead.generator (Some (Aead.mkTestSuite s gs)) (algorithm s) ks ivs
     = Ret (selected Aead.tests (AeadSpec.sel ks ivs) (AeadSpec.info s) gs))
  /\ (forall gs, Forall (fun g => Forall (AesSivSpec.ok ks g) (AesSiv.tests g)) gs ->
     AesSiv.generator (Some (AesSiv.mkTestSuite s gs)) (algorithm s) ks
     = Ret (selected AesSiv.tests (AesSivSpec.sel ks) (AesSivSpec.info s) gs))
  /\ (forall gs alg, Forall (EcdsaSpec.group_ok alg) gs ->
     Ecdsa.generator (Some (Ecdsa.mkTestSuite s gs)) alg ks
     = Ret (selected Ecdsa.tests EcdsaSpec.sel (EcdsaSpec.info s) gs))
  /\ (forall gs, Forall (fun g => Forall (Ed25519Spec.ok g) (Ed25519.tests g)) gs ->
     Ed25519.generator (Some (Ed25519.mkTestSuite s gs)) (algorithm s) ks
     = Ret (selected Ed25519.tests Ed25519Spec.sel (Ed25519Spec.info s) gs))
  /\ (forall gs,
     Hkdf.generator (Some (Hkdf.mkTestSuite s gs)) (algorithm s) ks
     = Ret (selected Hkdf.tests HkdfSpec.sel (HkdfSpec.info s) gs))
  /\ (forall gs, Forall (fun g => Forall (MacSpec.ok ks g) (Mac.tests g)) gs ->
     Mac.generator (Some (Mac.mkTestSuite s gs)) (algorithm s) ks
     = Ret (selected Mac.tests (MacSpec.sel ks) (MacSpec.info s) gs)).
Proof.
  split_and!; intros.
  - by apply aead_generator_ok.
  - by apply aes_siv_generator_ok.
  - by apply ecdsa_generator_ok.
  - by apply ed25519_generator_ok.
  - apply hkdf_generator_ok.
  - by apply mac_generator_ok.
Qed.

(** A suite with a valid test whose output is shorter than announced, an invalid
    test and a valid one. *)
Definition hkdf_suite : Hkdf.TestSuite :=
  let case id r := mkCase id "" r [] in
  Hkdf.mkTestSuite (mkSuite "HKDF-SHA-1" "0.8" 3 ∅)
    [Hkdf.mkTestGroup (mkGroup "HkdfTest") 128
       [Hkdf.mkTestCase (case 1%Z Valid) [11]%u8 [] [] 2 [12]%u8;
        Hkdf.mkTestCase (case 2%Z Invalid) [11]%u8 [] [] 1 [12]%u8;
        Hkdf.mkTestCase (case 3%Z Valid) [11]%u8 [1]%u8 [] 1 [14]%u8]].

#[local] Instance hkdf_parser : Parsers := {|
  parse_aead _ := None;
  parse_aes_siv _ := None;
  parse_ecdsa _ := None;
  parse_ed25519 _ := None;
  parse_hkdf bytes := match bytes with [] => None | _ => Some hkdf_suite end;
  parse_mac _ := None;
|}.

Definition mac_suite : Mac.TestSuite :=
  Mac.mkTestSuite (mkSuite "HMACSHA1" "0.8" 1 ∅)
    [Mac.mkTestGroup (mkGroup "MacTest") 16 160
       [Mac.mkTestCase (mkCase 7 "short key" Valid []) [1; 2]%u8 [3]%u8 [4]%u8]].

Lemma generators_correct_witness :
  Hkdf.generator (Some hkdf_suite) "HKDF-SHA-1" 0
  = Ret [mkTestInfo [[11]; []; []; [12]]%u8 "HKDF-SHA-1 case 1 [valid] ";
         mkTestInfo [[11]; [1]; []; [14]]%u8 "HKDF-SHA-1 case 3 [valid] "]
  /\ Mac.generator (Some mac_suite) "HMACSHA1" 0
  = Ret [mkTestInfo [[1; 2]; [3]; [4]]%u8 "HMACSHA1 case 7 [valid] short key"].
Proof.
  split.
  - destruct (generators_correct (Hkdf.suite hkdf_suite) 0 0) as (_ & _ & _ & _ & Hh & _).
    exact (Hh (Hkdf.test_groups hkdf_suite)).
  - destruct (generators_correct (Mac.suite mac_suite) 0 0) as (_ & _ & _ & _ & _ & Hm).
    apply (Hm (Mac.test_groups mac_suite)). by repeat constructor.
Defined.

(** How many blobs each generator writes for a test. *)
Definition blobs_per_test (gen : BlbGenerator) : nat :=
  match gen with
  | AesGcm | ChaCha20Poly1305 | XChaCha20Poly1305 => 6
  | AesSivGen | EcdsaGen | Ed25519Gen => 5
  | HkdfGen => 4
  | MacGen => 3
  end.

(** An invariant of the collected tests through a loop. *)
Definition all_have (n : nat) (infos : list TestInfo) : Prop :=
  Forall (fun i => length (data i) = n) infos.

Lemma all_have_push n infos i :
  all_have n infos -> length (data i) = n -> all_have n (push infos i).
Proof. intros. apply Forall_app. by repeat constructor. Qed.

(** Follow a generator: its checks, its loops, its [continue]s. *)
Ltac gen_step :=
  match goal with
  | H : mbind _ _ = Ret _ |- _ =>
      apply bind_Ret_inv in H; destruct H as (? & ? & H); cbv beta in H
  | H : for_in _ _ _ = Ret ?s |- all_have ?n ?s =>
      revert H; apply (for_in_inv (all_have n)); [intros ??? ? H; cbv beta in H|]
  | H : (if ?c then _ else _) = Ret _ |- _ => destruct c
  | H : Ret _ = Ret _ |- _ => injection H as <-
  end.

Lemma generate_all_have `{Parsers} gen bytes alg ks infos :
  generate gen bytes alg ks = Ret infos -> all_have (blobs_per_test gen) infos.
Proof.
  unfold generate, Aead.aes_gcm_generator, Aead.chacha20_poly1305, Aead.xchacha20_poly1305,
    Aead.generator, AesSiv.generator, Ecdsa.generator, Ed25519.generator, Hkdf.generator,
    Mac.generator.
  destruct gen; intros Hg;
    repeat first [done | gen_step | by apply all_have_push | by constructor].
Qed.

(** C15. [main] on arguments that name a known algorithm, whose file parses and
    passes the generator: the descriptions file has one line per selected test,
    and the other file, read back with the [BlobNIterator] for the number of blobs
    that the algorithm has per test, gives for each test, in the same order, its
    data, and then [None]. *)
Theorem main_output_readable `{Parsers} (fs : string -> option (list u8))
    (prog dir alg ks out descr : string) (rest : list string)
    (algo : Algorithm) (bytes : list u8) (k : Z) (infos : list TestInfo) :
  find_algorithm alg = Some algo -> parse_u32 ks = Some k ->
  wycheproof_data fs dir (file algo) = Ret bytes ->
  generate (generator algo) bytes alg k = Ret infos ->
  fits (concat (List.map data infos)) ->
  exists blb it,
    main fs (prog :: dir :: alg :: ks :: out :: descr :: rest)
    = Ret [(descr, concat (List.map (fun i => line (desc i)) infos)); (out, blb)]
    /\ new_n blb = Ret (Ok it)
    /\ drain (next_n (blobs_per_test (generator algo))) (length infos + 2) it
       = Ret (Some (List.map (fun i => Ok (data i)) infos)).
Proof.
  intros Ha Hk Hf Hg Hfit.
  destruct (encode_blobs_ok _ Hfit) as (idx & blb & _ & He & E).
  destruct (new_ok _ _ _ He) as (es & Hes & En). eexists blb, _.
  split; [|split; [exact En|]].
  - unfold main. simpl. rewrite Hk, Ha. simpl. rewrite Hf. simpl. rewrite Hg. simpl. by rewrite E.
  - set (n := blobs_per_test (generator algo)).
    assert (Forall (fun c => length c = n) (List.map data infos)) as Hn
      by (apply List.Forall_map; exact (generate_all_have _ _ _ _ _ Hg)).
    assert (length (concat (List.map data infos)) = length infos * n + 0) as Hlen.
    { rewrite Nat.add_0_r, <- (length_map data infos). clear -Hn.
      induction Hn; [done|]. simpl. rewrite length_app. lia. }
    assert (0 < n) as Hpos by (unfold n; destruct (generator algo); simpl; lia).
    etransitivity; [exact (drain_n_ok n idx (length infos) _ es [] 0 Hpos Hes Hlen Hpos)|].
    rewrite app_nil_r. do 2 f_equal.
    rewrite <- (app_nil_r (concat _)), <- (length_map data infos), chunks_concat by done.
    apply List.map_map.
Qed.

Lemma main_output_readable_witness :
  exists blb it,
    main (fun p => if String.eqb p "wp/testvectors/hkdf_sha1_test.json" then Some [123%u8] else None)
      ["wycheproof2blb"; "wp"; "HKDF-SHA-1"; "0"; "out.blb"; "out.txt"]
    = Ret [("out.txt", line "HKDF-SHA-1 case 1 [valid] " ++ line "HKDF-SHA-1 case 3 [valid] ");
           ("out.blb", blb)]
    /\ new_n blb = Ret (Ok it)
    /\ drain (next_n 4) 4 it
       = Ret (Some [Ok [[11]; []; []; [12]]; Ok [[11]; [1]; []; [14]]])%u8.
Proof.
  apply (main_output_readable
           (fun p => if String.eqb p "wp/testvectors/hkdf_sha1_test.json" then Some [123%u8] else None)
           "wycheproof2blb" "wp" "HKDF-SHA-1" "0" "out.blb" "out.txt" []
           (mkAlgorithm "hkdf_sha1_test.json" HkdfGen) [123%u8] 0
           [mkTestInfo [[11]; []; []; [12]]%u8 "HKDF-SHA-1 case 1 [valid] ";
            mkTestInfo [[11]; [1]; []; [14]]%u8 "HKDF-SHA-1 case 3 [valid] "]);
    [reflexivity..|].
  split; [done|by repeat constructor].
Defined.
