(* ===== verification/FiatConstify.v ===== *)
(** * [fiat-constify]: functions with output references into [const fn]

    The syntax trees of [syn] that the tool reads or builds are the inductive
    types of the first part ([main.rs] imports them); trees that it only copies
    are [ExprOther], [TypeOther], [PatOther] and [ItemOther]. The second part is
    the tool: the types [TypeRegistry] and [Outputs] and the rewriting of
    functions, down to statements and calls. The third part is what the rewriting
    promises: an evaluator of functions, in which a mutable reference is passed by
    copying the value in and out (nothing aliases a [&mut]), and the simulation of
    a program whose functions only write their outputs by the rewritten one;
    [FiatOutputs.v] reads off the text of a program that they do, and has the
    properties. *)
From Stdlib Require Import Strings.Ascii Strings.String.
From stdpp Require Import base numbers list strings gmap sorting.
From S2P Require Import Prelude.

#[local] Set Warnings "-register-all".

(** ** Syntax *)

(** The name of a variable, a type or a function. *)
Abbreviation Ident := string.

(** A [Path] is its segments. *)
Abbreviation Path := (list Ident).

Inductive UnOp : Set := Deref | Not | Neg.

Inductive Expr : Type :=
  | ExprPath (path : Path)
  | ExprLit (digits : string)
  | ExprUnary (op : UnOp) (expr : Expr)
  | ExprBinary (left : Expr) (op : string) (right : Expr)
  | ExprCast (expr : Expr) (ty : Ty)
  | ExprParen (expr : Expr)
  | ExprIndex (expr index : Expr)
  | ExprReference (mutability : bool) (expr : Expr)
  | ExprRepeat (expr len : Expr)
  | ExprTuple (elems : list Expr)
  | ExprCall (func : Expr) (args : list Expr)
  | ExprAssign (left right : Expr)
  | ExprOther (tokens : string)
with Ty : Type :=
  | TypePath (path : Path)
  | TypeArray (elem : Ty) (len : Expr)
  | TypeReference (mutability : bool) (elem : Ty)
  | TypeTuple (elems : list Ty)
  | TypeOther (tokens : string).

Inductive Pat : Type :=
  | PatIdent (mutability : bool) (ident : Ident)
  | PatType (pat : Pat) (ty : Ty)
  | PatTuple (elems : list Pat)
  | PatOther (tokens : string).

(** [Local]: a pattern and the initial value. *)
Record LocalStmt := mkLocal { pat : Pat; init : option Expr }.

Inductive Stmt : Type :=
  | StmtLocal (local : LocalStmt)
  | StmtSemi (expr : Expr)
  | StmtExpr (expr : Expr)
  | StmtItem (tokens : string).

Inductive FnArg : Type :=
  | Receiver (tokens : string)
  | Typed (pat : Pat) (ty : Ty).

Record ItemFn := mkItemFn {
  constness : bool;
  fn_ident : Ident;
  inputs : list FnArg;
  output : option Ty;
  block : list Stmt;
}.

Inductive Item : Type :=
  | ItemFn_ (func : ItemFn)
  | ItemType (ident : Ident) (ty : Ty)
  | ItemOther (tokens : string).

(** An inner attribute [#![path(values)]]. *)
Record Attribute := mkAttribute { attr_path : Path; attr_values : list Path }.

Record File := mkFile { attrs : list Attribute; items : list Item }.

(** ** Maps ordered by identifier *)

(** [BTreeMap<Ident, V>]: the entries in increasing order of the names. *)
Abbreviation BTreeMap V := (list (Ident * V)).

(** [self.insert(k, v)], with the value that was there. *)
Fixpoint insert_ {V} (m : BTreeMap V) (k : Ident) (v : V) : BTreeMap V * option V :=
  match m with
  | [] => ([(k, v)], None)
  | (k', v') :: m' =>
      match String.compare k k' with
      | Eq => ((k, v) :: m', Some v')
      | Lt => ((k, v) :: m, None)
      | Gt => let '(m', old) := insert_ m' k v in ((k', v') :: m', old)
      end
  end.

(** [self.get(k)] *)
Definition get {V} (m : BTreeMap V) (k : Ident) : option V :=
  snd <$> List.find (fun e => String.eqb k e.1) m.

(** ** The tool *)

(** [path.split("::")], from the segment [seg] read so far. *)
Fixpoint split_path (s seg : string) : list string :=
  match s with
  | String ":" (String ":" s) => seg :: split_path s EmptyString
  | String c s => split_path s (seg +:+ String c EmptyString)
  | EmptyString => [seg]
  end%char.

(** Parse a path from a double-colon-delimited string. *)
Definition build_path (path : string) : Path := split_path path EmptyString.

(** Build a toplevel attribute with the given name and values. *)
Definition build_attribute (name : string) (values : list string) : Attribute :=
  mkAttribute (build_path name) (List.map build_path values).

(** Get an [Ident] from a [Pat::Ident]. *)
Definition get_ident_from_pat (pat : Pat) : run Ident :=
  match pat with
  | PatIdent _ ident => Ret ident
  | _ => Panic
  end.

Definition TypeRegistry := BTreeMap Ty.

(** Add a type to the type registry. *)
Definition registry_add (self : TypeRegistry) (ident : Ident) (ty : Ty) : run TypeRegistry :=
  let '(self, old) := insert_ self ident ty in
  match old with Some _ => Panic | None => Ret self end.

(** Get a type from the registry by its ident. *)
Definition registry_get (self : TypeRegistry) (ident : Ident) : option Ty := get self ident.

Definition Outputs := BTreeMap Ty.

(** Add an output variable with the given name and type. *)
Definition outputs_add (self : Outputs) (name : Ident) (ty : Ty) : run Outputs :=
  let '(self, old) := insert_ self name ty in
  match old with Some _ => Panic | None => Ret self end.

Definition zero : Expr := ExprLit "0".

(** [default_for], down at most [fuel] aliases; [None] when they run out. *)
Fixpoint default_for_fuel (fuel : nat) (ty : Ty) (registry : TypeRegistry) : option (run Expr) :=
  match fuel with
  | 0 => None
  | S fuel =>
      match ty with
      | TypeArray _ len => Some (Ret (ExprRepeat zero len))
      | TypePath [ident] =>
          match registry_get registry ident with
          | Some registry_ty => default_for_fuel fuel registry_ty registry
          | None =>
              Some (if bool_decide (ident ∈ ["u8"; "u32"; "u64"]) then Ret zero else Panic)
          end
      | _ => Some Panic
      end
  end.

(** Get a default value for the given type. Aliases that do not end overflow the
    stack: the process stops. *)
Definition default_for (ty : Ty) (registry : TypeRegistry) : run Expr :=
  default Panic (default_for_fuel (S (length registry)) ty registry).

(** One [let mut out: Ty = <zero>] binding. *)
Definition let_binding (registry : TypeRegistry) (output : Ident * Ty) : run Stmt :=
  let '(ident, ty) := output in
  let! value := default_for ty registry in
  Ret (StmtLocal (mkLocal (PatType (PatIdent true ident) ty) (Some value))).

Fixpoint to_let_bindings (self : Outputs) (registry : TypeRegistry) : run (list Stmt) :=
  match self with
  | [] => Ret []
  | output :: self =>
      let! stmt := let_binding registry output in
      let! stmts := to_let_bindings self registry in
      Ret (stmt :: stmts)
  end.

(** Finish annotating outputs. *)
Definition to_return_type (self : Outputs) : run (option Ty) :=
  match List.map snd self with
  | [] => Panic
  | [ty] => Ret (Some ty)
  | tys => Ret (Some (TypeTuple tys))
  end.

(** Generate the return value for the statement as a tuple of the outputs. *)
Definition to_return_value (self : Outputs) : Stmt :=
  match List.map (fun output => ExprPath [output.1]) self with
  | [elem] => StmtExpr elem
  | elems => StmtExpr (ExprTuple elems)
  end.

(** The arguments of a call: those kept, and the patterns of the outputs. *)
Fixpoint split_args (args : list Expr) : run (list Expr * list Pat) :=
  match args with
  | [] => Ret ([], [])
  | ExprReference true expr :: args =>
      match expr with
      | ExprPath [ident] =>
          let! (args, output) := split_args args in
          Ret (args, PatIdent false ident :: output)
      | _ => Panic
      end
  | arg :: args =>
      let! (args, output) := split_args args in Ret (arg :: args, output)
  end.

(** Rewrite a function call, removing the mutable reference arguments and
    let-binding return values for them instead. *)
Definition rewrite_fn_call (func : Expr) (args : list Expr) : run LocalStmt :=
  let! (args, output) := split_args args in
  Ret (mkLocal (PatTuple output) (Some (ExprCall func args))).

(** Rewrite an expression in the function body. *)
Definition rewrite_fn_stmt (stmt : Stmt) : run Stmt :=
  match stmt with
  | StmtSemi (ExprAssign (ExprUnary Deref expr) value) => Ret (StmtSemi (ExprAssign expr value))
  | StmtSemi (ExprCall func args) =>
      let! local := rewrite_fn_call func args in Ret (StmtLocal local)
  | _ => Ret stmt
  end.

Fixpoint rewrite_fn_stmts (stmts : list Stmt) : run (list Stmt) :=
  match stmts with
  | [] => Ret []
  | stmt :: stmts =>
      let! stmt := rewrite_fn_stmt stmt in
      let! stmts := rewrite_fn_stmts stmts in
      Ret (stmt :: stmts)
  end.

(** Rewrite the function body. *)
Definition rewrite_fn_body (statements : list Stmt) (outputs : Outputs)
    (registry : TypeRegistry) : run (list Stmt) :=
  let! bindings := to_let_bindings outputs registry in
  let! stmts := rewrite_fn_stmts statements in
  Ret (bindings ++ stmts ++ [to_return_value outputs]).

(** Take the mutable references out of the arguments of a function, into
    [outputs]. *)
Fixpoint split_inputs (args : list FnArg) (outputs : Outputs) : run (list FnArg * Outputs) :=
  match args with
  | [] => Ret ([], outputs)
  | Typed pat (TypeReference true elem) :: args =>
      let! name := get_ident_from_pat pat in
      let! outputs := outputs_add outputs name elem in
      split_inputs args outputs
  | arg :: args =>
      let! (inputs, outputs) := split_inputs args outputs in Ret (arg :: inputs, outputs)
  end.

(** Rewrite a fiat-crypto generated [fn] as a [const fn]. *)
Definition rewrite_fn_as_const (func : ItemFn) (registry : TypeRegistry) : run ItemFn :=
  let! (inputs, outputs) := split_inputs (inputs func) [] in
  let! output := to_return_type outputs in
  let! block := rewrite_fn_body (block func) outputs registry in
  Ret (mkItemFn true (fn_ident func) inputs output block).

(** Iterate over the items, transforming the functions. *)
Fixpoint rewrite_items (items : list Item) (registry : TypeRegistry) : run (list Item) :=
  match items with
  | [] => Ret []
  | ItemFn_ func :: items =>
      let! func := rewrite_fn_as_const func registry in
      let! items := rewrite_items items registry in
      Ret (ItemFn_ func :: items)
  | ItemType ident ty :: items =>
      let! registry := registry_add registry ident ty in
      let! items := rewrite_items items registry in
      Ret (ItemType ident ty :: items)
  | ItemOther tokens :: items =>
      let! items := rewrite_items items registry in Ret (ItemOther tokens :: items)
  end.

Inductive MainError : Set := IoError | SynError.

Definition lints : list string := [
  "clippy::identity_op"; "clippy::unnecessary_cast"; "dead_code";
  "rustdoc::broken_intra_doc_links"; "unused_assignments"; "unused_mut"; "unused_variables"
].

(** The attribute that is printed before the tree, [#![doc = ..]]. *)
Definition doc_line : string :=
  let quote := String (Ascii.ascii_of_nat 34) EmptyString in
  "#![doc = " +:+ quote
  +:+ " fiat-crypto output postprocessed by fiat-constify: https://github.com/rustcrypto/utils"
  +:+ quote +:+ "]".

(** [main()] on the arguments: the line and the tree that are printed. [read_to_string]
    is the file system, [parse_file] the parser of [syn]. *)
Definition main (read_to_string : string -> option string) (parse_file : string -> option File)
    (args : list string) : run (result (string * File) MainError) :=
  let! _ := assert_ (length args =? 2) in
  let! path := index args 1 in
  let? code := Ret (ok_or (read_to_string path) IoError) in
  let? ast := Ret (ok_or (parse_file code) SynError) in
  let attrs := attrs ast ++ [build_attribute "allow" lints] in
  let! items := rewrite_items (items ast) [] in
  Ret (Ok (doc_line, mkFile attrs items)).

(** ** What programs compute *)

(** Integers, arrays and tuples; [()] is the empty tuple. *)
Inductive Value : Type :=
  | VInt (z : Z)
  | VArray (vs : list Value)
  | VTuple (vs : list Value).

(** What a name stands for: a value of its own (or shared), or a place of the
    caller behind a mutable reference. *)
Inductive Binding : Type :=
  | Own (v : Value)
  | MutRef (v : Value).

Definition value_of (b : Binding) : Value := match b with Own v | MutRef v => v end.

Abbreviation Env := (gmap Ident Binding).

(** The operators and conversions of Rust, the literals, and the values of the
    types. *)
Class Operators := {
  literal : string -> option Value;
  unary : UnOp -> Value -> option Value;
  binary : string -> Value -> Value -> option Value;
  cast : Ty -> Value -> option Value;
  has_type : Ty -> Value -> bool;
}.

Definition as_index (v : Value) : option nat :=
  match v with VInt z => if (0 <=? z)%Z then Some (Z.to_nat z) else None | _ => None end.

Definition element (v : Value) (i : nat) : option Value :=
  match v with VArray vs => vs !! i | _ => None end.

Section semantics.
Context `{Operators}.

(** The value of an expression without calls; indexing goes through references,
    and only an explicit [*x] reads all of a mutable reference. *)
Fixpoint eval (e : Env) (expr : Expr) : option Value :=
  match expr with
  | ExprPath [x] => match e !! x with Some (Own v) => Some v | _ => None end
  | ExprLit digits => literal digits
  | ExprUnary Deref (ExprPath [x]) =>
      match e !! x with Some (MutRef v) => Some v | _ => None end
  | ExprUnary Deref _ => None
  | ExprUnary op a => va ← eval e a; unary op va
  | ExprBinary a op b => va ← eval e a; vb ← eval e b; binary op va vb
  | ExprCast a ty => va ← eval e a; cast ty va
  | ExprParen a => eval e a
  | ExprIndex a i =>
      va ← match a with ExprPath [x] => value_of <$> e !! x | _ => eval e a end;
      vi ← eval e i; k ← as_index vi; element va k
  | ExprReference false a => eval e a
  | ExprRepeat a len =>
      va ← eval e a; vn ← eval e len; n ← as_index vn; Some (VArray (replicate n va))
  | ExprTuple elems =>
      let fix go (elems : list Expr) : option (list Value) :=
        match elems with
        | [] => Some []
        | a :: elems => va ← eval e a; vs ← go elems; Some (va :: vs)
        end in
      VTuple <$> go elems
  | _ => None
  end.

(** Assignment to a place. *)
Definition assign (e : Env) (lhs : Expr) (v : Value) : option Env :=
  match lhs with
  | ExprPath [x] => match e !! x with Some (Own _) => Some (<[x := Own v]> e) | _ => None end
  | ExprUnary Deref (ExprPath [x]) =>
      match e !! x with Some (MutRef _) => Some (<[x := MutRef v]> e) | _ => None end
  | ExprIndex (ExprPath [x]) i =>
      vi ← eval e i; k ← as_index vi;
      match e !! x with
      | Some (Own (VArray vs)) =>
          if k <? length vs then Some (<[x := Own (VArray (<[k := v]> vs))]> e) else None
      | Some (MutRef (VArray vs)) =>
          if k <? length vs then Some (<[x := MutRef (VArray (<[k := v]> vs))]> e) else None
      | _ => None
      end
  | _ => None
  end.

(** Binding a pattern; [(p)] is [p]. *)
Fixpoint bind_pat (e : Env) (p : Pat) (v : Value) : option Env :=
  match p with
  | PatIdent _ x => Some (<[x := Own v]> e)
  | PatType p _ => bind_pat e p v
  | PatTuple [p] => bind_pat e p v
  | PatTuple ps =>
      let fix go (e : Env) (ps : list Pat) (vs : list Value) : option Env :=
        match ps, vs with
        | [], [] => Some e
        | p :: ps, v :: vs => e ← bind_pat e p v; go e ps vs
        | _, _ => None
        end in
      match v with VTuple vs => go e ps vs | _ => None end
  | PatOther _ => None
  end.

(** An argument: whether it is a mutable reference, and its value. *)
Definition eval_arg (e : Env) (arg : Expr) : option (bool * Value) :=
  match arg with
  | ExprReference true a => pair true <$> eval e a
  | a => pair false <$> eval e a
  end.

(** The variables lent to a call. *)
Definition lent (args : list Expr) : list Ident :=
  omap (fun arg => match arg with ExprReference true (ExprPath [x]) => Some x | _ => None end) args.

(** The values that a call leaves in the variables lent to it. *)
Fixpoint write_back (e : Env) (xs : list Ident) (vs : list Value) : option Env :=
  match xs, vs with
  | [], [] => Some e
  | x :: xs, v :: vs => e ← assign e (ExprPath [x]) v; write_back e xs vs
  | _, _ => None
  end.

(** Functions by name: from the arguments to what is left behind the mutable
    references and the value returned. *)
Context (call : Ident -> list (bool * Value) -> option (list Value * Value)).

(** A call in an environment: the environment after it, and its value. *)
Definition exec_call (e : Env) (func : Expr) (args : list Expr) : option (Env * Value) :=
  match func with
  | ExprPath [f] =>
      vs ← mapM (eval_arg e) args;
      '(outs, v) ← call f vs;
      e ← write_back e (lent args) outs;
      Some (e, v)
  | _ => None
  end.

Definition exec_stmt (e : Env) (stmt : Stmt) : option Env :=
  match stmt with
  | StmtLocal (mkLocal p (Some (ExprCall func args))) =>
      '(e, v) ← exec_call e func args; bind_pat e p v
  | StmtLocal (mkLocal p (Some a)) => v ← eval e a; bind_pat e p v
  | StmtSemi (ExprAssign lhs a) => v ← eval e a; assign e lhs v
  | StmtSemi (ExprCall func args) => fst <$> exec_call e func args
  | _ => None
  end.

(** A block: the environment at the end, and its value. *)
Fixpoint exec_block (e : Env) (stmts : list Stmt) : option (Env * Value) :=
  match stmts with
  | [] => Some (e, VTuple [])
  | [StmtExpr a] => pair e <$> eval e a
  | stmt :: stmts => e ← exec_stmt e stmt; exec_block e stmts
  end.

End semantics.

(** The parameters of a function: names, and whether a mutable reference. *)
Definition param (arg : FnArg) : option (Ident * bool) :=
  match arg with
  | Typed (PatIdent _ x) (TypeReference true _) => Some (x, true)
  | Typed (PatIdent _ x) _ => Some (x, false)
  | _ => None
  end.

Definition bind_param (p : Ident * bool) (a : bool * Value) : option (Ident * Binding) :=
  if Bool.eqb p.2 a.1 then Some (p.1, if p.2 then MutRef a.2 else Own a.2) else None.

Fixpoint bind_params (ps : list (Ident * bool)) (vs : list (bool * Value)) :
    option (list (Ident * Binding)) :=
  match ps, vs with
  | [], [] => Some []
  | p :: ps, v :: vs => b ← bind_param p v; bs ← bind_params ps vs; Some (b :: bs)
  | _, _ => None
  end.

(** The value behind a mutable reference. *)
Definition behind (e : Env) (x : Ident) : option Value :=
  match e !! x with Some (MutRef v) => Some v | _ => None end.

Definition out_params (ps : list (Ident * bool)) : list Ident := (List.filter snd ps).*1.

Definition find_fn (fns : list ItemFn) (f : Ident) : option ItemFn :=
  List.find (fun fn => String.eqb f (fn_ident fn)) fns.

(** The arguments are of the types of the parameters. *)
Fixpoint args_typed `{Operators} (ins : list FnArg) (args : list (bool * Value)) : bool :=
  match ins, args with
  | [], [] => true
  | Typed _ (TypeReference true ty) :: ins, (true, v) :: args => has_type ty v && args_typed ins args
  | Typed _ ty :: ins, (false, v) :: args =>
      negb (match ty with TypeReference true _ => true | _ => false end)
      && has_type ty v && args_typed ins args
  | _, _ => false
  end.

(** A call of the function [f] of a program, down at most [depth] calls. *)
Fixpoint run_fn `{Operators} (fns : list ItemFn) (depth : nat) (f : Ident)
    (args : list (bool * Value)) : option (list Value * Value) :=
  match depth with
  | 0 => None
  | S depth =>
      fn ← find_fn fns f;
      guard (args_typed (inputs fn) args = true);;
      ps ← mapM param (inputs fn);
      bs ← bind_params ps args;
      '(e, v) ← exec_block (run_fn fns depth) (list_to_map bs) (block fn);
      outs ← mapM (behind e) (out_params ps);
      Some (outs, v)
  end.

(** ** What the tool is made for *)

(** No expression reads all of a mutable reference. *)
Fixpoint deref_free (expr : Expr) : bool :=
  match expr with
  | ExprUnary Deref _ => false
  | ExprUnary _ a | ExprCast a _ | ExprParen a | ExprReference _ a => deref_free a
  | ExprBinary a _ b | ExprIndex a b | ExprRepeat a b => deref_free a && deref_free b
  | ExprTuple elems => forallb deref_free elems
  | _ => true
  end.

(** The statements that [fiat-crypto] writes: bindings of expressions,
    assignments, and calls that write to local variables. *)
Definition fiat_stmt (stmt : Stmt) : bool :=
  match stmt with
  | StmtLocal (mkLocal _ (Some (ExprCall _ _))) => false
  | StmtLocal (mkLocal _ (Some a)) => deref_free a
  | StmtSemi (ExprAssign (ExprIndex _ i) a) => deref_free i && deref_free a
  | StmtSemi (ExprAssign _ a) => deref_free a
  | StmtSemi (ExprCall _ args) =>
      forallb (fun arg => match arg with ExprReference true _ => true | a => deref_free a end) args
  | _ => false
  end.

(** The parameters that become outputs. *)
Definition out_param (arg : FnArg) : option (Ident * Ty) :=
  match arg with
  | Typed (PatIdent _ x) (TypeReference true ty) => Some (x, ty)
  | _ => None
  end.

Definition is_output (arg : FnArg) : bool :=
  match arg with Typed _ (TypeReference true _) => true | _ => false end.

Definition before (x y : Ident) : Prop := String.compare x y = Lt.

(** The outputs are declared in the order of their names, parameters have
    different names, and the body has such statements only. *)
Definition fiat_fn (fn : ItemFn) : Prop :=
  StronglySorted before (omap out_param (inputs fn)).*1
  /\ NoDup (omap param (inputs fn)).*1
  /\ forallb fiat_stmt (block fn) = true.

(** The functions of a file, each with the types declared before it. *)
Fixpoint functions (items : list Item) (registry : TypeRegistry) : list (ItemFn * TypeRegistry) :=
  match items with
  | [] => []
  | ItemFn_ fn :: items => (fn, registry) :: functions items registry
  | ItemType ident ty :: items => functions items (insert_ registry ident ty).1
  | ItemOther _ :: items => functions items registry
  end.

Definition plain_args (args : list (bool * Value)) : list (bool * Value) :=
  List.filter (fun a => negb a.1) args.

(** The value of a [const fn] with the given outputs. *)
Definition returned (outs : list Value) : Value :=
  match outs with [v] => v | _ => VTuple outs end.

(** The arguments, with the values [zs] behind the mutable references. *)
Fixpoint set_outs (args : list (bool * Value)) (zs : list Value) : list (bool * Value) :=
  match args, zs with
  | (true, _) :: args, z :: zs => (true, z) :: set_outs args zs
  | (true, v) :: args, [] => (true, v) :: set_outs args []
  | (false, v) :: args, zs => (false, v) :: set_outs args zs
  | [], _ => []
  end.

Section promise.
Context `{Operators}.

(** The value of the tool's default for a type. *)
Definition zero_value (registry : TypeRegistry) (ty : Ty) : option Value :=
  match default_for ty registry with Ret a => eval ∅ a | _ => None end.

(** A function only writes its outputs: starting from the defaults instead of
    what was there, it gives the same. *)
Definition writes_outputs (fns : list ItemFn) (fn : ItemFn) (registry : TypeRegistry) : Prop :=
  exists zs, mapM (zero_value registry) (omap out_param (inputs fn)).*2 = Some zs
  /\ forall depth args r,
       run_fn fns depth (fn_ident fn) args = Some r ->
       run_fn fns depth (fn_ident fn) (set_outs args zs) = Some r.

Definition fiat_program (program : list (ItemFn * TypeRegistry)) : Prop :=
  Forall (fun p => fiat_fn p.1 /\ writes_outputs program.*1 p.1 p.2) program.

End promise.

(** ** Ordered maps *)

Lemma insert_last {V} (m : BTreeMap V) k v :
  Forall (fun x => before x k) m.*1 -> insert_ m k v = (m ++ [(k, v)], None).
Proof.
  induction m as [|[k' v'] m IH]; intros Hm; [done|]. simpl in *.
  apply Forall_cons_1 in Hm as [Hk Hm]. unfold before in Hk.
  rewrite String.compare_antisym, Hk. simpl. by rewrite IH.
Qed.

Lemma before_irrefl x : ~ before x x.
Proof.
  unfold before. intros Hx. pose proof (String.compare_antisym x x) as Ha.
  by rewrite Hx in Ha.
Qed.

Lemma sorted_NoDup l : StronglySorted before l -> NoDup l.
Proof.
  induction 1 as [|x l Hl IH Hx]; constructor; [|done].
  intros Hin. by apply (before_irrefl x), (proj1 (Forall_forall _ _) Hx).
Qed.

#[export] Instance before_trans : Transitive before.
Proof.
  assert (forall x y, before x y <-> String.le x y /\ x <> y) as Hle.
  { intros x y. unfold before, String.le, String.leb.
    destruct (String.compare x y) eqn:E; simpl; (split; [intros Hc|intros [Hc Hn]]); try done.
    - by apply String.compare_eq_iff in E.
    - split; [done|]. intros ->. by apply (before_irrefl y). }
  intros x y z. rewrite !Hle. intros [Hxy Hn] [Hyz Hn']. split; [by etrans|].
  intros ->. by apply Hn, (anti_symm String.le).
Qed.

(** Inserting keeps the entries and their order; the key was there or not. *)
Lemma insert_spec {V} (m : BTreeMap V) k v :
  StronglySorted before m.*1 ->
  let '(m', old) := insert_ m k v in
  StronglySorted before m'.*1 /\ (forall x, x ∈ m'.*1 <-> x = k \/ x ∈ m.*1)
  /\ (old = None <-> k ∉ m.*1) /\ (old = None -> m' ≡ₚ (k, v) :: m).
Proof.
  induction m as [|[k' v'] m IH]; intros Hm.
  { simpl. split_and!; [by repeat constructor| |by split; [intros _; apply not_elem_of_nil|]|done].
    intros x. rewrite list_elem_of_singleton. split; [by left|]. intros [->|Hx]; [done|].
    by apply elem_of_nil in Hx. }
  apply StronglySorted_inv in Hm as [Hm Hall]. specialize (IH Hm). simpl in *.
  destruct (String.compare k k') eqn:E.
  - apply String.compare_eq_iff in E as ->. simpl. split_and!; [by constructor|set_solver| |done].
    split; [done|]. intros Hn. destruct Hn. left.
  - simpl. split_and!; [|set_solver| |done].
    + constructor; [by constructor|]. constructor; [done|].
      eapply Forall_impl; [exact Hall|]. intros y Hy. by etrans; [exact E|].
    + split; [intros _|done]. apply not_elem_of_cons. split; [intros ->; by apply (before_irrefl k')|].
      intros Hin. apply (before_irrefl k). etrans; [exact E|]. by apply (proj1 (Forall_forall _ _) Hall).
  - destruct (insert_ m k v) as [m' old]. destruct IH as (IH1 & IH2 & IH3 & IH4). simpl.
    assert (before k' k) as E' by (unfold before; by rewrite String.compare_antisym, E).
    split_and!.
    + constructor; [done|]. apply Forall_forall. intros y [->|Hy]%IH2; [done|].
      by apply (proj1 (Forall_forall _ _) Hall).
    + intros x. rewrite !elem_of_cons, IH2. tauto.
    + rewrite IH3, not_elem_of_cons. split; [|tauto]. intros Hn. split; [|done].
      intros ->. by apply (before_irrefl k').
    + intros Ho. rewrite (IH4 Ho). apply perm_swap.
Qed.

(** ** Simulation *)

Section simulation.
Context `{Operators}.

(** The second environment owns whatever the first one has. *)
Definition owns (e e' : Env) : Prop :=
  forall x b, e !! x = Some b -> e' !! x = Some (Own (value_of b)).

Lemma owns_insert e e' x b v :
  owns e e' -> value_of b = v -> owns (<[x := b]> e) (<[x := Own v]> e').
Proof.
  intros He <- y c Hy. destruct (decide (x = y)) as [->|Hn].
  - rewrite lookup_insert_eq in *. by simplify_eq.
  - rewrite lookup_insert_ne in * by done. by apply He.
Qed.

(** An expression does not read all of a mutable reference of the environment. *)
Definition reads_no_ref (e : Env) (expr : Expr) : Prop :=
  forall x v, e !! x = Some (MutRef v) -> deref_free expr = true.

Lemma reads_no_ref_and e a b (c : Expr) :
  deref_free c = deref_free a && deref_free b ->
  reads_no_ref e c -> reads_no_ref e a /\ reads_no_ref e b.
Proof.
  intros Hc Hr. split; intros x v Hx; specialize (Hr x v Hx);
    rewrite Hc in Hr; by apply andb_true_iff in Hr as [? ?].
Qed.

(** Take the value of a part of an expression to the second environment. *)
Ltac eval_part IH :=
  match goal with
  | Hv : (eval ?e ?a ≫= _) = Some _ |- _ =>
      let w := fresh "w" in let Ha := fresh "Ha" in
      apply bind_Some in Hv as (w & Ha & Hv); cbv beta in Hv;
      rewrite (IH a w) by done; cbn [mbind option_bind]
  end.

Lemma eval_owns e e' expr v :
  owns e e' -> reads_no_ref e expr -> eval e expr = Some v -> eval e' expr = Some v.
Proof.
  intros He. revert expr v. fix IH 1. intros expr v Hd.
  destruct expr as [path|d|op a|a op b|a ty|a|a i|[] a|a n|elems|f args|l r|t];
    simpl; intros Hv; try done.
  - destruct path as [|x []]; try done. destruct (e !! x) as [[w|w]|] eqn:Hx; simplify_eq.
    by rewrite (He _ _ Hx).
  - destruct op; [|by eval_part IH..].
    destruct a as [[|x []]| | | | | | | | | | | |]; try done.
    destruct (e !! x) as [[w|w]|] eqn:Hx; simplify_eq. by specialize (Hd _ _ Hx).
  - destruct (reads_no_ref_and e a b (ExprBinary a op b) eq_refl Hd). by do 2 eval_part IH.
  - by eval_part IH.
  - by apply IH.
  - destruct (reads_no_ref_and e a i (ExprIndex a i) eq_refl Hd) as [Hda Hdi].
    apply bind_Some in Hv as (w & Ha & Hv). pose proof (fun w => IH a w Hda) as IHa.
    assert (match a with ExprPath [x] => value_of <$> e' !! x | _ => eval e' a end = Some w) as ->.
    { destruct a as [[|x []]| | | | | | | | | | | |]; try by apply IHa.
      apply fmap_Some in Ha as (b & Hx & ->). by rewrite (He _ _ Hx). }
    cbn [mbind option_bind]. by eval_part IH.
  - by apply IH.
  - destruct (reads_no_ref_and e a n (ExprRepeat a n) eq_refl Hd). by do 2 eval_part IH.
  - apply fmap_Some in Hv as (vs & Hvs & ->). apply fmap_Some. exists vs. split; [|done].
    revert vs Hvs. induction elems as [|a elems IHl]; intros vs Hvs; [done|].
    destruct (reads_no_ref_and e a (ExprTuple elems) (ExprTuple (a :: elems)) eq_refl Hd) as [Hda Hdb].
    eval_part IH. apply bind_Some in Hvs as (ws & Hws & Hvs). by rewrite (IHl Hdb ws).
Qed.

Lemma eval_owned e e' expr v :
  owns e e' -> deref_free expr = true -> eval e expr = Some v -> eval e' expr = Some v.
Proof. intros He Hd. by apply eval_owns; [|intros ??]. Qed.

(** An assignment, and what the tool makes of its left side. *)
Definition rewrite_lhs (lhs : Expr) : Expr :=
  match lhs with ExprUnary Deref a => a | _ => lhs end.

Lemma assign_owns e e' lhs v e1 :
  owns e e' ->
  (forall a i, lhs = ExprIndex a i -> deref_free i = true) ->
  assign e lhs v = Some e1 ->
  exists e1', assign e' (rewrite_lhs lhs) v = Some e1' /\ owns e1 e1'.
Proof.
  intros He Hd Ha. destruct lhs as [path| |op a| | | |a i| | | | | |]; try done.
  - destruct path as [|x []]; try done. simpl in *.
    destruct (e !! x) as [[w|w]|] eqn:Hx; simplify_eq. rewrite (He _ _ Hx).
    eexists. split; [done|by apply owns_insert].
  - destruct op; try done. destruct a as [[|x []]| | | | | | | | | | | |]; try done. simpl in *.
    destruct (e !! x) as [[w|w]|] eqn:Hx; simplify_eq. rewrite (He _ _ Hx).
    eexists. split; [done|by apply owns_insert].
  - destruct a as [[|x []]| | | | | | | | | | | |]; try done. simpl in *.
    apply bind_Some in Ha as (vi & Hi & Ha). rewrite (eval_owned _ _ _ _ He (Hd _ _ eq_refl) Hi).
    simpl. destruct (as_index vi) as [k|]; simpl in *; [|done].
    destruct (e !! x) as [b|] eqn:Hx; [|done]. rewrite (He _ _ Hx).
    destruct b as [[|vs|]|[|vs|]]; simpl in *; try done; destruct (k <? length vs); simplify_eq;
      (eexists; split; [done|by apply owns_insert]).
Qed.

Lemma bind_pat_owns p e e' v e1 :
  owns e e' -> bind_pat e p v = Some e1 ->
  exists e1', bind_pat e' p v = Some e1' /\ owns e1 e1'.
Proof.
  revert p e e' v e1. fix IH 1. intros [m x|p ty|ps|t] e e' v e1 He Hb; simpl in *; try done.
  - simplify_eq. eexists. split; [done|by apply owns_insert].
  - by eapply IH.
  - assert (forall vs e e' e1, owns e e' ->
      (fix go (e : Env) (ps : list Pat) (vs : list Value) : option Env :=
        match ps, vs with
        | [], [] => Some e
        | p :: ps, v :: vs => e ← bind_pat e p v; go e ps vs
        | _, _ => None
        end) e ps vs = Some e1 ->
      exists e1',
      (fix go (e : Env) (ps : list Pat) (vs : list Value) : option Env :=
        match ps, vs with
        | [], [] => Some e
        | p :: ps, v :: vs => e ← bind_pat e p v; go e ps vs
        | _, _ => None
        end) e' ps vs = Some e1' /\ owns e1 e1') as Hgo.
    { clear Hb. induction ps as [|p ps IHps]; intros [|w vs] d d' d1 Hd Hg; try done.
      - simplify_eq. eauto.
      - apply bind_Some in Hg as (d2 & Hp & Hg).
        destruct (IH p d d' w d2 Hd Hp) as (d2' & -> & Hd2). by eapply IHps. }
    destruct ps as [|p [|p' ps]].
    + destruct v as [| |vs]; try done. by apply (Hgo vs e).
    + by eapply IH.
    + destruct v as [| |vs]; try done. by apply (Hgo vs e).
Qed.

(** *** Calls *)

Lemma split_args_ok args args' output :
  split_args args = Ret (args', output) ->
  output = List.map (PatIdent false) (lent args)
  /\ args' = List.filter (fun a => match a with ExprReference true _ => false | _ => true end) args.
Proof.
  revert args' output. induction args as [|a args IH]; intros args' output Hs; simpl in *;
    [by simplify_eq|].
  assert ((exists b, a = ExprReference true b) \/
          (match a with ExprReference true _ => false | _ => true end = true /\
           (let! (args, output) := split_args args in Ret (a :: args, output)) = Ret (args', output)))
    as [[b ->]|[Ha Hs']] by (destruct a as [| | | | | | |[]| | | | |]; eauto).
  - destruct b as [[|x []]| | | | | | | | | | | |]; try done.
    apply bind_Ret_inv in Hs as ([args1 out1] & E & Hs). simplify_eq.
    destruct (IH _ _ E) as [-> ->]. done.
  - apply bind_Ret_inv in Hs' as ([args1 out1] & E & Hs'). simplify_eq.
    destruct (IH _ _ E) as [-> ->]. destruct a as [| | | | | | |[]| | | | |]; done.
Qed.

Definition kept (arg : Expr) : bool :=
  match arg with ExprReference true _ => false | _ => true end.

Definition fiat_arg (arg : Expr) : bool :=
  match arg with ExprReference true _ => true | a => deref_free a end.

Lemma kept_args_owns e e' args vs :
  owns e e' -> forallb fiat_arg args = true -> mapM (eval_arg e) args = Some vs ->
  mapM (eval_arg e') (List.filter kept args) = Some (plain_args vs).
Proof.
  intros He Hf Hm. apply mapM_Some in Hm. apply mapM_Some.
  induction Hm as [|a v args vs Hv Hm IH]; [done|]. simpl in *.
  apply andb_true_iff in Hf as [Ha Hf]. specialize (IH Hf).
  destruct (kept a) eqn:Hk.
  - assert (eval_arg e a = pair false <$> eval e a) as E
      by (destruct a as [| | | | | | |[]| | | | |]; done).
    assert (eval_arg e' a = pair false <$> eval e' a) as E'
      by (destruct a as [| | | | | | |[]| | | | |]; done).
    rewrite E in Hv. apply fmap_Some in Hv as (w & Hw & ->). constructor; [|done].
    rewrite E', (eval_owned _ _ a w He); [done| |done].
    by destruct a as [| | | | | | |[]| | | | |].
  - destruct a as [| | | | | | |[] b| | | | |]; try done. simpl in Hv.
    by apply fmap_Some in Hv as (w & Hw & ->).
Qed.

Lemma no_lent args : lent (List.filter kept args) = [].
Proof.
  induction args as [|a args IH]; [done|]. simpl.
  by destruct a as [| | | | | | |[]| | | | |].
Qed.

(** Writing the outputs of a call back is binding them. *)
Lemma write_back_owns xs outs e e' e1 :
  owns e e' -> write_back e xs outs = Some e1 ->
  exists e1', bind_pat e' (PatTuple (List.map (PatIdent false) xs)) (returned outs) = Some e1'
    /\ owns e1 e1'.
Proof.
  assert (forall xs outs e e' e1, owns e e' -> write_back e xs outs = Some e1 ->
    exists e1',
    (fix go (e : Env) (ps : list Pat) (vs : list Value) : option Env :=
        match ps, vs with
        | [], [] => Some e
        | p :: ps, v :: vs => e ← bind_pat e p v; go e ps vs
        | _, _ => None
        end) e' (List.map (PatIdent false) xs) outs = Some e1' /\ owns e1 e1') as Hgo.
  { clear. intros xs. induction xs as [|x xs IH]; intros [|v outs] e e' e1 He Hw; try done.
    - simpl in *. simplify_eq. eauto.
    - apply bind_Some in Hw as (e2 & Ha & Hw). simpl in Ha.
      destruct (e !! x) as [[w|w]|]; simplify_eq.
      apply (IH outs (<[x := Own v]> e)); [by apply owns_insert|done]. }
  intros He Hw. destruct (Hgo xs outs e e' e1 He Hw) as (e1' & Hb & Ho).
  exists e1'. split; [|done]. destruct xs as [|x [|y xs]], outs as [|v [|w outs]]; try done.
Qed.

(** *** Statements *)

Context (call call' : Ident -> list (bool * Value) -> option (list Value * Value)).
Hypothesis call_ok : forall f vs outs v,
  call f vs = Some (outs, v) -> call' f (plain_args vs) = Some ([], returned outs).

Lemma exec_stmt_owns e e' stmt stmt' e1 :
  owns e e' -> fiat_stmt stmt = true -> rewrite_fn_stmt stmt = Ret stmt' ->
  exec_stmt call e stmt = Some e1 ->
  exists e1', exec_stmt call' e' stmt' = Some e1' /\ owns e1 e1'.
Proof.
  intros He Hf Hr Hx. destruct stmt as [[p [a|]]|a|a|t]; try done.
  - assert (fiat_stmt (StmtLocal (mkLocal p (Some a))) = deref_free a
            /\ forall call e, exec_stmt call e (StmtLocal (mkLocal p (Some a)))
                             = v ← eval e a; bind_pat e p v) as [Hd E] by (by destruct a).
    rewrite Hd in Hf. simpl in Hr. simplify_eq. rewrite E in Hx |- *.
    apply bind_Some in Hx as (v & Hv & Hb). rewrite (eval_owned _ _ _ _ He Hf Hv).
    by apply (bind_pat_owns p e).
  - destruct a as [| | | | | | | | | |f args|lhs a|]; try done.
    + simpl in Hr. unfold rewrite_fn_call in Hr.
      apply bind_Ret_inv in Hr as (? & Hc & Hr).
      apply bind_Ret_inv in Hc as ([args' output] & Hs & Hc). simplify_eq.
      destruct (split_args_ok _ _ _ Hs) as [-> ->]. simpl in Hx |- *. unfold exec_call in *.
      destruct f as [[|f []]| | | | | | | | | | | |]; try done.
      apply fmap_Some in Hx as ([e2 v] & Hx & ->).
      apply bind_Some in Hx as (vs & Hvs & Hx). apply bind_Some in Hx as ([outs w] & Hc & Hx).
      apply bind_Some in Hx as (e3 & Hw & Hx). simplify_eq. simpl.
      pose proof (kept_args_owns _ _ _ _ He Hf Hvs) as E. unfold kept in E. rewrite E. simpl.
      rewrite (call_ok _ _ _ _ Hc). simpl.
      pose proof (no_lent args) as El. unfold kept in El. rewrite El. simpl.
      by apply (write_back_owns _ _ e).
    + assert (stmt' = StmtSemi (ExprAssign (rewrite_lhs lhs) a)) as ->
        by (destruct lhs as [| |[] ?| | | | | | | | | |]; simpl in Hr; by simplify_eq).
      simpl in Hx |- *. apply bind_Some in Hx as (v & Hv & Ha).
      assert (deref_free a = true /\ forall b i, lhs = ExprIndex b i -> deref_free i = true)
        as [Hda Hdi].
      { split; [|intros b i ->]; simpl in Hf; [|apply andb_true_iff in Hf; tauto].
        destruct lhs; try done. apply andb_true_iff in Hf. tauto. }
      rewrite (eval_owned _ _ _ _ He Hda Hv). by apply (assign_owns e).
Qed.

Lemma exec_block_owns stmts stmts' rest e e' e1 v :
  owns e e' -> forallb fiat_stmt stmts = true -> rewrite_fn_stmts stmts = Ret stmts' ->
  exec_block call e stmts = Some (e1, v) ->
  exists e1', owns e1 e1'
    /\ exec_block call' e' (stmts' ++ rest) = exec_block call' e1' rest.
Proof.
  revert stmts' e e'. induction stmts as [|stmt stmts IH]; intros stmts' e e' He Hf Hr Hx.
  - simpl in *. simplify_eq. eauto.
  - simpl in Hf, Hr. apply andb_true_iff in Hf as [Hs Hf].
    apply bind_Ret_inv in Hr as (stmt' & Hr & Hrs). apply bind_Ret_inv in Hrs as (stmts1 & Hrs & E).
    simplify_eq.
    assert (exec_block call e (stmt :: stmts) = e ← exec_stmt call e stmt; exec_block call e stmts)
      as E by (destruct stmt; done).
    rewrite E in Hx. apply bind_Some in Hx as (e2 & Hx & Hxs).
    destruct (exec_stmt_owns _ _ _ _ _ He Hs Hr Hx) as (e2' & Hx' & Ho).
    destruct (IH _ _ _ Ho Hf Hrs Hxs) as (e1' & Ho1 & E1). exists e1'. split; [done|].
    rewrite <- E1, <- app_comm_cons.
    destruct stmt'; try done; simpl in Hx' |- *; by rewrite Hx'.
Qed.
End simulation.

(** *** Parameters *)

Lemma split_inputs_ok args outs0 ins outs :
  StronglySorted before (outs0 ++ omap out_param args).*1 ->
  split_inputs args outs0 = Ret (ins, outs) ->
  outs = outs0 ++ omap out_param args
  /\ ins = List.filter (fun a => negb (is_output a)) args.
Proof.
  revert outs0 ins. induction args as [|a args IH]; intros outs0 ins Hs Hr; simpl in *.
  { simplify_eq. by rewrite app_nil_r. }
  assert ((exists p ty, a = Typed p (TypeReference true ty)) \/
          (out_param a = None /\ is_output a = false /\
           (let! (inputs, outputs) := split_inputs args outs0 in Ret (a :: inputs, outputs))
           = Ret (ins, outs)))
    as [(p & ty & ->)|(Ha & Hi & Hr')].
  { destruct a as [t|p [pa|el le|[] ty|tys|tk]]; simpl in *; eauto 10.
    all: right; split_and!; [by destruct p|done|done]. }
  - destruct p as [m x| | |]; try done. simpl in *. unfold outputs_add in Hr.
    rewrite insert_last in Hr; [|rewrite fmap_app in Hs; apply StronglySorted_app in Hs as (Hb & _ & _)].
    + simpl in Hr. apply IH in Hr; [by rewrite <- app_assoc in Hr|by rewrite <- app_assoc].
    + apply Forall_forall. intros y Hy. apply (Hb y x Hy). left.
  - rewrite Ha in Hs |- *. rewrite Hi. apply bind_Ret_inv in Hr' as ([ins1 outs1] & E & Hr').
    simplify_eq. by destruct (IH _ _ Hs E) as [-> ->].
Qed.

Lemma params_ok args ps :
  mapM param args = Some ps ->
  mapM param (List.filter (fun a => negb (is_output a)) args)
    = Some (List.filter (fun p => negb p.2) ps)
  /\ out_params ps = (omap out_param args).*1 /\ omap param args = ps.
Proof.
  intros Hm. apply mapM_Some in Hm. rewrite mapM_Some. unfold out_params.
  induction Hm as [|a p args ps Hp Hm (IH1 & IH2 & IH3)]; [done|]. simpl. rewrite Hp.
  destruct a as [|[m x| | |] ty]; simpl in Hp; try done.
  destruct ty as [| |[]| |]; simplify_eq; simpl; (split_and!; [|by f_equal..|by f_equal]);
    try done; by constructor.
Qed.

Definition is_own (b : Ident * Binding) : bool :=
  match b.2 with Own _ => true | MutRef _ => false end.

Lemma bind_params_ok ps vs bs :
  bind_params ps vs = Some bs ->
  bs.*1 = ps.*1
  /\ bind_params (List.filter (fun p => negb p.2) ps) (plain_args vs)
     = Some (List.filter is_own bs).
Proof.
  revert vs bs. induction ps as [|[x m] ps IH]; intros [|[n v] vs] bs Hb; try done;
    simpl in Hb; [by simplify_eq|].
  apply bind_Some in Hb as (b & Hp & Hb). apply bind_Some in Hb as (bs1 & Hbs & Hb). simplify_eq.
  destruct (IH _ _ Hbs) as [IH1 IH2]. unfold bind_param in Hp. simpl in Hp.
  destruct (Bool.eqb m n) eqn:E; [|done]. apply eqb_prop in E as ->. simplify_eq.
  split; [simpl; by f_equal|]. destruct n; simpl; [done|]. by rewrite IH2.
Qed.

(** A parameter is by value or by reference. *)
Lemma own_param_distinct ps vs bs x v :
  NoDup bs.*1 -> bind_params ps vs = Some bs -> (x, Own v) ∈ bs -> (x, true) ∉ ps.
Proof.
  revert vs bs. induction ps as [|[y m] ps IH]; intros [|[n w] vs] bs Hd Hb Hin Hp;
    try by apply elem_of_nil in Hp.
  { done. }
  simpl in Hb.
  apply bind_Some in Hb as (b & Hpa & Hb). apply bind_Some in Hb as (bs1 & Hbs & Hb). simplify_eq.
  destruct (bind_params_ok _ _ _ Hbs) as [Hn _]. simpl in Hd. apply NoDup_cons in Hd as [Hy Hd].
  assert (b.1 = y) as Hby by (unfold bind_param in Hpa; simpl in Hpa;
    destruct (Bool.eqb m n); simplify_eq; done). subst y.
  apply elem_of_cons in Hin as [<-|Hin]; apply elem_of_cons in Hp as [Hp|Hp]; simplify_eq; simpl in *.
  - by destruct n.
  - apply Hy. change (x ∈ bs1.*1). rewrite Hn. apply list_elem_of_fmap. by exists (x, true).
  - apply Hy. exact (list_elem_of_fmap_2 fst _ _ Hin).
  - by eapply IH.
Qed.

(** What is behind the mutable references, when the arguments are set. *)
Lemma bind_params_set_outs ps vs zs bs x v :
  bind_params ps (set_outs vs zs) = Some bs -> length zs = length (out_params ps) ->
  (x, MutRef v) ∈ bs -> (x, v) ∈ zip (out_params ps) zs.
Proof.
  revert vs zs bs. unfold out_params.
  induction ps as [|[y m] ps IH]; intros vs zs bs Hb Hl Hin.
  { simpl in Hb. destruct (set_outs vs zs); simplify_eq. by apply elem_of_nil in Hin. }
  destruct vs as [|[n w] vs]; [by destruct zs|].
  assert (exists a bs1, bs = (y, if m then MutRef a else Own a) :: bs1
            /\ if m then exists zs1, zs = a :: zs1 /\ bind_params ps (set_outs vs zs1) = Some bs1
               else bind_params ps (set_outs vs zs) = Some bs1) as (a & bs1 & -> & Hbs).
  { destruct n; [destruct zs as [|z zs]|]; simpl in Hb;
      apply bind_Some in Hb as (b & Hp & Hb); apply bind_Some in Hb as (bs1 & Hbs & Hb);
      unfold bind_param in *; destruct m; simpl in *; simplify_eq; eauto 10; lia. }
  destruct m; simpl in *.
  - destruct Hbs as (zs1 & -> & Hbs). simpl in *.
    apply elem_of_cons in Hin as [Hin|Hin]; [simplify_eq; left|right].
    apply (IH _ _ _ Hbs); [by injection Hl|done].
  - apply elem_of_cons in Hin as [Hin|Hin]; [done|]. by apply (IH _ _ _ Hbs).
Qed.

(** *** The bindings and the value that the tool adds *)

Section functions.
Context `{Operators}.

Fixpoint own_all (e : Env) (l : list (Ident * Value)) : Env :=
  match l with
  | [] => e
  | (x, v) :: l => own_all (<[x := Own v]> e) l
  end.

Lemma own_all_notin e l x : x ∉ l.*1 -> own_all e l !! x = e !! x.
Proof.
  revert e. induction l as [|[y v] l IH]; intros e Hx; simpl in *; [done|].
  apply not_elem_of_cons in Hx as [Hn Hx]. rewrite IH by done. by apply lookup_insert_ne.
Qed.

Lemma own_all_in e l x v : NoDup l.*1 -> (x, v) ∈ l -> own_all e l !! x = Some (Own v).
Proof.
  revert e. induction l as [|[y w] l IH]; intros e Hd Hin; [by apply elem_of_nil in Hin|].
  simpl in *. apply NoDup_cons in Hd as [Hy Hd].
  apply elem_of_cons in Hin as [Hin|Hin]; [simplify_eq|by apply IH].
  rewrite own_all_notin by done. apply lookup_insert_eq.
Qed.

Lemma owns_empty e : owns ∅ e.
Proof. intros x b Hx. by rewrite lookup_empty in Hx. Qed.

Lemma eval_closed e expr v : eval ∅ expr = Some v -> eval e expr = Some v.
Proof. apply eval_owns; [apply owns_empty|]. intros x w Hx. by rewrite lookup_empty in Hx. Qed.

Lemma exec_let_bindings call registry outs zs bindings e rest :
  to_let_bindings outs registry = Ret bindings ->
  mapM (zero_value registry) outs.*2 = Some zs ->
  exec_block call e (bindings ++ rest) = exec_block call (own_all e (zip outs.*1 zs)) rest.
Proof.
  intros Hb Hz. apply mapM_Some in Hz. revert zs bindings e Hb Hz.
  induction outs as [|[x ty] outs IH]; intros zs bindings e Hb Hz; simpl in *.
  { by simplify_eq. }
  apply bind_Ret_inv in Hb as (stmt & Hs & Hb). apply bind_Ret_inv in Hb as (stmts & Hr & Hb).
  apply bind_Ret_inv in Hs as (a & Ha & Hs). simplify_eq.
  apply Forall2_cons_inv_l in Hz as (v & zs1 & Hv & Hz & ->).
  unfold zero_value in Hv. rewrite Ha in Hv. apply (eval_closed e) in Hv.
  rewrite <- app_comm_cons. simpl.
  assert (exists d, a = ExprLit d \/ exists n, a = ExprRepeat (ExprLit d) n) as [d Hd].
  { unfold default_for in Ha. clear -Ha. revert Ha. generalize (S (length registry)) as fuel.
    intros fuel. revert ty. induction fuel as [|fuel IHf]; intros ty Ha; [done|].
    destruct ty as [[|i []]|el le| | |]; simpl in Ha; try done.
    - destruct (registry_get registry i); [by apply (IHf t)|].
      destruct (bool_decide _); simpl in Ha; [|done]. unfold zero in Ha. simplify_eq. eauto.
    - unfold zero in Ha. simplify_eq. eauto. }
  assert (exec_stmt call e (StmtLocal (mkLocal (PatType (PatIdent true x) ty) (Some a)))
          = Some (<[x := Own v]> e)) as E.
  { assert (exec_stmt call e (StmtLocal (mkLocal (PatType (PatIdent true x) ty) (Some a)))
            = v ← eval e a; bind_pat e (PatType (PatIdent true x) ty) v) as ->
      by (by destruct Hd as [->|[n ->]]).
    by rewrite Hv. }
  simpl in E |- *. rewrite E. by apply IH.
Qed.

Lemma exec_return_value call e outs vs :
  Forall2 (fun x v => e !! x = Some (Own v)) outs.*1 vs ->
  exec_block call e [to_return_value outs] = Some (e, returned vs).
Proof.
  intros Hv.
  assert (forall (outs : Outputs) vs, Forall2 (fun x v => e !! x = Some (Own v)) outs.*1 vs ->
    (fix go (elems : list Expr) : option (list Value) :=
        match elems with
        | [] => Some []
        | a :: elems => va ← eval e a; vs ← go elems; Some (va :: vs)
        end) (List.map (fun output => ExprPath [output.1]) outs) = Some vs) as Hgo.
  { clear. induction outs as [|[x ty] outs IH]; intros vs Hv.
    - by apply Forall2_nil_inv_l in Hv as ->.
    - apply Forall2_cons_inv_l in Hv as (v & vs1 & Hx & Hv & ->). simpl in *.
      by rewrite Hx, (IH vs1 Hv). }
  destruct outs as [|[x ty] [|o outs]].
  - apply Forall2_nil_inv_l in Hv as ->. done.
  - apply Forall2_cons_inv_l in Hv as (v & vs1 & Hx & Hv & ->).
    apply Forall2_nil_inv_l in Hv as ->. simpl. simpl in Hx. by rewrite Hx.
  - specialize (Hgo _ _ Hv). apply Forall2_length in Hv as Hl.
    unfold to_return_value. simpl List.map in Hgo |- *. simpl. simpl in Hgo. rewrite Hgo.
    by destruct vs as [|v [|w vs]].
Qed.

(** *** Functions *)

Definition constified (p : ItemFn * TypeRegistry) (fn' : ItemFn) : Prop :=
  rewrite_fn_as_const p.1 p.2 = Ret fn'.

Lemma rewrite_items_functions items registry items' :
  rewrite_items items registry = Ret items' ->
  Forall2 constified (functions items registry) (functions items' registry).*1.
Proof.
  revert registry items'. induction items as [|[fn|x ty|t] items IH]; intros registry items' Hr;
    simpl in Hr; simplify_eq; [constructor|..].
  - apply bind_Ret_inv in Hr as (fn' & Hf & Hr). apply bind_Ret_inv in Hr as (is' & Hi & Hr).
    simplify_eq. constructor; [done|by apply IH].
  - apply bind_Ret_inv in Hr as (reg' & Hf & Hr). apply bind_Ret_inv in Hr as (is' & Hi & Hr).
    simplify_eq. simpl. unfold registry_add in Hf. destruct (insert_ registry x ty) as [m old].
    destruct old; simplify_eq. by apply IH.
  - apply bind_Ret_inv in Hr as (is' & Hi & Hr). simplify_eq. simpl. by apply IH.
Qed.

Lemma constified_ident p fn' : constified p fn' -> fn_ident fn' = fn_ident p.1.
Proof.
  unfold constified, rewrite_fn_as_const. intros Hc.
  apply bind_Ret_inv in Hc as ([ins outs] & _ & Hc). apply bind_Ret_inv in Hc as (ty & _ & Hc).
  apply bind_Ret_inv in Hc as (body & _ & Hc). by simplify_eq.
Qed.

Lemma find_fn_constified program fns' f fn :
  Forall2 constified program fns' -> find_fn program.*1 f = Some fn ->
  exists registry fn', (fn, registry) ∈ program /\ fn_ident fn = f
    /\ find_fn fns' f = Some fn' /\ constified (fn, registry) fn'.
Proof.
  induction 1 as [|[g reg] fn' program fns' Hc Hp IH]; intros Hf; [done|].
  unfold find_fn in *. simpl in *. rewrite (constified_ident _ _ Hc). simpl.
  destruct (String.eqb_spec f (fn_ident g)) as [->|Hn].
  - simplify_eq. exists reg, fn'. split_and!; [left|done..].
  - destruct (IH Hf) as (reg' & fn'' & Hin & Hx). exists reg', fn''. split; [by right|done].
Qed.

(** The environments in which the two bodies start. *)
Lemma start_owns ps bs zs args :
  NoDup ps.*1 -> bind_params ps (set_outs args zs) = Some bs ->
  length zs = length (out_params ps) ->
  owns (list_to_map bs)
    (own_all (list_to_map (List.filter is_own bs)) (zip (out_params ps) zs)).
Proof.
  intros Hd Hb Hl x b Hx. destruct (bind_params_ok _ _ _ Hb) as [Hn _].
  assert (NoDup (out_params ps)) as Hdo by (by apply (NoDup_map_filter fst)).
  rewrite <- Hn in Hd. apply elem_of_list_to_map_2 in Hx as Hin. destruct b as [v|v]; simpl.
  - assert ((x, Own v) ∈ List.filter is_own bs) as Hin' by (by apply elem_of_filter_b).
    rewrite own_all_notin.
    + apply elem_of_list_to_map_1; [|done]. by apply (NoDup_map_filter fst).
    + rewrite fst_zip by lia. unfold out_params. intros Ho.
      apply list_elem_of_fmap in Ho as ([y m] & -> & Ho). apply elem_of_filter_b in Ho as [Ho Hm].
      simpl in Hm. subst m. by apply (own_param_distinct ps _ bs y v Hd Hb Hin).
  - apply own_all_in; [by rewrite fst_zip by lia|]. by eapply bind_params_set_outs.
Qed.

(** One function, whose callees are right. *)
Lemma constified_fn call call' fn registry fn' args zs bs e v outs :
  (forall f vs outs v, call f vs = Some (outs, v) ->
     call' f (plain_args vs) = Some ([], returned outs)) ->
  constified (fn, registry) fn' -> fiat_fn fn ->
  mapM (zero_value registry) (omap out_param (inputs fn)).*2 = Some zs ->
  forall ps, mapM param (inputs fn) = Some ps ->
  bind_params ps (set_outs args zs) = Some bs ->
  exec_block call (list_to_map bs) (block fn) = Some (e, v) ->
  mapM (behind e) (out_params ps) = Some outs ->
  exists ps' e', mapM param (inputs fn') = Some ps' /\ out_params ps' = []
    /\ bind_params ps' (plain_args (set_outs args zs)) = Some (List.filter is_own bs)
    /\ exec_block call' (list_to_map (List.filter is_own bs)) (block fn')
       = Some (e', returned outs).
Proof.
  intros Hcall Hc (Hs & Hd & Hf) Hz ps Hps Hbs Hx Hout.
  unfold constified, rewrite_fn_as_const in Hc. simpl in Hc.
  apply bind_Ret_inv in Hc as ([ins outs'] & Hi & Hc). apply bind_Ret_inv in Hc as (ty & _ & Hc).
  apply bind_Ret_inv in Hc as (body & Hbody & Hc). simplify_eq. simpl.
  unfold rewrite_fn_body in Hbody.
  apply bind_Ret_inv in Hbody as (bindings & Hb & Hbody).
  apply bind_Ret_inv in Hbody as (stmts & Hstmts & Hbody). simplify_eq.
  apply split_inputs_ok in Hi as [-> ->]; [|done]. simpl app in *.
  destruct (params_ok _ _ Hps) as (Hps' & Ho & Hom). rewrite Hom in Hd.
  destruct (bind_params_ok _ _ _ Hbs) as [_ Hbs'].
  assert (length zs = length (out_params ps)) as Hl.
  { rewrite Ho. apply mapM_Some, Forall2_length in Hz. rewrite <- Hz. by rewrite !length_fmap. }
  pose proof (start_owns ps bs zs args Hd Hbs Hl) as Hown.
  destruct (exec_block_owns call call' Hcall _ _ [to_return_value (omap out_param (inputs fn))]
              _ _ _ _ Hown Hf Hstmts Hx) as (e' & Ho' & E).
  exists (List.filter (fun p => negb p.2) ps), e'. split_and!; [done| |done|].
  - unfold out_params. clear. induction ps as [|[x []] ps IH]; simpl; done.
  - rewrite (exec_let_bindings _ _ _ _ _ _ _ Hb Hz), <- Ho, E. apply exec_return_value.
    rewrite <- Ho. apply mapM_Some in Hout. eapply Forall2_impl; [exact Hout|].
    intros x w Hx'. unfold behind in Hx'. destruct (e !! x) as [[|]|] eqn:Hb'; simplify_eq.
    by rewrite (Ho' _ _ Hb').
Qed.

Lemma constified_inputs fn registry fn' :
  constified (fn, registry) fn' -> fiat_fn fn ->
  inputs fn' = List.filter (fun a => negb (is_output a)) (inputs fn).
Proof.
  unfold constified, rewrite_fn_as_const. simpl. intros Hc [Hs _].
  apply bind_Ret_inv in Hc as ([ins outs] & Hi & Hc). apply bind_Ret_inv in Hc as (ty & _ & Hc).
  apply bind_Ret_inv in Hc as (body & _ & Hc). simplify_eq.
  by apply split_inputs_ok in Hi as [_ ->].
Qed.

Lemma plain_set_outs args zs : plain_args (set_outs args zs) = plain_args args.
Proof.
  revert zs. induction args as [|[[] v] args IH]; intros zs; simpl; [done|..].
  - by destruct zs; simpl.
  - unfold plain_args in *. simpl. by rewrite IH.
Qed.

Lemma args_typed_plain ins args :
  args_typed ins args = true ->
  args_typed (List.filter (fun a => negb (is_output a)) ins) (plain_args args) = true.
Proof.
  revert args. induction ins as [|a ins IH]; intros args Ht; [by destruct args|].
  destruct args as [|[n v] args]; [by destruct a as [|p [pa|el le|[] ty|tys|tk]]|].
  destruct a as [|p ty]; [done|].
  destruct n, ty as [pa|el le|[] ty|tys|tk]; simpl in *; try done;
    apply andb_true_iff in Ht as [Hv Ht]; rewrite ?Hv; by apply IH.
Qed.

Lemma constified_call program fns' depth f args outs v :
  Forall2 constified program fns' -> fiat_program program ->
  run_fn program.*1 depth f args = Some (outs, v) ->
  run_fn fns' depth f (plain_args args) = Some ([], returned outs).
Proof.
  intros Hc Hp. revert f args outs v. induction depth as [|depth IH]; intros f args outs v Hr;
    [done|].
  assert (exists fn, find_fn program.*1 f = Some fn) as [fn Hfn]
    by (simpl in Hr; destruct (find_fn program.*1 f); [by eexists|done]).
  destruct (find_fn_constified _ _ _ _ Hc Hfn) as (registry & fn' & Hin & Hid & Hfn' & Hcn).
  pose proof (proj1 (Forall_forall _ _) Hp _ Hin) as [Hfiat (zs & Hz & Hw)]. simpl in Hfiat, Hz, Hw.
  rewrite Hid in Hw. apply Hw in Hr. simpl in Hr |- *. rewrite Hfn in Hr. rewrite Hfn'.
  simpl in Hr |- *. case_guard as Hty; [|done]. simpl in Hr.
  apply bind_Some in Hr as (ps & Hps & Hr).
  apply bind_Some in Hr as (bs & Hbs & Hr). apply bind_Some in Hr as ([e w] & Hx & Hr).
  apply bind_Some in Hr as (outs1 & Ho & Hr). simplify_eq.
  destruct (constified_fn (run_fn program.*1 depth) (run_fn fns' depth) fn registry fn' args zs bs e v outs)
    with (ps := ps) as (ps' & e' & -> & Hout & Hb & Hx'); [exact IH|exact Hcn|exact Hfiat|exact Hz|exact Hps|exact Hbs|exact Hx|exact Ho|].
  apply args_typed_plain in Hty. rewrite plain_set_outs in Hty, Hb.
  rewrite <- (constified_inputs _ _ _ Hcn Hfiat) in Hty.
  rewrite option_guard_True by done. simpl. rewrite Hb. simpl. rewrite Hx'. simpl. by rewrite Hout.
Qed.
End functions.

(** ** Defaults *)

(** What a type resolves to, through [n] aliases. *)
Inductive resolves (registry : TypeRegistry) : nat -> Ty -> Expr -> Prop :=
  | resolves_array elem len : resolves registry 0 (TypeArray elem len) (ExprRepeat zero len)
  | resolves_int ident :
      registry_get registry ident = None -> ident ∈ ["u8"; "u32"; "u64"] ->
      resolves registry 0 (TypePath [ident]) zero
  | resolves_alias n ident ty a :
      registry_get registry ident = Some ty -> resolves registry n ty a ->
      resolves registry (S n) (TypePath [ident]) a.

Lemma resolves_fun registry n m ty a b :
  resolves registry n ty a -> resolves registry m ty b -> n = m /\ a = b.
Proof.
  intros Hn. revert m b. induction Hn as [elem len|ident Hg Hi|n ident ty a Hg Hn IH];
    intros m b Hm; inversion Hm; simplify_eq; try done.
  destruct (IH _ _ ltac:(eassumption)) as [-> ->]. done.
Qed.

Lemma get_key {V} (m : BTreeMap V) k v : get m k = Some v -> k ∈ m.*1.
Proof.
  unfold get. intros Hg. apply fmap_Some in Hg as ([k' v'] & Hf & ->).
  apply List.find_some in Hf as [Hin Hk]. apply String.eqb_eq in Hk as ->.
  apply list_elem_of_In in Hin. exact (list_elem_of_fmap_2 fst _ _ Hin).
Qed.

(** Aliases on the way are distinct, hence at most as many as the registry has. *)
Lemma resolves_bound registry n ty a : resolves registry n ty a -> n <= length registry.
Proof.
  intros Hr.
  assert (exists l, length l = n /\ NoDup l /\ forall x, x ∈ l -> exists k ty',
            k < n /\ registry_get registry x = Some ty' /\ resolves registry k ty' a)
    as (l & <- & Hd & Hl).
  { induction Hr as [elem len|ident Hg Hi|n ident ty a Hg Hn (l & <- & Hd & Hl)];
      [exists []; split_and!; [done|constructor|by intros x Hx%elem_of_nil]..|].
    exists (ident :: l). split_and!; [done| |].
    - constructor; [|done]. intros Hin. destruct (Hl _ Hin) as (k & ty' & Hk & Hg' & Hr').
      simplify_eq. destruct (resolves_fun _ _ _ _ _ _ Hn Hr'). lia.
    - intros x [->|Hx]%elem_of_cons; [by exists (length l), ty; split; [simpl; lia|]|].
      destruct (Hl _ Hx) as (k & ty' & Hk & Hx'). exists k, ty'. split; [simpl; lia|done]. }
  rewrite <- (length_fmap fst registry). apply NoDup_length_le; [done|].
  intros x Hx. destruct (Hl x Hx) as (k & ty' & _ & Hg & _). by apply get_key in Hg.
Qed.

Lemma default_for_fuel_resolves registry fuel ty a :
  default_for_fuel fuel ty registry = Some (Ret a) -> exists n, resolves registry n ty a.
Proof.
  revert ty. induction fuel as [|fuel IH]; intros ty Hd; [done|].
  destruct ty as [[|i []]|el le| | |]; simpl in Hd; try done.
  - destruct (registry_get registry i) as [ty|] eqn:Hg.
    + destruct (IH _ Hd) as [n Hn]. eauto using resolves.
    + case_bool_decide; [|done]. simplify_eq. eauto using resolves.
  - simplify_eq. eauto using resolves.
Qed.

Lemma resolves_default_for_fuel registry n ty a fuel :
  resolves registry n ty a -> n < fuel -> default_for_fuel fuel ty registry = Some (Ret a).
Proof.
  intros Hr. revert fuel. induction Hr as [elem len|ident Hg Hi|n ident ty a Hg Hn IH];
    intros [|fuel] Hf; try lia; simpl; [done| |].
  - rewrite Hg, bool_decide_true by done. done.
  - rewrite Hg. apply IH. lia.
Qed.

(** ** When the tool rewrites a function *)

(** Calls lend variables only. *)
Definition lends_variables (stmt : Stmt) : Prop :=
  forall func args a, stmt = StmtSemi (ExprCall func args) ->
    ExprReference true a ∈ args -> exists x, a = ExprPath [x].

(** There is an output; outputs are identifiers with distinct names, of types
    with a default. *)
Definition rewritable (fn : ItemFn) (registry : TypeRegistry) : Prop :=
  Forall (fun a => is_output a = true -> is_Some (out_param a)) (inputs fn)
  /\ NoDup (omap out_param (inputs fn)).*1
  /\ omap out_param (inputs fn) <> []
  /\ Forall (fun o => exists n a, resolves registry n o.2 a) (omap out_param (inputs fn))
  /\ Forall lends_variables (block fn).

(** Inputs that are not outputs pass, the others become outputs by name. *)
Lemma split_inputs_spec args outs0 :
  StronglySorted before outs0.*1 ->
  match split_inputs args outs0 with
  | Ret (ins, outs) =>
      ins = List.filter (fun a => negb (is_output a)) args
      /\ StronglySorted before outs.*1 /\ outs ≡ₚ outs0 ++ omap out_param args
      /\ Forall (fun a => is_output a = true -> is_Some (out_param a)) args
  | _ => ~ (Forall (fun a => is_output a = true -> is_Some (out_param a)) args
            /\ NoDup (outs0 ++ omap out_param args).*1)
  end.
Proof.
  revert outs0. induction args as [|a args IH]; intros outs0 Hs; simpl.
  { split_and!; [done|done|by rewrite app_nil_r|constructor]. }
  assert ((exists p ty, a = Typed p (TypeReference true ty)) \/
          (out_param a = None /\ is_output a = false /\
           split_inputs (a :: args) outs0
           = (let! (inputs, outputs) := split_inputs args outs0 in Ret (a :: inputs, outputs))))
    as [(p & ty & ->)|(Ha & Hi & E)].
  { destruct a as [t|p [pa|el le|[] ty|tys|tk]]; eauto 10.
    all: right; split_and!; [by destruct p|done|done]. }
  - destruct p as [m x| | |]; simpl.
    2-4: intros [Hf _]; apply Forall_cons_1 in Hf as [Hf _]; by destruct (Hf eq_refl).
    unfold outputs_add. pose proof (insert_spec outs0 x ty Hs) as Hspec.
    destruct (insert_ outs0 x ty) as [m' old]. destruct Hspec as (Hs' & _ & Ho & Hp).
    destruct old as [old|]; simpl.
    + intros [_ Hd]. rewrite fmap_app in Hd. apply NoDup_app in Hd as (_ & Hd & _).
      assert (x ∉ outs0.*1) as Hx; [|by apply Ho in Hx].
      intros Hx. apply (Hd x Hx). left.
    + specialize (IH m' Hs'). specialize (Hp eq_refl).
      assert (m' ++ omap out_param args ≡ₚ outs0 ++ (x, ty) :: omap out_param args) as Hp'
        by (rewrite Hp; simpl; apply Permutation_middle).
      destruct (split_inputs args m') as [[ins outs]| |].
      * destruct IH as (-> & Hso & Hpo & Hf). split_and!; [done|done| |by constructor].
        by rewrite Hpo.
      * intros [Hf Hd]. apply IH. apply Forall_cons_1 in Hf as [_ Hf]. split; [done|].
        by rewrite Hp'.
      * intros [Hf Hd]. apply IH. apply Forall_cons_1 in Hf as [_ Hf]. split; [done|].
        by rewrite Hp'.
  - change (match split_inputs (a :: args) outs0 with
            | Ret (ins, outs) => ins = List.filter (fun a => negb (is_output a)) (a :: args)
                /\ StronglySorted before outs.*1 /\ outs ≡ₚ outs0 ++ omap out_param (a :: args)
                /\ Forall (fun a => is_output a = true -> is_Some (out_param a)) (a :: args)
            | _ => ~ (Forall (fun a => is_output a = true -> is_Some (out_param a)) (a :: args)
                      /\ NoDup (outs0 ++ omap out_param (a :: args)).*1)
            end).
    rewrite E. simpl. rewrite Ha, Hi. specialize (IH outs0 Hs).
    destruct (split_inputs args outs0) as [[ins outs]| |]; simpl.
    + destruct IH as (-> & ? & ? & ?). split_and!; [done..|]. constructor; [by rewrite Hi|done].
    + intros [Hf Hd]. apply IH. by apply Forall_cons_1 in Hf as [_ Hf].
    + intros [Hf Hd]. apply IH. by apply Forall_cons_1 in Hf as [_ Hf].
Qed.

Lemma split_args_total args :
  (exists r, split_args args = Ret r)
  <-> forall a, ExprReference true a ∈ args -> exists x, a = ExprPath [x].
Proof.
  induction args as [|b args IH]; simpl.
  { split; [by intros _ a Hin%elem_of_nil|by eauto]. }
  assert ((exists c, b = ExprReference true c) \/
          ((forall c, b <> ExprReference true c) /\
           split_args (b :: args)
           = (let! (args, output) := split_args args in Ret (b :: args, output))))
    as [[c ->]|[Hb E]].
  { destruct b as [| | | | | | |[]| | | | |]; eauto. }
  - split.
    + intros [r Hr] a [Ha|Ha]%elem_of_cons.
      * simplify_eq. destruct c as [[|x []]| | | | | | | | | | | |]; try done. by exists x.
      * apply IH; [|done]. destruct c as [[|x []]| | | | | | | | | | | |]; try done.
        apply bind_Ret_inv in Hr as (s & Hs & _). eauto.
    + intros Ha. destruct (Ha c) as [x ->]; [left|].
      destruct (proj2 IH) as [[args' out] ->]; [|by eauto]. intros a Hin. apply Ha. by right.
  - change ((exists r, split_args (b :: args) = Ret r)
            <-> forall a, ExprReference true a ∈ b :: args -> exists x, a = ExprPath [x]).
    rewrite E. split.
    + intros [r Hr] a [Ha|Ha]%elem_of_cons; [by destruct (Hb a)|].
      apply IH; [|done]. apply bind_Ret_inv in Hr as (s & Hs & _). eauto.
    + intros Ha. destruct (proj2 IH) as [[args' out] ->]; [|by eauto].
      intros a Hin. apply Ha. by right.
Qed.

Definition call_stmt (stmt : Stmt) : bool :=
  match stmt with StmtSemi (ExprCall _ _) => true | _ => false end.

Lemma rewrite_fn_stmt_total stmt :
  (exists stmt', rewrite_fn_stmt stmt = Ret stmt') <-> lends_variables stmt.
Proof.
  assert ((exists f args, stmt = StmtSemi (ExprCall f args)) \/
          (call_stmt stmt = false /\ exists stmt', rewrite_fn_stmt stmt = Ret stmt'))
    as [(f & args & ->)|[Hc Hr]].
  { destruct stmt as [l|a|a|t]; [right; split; [done|by eexists]| |right; split; [done|by eexists]..].
    destruct a as [| | | | | | | | | |f args|lhs v|];
      try (right; split; [reflexivity|by eexists]).
    - left. by exists f, args.
    - right. split; [done|]. simpl. by destruct lhs as [| |[]| | | | | | | | | |]; eexists. }
  - simpl. unfold rewrite_fn_call, lends_variables. split.
    + intros [s Hs] g args' a [= <- <-]. apply split_args_total.
      apply bind_Ret_inv in Hs as (l & Hl & _). apply bind_Ret_inv in Hl as (r & Hl & _). eauto.
    + intros Ha. destruct (proj2 (split_args_total args)) as [[args' out] ->]; [|by eauto].
      intros a. by apply (Ha f).
  - split; [|done]. intros _ f args a ->. done.
Qed.

Lemma rewrite_fn_stmts_total stmts :
  (exists stmts', rewrite_fn_stmts stmts = Ret stmts') <-> Forall lends_variables stmts.
Proof.
  induction stmts as [|s stmts IH]; simpl; [by split; eauto|]. rewrite Forall_cons. split.
  - intros [r Hr]. apply bind_Ret_inv in Hr as (s' & Hs & Hr).
    apply bind_Ret_inv in Hr as (ss & Hss & _).
    split; [by apply rewrite_fn_stmt_total; eauto|by apply IH; eauto].
  - intros [Hs Hss]. apply rewrite_fn_stmt_total in Hs as [s' ->].
    apply IH in Hss as [ss ->]. simpl. eauto.
Qed.

Lemma rewrite_fn_stmts_calls stmts stmts' :
  rewrite_fn_stmts stmts = Ret stmts' ->
  length stmts' = length stmts /\ Forall (fun s => call_stmt s = false) stmts'.
Proof.
  revert stmts'. induction stmts as [|s stmts IH]; intros stmts' Hr; simpl in Hr; [by simplify_eq|].
  apply bind_Ret_inv in Hr as (s' & Hs & Hr). apply bind_Ret_inv in Hr as (ss & Hss & Hr).
  simplify_eq. destruct (IH _ Hss) as [Hl Hf]. split; [simpl; by f_equal|]. constructor; [|done].
  destruct s as [l|a|a|t]; simpl in Hs; try (injection Hs as <-; reflexivity).
  destruct a as [| | | | | | | | | |f args|lhs v|]; try (injection Hs as <-; reflexivity).
  - apply bind_Ret_inv in Hs as (l & _ & Hs). injection Hs as <-. reflexivity.
  - destruct lhs as [| |[]| | | | | | | | | |]; injection Hs as <-; reflexivity.
Qed.

Lemma default_for_resolves ty registry a :
  default_for ty registry = Ret a <-> exists n, resolves registry n ty a.
Proof.
  unfold default_for. split.
  - destruct (default_for_fuel _ ty registry) as [r|] eqn:E; simpl; [|done]. intros ->.
    by apply default_for_fuel_resolves in E.
  - intros [n Hr]. rewrite (resolves_default_for_fuel registry n ty a); [done..|].
    apply resolves_bound in Hr. lia.
Qed.

(** The binding of one output. *)
Definition output_binding (registry : TypeRegistry) (o : Ident * Ty) (stmt : Stmt) : Prop :=
  exists n a, resolves registry n o.2 a
    /\ stmt = StmtLocal (mkLocal (PatType (PatIdent true o.1) o.2) (Some a)).

Lemma to_let_bindings_spec outs registry :
  match to_let_bindings outs registry with
  | Ret bindings => Forall2 (output_binding registry) outs bindings
  | _ => ~ Forall (fun o => exists n a, resolves registry n o.2 a) outs
  end.
Proof.
  induction outs as [|[x ty] outs IH]; simpl; [constructor|].
  destruct (default_for ty registry) as [a| |] eqn:E; simpl.
  - apply default_for_resolves in E as [n Hn].
    destruct (to_let_bindings outs registry); simpl.
    + constructor; [by exists n, a|done].
    + intros Hf. apply IH. by apply Forall_cons_1 in Hf as [_ ?].
    + intros Hf. apply IH. by apply Forall_cons_1 in Hf as [_ ?].
  - intros Hf. apply Forall_cons_1 in Hf as [(n & a & Hn) _].
    rewrite (proj2 (default_for_resolves ty registry a)) in E; [done|eauto].
  - intros Hf. apply Forall_cons_1 in Hf as [(n & a & Hn) _].
    rewrite (proj2 (default_for_resolves ty registry a)) in E; [done|eauto].
Qed.

(** ** Files *)

Definition type_names (items : list Item) : list Ident :=
  omap (fun i => match i with ItemType x _ => Some x | _ => None end) items.

Lemma rewrite_fn_as_const_total fn registry :
  rewritable fn registry <-> exists fn', rewrite_fn_as_const fn registry = Ret fn'.
Proof.
  unfold rewritable, rewrite_fn_as_const.
  pose proof (split_inputs_spec (inputs fn) [] (SSorted_nil _)) as Hs.
  destruct (split_inputs (inputs fn) []) as [[ins outs]| |]; simpl in Hs |- *;
    [|by split; [intros (? & ? & _); destruct Hs|intros [fn' Hr]]..].
  destruct Hs as (_ & Hso & Hp & Hf).
  assert (NoDup (omap out_param (inputs fn)).*1) as Hd
    by (rewrite <- Hp; by apply sorted_NoDup).
  assert (forall P : Ident * Ty -> Prop, Forall P (omap out_param (inputs fn)) <-> Forall P outs) as ->
    by (intros P; by rewrite Hp).
  assert (omap out_param (inputs fn) <> [] <-> outs <> []) as ->.
  { split; intros Hn E; apply Hn; rewrite E in Hp; [|by apply Permutation_nil_r in Hp].
    by symmetry in Hp; apply Permutation_nil_r in Hp. }
  unfold rewrite_fn_body. pose proof (to_let_bindings_spec outs registry) as Hb.
  pose proof (rewrite_fn_stmts_total (block fn)) as Hst. split.
  - intros (_ & _ & Hn & Hz & Hl). apply Hst in Hl as [stmts ->].
    destruct (to_let_bindings outs registry) as [bs| |]; [|by destruct Hb..].
    destruct outs as [|o [|o' outs]]; [done|by eexists..].
  - intros [fn' Hr]. apply bind_Ret_inv in Hr as (ty & Ht & Hr).
    apply bind_Ret_inv in Hr as (body & Hr & _). apply bind_Ret_inv in Hr as (bs & Hbs & Hr).
    apply bind_Ret_inv in Hr as (stmts & Hstmts & _). rewrite Hbs in Hb.
    split_and!; [done|done|by intros ->| |apply Hst; eauto].
    clear -Hb. induction Hb as [|o b outs bs (n & a & Hn & _) Hb IH]; constructor; eauto.
Qed.

Lemma rewrite_items_total items registry :
  StronglySorted before registry.*1 ->
  NoDup (type_names items) -> (forall x, x ∈ type_names items -> x ∉ registry.*1) ->
  Forall (fun p => rewritable p.1 p.2) (functions items registry) ->
  exists items', rewrite_items items registry = Ret items'.
Proof.
  revert registry. induction items as [|[fn|x ty|t] items IH]; intros registry Hs Hd Hn Hf;
    simpl in *; [by eexists|..].
  - apply Forall_cons_1 in Hf as [Hr Hf]. apply rewrite_fn_as_const_total in Hr as [fn' Hr].
    simpl in Hr. rewrite Hr.
    destruct (IH registry Hs Hd Hn Hf) as [items' ->]. by eexists.
  - apply NoDup_cons in Hd as [Hx Hd]. pose proof (insert_spec registry x ty Hs) as Hi.
    unfold registry_add. destruct (insert_ registry x ty) as [m old]. simpl in Hf.
    destruct Hi as (Hs' & Hk & Ho & _). rewrite (proj2 Ho) by (apply Hn; left). simpl.
    destruct (IH m Hs' Hd) as [items' ->]; [|done|by eexists].
    intros y Hy [->|Hin]%Hk; [done|]. apply (Hn y); [by right|done].
  - destruct (IH registry Hs Hd Hn Hf) as [items' ->]. by eexists.
Qed.
