(* ===== verification/FiatOutputs.v ===== *)
(** * [fiat-constify]: programs that only write their outputs

    The tool replaces what is behind an output reference by zeros, so it is right
    only for functions that overwrite all of it without reading any. [checked_fn]
    sees that in the text of a function: its expressions do not mention the
    outputs, and each is assigned as a whole or at every index of its array. Two
    runs of such a function that differ in what is behind the outputs are followed
    side by side ([agree]). At the end, a sample program and the properties. *)
From Stdlib Require Import Strings.Ascii Strings.String.
From stdpp Require Import base numbers list strings gmap sorting.
From S2P Require Import Prelude FiatConstify.

(** ** The check *)

(** Whether an expression mentions one of the names. *)
Fixpoint mentions (xs : list Ident) (expr : Expr) : bool :=
  match expr with
  | ExprPath [x] => bool_decide (x ∈ xs)
  | ExprPath _ | ExprLit _ => false
  | ExprUnary _ a | ExprCast a _ | ExprParen a | ExprReference _ a => mentions xs a
  | ExprBinary a _ b | ExprIndex a b | ExprRepeat a b => mentions xs a || mentions xs b
  | ExprTuple elems => existsb (mentions xs) elems
  | _ => true
  end.

(** A pattern of one name that is not an output. *)
Fixpoint pat_avoids (xs : list Ident) (p : Pat) : bool :=
  match p with
  | PatIdent _ x => negb (bool_decide (x ∈ xs))
  | PatType p _ => pat_avoids xs p
  | _ => false
  end.

(** A statement that does not read the outputs, and assigns to them only. *)
Definition stmt_avoids (xs : list Ident) (stmt : Stmt) : bool :=
  match stmt with
  | StmtLocal (mkLocal _ (Some (ExprCall _ _))) => false
  | StmtLocal (mkLocal p (Some a)) => pat_avoids xs p && negb (mentions xs a)
  | StmtSemi (ExprAssign lhs a) =>
      negb (mentions xs a)
      && match lhs with
         | ExprUnary Deref (ExprPath [_]) => true
         | ExprIndex (ExprPath [_]) i => negb (mentions xs i)
         | _ => false
         end
  | StmtSemi (ExprCall _ args) => forallb (fun arg => negb (mentions xs arg)) args
  | _ => false
  end.

(** [*x = ..] *)
Definition assigns_whole (x : Ident) (stmt : Stmt) : bool :=
  match stmt with
  | StmtSemi (ExprAssign (ExprUnary Deref (ExprPath [y])) _) => String.eqb x y
  | _ => false
  end.

Section check.
Context `{Operators}.

(** [x[k] = ..], for an index that is a constant. *)
Definition assigns_index (x : Ident) (k : nat) (stmt : Stmt) : bool :=
  match stmt with
  | StmtSemi (ExprAssign (ExprIndex (ExprPath [y]) i) _) =>
      String.eqb x y && bool_decide ((v ← eval ∅ i; as_index v) = Some k)
  | _ => false
  end.

(** Everything of an output that starts as [z] is assigned. *)
Definition covers (x : Ident) (z : Value) (stmts : list Stmt) : bool :=
  existsb (assigns_whole x) stmts
  || match z with
     | VArray vs => forallb (fun k => existsb (assigns_index x k) stmts) (seq 0 (length vs))
     | _ => false
     end.

Definition outputs_of (fn : ItemFn) : list Ident := (omap out_param (inputs fn)).*1.

Definition checked_fn (fn : ItemFn) (registry : TypeRegistry) : bool :=
  forallb (stmt_avoids (outputs_of fn)) (block fn)
  && forallb (fun o : Ident * Ty =>
       match zero_value registry o.2 with
       | Some z => has_type o.2 z && covers o.1 z (block fn)
       | None => false
       end) (omap out_param (inputs fn)).

(** A file as [fiat-crypto] writes it. *)
Definition fiat_source (program : list (ItemFn * TypeRegistry)) : Prop :=
  NoDup (List.map (fun p => fn_ident p.1) program)
  /\ Forall (fun p => fiat_fn p.1 /\ checked_fn p.1 p.2 = true) program.

(** Arrays have the same length, and nothing else is an array. *)
Definition same_length (v w : Value) : Prop :=
  match v, w with
  | VArray vs, VArray ws => length vs = length ws
  | VArray _, _ | _, VArray _ => False
  | _, _ => True
  end.

End check.

(** The length of an array is part of its type. *)
Class OperatorsLaws `{Operators} := {
  has_type_length ty v w : has_type ty v = true -> has_type ty w = true -> same_length v w;
}.

(** ** Two runs *)

Section runs.
(** The names of the outputs, and values of their lengths. *)
Context `{Operators} (xs : list Ident) (start : Ident -> Value).

(** What is behind an output in two runs, after some statements: the same, or
    arrays that are the same at the indices assigned. *)
Definition agree_at (stmts : list Stmt) (x : Ident) (v w : Value) : Prop :=
  v = w
  \/ existsb (assigns_whole x) stmts = false
     /\ same_length v (start x) /\ same_length w (start x)
     /\ forall k, existsb (assigns_index x k) stmts = true -> element v k = element w k.

(** The environments of the two runs: the same but for what is behind the outputs. *)
Definition agree (stmts : list Stmt) (e1 e2 : Env) : Prop :=
  (forall x, x ∉ xs -> e1 !! x = e2 !! x)
  /\ (forall x, x ∈ xs -> exists v w,
        e1 !! x = Some (MutRef v) /\ e2 !! x = Some (MutRef w) /\ agree_at stmts x v w).

Lemma eval_same e1 e2 expr :
  (forall x, x ∉ xs -> e1 !! x = e2 !! x) -> mentions xs expr = false -> eval e1 expr = eval e2 expr.
Proof.
  intros He. revert expr. fix IH 1.
  intros [path|d|op a|a op b|a ty|a|a i|[] a|a n|elems|f args|l r|t] Hm; simpl in *; try done.
  - destruct path as [|x []]; try done. apply bool_decide_eq_false in Hm. by rewrite He.
  - assert (eval e1 a = eval e2 a) as E by by apply IH.
    destruct op; [|by rewrite E..]. destruct a as [[|x []]| | | | | | | | | | | |]; try done.
    simpl in Hm. apply bool_decide_eq_false in Hm. by rewrite He.
  - apply orb_false_iff in Hm as [Ha Hb]. by rewrite (IH a Ha), (IH b Hb).
  - by rewrite (IH a Hm).
  - by apply IH.
  - apply orb_false_iff in Hm as [Ha Hi]. rewrite (IH i Hi).
    assert (match a with ExprPath [x] => value_of <$> e1 !! x | _ => eval e1 a end
      = match a with ExprPath [x] => value_of <$> e2 !! x | _ => eval e2 a end) as ->; [|done].
    pose proof (IH a Ha) as E. destruct a as [[|x []]| | | | | | | | | | | |]; try exact E.
    simpl in Ha. apply bool_decide_eq_false in Ha. by rewrite He.
  - by apply IH.
  - apply orb_false_iff in Hm as [Ha Hn]. by rewrite (IH a Ha), (IH n Hn).
  - f_equal. induction elems as [|a elems IHl]; [done|]. simpl in Hm.
    apply orb_false_iff in Hm as [Ha Hm]. by rewrite (IH a Ha), (IHl Hm).
Qed.

Lemma eval_arg_same e1 e2 arg :
  (forall x, x ∉ xs -> e1 !! x = e2 !! x) -> mentions xs arg = false ->
  eval_arg e1 arg = eval_arg e2 arg.
Proof.
  intros He Hm. pose proof (eval_same e1 e2 arg He Hm) as E.
  destruct arg as [| | | | | | |[] a| | | | |]; unfold eval_arg; try by rewrite E.
  simpl in Hm. by rewrite (eval_same e1 e2 a).
Qed.

Lemma eval_args_same e1 e2 args :
  (forall x, x ∉ xs -> e1 !! x = e2 !! x) ->
  forallb (fun arg => negb (mentions xs arg)) args = true ->
  mapM (eval_arg e1) args = mapM (eval_arg e2) args.
Proof.
  intros He. induction args as [|a args IH]; intros Hm; [done|]. simpl in Hm.
  apply andb_true_iff in Hm as [Ha%negb_true_iff Hm]. simpl.
  by rewrite (eval_arg_same e1 e2 a), IH.
Qed.

(** More statements agree on as much if they do not assign to [x]. *)
Lemma agree_at_app stmts stmt x v w :
  assigns_whole x stmt = false -> (forall k, assigns_index x k stmt = false) ->
  agree_at stmts x v w -> agree_at (stmts ++ [stmt]) x v w.
Proof.
  intros Hw Hi [->|(Ha & Hv & Hs & Hk)]; [by left|right]. split_and!; [|done..|].
  - rewrite existsb_app. simpl. by rewrite Hw, !orb_false_r.
  - intros k. rewrite existsb_app. simpl. rewrite Hi, !orb_false_r. apply Hk.
Qed.

Lemma agree_at_refl stmts x v : agree_at stmts x v v.
Proof. by left. Qed.

(** A binding that is the same in both runs. *)
Lemma agree_insert stmts stmt e1 e2 x b :
  x ∉ xs -> (forall y, y ∈ xs -> assigns_whole y stmt = false /\ forall k, assigns_index y k stmt = false) ->
  agree stmts e1 e2 -> agree (stmts ++ [stmt]) (<[x := b]> e1) (<[x := b]> e2).
Proof.
  intros Hx Hs [He Ho]. split.
  - intros y Hy. destruct (decide (x = y)) as [->|Hn]; [by rewrite !lookup_insert_eq|].
    rewrite !lookup_insert_ne by done. by apply He.
  - intros y Hy. destruct (Ho y Hy) as (v & w & H1 & H2 & Ha). exists v, w.
    assert (x <> y) by (by intros ->). rewrite !lookup_insert_ne by done.
    destruct (Hs y Hy). split_and!; [done..|]. by apply agree_at_app.
Qed.

Lemma agree_skip stmts stmt e1 e2 :
  (forall y, y ∈ xs -> assigns_whole y stmt = false /\ forall k, assigns_index y k stmt = false) ->
  agree stmts e1 e2 -> agree (stmts ++ [stmt]) e1 e2.
Proof.
  intros Hs [He Ho]. split; [done|]. intros y Hy. destruct (Ho y Hy) as (v & w & H1 & H2 & Ha).
  exists v, w. destruct (Hs y Hy). split_and!; [done..|]. by apply agree_at_app.
Qed.

(** An assignment to an output. *)
Lemma agree_output stmts stmt e1 e2 x v w :
  x ∈ xs -> (forall y, y <> x -> assigns_whole y stmt = false /\ forall k, assigns_index y k stmt = false) ->
  agree_at (stmts ++ [stmt]) x v w ->
  agree stmts e1 e2 -> agree (stmts ++ [stmt]) (<[x := MutRef v]> e1) (<[x := MutRef w]> e2).
Proof.
  intros Hx Hs Ha [He Ho]. split.
  - intros y Hy. assert (x <> y) by (by intros ->). rewrite !lookup_insert_ne by done. by apply He.
  - intros y Hy. destruct (decide (x = y)) as [<-|Hn].
    + exists v, w. by rewrite !lookup_insert_eq.
    + destruct (Ho y Hy) as (v' & w' & H1 & H2 & Ha'). exists v', w'.
      rewrite !lookup_insert_ne by done. destruct (Hs y) as [Hw Hi]; [done|].
      split_and!; [done..|]. by apply agree_at_app.
Qed.

Lemma bind_pat_agree stmts stmt p e1 e2 v e1' :
  (forall y, assigns_whole y stmt = false /\ forall k, assigns_index y k stmt = false) ->
  pat_avoids xs p = true -> agree stmts e1 e2 -> bind_pat e1 p v = Some e1' ->
  exists e2', bind_pat e2 p v = Some e2' /\ agree (stmts ++ [stmt]) e1' e2'.
Proof.
  intros Hs. revert e1'. induction p as [m x|p IH ty| |]; intros e1' Hp Ha Hb; simpl in *; try done.
  - apply negb_true_iff, bool_decide_eq_false in Hp. simplify_eq. eexists. split; [done|].
    by apply agree_insert.
  - by apply IH.
Qed.

Lemma write_back_agree stmts stmt ys outs e1 e2 e1' :
  (forall y, assigns_whole y stmt = false /\ forall k, assigns_index y k stmt = false) ->
  Forall (fun y => y ∉ xs) ys ->
  agree (stmts ++ [stmt]) e1 e2 -> write_back e1 ys outs = Some e1' ->
  exists e2', write_back e2 ys outs = Some e2' /\ agree (stmts ++ [stmt]) e1' e2'.
Proof.
  intros Hs. revert outs e1 e2. induction ys as [|y ys IH]; intros [|v outs] e1 e2 Hy Ha Hw; try done.
  { simpl in *. simplify_eq. eauto. }
  apply Forall_cons in Hy as [Hy Hys]. apply bind_Some in Hw as (e3 & Hx & Hw). simpl in Hx.
  destruct (e1 !! y) as [[u|u]|] eqn:E; simplify_eq.
  simpl. rewrite <- (proj1 Ha y Hy), E. simpl. apply (IH outs (<[y := Own v]> e1)); [done| |done].
  destruct Ha as [He Ho]. split.
  - intros z Hz. destruct (decide (y = z)) as [->|Hn]; [by rewrite !lookup_insert_eq|].
    rewrite !lookup_insert_ne by done. by apply He.
  - intros z Hz. destruct (Ho z Hz) as (v1 & w1 & H1 & H2 & Haz). exists v1, w1.
    assert (y <> z) by (by intros ->). by rewrite !lookup_insert_ne.
Qed.

(** *** Statements *)

Context (call : Ident -> list (bool * Value) -> option (list Value * Value)).

(** [x[k] = u] in both runs. *)
Lemma agree_at_index stmts x i a v w k u vs :
  agree_at stmts x v w -> v = VArray vs -> k < length vs ->
  (forall k', (v ← eval ∅ i; as_index v) = Some k' -> k' = k) ->
  exists ws, w = VArray ws /\ k < length ws
  /\ agree_at (stmts ++ [StmtSemi (ExprAssign (ExprIndex (ExprPath [x]) i) a)]) x
       (VArray (<[k := u]> vs)) (VArray (<[k := u]> ws)).
Proof.
  intros [->|(Hw & Hs & Hs' & Hi)] E Hk Hc; [exists vs; by split_and!; [|..|left]|].
  subst v. destruct (start x) as [|zs|] eqn:Ez; try done. destruct w as [|ws|]; try done. simpl in Hs, Hs'.
  exists ws. split_and!; [done|lia|]. right. split_and!.
  - rewrite existsb_app. simpl. by rewrite Hw.
  - rewrite Ez. simpl. by rewrite length_insert.
  - rewrite Ez. simpl. by rewrite length_insert.
  - intros k'. rewrite existsb_app. simpl. rewrite String.eqb_refl, orb_false_r. simpl.
    intros [E|E]%orb_true_iff.
    + specialize (Hi k' E). simpl in *. destruct (decide (k = k')) as [->|Hn].
      * by rewrite !list_lookup_insert_eq by lia.
      * by rewrite !list_lookup_insert_ne.
    + apply bool_decide_eq_true, Hc in E as ->. by rewrite !list_lookup_insert_eq by lia.
Qed.

(** What is assigned everywhere is the same. *)
Lemma covers_agree stmts x v w :
  covers x (start x) stmts = true -> agree_at stmts x v w -> v = w.
Proof.
  intros Hc [->|(Hw & Hs & Hs' & Hi)]; [done|]. unfold covers in Hc. rewrite Hw in Hc. simpl in Hc.
  destruct (start x) as [|zs|]; try done. destruct v as [|vs|]; try done. destruct w as [|ws|]; try done.
  simpl in Hs, Hs'. f_equal. apply list_eq. intros k.
  destruct (decide (k < length zs)) as [Hk|Hk].
  - apply (Hi k). rewrite forallb_forall in Hc. apply Hc, list_elem_of_In, elem_of_seq. lia.
  - rewrite (lookup_ge_None_2 vs k), (lookup_ge_None_2 ws k); lia || done.
Qed.

Lemma lent_avoid args :
  forallb (fun arg => negb (mentions xs arg)) args = true -> Forall (fun y => y ∉ xs) (lent args).
Proof.
  induction args as [|a args IH]; intros Hm; [by constructor|]. simpl in Hm.
  apply andb_true_iff in Hm as [Ha%negb_true_iff Hm]. specialize (IH Hm). unfold lent in *. simpl.
  destruct a as [| | | | | | |[] [[|y []]| | | | | | | | | | | |]| | | | |]; try done.
  constructor; [|done]. simpl in Ha. by apply bool_decide_eq_false in Ha.
Qed.

(** One statement of each form: [exec_stmt_agree] for it. *)
Definition stmt_agrees (stmt : Stmt) : Prop := forall stmts e1 e2 e1',
  stmt_avoids xs stmt = true -> agree stmts e1 e2 -> exec_stmt call e1 stmt = Some e1' ->
  exists e2', exec_stmt call e2 stmt = Some e2' /\ agree (stmts ++ [stmt]) e1' e2'.

Lemma local_agrees p a : stmt_agrees (StmtLocal (mkLocal p (Some a))).
Proof.
  intros stmts e1 e2 e1' Hs Ha Hx.
  assert (stmt_avoids xs (StmtLocal (mkLocal p (Some a))) = pat_avoids xs p && negb (mentions xs a)
    /\ forall e, exec_stmt call e (StmtLocal (mkLocal p (Some a)))
                = v ← eval e a; bind_pat e p v) as [Hd E] by (by destruct a).
  rewrite Hd in Hs. apply andb_true_iff in Hs as [Hp Hm%negb_true_iff]. rewrite E in Hx |- *.
  rewrite (eval_same e1 e2 a (proj1 Ha) Hm) in Hx. apply bind_Some in Hx as (v & -> & Hb).
  by apply (bind_pat_agree _ _ p e1).
Qed.

Lemma call_agrees f args : stmt_agrees (StmtSemi (ExprCall f args)).
Proof.
  intros stmts e1 e2 e1' Hs Ha Hx. simpl in Hs, Hx |- *. unfold exec_call in *.
  destruct f as [[|f []]| | | | | | | | | | | |]; try done.
  rewrite (eval_args_same e1 e2 args (proj1 Ha) Hs) in Hx.
  apply fmap_Some in Hx as ([e3 u] & Hx & ->).
  apply bind_Some in Hx as (vs & -> & Hx). apply bind_Some in Hx as ([outs w] & Hc & Hx).
  apply bind_Some in Hx as (e4 & Hw & Hx). simplify_eq. simpl. rewrite Hc. simpl.
  destruct (write_back_agree stmts (StmtSemi (ExprCall (ExprPath [f]) args)) (lent args) outs
    e1 e2 e3) as (e2' & -> & Ha'); [done|by apply lent_avoid|by apply agree_skip|done|].
  simpl. eauto.
Qed.

(** [*x = a] *)
Lemma assign_deref_agrees x a :
  stmt_agrees (StmtSemi (ExprAssign (ExprUnary Deref (ExprPath [x])) a)).
Proof.
  intros stmts e1 e2 e1' Hs Ha Hx. simpl in Hs. apply andb_true_iff in Hs as [Hm%negb_true_iff Hl].
  simpl in Hx |- *. rewrite (eval_same e1 e2 a (proj1 Ha) Hm) in Hx.
  apply bind_Some in Hx as (v & -> & Hx). simpl in Hx |- *.
  destruct (e1 !! x) as [[w|w]|] eqn:E; simplify_eq. destruct (decide (x ∈ xs)) as [Hin|Hin].
  - destruct (proj2 Ha x Hin) as (v1 & w1 & _ & E2 & _). rewrite E2.
    eexists. split; [done|]. apply agree_output; [done| |apply agree_at_refl|done].
    intros y Hn. simpl. split; [|done]. by apply String.eqb_neq.
  - rewrite <- (proj1 Ha x Hin), E. eexists. split; [done|]. apply agree_insert; [done| |done].
    intros y Hy. simpl. split; [|done]. apply String.eqb_neq. by intros ->.
Qed.

(** An index that evaluates without variables has one value. *)
Lemma closed_index e i k k' :
  (v ← eval e i; as_index v) = Some k -> (v ← eval ∅ i; as_index v) = Some k' -> k' = k.
Proof.
  intros Hk Hk'. apply bind_Some in Hk' as (v' & Hv' & Hk').
  apply (eval_closed e) in Hv'. rewrite Hv' in Hk. simpl in Hk. congruence.
Qed.

(** [x[i] = a] *)
Lemma assign_index_agrees x i a :
  stmt_agrees (StmtSemi (ExprAssign (ExprIndex (ExprPath [x]) i) a)).
Proof.
  intros stmts e1 e2 e1' Hs Ha Hx. simpl in Hs.
  apply andb_true_iff in Hs as [Hm%negb_true_iff Hl%negb_true_iff].
  simpl in Hx |- *. rewrite (eval_same e1 e2 a (proj1 Ha) Hm) in Hx.
  apply bind_Some in Hx as (v & -> & Hx). simpl in Hx |- *.
  rewrite (eval_same e1 e2 i (proj1 Ha) Hl) in Hx.
  apply bind_Some in Hx as (vi & Hvi & Hx). rewrite Hvi. simpl.
  apply bind_Some in Hx as (k & Hk & Hx). rewrite Hk. simpl.
  assert ((v ← eval e2 i; as_index v) = Some k) as Hik by (by rewrite Hvi).
  set (stmt := StmtSemi _).
  assert (forall y, y <> x -> assigns_whole y stmt = false /\ forall k, assigns_index y k stmt = false)
    as Hy.
  { intros y Hn. split; [done|]. intros k'. simpl. by rewrite (proj2 (String.eqb_neq _ _)). }
  destruct (decide (x ∈ xs)) as [Hin|Hin].
  - destruct (proj2 Ha x Hin) as (v1 & w1 & E1 & E2 & Hag). rewrite E1 in Hx. rewrite E2.
    destruct v1 as [|vs|]; try done.
    destruct (k <? length vs) eqn:El; [|done]. simplify_eq. apply Nat.ltb_lt in El.
    destruct (agree_at_index stmts x i a _ _ k v vs Hag eq_refl El
                (fun k' => closed_index e2 i k k' Hik)) as (ws & -> & Hk' & Hag').
    rewrite (proj2 (Nat.ltb_lt _ _) Hk'). eexists. split; [done|]. by apply agree_output.
  - rewrite <- (proj1 Ha x Hin). destruct (e1 !! x) as [[[|vs|]|[|vs|]]|]; try done;
      (destruct (k <? length vs); [|done]); simplify_eq; (eexists; split; [done|]);
      (apply agree_insert; [done| |done]); intros y Hyin; apply Hy; by intros ->.
Qed.

Lemma exec_stmt_agree stmts stmt e1 e2 e1' :
  stmt_avoids xs stmt = true -> agree stmts e1 e2 -> exec_stmt call e1 stmt = Some e1' ->
  exists e2', exec_stmt call e2 stmt = Some e2' /\ agree (stmts ++ [stmt]) e1' e2'.
Proof.
  intros Hs Ha Hx. destruct stmt as [[p [a|]]|a|a|t]; try done; [by eapply local_agrees|].
  destruct a as [| | | | | | | | | |f args|lhs a|]; try done; [by eapply call_agrees|].
  pose proof Hx as Hl. simpl in Hl. apply bind_Some in Hl as (v & _ & Hl).
  pose proof Hs as Hav. simpl in Hav. apply andb_true_iff in Hav as [_ Hav].
  destruct lhs as [| |op b| | | |b i| | | | | |]; simpl in Hl; try done.
  - destruct op; try done. destruct b as [[|x []]| | | | | | | | | | | |]; try done.
    by eapply assign_deref_agrees.
  - destruct b as [[|x []]| | | | | | | | | | | |]; try done. by eapply assign_index_agrees.
Qed.

Lemma exec_block_agree done_ stmts e1 e2 e1' v :
  forallb (stmt_avoids xs) stmts = true -> agree done_ e1 e2 ->
  exec_block call e1 stmts = Some (e1', v) ->
  exists e2', exec_block call e2 stmts = Some (e2', v) /\ agree (done_ ++ stmts) e1' e2'.
Proof.
  revert done_ e1 e2. induction stmts as [|stmt stmts IH]; intros done_ e1 e2 Hs Ha Hx.
  - simpl in *. simplify_eq. exists e2. by rewrite app_nil_r.
  - simpl in Hs. apply andb_true_iff in Hs as [Hst Hs].
    assert (forall e, exec_block call e (stmt :: stmts) = e ← exec_stmt call e stmt; exec_block call e stmts)
      as E by (intros e; destruct stmt; done).
    rewrite E in Hx |- *. apply bind_Some in Hx as (e3 & Hx & Hxs).
    destruct (exec_stmt_agree done_ stmt e1 e2 e3 Hst Ha Hx) as (e3' & -> & Ha').
    destruct (IH _ _ _ Hs Ha' Hxs) as (e2' & E2 & Ha2). exists e2'. split; [done|].
    by rewrite <- app_assoc in Ha2.
Qed.

End runs.

(** ** The start of two runs *)

Section start.
Context `{OperatorsLaws}.

(** The bindings of a parameter: by value the same; by reference to a value and to
    a default of the same type. *)
Inductive both (Z : Ident -> Ty -> Value -> Prop) : Ident * Binding -> Ident * Binding -> Prop :=
  | both_own x v : both Z (x, Own v) (x, Own v)
  | both_ref x ty v z : Z x ty z -> has_type ty v = true -> has_type ty z = true ->
      both Z (x, MutRef v) (x, MutRef z).

Lemma bind_params_both (Z : Ident -> Ty -> Value -> Prop) ins ps args bs zs :
  mapM param ins = Some ps -> args_typed ins args = true -> bind_params ps args = Some bs ->
  Forall2 (fun o z => Z o.1 o.2 z /\ has_type o.2 z = true) (omap out_param ins) zs ->
  args_typed ins (set_outs args zs) = true
  /\ exists bs', bind_params ps (set_outs args zs) = Some bs' /\ Forall2 (both Z) bs bs'.
Proof.
  intros Hm. apply mapM_Some in Hm. revert args bs zs.
  induction Hm as [|a p ins ps Hp Hm IH]; intros args bs zs Ht Hb Hz.
  { destruct args as [|]; [|by destruct bs]. simpl in *. simplify_eq. split; [done|].
    by exists []. }
  destruct a as [|[m x| | |] ty]; simpl in Hp; try done.
  assert (exists d v args', args = (d, v) :: args') as (d & v & args' & ->).
  { destruct args as [|[d v] args']; [by destruct ty as [| |[]| |]|eauto]. }
  assert ((exists ty', ty = TypeReference true ty') \/
          (p = (x, false) /\ out_param (Typed (PatIdent m x) ty) = None
           /\ forall d v args, args_typed (Typed (PatIdent m x) ty :: ins) ((d, v) :: args)
              = if d then false else has_type ty v && args_typed ins args))
    as [[ty' ->]|(-> & Ho & Hty)].
  { destruct ty as [| |[]| |]; simplify_eq; [right..|left|right|right|right];
      [| |by eexists|..]; (split_and!; [done|done|by intros [] v' args'']). }
  - simplify_eq. simpl in Hz. apply Forall2_cons_inv_l in Hz as (z & zs' & [HZ Hzt] & Hz & ->).
    simpl in HZ, Hzt. destruct d; [|done]. simpl in Ht. apply andb_true_iff in Ht as [Hv Ht].
    simpl in Hb. apply bind_Some in Hb as (bs1 & Hb & E). simplify_eq.
    destruct (IH args' bs1 zs' Ht Hb Hz) as [Ht' (bs' & Hb' & Hf)]. simpl.
    rewrite Hzt, Ht', Hb'. split; [done|]. eexists. split; [done|]. constructor; [|done].
    by apply (both_ref Z x ty').
  - change (omap out_param (Typed (PatIdent m x) ty :: ins))
      with (match out_param (Typed (PatIdent m x) ty) with
            | Some o => o :: omap out_param ins | None => omap out_param ins end) in Hz.
    rewrite Ho in Hz. rewrite Hty in Ht. destruct d; [done|].
    apply andb_true_iff in Ht as [Hv Ht]. simpl in Hb. apply bind_Some in Hb as (bs1 & Hb & E).
    simplify_eq. destruct (IH args' bs1 zs Ht Hb Hz) as [Ht' (bs' & Hb' & Hf)].
    assert (set_outs ((false, v) :: args') zs = (false, v) :: set_outs args' zs) as ->
      by (by destruct zs).
    rewrite Hty, Hv, Ht'. split; [done|]. simpl. rewrite Hb'. simpl. eexists. split; [done|].
    constructor; [constructor|done].
Qed.

Lemma both_maps Z bs bs' x :
  Forall2 (both Z) bs bs' ->
  ((list_to_map bs : Env) !! x = (list_to_map bs' : Env) !! x
   /\ forall v, (list_to_map bs : Env) !! x <> Some (MutRef v))
  \/ exists ty v z, (list_to_map bs : Env) !! x = Some (MutRef v)
     /\ (list_to_map bs' : Env) !! x = Some (MutRef z)
     /\ Z x ty z /\ has_type ty v = true /\ has_type ty z = true.
Proof.
  induction 1 as [|b b' bs bs' Hb Hbs IH].
  - left. simpl. split; [done|]. intros v. by rewrite lookup_empty.
  - destruct Hb as [y v|y ty v z HZ Hv Hz]; simpl; (destruct (decide (y = x)) as [->|Hn];
      [rewrite !lookup_insert_eq|by rewrite !lookup_insert_ne]).
    + by left.
    + right. by exists ty, v, z.
Qed.

Lemma bind_params_ref ps vs bs x :
  bind_params ps vs = Some bs -> (x, true) ∈ ps -> exists v, (x, MutRef v) ∈ bs.
Proof.
  revert vs bs. induction ps as [|[y m] ps IH]; intros [|[n w] vs] bs Hb Hp;
    try (by apply elem_of_nil in Hp); try done.
  simpl in Hb. apply bind_Some in Hb as (b & Hpa & Hb). apply bind_Some in Hb as (bs1 & Hbs & Hb).
  simplify_eq. apply elem_of_cons in Hp as [Hp|Hp].
  - simplify_eq. unfold bind_param in Hpa. simpl in Hpa. destruct n; simplify_eq. exists w. left.
  - destruct (IH _ _ Hbs Hp) as [v Hv]. exists v. by right.
Qed.

(** ** The check is right *)

Lemma checked_zeros fn registry :
  checked_fn fn registry = true ->
  exists zs, mapM (zero_value registry) (omap out_param (inputs fn)).*2 = Some zs
  /\ Forall2 (fun o z => has_type o.2 z = true /\ covers o.1 z (block fn) = true)
       (omap out_param (inputs fn)) zs.
Proof.
  unfold checked_fn. intros [_ Hc]%andb_true_iff. revert Hc.
  generalize (omap out_param (inputs fn)) as outs. intros outs.
  induction outs as [|[x ty] outs IH]; intros Hc; [by exists []|]. simpl in Hc.
  apply andb_true_iff in Hc as [Hz Hc]. destruct (zero_value registry ty) as [z|] eqn:Ez; [|done].
  apply andb_true_iff in Hz. destruct (IH Hc) as (zs & E & Hf). exists (z :: zs).
  rewrite fmap_cons. simpl. rewrite Ez. simpl. rewrite E. split; [done|by constructor].
Qed.

(** The value that an output starts with in the second run. *)
Definition start_of (outs : list (Ident * Ty)) (zs : list Value) (x : Ident) : Value :=
  default (VInt 0) ((list_to_map (zip outs.*1 zs) : gmap Ident Value) !! x).

Lemma start_of_eq (outs : list (Ident * Ty)) zs x ty z :
  NoDup outs.*1 -> ((x, ty), z) ∈ zip outs zs -> start_of outs zs x = z.
Proof.
  intros Hd Hin. unfold start_of.
  assert (list_to_map (zip outs.*1 zs) !! x = Some z) as ->; [|done].
  apply elem_of_list_to_map_1.
  - clear Hin. revert zs. induction outs as [|o outs IH]; intros [|z' zs]; simpl; try by constructor.
    csimpl in Hd. apply NoDup_cons in Hd as [Hn Hd]. constructor; [|by apply IH].
    intros Hi. apply Hn. apply list_elem_of_fmap in Hi as ([y w] & -> & Hi).
    by apply elem_of_zip_l in Hi.
  - clear Hd. revert zs Hin. induction outs as [|o outs IH]; intros [|z' zs] Hin; simpl in *;
      try by apply elem_of_nil in Hin.
    apply elem_of_cons in Hin as [Hin|Hin]; [|right; by apply IH].
    injection Hin as <- <-. left.
Qed.

Lemma checked_writes_outputs fns fn registry :
  fiat_fn fn -> checked_fn fn registry = true -> find_fn fns (fn_ident fn) = Some fn ->
  writes_outputs fns fn registry.
Proof.
  intros (Hso & Hnd & _) Hc Hfind. destruct (checked_zeros fn registry Hc) as (zs & Hzs & Hz).
  exists zs. split; [done|]. apply andb_true_iff in Hc as [Hst _].
  intros [|depth] args r Hr; [done|]. simpl in Hr |- *. rewrite Hfind in Hr |- *. simpl in Hr |- *.
  case_guard as Ht; simpl in Hr; [|done].
  apply bind_Some in Hr as (ps & Hps & Hr). apply bind_Some in Hr as (bs & Hbs & Hr).
  apply bind_Some in Hr as ([e v] & Hx & Hr). apply bind_Some in Hr as (outs & Houts & Hr). simplify_eq.
  destruct (params_ok _ _ Hps) as (_ & Ho & Hp). rewrite Hp in Hnd.
  set (outs_ := omap out_param (inputs fn)) in *.
  destruct (bind_params_both (fun x ty z => ((x, ty), z) ∈ zip outs_ zs) _ _ _ _ zs Hps Ht Hbs)
    as [Ht' (bs' & Hbs' & Hboth)].
  { fold outs_. clear -Hz. assert (forall p, p ∈ zip outs_ zs -> p ∈ zip outs_ zs) as Hsub by done.
    revert Hsub. generalize (zip outs_ zs) at 2 3 as all. intros all. induction Hz as [|o z os zs [Hz _] Hf IH].
    - by constructor.
    - intros Hsub. constructor; [split; [|done]|apply IH; intros p Hin; apply Hsub; by right].
      destruct o. apply Hsub. left. }
  rewrite option_guard_True by done. simpl. rewrite Hps. simpl. rewrite Hbs'. simpl.
  pose proof (sorted_NoDup _ Hso) as Hdo. unfold outputs_of in Hst. fold outs_ in Hst.
  destruct (bind_params_ok _ _ _ Hbs) as [Hn _]. rewrite <- Hn in Hnd.
  assert (agree outs_.*1 (start_of outs_ zs) [] (list_to_map bs) (list_to_map bs')) as Hag.
  { split; intros x Hin; destruct (both_maps _ _ _ x Hboth) as [[E Hne]|(ty & v1 & z & E1 & E2 & HZ & Hv & Hz1)].
    - done.
    - destruct Hin. apply elem_of_zip_l in HZ. exact (list_elem_of_fmap_2 fst _ _ HZ).
    - rewrite <- Ho in Hin. apply list_elem_of_fmap in Hin as ([y m] & -> & Hin).
      apply elem_of_filter_b in Hin as [Hin Hm]. simpl in Hm. subst m.
      destruct (bind_params_ref _ _ _ _ Hbs Hin) as [w Hw].
      by destruct (Hne w), (elem_of_list_to_map_1 bs y (MutRef w) Hnd Hw).
    - exists v1, z. split_and!; [done|done|]. right. rewrite (start_of_eq outs_ zs x ty z) by done.
      split_and!; [done|by apply (has_type_length ty)|by apply (has_type_length ty)|done]. }
  destruct (exec_block_agree _ _ _ [] _ _ _ e v Hst Hag Hx) as (e2 & -> & [_ Ha2]). simpl.
  assert (mapM (behind e2) (out_params ps) = Some outs) as ->; [|done].
  rewrite <- Houts, Ho. apply Forall_mapM_ext, Forall_forall. intros x Hin.
  destruct (Ha2 x Hin) as (v1 & w1 & E1 & E2 & Hat). unfold behind. rewrite E1, E2.
  f_equal. symmetry. apply (covers_agree (start_of outs_ zs) (block fn) x); [|done].
  apply list_elem_of_fmap in Hin as ([x' ty] & -> & Hin). simpl.
  apply list_elem_of_lookup in Hin as [i Hi].
  destruct (Forall2_lookup_l _ _ _ _ _ Hz Hi) as (z & Hzi & _ & Hcov).
  rewrite (start_of_eq outs_ zs x' ty z); [done|done|].
  apply list_elem_of_lookup. exists i. rewrite lookup_zip_with, Hi. simpl. by rewrite Hzi.
Qed.

(** A file whose functions pass the check. *)
Lemma fiat_source_program program : fiat_source program -> fiat_program program.
Proof.
  intros [Hd Hf]. apply Forall_forall. intros [fn registry] Hin.
  destruct (proj1 (Forall_forall _ _) Hf _ Hin) as [Hfn Hc]. split; [done|].
  apply checked_writes_outputs; [done|done|]. clear Hf Hfn Hc. unfold find_fn. simpl in *.
  induction program as [|[fn' r'] program IH]; [by apply elem_of_nil in Hin|]. simpl in *.
  apply NoDup_cons in Hd as [Hn Hd]. apply elem_of_cons in Hin as [Hin|Hin].
  - injection Hin as -> ->. by rewrite String.eqb_refl.
  - rewrite (proj2 (String.eqb_neq _ _)); [by apply IH|]. intros He. apply Hn. rewrite <- He.
    apply list_elem_of_In, in_map_iff. exists (fn, registry). split; [done|]. by apply list_elem_of_In.
Qed.

End start.

(** ** A sample *)

#[local] Instance sample_operators : Operators := {|
  literal d := if String.eqb d "0" then Some (VInt 0) else if String.eqb d "1" then Some (VInt 1)
               else if String.eqb d "2" then Some (VInt 2) else None;
  unary _ _ := None;
  binary op a b :=
    match a, b with
    | VInt a, VInt b => if String.eqb op "+" then Some (VInt (a + b)) else None
    | _, _ => None
    end;
  cast _ v := Some v;
  has_type ty v :=
    match ty, v with
    | TypeArray _ (ExprLit "2"), VArray [VInt _; VInt _] => true
    | TypePath _, VInt _ => true
    | _, _ => false
    end;
|}.

Definition var (x : Ident) : Expr := ExprPath [x].
Definition u64_ty : Ty := TypePath ["u64"].
Definition out (x : Ident) (ty : Ty) : FnArg := Typed (PatIdent false x) (TypeReference true ty).
Definition let_ (x : Ident) (ty : Ty) (a : Expr) : Stmt :=
  StmtLocal (mkLocal (PatType (PatIdent true x) ty) (Some a)).

(** [fn add(o1: &mut u64, o2: &mut bit, arg1: u64)], for two names of outputs. *)
Definition sample_add (o1 o2 : Ident) : ItemFn :=
  mkItemFn false "add" [out o1 u64_ty; out o2 (TypePath ["bit"]); Typed (PatIdent false "arg1") u64_ty]
    (Some (TypeTuple []))
    [let_ "x1" u64_ty (ExprBinary (var "arg1") "+" (var "arg1"));
     StmtSemi (ExprAssign (ExprUnary Deref (var o1)) (var "x1"));
     StmtSemi (ExprAssign (ExprUnary Deref (var o2)) (ExprLit "1"))].

(** [fn twice(out1: &mut [u64; 2], arg1: u64)], which calls it. *)
Definition sample_twice : ItemFn :=
  mkItemFn false "twice"
    [out "out1" (TypeArray u64_ty (ExprLit "2")); Typed (PatIdent false "arg1") u64_ty]
    (Some (TypeTuple []))
    [let_ "x1" u64_ty (ExprLit "0"); let_ "x2" (TypePath ["bit"]) (ExprLit "0");
     StmtSemi (ExprCall (var "add")
       [ExprReference true (var "x1"); ExprReference true (var "x2"); var "arg1"]);
     StmtSemi (ExprAssign (ExprIndex (var "out1") (ExprLit "0")) (var "x1"));
     StmtSemi (ExprAssign (ExprIndex (var "out1") (ExprLit "1")) (var "x2"))].

Definition sample_items (o1 o2 : Ident) : list Item :=
  [ItemType "bit" (TypePath ["u8"]); ItemFn_ (sample_add o1 o2); ItemFn_ sample_twice].

Definition sample_file : File := mkFile [] (sample_items "out1" "out2").

(** Outputs that are not in the order of their names, as [out2] and [out10], are
    returned in another order than the one calls bind them in. *)
Lemma output_order_mismatch :
  exists items', rewrite_items (sample_items "out2" "out10") [] = Ret items'
  /\ run_fn (functions (sample_items "out2" "out10") []).*1 2 "twice"
       [(true, VArray [VInt 0; VInt 0]); (false, VInt 5)]
     = Some ([VArray [VInt 10; VInt 1]], VTuple [])
  /\ run_fn (functions items' []).*1 2 "twice" [(false, VInt 5)]
     = Some ([], VArray [VInt 1; VInt 10]).
Proof. eexists. split; [reflexivity|]. by vm_compute. Qed.

#[local] Instance sample_laws : OperatorsLaws.
Proof.
  assert (forall ty v, has_type ty v = true ->
    match v with
    | VInt _ => match ty with TypePath _ => true | _ => false end = true
    | VArray vs => match ty with TypePath _ => true | _ => false end = false /\ length vs = 2
    | VTuple _ => False
    end) as Ht.
  { intros ty v Hv. simpl in Hv. by repeat (case_match; try done). }
  constructor. intros ty v w Hv%Ht Hw%Ht. destruct v, w; simpl in *; intuition congruence.
Qed.

(** The sample passes the check. *)
Lemma sample_source : fiat_source (functions (items sample_file) []).
Proof.
  assert (forall l : list Ident, bool_decide (NoDup l) = true -> NoDup l) as Hd
    by (intros l; apply bool_decide_eq_true_1).
  split; [by apply Hd|].
  constructor; [|constructor; [|constructor]]; (split; [|by vm_compute]);
    (split_and!; [repeat constructor|by apply Hd|done]).
Qed.

(** ** Properties *)

(** C3. On a file whose types have distinct names and whose functions can be
    rewritten, the tool succeeds and prints an attribute and the file; if moreover the functions have the form that
    [fiat-crypto] gives them (their outputs declared in the order of the names,
    straight-line bodies that do not read outputs and assign all of each), then for
    any meaning of the operators, where types give the lengths of arrays, a
    function of the printed file called with the inputs alone returns what the
    original one called with the same inputs leaves in its outputs. *)
Theorem constify_preserves `{OperatorsLaws} (read : string -> option string)
    (parse : string -> option File) (prog path code : string) (file : File) :
  read path = Some code -> parse code = Some file ->
  NoDup (type_names (items file)) ->
  Forall (fun p => rewritable p.1 p.2) (functions (items file) []) ->
  exists items',
    main read parse [prog; path]
      = Ret (Ok (doc_line, mkFile (attrs file ++ [build_attribute "allow" lints]) items'))
    /\ (fiat_source (functions (items file) []) ->
        forall depth f args outs v,
          run_fn (functions (items file) []).*1 depth f args = Some (outs, v) ->
          run_fn (functions items' []).*1 depth f (plain_args args) = Some ([], returned outs)).
Proof.
  intros Hr Hp Hd Hf.
  destruct (rewrite_items_total (items file) []) as [items' E]; [constructor|done| |done|].
  { intros x _. apply not_elem_of_nil. }
  exists items'. split.
  - unfold main. simpl. rewrite Hr. simpl. rewrite Hp. simpl. by rewrite E.
  - intros Hfp depth f args outs v. apply constified_call; [|by apply fiat_source_program].
    by apply rewrite_items_functions.
Qed.

(** C24. What the tool makes of any function: it fails exactly when the function
    has no output, an output that is not an identifier, that has the name of
    another or a type without a default, or a call that lends something else than
    a variable; otherwise the result is a [const fn] that takes the other inputs
    in order and returns the outputs in the order of their names, each bound to
    its default before the body, in which no call statement is left. *)
Theorem const_fn_form (fn : ItemFn) (registry : TypeRegistry) :
  (rewritable fn registry <-> exists fn', rewrite_fn_as_const fn registry = Ret fn')
  /\ forall fn', rewrite_fn_as_const fn registry = Ret fn' ->
     constness fn' = true /\ fn_ident fn' = fn_ident fn
     /\ inputs fn' = List.filter (fun a => negb (is_output a)) (inputs fn)
     /\ exists outs bindings stmts,
          outs ≡ₚ omap out_param (inputs fn) /\ StronglySorted before outs.*1
          /\ output fn' = Some (match outs.*2 with [ty] => ty | tys => TypeTuple tys end)
          /\ block fn' = bindings ++ stmts ++ [to_return_value outs]
          /\ Forall2 (output_binding registry) outs bindings
          /\ length stmts = length (block fn) /\ Forall (fun s => call_stmt s = false) stmts.
Proof.
  split; [apply rewrite_fn_as_const_total|]. intros fn' Hr. unfold rewrite_fn_as_const in Hr.
  apply bind_Ret_inv in Hr as ([ins outs] & Hi & Hr). apply bind_Ret_inv in Hr as (ty & Ht & Hr).
  apply bind_Ret_inv in Hr as (body & Hb & Hr). simplify_eq.
  pose proof (split_inputs_spec (inputs fn) [] (SSorted_nil _)) as Hs. rewrite Hi in Hs.
  destruct Hs as (-> & Hso & Hp & _). split_and!; [done..|].
  apply bind_Ret_inv in Hb as (bindings & Hb & Hr). apply bind_Ret_inv in Hr as (stmts & Hst & Hr).
  simplify_eq. destruct (rewrite_fn_stmts_calls _ _ Hst) as [Hl Hc].
  pose proof (to_let_bindings_spec outs registry) as Hbs. rewrite Hb in Hbs.
  exists outs, bindings, stmts. split_and!; try done.
  unfold to_return_type in Ht. change (List.map snd outs) with outs.*2 in Ht.
  destruct outs.*2 as [|t [|t' tys]]; by simplify_eq.
Qed.

(** C17. The search for a default follows aliases for as long as they last, at most
    as many as the registry has: it gives a value exactly for the types that
    resolve to an array or to [u8], [u32] or [u64], however long the chain, and
    more fuel than the bound changes nothing for them. *)
Theorem default_for_terminates (registry : TypeRegistry) (ty : Ty) (a : Expr) :
  (default_for ty registry = Ret a <-> exists n, resolves registry n ty a)
  /\ (default_for ty registry = Ret a -> forall fuel, length registry < fuel ->
        default_for_fuel fuel ty registry = Some (Ret a)).
Proof.
  split; [apply default_for_resolves|]. intros [n Hn]%default_for_resolves fuel Hf.
  apply (resolves_default_for_fuel registry n); [done|]. apply resolves_bound in Hn. lia.
Qed.

(** ** Witnesses *)

(** The tool on the sample: the printed [twice], called with [5] alone, returns
    the array that the original leaves in [out1]. *)
Lemma constify_preserves_witness :
  exists items',
    main (fun _ => Some "the code") (fun _ => Some sample_file) ["fiat-constify"; "fiat.rs"]
      = Ret (Ok (doc_line, mkFile [build_attribute "allow" lints] items'))
    /\ run_fn (functions items' []).*1 2 "twice" [(false, VInt 5)]
         = Some ([], VArray [VInt 10; VInt 1]).
Proof.
  destruct (constify_preserves (fun _ => Some "the code") (fun _ => Some sample_file)
    "fiat-constify" "fiat.rs" "the code" sample_file) as (items' & Hm & Hs);
    [reflexivity|reflexivity|apply NoDup_singleton| |].
  - assert (forall fn registry, match rewrite_fn_as_const fn registry with Ret _ => True | _ => False end ->
      rewritable fn registry) as Hr.
    { intros fn registry Hr. apply rewrite_fn_as_const_total.
      destruct (rewrite_fn_as_const fn registry); [by eexists|done..]. }
    constructor; [|constructor; [|constructor]]; apply Hr; exact I.
  - exists items'. split; [exact Hm|].
    apply (Hs sample_source 2 "twice" [(true, VArray [VInt 0; VInt 0]); (false, VInt 5)]
      [VArray [VInt 10; VInt 1]] (VTuple [])).
    vm_compute. reflexivity.
Defined.

(** A default is found through two aliases. *)
Lemma default_for_terminates_witness :
  let registry := [("a", TypePath ["b"]); ("b", TypeArray (TypePath ["u8"]) (ExprLit "4"))] in
  default_for_fuel 7 (TypePath ["a"]) registry = Some (Ret (ExprRepeat zero (ExprLit "4"))).
Proof.
  apply (default_for_terminates [("a", TypePath ["b"]); ("b", TypeArray (TypePath ["u8"]) (ExprLit "4"))]
    (TypePath ["a"])); [reflexivity|simpl; lia].
Defined.

(** What the tool makes of [add]. *)
Lemma const_fn_form_witness :
  exists fn', rewrite_fn_as_const (sample_add "out1" "out2") [("bit", TypePath ["u8"])] = Ret fn'
  /\ constness fn' = true /\ inputs fn' = [Typed (PatIdent false "arg1") u64_ty].
Proof.
  eexists. split; [reflexivity|].
  destruct (const_fn_form (sample_add "out1" "out2") [("bit", TypePath ["u8"])]) as [_ Hf].
  edestruct Hf as (Hc & _ & Hi & _); [reflexivity|]. split; [exact Hc|exact Hi].
Defined.
