(* ===== verification/HybridArray.v ===== *)
(** * [hybrid-array]: arrays with a [typenum] size

    [typenum]'s number [U<n>] is the empty type [UInt n]; the macro
    [impl_array_size!] gives the numbers of its table the class [ArraySize]. A core
    array [[T; N]] is a list of length [N], so [Array] is a list, whose length
    [array_ok] states. The trait [ArrayOps] is the class [ArrayOps], and what its
    users rely on is [ArrayOpsLaws]; its provided methods and the conversions,
    generic over the trait in the source, are defined over the class. A mutable
    reference to a part is a function from what is written to it; a closure
    [FnMut] takes and returns its state, and can panic. *)
From stdpp Require Import base numbers list.
From S2P Require Import Prelude.

#[local] Set Warnings "-abstract-large-number".

(** ** Core arrays and slices *)

Inductive TryFromSliceError : Set := mkTryFromSliceError.

(** [<[T; N]>::try_from(slice)] *)
Definition core_try_from {T} (N : nat) (slice : list T) : result (list T) TryFromSliceError :=
  if length slice =? N then Ok slice else Err mkTryFromSliceError.

(** [arr.map(f)]: the closure is called on the elements in order. *)
Fixpoint core_map {T U S} (arr : list T) (f : T -> S -> run (U * S)) (s : S) :
    run (list U * S) :=
  match arr with
  | [] => Ret ([], s)
  | x :: arr =>
      let! (y, s) := f x s in
      let! (ys, s) := core_map arr f s in
      Ret (y :: ys, s)
  end.

(** [[T]: Index<I>] and [[T]: IndexMut<I>]: an index of a slice, what it gives, and
    writing to that. *)
Class SliceIndex (T I Output : Type) := {
  slice_index : list T -> I -> run Output;
  slice_index_mut : list T -> I -> Output -> run (list T);
}.

(** Writing through a slice does not change its length. *)
Class SliceIndexLaws (T I Output : Type) `{SliceIndex T I Output} := {
  length_slice_index_mut (l : list T) (i : I) o l' :
    slice_index_mut l i o = Ret l' -> length l' = length l;
}.

(** [usize] *)
#[export] Instance usize_index {T} : SliceIndex T nat T := {|
  slice_index l i := index l i;
  slice_index_mut l i x := store l i x;
|}.

(** [Range<usize>]; what is written has the length of the range. *)
Record Range := mkRange { start : nat; end_ : nat }.

#[export] Instance range_index {T} : SliceIndex T Range (list T) := {|
  slice_index l r := slice l (start r) (end_ r);
  slice_index_mut l r src := copy_at l (start r) (end_ r) src;
|}.

(** ** Sizes *)

Inductive UInt (n : nat) : Set := .

(** The table of [impl_array_size!]. *)
Definition array_sizes : list nat :=
  seq 0 65 ++ [96; 128; 192; 256; 384; 448; 512; 768; 896; 1024; 2048; 4096; 8192].

(** The trait [ArraySize]: the length of the associated [ArrayType], one of those of
    the table. *)
Class ArraySize (U : Type) := {
  array_len : nat;
  array_len_listed : array_len ∈ array_sizes;
}.
Arguments array_len U {_}.

Class Listed (n : nat) := listed : n ∈ array_sizes.
#[export] Hint Extern 1 (Listed _) =>
  unfold Listed; apply (bool_decide_unpack _); exact I : typeclass_instances.

#[export] Instance impl_array_size (n : nat) `{!Listed n} : ArraySize (UInt n) := {|
  array_len := n;
  array_len_listed := listed;
|}.

(** ** [ArrayOps] *)

Record Array (T U : Type) := mkArray { array_0 : list T }.
Arguments mkArray {T U} _.
Arguments array_0 {T U} _.

(** Array operations which are const generic over a given array size. *)
Class ArrayOps (Self T : Type) (N : nat) := {
  SIZE : nat;
  as_array_ref : Self -> list T;
  as_array_mut : Self -> list T -> Self;
  from_core_array : list T -> Self;
  from_slice : list T -> result Self TryFromSliceError;
  map : forall {U S : Type}, Self -> (T -> S -> run (U * S)) -> S -> run (list U * S);
}.
Arguments SIZE Self T N {_}.
Arguments as_array_ref {Self T} N {_} _.
Arguments as_array_mut {Self T} N {_} _ _.
Arguments from_core_array {Self T} N {_} _.
Arguments from_slice {Self T} N {_} _.
Arguments map {Self T} N {_ U S} _ _ _.

Definition usize_max : Z := 2 ^ 64 - 1.
Definition saturating_add (a b : Z) : Z := Z.min (a + b) usize_max.

Section provided.
Context {Self T : Type} (N : nat) `{ArrayOps Self T N}.

(** Create array where each array element [T] is returned by the [cb] call. *)
Definition from_fn {S} (cb : Z -> S -> run (T * S)) (s : S) : run (Self * S) :=
  let idx := 0%Z in
  let! (arr, (s, idx)) :=
    core_map (replicate N tt) (fun _ '(s, idx) =>
      let! (res, s) := cb idx s in
      let idx := saturating_add idx 1 in
      Ret (res, (s, idx))) (s, idx) in
  Ret (from_core_array N arr, s).

(** [AsRef], [AsMut], [Borrow], [BorrowMut] and [From]. *)
Definition as_ref (self : Self) : list T := as_array_ref N self.
Definition as_mut (self : Self) (value : list T) : Self := as_array_mut N self value.
Definition borrow (self : Self) : list T := as_array_ref N self.
Definition borrow_mut (self : Self) (value : list T) : Self := as_array_mut N self value.
Definition from (arr : list T) : Self := from_core_array N arr.

(** The elements that an iterator gives, and a write of the values [xs] through
    those that an [iter_mut] gives. *)
Definition iter (self : Self) : list T := as_ref self.
Definition iter_mut (self : Self) (xs : list T) : Self := as_mut self xs.

End provided.

(** ** [Array] *)

Section array.
Context {T U : Type} `{ArraySize U}.

#[export] Instance array_ops : ArrayOps (Array T U) T (array_len U) := {|
  SIZE := array_len U;
  as_array_ref self := array_0 self;
  as_array_mut self value := mkArray value;
  from_core_array arr := mkArray arr;
  from_slice slice := result_map mkArray (core_try_from (array_len U) slice);
  map _ _ self f := core_map (array_0 self) f;
|}.

(** [IntoArray] for a core array. *)
Definition into_hybrid_array (self : list T) : Array T U := from_core_array (array_len U) self.

(** [IntoIterator] for an array and for references to one. *)
Definition into_iter (self : Array T U) : list T := array_0 self.
Definition into_iter_ref (self : Array T U) : list T := iter (array_len U) self.
Definition into_iter_mut (self : Array T U) (xs : list T) : Array T U :=
  iter_mut (array_len U) self xs.

(** Returns a slice containing the entire array. *)
Definition as_slice (self : Array T U) : list T := array_0 self.

(** A write to the slice containing the entire array. *)
Definition as_mut_slice (self : Array T U) (slice : list T) : Array T U := mkArray slice.

(** [Index] and [IndexMut] *)
Definition index {I Output} `{SliceIndex T I Output} (self : Array T U) (i : I) : run Output :=
  slice_index (as_slice self) i.
Definition index_mut {I Output} `{SliceIndex T I Output} (self : Array T U) (i : I) (o : Output) :
    run (Array T U) :=
  let! slice := slice_index_mut (as_slice self) i o in
  Ret (as_mut_slice self slice).

(** [TryFrom<&[T]>] *)
Definition try_from (slice : list T) : result (Array T U) TryFromSliceError :=
  result_map mkArray (core_try_from (array_len U) slice).

(** The invariant of the type: an array has its size. *)
Definition array_ok (a : Array T U) : Prop := length (array_0 a) = array_len U.

End array.

(** Byte array type. *)
Definition ByteArray (U : Type) : Type := Array u8 U.

(** ** What an implementation promises *)

Class ArrayOpsLaws (Self T : Type) (N : nat) `{ArrayOps Self T N} (ok : Self -> Prop) := {
  SIZE_eq : SIZE Self T N = N;
  length_as_array_ref a : ok a -> length (as_array_ref N a) = N;
  from_core_array_ok arr : length arr = N -> ok (from_core_array N arr);
  as_array_ref_from_core arr : as_array_ref N (from_core_array N arr) = arr;
  as_array_mut_eq a arr : as_array_mut N a arr = from_core_array N arr;
  from_slice_eq slice : from_slice N slice
    = if length slice =? N then Ok (from_core_array N slice) else Err mkTryFromSliceError;
  map_eq {U S : Type} a (f : T -> S -> run (U * S)) s :
    map N a f s = core_map (as_array_ref N a) f s;
}.

Lemma length_core_map {T U S} arr (f : T -> S -> run (U * S)) s ys s' :
  core_map arr f s = Ret (ys, s') -> length ys = length arr.
Proof.
  revert s ys. induction arr as [|x arr IH]; intros s ys Hm; simpl in Hm; [by simplify_eq|].
  apply bind_Ret_inv in Hm as ([y s1] & _ & Hm). apply bind_Ret_inv in Hm as ([ys1 s2] & Hm & E).
  simplify_eq. simpl. by rewrite (IH s1 ys1).
Qed.

(** A closure without effects. *)
Lemma core_map_pure {T U S} arr (f : T -> S -> run (U * S)) (g : T -> U) s :
  (forall x s, f x s = Ret (g x, s)) -> core_map arr f s = Ret (g <$> arr, s).
Proof.
  intros Hf. induction arr as [|x arr IH]; simpl; [done|]. by rewrite Hf, bind_Ret, IH.
Qed.

Section laws.
Context {Self T : Type} (N : nat) (ok : Self -> Prop) `{ArrayOpsLaws Self T N ok}.

(** The loop of [from_fn] from the index [i]. *)
Lemma from_fn_loop {S} (cb : Z -> S -> run (T * S)) n i s :
  (Z.of_nat (i + n) <= usize_max)%Z ->
  core_map (replicate n tt) (fun _ '(s, idx) =>
    let! (res, s) := cb idx s in
    let idx := saturating_add idx 1 in Ret (res, (s, idx))) (s, Z.of_nat i)
  = let! (xs, s) := core_map (Z.of_nat <$> seq i n) cb s in
    Ret (xs, (s, Z.of_nat (i + n))).
Proof.
  revert i s. induction n as [|n IH]; intros i s Hi; simpl; [by rewrite Nat.add_0_r|].
  destruct (cb (Z.of_nat i) s) as [[x s1]| |]; simpl; [|done..].
  replace (saturating_add (Z.of_nat i) 1) with (Z.of_nat (Datatypes.S i)) by (unfold saturating_add; lia).
  rewrite (IH (Datatypes.S i)) by lia. rewrite Nat.add_succ_r. simpl.
  by destruct (core_map _ cb s1) as [[xs s2]| |].
Qed.

Lemma from_fn_eq {S} (cb : Z -> S -> run (T * S)) s :
  (Z.of_nat N <= usize_max)%Z ->
  from_fn N cb s
  = let! (xs, s) := core_map (Z.of_nat <$> seq 0 N) cb s in Ret (from_core_array N xs, s).
Proof.
  intros HN. pose proof (from_fn_loop cb N 0 s HN) as E. unfold from_fn.
  change (Z.of_nat 0) with 0%Z in E. cbv zeta in *. rewrite E.
  by destruct (core_map _ cb s) as [[xs s1]| |].
Qed.

(** Any implementation that keeps the laws makes arrays of the right size. *)
Lemma from_fn_ok {S} (cb : Z -> S -> run (T * S)) s a s' :
  (Z.of_nat N <= usize_max)%Z -> from_fn N cb s = Ret (a, s') ->
  ok a /\ core_map (Z.of_nat <$> seq 0 N) cb s = Ret (as_array_ref N a, s').
Proof.
  intros HN Hf. rewrite from_fn_eq in Hf by done.
  apply bind_Ret_inv in Hf as ([xs s1] & Hm & [= <- <-]). split.
  - apply from_core_array_ok. apply length_core_map in Hm.
    by rewrite Hm, length_fmap, length_seq.
  - by rewrite as_array_ref_from_core.
Qed.
End laws.

Lemma array_sizes_small n : n ∈ array_sizes -> (Z.of_nat n <= 8192)%Z.
Proof.
  assert (Forall (fun n => (Z.of_nat n <= 8192)%Z) array_sizes) as Hs.
  { apply (bool_decide_unpack _). vm_compute. exact I. }
  rewrite Forall_forall in Hs. by apply Hs.
Qed.

Lemma array_sizes_usize n : n ∈ array_sizes -> (Z.of_nat n <= usize_max)%Z.
Proof. intros Hn%array_sizes_small. unfold usize_max. lia. Qed.

#[export] Instance usize_index_laws {T} : SliceIndexLaws T nat T.
Proof.
  constructor. intros l i x l'. simpl. unfold store. destruct (i <? length l); [|done].
  intros [= <-]. apply length_insert.
Qed.

#[export] Instance range_index_laws {T} : SliceIndexLaws T Range (list T).
Proof.
  constructor. intros l [a b] src l'. simpl. unfold copy_at.
  destruct ((a <=? b) && (b <=? length l) && (length src =? b - a)) eqn:E; [|done].
  intros [= <-]. apply andb_prop in E as [[E1%Nat.leb_le E2%Nat.leb_le]%andb_prop E3%Nat.eqb_eq].
  len.
Qed.

Section array_laws.
Context {T U : Type} `{ArraySize U}.

#[export] Instance array_ops_laws : ArrayOpsLaws (Array T U) T (array_len U) array_ok.
Proof.
  constructor; try done. intros slice. simpl. unfold core_try_from. by destruct (_ =? _).
Qed.

Lemma index_mut_ok {I Output} `{SliceIndexLaws T I Output} (a a' : Array T U) i o :
  array_ok a -> index_mut a i o = Ret a' -> array_ok a'.
Proof.
  unfold array_ok, index_mut. intros Ha Hi. apply bind_Ret_inv in Hi as (l & Hl & [= <-]).
  simpl. by rewrite (length_slice_index_mut _ _ _ _ Hl).
Qed.

(** A write to one element. *)
Lemma index_mut_usize (a : Array T U) i (x : T) :
  array_ok a ->
  (exists a', index_mut a i x = Ret a' /\ array_ok a' /\ i < array_len U
   /\ forall j, index a' j = if i =? j then Ret x else index a j)
  \/ index_mut a i x = Panic /\ array_len U <= i.
Proof.
  intros Ha. unfold index_mut, as_slice. simpl. destruct (decide (i < array_len U)) as [Hi|Hi].
  - left. exists (mkArray (<[i:=x]> (array_0 a))). rewrite store_ok by (by rewrite Ha).
    split_and!; [done| |done|].
    + unfold array_ok. simpl. by rewrite length_insert.
    + intros j. unfold index, as_slice. simpl. unfold Prelude.index.
      destruct (Nat.eqb_spec i j) as [->|Hne].
      * by rewrite list_lookup_insert_eq by (by rewrite Ha).
      * by rewrite list_lookup_insert_ne.
  - right. split; [|lia]. unfold store. by rewrite (proj2 (Nat.ltb_ge _ _)) by (rewrite Ha; lia).
Qed.

(** A write of the elements [src] to a range. *)
Lemma index_mut_range (a : Array T U) b e (src : list T) :
  array_ok a -> length src = e - b ->
  (exists a', index_mut a (mkRange b e) src = Ret a' /\ array_ok a' /\ b <= e <= array_len U
   /\ forall j, array_0 a' !! j
        = if (b <=? j) && (j <? e) then src !! (j - b) else array_0 a !! j)
  \/ index_mut a (mkRange b e) src = Panic /\ (e < b \/ array_len U < e).
Proof.
  intros Ha Hs. destruct (index_mut a (mkRange b e) src) as [a'| |] eqn:E.
  - left. exists a'. split; [done|]. split; [by eapply index_mut_ok|]. revert E.
    unfold index_mut, as_slice. simpl. unfold copy_at.
    destruct ((b <=? e) && (e <=? length (array_0 a)) && (length src =? e - b)) eqn:Eb; [|done].
    apply andb_prop in Eb as [[E1%Nat.leb_le E2%Nat.leb_le]%andb_prop _]. intros [= <-]. simpl.
    split; [by rewrite <- Ha|]. intros j.
    destruct (Nat.leb_spec b j); simpl; [destruct (Nat.ltb_spec j e); simpl|].
    + rewrite lookup_app_r, length_take, Nat.min_l by len. by rewrite lookup_app_l by lia.
    + rewrite lookup_app_r, length_take, Nat.min_l by len.
      rewrite lookup_app_r, lookup_drop by lia. f_equal. lia.
    + rewrite lookup_app_l by len. by rewrite lookup_take_lt.
  - right. split; [done|]. revert E. unfold index_mut, as_slice. simpl. unfold copy_at.
    rewrite Hs, Nat.eqb_refl, Ha, andb_true_r.
    destruct (Nat.leb_spec b e), (Nat.leb_spec e (array_len U)); simpl; try done; lia.
  - exfalso. revert E. unfold index_mut. simpl. unfold copy_at. by destruct (_ && _).
Qed.
End array_laws.

(** ** Properties *)

(** C39. The arrays are well typed: for every size of the table, an array made of a
    core array, or of a slice (accepted exactly when it has the length of the
    array), has its size and gives the same elements back; [map] gives a core array of
    the same length. An index gives the element there, a range the elements in it, and
    a write through one, of an element or of as many as the range has, replaces these
    and no others and keeps the size: all exactly in the bounds of the size, any other
    index or range panics, for reading and for writing. *)
Theorem array_typed {T U : Type} `{ArraySize U} (a : Array T U) :
  array_ok a ->
  let N := array_len U in
  (forall arr, length arr = N ->
     array_ok (from N arr : Array T U) /\ as_ref N (from N arr : Array T U) = arr
     /\ into_iter (into_hybrid_array arr : Array T U) = arr)
  /\ (forall slice, try_from slice = (from_slice N slice : result (Array T U) _)
       /\ try_from slice = if length slice =? N then Ok (mkArray slice : Array T U)
                           else Err mkTryFromSliceError)
  /\ (forall i, (exists x, index a i = Ret x /\ array_0 a !! i = Some x) /\ i < N
                \/ index a i = Panic /\ N <= i)
  /\ (forall b e, index a (mkRange b e)
        = if (b <=? e) && (e <=? N) then Ret (take (e - b) (drop b (array_0 a))) else Panic)
  /\ (forall i (x : T),
        (exists a', index_mut a i x = Ret a' /\ array_ok a' /\ i < N
         /\ forall j, index a' j = if i =? j then Ret x else index a j)
        \/ index_mut a i x = Panic /\ N <= i)
  /\ (forall b e src, length src = e - b ->
        (exists a', index_mut a (mkRange b e) src = Ret a' /\ array_ok a' /\ b <= e <= N
         /\ forall j, array_0 a' !! j
              = if (b <=? j) && (j <? e) then src !! (j - b) else array_0 a !! j)
        \/ index_mut a (mkRange b e) src = Panic /\ (e < b \/ N < e))
  /\ (forall V S (f : T -> S -> run (V * S)) s ys s', map N a f s = Ret (ys, s') -> length ys = N).
Proof.
  intros Ha N. split_and!.
  - intros arr Hl. by split_and!.
  - intros slice. split; [done|]. unfold try_from, core_try_from. subst N. by destruct (_ =? _).
  - intros i. unfold index, as_slice. simpl. unfold Prelude.index.
    destruct (array_0 a !! i) as [x|] eqn:E.
    + left. split; [by exists x|]. apply lookup_lt_Some in E. by rewrite Ha in E.
    + right. split; [done|]. apply lookup_ge_None in E. by rewrite Ha in E.
  - intros b e. unfold index, as_slice. simpl. unfold slice. by rewrite Ha.
  - intros i x. by apply (index_mut_usize a i x).
  - intros b e src Hl. by apply (index_mut_range a b e src).
  - intros V S f s ys s' Hm. apply length_core_map in Hm. by rewrite Hm.
Qed.

(** A write in the bounds, of one element and of two, and one outside of them. *)
Lemma array_typed_witness :
  let a := mkArray [7; 8; 9] : Array nat (UInt 3) in
  (exists a', index_mut a 1 5 = Ret a' /\ index a' 1 = Ret 5 /\ index a' 2 = Ret 9)
  /\ index_mut a 3 5 = Panic
  /\ (exists a', index_mut a (mkRange 1 3) [4; 6] = Ret a' /\ array_0 a' !! 2 = Some 6)
  /\ try_from [1; 2] = (Err mkTryFromSliceError : result (Array nat (UInt 3)) _).
Proof.
  intros a. destruct (array_typed a) as (_ & Ht & _ & _ & Hw & Hr & _); [reflexivity|].
  split; [|split; [|split]].
  - destruct (Hw 1 5) as [(a' & E & _ & _ & Hi)|[E _]]; [|discriminate E].
    exists a'. split; [exact E|]. rewrite !Hi. split; reflexivity.
  - destruct (Hw 3 5) as [(a' & E & _)|[E _]]; [discriminate E|exact E].
  - destruct (Hr 1 3 [4; 6] eq_refl) as [(a' & E & _ & _ & Hi)|[E _]]; [|discriminate E].
    exists a'. split; [exact E|]. rewrite Hi. reflexivity.
  - destruct (Ht [1; 2]) as [_ E]. rewrite E. reflexivity.
Defined.

(** C18. For every size of the table [from_fn] calls the closure with the indices
    [0, 1, .., N - 1], in order and once each (the saturating addition never
    saturates: the sizes are at most 8192), stops at the first call that panics, and
    the array holds what the calls return. *)
Theorem from_fn_correct {T U : Type} `{ArraySize U} {S : Type} (cb : Z -> S -> run (T * S))
    (s : S) :
  let N := array_len U in
  from_fn N cb s
  = (let! (xs, s) := core_map (Z.of_nat <$> seq 0 N) cb s in Ret (mkArray xs : Array T U, s))
  /\ (forall a s', from_fn N cb s = Ret (a : Array T U, s') -> array_ok a)
  /\ (forall g, (forall i s, cb i s = Ret (g i, s)) ->
        exists a : Array T U, from_fn N cb s = Ret (a, s)
        /\ forall i, i < N -> index a i = Ret (g (Z.of_nat i))).
Proof.
  intros N. assert (from_fn N cb s
    = (let! (xs, s) := core_map (Z.of_nat <$> seq 0 N) cb s in Ret (mkArray xs : Array T U, s))) as E.
  { exact (from_fn_eq (Self := Array T U) N cb s (array_sizes_usize N array_len_listed)). }
  split_and!; [done| |].
  - intros a s' Hf. apply (from_fn_ok N array_ok cb s a s'); [|done].
    apply array_sizes_usize, array_len_listed.
  - intros g Hg. eexists. rewrite E, (core_map_pure _ _ g) by done. split; [done|].
    intros i Hi. unfold index, as_slice. simpl. unfold Prelude.index.
    by rewrite <- list_fmap_compose, list_lookup_fmap, lookup_seq_lt.
Qed.

(** A closure that counts its calls. *)
Lemma from_fn_correct_witness :
  from_fn (array_len (UInt 4)) (fun i n => Ret (Z.mul i i, n + 1)) 0
  = Ret (mkArray [0; 1; 4; 9]%Z : Array Z (UInt 4), 4).
Proof.
  destruct (from_fn_correct (U := UInt 4) (fun i n => Ret (Z.mul i i, n + 1)) 0) as [E _].
  exact E.
Defined.
