(* ===== verification/Collectable.v ===== *)
(** * [collectable]: fallible collections

    The traits are classes: a method on [&mut self] returns the collection as it
    leaves it, also when it fails. An iterator is the list of the items it still
    gives; a method that takes one returns what it leaves of it. A collection
    shows its elements as a slice ([AsRef<[T]>]), and [TryExtendLaws] is what
    extending it means; the laws of the traits with blanket implementations
    ([TryFromIterator], [TryCollect]) are proved from it for any collection. *)
From stdpp Require Import base numbers list.
From S2P Require Import Prelude.

(** Obtain the length of a collection. *)
Class Length (C : Type) := len_ : C -> nat.

(** Is the collection empty? *)
Definition is_empty {C} `{Length C} (self : C) : bool := len_ self =? 0.

(** Truncate the collection to the provided length. *)
Class Truncate (C : Type) := truncate : C -> nat -> C.

(** Fallible equivalent of [core::iter::Extend]. *)
Class TryExtend (C A E : Type) :=
  try_extend : C -> list A -> run (C * list A * result unit E).

(** Try to extend the collection from the given slice; [Clone] copies the items. *)
Definition try_extend_from_slice {C A E} `{TryExtend C A E} (self : C) (slice : list A) :
    run (C * result unit E) :=
  let! (self, _, r) := try_extend self slice in Ret (self, r).

(** Try to build a collection type from an [Iterator]. *)
Class TryFromIterator (C A E : Type) :=
  try_from_iter : list A -> run (result C E * list A).

(** [Default] *)
Class Default (C : Type) := default_collection : C.

#[export] Instance try_from_iterator {C A E} `{Default C, TryExtend C A E} : TryFromIterator C A E :=
  fun iter =>
    let collection := default_collection in
    let! (collection, rest, r) := try_extend collection iter in
    match r with
    | Ok _ => Ret (Ok collection, rest)
    | Err e => Ret (Err e, rest)
    end.

(** Try to push an element onto a collection. *)
Class TryPush (C A : Type) := try_push : C -> A -> run (C * result unit A).

(** [TryCollect]: for every iterator, which keeps the items that are not taken. *)
Definition try_collect {B A E} `{TryFromIterator B A E} (self : list A) :
    run (result B E * list A) :=
  try_from_iter self.

(** [AsRef<[T]>] and [AsMut<[T]>] *)
Class AsSlice (C A : Type) := {
  as_slice_ref : C -> list A;
  as_slice_mut : C -> list A -> C;
}.

(** Collection types implement all of the traits in this crate. *)
Class Collection (C A E : Type) := {
  collection_as_slice :: AsSlice C A;
  collection_default :: Default C;
  collection_length :: Length C;
  collection_truncate :: Truncate C;
  collection_try_extend :: TryExtend C A E;
  collection_try_push :: TryPush C A;
}.

(** ** [Vec] *)

(** [core::convert::Infallible] *)
Inductive Infallible : Set := .

#[export] Instance vec_length {A} : Length (list A) := length.
#[export] Instance vec_truncate {A} : Truncate (list A) := fun self len => take len self.
#[export] Instance vec_try_extend {A} : TryExtend (list A) A Infallible :=
  fun self iter => Ret (self ++ iter, [], Ok tt).
#[export] Instance vec_default {A} : Default (list A) := [].
#[export] Instance vec_as_slice {A} : AsSlice (list A) A := {|
  as_slice_ref self := self;
  as_slice_mut _ slice := slice;
|}.

(** ** What a collection promises *)

(** Extending appends items in order; it fails only with items that do not fit. *)
Class TryExtendLaws (C A E : Type) `{AsSlice C A, TryExtend C A E} := {
  try_extend_appends self iter : exists self' rest r,
    try_extend self iter = Ret (self', rest, r)
    /\ exists taken, iter = taken ++ rest
       /\ (r = Ok tt -> rest = [] /\ as_slice_ref self' = as_slice_ref self ++ taken);
}.

Class CollectionLaws (C A : Type) `{AsSlice C A, Default C, Length C, Truncate C} := {
  default_empty : as_slice_ref (default_collection : C) = [];
  len_eq self : len_ self = length (as_slice_ref self);
  truncate_eq self n : as_slice_ref (truncate self n) = take n (as_slice_ref self);
}.

#[export] Instance vec_try_extend_laws {A} : TryExtendLaws (list A) A Infallible.
Proof.
  constructor. intros self iter. do 3 eexists. split; [done|]. exists iter.
  by rewrite app_nil_r.
Qed.

#[export] Instance vec_laws {A} : CollectionLaws (list A) A.
Proof. by constructor. Qed.

Section collected.
Context {C A E : Type} `{CollectionLaws C A} `{!TryExtend C A E, !TryExtendLaws C A E}.
Implicit Types (c : C) (iter slice : list A).

Lemma is_empty_true c : is_empty c = true <-> as_slice_ref c = [].
Proof. unfold is_empty. by rewrite Nat.eqb_eq, len_eq, length_zero_iff_nil. Qed.

Lemma try_extend_from_slice_correct c slice :
  exists c' r, try_extend_from_slice c slice = Ret (c', r)
  /\ (r = Ok tt -> as_slice_ref c' = as_slice_ref c ++ slice).
Proof.
  unfold try_extend_from_slice.
  destruct (try_extend_appends c slice) as (c' & rest & r & -> & taken & Ht & Hr).
  exists c', r. split; [done|]. intros [-> ->]%Hr. by rewrite Ht, app_nil_r.
Qed.

(** Collecting an iterator gives a collection of all its items, or an error; what
    is left of the iterator is the end of it. *)
Lemma try_collect_correct iter :
  exists r rest, try_collect iter = Ret (r, rest)
  /\ (exists taken, iter = taken ++ rest)
  /\ forall c : C, r = Ok c -> rest = [] /\ as_slice_ref c = iter.
Proof.
  unfold try_collect, try_from_iter, try_from_iterator.
  destruct (try_extend_appends default_collection iter) as (c & rest & r & -> & taken & -> & Hr).
  simpl. destruct r as [[]|e].
  - eexists _, _. split; [done|]. split; [by exists taken|]. intros c' [= <-].
    destruct (Hr eq_refl) as [-> ->]. by rewrite default_empty, app_nil_r.
  - eexists _, _. split; [done|]. split; [by exists taken|]. done.
Qed.

(** Truncating to more than the length changes nothing. *)
Lemma truncate_long c n : len_ c <= n -> as_slice_ref (truncate c n) = as_slice_ref c.
Proof. rewrite len_eq, truncate_eq. apply take_ge. Qed.

End collected.

(** [Vec]s collect everything. *)
Lemma vec_try_collect {A} (iter : list A) :
  try_collect iter = Ret (Ok iter : result (list A) Infallible, []).
Proof. done. Qed.

(** ** A collection of bounded capacity *)

Record Bounded (capacity : nat) (A : Type) := mkBounded { elements : list A }.
Arguments mkBounded {capacity A} elements.
Arguments elements {capacity A} self : rename.

Section bounded.
Context {capacity : nat} {A : Type}.
Abbreviation Bounded := (Bounded capacity A).

(** Extending takes items while there is room; the item that has none is dropped. *)
Fixpoint extend_bounded (elems iter : list A) : list A * list A * result unit unit :=
  match iter with
  | [] => (elems, [], Ok tt)
  | x :: iter =>
      if length elems <? capacity then extend_bounded (elems ++ [x]) iter else (elems, iter, Err tt)
  end.

#[export] Instance bounded_collection : Collection Bounded A unit := {|
  collection_as_slice := {| as_slice_ref := elements; as_slice_mut _ slice := mkBounded slice |};
  collection_default := mkBounded [];
  collection_length self := length (elements self);
  collection_truncate self len := mkBounded (take len (elements self));
  collection_try_extend self iter :=
    let '(elems, rest, r) := extend_bounded (elements self) iter in Ret (mkBounded elems, rest, r);
  collection_try_push self item :=
    Ret (if length (elements self) <? capacity
         then (mkBounded (elements self ++ [item]), Ok tt) else (self, Err item));
|}.

#[export] Instance bounded_laws : CollectionLaws Bounded A.
Proof. by constructor. Qed.

Lemma extend_bounded_ok elems iter :
  exists taken rest elems' r, extend_bounded elems iter = (elems', rest, r)
  /\ iter = taken ++ rest /\ (r = Ok tt -> rest = [] /\ elems' = elems ++ taken).
Proof.
  revert elems. induction iter as [|x iter IH]; intros elems; simpl.
  - exists [], [], elems, (Ok tt). split_and!; [done..|]. by rewrite app_nil_r.
  - destruct (_ <? _).
    + destruct (IH (elems ++ [x])) as (taken & rest & elems' & r & -> & -> & Hr).
      exists (x :: taken), rest, elems', r. split_and!; [done..|]. intros [-> ->]%Hr.
      by rewrite <- app_assoc.
    + by exists [x], iter, elems, (Err tt).
Qed.

#[export] Instance bounded_extend_laws : TryExtendLaws Bounded A unit.
Proof.
  constructor. intros self iter. unfold try_extend. simpl.
  destruct (extend_bounded_ok (elements self) iter) as (taken & rest & elems & r & -> & -> & Hr).
  exists (mkBounded elems), rest, r. split; [done|]. exists taken. split; [done|]. exact Hr.
Qed.
End bounded.

(** ** Properties *)

(** C40. What the default methods and the blanket implementations of the traits
    promise for every collection that keeps the laws: [is_empty] tells whether there
    is an element, [try_extend_from_slice] appends the slice when it succeeds, and
    [try_collect] gives either a collection of exactly the items of the iterator,
    which is used up, or the error, and leaves the iterator at some later item;
    [Vec] collects every iterator. *)
Theorem collection_correct {C A E : Type} `{CollectionLaws C A}
    `{!TryExtend C A E, !TryExtendLaws C A E} :
  (forall c : C, is_empty c = true <-> as_slice_ref c = [])
  /\ (forall (c : C) slice, exists c' r, try_extend_from_slice c slice = Ret (c', r)
        /\ (r = Ok tt -> as_slice_ref c' = as_slice_ref c ++ slice
                        /\ len_ c' = len_ c + length slice))
  /\ (forall iter, exists r rest, try_collect iter = Ret (r, rest)
        /\ (exists taken, iter = taken ++ rest)
        /\ forall c : C, r = Ok c -> rest = [] /\ as_slice_ref c = iter /\ len_ c = length iter)
  /\ (forall iter, try_collect iter = Ret (Ok iter : result (list A) Infallible, [])).
Proof.
  split_and!.
  - exact is_empty_true.
  - intros c slice. destruct (try_extend_from_slice_correct c slice) as (c' & r & E' & Hr).
    exists c', r. split; [done|]. intros Ho%Hr. rewrite !len_eq, Ho. by rewrite length_app.
  - intros iter. destruct (try_collect_correct iter) as (r & rest & E' & Ht & Hr).
    exists r, rest. split_and!; [done..|]. intros c [-> Hc]%Hr. by rewrite len_eq, Hc.
  - exact vec_try_collect.
Qed.

Lemma collection_correct_witness :
  try_collect [1; 2] = Ret (Ok (mkBounded [1; 2] : Bounded 2 nat), [])
  /\ try_collect [1; 2; 3; 4] = Ret (Err tt : result (Bounded 2 nat) unit, [4])
  /\ is_empty (mkBounded [1] : Bounded 2 nat) = false
  /\ exists c r, try_extend_from_slice (mkBounded [1] : Bounded 2 nat) [5; 6] = Ret (c, r)
     /\ r = Err tt.
Proof.
  destruct (collection_correct (C := Bounded 2 nat)) as (He & Hx & Hc & _).
  split; [|split; [reflexivity|split]].
  - destruct (Hc [1; 2]) as (r & rest & E & _ & Hr). rewrite E.
    assert (r = Ok (mkBounded [1; 2])) as -> by (vm_compute in E; congruence).
    by destruct (Hr _ eq_refl) as [-> _].
  - destruct (is_empty _) eqn:Hb; [|done]. by apply He in Hb.
  - destruct (Hx (mkBounded [1]) [5; 6]) as (c & r & E & _). exists c, r. split; [exact E|].
    vm_compute in E. congruence.
Defined.
