(* ===== verification/OpaqueDebug.v ===== *)
(** * [opaque-debug]: a [Debug] that shows the name only

    The macro [implement!] writes [fmt] with a format string made at compile time;
    [format_literal] is what [write!] does with a format string without arguments,
    in which a brace is doubled. The formatter is a parameter. *)
From Stdlib Require Import Strings.Ascii Strings.String.
From stdpp Require Import base numbers strings.
From S2P Require Import Prelude.
Local Open Scope string_scope.

(** The text of a format string; [None] for one that names an argument, which is
    not compiled. *)
Fixpoint format_literal (s : string) : option string :=
  match s with
  | EmptyString => Some EmptyString
  | String "{" (String "{" s) => String "{" <$> format_literal s
  | String "}" (String "}" s) => String "}" <$> format_literal s
  | String "{" _ | String "}" _ => None
  | String c s => String c <$> format_literal s
  end%char.

Section implement.
(** [write_str] of the formatter; [Struct] is the type, [name] what [stringify!]
    makes of it. *)
Context {Formatter FmtError Struct : Type} (name : string).
Context (write_str : Formatter -> string -> Formatter * result unit FmtError).

(** [implement!($struct)]: [<$struct as Debug>::fmt] *)
Definition fmt (self : Struct) (f : Formatter) : option (Formatter * result unit FmtError) :=
  write_str f <$> format_literal (name +:+ " {{ ... }}").

End implement.

(** A name without braces. *)
Fixpoint plain (s : string) : Prop :=
  match s with
  | EmptyString => True
  | String c s => c <> "{"%char /\ c <> "}"%char /\ plain s
  end.

Lemma format_literal_cons c s :
  c <> "{"%char -> c <> "}"%char -> format_literal (String c s) = String c <$> format_literal s.
Proof.
  intros H1 H2. destruct c as [b0 b1 b2 b3 b4 b5 b6 b7].
  destruct b0, b1, b2, b3, b4, b5, b6, b7; simpl; done.
Qed.

Lemma format_literal_app s s' :
  plain s -> format_literal (s +:+ s') = String.append s <$> format_literal s'.
Proof.
  induction s as [|c s IH]; intros Hs.
  - change (EmptyString +:+ s') with s'. by destruct (format_literal s').
  - destruct Hs as (H1 & H2 & Hs). change (String c s +:+ s') with (String c (s +:+ s')).
    rewrite format_literal_cons, IH by done. by destruct (format_literal s').
Qed.

(** What is written is the name and an ellipsis, whatever the value. *)
Lemma fmt_opaque {Formatter FmtError Struct : Type} name
    (write_str : Formatter -> string -> Formatter * result unit FmtError) (self : Struct) f :
  plain name -> fmt name write_str self f = Some (write_str f (name +:+ " { ... }")).
Proof. intros Hn. unfold fmt. by rewrite format_literal_app. Qed.
